(* ===== verification/_CoqProject ===== *)
-Q . S2P
Prelude.v
RustStd.v
Net.v
FakeDns.v
Stream.v
Proxy.v
Rule.v
Config.v
Socks5.v
Http.v
Request.v
Dns.v
Seccomp.v
Access.v
Memory.v
Message.v
Relay.v
TcpBind.v
Sockets.v
Connect.v
Diagnostics.v
Ingress.v
Files.v
Memfd.v
Tcp.v
Broker.v
Connections.v
Datagram.v
Engine.v
Process.v
Direct.v
Upstream.v
System.v
Receiver.v
Startup.v
Main.v
Conformance.v
