(* ===== verification/Prelude.v ===== *)
(** * scproxy: a verification of the repository's Rust sources

    scproxy runs a command under a seccomp filter and makes its IPv4 TCP
    connections go through a proxy. Paths below are those of the repository
    (src/rule.rs and so on).

    ** The program and how its parts interact

    - The command installs a BPF filter that stops it at socket, connect, the
      addressed sends and receives, getpeername, getsockopt(SO_PEERNAME) and
      file opens, and hands the listener to the supervisor in a twenty-byte
      handshake.
    - A receiver thread takes notifications from the kernel and queues them for
      the event loop of the broker, which handles up to 256 at a time: it reads
      arguments from the command's memory, acts on the command's own sockets
      through duplicated descriptors and answers each notification.
    - DNS datagrams and DNS connections are sent to local endpoints that answer
      every name with an address of a fake pool and remember the name. Opens of
      the resolver's configuration files get synthetic files.
    - A TCP connect is routed by the command-line rules (names found through
      the fake pool, addresses by prefix). A numeric direct destination runs
      natively; everything else is connected to one loopback listener, which
      recognises the accepted stream by its endpoints, dials the upstream
      (SOCKS5, HTTP CONNECT or direct) and relays bytes.
    - A reaper owns the command tree, passes termination signals on and
      escalates to SIGKILL; the supervisor waits for it, forwards signals and
      drains or stops the broker.

    ** Files, and what they model

    - Prelude: bytes, integers in both byte orders, [result] (Rust's Result),
      [outcome] (panic and exhausted fuel kept apart from values).
    - RustStd, Net: what the program uses of std: str and UTF-8, number and
      address parsers and printers, io::Error. Stream: the state and error
      monad [M], the scripted socket [sock], the interface [ByteSource].
    - FakeDns (src/fake_dns.rs), Rule (src/rule.rs, the regex crate is the
      interface [RegexEngine]), Proxy and Upstream (src/proxy/mod.rs), Config
      (src/config.rs and the configuration part of src/main.rs), Socks5
      (src/proxy/socks5.rs), Http (src/proxy/http.rs), Request (the request of
      Http as a proxy reads it), Direct (src/proxy/direct.rs).
    - Seccomp, Access, Memory, Message, Relay, Diagnostics, TcpBind, Sockets,
      Connect, Dns, Receiver: the files of src/broker/ of the same name. Access
      discharges the interface [TargetMemory], against which Memory, Message,
      Files, Datagram, Engine and Startup are proved.
    - Ingress (src/broker/tcp_ingress.rs), Tcp (src/broker/tcp.rs and the
      broker's state), Broker (the interleavings of Tcp as a step relation),
      Connections (the abstract connection table Broker refines), Datagram
      (src/broker/datagram.rs), Files (src/broker/files.rs, and Reply, valid
      and respond of src/broker/engine.rs), Memfd (the constructors of
      src/broker/files.rs over the interface [Memfd]), Engine (dispatch, the
      event loop and draining of src/broker/engine.rs).
    - System: the composition of a proxied connection, with the whole task
      tcp.rs spawns for it.
    - Process (src/process.rs), Startup (src/broker/mod.rs and the loops of
      supervise and wait_child of src/main.rs), Main (main, run and supervise
      of src/main.rs, and the two ends of the start-up handshake).
    - Conformance: unit tests of the sources, run on the model.

    A system call, a timer and what [select!] picks are arguments: a scripted
    result, an event of a list, or a record of functions ([kernel],
    [fd_kernel], [bind_env] and the like). A task is cut where it awaits, so a
    stage between two awaits is one definition; a mutex held over no await is
    not visible. The runtime has two workers: stages of different tasks are
    interleaved, not overlapped, which is what their mutexes and the per-socket
    lock allow.

    ** What the theorems show

    - Interception: the filter decides as its policy says on every record
      (Seccomp); what dispatch lets run natively (Engine); datagrams only go to
      local resolver endpoints, and receives show the resolver asked
      (Datagram); opens of resolver files get read-only synthetic files (Files)
      for the path the call names, which are sealed against writing, growing and
      shrinking (Memfd).
    - Routing: the trie finds the longest prefix, first rule first (Rule);
      proxy_for refines the policy read off the command line (Config); a name
      answered by the fake resolver is the name its address is routed by
      (Broker), each relay reaches its target by that route (Upstream), and
      the bytes on the wire are the handshake for the target followed by those
      of the application (System).
    - Types: every target and route a task holds is well formed, so that a
      request for it can be made (System).
    - Names: the address pool refines an abstract allocation history and its
      two maps stay inverse; queries are parsed exactly by their grammar and
      questions of class IN repeated (FakeDns); the services answer in order and their tables stay
      bijective (Dns).
    - Concurrency: in every interleaving one connect call at a time holds a
      socket, peer entries are pending exactly while a call is in flight,
      permits and registrations are conserved (Broker), each step is at most
      one event of an abstract connection table (Connections), no thread is left
      inside connect(2) (Connect), the listener table is
      exact and hands a stream to the socket it belongs to (Ingress), every
      notification is queued, refused with EAGAIN when 256 wait, or dropped by a
      thread that stops on a closed channel (Receiver), and what is queued is
      answered once (Engine).
    - Clients and relay: proxy URLs are parsed exactly by their grammar (Proxy);
      both proxy handshakes against reference descriptions, whatever the chunks
      (Socks5, Http: complete responses; one cut inside its headers by the end of
      the stream is accepted, [truncated_headers_accepted]), and the CONNECT
      request read back (Request); the relay conserves bytes, cannot spin and ends drained
      (Relay); direct connections and their bounded lookups (Direct).
    - Memory: exact copies with partial transfers and faults, native layouts
      and their round trips (Access, Memory, Message), source-port
      reservation that undoes itself (TcpBind), the socket snapshot
      (Diagnostics).
    - Life cycle: the handshake completes (Startup) and fails closed (Main), the
      command tree and its termination (Process), the exit status (Main).

    ** Fuel and bounds

    Loops over a buffer take the buffer's length plus one as fuel
    (parse_query, the netlink parser, the HTTP reader, serve_tcp), path takes
    PATH_MAX + 1 and the copy loops two more than their script; the theorems
    are equalities with [Ret], or have the result as their conclusion, so that
    fuel that runs out would contradict them. The walk over /proc terminates
    with fuel above one plus the number of processes. The transfer loop, the
    event loop, the receiver and the reaper recurse on the list of what
    happens. Integers are [Z]; casts, saturation, wrap-around and checked
    additions are written out where the code has them.

    ** Not modelled

    fork, exec and the tokio runtime themselves; the parsing of the command
    line by clap; logging; the regex crate, which is the interface
    [RegexEngine]; weak memory order of the receiver's stop flag (its two loads
    are free inputs of a turn); the signal mask of the receiver thread; the
    delegating AsyncWrite of ProxyStream; the state of the DNS service after one
    of its tasks has ended, which ends the event loop; the panic of adding a
    socket timeout to the clock, out of reach of the timeouts Linux reports. Of the unit tests, those of timers,
    of blocked sockets and of the kernel's port allocator are not run on the
    model. *)
From Stdlib Require Export Strings.Byte.
From stdpp Require Export gmap strings list numbers.
From Stdlib Require Export ZArith Lia.

#[export] Set Default Goal Selector "!".

(** ** Bytes

    Rust's [u8] is [byte]; a [u16], [u32], [u64] or [usize] is a [Z] whose
    wrap-around is written out where the code can reach it. *)
Abbreviation bytes := (list byte).

Definition b2z (b : byte) : Z := Z.of_N (Byte.to_N b).

Definition z2b (z : Z) : byte := default x00 (Byte.of_N (Z.to_N (z mod 256))).

#[export] Instance byte_eq_decision : EqDecision byte := Byte.byte_eq_dec.

#[export] Instance byte_countable : Countable byte :=
  inj_countable Byte.to_N Byte.of_N Byte.of_to_N.

#[export] Instance byte_inhabited : Inhabited byte := populate x00.

Lemma b2z_range b : (0 ≤ b2z b < 256)%Z.
Proof. unfold b2z. pose proof (Byte.to_N_bounded b). lia. Qed.

Lemma b2z_z2b z : b2z (z2b z) = (z mod 256)%Z.
Proof.
  unfold b2z, z2b. pose proof (Z.mod_pos_bound z 256 ltac:(lia)) as Hr.
  destruct (Byte.of_N (Z.to_N (z mod 256))) as [b|] eqn:E; simpl.
  - apply Byte.to_of_N in E. rewrite E. lia.
  - apply Byte.of_N_None_iff in E. lia.
Qed.

Lemma b2z_inj a b : b2z a = b2z b → a = b.
Proof.
  unfold b2z. intros H%N2Z.inj.
  pose proof (Byte.of_to_N a). pose proof (Byte.of_to_N b). congruence.
Qed.

Lemma z2b_b2z b : z2b (b2z b) = b.
Proof.
  apply b2z_inj. rewrite b2z_z2b. apply Z.mod_small, b2z_range.
Qed.

Lemma b2z_z2b_small z : (0 ≤ z < 256)%Z → b2z (z2b z) = z.
Proof. intros. rewrite b2z_z2b. by apply Z.mod_small. Qed.

(** ASCII literals as byte strings. *)
Definition lit (s : string) : bytes := String.list_byte_of_string s.

(** ** Multi-byte integers

    [to_be_bytes]/[from_be_bytes] and their native-order counterparts. Both
    supported targets (x86_64, aarch64) run little-endian, so the native order
    is [le_bytes]. *)
Fixpoint le_bytes (n : nat) (z : Z) : bytes :=
  match n with
  | O => []
  | S n => z2b z :: le_bytes n (z / 256)
  end.

Fixpoint le_value (bs : bytes) : Z :=
  match bs with
  | [] => 0
  | b :: bs => b2z b + 256 * le_value bs
  end.

Definition be_bytes (n : nat) (z : Z) : bytes := reverse (le_bytes n z).

Definition be_value (bs : bytes) : Z := le_value (reverse bs).

Lemma length_le_bytes n z : length (le_bytes n z) = n.
Proof. revert z. induction n; intros z; simpl; auto. Qed.

Lemma length_be_bytes n z : length (be_bytes n z) = n.
Proof. unfold be_bytes. by rewrite length_reverse, length_le_bytes. Qed.

Lemma le_value_bytes n z : le_value (le_bytes n z) = (z mod 256 ^ Z.of_nat n)%Z.
Proof.
  revert z. induction n as [|n IH]; intros z; cbn [le_bytes le_value].
  - by rewrite Z.mod_1_r.
  - rewrite IH, b2z_z2b, Nat2Z.inj_succ, Z.pow_succ_r by lia.
    rewrite (Z.rem_mul_r z 256) by lia. lia.
Qed.

Lemma be_value_bytes n z : be_value (be_bytes n z) = (z mod 256 ^ Z.of_nat n)%Z.
Proof. unfold be_value, be_bytes. by rewrite reverse_involutive, le_value_bytes. Qed.

Lemma be_value_bytes_small n z :
  (0 ≤ z < 256 ^ Z.of_nat n)%Z → be_value (be_bytes n z) = z.
Proof. intros. rewrite be_value_bytes. by apply Z.mod_small. Qed.

Lemma le_value_bytes_small n z :
  (0 ≤ z < 256 ^ Z.of_nat n)%Z → le_value (le_bytes n z) = z.
Proof. intros. rewrite le_value_bytes. by apply Z.mod_small. Qed.

Lemma le_value_range bs : (0 ≤ le_value bs < 256 ^ Z.of_nat (length bs))%Z.
Proof.
  induction bs as [|b bs IH]; cbn [le_value length]; [lia|].
  rewrite Nat2Z.inj_succ, Z.pow_succ_r by lia. pose proof (b2z_range b). lia.
Qed.

Lemma be_value_range bs : (0 ≤ be_value bs < 256 ^ Z.of_nat (length bs))%Z.
Proof. unfold be_value. rewrite <-(length_reverse bs). apply le_value_range. Qed.

Lemma le_bytes_value bs : le_bytes (length bs) (le_value bs) = bs.
Proof.
  induction bs as [|b bs IH]; cbn [le_value length le_bytes]; [done|].
  pose proof (b2z_range b). f_equal.
  - apply b2z_inj. rewrite b2z_z2b, (Z.mul_comm 256), Z.mod_add by lia.
    by apply Z.mod_small.
  - by rewrite (Z.mul_comm 256), Z.div_add, Z.div_small, Z.add_0_l by lia.
Qed.

Lemma be_bytes_value n bs : length bs = n → be_bytes n (be_value bs) = bs.
Proof.
  intros <-. unfold be_bytes, be_value.
  rewrite <-(length_reverse bs), le_bytes_value. apply reverse_involutive.
Qed.

(** ** Results

    [result E A] is Rust's [Result<A, E>]; [?] is its bind. [outcome A] is a
    call that may also panic (an index out of range) or, in a model with fuel,
    not return: [OutOfFuel] is kept apart from every value, so that a theorem
    [f x = Ret r] is a termination theorem too. *)
Inductive result (E A : Type) : Type :=
| Ok (a : A)
| Err (e : E).
Arguments Ok {E A} a.
Arguments Err {E A} e.

#[export] Instance result_ret E : MRet (result E) := λ A a, Ok a.
#[export] Instance result_bind E : MBind (result E) :=
  λ A B f m, match m with Ok a => f a | Err e => Err e end.
#[export] Instance result_fmap E : FMap (result E) :=
  λ A B f m, match m with Ok a => Ok (f a) | Err e => Err e end.

Definition ok_or {E A} (e : E) (o : option A) : result E A :=
  match o with Some a => Ok a | None => Err e end.

Definition map_err {E F A} (f : E → F) (r : result E A) : result F A :=
  match r with Ok a => Ok a | Err e => Err (f e) end.

Definition is_ok {E A} (r : result E A) : bool :=
  match r with Ok _ => true | Err _ => false end.

Inductive outcome (A : Type) : Type :=
| Ret (a : A)
| Panic
| OutOfFuel.
Arguments Ret {A} a.
Arguments Panic {A}.
Arguments OutOfFuel {A}.

#[export] Instance outcome_ret : MRet outcome := λ A a, Ret a.
#[export] Instance outcome_bind : MBind outcome :=
  λ A B f m, match m with Ret a => f a | Panic => Panic | OutOfFuel => OutOfFuel end.

(** [v[i]] and [&v[a..b]], which panic out of range. *)
Definition idx {A} (v : list A) (i : nat) : outcome A :=
  match v !! i with Some a => Ret a | None => Panic end.

Definition slice {A} (v : list A) (a b : nat) : outcome (list A) :=
  if decide (a ≤ b ∧ b ≤ length v) then Ret (take (b - a) (drop a v)) else Panic.

Lemma idx_lt {A} (v : list A) i : i < length v → ∃ a, v !! i = Some a ∧ idx v i = Ret a.
Proof.
  intros [a Ha]%lookup_lt_is_Some_2. exists a. unfold idx. by rewrite Ha.
Qed.

Lemma slice_ret {A} (v : list A) a b :
  a ≤ b → b ≤ length v → slice v a b = Ret (take (b - a) (drop a v)).
Proof. intros. unfold slice. by rewrite decide_True. Qed.

(** ** Lists *)

Lemma drop_middle {A} (l : list A) x r : drop (S (length l)) (l ++ x :: r) = r.
Proof. induction l; simpl; auto. Qed.
