(* ===== verification/RustStd.v ===== *)
(** * What the program uses of Rust's standard library

    [&str]/[String] are their UTF-8 bytes, as in Rust: splitting, trimming and
    prefix tests on ASCII delimiters act on the bytes, [str::from_utf8] and
    [char::is_whitespace] go through the decoder [utf8_chars]. The number and
    address parsers follow [core::num] and [core::net::parser]. [io::Error] is
    [io_error]. None of this is the program's own code, so nothing here is
    mapped to a source line; the components build on it. *)
From S2P Require Import Prelude.

(** ** str operations *)

Fixpoint split_once (c : byte) (s : bytes) : option (bytes * bytes) :=
  match s with
  | [] => None
  | b :: s => if bool_decide (b = c) then Some ([], s)
              else '(l, r) ← split_once c s; Some (b :: l, r)
  end.

Fixpoint rsplit_once (c : byte) (s : bytes) : option (bytes * bytes) :=
  match s with
  | [] => None
  | b :: s => match rsplit_once c s with
              | Some (l, r) => Some (b :: l, r)
              | None => if bool_decide (b = c) then Some ([], s) else None
              end
  end.

Fixpoint strip_prefix (p s : bytes) : option bytes :=
  match p, s with
  | [], _ => Some s
  | a :: p, b :: s => if bool_decide (a = b) then strip_prefix p s else None
  | _ :: _, [] => None
  end.

Definition starts_with (p s : bytes) : bool := bool_decide (is_Some (strip_prefix p s)).

(** [s.split(c)]: never empty. *)
Fixpoint split (c : byte) (s : bytes) : list bytes :=
  match s with
  | [] => [[]]
  | b :: s => if bool_decide (b = c) then [] :: split c s
              else match split c s with
                   | x :: xs => (b :: x) :: xs
                   | [] => [[b]]
                   end
  end.

(** [s.splitn(n, c)]. *)
Fixpoint splitn (n : nat) (c : byte) (s : bytes) : list bytes :=
  match n with
  | O => []
  | S O => [s]
  | S n => match split_once c s with
           | Some (l, r) => l :: splitn n c r
           | None => [s]
           end
  end.

(** [parts.join(sep)]. *)
Fixpoint join (sep : bytes) (l : list bytes) : bytes :=
  match l with
  | [] => []
  | [x] => x
  | x :: l => x ++ sep ++ join sep l
  end.

Definition drop_while (P : byte → bool) : bytes → bytes :=
  fix go s := match s with [] => [] | b :: s' => if P b then go s' else s end.

Definition trim_end_matches (P : byte → bool) (s : bytes) : bytes :=
  reverse (drop_while P (reverse s)).

(** [s.lines()]: split at LF, a CR before the LF dropped, no empty last line. *)
Definition strip_cr (l : bytes) : bytes :=
  match reverse l with
  | x0d :: r => reverse r
  | _ => l
  end.

Definition lines (s : bytes) : list bytes :=
  match reverse (split x0a s) with
  | last :: front =>
      (strip_cr <$> reverse front) ++ (if bool_decide (last = []) then [] else [last])
  | [] => []
  end.

(** ** UTF-8 *)

Definition in_range (lo hi : Z) (b : byte) : bool := (lo <=? b2z b)%Z && (b2z b <=? hi)%Z.

Definition cont (b : byte) : Z := (b2z b - 128)%Z.

(** The second byte of a three- or four-byte sequence, as std's validator
    restricts it (no overlong forms, no surrogates, at most U+10FFFF). *)
Definition second_ok (b0 b1 : byte) : bool :=
  if bool_decide (b0 = xe0) then in_range 160 191 b1
  else if bool_decide (b0 = xed) then in_range 128 159 b1
  else if bool_decide (b0 = xf0) then in_range 144 191 b1
  else if bool_decide (b0 = xf4) then in_range 128 143 b1
  else in_range 128 191 b1.

(** [str::from_utf8(s)?.chars()]: the scalar values, [None] when invalid. *)
Fixpoint utf8_chars (s : bytes) : option (list Z) :=
  match s with
  | [] => Some []
  | b0 :: s1 =>
      if in_range 0 127 b0 then cons (b2z b0) <$> utf8_chars s1
      else match s1 with
      | [] => None
      | b1 :: s2 =>
          if in_range 194 223 b0 then
            if in_range 128 191 b1
            then cons ((b2z b0 - 192) * 64 + cont b1)%Z <$> utf8_chars s2 else None
          else match s2 with
          | [] => None
          | b2 :: s3 =>
              if in_range 224 239 b0 then
                if second_ok b0 b1 && in_range 128 191 b2
                then cons ((b2z b0 - 224) * 4096 + cont b1 * 64 + cont b2)%Z
                       <$> utf8_chars s3 else None
              else match s3 with
              | [] => None
              | b3 :: s4 =>
                  if in_range 240 244 b0 && second_ok b0 b1
                       && in_range 128 191 b2 && in_range 128 191 b3
                  then cons ((b2z b0 - 240) * 262144 + cont b1 * 4096
                               + cont b2 * 64 + cont b3)%Z <$> utf8_chars s4
                  else None
              end
          end
      end
  end.

Definition from_utf8 (s : bytes) : option bytes :=
  match utf8_chars s with Some _ => Some s | None => None end.

(** [char::is_whitespace]: Unicode White_Space. *)
Definition is_whitespace (c : Z) : bool :=
  ((9 <=? c) && (c <=? 13) || (c =? 32) || (c =? 133) || (c =? 160) || (c =? 5760)
   || (8192 <=? c) && (c <=? 8202) || (c =? 8232) || (c =? 8233) || (c =? 8239)
   || (c =? 8287) || (c =? 12288))%Z.

(** [s.chars().any(char::is_whitespace)] of a valid string. *)
Definition any_whitespace (s : bytes) : bool :=
  match utf8_chars s with Some cs => existsb is_whitespace cs | None => false end.

(** The length of the whitespace character [s] starts (ends) with, or 0. *)
Definition ws_len (part : nat → bytes → bytes) (s : bytes) : nat :=
  default 0 (find (λ n, match utf8_chars (part n s) with
                        | Some [c] => is_whitespace c
                        | _ => false
                        end) [1; 2; 3; 4]).

Definition last_n (n : nat) (s : bytes) : bytes := drop (length s - n) s.

Fixpoint trim_start (fuel : nat) (s : bytes) : bytes :=
  match fuel with
  | O => s
  | S fuel => match ws_len take s with O => s | n => trim_start fuel (drop n s) end
  end.

Fixpoint trim_end (fuel : nat) (s : bytes) : bytes :=
  match fuel with
  | O => s
  | S fuel => match ws_len last_n s with O => s | n => trim_end fuel (take (length s - n) s) end
  end.

(** [str::trim]: Unicode white space off both ends. *)
Definition trim (s : bytes) : bytes := trim_end (length s) (trim_start (length s) s).

(** ** Numbers *)

Definition to_digit (radix : Z) (b : byte) : option Z :=
  let z := b2z b in
  let d := (if (48 <=? z) && (z <=? 57) then z - 48
            else if (97 <=? z) && (z <=? 122) then z - 87
            else if (65 <=? z) && (z <=? 90) then z - 55
            else 36)%Z in
  if (d <? radix)%Z then Some d else None.

(** The digit loop with [checked_mul] and [checked_add]. *)
Fixpoint parse_digits (max acc : Z) (s : bytes) : option Z :=
  match s with
  | [] => Some acc
  | b :: s => d ← to_digit 10 b;
              let acc := (acc * 10 + d)%Z in
              if (acc <=? max)%Z then parse_digits max acc s else None
  end.

(** [s.parse::<uN>()], [max] being [uN::MAX]: an optional [+], then digits. *)
Definition parse_uint (max : Z) (s : bytes) : option Z :=
  match s with
  | [] => None
  | x2b :: [] => None
  | x2b :: s => parse_digits max 0 s
  | _ => parse_digits max 0 s
  end.

Definition U8_MAX : Z := 255.
Definition U16_MAX : Z := 65535.
Definition U32_MAX : Z := 4294967295.
Definition U64_MAX : Z := 18446744073709551615.
Definition I32_MAX : Z := 2147483647.
Definition ISIZE_MAX : Z := 9223372036854775807.

Definition digit_char (d : Z) : byte := z2b (if (d <? 10)%Z then 48 + d else 87 + d)%Z.

(** Most significant digit first; twenty digits hold every [u64]. *)
Fixpoint digits (fuel : nat) (radix z : Z) (acc : bytes) : bytes :=
  match fuel with
  | O => acc
  | S fuel =>
      let acc := digit_char (z mod radix) :: acc in
      if (z <? radix)%Z then acc else digits fuel radix (z / radix) acc
  end.

Definition fmt_dec (z : Z) : bytes := digits 20 10 z [].
Definition fmt_hex (z : Z) : bytes := digits 20 16 z [].

(** ** io::Error *)

Inductive ErrorKind :=
| UnexpectedEof | InvalidData | InvalidInput | TimedOut | WriteZero | WouldBlock
| Interrupted | NotFound | ConnectionAborted | ConnectionReset | Unsupported
| OtherKind.

Inductive io_error :=
| RawOs (errno : Z)
| Simple (kind : ErrorKind).

#[export] Instance ErrorKind_eq_dec : EqDecision ErrorKind.
Proof. solve_decision. Defined.
#[export] Instance io_error_eq_dec : EqDecision io_error.
Proof. solve_decision. Defined.

Abbreviation io := (result io_error).

Definition raw_os_error (e : io_error) : option Z :=
  match e with RawOs n => Some n | Simple _ => None end.

(** Linux errno values ([libc]'s constants, the same on both targets). *)
Definition EPERM : Z := 1.
Definition ENOENT : Z := 2.
Definition ESRCH : Z := 3.
Definition EINTR : Z := 4.
Definition EIO : Z := 5.
Definition E2BIG : Z := 7.
Definition EBADF : Z := 9.
Definition ECHILD : Z := 10.
Definition EAGAIN : Z := 11.
Definition ENOMEM : Z := 12.
Definition EACCES : Z := 13.
Definition EFAULT : Z := 14.
Definition EEXIST : Z := 17.
Definition ENOTDIR : Z := 20.
Definition EINVAL : Z := 22.
Definition ENFILE : Z := 23.
Definition EMFILE : Z := 24.
Definition ENAMETOOLONG : Z := 36.
Definition ENOSYS : Z := 38.
Definition ELOOP : Z := 40.
Definition EDESTADDRREQ : Z := 89.
Definition EMSGSIZE : Z := 90.
Definition EPROTONOSUPPORT : Z := 93.
Definition EOPNOTSUPP : Z := 95.
Definition EAFNOSUPPORT : Z := 97.
Definition EADDRINUSE : Z := 98.
Definition EADDRNOTAVAIL : Z := 99.
Definition ENETUNREACH : Z := 101.
Definition ECONNABORTED : Z := 103.
Definition ECONNRESET : Z := 104.
Definition ENOBUFS : Z := 105.
Definition ENOTCONN : Z := 107.
Definition ETIMEDOUT : Z := 110.
Definition ECONNREFUSED : Z := 111.
Definition EHOSTUNREACH : Z := 113.
Definition EINPROGRESS : Z := 115.

(** [error.kind()], for the kinds the program tests. *)
Definition kind (e : io_error) : ErrorKind :=
  match e with
  | Simple k => k
  | RawOs n =>
      if (n =? EINTR)%Z then Interrupted
      else if (n =? EAGAIN)%Z then WouldBlock
      else if (n =? ENOENT)%Z then NotFound
      else if (n =? ECONNABORTED)%Z then ConnectionAborted
      else if (n =? ECONNRESET)%Z then ConnectionReset
      else if (n =? ETIMEDOUT)%Z then TimedOut
      else if (n =? EINVAL)%Z then InvalidInput
      else OtherKind
  end.

(** ** Lemmas *)

Lemma split_once_spec c s l r :
  split_once c s = Some (l, r) ↔ s = l ++ c :: r ∧ c ∉ l.
Proof.
  revert l r. induction s as [|b s IH]; intros l r; simpl.
  - split; [done|]. intros [H _]. by destruct l.
  - case_bool_decide as Hb; subst.
    + split.
      * intros [= <- <-]. split; [done|]. apply not_elem_of_nil.
      * intros [H Hl]. destruct l as [|x l]; simplify_eq/=; [done|].
        exfalso. apply Hl. by left.
    + split.
      * intros H. destruct (split_once c s) as [[l' r']|]; [|done].
        injection H as <- <-. destruct (proj1 (IH l' r') eq_refl) as [-> Hl].
        split; [done|]. rewrite not_elem_of_cons. auto.
      * intros [H Hl]. destruct l as [|x l]; simplify_eq/=.
        rewrite not_elem_of_cons in Hl. destruct Hl as [_ Hl].
        by rewrite (proj2 (IH l r) (conj eq_refl Hl)).
Qed.

Lemma split_once_None c s : split_once c s = None ↔ c ∉ s.
Proof.
  induction s as [|b s IH]; simpl; [split; [intros _; apply not_elem_of_nil|done]|].
  rewrite not_elem_of_cons. case_bool_decide as Hb; [by split; [|intros []]|].
  rewrite <-IH. destruct (split_once c s) as [[l r]|]; simpl; [by split; [|intros []]|].
  split; [|done]. intros _. split; congruence.
Qed.

Lemma rsplit_once_None c s : rsplit_once c s = None ↔ c ∉ s.
Proof.
  induction s as [|b s IH]; simpl; [split; [intros _; apply not_elem_of_nil|done]|].
  rewrite not_elem_of_cons.
  destruct (rsplit_once c s) as [[l r]|].
  - split; [done|]. intros [_ H]. apply IH in H. done.
  - case_bool_decide as Hb; [by split; [|intros []]|].
    split; [|done]. intros _. split; [congruence|]. by apply IH.
Qed.

Lemma rsplit_once_spec c s l r :
  rsplit_once c s = Some (l, r) ↔ s = l ++ c :: r ∧ c ∉ r.
Proof.
  revert l r. induction s as [|b s IH]; intros l r; simpl.
  - split; [done|]. intros [H _]. by destruct l.
  - destruct (rsplit_once c s) as [[l' r']|] eqn:E.
    + destruct (proj1 (IH l' r') eq_refl) as [Hs Hr]. split.
      * intros [= <- <-]. by rewrite Hs.
      * intros [H Hc]. destruct l as [|x l]; injection H as -> ?.
        -- subst. exfalso. apply Hc, elem_of_app. right. by left.
        -- assert (Some (l', r') = Some (l, r)) as [= -> ->] by (apply IH; split; congruence).
           done.
    + apply rsplit_once_None in E. case_bool_decide as Hb; subst.
      * split; [by intros [= <- <-]|]. intros [H Hr].
        destruct l as [|x l]; simplify_eq/=; [done|].
        exfalso. apply E, elem_of_app. right. by left.
      * split; [done|]. intros [H Hr]. destruct l as [|x l]; simplify_eq/=.
        exfalso. apply E, elem_of_app. right. by left.
Qed.

Lemma strip_prefix_spec p s r : strip_prefix p s = Some r ↔ s = p ++ r.
Proof.
  revert s. induction p as [|a p IH]; intros s; simpl; [naive_solver|].
  destruct s as [|b s]; [done|]. case_bool_decide as Hab; subst.
  - rewrite IH. split; [by intros ->|by intros [= ->]].
  - split; [done|]. intros [= ? _]. done.
Qed.

Lemma split_nonempty c s : split c s ≠ [].
Proof. destruct s; simpl; [done|]. case_bool_decide; [done|]. by destruct (split c s). Qed.

(** Pieces without the delimiter are what [split] gives back. *)
Lemma split_join c l :
  l ≠ [] → Forall (λ x, c ∉ x) l → split c (join [c] l) = l.
Proof.
  assert (Happ : ∀ x s, c ∉ x → split c (x ++ c :: s) = x :: split c s).
  { induction x as [|b x IH]; intros s Hx; simpl.
    - by rewrite bool_decide_true.
    - rewrite not_elem_of_cons in Hx. destruct Hx as [Hb Hx].
      rewrite bool_decide_false, IH by congruence. done. }
  assert (Hone : ∀ x, c ∉ x → split c x = [x]).
  { induction x as [|b x IH]; intros Hx; simpl; [done|].
    rewrite not_elem_of_cons in Hx. destruct Hx as [Hb Hx].
    rewrite bool_decide_false, IH by congruence. done. }
  intros Hl HF. induction HF as [|x l Hx HF IH]; [done|].
  destruct l as [|y l]; simpl; [by apply Hone|].
  rewrite Happ by done. f_equal. by apply IH.
Qed.

Lemma join_split c s : join [c] (split c s) = s.
Proof.
  induction s as [|b s IH]; simpl; [done|].
  pose proof (split_nonempty c s) as Hne. case_bool_decide as Hb; subst.
  - destruct (split c s) as [|x xs] eqn:E; [done|].
    change (c :: join [c] (x :: xs) = c :: s). by rewrite IH.
  - destruct (split c s) as [|x [|y ys]] eqn:E; [done|..]; simpl in *; by rewrite IH.
Qed.

Lemma split_no_delim c s : Forall (λ x, c ∉ x) (split c s).
Proof.
  induction s as [|b s IH]; simpl; [constructor; [apply not_elem_of_nil|done]|].
  case_bool_decide as Hb; [constructor; [apply not_elem_of_nil|done]|].
  pose proof (split_nonempty c s). destruct (split c s) as [|x xs]; [done|].
  inversion IH; subst. constructor; [|done]. rewrite not_elem_of_cons. auto.
Qed.

(** Valid strings are closed under concatenation. *)
Lemma utf8_chars_app a : ∀ cs b, utf8_chars a = Some cs → utf8_chars (a ++ b) = app cs <$> utf8_chars b.
Proof.
  assert (Hn : ∀ n a cs b, length a ≤ n → utf8_chars a = Some cs → utf8_chars (a ++ b) = app cs <$> utf8_chars b).
  { induction n as [|n IH]; intros [|b0 s1] cs b Hl Ha; try (simpl in Hl; lia);
      try (injection Ha as <-; simpl; by destruct (utf8_chars b)).
    simpl in Hl. cbn [utf8_chars app] in Ha |- *.
    repeat match goal with
    | H : context [if ?c then _ else _] |- _ => destruct c
    | H : context [match ?s with [] => _ | _ :: _ => _ end] |- _ => destruct s as [|? ?]; cbn [app length] in *
    | H : None = Some _ |- _ => discriminate H
    end; (apply fmap_Some in Ha as (cs' & Hc & ->); erewrite IH; [|lia|exact Hc]; by destruct (utf8_chars b)). }
  intros cs b. by apply (Hn (length a)).
Qed.

Lemma from_utf8_app a b : from_utf8 a = Some a → from_utf8 b = Some b → from_utf8 (a ++ b) = Some (a ++ b).
Proof.
  unfold from_utf8. destruct (utf8_chars a) as [cs|] eqn:Ea; [|done]. rewrite (utf8_chars_app a cs b Ea).
  by destruct (utf8_chars b).
Qed.

Lemma from_utf8_join sep l : from_utf8 sep = Some sep → Forall (λ x, from_utf8 x = Some x) l → from_utf8 (join sep l) = Some (join sep l).
Proof.
  intros Hs. induction 1 as [|x l Hx Hl IH]; [done|]. destruct l as [|y l]; [done|].
  change (join sep (x :: y :: l)) with (x ++ sep ++ join sep (y :: l)). auto using from_utf8_app.
Qed.

(** ** Numbers print and parse back *)

Definition is_decimal (b : byte) : Prop := (48 ≤ b2z b ≤ 57)%Z.

Lemma digit_char_decimal d : (0 ≤ d < 10)%Z → b2z (digit_char d) = (48 + d)%Z.
Proof. intros Hd. unfold digit_char. rewrite (proj2 (Z.ltb_lt d 10)) by lia. apply b2z_z2b_small. lia. Qed.

Lemma to_digit_char d : (0 ≤ d < 10)%Z → to_digit 10 (digit_char d) = Some d.
Proof.
  intros Hd. unfold to_digit. rewrite digit_char_decimal by done.
  rewrite (proj2 (Z.leb_le 48 _)), (proj2 (Z.leb_le _ 57)) by lia. cbn [andb].
  rewrite (proj2 (Z.ltb_lt _ 10)) by lia. f_equal. lia.
Qed.

Lemma digits_decimal fuel : ∀ z acc, (0 ≤ z)%Z → Forall is_decimal acc → Forall is_decimal (digits fuel 10 z acc).
Proof.
  induction fuel as [|fuel IH]; intros z acc Hz Ha; cbn [digits]; [done|].
  assert (Hd : Forall is_decimal (digit_char (z mod 10) :: acc)).
  { constructor; [|done]. pose proof (Z.mod_pos_bound z 10). unfold is_decimal. rewrite digit_char_decimal; lia. }
  destruct (z <? 10)%Z; [done|]. apply IH; [|done]. apply Z.div_pos; lia.
Qed.

Lemma length_digits fuel : ∀ z acc, length acc + min 1 fuel ≤ length (digits fuel 10 z acc).
Proof.
  induction fuel as [|fuel IH]; intros z acc; cbn [digits]; [simpl; lia|].
  destruct (z <? 10)%Z; [simpl; lia|]. pose proof (IH (z / 10)%Z (digit_char (z mod 10) :: acc)). simpl in *. lia.
Qed.

Lemma fmt_dec_decimal z : (0 ≤ z)%Z → Forall is_decimal (fmt_dec z).
Proof. intros Hz. by apply digits_decimal. Qed.

Lemma parse_digits_digits max fuel : ∀ z acc,
  (0 ≤ z < 10 ^ Z.of_nat fuel)%Z → (z ≤ max)%Z → 0 < fuel →
  parse_digits max 0 (digits fuel 10 z acc) = parse_digits max z acc.
Proof.
  induction fuel as [|fuel IH]; intros z acc Hz Hm Hf; [lia|]. cbn [digits].
  destruct (z <? 10)%Z eqn:E.
  - apply Z.ltb_lt in E. cbn [parse_digits]. rewrite Z.mod_small, to_digit_char by lia. cbn [mbind option_bind].
    rewrite Z.add_0_l. by rewrite (proj2 (Z.leb_le _ _)) by lia.
  - apply Z.ltb_ge in E. rewrite Nat2Z.inj_succ, Z.pow_succ_r in Hz by lia.
    pose proof (Z.div_mod z 10). pose proof (Z.mod_pos_bound z 10).
    destruct fuel as [|fuel]; [simpl in Hz; lia|].
    rewrite IH; [|split; [apply Z.div_pos; lia|apply Z.div_lt_upper_bound; lia]|lia|lia].
    cbn [parse_digits]. rewrite to_digit_char by lia. cbn [mbind option_bind].
    replace (z / 10 * 10 + z mod 10)%Z with z by lia. by rewrite (proj2 (Z.leb_le _ _)) by lia.
Qed.

Lemma parse_uint_fmt_dec max z : (0 ≤ z < 10 ^ 20)%Z → (z ≤ max)%Z → parse_uint max (fmt_dec z) = Some z.
Proof.
  intros Hz Hm. pose proof (fmt_dec_decimal z ltac:(lia)) as Hd.
  pose proof (parse_digits_digits max 20 z [] Hz Hm ltac:(lia)) as Hp. fold (fmt_dec z) in Hp.
  destruct (fmt_dec z) as [|b s] eqn:E.
  { pose proof (length_digits 20 z []) as Hl. fold (fmt_dec z) in Hl. rewrite E in Hl. simpl in Hl. lia. }
  apply Forall_cons_1 in Hd as [Hb _]. unfold parse_uint. destruct b; try exact Hp. exfalso. revert Hb. unfold is_decimal. vm_compute. intros [H _]. by apply H.
Qed.
