(* ===== verification/Net.v ===== *)
(** * core::net: addresses, their parsers and printers

    [Ipv4Addr] is its four octets, as in Rust; [SocketAddrV4] pairs it with a
    [u16] port. The parsers transcribe [core::net::parser], whose acceptance
    decides which rules and proxy URLs the program accepts. *)
From S2P Require Import Prelude RustStd.

Record Ipv4Addr := ip4 { oct0 : byte; oct1 : byte; oct2 : byte; oct3 : byte }.

#[export] Instance Ipv4Addr_eq_dec : EqDecision Ipv4Addr.
Proof. solve_decision. Defined.

#[export] Instance Ipv4Addr_countable : Countable Ipv4Addr :=
  inj_countable' (λ ip, (oct0 ip, oct1 ip, oct2 ip, oct3 ip))
    (λ '(a, b, c, d), ip4 a b c d) ltac:(by intros []).

Definition octets (ip : Ipv4Addr) : bytes := [oct0 ip; oct1 ip; oct2 ip; oct3 ip].

(** [u32::from(ip)] and [Ipv4Addr::from(u32)]. *)
Definition u32_of_ip (ip : Ipv4Addr) : Z := be_value (octets ip).

Definition ip_of_u32 (n : Z) : Ipv4Addr :=
  ip4 (z2b (n / 16777216)) (z2b (n / 65536)) (z2b (n / 256)) (z2b n).

(** [Ipv4Addr::new(a, b, c, d)]. *)
Definition ipv4 (a b c d : Z) : Ipv4Addr := ip4 (z2b a) (z2b b) (z2b c) (z2b d).

Definition is_loopback (ip : Ipv4Addr) : bool := bool_decide (oct0 ip = x7f).
Definition is_unspecified (ip : Ipv4Addr) : bool := bool_decide (ip = ip4 x00 x00 x00 x00).

(** An IPv6 address is its eight groups. *)
Inductive IpAddr :=
| V4 (ip : Ipv4Addr)
| V6 (groups : list Z).

Record SocketAddrV4 := SockAddr { sa_ip : Ipv4Addr; sa_port : Z }.

#[export] Instance SocketAddrV4_eq_dec : EqDecision SocketAddrV4.
Proof. solve_decision. Defined.

#[export] Instance SocketAddrV4_countable : Countable SocketAddrV4 :=
  inj_countable' (λ a, (sa_ip a, sa_port a)) (λ '(i, p), SockAddr i p) ltac:(by intros []).

Definition port_ok (p : Z) : Prop := (0 ≤ p < 65536)%Z.

(** ** The address parser *)

Definition parser (A : Type) : Type := bytes → option (A * bytes).

Definition given_char (c : byte) : parser unit :=
  λ s, match s with
       | b :: s => if bool_decide (b = c) then Some (tt, s) else None
       | [] => None
       end.

(** [read_number(radix, max_digits, allow_zero_prefix)] for a type of maximum
    [max]; [n] counts the digits read. *)
Fixpoint read_digits (radix max : Z) (limit : option nat) (n : nat) (acc : Z) (s : bytes)
    : option (nat * Z * bytes) :=
  match s with
  | b :: s' =>
      match to_digit radix b with
      | Some d =>
          let acc' := (acc * radix + d)%Z in
          match limit with
          | Some m => if bool_decide (m < S n) then None
                      else read_digits radix max limit (S n) acc' s'
          | None => if (acc' <=? max)%Z then read_digits radix max limit (S n) acc' s'
                    else None
          end
      | None => Some (n, acc, s)
      end
  | [] => Some (n, acc, s)
  end.

Definition read_number (radix max : Z) (limit : option nat) (zero_prefix : bool) : parser Z :=
  λ s, '(n, v, rest) ← read_digits radix max limit 0 0 s;
       if bool_decide (n = 0) then None
       else if negb zero_prefix && bool_decide (head s = Some x30) && bool_decide (1 < n)
       then None
       else if (v <=? max)%Z then Some (v, rest) else None.

Definition read_octet : parser Z := read_number 10 U8_MAX (Some 3) false.

Definition read_ipv4 : parser Ipv4Addr :=
  λ s, '(a, s) ← read_octet s; '(_, s) ← given_char x2e s;
       '(b, s) ← read_octet s; '(_, s) ← given_char x2e s;
       '(c, s) ← read_octet s; '(_, s) ← given_char x2e s;
       '(d, s) ← read_octet s; Some (ipv4 a b c d, s).

Definition read_port : parser Z :=
  λ s, '(_, s) ← given_char x3a s; read_number 10 U16_MAX None true s.

(** [read_separator(':', i, p)]. *)
Definition sep_colon {A} (i : nat) (p : parser A) : parser A :=
  λ s, match i with O => p s | S _ => '(_, s) ← given_char x3a s; p s end.

(** [read_groups] over a slice of [limit] groups, [todo] of them still to read
    at index [i]; the groups read and whether an IPv4 tail ended them. *)
Fixpoint read_groups (todo i limit : nat) (s : bytes) : list Z * bool * bytes :=
  match todo with
  | O => ([], false, s)
  | S todo =>
      match (if bool_decide (i < limit - 1) then sep_colon i read_ipv4 s else None) with
      | Some (ip, s') =>
          ([be_value [oct0 ip; oct1 ip]; be_value [oct2 ip; oct3 ip]], true, s')
      | None =>
          match sep_colon i (read_number 16 U16_MAX (Some 4) true) s with
          | Some (g, s') =>
              let '(gs, v4, rest) := read_groups todo (S i) limit s' in (g :: gs, v4, rest)
          | None => ([], false, s)
          end
      end
  end.

Definition read_ipv6 : parser (list Z) :=
  λ s, let '(hd, hd4, s) := read_groups 8 0 8 s in
       if bool_decide (length hd = 8) then Some (hd, s)
       else if hd4 then None
       else '(_, s) ← given_char x3a s; '(_, s) ← given_char x3a s;
            let limit := 8 - (length hd + 1) in
            let '(tl, _, s) := read_groups limit 0 limit s in
            Some (hd ++ replicate (8 - length hd - length tl) 0%Z ++ tl, s).

Definition read_socket_v4 : parser (IpAddr * Z) :=
  λ s, '(ip, s) ← read_ipv4 s; '(p, s) ← read_port s; Some ((V4 ip, p), s).

Definition read_socket_v6 : parser (IpAddr * Z) :=
  λ s, '(_, s) ← given_char x5b s; '(g, s) ← read_ipv6 s;
       let s := match ('(_, s) ← given_char x25 s; read_number 10 U32_MAX None true s) with
                | Some (_, s) => s | None => s end in
       '(_, s) ← given_char x5d s; '(p, s) ← read_port s; Some ((V6 g, p), s).

Definition all_consumed {A} (p : parser A) (s : bytes) : option A :=
  match p s with Some (a, []) => Some a | _ => None end.

(** [s.parse::<Ipv4Addr>()]: no more than fifteen bytes. *)
Definition parse_ipv4 (s : bytes) : option Ipv4Addr :=
  if bool_decide (15 < length s) then None else all_consumed read_ipv4 s.

(** [s.parse::<SocketAddr>()]. *)
Definition parse_socket_addr (s : bytes) : option (IpAddr * Z) :=
  all_consumed (λ s, match read_socket_v4 s with Some r => Some r | None => read_socket_v6 s end) s.

(** ** Printing *)

Definition fmt_ipv4 (ip : Ipv4Addr) : bytes :=
  join [x2e] (fmt_dec ∘ b2z <$> octets ip).

Definition fmt_groups (gs : list Z) : bytes := join [x3a] (fmt_hex <$> gs).

(** The longest run of zero groups (start, length), the first one on ties. *)
Fixpoint zero_run (i start len lstart llen : nat) (gs : list Z) : nat * nat :=
  match gs with
  | [] => (lstart, llen)
  | g :: gs =>
      if bool_decide (g = 0%Z) then
        let start := if bool_decide (len = 0) then i else start in
        let len := S len in
        if bool_decide (llen < len) then zero_run (S i) start len start len gs
        else zero_run (S i) start len lstart llen gs
      else zero_run (S i) 0 0 lstart llen gs
  end.

Definition fmt_ipv6 (gs : list Z) : bytes :=
  match gs with
  | [0; 0; 0; 0; 0; 65535; hi; lo]%Z =>
      lit "::ffff:" ++ fmt_ipv4 (ip_of_u32 (hi * 65536 + lo))
  | _ => let '(start, len) := zero_run 0 0 0 0 0 gs in
         if bool_decide (1 < len)
         then fmt_groups (take start gs) ++ lit "::" ++ fmt_groups (drop (start + len) gs)
         else fmt_groups gs
  end.

Definition fmt_ip (a : IpAddr) : bytes :=
  match a with V4 ip => fmt_ipv4 ip | V6 gs => fmt_ipv6 gs end.

(** ** Lemmas *)

Lemma length_octets ip : length (octets ip) = 4.
Proof. done. Qed.

Lemma u32_of_ip_range ip : (0 ≤ u32_of_ip ip < 2 ^ 32)%Z.
Proof. pose proof (be_value_range (octets ip)). unfold u32_of_ip. simpl in *. lia. Qed.

Lemma be_value4 a b c d :
  be_value [a; b; c; d] = (b2z a * 16777216 + b2z b * 65536 + b2z c * 256 + b2z d)%Z.
Proof. unfold be_value. cbn. lia. Qed.

Lemma ip_of_u32_of_ip ip : ip_of_u32 (u32_of_ip ip) = ip.
Proof.
  destruct ip as [a b c d]. unfold ip_of_u32, u32_of_ip, octets; simpl.
  rewrite be_value4.
  pose proof (b2z_range a). pose proof (b2z_range b).
  pose proof (b2z_range c). pose proof (b2z_range d).
  f_equal; apply b2z_inj; rewrite b2z_z2b; Z.to_euclidean_division_equations; lia.
Qed.

Lemma u32_of_ip_of_u32 n : (0 ≤ n < 2 ^ 32)%Z → u32_of_ip (ip_of_u32 n) = n.
Proof.
  intros Hn. unfold u32_of_ip, ip_of_u32, octets; simpl.
  rewrite be_value4, !b2z_z2b. Z.to_euclidean_division_equations; lia.
Qed.

Lemma u32_of_ip_inj a b : u32_of_ip a = u32_of_ip b → a = b.
Proof. intros H. by rewrite <-(ip_of_u32_of_ip a), H, ip_of_u32_of_ip. Qed.

Example parse_ipv4_ok : parse_ipv4 (lit "10.1.2.3") = Some (ipv4 10 1 2 3).
Proof. vm_compute. reflexivity. Qed.

Example parse_socket_v6_ok : parse_socket_addr (lit "[::1]:8080") = Some (V6 [0;0;0;0;0;0;0;1]%Z, 8080%Z).
Proof. vm_compute. reflexivity. Qed.

Example fmt_ipv6_ok : fmt_ipv6 [8193; 3512; 0; 0; 1; 0; 0; 1]%Z = lit "2001:db8::1:0:0:1".
Proof. vm_compute. reflexivity. Qed.
