(* ===== verification/FakeDns.v ===== *)
(** * The synthetic resolver: src/fake_dns.rs (and config::net's constants)

    [FakeDns] is the bidirectional domain/fake-address table with its ring
    allocator; [parse_query], [build_empty_response], [build_a_response] and
    [encode_name] are the wire format. [Spec] is the abstract table: the list
    of all allocations, newest first, of which the last [POOL_SIZE] are live. *)
From S2P Require Import Prelude RustStd Net.

(** config::net *)
Definition DNS_ADDR : Ipv4Addr := ipv4 198 18 0 1.
Definition DNS_PORT : Z := 53.

Definition POOL_START : Z := u32_of_ip DNS_ADDR + 1.
Definition POOL_END : Z := be_value (octets (ipv4 198 19 255 254)).
Definition POOL_SIZE : Z := POOL_END - POOL_START + 1.

Record FakeDns := mkFakeDns {
  domain_to_ip : gmap bytes Ipv4Addr;
  ip_to_domain : gmap Ipv4Addr bytes;
  next_offset : Z;
}.

Definition new : FakeDns := mkFakeDns ∅ ∅ 0.

(** The address and the updated table. *)
Definition resolve (s : FakeDns) (domain : bytes) : Ipv4Addr * FakeDns :=
  match domain_to_ip s !! domain with
  | Some ip => (ip, s)
  | None =>
      let ip := ip_of_u32 (POOL_START + next_offset s) in
      let next := ((next_offset s + 1) mod POOL_SIZE)%Z in
      let d2i := match ip_to_domain s !! ip with
                 | Some old_domain => delete old_domain (domain_to_ip s)
                 | None => domain_to_ip s
                 end in
      (ip, mkFakeDns (<[domain := ip]> d2i)
             (<[ip := domain]> (delete ip (ip_to_domain s))) next)
  end.

Definition lookup (s : FakeDns) (ip : Ipv4Addr) : option bytes := ip_to_domain s !! ip.

Definition is_fake_ip (ip : Ipv4Addr) : bool :=
  let n := u32_of_ip ip in
  bool_decide (ip = DNS_ADDR) || ((POOL_START <=? n)%Z && (n <=? POOL_END)%Z).

(** ** DNS packets *)

Definition u16_at (data : bytes) (i : nat) : outcome Z :=
  a ← idx data i; b ← idx data (S i); Ret (be_value [a; b]).

(** The QNAME loop: the position after the name and its labels. *)
Fixpoint qname (fuel : nat) (data : bytes) (pos : nat) (labels : list bytes)
    : outcome (option (nat * list bytes)) :=
  match fuel with
  | O => OutOfFuel
  | S fuel =>
      if bool_decide (length data ≤ pos) then Ret None else
      b ← idx data pos;
      let label_len := Z.to_nat (b2z b) in
      if bool_decide (label_len = 0) then Ret (Some (S pos, labels))
      else if bool_decide (Z.land (b2z b) 0xC0 ≠ 0)%Z then Ret None
      else
        let pos := S pos in
        let stop := pos + label_len in
        if bool_decide (length data < stop) then Ret None else
        raw ← slice data pos stop;
        match from_utf8 raw with
        | None => Ret None
        | Some label => qname fuel data stop (labels ++ [label])
        end
  end.

(** Every iteration consumes at least one byte, so [S (length data)] rounds
    suffice ([parse_query_total]). *)
Definition parse_query (data : bytes) : outcome (option (Z * bytes * Z)) :=
  if bool_decide (length data < 12) then Ret None else
  id ← u16_at data 0;
  flags ← u16_at data 2;
  if bool_decide (Z.land flags 0x8000 ≠ 0)%Z then Ret None else
  qdcount ← u16_at data 4;
  if bool_decide (qdcount = 0)%Z then Ret None else
  name ← qname (S (length data)) data 12 [];
  match name with
  | None => Ret None
  | Some (pos, labels) =>
      if bool_decide (length data < pos + 4) then Ret None else
      qtype ← u16_at data pos;
      let domain := join [x2e] labels in
      if bool_decide (253 < length domain) then Ret None
      else Ret (Some (id, domain, qtype))
  end.

Definition encode_name (buf : bytes) (domain : bytes) : bytes :=
  (if bool_decide (domain = []) then buf
   else foldl (λ buf label, buf ++ z2b (Z.of_nat (length label)) :: label) buf
          (split x2e domain)) ++ [x00].

Definition build_empty_response (id : Z) (domain : bytes) (qtype : Z) : bytes :=
  let pkt := be_bytes 2 id ++ be_bytes 2 0x8180 ++ be_bytes 2 1
             ++ be_bytes 2 0 ++ be_bytes 2 0 ++ be_bytes 2 0 in
  encode_name pkt domain ++ be_bytes 2 qtype ++ be_bytes 2 1.

Definition build_a_response (id : Z) (domain : bytes) (ip : Ipv4Addr) : bytes :=
  let pkt := build_empty_response id domain 1 in
  let pkt := take 6 pkt ++ be_bytes 2 1 ++ drop 8 pkt in
  pkt ++ be_bytes 2 0xC00C ++ be_bytes 2 1 ++ be_bytes 2 1 ++ be_bytes 4 300
      ++ be_bytes 2 4 ++ octets ip.

(** The address of an A response. *)
Lemma build_a_response_ip id dom ip ip' :
  build_a_response id dom ip = build_a_response id dom ip' → ip = ip'.
Proof.
  unfold build_a_response. intros H. repeat apply app_inv_head in H.
  destruct ip, ip'. by injection H as -> -> -> ->.
Qed.

(** ** The abstract table *)
Module Spec.
(** All allocations ever made, newest first. *)
Abbreviation history := (list bytes).

Definition address (n : Z) : Ipv4Addr := ip_of_u32 (POOL_START + n mod POOL_SIZE).

Definition held (h : history) (d : bytes) : option Ipv4Addr :=
  match list_find (λ x, x = d) h with
  | Some (i, _) =>
      if (Z.of_nat i <? POOL_SIZE)%Z
      then Some (address (Z.of_nat (length h) - 1 - Z.of_nat i)) else None
  | None => None
  end.

Definition allocate (h : history) (d : bytes) : Ipv4Addr * history :=
  match held h d with
  | Some ip => (ip, h)
  | None => (address (Z.of_nat (length h)), d :: h)
  end.
End Spec.

(** The simulation relation. *)
Record refines (h : Spec.history) (s : FakeDns) : Prop := {
  ref_offset : next_offset s = (Z.of_nat (length h) mod POOL_SIZE)%Z;
  ref_domain d : domain_to_ip s !! d = Spec.held h d;
  ref_inverse d ip : ip_to_domain s !! ip = Some d ↔ domain_to_ip s !! d = Some ip;
}.

Lemma pool_values : POOL_START = 3323068418%Z ∧ POOL_END = 3323199486%Z ∧ POOL_SIZE = 131069%Z.
Proof. by vm_compute. Qed.

Ltac pool_lia :=
  let H := fresh in
  pose proof pool_values as H; destruct H as (? & ? & ?); lia.

#[global] Opaque POOL_START POOL_END POOL_SIZE.

Lemma pool_mod n : (0 ≤ n mod POOL_SIZE < POOL_SIZE)%Z.
Proof. apply Z.mod_pos_bound. pool_lia. Qed.

Lemma address_u32 n : u32_of_ip (Spec.address n) = (POOL_START + n mod POOL_SIZE)%Z.
Proof. apply u32_of_ip_of_u32. pose proof (pool_mod n). pool_lia. Qed.

Lemma address_inj a b : Spec.address a = Spec.address b → (a mod POOL_SIZE = b mod POOL_SIZE)%Z.
Proof. intros H%(f_equal u32_of_ip). rewrite !address_u32 in H. lia. Qed.

(** Within one window of [POOL_SIZE] allocations the slot of age [i] is the
    next one to be reused exactly when [i] is the oldest. *)
Lemma address_oldest n i :
  (0 ≤ i < POOL_SIZE)%Z →
  Spec.address (n - 1 - i) = Spec.address n ↔ i = (POOL_SIZE - 1)%Z.
Proof.
  intros Hi. split.
  - intros H%address_inj. assert (POOL_SIZE ≠ 0)%Z by pool_lia.
    assert (((n - (n - 1 - i)) mod POOL_SIZE) = 0)%Z as Hz.
    { rewrite Zminus_mod, H, Z.sub_diag. apply Z.mod_0_l. done. }
    replace (n - (n - 1 - i))%Z with (i + 1)%Z in Hz by lia.
    destruct (decide (i + 1 < POOL_SIZE)%Z); [|lia].
    rewrite Z.mod_small in Hz by lia. lia.
  - intros ->. unfold Spec.address.
    replace (n - 1 - (POOL_SIZE - 1))%Z with (n + (-1) * POOL_SIZE)%Z by lia.
    rewrite Z.mod_add by pool_lia. done.
Qed.

Lemma spec_lookup_cons_eq h d :
  Spec.held (d :: h) d = Some (Spec.address (Z.of_nat (length h))).
Proof.
  unfold Spec.held; simpl. rewrite decide_True by done. simpl.
  rewrite (proj2 (Z.ltb_lt _ _)) by pool_lia. do 2 f_equal. lia.
Qed.

(** One more allocation keeps every other live domain except the oldest, whose
    address is the one being reused. *)
Lemma spec_lookup_cons_ne h d d' :
  d' ≠ d →
  Spec.held (d :: h) d' =
    match Spec.held h d' with
    | Some ip => if bool_decide (ip = Spec.address (Z.of_nat (length h))) then None else Some ip
    | None => None
    end.
Proof.
  intros Hne. unfold Spec.held; simpl. rewrite decide_False by congruence.
  destruct (list_find (λ x, x = d') h) as [[i x]|] eqn:E; simpl; [|done].
  destruct (Z.ltb_spec (Z.of_nat i) POOL_SIZE) as [Hlt|Hge].
  - replace (Z.of_nat (S (length h)) - 1 - Z.of_nat (S i))%Z
      with (Z.of_nat (length h) - 1 - Z.of_nat i)%Z by lia.
    destruct (address_oldest (Z.of_nat (length h)) (Z.of_nat i)) as [Hold Hnew]; [lia|].
    case_bool_decide as Ha.
    + apply Hold in Ha. destruct (Z.ltb_spec (Z.of_nat (S i)) POOL_SIZE); [lia|done].
    + destruct (Z.ltb_spec (Z.of_nat (S i)) POOL_SIZE); [done|].
      exfalso. apply Ha, Hnew. lia.
  - destruct (Z.ltb_spec (Z.of_nat (S i)) POOL_SIZE); [lia|done].
Qed.

Lemma new_refines : refines [] new.
Proof.
  split.
  - simpl. rewrite Z.mod_0_l by pool_lia. done.
  - intros d. apply lookup_empty.
  - intros d ip. simpl. by rewrite !lookup_empty.
Qed.

Lemma refines_next h s :
  refines h s → ip_of_u32 (POOL_START + next_offset s) = Spec.address (Z.of_nat (length h)).
Proof. intros Hr. unfold Spec.address. by rewrite (ref_offset _ _ Hr). Qed.

(** The eviction: the entry of the reused address leaves both maps. *)
Definition evict (s : FakeDns) (ip : Ipv4Addr) : gmap bytes Ipv4Addr :=
  match ip_to_domain s !! ip with
  | Some old => delete old (domain_to_ip s)
  | None => domain_to_ip s
  end.

Lemma evict_lookup h s ip d :
  refines h s →
  evict s ip !! d =
    match domain_to_ip s !! d with
    | Some ip' => if bool_decide (ip' = ip) then None else Some ip'
    | None => None
    end.
Proof.
  intros Hr. unfold evict. destruct (ip_to_domain s !! ip) as [old|] eqn:E.
  - rewrite lookup_delete. pose proof E as E'. apply (ref_inverse _ _ Hr) in E'.
    case_decide as Hd; subst.
    + rewrite E'. by rewrite bool_decide_true.
    + destruct (domain_to_ip s !! d) as [ip'|] eqn:Ed; [|done].
      rewrite bool_decide_false; [done|]. intros ->.
      apply (ref_inverse _ _ Hr) in Ed. congruence.
  - destruct (domain_to_ip s !! d) as [ip'|] eqn:Ed; [|done].
    rewrite bool_decide_false; [done|]. intros ->.
    apply (ref_inverse _ _ Hr) in Ed. congruence.
Qed.

Lemma resolve_sim h s d :
  refines h s →
  fst (resolve s d) = fst (Spec.allocate h d) ∧
  refines (snd (Spec.allocate h d)) (snd (resolve s d)).
Proof.
  intros Hr. unfold resolve, Spec.allocate. rewrite (ref_domain _ _ Hr).
  destruct (Spec.held h d) as [ip|] eqn:E; [done|].
  fold (evict s (ip_of_u32 (POOL_START + next_offset s))).
  rewrite (refines_next h s Hr). set (ip := Spec.address _). simpl. split; [done|].
  assert (Hd : ∀ d', <[d:=ip]> (evict s ip) !! d' = Spec.held (d :: h) d').
  { intros d'. rewrite lookup_insert. case_decide as Hc; subst.
    - by rewrite spec_lookup_cons_eq.
    - rewrite spec_lookup_cons_ne by congruence.
      by rewrite (evict_lookup h s), (ref_domain _ _ Hr). }
  split; simpl.
  - rewrite (ref_offset _ _ Hr), Zplus_mod_idemp_l. f_equal. lia.
  - exact Hd.
  - intros d' ip'. rewrite !lookup_insert, lookup_delete.
    rewrite (evict_lookup h s) by done. repeat case_decide; simplify_eq.
    + done.
    + destruct (domain_to_ip s !! d') as [?|]; [case_bool_decide|]; naive_solver.
    + rewrite (ref_inverse _ _ Hr), (ref_domain _ _ Hr), E. naive_solver.
    + rewrite (ref_inverse _ _ Hr).
      destruct (domain_to_ip s !! d') as [?|]; [case_bool_decide|]; naive_solver.
Qed.

(** ** Sequences of queries *)

Fixpoint resolve_all (s : FakeDns) (ds : list bytes) : list Ipv4Addr * FakeDns :=
  match ds with
  | [] => ([], s)
  | d :: ds => let '(ip, s) := resolve s d in
               let '(ips, s) := resolve_all s ds in (ip :: ips, s)
  end.

Fixpoint spec_resolve_all (h : Spec.history) (ds : list bytes) : list Ipv4Addr * Spec.history :=
  match ds with
  | [] => ([], h)
  | d :: ds => let '(ip, h) := Spec.allocate h d in
               let '(ips, h) := spec_resolve_all h ds in (ip :: ips, h)
  end.

Definition reachable (s : FakeDns) : Prop := ∃ ds, s = snd (resolve_all new ds).

Lemma resolve_all_sim h s ds :
  refines h s →
  fst (resolve_all s ds) = fst (spec_resolve_all h ds) ∧
  refines (snd (spec_resolve_all h ds)) (snd (resolve_all s ds)).
Proof.
  revert h s. induction ds as [|d ds IH]; intros h s Hr; simpl; [done|].
  destruct (resolve_sim h s d Hr) as [Hip Hs].
  destruct (resolve s d) as [ip s1], (Spec.allocate h d) as [ip' h1]; simpl in *; subst.
  destruct (IH _ _ Hs) as [Hips Hs'].
  destruct (resolve_all s1 ds), (spec_resolve_all h1 ds); simpl in *; subst. done.
Qed.

Lemma reachable_refines s : reachable s → ∃ h, refines h s.
Proof. intros [ds ->]. eexists. apply resolve_all_sim, new_refines. Qed.

Lemma spec_lookup_pool h d ip :
  Spec.held h d = Some ip → (POOL_START ≤ u32_of_ip ip ≤ POOL_END)%Z.
Proof.
  unfold Spec.held. intros H. destruct (list_find _ h) as [[i x]|]; [|done].
  case_match; simplify_eq. rewrite address_u32.
  match goal with |- context [(?n mod POOL_SIZE)%Z] => pose proof (pool_mod n) end.
  pool_lia.
Qed.

Lemma refines_lookup h s d ip : refines h s → Spec.held h d = Some ip → lookup s ip = Some d.
Proof.
  intros Hr H. unfold lookup. apply (ref_inverse _ _ Hr). by rewrite (ref_domain _ _ Hr).
Qed.

Lemma spec_resolve_live h d :
  Spec.held (snd (Spec.allocate h d)) d = Some (fst (Spec.allocate h d)).
Proof.
  unfold Spec.allocate. destruct (Spec.held h d) as [ip|] eqn:E; simpl; [done|].
  apply spec_lookup_cons_eq.
Qed.

(** A domain of age [i] keeps its address while fewer than [POOL_SIZE - i]
    other domains are allocated. *)
Lemma spec_survives ds : ∀ h d i,
  fst <$> list_find (λ x, x = d) h = Some i →
  (Z.of_nat i + Z.of_nat (length ds) < POOL_SIZE)%Z →
  Spec.held (snd (spec_resolve_all h ds)) d = Spec.held h d.
Proof.
  induction ds as [|e ds IH]; intros h d i Hi Hlt; simpl in *; [done|].
  unfold Spec.allocate. destruct (Spec.held h e) as [ip|] eqn:E.
  - destruct (spec_resolve_all h ds) eqn:Er. simpl.
    pose proof (IH h d i Hi ltac:(lia)) as H. by rewrite Er in H.
  - destruct (spec_resolve_all (e :: h) ds) eqn:Er. simpl.
    destruct (list_find (λ x, x = d) h) as [[j x]|] eqn:Ef; simplify_eq/=.
    assert (Hl : Spec.held h d = Some (Spec.address (Z.of_nat (length h) - 1 - Z.of_nat i))).
    { unfold Spec.held. rewrite Ef. rewrite (proj2 (Z.ltb_lt _ _)) by lia. done. }
    assert (Hne : e ≠ d) by (intros ->; congruence).
    pose proof (IH (e :: h) d (S i)) as H. rewrite Er in H. simpl in H.
    rewrite decide_False, Ef in H by done. rewrite H by (done || lia).
    rewrite spec_lookup_cons_ne by congruence. rewrite Hl.
    rewrite bool_decide_false; [done|].
    rewrite address_oldest by lia. lia.
Qed.

(** ** Theorems on the table *)

(** C7: Every sequence of lookups in the two-map ring returns the addresses of the abstract
    allocation history, in which a domain keeps its address until the pool has wrapped
    around it, and ends in a state that refines the history. *)
Theorem resolve_refines_history (ds : list bytes) :
  fst (resolve_all new ds) = fst (spec_resolve_all [] ds) ∧
  refines (snd (spec_resolve_all [] ds)) (snd (resolve_all new ds)).
Proof. apply resolve_all_sim, new_refines. Qed.

(** C24: In every reachable table the two maps are inverse to each other, hand out only pool
    addresses, never the address of the resolver itself, and the next offset stays inside
    the pool. *)
Theorem mapping_bijective (ds : list bytes) (d : bytes) (ip : Ipv4Addr) :
  let s := snd (resolve_all new ds) in
  (domain_to_ip s !! d = Some ip ↔ lookup s ip = Some d) ∧
  (lookup s ip = Some d → is_fake_ip ip = true ∧ ip ≠ DNS_ADDR) ∧
  lookup s DNS_ADDR = None ∧
  (0 ≤ next_offset s < POOL_SIZE)%Z.
Proof.
  intros s. destruct (resolve_all_sim [] new ds new_refines) as [_ Hr]. fold s in Hr.
  assert (Hpool : ∀ ip d, lookup s ip = Some d → (POOL_START ≤ u32_of_ip ip ≤ POOL_END)%Z).
  { intros ip' d' H%(ref_inverse _ _ Hr). rewrite (ref_domain _ _ Hr) in H.
    by eapply spec_lookup_pool. }
  assert (Hdns : u32_of_ip DNS_ADDR = (POOL_START - 1)%Z) by (rewrite (proj1 pool_values); done).
  split_and!.
  - symmetry. apply (ref_inverse _ _ Hr).
  - intros H%Hpool. split.
    + unfold is_fake_ip. apply orb_true_intro. right. apply andb_true_intro.
      split; lia.
    + intros ->. lia.
  - destruct (lookup s DNS_ADDR) eqn:E; [|done]. apply Hpool in E. lia.
  - rewrite (ref_offset _ _ Hr). apply pool_mod.
  - rewrite (ref_offset _ _ Hr). apply pool_mod.
Qed.

(** The address handed out leads back to the domain. *)
Lemma resolve_reversible (s : FakeDns) (d : bytes) :
  reachable s →
  let '(ip, s') := resolve s d in
  lookup s' ip = Some d ∧ resolve s' d = (ip, s') ∧ is_fake_ip ip = true.
Proof.
  intros [h Hr]%reachable_refines. destruct (resolve_sim h s d Hr) as [Hip Hs].
  pose proof (spec_resolve_live h d) as Hl.
  destruct (resolve s d) as [ip s']; simpl in *. subst ip.
  split_and!.
  - by eapply refines_lookup.
  - unfold resolve. by rewrite (ref_domain _ _ Hs), Hl.
  - apply spec_lookup_pool in Hl. unfold is_fake_ip.
    apply orb_true_intro. right. apply andb_true_intro. split; lia.
Qed.

(** An address handed out for a new domain still maps back to it after fewer than
    POOL_SIZE further lookups, whatever they are. *)
Lemma mapping_survives (s : FakeDns) (d : bytes) (ds : list bytes) :
  reachable s →
  domain_to_ip s !! d = None →
  (Z.of_nat (length ds) < POOL_SIZE)%Z →
  let '(ip, s') := resolve s d in
  lookup (snd (resolve_all s' ds)) ip = Some d.
Proof.
  intros [h Hr]%reachable_refines Hfresh Hlen.
  destruct (resolve_sim h s d Hr) as [Hip Hs].
  rewrite (ref_domain _ _ Hr) in Hfresh.
  unfold Spec.allocate in Hip, Hs. rewrite Hfresh in Hip, Hs. simpl in Hip, Hs.
  destruct (resolve s d) as [ip s']; simpl in *. subst ip.
  destruct (resolve_all_sim _ _ ds Hs) as [_ Hs'].
  eapply refines_lookup; [exact Hs'|].
  rewrite (spec_survives ds (d :: h) d 0); [apply spec_lookup_cons_eq|..].
  - simpl. by rewrite decide_True.
  - lia.
Qed.

(** ** The wire format *)

(** A name as RFC 1035 lays it out, without compression. *)
Definition wire_label (l : bytes) : bytes := z2b (Z.of_nat (length l)) :: l.
Definition wire_name (labels : list bytes) : bytes := concat (wire_label <$> labels) ++ [x00].

Definition good_label (l : bytes) : Prop := 1 ≤ length l ≤ 63 ∧ from_utf8 l = Some l.

Lemma top_bits (b : byte) : (Z.land (b2z b) 0xC0 = 0 ↔ b2z b < 64)%Z.
Proof.
  assert (H : ∀ b, bool_decide (Z.land (b2z b) 0xC0 = 0)%Z = bool_decide (b2z b < 64)%Z)
    by (intros []; reflexivity).
  specialize (H b). repeat case_bool_decide; naive_solver.
Qed.

Lemma from_utf8_id s r : from_utf8 s = Some r → r = s.
Proof. unfold from_utf8. destruct (utf8_chars s); congruence. Qed.

Lemma b2z_label_len (l : bytes) : length l ≤ 63 → Z.to_nat (b2z (z2b (Z.of_nat (length l)))) = length l.
Proof. intros. rewrite b2z_z2b_small; lia. Qed.

Lemma length_wire_name_cons (l : bytes) ls : length (wire_name (l :: ls)) = S (length l) + length (wire_name ls).
Proof. unfold wire_name. simpl. by rewrite <-app_assoc, length_app. Qed.

Lemma length_wire_name_pos ls : 1 ≤ length (wire_name ls).
Proof. unfold wire_name. rewrite length_app. simpl. lia. Qed.

Lemma length_labels_wire_name (ls : list bytes) : length ls < length (wire_name ls).
Proof.
  induction ls as [|l ls IH]; [pose proof (length_wire_name_pos []); simpl in *; lia|].
  rewrite length_wire_name_cons. simpl. lia.
Qed.

Lemma qname_complete (labels : list bytes) : ∀ fuel (pre post : bytes) acc,
  Forall good_label labels → length labels < fuel →
  qname fuel (pre ++ wire_name labels ++ post) (length pre) acc =
    Ret (Some (length pre + length (wire_name labels), acc ++ labels)).
Proof.
  induction labels as [|l ls IH]; intros [|fuel] pre post acc HF Hfuel; simpl in Hfuel; try lia.
  - cbn [qname]. rewrite bool_decide_false by (rewrite length_app; simpl; lia).
    unfold idx. change (wire_name [] ++ post) with (x00 :: post).
    rewrite (list_lookup_middle pre post x00 (length pre)) by done. simpl. rewrite app_nil_r. do 3 f_equal. lia.
  - destruct (Forall_cons_1 _ _ _ HF) as [[Hl Hu] HF']. clear HF.
    set (data := pre ++ wire_name (l :: ls) ++ post).
    assert (Hdata : data = (pre ++ wire_label l) ++ wire_name ls ++ post).
    { unfold data, wire_name. simpl. by rewrite <-!app_assoc. }
    assert (Hlen : length data = length pre + S (length l) + length (wire_name ls) + length post).
    { rewrite Hdata, !length_app. unfold wire_label. simpl. lia. }
    cbn [qname]. rewrite bool_decide_false by lia.
    assert (Hix : data !! length pre = Some (z2b (Z.of_nat (length l)))).
    { unfold data, wire_name. simpl. by rewrite list_lookup_middle. }
    unfold idx. rewrite Hix. cbn [mbind outcome_bind]. rewrite b2z_label_len by lia.
    rewrite bool_decide_false by lia.
    rewrite bool_decide_false.
    2:{ intros Hn. apply Hn, top_bits. rewrite b2z_z2b_small; lia. }
    rewrite bool_decide_false by lia.
    rewrite slice_ret by lia. cbn [mbind outcome_bind].
    assert (Hraw : take (S (length pre) + length l - S (length pre)) (drop (S (length pre)) data) = l).
    { replace (S (length pre) + length l - S (length pre)) with (length l) by lia.
      replace (S (length pre)) with (length (pre ++ [z2b (Z.of_nat (length l))]))
        by (rewrite length_app; simpl; lia).
      replace data with ((pre ++ [z2b (Z.of_nat (length l))]) ++ l ++ wire_name ls ++ post)
        by (rewrite Hdata; unfold wire_label; rewrite <-!app_assoc; done).
      by rewrite drop_app_length, take_app_length. }
    rewrite Hraw, Hu.
    replace (S (length pre) + length l) with (length (pre ++ wire_label l))
      by (rewrite length_app; simpl; lia).
    rewrite Hdata, IH by (done || lia). rewrite length_wire_name_cons, length_app, <-app_assoc.
    unfold wire_label. simpl. do 3 f_equal. lia.
Qed.

Lemma qname_sound fuel : ∀ data pos acc p ls,
  qname fuel data pos acc = Ret (Some (p, ls)) →
  ∃ labels, Forall good_label labels ∧ ls = acc ++ labels ∧
            drop pos data = wire_name labels ++ drop p data ∧
            p = pos + length (wire_name labels) ∧ p ≤ length data.
Proof.
  induction fuel as [|fuel IH]; intros data pos acc p ls H; cbn [qname] in H; [done|].
  case_bool_decide as Hp; [done|].
  destruct (idx_lt data pos ltac:(lia)) as (b & Hb & Hidx). rewrite Hidx in H.
  cbn [mbind outcome_bind] in H. pose proof (b2z_range b) as Hr.
  pose proof (drop_S data b pos Hb) as Hdrop.
  case_bool_decide as Hz.
  { injection H as <- <-. exists []. rewrite app_nil_r. unfold wire_name. simpl.
    assert (b = x00) as -> by (apply b2z_inj; change (b2z x00) with 0%Z; lia).
    split_and!; [constructor|done|by rewrite Hdrop|lia|lia]. }
  case_bool_decide as Htop; [done|].
  assert (b2z b < 64)%Z by (apply top_bits; by destruct (decide (Z.land (b2z b) 0xC0 = 0)%Z)).
  case_bool_decide as Hend; [done|].
  rewrite slice_ret in H by lia. cbn [mbind outcome_bind] in H.
  set (n := Z.to_nat (b2z b)) in *.
  replace (S pos + n - S pos) with n in H by lia.
  destruct (from_utf8 (take n (drop (S pos) data))) as [l|] eqn:Hu; [|done].
  pose proof (from_utf8_id _ _ Hu) as Hl.
  assert (length l = n) as Hln by (rewrite Hl, length_take, length_drop; lia).
  destruct (IH _ _ _ _ _ H) as (labels & HF & -> & Hd & -> & Hle).
  exists (l :: labels). split_and!.
  - constructor; [|done]. split; [lia|]. congruence.
  - by rewrite <-app_assoc.
  - rewrite Hdrop.
    assert (b = z2b (Z.of_nat (length l))) as Hbl.
    { apply b2z_inj. rewrite b2z_z2b_small; lia. }
    unfold wire_name. simpl. rewrite <-Hbl. f_equal.
    rewrite <-(take_drop n (drop (S pos) data)), <-Hl, drop_drop, <-!app_assoc.
    f_equal. rewrite Hd. unfold wire_name. by rewrite <-app_assoc.
  - rewrite length_wire_name_cons. lia.
  - lia.
Qed.

Lemma qname_total fuel : ∀ data pos acc,
  pos ≤ length data → length data < pos + fuel → ∃ r, qname fuel data pos acc = Ret r.
Proof.
  induction fuel as [|fuel IH]; intros data pos acc Hle Hlt; cbn [qname].
  - lia.
  - case_bool_decide as Hp; [eauto|].
    destruct (idx_lt data pos ltac:(lia)) as (b & Hb & ->). cbn [mbind outcome_bind].
    case_bool_decide; [eauto|]. case_bool_decide; [eauto|]. case_bool_decide; [eauto|].
    rewrite slice_ret by lia. cbn [mbind outcome_bind].
    case_match; [|eauto]. apply IH; lia.
Qed.

Lemma be_value_app2 (a b : byte) rest : be_value (take 2 (a :: b :: rest)) = be_value [a; b].
Proof. by rewrite !firstn_cons. Qed.

Lemma u16_at_ret data i :
  i + 2 ≤ length data → u16_at data i = Ret (be_value (take 2 (drop i data))).
Proof.
  intros Hi. unfold u16_at.
  destruct (idx_lt data i ltac:(lia)) as (a & Ha & ->).
  destruct (idx_lt data (S i) ltac:(lia)) as (b & Hb & ->). simpl.
  by rewrite (drop_S data a i Ha), (drop_S data b (S i) Hb).
Qed.

Lemma u16_at_app pre v post :
  (0 ≤ v < 65536)%Z → u16_at (pre ++ be_bytes 2 v ++ post) (length pre) = Ret v.
Proof.
  intros Hv. rewrite u16_at_ret.
  - rewrite drop_app_length, take_app_length' by (symmetry; apply length_be_bytes).
    rewrite be_value_bytes_small; [done|]. simpl. lia.
  - rewrite !length_app, length_be_bytes. lia.
Qed.

Lemma u16_split data i :
  i + 2 ≤ length data →
  drop i data = be_bytes 2 (be_value (take 2 (drop i data))) ++ drop (i + 2) data.
Proof.
  intros Hi. rewrite be_bytes_value by (rewrite length_take, length_drop; lia).
  rewrite <-drop_drop. symmetry. apply take_drop.
Qed.

Lemma u16_value_range bs : length bs ≤ 2 → (0 ≤ be_value bs < 65536)%Z.
Proof.
  intros Hl. pose proof (be_value_range bs).
  assert (256 ^ Z.of_nat (length bs) ≤ 256 ^ 2)%Z by (apply Z.pow_le_mono_r; lia).
  lia.
Qed.

(** A query as [parse_query] accepts it: [rest] is the six bytes of the other
    header counts, [tail] the QCLASS and whatever follows. *)
Definition query_packet (id flags qdcount : Z) (rest : bytes) (labels : list bytes)
    (qtype : Z) (tail : bytes) : bytes :=
  be_bytes 2 id ++ be_bytes 2 flags ++ be_bytes 2 qdcount ++ rest
    ++ wire_name labels ++ be_bytes 2 qtype ++ tail.

Record query_ok (id flags qdcount : Z) (rest : bytes) (labels : list bytes)
    (qtype : Z) (tail : bytes) : Prop := {
  qo_id : (0 ≤ id < 65536)%Z;
  qo_flags : (0 ≤ flags < 0x8000)%Z;
  qo_qd : (0 < qdcount < 65536)%Z;
  qo_rest : length rest = 6;
  qo_labels : Forall good_label labels;
  qo_len : length (join [x2e] labels) ≤ 253;
  qo_type : (0 ≤ qtype < 65536)%Z;
  qo_tail : 2 ≤ length tail;
}.

Lemma qr_bit flags : (0 ≤ flags < 65536)%Z → (Z.land flags 0x8000 = 0 ↔ flags < 0x8000)%Z.
Proof.
  intros Hf. split.
  - intros H. destruct (decide (flags < 0x8000)%Z) as [|Hge]; [done|exfalso].
    assert (Z.testbit (Z.land flags 0x8000) 15 = false) as Hb by (rewrite H; done).
    rewrite Z.land_spec in Hb. change (Z.testbit 0x8000 15) with true in Hb.
    rewrite andb_true_r in Hb. apply Z.testbit_false in Hb; [|lia].
    change (2 ^ 15)%Z with 32768%Z in Hb.
    rewrite <-(Z.div_unique flags 32768 1 (flags - 32768)) in Hb by lia. done.
  - intros H. apply Z.bits_inj_iff. intros n. rewrite Z.land_spec, Z.bits_0.
    destruct (decide (n = 15)%Z) as [->|Hn].
    + rewrite (proj2 (Z.testbit_false flags 15 ltac:(lia))); [done|].
      change (2 ^ 15)%Z with 32768%Z. rewrite Z.div_small by lia. done.
    + change 0x8000%Z with (2 ^ 15)%Z. rewrite Z.pow2_bits_false by lia. apply andb_false_r.
Qed.

Ltac packet_len :=
  rewrite ?length_app, ?length_be_bytes, ?length_wire_name_cons in *; simpl in *; lia.

Lemma parse_query_complete id flags qd rest labels qtype tail :
  query_ok id flags qd rest labels qtype tail →
  parse_query (query_packet id flags qd rest labels qtype tail)
    = Ret (Some (id, join [x2e] labels, qtype)).
Proof.
  intros []. unfold parse_query. set (data := query_packet _ _ _ _ _ _ _).
  set (hdr := be_bytes 2 id ++ be_bytes 2 flags ++ be_bytes 2 qd ++ rest).
  assert (Hhdr : length hdr = 12) by (unfold hdr; packet_len).
  assert (Hd : data = hdr ++ wire_name labels ++ be_bytes 2 qtype ++ tail).
  { unfold data, query_packet, hdr. by rewrite <-!app_assoc. }
  assert (Hlen : length data = 12 + length (wire_name labels) + 2 + length tail).
  { rewrite Hd, !length_app, length_be_bytes, Hhdr. lia. }
  rewrite bool_decide_false by lia.
  assert (u16_at data 0 = Ret id) as -> by (apply (u16_at_app []); lia).
  assert (u16_at data 2 = Ret flags) as ->.
  { pose proof (u16_at_app (be_bytes 2 id) flags) as H. rewrite length_be_bytes in H. apply H. lia. }
  assert (u16_at data 4 = Ret qd) as ->.
  { pose proof (u16_at_app (be_bytes 2 id ++ be_bytes 2 flags) qd
      (rest ++ wire_name labels ++ be_bytes 2 qtype ++ tail)) as H.
    rewrite <-app_assoc in H. apply H. lia. }
  cbn [mbind outcome_bind].
  rewrite bool_decide_false by (intros Hn; apply Hn, qr_bit; lia).
  rewrite bool_decide_false by lia.
  assert (qname (S (length data)) data 12 [] = Ret (Some (12 + length (wire_name labels), labels))) as ->.
  { rewrite <-Hhdr. rewrite Hd at 2. apply (qname_complete labels); [done|].
    pose proof (length_labels_wire_name labels). lia. }
  cbn [mbind outcome_bind]. rewrite bool_decide_false by lia.
  assert (u16_at data (12 + length (wire_name labels)) = Ret qtype) as ->.
  { rewrite Hd, app_assoc, <-Hhdr, <-length_app. by apply u16_at_app. }
  cbn [mbind outcome_bind]. rewrite bool_decide_false by lia. done.
Qed.

Lemma parse_query_sound data id dom qtype :
  parse_query data = Ret (Some (id, dom, qtype)) →
  ∃ flags qd rest labels tail,
    data = query_packet id flags qd rest labels qtype tail ∧
    query_ok id flags qd rest labels qtype tail ∧ dom = join [x2e] labels.
Proof.
  unfold parse_query. intros H. case_bool_decide as Hlen; [done|].
  rewrite !u16_at_ret in H by lia. cbn [mbind outcome_bind] in H.
  set (vid := be_value (take 2 (drop 0 data))) in *.
  set (vflags := be_value (take 2 (drop 2 data))) in *.
  set (vqd := be_value (take 2 (drop 4 data))) in *.
  assert (0 ≤ vid < 65536)%Z by (apply u16_value_range; rewrite length_take; lia).
  assert (0 ≤ vflags < 65536)%Z by (apply u16_value_range; rewrite length_take; lia).
  assert (0 ≤ vqd < 65536)%Z by (apply u16_value_range; rewrite length_take; lia).
  case_bool_decide as Hqr; [done|]. case_bool_decide as Hqd; [done|].
  destruct (qname _ data 12 []) as [[[pos labels]|]| |] eqn:Hq; try done.
  cbn [mbind outcome_bind] in H.
  apply qname_sound in Hq as (ls & HF & Hls & Hname & Hpos & Hle). simpl in Hls. subst ls.
  case_bool_decide as Htail; [done|].
  rewrite u16_at_ret in H by lia. cbn [mbind outcome_bind] in H.
  set (vq := be_value (take 2 (drop pos data))) in *.
  assert (0 ≤ vq < 65536)%Z by (apply u16_value_range; rewrite length_take; lia).
  case_bool_decide as Hdom; [done|]. injection H as <- <- <-.
  exists vflags, vqd, (take 6 (drop 6 data)), labels, (drop (pos + 2) data).
  split_and!; [|split|done].
  - unfold query_packet.
    pose proof (u16_split data 0 ltac:(lia)) as E0. pose proof (u16_split data 2 ltac:(lia)) as E2.
    pose proof (u16_split data 4 ltac:(lia)) as E4. pose proof (u16_split data pos ltac:(lia)) as Ep.
    fold vid in E0. fold vflags in E2. fold vqd in E4. fold vq in Ep. rewrite drop_0 in E0. cbn [Nat.add] in E0, E2, E4.
    rewrite <-Ep, <-Hname.
    replace (drop 12 data) with (drop 6 (drop 6 data)) by (by rewrite drop_drop).
    rewrite take_drop, <-E4, <-E2. exact E0.
  - done.
  - split; [lia|]. apply qr_bit; [lia|].
    by destruct (decide (Z.land vflags 0x8000 = 0)%Z).
  - lia.
  - rewrite length_take, length_drop. lia.
  - done.
  - lia.
  - done.
  - rewrite length_drop. lia.
Qed.

Lemma encode_fold labels : ∀ buf,
  foldl (λ buf label, buf ++ z2b (Z.of_nat (length label)) :: label) buf labels
    = buf ++ concat (wire_label <$> labels).
Proof.
  induction labels as [|l ls IH]; intros buf; simpl; [by rewrite app_nil_r|].
  rewrite IH, <-app_assoc. done.
Qed.



(** ** Theorems on the wire format *)

(** Never a panic, never a loop. *)
Lemma parse_query_total (data : bytes) : ∃ r, parse_query data = Ret r.
Proof.
  unfold parse_query. case_bool_decide as Hlen; [eauto|].
  rewrite !u16_at_ret by lia. cbn [mbind outcome_bind].
  case_bool_decide; [eauto|]. case_bool_decide; [eauto|].
  destruct (qname_total (S (length data)) data 12 []) as [[[pos labels]|] Hq]; [lia|lia|..];
    rewrite Hq; cbn [mbind outcome_bind]; [|eauto].
  case_bool_decide; [eauto|]. rewrite u16_at_ret by lia. cbn [mbind outcome_bind].
  case_bool_decide; eauto.
Qed.

(** C25: parse_query always returns (no out-of-range slice), and accepts exactly the packets
    of the query grammar with the id, the dotted name and the type they carry. *)
Theorem parse_query_iff (data dom : bytes) (id qtype : Z) :
  (∃ r, parse_query data = Ret r) ∧
  (parse_query data = Ret (Some (id, dom, qtype)) ↔
   ∃ flags qd rest labels tail,
     data = query_packet id flags qd rest labels qtype tail ∧
     query_ok id flags qd rest labels qtype tail ∧ dom = join [x2e] labels).
Proof.
  split; [apply parse_query_total|]. split; [apply parse_query_sound|].
  intros (flags & qd & rest & labels & tail & -> & Hok & ->). by apply parse_query_complete.
Qed.

(** The first question of a query of class IN: name, type and class. *)
Definition question (labels : list bytes) (qtype : Z) : bytes :=
  wire_name labels ++ be_bytes 2 qtype ++ be_bytes 2 1.

(** A header with the response flags QR, RD and RA, the counts of the four sections. *)
Definition response_header (id questions answers : Z) : bytes :=
  be_bytes 2 id ++ be_bytes 2 (2 ^ 15 + 2 ^ 8 + 2 ^ 7) ++ be_bytes 2 questions ++ be_bytes 2 answers
    ++ be_bytes 2 0 ++ be_bytes 2 0.


(** A response never passes for a query. *)
Lemma responses_are_not_queries id dom qtype ip :
  parse_query (build_empty_response id dom qtype) = Ret None ∧
  parse_query (build_a_response id dom ip) = Ret None.
Proof.
  assert (H : ∀ a b rest, parse_query (a :: b :: x81 :: x80 :: rest) = Ret None).
  { intros a b rest. unfold parse_query. case_bool_decide as Hlen; [done|].
    simpl in Hlen. rewrite !u16_at_ret by (simpl; lia). cbn [mbind outcome_bind].
    by rewrite bool_decide_true. }
  assert (Hname : ∀ pkt, ∃ r, encode_name pkt dom = pkt ++ r).
  { intros pkt. unfold encode_name. case_bool_decide; [eauto|].
    rewrite encode_fold, <-app_assoc. eauto. }
  unfold build_a_response, build_empty_response.
  match goal with |- context [encode_name ?p dom] => destruct (Hname p) as [r ->] end.
  split; apply H.
Qed.

(** A label holding a dot is taken apart in the answer. *)
Lemma dotted_label_not_echoed :
  ∃ labels tail,
    query_ok 1 0x100 1 (replicate 6 x00) labels 1 tail ∧
    ∃ dom, parse_query (query_packet 1 0x100 1 (replicate 6 x00) labels 1 tail) = Ret (Some (1, dom, 1)%Z) ∧
           build_empty_response 1 dom 1
             ≠ query_packet 1 0x8180 1 (replicate 6 x00) labels 1 (be_bytes 2 1).
Proof.
  exists [lit "a.b"], (be_bytes 2 1).
  assert (Hok : query_ok 1 0x100 1 (replicate 6 x00) [lit "a.b"] 1 (be_bytes 2 1)).
  { split; simpl; try lia. constructor; [|constructor]. split; [simpl; lia|done]. }
  split; [exact Hok|]. exists (lit "a.b"). split; [by apply parse_query_complete|].
  vm_compute. intros [=].
Qed.

Lemma mapping_survives_witness :
  reachable new ∧
  lookup (snd (resolve_all (snd (resolve new (lit "a.example"))) [lit "b"; lit "c"]))
    (fst (resolve new (lit "a.example"))) = Some (lit "a.example").
Proof.
  assert (Hr : reachable new) by (by exists []). split; [exact Hr|].
  apply (mapping_survives new (lit "a.example") [lit "b"; lit "c"] Hr); [done|].
  rewrite (proj2 (proj2 pool_values)). simpl. lia.
Defined.


(** The class is not looked at: a question of class CH is answered as one of class IN. *)
Lemma other_class_not_echoed :
  let query := query_packet 1 0x100 1 (replicate 6 x00) [lit "a"] 1 (be_bytes 2 3) in
  parse_query query = Ret (Some (1, lit "a", 1)%Z) ∧
  build_empty_response 1 (lit "a") 1 = response_header 1 1 0 ++ question [lit "a"] 1.
Proof. vm_compute. done. Qed.

(** AA, bit 10, is not among the flags. *)
Lemma response_not_authoritative id dom qtype :
  take 2 (drop 2 (build_empty_response id dom qtype)) = be_bytes 2 0x8180 ∧ Z.testbit 0x8180 10 = false.
Proof.
  split; [|done]. unfold build_empty_response, encode_name. case_bool_decide; [done|]. by rewrite encode_fold.
Qed.
