(* ===== verification/Stream.v ===== *)
(** * Byte streams

    The interface through which the components read sockets, and a scripted
    socket that implements it.

    [ByteSource] states what a non-blocking reader promises: the bytes it
    returns are the next ones of its content, in order, and an empty read of a
    non-empty buffer means the end of the stream. [sock] is a connected TCP
    stream as a peer script: the chunks the kernel will hand out, what ends
    them (EOF or an error), the bytes written so far and how many more writes
    will be accepted. [read_exact] and [write_all] are tokio's loops on it. *)
From S2P Require Import Prelude RustStd.

Class ByteSource (S : Type) := {
  try_read : S → nat → io bytes * S;
  content : S → bytes;
  try_read_ok s n bs s' :
    try_read s n = (Ok bs, s') → content s = bs ++ content s' ∧ length bs ≤ n;
  try_read_eof s n s' : try_read s n = (Ok [], s') → 0 < n → content s = [];
  try_read_err s n e s' : try_read s n = (Err e, s') → content s' = content s;
}.

(** Stateful calls that may fail. *)
Definition M (S E A : Type) : Type := S → result E A * S.

#[export] Instance M_ret S E : MRet (M S E) := λ A a s, (Ok a, s).
#[export] Instance M_bind S E : MBind (M S E) :=
  λ A B f m s, match m s with
               | (Ok a, s') => f a s'
               | (Err e, s') => (Err e, s')
               end.

Definition mfail {S E A} (e : E) : M S E A := λ s, (Err e, s).
Definition mget {S E} : M S E S := λ s, (Ok s, s).
Definition lift_result {S E A} (r : result E A) : M S E A := λ s, (r, s).

(** [.context(...)?] around a call failing with another error type. *)
Definition with_context {S E F A} (f : E → F) (m : M S E A) : M S F A :=
  λ s, let '(r, s') := m s in (map_err f r, s').

Record sock := mkSock {
  rx : list bytes;
  rx_end : option io_error;
  tx : bytes;
  tx_limit : option (nat * io_error);
}.

Definition set_rx (s : sock) (r : list bytes) : sock := mkSock r (rx_end s) (tx s) (tx_limit s).

Definition incoming (s : sock) : bytes := concat (rx s).

(** What the end of the script reads as: [Ok []] is EOF. *)
Definition at_end (s : sock) : io bytes :=
  match rx_end s with Some e => Err e | None => Ok [] end.

(** One read into a buffer of [n] bytes; empty chunks do not occur on the wire. *)
Fixpoint next_chunk (r : list bytes) (n : nat) : option (bytes * list bytes) :=
  match r with
  | [] => None
  | [] :: r => next_chunk r n
  | c :: r => Some (take n c, if bool_decide (length c ≤ n) then r else drop n c :: r)
  end.

Definition sock_read (s : sock) (n : nat) : io bytes * sock :=
  match next_chunk (rx s) n with
  | Some (bs, r) => (Ok bs, set_rx s r)
  | None => (at_end s, s)
  end.

(** [read_exact(&mut buf)] with [buf.len() = n]. *)
Fixpoint read_exact_chunks (r : list bytes) (n : nat) : option (bytes * list bytes) :=
  match n with
  | O => Some ([], r)
  | S _ => match r with
           | [] => None
           | c :: r => if bool_decide (n ≤ length c) then Some (take n c, drop n c :: r)
                       else '(bs, r) ← read_exact_chunks r (n - length c); Some (c ++ bs, r)
           end
  end.

Definition read_exact (n : nat) : M sock io_error bytes :=
  λ s, match read_exact_chunks (rx s) n with
       | Some (bs, r) => (Ok bs, set_rx s r)
       | None => (Err (default (Simple UnexpectedEof) (rx_end s)), set_rx s [])
       end.

(** [write_all(bs)]: past the limit the prefix is gone and the call fails. *)
Definition write_all (bs : bytes) : M sock io_error () :=
  λ s, match tx_limit s with
       | None => (Ok (), mkSock (rx s) (rx_end s) (tx s ++ bs) None)
       | Some (n, e) =>
           if bool_decide (length bs ≤ n)
           then (Ok (), mkSock (rx s) (rx_end s) (tx s ++ bs) (Some (n - length bs, e)))
           else (Err e, mkSock (rx s) (rx_end s) (tx s ++ take n bs) (Some (0, e)))
       end.

(** ** Lemmas *)

Lemma M_bind_run {S E A B} (f : A → M S E B) (m : M S E A) s :
  (x ← m; f x) s = match m s with (Ok a, s') => f a s' | (Err e, s') => (Err e, s') end.
Proof. done. Qed.

(** Runs a call forward. *)
Lemma M_bind_step {S E A B} (f : A → M S E B) (m : M S E A) s a s1 r :
  m s = (Ok a, s1) → f a s1 = r → (x ← m; f x) s = r.
Proof. intros Hm <-. by rewrite M_bind_run, Hm. Qed.

Lemma M_bind_ok {S E A B} (f : A → M S E B) (m : M S E A) s b s2 :
  (x ← m; f x) s = (Ok b, s2) ↔ ∃ a s1, m s = (Ok a, s1) ∧ f a s1 = (Ok b, s2).
Proof.
  unfold mbind, M_bind. destruct (m s) as [[a|e] s1].
  - split; [eauto|]. by intros (? & ? & [= <- <-] & ?).
  - split; [done|]. by intros (? & ? & ? & ?).
Qed.

Lemma with_context_ok {S E F A} (f : E → F) (m : M S E A) s a s' :
  with_context f m s = (Ok a, s') ↔ m s = (Ok a, s').
Proof. unfold with_context. destruct (m s) as [[]]; simpl; split; congruence. Qed.

Lemma next_chunk_content r n bs r' :
  next_chunk r n = Some (bs, r') → concat r = bs ++ concat r' ∧ length bs ≤ n.
Proof.
  induction r as [|c r IH]; simpl; [done|]. destruct c as [|b c]; [done|].
  intros [= <- <-]. split; [|rewrite length_take; lia].
  case_bool_decide as Hc.
  - by rewrite take_ge.
  - cbn [concat]. rewrite app_assoc. by rewrite take_drop.
Qed.

Lemma next_chunk_nonempty r n bs r' :
  next_chunk r n = Some (bs, r') → 0 < n → bs ≠ [].
Proof.
  induction r as [|c r IH]; simpl; [done|]. destruct c as [|b c]; [done|].
  intros [= <- <-] Hn. by destruct n; [lia|].
Qed.

Lemma next_chunk_None r n : next_chunk r n = None → concat r = [].
Proof. induction r as [|c r IH]; simpl; [done|]. by destruct c. Qed.

#[export] Program Instance sock_source : ByteSource sock :=
  {| try_read := sock_read; content := incoming |}.
Next Obligation.
  intros s n bs s'. unfold sock_read.
  destruct (next_chunk (rx s) n) as [[b r]|] eqn:E.
  - intros [= <- <-]. by apply next_chunk_content.
  - unfold at_end. destruct (rx_end s); [done|]. intros [= <- <-]. split; [done|simpl; lia].
Qed.
Next Obligation.
  intros s n s'. unfold sock_read.
  destruct (next_chunk (rx s) n) as [[b r]|] eqn:E.
  - intros [= -> <-] Hn. exfalso. by eapply next_chunk_nonempty.
  - intros _ _. unfold incoming. by eapply next_chunk_None.
Qed.
Next Obligation.
  intros s n e s'. unfold sock_read.
  destruct (next_chunk (rx s) n) as [[b r]|] eqn:E; [done|]. by intros [= _ <-].
Qed.

Lemma read_exact_chunks_spec r : ∀ n,
  match read_exact_chunks r n with
  | Some (bs, r') => bs = take n (concat r) ∧ concat r' = drop n (concat r) ∧ n ≤ length (concat r)
  | None => length (concat r) < n
  end.
Proof.
  induction r as [|c r IH]; intros [|n]; cbn [read_exact_chunks];
    [by split_and!; [..|lia] | simpl; lia | by split_and!; [..|lia] |].
  case_bool_decide as Hc.
  - cbn [concat]. rewrite take_app_le, drop_app_le, length_app by lia.
    split_and!; [done..|lia].
  - specialize (IH (S n - length c)). cbn [concat].
    destruct (read_exact_chunks r (S n - length c)) as [[bs r']|]; cbn [mbind option_bind].
    + destruct IH as (-> & Hr & Hle). rewrite take_app_ge, drop_app_ge, length_app by lia.
      split_and!; [done..|lia].
    + rewrite length_app. lia.
Qed.

(** [read_exact] sees the bytes, not the chunks. *)
Lemma read_exact_ok n s bs s' :
  read_exact n s = (Ok bs, s') →
  incoming s = bs ++ incoming s' ∧ length bs = n ∧ tx s' = tx s ∧
  rx_end s' = rx_end s ∧ tx_limit s' = tx_limit s.
Proof.
  unfold read_exact, incoming. pose proof (read_exact_chunks_spec (rx s) n) as H.
  destruct (read_exact_chunks (rx s) n) as [[b r]|]; [|done].
  intros [= <- <-]. simpl. destruct H as (-> & -> & Hle).
  split_and!; [by rewrite take_drop|rewrite length_take; lia|done..].
Qed.

Lemma read_exact_enough n s :
  n ≤ length (incoming s) →
  ∃ s', read_exact n s = (Ok (take n (incoming s)), s') ∧ incoming s' = drop n (incoming s) ∧
        tx s' = tx s ∧ rx_end s' = rx_end s ∧ tx_limit s' = tx_limit s.
Proof.
  intros Hn. unfold read_exact, incoming in *.
  pose proof (read_exact_chunks_spec (rx s) n) as H.
  destruct (read_exact_chunks (rx s) n) as [[b r]|]; [|lia].
  destruct H as (-> & Hr & _). eexists. split; [done|]. by simpl.
Qed.

Lemma read_exact_short n s :
  length (incoming s) < n →
  ∃ s', read_exact n s = (Err (default (Simple UnexpectedEof) (rx_end s)), s') ∧ tx s' = tx s.
Proof.
  intros Hn. unfold read_exact, incoming in *.
  pose proof (read_exact_chunks_spec (rx s) n) as H.
  destruct (read_exact_chunks (rx s) n) as [[b r]|].
  - destruct H as (_ & _ & ?). lia.
  - eexists. by split.
Qed.

Lemma write_all_ok bs s s' :
  write_all bs s = (Ok (), s') →
  tx s' = tx s ++ bs ∧ rx s' = rx s ∧ rx_end s' = rx_end s.
Proof.
  unfold write_all. destruct (tx_limit s) as [[n e]|]; [case_bool_decide|]; intros [= <-]; done.
Qed.

(** Whatever happens, the bytes on the wire are a prefix of those asked for. *)
Lemma write_all_prefix bs s r s' :
  write_all bs s = (r, s') → ∃ k, tx s' = tx s ++ take k bs ∧ rx s' = rx s.
Proof.
  unfold write_all. destruct (tx_limit s) as [[n e]|]; [case_bool_decide|]; intros [= <- <-]; simpl.
  - exists (length bs). by rewrite firstn_all.
  - eauto.
  - exists (length bs). by rewrite firstn_all.
Qed.
