(* ===== verification/Proxy.v ===== *)
(** * Routes: src/proxy/mod.rs

    [ProxyConfig] and its URL parser and printer, [ProxyTarget], and
    [ProxyStream], the tunnel that serves bytes prefetched by a handshake
    before those of the socket. [proxy_error] has one constructor per [bail!]
    or [with_context] of the parser. *)
From S2P Require Import Prelude RustStd Net Stream.

Inductive ProxyConfig :=
| Direct
| Socks5 (addr : bytes) (auth : option (bytes * bytes))
| Http (addr : bytes) (auth : option (bytes * bytes)).

#[export] Instance ProxyConfig_eq_dec : EqDecision ProxyConfig.
Proof. solve_decision. Defined.

Inductive proxy_error :=
| UnsupportedProxy
| EmptyUsername
| InvalidAddress
| InvalidHostname
| InvalidPort.

Inductive Kind := KSocks5 | KHttp.

Definition scheme (value : bytes) : option (Kind * bytes) :=
  match strip_prefix (lit "socks5://") value with
  | Some rest => Some (KSocks5, rest)
  | None =>
      match strip_prefix (lit "socks://") value with
      | Some rest => Some (KSocks5, rest)
      | None => match strip_prefix (lit "http://") value with
                | Some rest => Some (KHttp, rest)
                | None => None
                end
      end
  end.

(** The credentials before the last [@], if there is one. *)
Definition userinfo (rest : bytes) : result proxy_error (option (bytes * bytes) * bytes) :=
  match rsplit_once x40 rest with
  | Some (auth_str, host_port) =>
      let parts := splitn 2 x3a auth_str in
      let user := default [] (parts !! 0) in
      let pass := default [] (parts !! 1) in
      if bool_decide (user = []) then Err EmptyUsername else Ok (Some (user, pass), host_port)
  | None => Ok (None, rest)
  end.

Definition bad_host_char (b : byte) : bool :=
  bool_decide (b ∈ [x3a; x2f; x3f; x23; x5b; x5d]).

Definition check_address (host_port : bytes) : result proxy_error () :=
  match parse_socket_addr host_port with
  | Some _ => Ok ()
  | None =>
      '(host, port) ← ok_or InvalidAddress (rsplit_once x3a host_port);
      if bool_decide (host = []) || existsb bad_host_char host || any_whitespace host
      then Err InvalidHostname
      else _ ← ok_or InvalidPort (parse_uint U16_MAX port); Ok ()
  end.

Definition parse (value : bytes) : result proxy_error ProxyConfig :=
  if bool_decide (value = lit "direct") then Ok Direct else
  '(kind, rest) ← ok_or UnsupportedProxy (scheme value);
  '(auth, host_port) ← userinfo rest;
  _ ← check_address host_port;
  Ok (match kind with
      | KSocks5 => Socks5 host_port auth
      | KHttp => Http host_port auth
      end).

(** Display for ProxyConfig *)
Definition fmt_config (c : ProxyConfig) : bytes :=
  match c with
  | Direct => lit "direct"
  | Socks5 addr _ => lit "socks5://" ++ addr
  | Http addr _ => lit "http://" ++ addr
  end.

Inductive ProxyTarget :=
| TDomain (host : bytes) (port : Z)
| TIp (addr : IpAddr) (port : Z).

(** Display for ProxyTarget *)
Definition fmt_target (t : ProxyTarget) : bytes :=
  match t with
  | TDomain host port => host ++ lit ":" ++ fmt_dec port
  | TIp addr port => fmt_ip addr ++ lit ":" ++ fmt_dec port
  end.

(** ** ProxyStream *)

(** [inner] is the TCP stream, [buffered] a cursor: its bytes and position. *)
Record ProxyStream (T : Type) := mkStream { inner : T; buffered : bytes; position : nat }.
Arguments mkStream {T} _ _ _.
Arguments inner {T} _.
Arguments buffered {T} _.
Arguments position {T} _.

Definition stream_new {T} (inner : T) (buffered : bytes) : ProxyStream T :=
  mkStream inner buffered 0.

Definition has_buffered_data {T} (s : ProxyStream T) : bool :=
  bool_decide (position s < length (buffered s)).

Section proxy_stream.
Context {T : Type} `{!ByteSource T}.

(** Cursor::read into a buffer of [n] bytes, or the socket's try_read. *)
Definition stream_try_read (s : ProxyStream T) (n : nat) : io bytes * ProxyStream T :=
  if has_buffered_data s then
    let bs := take n (drop (position s) (buffered s)) in
    (Ok bs, mkStream (inner s) (buffered s) (position s + length bs))
  else
    let '(r, i) := try_read (inner s) n in
    (r, mkStream i (buffered s) (position s)).

Definition stream_content (s : ProxyStream T) : bytes :=
  drop (position s) (buffered s) ++ content (inner s).

Lemma stream_unbuffered (s : ProxyStream T) :
  has_buffered_data s = false → stream_content s = content (inner s).
Proof.
  unfold has_buffered_data, stream_content. case_bool_decide; [done|]. intros _.
  by rewrite drop_ge by lia.
Qed.

Lemma stream_read_buffered (s : ProxyStream T) n :
  has_buffered_data s = true →
  let bs := take n (drop (position s) (buffered s)) in
  drop (position s) (buffered s) = bs ++ drop (position s + length bs) (buffered s).
Proof.
  intros _. simpl. rewrite <-drop_drop, length_take.
  destruct (decide (n ≤ length (drop (position s) (buffered s)))).
  - by rewrite Nat.min_l, take_drop by lia.
  - rewrite Nat.min_r, (drop_ge (drop _ _)), take_ge by lia. by rewrite app_nil_r.
Qed.

#[export] Program Instance stream_source : ByteSource (ProxyStream T) :=
  {| try_read := stream_try_read; content := stream_content |}.
Next Obligation.
  intros s n bs s'. unfold stream_try_read. destruct (has_buffered_data s) eqn:E.
  - intros [= <- <-]. split; [|rewrite length_take; lia].
    unfold stream_content at 1. rewrite (stream_read_buffered s n E) at 1.
    by rewrite <-app_assoc.
  - destruct (try_read (inner s) n) as [r i] eqn:Er. intros [= -> <-].
    rewrite !stream_unbuffered by done. by eapply try_read_ok.
Qed.
Next Obligation.
  intros s n s'. unfold stream_try_read. destruct (has_buffered_data s) eqn:E.
  - intros [= Hbs _] Hn. exfalso. unfold has_buffered_data in E. case_bool_decide; [|done].
    apply (f_equal length) in Hbs. rewrite length_take, length_drop in Hbs. simpl in Hbs. lia.
  - destruct (try_read (inner s) n) as [r i] eqn:Er. intros [= -> <-] Hn.
    rewrite stream_unbuffered by done. by eapply try_read_eof.
Qed.
Next Obligation.
  intros s n e s'. unfold stream_try_read. destruct (has_buffered_data s) eqn:E; [done|].
  destruct (try_read (inner s) n) as [r i] eqn:Er. intros [= -> <-].
  rewrite !stream_unbuffered by done. by eapply try_read_err.
Qed.

(** poll_read_ready: buffered bytes are ready at once. *)
Definition stream_read_ready (inner_ready : T → bool) (s : ProxyStream T) : bool :=
  if has_buffered_data s then true else inner_ready (inner s).

(** poll_read into a [ReadBuf] already holding [filled] with [room] bytes
    left: the new contents and the stream. *)
Definition stream_poll_read (s : ProxyStream T) (filled : bytes) (room : nat)
    : io bytes * ProxyStream T :=
  if has_buffered_data s then
    let bs := take room (drop (position s) (buffered s)) in
    (Ok (filled ++ bs), mkStream (inner s) (buffered s) (position s + length bs))
  else
    let '(r, i) := try_read (inner s) room in
    (app filled <$> r, mkStream i (buffered s) (position s)).
End proxy_stream.

(** ** Theorems *)

(** An address [check_address] lets through: a socket address, or a host name
    and a port. *)
Definition good_address (a : bytes) : Prop := check_address a = Ok ().

Definition auth_prefix (auth : option (bytes * bytes)) : bytes :=
  match auth with
  | Some (user, pass) => user ++ lit ":" ++ pass ++ lit "@"
  | None => []
  end.

Definition config_of (k : Kind) (addr : bytes) (auth : option (bytes * bytes)) : ProxyConfig :=
  match k with KSocks5 => Socks5 addr auth | KHttp => Http addr auth end.

Definition auth_ok (auth : option (bytes * bytes)) : Prop :=
  match auth with Some (user, _) => user ≠ [] ∧ x3a ∉ user | None => True end.

Definition strip_auth (c : ProxyConfig) : ProxyConfig :=
  match c with
  | Direct => Direct
  | Socks5 addr _ => Socks5 addr None
  | Http addr _ => Http addr None
  end.

(** The scheme prefixes of each kind. *)
Definition scheme_of (k : Kind) (p : bytes) : Prop :=
  match k with
  | KSocks5 => p = lit "socks5://" ∨ p = lit "socks://"
  | KHttp => p = lit "http://"
  end.

Lemma scheme_sound value k rest :
  scheme value = Some (k, rest) → ∃ p, value = p ++ rest ∧ scheme_of k p.
Proof.
  unfold scheme. intros H.
  destruct (strip_prefix (lit "socks5://") value) eqn:E1;
    [injection H as <- <-; apply strip_prefix_spec in E1; unfold scheme_of; eauto|].
  destruct (strip_prefix (lit "socks://") value) eqn:E2;
    [injection H as <- <-; apply strip_prefix_spec in E2; unfold scheme_of; eauto|].
  destruct (strip_prefix (lit "http://") value) eqn:E3; [|done].
  injection H as <- <-. apply strip_prefix_spec in E3. unfold scheme_of. eauto.
Qed.

Lemma userinfo_none rest : x40 ∉ rest → userinfo rest = Ok (None, rest).
Proof. intros H%rsplit_once_None. unfold userinfo. by rewrite H. Qed.

Lemma userinfo_some user pass addr :
  user ≠ [] → x3a ∉ user → x40 ∉ addr →
  userinfo (user ++ lit ":" ++ pass ++ lit "@" ++ addr) = Ok (Some (user, pass), addr).
Proof.
  intros Hu Hc Ha. unfold userinfo.
  rewrite (proj2 (rsplit_once_spec x40 _ (user ++ lit ":" ++ pass) addr)).
  2:{ split; [|done]. by rewrite <-!app_assoc. }
  cbn [splitn]. rewrite (proj2 (split_once_spec x3a _ user pass)) by done.
  simpl. by rewrite bool_decide_false.
Qed.

Lemma userinfo_sound rest auth addr :
  userinfo rest = Ok (auth, addr) →
  (x40 ∉ addr) ∧ auth_ok auth ∧
  (rest = auth_prefix auth ++ addr ∨
   ∃ user, auth = Some (user, []) ∧ rest = user ++ lit "@" ++ addr).
Proof.
  unfold userinfo. destruct (rsplit_once x40 rest) as [[a h]|] eqn:E.
  - apply rsplit_once_spec in E as [-> Hh]. cbn [splitn].
    destruct (split_once x3a a) as [[u p]|] eqn:Es; simpl; case_bool_decide as Hu; try done.
    + intros [= <- <-]. apply split_once_spec in Es as [-> Hc].
      split_and!; [done..|]. left. unfold auth_prefix. by rewrite <-!app_assoc.
    + intros [= <- <-]. apply split_once_None in Es. split_and!; [done..|]. right. eauto.
  - intros [= <- <-]. apply rsplit_once_None in E. split_and!; [done..|]. by left.
Qed.

Lemma parse_scheme value k rest :
  scheme value = Some (k, rest) →
  parse value = ('(auth, addr) ← userinfo rest; _ ← check_address addr; Ok (config_of k addr auth)).
Proof.
  intros Hs. unfold parse. rewrite bool_decide_false, Hs.
  2:{ intros ->. vm_compute in Hs. done. }
  cbn. by destruct (userinfo rest) as [[auth addr]|], k.
Qed.

(** Every URL of the grammar [scheme, optional user:password@, host:port] parses to the
    configuration it describes. *)
Lemma parse_accepts_urls (k : Kind) (auth : option (bytes * bytes)) (addr p : bytes) :
  auth_ok auth → good_address addr → x40 ∉ addr →
  scheme_of k p →
  parse (p ++ auth_prefix auth ++ addr) = Ok (config_of k addr auth).
Proof.
  intros Ha Hg Hat Hp.
  rewrite (parse_scheme _ k (auth_prefix auth ++ addr)).
  - destruct auth as [[u w]|]; cbn [auth_prefix auth_ok] in *.
    + rewrite <-!app_assoc. destruct Ha as [Hu Hc]. rewrite userinfo_some by done. cbn.
      unfold good_address in Hg. by rewrite Hg.
    + rewrite userinfo_none by done. cbn. unfold good_address in Hg. by rewrite Hg.
  - unfold scheme_of in Hp. destruct k; [destruct Hp as [-> | ->]|subst]; done.
Qed.

Lemma parse_inv value c :
  parse value = Ok c →
  (c = Direct ∧ value = lit "direct") ∨
  ∃ k rest auth addr, scheme value = Some (k, rest) ∧ userinfo rest = Ok (auth, addr) ∧
                      good_address addr ∧ c = config_of k addr auth.
Proof.
  unfold parse. case_bool_decide as Hd; [intros [= <-]; by left|].
  destruct (scheme value) as [[k rest]|] eqn:Hs; [|done]. cbn.
  destruct (userinfo rest) as [[auth addr]|] eqn:Hu; [|done]. cbn.
  destruct (check_address addr) as [[]|] eqn:Hc; [|done]. cbn. intros [= <-].
  right. exists k, rest, auth, addr. split_and!; try done; by destruct k.
Qed.

(** Whatever parses is 'direct' or a URL of that grammar, and the configuration is the
    one it spells. *)
Lemma parse_sound (value : bytes) (c : ProxyConfig) :
  parse value = Ok c →
  (c = Direct ∧ value = lit "direct") ∨
  ∃ k p auth addr,
    c = config_of k addr auth ∧ good_address addr ∧ (x40 ∉ addr) ∧ auth_ok auth ∧
    scheme_of k p ∧
    (value = p ++ auth_prefix auth ++ addr ∨
     ∃ user, auth = Some (user, []) ∧ value = p ++ user ++ lit "@" ++ addr).
Proof.
  intros [?|(k & rest & auth & addr & Hs & Hu & Hg & ->)]%parse_inv; [by left|right].
  apply scheme_sound in Hs as (p & -> & Hp). apply userinfo_sound in Hu as (Hat & Ha & Hr).
  exists k, p, auth, addr. split_and!; try done.
  destruct Hr as [->|(u & -> & ->)]; [by left|right; eauto].
Qed.

Lemma userinfo_user user addr :
  user ≠ [] → x3a ∉ user → x40 ∉ addr → userinfo (user ++ lit "@" ++ addr) = Ok (Some (user, []), addr).
Proof.
  intros Hu Hc Ha. unfold userinfo. rewrite (proj2 (rsplit_once_spec x40 _ user addr)) by done.
  cbn [splitn]. rewrite (proj2 (split_once_None x3a user)) by done. simpl. by rewrite bool_decide_false.
Qed.

(** A socket address, or a host name without delimiters or white space and a
    16-bit port after the last colon. *)
Definition address_grammar (addr : bytes) : Prop :=
  is_Some (parse_socket_addr addr) ∨
  ∃ host port n, addr = host ++ lit ":" ++ port ∧ (x3a ∉ port) ∧ host ≠ [] ∧
    Forall (λ b, b ∉ lit ":/?#[]") host ∧ any_whitespace host = false ∧ parse_uint U16_MAX port = Some n.

Lemma bad_host_chars host : existsb bad_host_char host = false ↔ Forall (λ b, b ∉ lit ":/?#[]") host.
Proof.
  unfold bad_host_char. induction host as [|b host IH]; [done|]. simpl. rewrite orb_false_iff, IH. split.
  - intros [Hb Hh]. constructor; [by apply bool_decide_eq_false in Hb|done].
  - intros [Hb Hh]%Forall_cons_1. split; [by apply bool_decide_eq_false|done].
Qed.

Lemma good_address_iff addr : good_address addr ↔ address_grammar addr.
Proof.
  unfold good_address, check_address, address_grammar. destruct (parse_socket_addr addr) as [sa|].
  { split; [|done]. intros _. left. eauto. }
  split.
  - destruct (rsplit_once x3a addr) as [[host port]|] eqn:E; [|done]. simpl.
    case_bool_decide as Hh; [done|]. destruct (existsb bad_host_char host) eqn:Hb; [done|].
    destruct (any_whitespace host) eqn:Hw; [done|]. simpl. destruct (parse_uint U16_MAX port) as [n|] eqn:Hn; [|done].
    intros _. right. apply rsplit_once_spec in E as [-> Hp]. exists host, port, n.
    split_and!; try done. by apply bad_host_chars.
  - intros [[? ?]|(host & port & n & -> & Hp & Hh & Hb & Hw & Hn)]; [done|].
    rewrite (proj2 (rsplit_once_spec x3a _ host port)) by done. simpl.
    rewrite bool_decide_false, Hw by done. rewrite (proj2 (bad_host_chars host)) by done. simpl. by rewrite Hn.
Qed.

(** C40: ProxyConfig::parse accepts exactly direct and the URLs of the grammar (socks5://,
    socks:// or http://, optional user or user:password before the last @ with a nonempty
    user without colon, then a socket address or a host without delimiters and white space
    and a 16-bit port), and gives the configuration the URL spells. *)
Theorem proxy_url_grammar (value : bytes) (c : ProxyConfig) :
  parse value = Ok c ↔
  c = Direct ∧ value = lit "direct" ∨
  ∃ k p auth addr,
    c = config_of k addr auth ∧ scheme_of k p ∧ address_grammar addr ∧ (x40 ∉ addr) ∧ auth_ok auth ∧
    (value = p ++ auth_prefix auth ++ addr ∨
     ∃ user, auth = Some (user, []) ∧ value = p ++ user ++ lit "@" ++ addr).
Proof.
  split.
  - intros [?|(k & p & auth & addr & Hc & Hg & H)]%parse_sound; [by left|right].
    exists k, p, auth, addr. rewrite <-good_address_iff. naive_solver.
  - intros [[-> ->]|(k & p & auth & addr & -> & Hp & Hg%good_address_iff & Hat & Ha & Hv)]; [done|].
    destruct Hv as [->|(user & -> & ->)]; [by apply parse_accepts_urls|]. destruct Ha as [Hu Hc].
    rewrite (parse_scheme _ k (user ++ lit "@" ++ addr)).
    + rewrite userinfo_user by done. cbn. unfold good_address in Hg. by rewrite Hg.
    + unfold scheme_of in Hp. destruct k; [destruct Hp as [-> | ->]|subst]; done.
Qed.

(** Printing never shows credentials, and what is printed reads back as the
    same route without them. *)
Lemma display_roundtrip (value : bytes) (c : ProxyConfig) :
  parse value = Ok c →
  parse (fmt_config c) = Ok (strip_auth c) ∧ fmt_config (strip_auth c) = fmt_config c.
Proof.
  intros [[-> ->]|(k & rest & auth & addr & Hs & Hu & Hg & ->)]%parse_inv; [done|].
  apply userinfo_sound in Hu as (Hat & _ & _).
  split; [|by destruct k].
  assert (H : parse (fmt_config (config_of k addr auth)) = Ok (config_of k addr None)).
  { rewrite (parse_scheme _ k addr) by (by destruct k).
    rewrite userinfo_none by done. cbn. unfold good_address in Hg. by rewrite Hg. }
  rewrite H. by destruct k.
Qed.

(** socks5://u:p@10.0.0.1:1080 *)
Lemma parse_accepts_urls_witness :
  good_address (lit "10.0.0.1:1080") ∧
  parse (lit "socks5://u:p@10.0.0.1:1080") = Ok (Socks5 (lit "10.0.0.1:1080") (Some (lit "u", lit "p"))).
Proof.
  split; [done|].
  apply (parse_accepts_urls KSocks5 (Some (lit "u", lit "p")) (lit "10.0.0.1:1080") (lit "socks5://")).
  - split; [done|]. by apply (bool_decide_unpack (x3a ∉ lit "u")).
  - done.
  - by apply (bool_decide_unpack (x40 ∉ lit "10.0.0.1:1080")).
  - by left.
Defined.

Lemma parse_sound_witness :
  parse (lit "http://h:80") = Ok (Http (lit "h:80") None) ∧
  ∃ k p auth addr, Http (lit "h:80") None = config_of k addr auth ∧ scheme_of k p ∧
    lit "http://h:80" = p ++ auth_prefix auth ++ addr.
Proof.
  assert (E : parse (lit "http://h:80") = Ok (Http (lit "h:80") None)) by reflexivity.
  split; [exact E|].
  destruct (parse_sound _ _ E) as [[? _]|(k & p & auth & addr & Hc & _ & _ & _ & Hk & [Hv|(u & Ha & _)])].
  - discriminate.
  - exists k, p, auth, addr. done.
  - subst auth. destruct k; discriminate.
Defined.
