(* ===== verification/Rule.v ===== *)
(** * Routing rules: src/rule.rs

    [PrefixTrie] is the IPv4 longest-prefix matcher, [RuleMatch] a parsed match
    specification, [RuleMatcher] the compiled rule set. The regex crate is not
    part of the repository: its calls are the operations of [RegexEngine], and
    what the program relies on is [RegexLaws]. [lpm] is the reference
    definition of longest-prefix, first-rule-wins matching. *)
From S2P Require Import Prelude RustStd Net Stream Proxy.

(** ** The trie *)

#[local] Set Warnings "-register-all".

Inductive PrefixTrie (A : Type) :=
| Node (child0 child1 : option (PrefixTrie A)) (action : option A).
Arguments Node {A} _ _ _.

Definition trie_empty {A} : PrefixTrie A := Node None None None.

Definition action_of {A} (t : PrefixTrie A) : option A := let 'Node _ _ a := t in a.

Definition child {A} (t : PrefixTrie A) (bit : Z) : option (PrefixTrie A) :=
  let 'Node c0 c1 _ := t in if (bit =? 0)%Z then c0 else c1.

Definition set_child {A} (t : PrefixTrie A) (bit : Z) (c : PrefixTrie A) : PrefixTrie A :=
  let 'Node c0 c1 a := t in if (bit =? 0)%Z then Node (Some c) c1 a else Node c0 (Some c) a.

Arguments action_of {A} !t.
Arguments child {A} !t bit.
Arguments set_child {A} !t bit c.

(** [((value >> (31 - i)) & 1) as usize] *)
Definition bit_at (value i : Z) : Z := Z.land (Z.shiftr value (31 - i)) 1.

(** The loop of [insert] from bit [i] with [n] bits to go. *)
Fixpoint insert_from {A} (n : nat) (i value : Z) (a : A) (t : PrefixTrie A) : PrefixTrie A :=
  match n with
  | O => let 'Node c0 c1 act := t in
         Node c0 c1 (match act with Some b => Some b | None => Some a end)
  | S n => let bit := bit_at value i in
           set_child t bit (insert_from n (i + 1) value a (default trie_empty (child t bit)))
  end.

Definition insert {A} (t : PrefixTrie A) (value : Z) (prefix : nat) (a : A) : PrefixTrie A :=
  insert_from prefix 0 value a t.

(** The loop of [get] from bit [i] with [n] bits to go. *)
Fixpoint get_from {A} (n : nat) (i value : Z) (best : option A) (t : PrefixTrie A) : option A :=
  match n with
  | O => best
  | S n => match child t (bit_at value i) with
           | None => best
           | Some c => get_from n (i + 1) value
                         (match action_of c with Some a => Some a | None => best end) c
           end
  end.

Definition get {A} (t : PrefixTrie A) (value : Z) : option A :=
  get_from 32 0 value (action_of t) t.

(** ** Match specifications *)

Inductive RuleMatch :=
| RIp (addr : Ipv4Addr)
| RCidr (network : Ipv4Addr) (prefix : nat)
| RDomain (domain : bytes)
| RDomainRegex (pattern : bytes).

Inductive rule_error :=
| MissingKind | InvalidIp | CidrShape | InvalidNetwork | InvalidPrefix | PrefixRange
| EmptyDomain | InvalidRegex | UnknownKind
| MissingRoute | EmptyMatch | EmptyProxy | InvalidProxy (e : proxy_error) | RegexSetFailed.

(** The regex crate. *)
Class RegexEngine := {
  RegexSet : Type;
  regex_new : bytes → bool;
  set_new : list bytes → option RegexSet;
  set_matches : RegexSet → bytes → list nat;
  escape : bytes → bytes;
}.

(** Its documented behaviour: a set reports, in increasing order, the indices
    of the patterns that match; an escaped literal anchored at both ends and
    marked case-insensitive matches the names equal to it up to case. *)
Class RegexLaws `{RegexEngine} := {
  is_match : bytes → bytes → bool;
  fold_case : bytes → bytes;
  set_matches_spec ps rs host :
    set_new ps = Some rs →
    set_matches rs host
      = List.filter (λ i, match ps !! i with Some p => is_match p host | None => false end)
          (seq 0 (length ps));
  literal_match d host :
    is_match (lit "(?i)^" ++ escape d ++ lit "$") host = bool_decide (fold_case d = fold_case host);
}.

Section rules.
Context `{RegexEngine}.

Definition match_parse (spec : bytes) : result rule_error RuleMatch :=
  '(kind, value) ← ok_or MissingKind (split_once x3a spec);
  if bool_decide (kind = lit "ip") then
    addr ← ok_or InvalidIp (parse_ipv4 value); Ok (RIp addr)
  else if bool_decide (kind = lit "cidr") then
    '(network, prefix) ← ok_or CidrShape (split_once x2f value);
    network ← ok_or InvalidNetwork (parse_ipv4 network);
    prefix ← ok_or InvalidPrefix (parse_uint U8_MAX prefix);
    if (32 <? prefix)%Z then Err PrefixRange else Ok (RCidr network (Z.to_nat prefix))
  else if bool_decide (kind = lit "domain") then
    if bool_decide (value = []) then Err EmptyDomain else Ok (RDomain value)
  else if bool_decide (kind = lit "domain-regex") then
    if regex_new value then Ok (RDomainRegex value) else Err InvalidRegex
  else Err UnknownKind.

Record RuleMatcher := mkMatcher {
  domains : option RegexSet;
  domain_actions : list ProxyConfig;
  cidr : PrefixTrie ProxyConfig;
}.

Definition matcher_default : RuleMatcher := mkMatcher None [] trie_empty.

(** One [MATCH=ROUTE] argument. *)
Definition parse_spec (full_spec : bytes) : result rule_error (RuleMatch * ProxyConfig) :=
  '(match_spec, proxy_spec) ← ok_or MissingRoute (split_once x3d full_spec);
  if bool_decide (match_spec = []) then Err EmptyMatch else
  if bool_decide (proxy_spec = []) then Err EmptyProxy else
  proxy ← map_err InvalidProxy (parse proxy_spec);
  m ← match_parse match_spec;
  Ok (m, proxy).

(** The loop's three accumulators. *)
Record building := mkBuilding {
  b_patterns : list bytes;
  b_actions : list ProxyConfig;
  b_cidr : PrefixTrie ProxyConfig;
}.

Definition add_rule (b : building) (r : RuleMatch * ProxyConfig) : building :=
  let '(m, proxy) := r in
  match m with
  | RIp addr =>
      mkBuilding (b_patterns b) (b_actions b) (insert (b_cidr b) (u32_of_ip addr) 32 proxy)
  | RCidr network prefix =>
      mkBuilding (b_patterns b) (b_actions b) (insert (b_cidr b) (u32_of_ip network) prefix proxy)
  | RDomain domain =>
      mkBuilding (b_patterns b ++ [lit "(?i)^" ++ escape domain ++ lit "$"])
        (b_actions b ++ [proxy]) (b_cidr b)
  | RDomainRegex pattern =>
      mkBuilding (b_patterns b ++ [pattern]) (b_actions b ++ [proxy]) (b_cidr b)
  end.

Fixpoint specs_loop (b : building) (specs : list bytes) : result rule_error building :=
  match specs with
  | [] => Ok b
  | full_spec :: specs => r ← parse_spec full_spec; specs_loop (add_rule b r) specs
  end.

Definition from_specs (specs : list bytes) : result rule_error RuleMatcher :=
  b ← specs_loop (mkBuilding [] [] trie_empty) specs;
  doms ← (if bool_decide (b_patterns b = []) then Ok None
          else rs ← ok_or RegexSetFailed (set_new (b_patterns b)); Ok (Some rs));
  Ok (mkMatcher doms (b_actions b) (b_cidr b)).

(** [self.domain_actions[index]] panics if the set reports a foreign index. *)
Definition match_domain (m : RuleMatcher) (host : bytes) : outcome (option ProxyConfig) :=
  match domains m with
  | None => Ret None
  | Some rs => match head (set_matches rs host) with
               | None => Ret None
               | Some index => a ← idx (domain_actions m) index; Ret (Some a)
               end
  end.

Definition match_ip (m : RuleMatcher) (ip : Ipv4Addr) : option ProxyConfig :=
  get (cidr m) (u32_of_ip ip).
End rules.

(** ** Longest-prefix matching, the reference *)

(** A prefix rule: network, prefix length, action. *)
Abbreviation prefix_rule A := (Z * nat * A)%type.

Definition covers (value : Z) (prefix : nat) (v : Z) : bool :=
  (Z.shiftr value (32 - Z.of_nat prefix) =? Z.shiftr v (32 - Z.of_nat prefix))%Z.

(** The longest covering prefix with its action; the earlier rule on ties. *)
Fixpoint lpm {A} (rules : list (prefix_rule A)) (v : Z) : option (nat * A) :=
  match rules with
  | [] => None
  | (value, prefix, a) :: rules =>
      match lpm rules v with
      | Some (q, b) => if covers value prefix v && bool_decide (q ≤ prefix)
                       then Some (prefix, a) else Some (q, b)
      | None => if covers value prefix v then Some (prefix, a) else None
      end
  end.

(** ** The trie by paths *)

Fixpoint path (n : nat) (i value : Z) : list Z :=
  match n with O => [] | S n => bit_at value i :: path n (i + 1) value end.

Section trie.
Context {A : Type}.
Implicit Types (t : PrefixTrie A) (p q : list Z) (a : A).

Definition bit (b : Z) : Prop := b = 0%Z ∨ b = 1%Z.

Fixpoint insert_path p a t : PrefixTrie A :=
  match p with
  | [] => let 'Node c0 c1 act := t in
          Node c0 c1 (match act with Some b => Some b | None => Some a end)
  | b :: p => set_child t b (insert_path p a (default trie_empty (child t b)))
  end.

(** The deepest action along a path, with its depth. *)
Fixpoint deepest t p {struct p} : option (nat * A) :=
  match p with
  | [] => (0,.) <$> action_of t
  | b :: p => match (match child t b with Some c => deepest c p | None => None end) with
              | Some (k, a) => Some (S k, a)
              | None => (0,.) <$> action_of t
              end
  end.

Lemma insert_from_path n : ∀ i value a t,
  insert_from n i value a t = insert_path (path n i value) a t.
Proof. induction n as [|n IH]; intros; simpl; [done|]. by rewrite IH. Qed.

Lemma get_from_deepest n : ∀ i value best t,
  get_from n i value (match action_of t with Some a => Some a | None => best end) t
    = match deepest t (path n i value) with Some (_, a) => Some a | None => best end.
Proof.
  induction n as [|n IH]; intros i value best t; simpl; [by destruct (action_of t)|].
  destruct (child t (bit_at value i)) as [c|]; simpl; [|by destruct (action_of t)].
  rewrite IH. destruct (deepest c _) as [[k a]|]; [done|]. by destruct (action_of t).
Qed.

Lemma child_set_child t b c b' :
  bit b → bit b' → child (set_child t b c) b' = if decide (b = b') then Some c else child t b'.
Proof. destruct t. by intros [-> | ->] [-> | ->]. Qed.

Lemma action_set_child t b c : action_of (set_child t b c) = action_of t.
Proof. destruct t. simpl. by destruct (b =? 0)%Z. Qed.

Lemma deepest_empty p : deepest trie_empty p = None.
Proof. destruct p; simpl; [done|]. by destruct (_ =? 0)%Z. Qed.

Lemma deepest_default t b p :
  deepest (default trie_empty (child t b)) p
    = match child t b with Some c => deepest c p | None => None end.
Proof. destruct (child t b); simpl; [done|apply deepest_empty]. Qed.

(** Inserting at [p] only matters for paths through [p] that have nothing as
    deep yet. *)
Lemma deepest_insert p : ∀ a t q,
  Forall bit p → Forall bit q →
  deepest (insert_path p a t) q =
    if decide (p `prefix_of` q) then
      match deepest t q with
      | Some (k, b) => if decide (length p ≤ k) then Some (k, b) else Some (length p, a)
      | None => Some (length p, a)
      end
    else deepest t q.
Proof.
  induction p as [|b p IH]; intros a t q Hp Hq.
  - rewrite decide_True by apply prefix_nil. destruct t as [c0 c1 act]. simpl.
    destruct q as [|b' q]; simpl; [by destruct act|].
    destruct (if (b' =? 0)%Z then c0 else c1) as [c|]; simpl; [|by destruct act].
    destruct (deepest c q) as [[k x]|]; [done|]. by destruct act.
  - apply Forall_cons_1 in Hp as [Hb Hp]. destruct q as [|b' q].
    + rewrite decide_False by apply prefix_nil_not. simpl. by rewrite action_set_child.
    + apply Forall_cons_1 in Hq as [Hb' Hq]. cbn [deepest insert_path].
      rewrite child_set_child, action_set_child by done.
      destruct (decide (b = b')) as [->|Hne].
      * rewrite IH by done. rewrite deepest_default.
        destruct (decide (p `prefix_of` q)) as [Hpre|Hpre].
        -- rewrite decide_True by (by apply prefix_cons).
           destruct (match child t b' with Some c => deepest c q | None => None end) as [[k x]|].
           ++ cbn [length]. destruct (decide (length p ≤ k)), (decide (S (length p) ≤ S k)); done || lia.
           ++ destruct (action_of t); simpl; done.
        -- rewrite decide_False; [done|]. intros H%prefix_cons_inv_2. done.
      * rewrite decide_False; [done|]. intros H%prefix_cons_inv_1. done.
Qed.
End trie.

Lemma lpm_snoc {A} (rules : list (prefix_rule A)) value prefix a v :
  lpm (rules ++ [(value, prefix, a)]) v =
    if covers value prefix v then
      match lpm rules v with
      | Some (k, b) => if decide (prefix ≤ k) then Some (k, b) else Some (prefix, a)
      | None => Some (prefix, a)
      end
    else lpm rules v.
Proof.
  induction rules as [|[[value' prefix'] a'] rules IH]; simpl.
  - by destruct (covers value prefix v).
  - rewrite IH. destruct (covers value prefix v); [|done].
    destruct (lpm rules v) as [[k b]|]; destruct (covers value' prefix' v); simpl;
      repeat (case_decide || case_bool_decide); try done; lia.
Qed.

Lemma bit_at_testbit value i :
  (0 ≤ i ≤ 31)%Z → bit_at value i = Z.b2z (Z.testbit value (31 - i)).
Proof.
  intros Hi. unfold bit_at. change 1%Z with (Z.ones 1). rewrite Z.land_ones by lia.
  rewrite Z.testbit_spec' by lia. by rewrite Z.shiftr_div_pow2 by lia.
Qed.

Lemma path_bits n : ∀ i value, Forall bit (path n i value).
Proof.
  induction n as [|n IH]; intros i value; simpl; constructor; [|apply IH].
  unfold bit_at, bit. pose proof (Z.land_ones (Z.shiftr value (31 - i)) 1 ltac:(lia)) as E.
  change (Z.ones 1) with 1%Z in E. rewrite E.
  pose proof (Z.mod_pos_bound (Z.shiftr value (31 - i)) (2 ^ 1) ltac:(lia)). lia.
Qed.

Lemma length_path n : ∀ i value, length (path n i value) = n.
Proof. induction n; intros; simpl; auto. Qed.

Lemma path_lookup n : ∀ i value k,
  k < n → path n i value !! k = Some (bit_at value (i + Z.of_nat k)).
Proof.
  induction n as [|n IH]; intros i value [|k] Hk; simpl; try lia.
  - by rewrite Z.add_0_r.
  - rewrite IH by lia. do 2 f_equal. lia.
Qed.

Lemma path_prefix n m value v :
  n ≤ m →
  path n 0 value `prefix_of` path m 0 v ↔
  ∀ k : nat, k < n → bit_at value (Z.of_nat k) = bit_at v (Z.of_nat k).
Proof.
  intros Hnm. split.
  - intros Hp k Hk.
    pose proof (prefix_lookup_lt _ _ k ltac:(rewrite length_path; exact Hk) Hp) as Hl.
    rewrite !path_lookup in Hl by lia. by injection Hl.
  - intros H. assert (path n 0 value = take n (path m 0 v)) as ->; [|apply prefix_take].
    apply list_eq. intros k. destruct (decide (k < n)) as [Hk|Hk].
    + rewrite lookup_take_lt, !path_lookup by lia. f_equal. by apply H.
    + rewrite !lookup_ge_None_2; [done|rewrite length_take; lia|rewrite length_path; lia].
Qed.

Definition u32 (z : Z) : Prop := (0 ≤ z < 2 ^ 32)%Z.

Lemma u32_high_bits z n : u32 z → (32 ≤ n)%Z → Z.testbit z n = false.
Proof.
  intros Hz Hn. unfold u32 in Hz. rewrite <-(Z.mod_small z (2 ^ 32)) by done.
  by apply Z.mod_pow2_bits_high.
Qed.

Lemma covers_path value prefix v :
  u32 value → u32 v → prefix ≤ 32 →
  covers value prefix v = bool_decide (path prefix 0 value `prefix_of` path 32 0 v).
Proof.
  intros Hvalue Hv Hp. apply eq_true_iff_eq. unfold covers.
  rewrite Z.eqb_eq, bool_decide_eq_true, path_prefix by done.
  split.
  - intros Heq k Hk. rewrite !bit_at_testbit by lia. f_equal.
    apply (f_equal (λ z, Z.testbit z (Z.of_nat prefix - 1 - Z.of_nat k))) in Heq.
    rewrite !Z.shiftr_spec in Heq by lia.
    by replace (Z.of_nat prefix - 1 - Z.of_nat k + (32 - Z.of_nat prefix))%Z
      with (31 - Z.of_nat k)%Z in Heq by lia.
  - intros Hb. apply Z.bits_inj'. intros j Hj. rewrite !Z.shiftr_spec by lia.
    destruct (decide (j < Z.of_nat prefix)%Z) as [Hlt|Hge].
    + specialize (Hb (Z.to_nat (Z.of_nat prefix - 1 - j)) ltac:(lia)).
      rewrite !bit_at_testbit in Hb by lia.
      replace (31 - Z.of_nat (Z.to_nat (Z.of_nat prefix - 1 - j)))%Z
        with (j + (32 - Z.of_nat prefix))%Z in Hb by lia.
      by destruct (Z.testbit value _), (Z.testbit v _).
    + by rewrite !u32_high_bits by (done || lia).
Qed.

(** ** The trie implements the reference *)

Definition rule_ok {A} (r : prefix_rule A) : Prop := u32 (fst (fst r)) ∧ snd (fst r) ≤ 32.

Definition build {A} (rules : list (prefix_rule A)) : PrefixTrie A :=
  foldl (λ t '(value, prefix, a), insert t value prefix a) trie_empty rules.

Lemma build_deepest {A} (rules : list (prefix_rule A)) v :
  Forall rule_ok rules → u32 v → deepest (build rules) (path 32 0 v) = lpm rules v.
Proof.
  intros HF Hv. induction rules as [|[[value prefix] a] rules IH] using rev_ind.
  - apply deepest_empty.
  - apply Forall_app in HF as [HF Hr]. apply Forall_singleton in Hr as [Hval Hpre].
    unfold build. rewrite foldl_app. cbn [foldl]. fold (build rules).
    unfold insert. rewrite insert_from_path, deepest_insert by apply path_bits.
    rewrite IH, lpm_snoc, covers_path, length_path by done.
    by destruct (decide (path prefix 0 value `prefix_of` path 32 0 v)) as [Hd|Hd];
      [rewrite bool_decide_true|rewrite bool_decide_false].
Qed.

Lemma get_build {A} (rules : list (prefix_rule A)) v :
  Forall rule_ok rules → u32 v → get (build rules) v = snd <$> lpm rules v.
Proof.
  intros HF Hv. unfold get.
  pose proof (get_from_deepest 32 0 v None (build rules)) as H.
  replace (match action_of (build rules) with Some a => Some a | None => None end)
    with (action_of (build rules)) in H by (by destruct (action_of (build rules))).
  rewrite H, build_deepest by done. by destruct (lpm rules v) as [[]|].
Qed.

(** ** From arguments to decisions *)

Section semantics.
Context `{RegexEngine} `{!RegexLaws}.

Fixpoint parse_all (specs : list bytes) : result rule_error (list (RuleMatch * ProxyConfig)) :=
  match specs with
  | [] => Ok []
  | spec :: specs => r ← parse_spec spec; rs ← parse_all specs; Ok (r :: rs)
  end.

Fixpoint ip_rules (rules : list (RuleMatch * ProxyConfig)) : list (prefix_rule ProxyConfig) :=
  match rules with
  | [] => []
  | (RIp addr, a) :: rules => (u32_of_ip addr, 32, a) :: ip_rules rules
  | (RCidr network prefix, a) :: rules => (u32_of_ip network, prefix, a) :: ip_rules rules
  | _ :: rules => ip_rules rules
  end.

Definition domain_rule_matches (m : RuleMatch) (host : bytes) : bool :=
  match m with
  | RDomain d => bool_decide (fold_case d = fold_case host)
  | RDomainRegex p => is_match p host
  | _ => false
  end.

(** The action of the first domain rule, in argument order, that matches. *)
Fixpoint first_domain (rules : list (RuleMatch * ProxyConfig)) (host : bytes) : option ProxyConfig :=
  match rules with
  | [] => None
  | (m, a) :: rules => if domain_rule_matches m host then Some a else first_domain rules host
  end.

(** The compiled pattern of a domain rule. *)
Definition rule_pattern (m : RuleMatch) : option bytes :=
  match m with
  | RDomain d => Some (lit "(?i)^" ++ escape d ++ lit "$")
  | RDomainRegex p => Some p
  | _ => None
  end.

Fixpoint patterns (rules : list (RuleMatch * ProxyConfig)) : list (bytes * ProxyConfig) :=
  match rules with
  | [] => []
  | (m, a) :: rules => match rule_pattern m with
                       | Some p => (p, a) :: patterns rules
                       | None => patterns rules
                       end
  end.

Lemma specs_loop_spec specs : ∀ b,
  specs_loop b specs = (rs ← parse_all specs; Ok (foldl add_rule b rs)).
Proof.
  induction specs as [|spec specs IH]; intros b; simpl; [done|].
  destruct (parse_spec spec) as [r|e]; cbn; [|done]. rewrite IH.
  by destruct (parse_all specs).
Qed.

Lemma foldl_add_rule rules : ∀ b,
  foldl add_rule b rules =
    mkBuilding (b_patterns b ++ (patterns rules).*1) (b_actions b ++ (patterns rules).*2)
      (foldl (λ t '(value, prefix, a), insert t value prefix a) (b_cidr b) (ip_rules rules)).
Proof.
  induction rules as [|[m a] rules IH]; intros b; simpl.
  - rewrite !app_nil_r. by destruct b.
  - rewrite IH. destruct m; simpl; try done; by rewrite <-!app_assoc.
Qed.

Fixpoint first_match (l : list (bytes * ProxyConfig)) (host : bytes) : option ProxyConfig :=
  match l with
  | [] => None
  | (p, a) :: l => if is_match p host then Some a else first_match l host
  end.

(** Whether pattern [i] of [ps] matches. *)
Definition hit (ps : list bytes) (host : bytes) (i : nat) : bool :=
  match ps !! i with Some p => is_match p host | None => false end.

Lemma filter_hit_cons p ps host js :
  List.filter (hit (p :: ps) host) (S <$> js) = S <$> List.filter (hit ps host) js.
Proof.
  induction js as [|j js IH]; [done|]. simpl.
  change (hit (p :: ps) host (S j)) with (hit ps host j).
  destruct (hit ps host j); [|done]. simpl. by f_equal.
Qed.

Lemma first_match_head (l : list (bytes * ProxyConfig)) host :
  match head (List.filter (hit l.*1 host) (seq 0 (length l.*1))) with
  | Some i => ∃ a, l.*2 !! i = Some a ∧ first_match l host = Some a
  | None => first_match l host = None
  end.
Proof.
  induction l as [|[p a] l IH]; [done|]. cbn [length fmap list_fmap seq List.filter fst snd first_match].
  change (hit (p :: l.*1) host 0) with (is_match p host).
  destruct (is_match p host); [by exists a|].
  rewrite <-fmap_S_seq, filter_hit_cons.
  by destruct (List.filter (hit l.*1 host) (seq 0 (length l.*1))).
Qed.

Lemma first_domain_patterns rules host :
  first_domain rules host = first_match (patterns rules) host.
Proof.
  induction rules as [|[m a] rules IH]; [done|].
  destruct m as [?|? ?|d|p]; cbn [first_domain patterns rule_pattern domain_rule_matches first_match];
    rewrite ?literal_match, IH; done.
Qed.

Lemma match_parse_prefix spec network prefix :
  match_parse spec = Ok (RCidr network prefix) → prefix ≤ 32.
Proof.
  unfold match_parse. intros Hm.
  destruct (split_once x3a spec) as [[k v]|]; [|done]. cbn in Hm.
  case_bool_decide; [by destruct (parse_ipv4 v)|].
  case_bool_decide.
  - destruct (split_once x2f v) as [[n p]|]; [|done]. cbn in Hm.
    destruct (parse_ipv4 n); [|done]. cbn in Hm.
    destruct (parse_uint U8_MAX p) as [z|]; [|done]. cbn in Hm.
    destruct (Z.ltb_spec 32 z); [done|]. injection Hm as <- <-. lia.
  - case_bool_decide; [by case_bool_decide|]. case_bool_decide; [by destruct (regex_new v)|done].
Qed.

Lemma parse_all_ip_rules specs rules :
  parse_all specs = Ok rules → Forall rule_ok (ip_rules rules).
Proof.
  revert rules. induction specs as [|spec specs IH]; intros rules Hp; simpl in Hp.
  - injection Hp as <-. constructor.
  - destruct (parse_spec spec) as [[m a]|] eqn:Es; [|done]. cbn in Hp.
    destruct (parse_all specs) as [rs|]; [|done]. cbn in Hp. injection Hp as <-.
    specialize (IH rs eq_refl).
    assert (Hm : ∃ ms, match_parse ms = Ok m).
    { unfold parse_spec in Es. destruct (split_once x3d spec) as [[ms ps]|]; [|done]. cbn in Es.
      case_bool_decide; [done|]. case_bool_decide; [done|].
      destruct (parse ps); [|done]. cbn in Es.
      destruct (match_parse ms) eqn:Em; [|done]. injection Es as <- <-. eauto. }
    destruct Hm as [ms Hm]. destruct m; simpl; try done; constructor; try done;
      split; simpl; try apply u32_of_ip_range; [lia|]. by eapply match_parse_prefix.
Qed.

(** The compiled matcher answers as the parsed rules say. *)
Lemma from_specs_spec (specs : list bytes) (m : RuleMatcher) :
  from_specs specs = Ok m →
  ∃ rules, parse_all specs = Ok rules ∧
    (∀ ip, match_ip m ip = snd <$> lpm (ip_rules rules) (u32_of_ip ip)) ∧
    (∀ host, match_domain m host = Ret (first_domain rules host)).
Proof.
  unfold from_specs. rewrite specs_loop_spec.
  destruct (parse_all specs) as [rules|] eqn:Ep; [|done]. cbn.
  rewrite foldl_add_rule. simpl. intros Hm. exists rules. split; [done|].
  assert (Hm' : ∃ doms, m = mkMatcher doms (patterns rules).*2 (build (ip_rules rules)) ∧
             (if bool_decide ((patterns rules).*1 = []) then doms = None
              else ∃ rs, doms = Some rs ∧ set_new (patterns rules).*1 = Some rs)).
  { case_bool_decide; cbn in Hm; [injection Hm as <-; eauto|].
    destruct (set_new _) as [rs|] eqn:En; [|done]. injection Hm as <-. eauto. }
  destruct Hm' as (doms & -> & Hd). split.
  - intros ip. unfold match_ip. simpl. apply get_build.
    + by eapply parse_all_ip_rules.
    + apply u32_of_ip_range.
  - intros host. unfold match_domain. rewrite first_domain_patterns. simpl.
    case_bool_decide as Hnil.
    + subst doms. apply fmap_nil_inv in Hnil. by rewrite Hnil.
    + destruct Hd as (rs & -> & Hn). rewrite (set_matches_spec _ _ _ Hn).
      pose proof (first_match_head (patterns rules) host) as Hh.
      unfold hit in Hh. destruct (head _) as [i|].
      * destruct Hh as (a & Ha & ->). unfold idx. by rewrite Ha.
      * by rewrite Hh.
Qed.
End semantics.

(** ** What the reference means *)

Lemma lpm_none {A} (rules : list (prefix_rule A)) v :
  lpm rules v = None ↔ Forall (λ r, covers (fst (fst r)) (snd (fst r)) v = false) rules.
Proof.
  induction rules as [|[[val p] x] rules IH]; simpl; [by split|].
  rewrite Forall_cons_iff, <-IH. simpl.
  destruct (lpm rules v) as [[? ?]|]; destruct (covers val p v); simpl;
    try case_bool_decide; (split; [done|by intros [? ?]]) || (split; by auto).
Qed.

(** [lpm] answers with a covering rule of maximal prefix, the earliest of its
    length, and with nothing only when no rule covers. *)
Lemma lpm_some {A} (rules : list (prefix_rule A)) v k a :
  lpm rules v = Some (k, a) →
  ∃ (i : nat) value, rules !! i = Some (value, k, a) ∧ covers value k v = true ∧
    ∀ (j : nat) value' k' a', rules !! j = Some (value', k', a') → covers value' k' v = true →
      k' < k ∨ (k' = k ∧ i ≤ j).
Proof.
  revert k a. induction rules as [|[[val p] x] rules IH]; intros k a; simpl; [done|].
  intros Hl. destruct (lpm rules v) as [[q b]|] eqn:Eq.
  - destruct (IH _ _ eq_refl) as (i & value & Hi & Hc & Hmax).
    destruct (covers val p v) eqn:Ec; simpl in Hl; [case_bool_decide as Hqp|]; injection Hl as <- <-.
    + exists 0, val. split_and!; [done..|].
      intros [|j] value' k' a' Hj Hcj; simpl in Hj; [naive_solver lia|].
      destruct (Hmax j value' k' a' Hj Hcj); lia.
    + exists (S i), value. split_and!; [done..|].
      intros [|j] value' k' a' Hj Hcj; simpl in Hj.
      * injection Hj as <- <- <-. lia.
      * destruct (Hmax j value' k' a' Hj Hcj); lia.
    + exists (S i), value. split_and!; [done..|].
      intros [|j] value' k' a' Hj Hcj; simpl in Hj.
      * injection Hj as <- <- <-. congruence.
      * destruct (Hmax j value' k' a' Hj Hcj); lia.
  - destruct (covers val p v) eqn:Ec; [|done]. injection Hl as <- <-.
    exists 0, val. split_and!; [done..|].
    intros [|j] value' k' a' Hj Hcj; simpl in Hj; [naive_solver lia|].
    exfalso. apply lpm_none in Eq. rewrite Forall_lookup in Eq.
    specialize (Eq j _ Hj). simpl in Eq. congruence.
Qed.

(** C6: A lookup in the prefix trie built from a list of CIDR rules returns an action
    exactly when it belongs to the longest prefix covering the address, the first rule
    winning among equal prefixes. *)
Theorem longest_prefix_first_rule {A} (rules : list (prefix_rule A)) (v : Z) (a : A) :
  Forall rule_ok rules → u32 v →
  get (build rules) v = Some a ↔
  ∃ (i : nat) value k, rules !! i = Some (value, k, a) ∧ covers value k v = true ∧
    ∀ (j : nat) value' k' a', rules !! j = Some (value', k', a') → covers value' k' v = true →
      k' < k ∨ (k' = k ∧ i ≤ j).
Proof.
  intros HF Hv. rewrite get_build by done. split.
  - intros Hg. destruct (lpm rules v) as [[k b]|] eqn:El; [|done]. injection Hg as ->.
    apply lpm_some in El as (i & value & ?). eauto.
  - intros (i & value & k & Hi & Hc & Hmax). destruct (lpm rules v) as [[k2 b]|] eqn:El.
    + apply lpm_some in El as (i2 & value2 & Hi2 & Hc2 & Hmax2).
      pose proof (Hmax _ _ _ _ Hi2 Hc2). pose proof (Hmax2 _ _ _ _ Hi Hc).
      assert (i2 = i) as -> by lia. simpl. congruence.
    + apply lpm_none in El. rewrite Forall_lookup in El.
      specialize (El i _ Hi). simpl in El. congruence.
Qed.

(** 10.0.0.0/8 and 10.1.0.0/16 on 10.1.2.3: the longer prefix. *)
Lemma longest_prefix_first_rule_witness :
  let rules := [(0x0A000000, 8, 1); (0x0A010000, 16, 2); (0x0A010000, 16, 3)]%Z in
  let rules := (λ '(v, k, a), (v, Z.to_nat k, a)) <$> rules in
  Forall rule_ok rules ∧ get (build rules) 0x0A010203 = Some 2%Z.
Proof.
  intros rs0 rules.
  assert (HF : Forall rule_ok rules) by (repeat constructor; unfold u32; simpl; lia).
  split; [exact HF|].
  apply (longest_prefix_first_rule rules 0x0A010203 2%Z HF); [unfold u32; lia|].
  exists 1, 0x0A010000%Z, 16. split_and!; [done..|].
  intros [|[|[|j]]] value' k' a' Hj _; simpl in Hj; simplify_eq; vm_compute; lia.
Defined.
