(* ===== verification/Config.v ===== *)
(** * Route selection: src/config.rs, and the argument handling of src/main.rs

    [proxy_for] composes the rule matcher with the local-address defaults and
    the default route. *)
From S2P Require Import Prelude RustStd Net Stream Proxy Rule.

Section config.
Context `{RegexEngine}.

Record Config := mkConfig {
  default_proxy : ProxyConfig;
  command : list bytes;
  rules : RuleMatcher;
}.

Definition proxy_for (c : Config) (target : ProxyTarget) : outcome ProxyConfig :=
  matched ← match target with
            | TDomain host _ => match_domain (rules c) host
            | TIp (V4 v4) _ =>
                Ret (match match_ip (rules c) v4 with
                     | Some p => Some p
                     | None => if is_loopback v4 || is_unspecified v4 then Some Direct else None
                     end)
            | TIp (V6 _) _ => Ret None
            end;
  Ret (default (default_proxy c) matched).

Inductive config_error :=
| BadProxy (e : proxy_error)
| BadRule (e : rule_error).

(** The [Config] literal of main's [run]. *)
Definition load_config (proxy : bytes) (specs : list bytes) (command : list bytes)
    : result config_error Config :=
  p ← map_err BadProxy (parse proxy);
  r ← map_err BadRule (from_specs specs);
  Ok (mkConfig p command r).
End config.

Section theorems.
Context `{RegexEngine} `{!RegexLaws}.

(** The routing policy of the README over the parsed rules. *)
Definition policy (dflt : ProxyConfig) (rs : list (RuleMatch * ProxyConfig))
    (target : ProxyTarget) : ProxyConfig :=
  match target with
  | TDomain host _ => default dflt (first_domain rs host)
  | TIp (V4 ip) _ =>
      match lpm (ip_rules rs) (u32_of_ip ip) with
      | Some (_, p) => p
      | None => if bool_decide (oct0 ip = x7f) || bool_decide (u32_of_ip ip = 0%Z)
                then Direct else dflt
      end
  | TIp (V6 _) _ => dflt
  end.

Lemma unspecified_zero ip : is_unspecified ip = bool_decide (u32_of_ip ip = 0%Z).
Proof.
  unfold is_unspecified. apply bool_decide_ext. split.
  - by intros ->.
  - intros Hz. apply u32_of_ip_inj. by rewrite Hz.
Qed.

Lemma load_config_policy (proxy : bytes) (specs command : list bytes) (c : Config) :
  load_config proxy specs command = Ok c →
  ∃ rs, parse_all specs = Ok rs ∧ parse proxy = Ok (default_proxy c) ∧
        ∀ target, proxy_for c target = Ret (policy (default_proxy c) rs target).
Proof.
  unfold load_config. destruct (parse proxy) as [p|]; [|done]. cbn.
  destruct (from_specs specs) as [m|] eqn:Em; [|done]. cbn. intros [= <-].
  apply from_specs_spec in Em as (rs & Hrs & Hip & Hdom).
  exists rs. split_and!; [done..|]. intros target. unfold proxy_for. simpl.
  destruct target as [host port|[ip|gs] port]; simpl.
  - by rewrite Hdom.
  - rewrite Hip. unfold policy. destruct (lpm _ _) as [[k a]|]; simpl; [done|].
    rewrite unspecified_zero. unfold is_loopback. by destruct (_ || _).
  - done.
Qed.

(** C2: For every configuration that loads, proxy_for implements the routing policy read off
    the command line and never panics: a name takes the first domain rule that matches it,
    in command-line order, literal names without regard to case; an IPv4 address takes the
    longest matching prefix, else direct when it is loopback or unspecified; anything else
    takes the default route. *)
Theorem proxy_for_policy (proxy : bytes) (specs command : list bytes) (c : Config) (target : ProxyTarget) :
  load_config proxy specs command = Ok c →
  ∃ rs, parse_all specs = Ok rs ∧ parse proxy = Ok (default_proxy c) ∧
        proxy_for c target = Ret (policy (default_proxy c) rs target).
Proof.
  intros (rs & Hrs & Hp & Hpol)%load_config_policy. exists rs. split_and!; [done..|]. apply Hpol.
Qed.
End theorems.

(** ** An instance of the regex interface

    Only the anchored literals the program itself builds and exact patterns:
    enough to show that the laws can hold. *)
Module LiteralRegex.
Definition lower (b : byte) : byte :=
  let z := b2z b in if (65 <=? z)%Z && (z <=? 90)%Z then z2b (z + 32) else b.

Definition fold (s : bytes) : bytes := lower <$> s.

Definition matches (p host : bytes) : bool :=
  match strip_prefix (lit "(?i)^") p with
  | Some r => bool_decide (fold (take (length r - 1) r) = fold host)
  | None => bool_decide (p = host)
  end.

Definition indices (ps : list bytes) (host : bytes) : list nat :=
  List.filter (λ i, match ps !! i with Some p => matches p host | None => false end) (seq 0 (length ps)).

#[export] Instance engine : RegexEngine :=
  {| RegexSet := list bytes; regex_new := λ _, true; set_new := Some; set_matches := indices; escape := id |}.

#[export] Program Instance laws : RegexLaws := {| is_match := matches; fold_case := fold |}.
Next Obligation. by intros ps rs host [= <-]. Qed.
Next Obligation.
  intros d host. unfold matches. rewrite (proj2 (strip_prefix_spec _ _ _) eq_refl).
  rewrite length_app. simpl length. rewrite Nat.add_sub, take_app_length. done.
Qed.
End LiteralRegex.

#[local] Existing Instance LiteralRegex.engine.
#[local] Existing Instance LiteralRegex.laws.

(** A domain rule over a default proxy. *)
Lemma proxy_for_policy_witness :
  ∃ c, load_config (lit "socks5://p:1") [lit "domain:Example.com=direct"] [] = Ok c ∧
       proxy_for c (TDomain (lit "example.COM") 443) = Ret Direct.
Proof.
  assert (Hok : is_ok (load_config (lit "socks5://p:1") [lit "domain:Example.com=direct"] []) = true)
    by (vm_compute; reflexivity).
  destruct (load_config (lit "socks5://p:1") [lit "domain:Example.com=direct"] []) as [c|] eqn:E;
    [|discriminate].
  exists c. split; [reflexivity|].
  destruct (proxy_for_policy _ _ _ _ (TDomain (lit "example.COM") 443) E) as (rs & Hrs & _ & ->).
  assert (Hrs' : parse_all [lit "domain:Example.com=direct"]
    = Ok [(RDomain (lit "Example.com"), Direct)]) by (vm_compute; reflexivity).
  rewrite Hrs in Hrs'. injection Hrs' as ->. vm_compute. reflexivity.
Defined.
