(* ===== verification/Socks5.v ===== *)
(** * The SOCKS5 client: src/proxy/socks5.rs

    The handshake runs on a [sock]: what it writes is appended to [tx], what it
    reads comes off [rx]. [socks_error] has one constructor per [bail!], plus
    [SIo] for the I/O errors given a context. [decode_request] is the reference
    reading of a request by an RFC 1928 server. *)
From S2P Require Import Prelude RustStd Net Stream Proxy.

Definition SOCKS5_VERSION : byte := x05.
Definition METHOD_NO_AUTH : byte := x00.
Definition METHOD_USER_PASS : byte := x02.
Definition METHOD_NO_ACCEPTABLE : byte := xff.
Definition CMD_CONNECT : byte := x01.
Definition RSV : byte := x00.
Definition ATYP_IPV4 : byte := x01.
Definition ATYP_DOMAIN : byte := x03.
Definition ATYP_IPV6 : byte := x04.
Definition REP_SUCCESS : byte := x00.
Definition AUTH_VERSION : byte := x01.
Definition AUTH_SUCCESS : byte := x00.

Inductive socks_error :=
| SIo (e : io_error)
| SVersion (v : byte)
| SAuthRequired
| SNoAcceptable
| SUnknownMethod (m : byte)
| SMissingCredentials
| SUserTooLong
| SPassTooLong
| SAuthFailed (status : byte)
| SHostTooLong
| SReplyVersion (v : byte)
| SConnectFailed (rep : byte)
| SUnknownAtyp (atyp : byte).

Abbreviation SM := (M sock socks_error).

Definition sread (n : nat) : SM bytes := with_context SIo (read_exact n).
Definition swrite (bs : bytes) : SM () := with_context SIo (write_all bs).

(** [buf[i]] of a buffer [read_exact] has filled. *)
Definition at_ (bs : bytes) (i : nat) : byte := nth i bs x00.

Definition greeting (has_auth : bool) : bytes :=
  let methods := if has_auth then [METHOD_NO_AUTH; METHOD_USER_PASS] else [METHOD_NO_AUTH] in
  [SOCKS5_VERSION; z2b (Z.of_nat (length methods))] ++ methods.

Definition negotiate_method (has_auth : bool) : SM byte :=
  _ ← swrite (greeting has_auth);
  resp ← sread 2;
  if bool_decide (at_ resp 0 ≠ SOCKS5_VERSION) then mfail (SVersion (at_ resp 0)) else
  let m := at_ resp 1 in
  if bool_decide (m = METHOD_NO_AUTH) then mret m
  else if bool_decide (m = METHOD_USER_PASS) then
    if has_auth then mret m else mfail SAuthRequired
  else if bool_decide (m = METHOD_NO_ACCEPTABLE) then mfail SNoAcceptable
  else mfail (SUnknownMethod m).

Definition auth_request (user pass : bytes) : bytes :=
  [AUTH_VERSION; z2b (Z.of_nat (length user))] ++ user
    ++ [z2b (Z.of_nat (length pass))] ++ pass.

Definition authenticate (user pass : bytes) : SM () :=
  if bool_decide (255 < length user) then mfail SUserTooLong else
  if bool_decide (255 < length pass) then mfail SPassTooLong else
  _ ← swrite (auth_request user pass);
  resp ← sread 2;
  if bool_decide (at_ resp 1 ≠ AUTH_SUCCESS) then mfail (SAuthFailed (at_ resp 1)) else mret ().

(** The octets of an IPv6 address. *)
Definition v6_octets (groups : list Z) : bytes := concat (be_bytes 2 <$> groups).

Definition connect_request (target : ProxyTarget) : result socks_error bytes :=
  let req := [SOCKS5_VERSION; CMD_CONNECT; RSV] in
  match target with
  | TIp (V4 v4) port => Ok (req ++ [ATYP_IPV4] ++ octets v4 ++ be_bytes 2 port)
  | TIp (V6 v6) port => Ok (req ++ [ATYP_IPV6] ++ v6_octets v6 ++ be_bytes 2 port)
  | TDomain host port =>
      if bool_decide (255 < length host) then Err SHostTooLong
      else Ok (req ++ [ATYP_DOMAIN; z2b (Z.of_nat (length host))] ++ host ++ be_bytes 2 port)
  end.

Definition skip_addr (atyp : byte) : SM () :=
  if bool_decide (atyp = ATYP_IPV4) then _ ← sread 6; mret ()
  else if bool_decide (atyp = ATYP_IPV6) then _ ← sread 18; mret ()
  else if bool_decide (atyp = ATYP_DOMAIN) then
    len_buf ← sread 1;
    let total := Z.to_nat (b2z (at_ len_buf 0)) + 2 in
    _ ← sread total; mret ()
  else mfail (SUnknownAtyp atyp).

Definition send_connect_request (target : ProxyTarget) : SM () :=
  req ← lift_result (connect_request target);
  _ ← swrite req;
  hdr ← sread 4;
  if bool_decide (at_ hdr 0 ≠ SOCKS5_VERSION) then mfail (SReplyVersion (at_ hdr 0)) else
  if bool_decide (at_ hdr 1 ≠ REP_SUCCESS) then mfail (SConnectFailed (at_ hdr 1)) else
  skip_addr (at_ hdr 3).

(** Everything after the TCP connection. *)
Definition handshake (auth : option (bytes * bytes)) (target : ProxyTarget) : SM () :=
  method ← negotiate_method (bool_decide (is_Some auth));
  _ ← (if bool_decide (method = METHOD_USER_PASS) then
         match auth with
         | Some (user, pass) => authenticate user pass
         | None => mfail SMissingCredentials
         end
       else mret ());
  send_connect_request target.

(** [Socks5Connector::connect]; [dial] is [TcpStream::connect]. *)
Definition connect (dial : bytes → io sock) (server : bytes) (auth : option (bytes * bytes))
    (target : ProxyTarget) : result socks_error (ProxyStream sock) :=
  stream ← map_err SIo (dial server);
  match handshake auth target stream with
  | (Ok _, stream) => Ok (stream_new stream [])
  | (Err e, _) => Err e
  end.

Definition socks5_reply_message (rep : byte) : bytes :=
  match rep with
  | x01 => lit "general SOCKS server failure"
  | x02 => lit "connection not allowed by ruleset"
  | x03 => lit "network unreachable"
  | x04 => lit "host unreachable"
  | x05 => lit "connection refused"
  | x06 => lit "TTL expired"
  | x07 => lit "command not supported"
  | x08 => lit "address type not supported"
  | _ => lit "unknown error"
  end.

(** ** The server's reading of a request (RFC 1928, section 4) *)

Fixpoint group_pairs (bs : bytes) : list Z :=
  match bs with
  | a :: b :: bs => be_value [a; b] :: group_pairs bs
  | _ => []
  end.

Definition decode_request (req : bytes) : option ProxyTarget :=
  match req with
  | x05 :: x01 :: x00 :: x01 :: a :: b :: c :: d :: port =>
      if bool_decide (length port = 2) then Some (TIp (V4 (ip4 a b c d)) (be_value port)) else None
  | x05 :: x01 :: x00 :: x04 :: rest =>
      if bool_decide (length rest = 18)
      then Some (TIp (V6 (group_pairs (take 16 rest))) (be_value (drop 16 rest))) else None
  | x05 :: x01 :: x00 :: x03 :: len :: rest =>
      let n := Z.to_nat (b2z len) in
      if bool_decide (length rest = n + 2)
      then Some (TDomain (take n rest) (be_value (drop n rest))) else None
  | _ => None
  end.

Definition target_ok (t : ProxyTarget) : Prop :=
  match t with
  | TDomain host port => port_ok port
  | TIp (V4 _) port => port_ok port
  | TIp (V6 gs) port => port_ok port ∧ length gs = 8 ∧ Forall (λ g, 0 ≤ g < 65536)%Z gs
  end.

(** ** The exchange *)

(** BND.ADDR and BND.PORT as they follow an address type. *)
Inductive bound_addr : byte → bytes → Prop :=
| bound_v4 bs : length bs = 6 → bound_addr ATYP_IPV4 bs
| bound_v6 bs : length bs = 18 → bound_addr ATYP_IPV6 bs
| bound_domain len bs :
    length bs = Z.to_nat (b2z len) + 2 → bound_addr ATYP_DOMAIN (len :: bs).

(** The authentication sub-exchange: the method selected, what the client
    sends and what it reads. *)
Inductive auth_exchange (auth : option (bytes * bytes)) : byte → bytes → bytes → Prop :=
| auth_none : auth_exchange auth METHOD_NO_AUTH [] []
| auth_user_pass user pass v :
    auth = Some (user, pass) → length user ≤ 255 → length pass ≤ 255 →
    auth_exchange auth METHOD_USER_PASS (auth_request user pass) [v; AUTH_SUCCESS].

(** A complete successful exchange: bytes sent and bytes received. *)
Inductive transcript (auth : option (bytes * bytes)) (target : ProxyTarget) : bytes → bytes → Prop :=
| transcript_intro m auth_tx auth_rx req rsv atyp bnd :
    auth_exchange auth m auth_tx auth_rx →
    connect_request target = Ok req →
    bound_addr atyp bnd →
    transcript auth target
      (greeting (bool_decide (is_Some auth)) ++ auth_tx ++ req)
      ([SOCKS5_VERSION; m] ++ auth_rx ++ [SOCKS5_VERSION; REP_SUCCESS; rsv; atyp] ++ bnd).

(** What a step did to the socket. *)
Definition moved (s s' : sock) (sent received : bytes) : Prop :=
  tx s' = tx s ++ sent ∧ incoming s = received ++ incoming s'.

Lemma moved_trans s1 s2 s3 a b c d :
  moved s1 s2 a b → moved s2 s3 c d → moved s1 s3 (a ++ c) (b ++ d).
Proof.
  intros [Ht Hr] [Ht' Hr']. split; [by rewrite Ht', Ht, app_assoc|].
  by rewrite Hr, Hr', app_assoc.
Qed.

Lemma moved_refl s : moved s s [] [].
Proof. split; [by rewrite app_nil_r|done]. Qed.

Lemma sread_ok n s bs s' : sread n s = (Ok bs, s') → moved s s' [] bs ∧ length bs = n.
Proof.
  intros (Hi & Hl & Ht & _)%with_context_ok%read_exact_ok.
  split; [|done]. split; [by rewrite app_nil_r|done].
Qed.

Lemma swrite_ok bs s s' : swrite bs s = (Ok (), s') → moved s s' bs [].
Proof.
  intros (Ht & Hr & _)%with_context_ok%write_all_ok. split; [done|].
  unfold incoming. by rewrite Hr.
Qed.

Lemma length2_inv (bs : bytes) : length bs = 2 → bs = [at_ bs 0; at_ bs 1].
Proof. destruct bs as [|a [|b [|c bs]]]; done. Qed.

Lemma length4_inv (bs : bytes) : length bs = 4 → bs = [at_ bs 0; at_ bs 1; at_ bs 2; at_ bs 3].
Proof. destruct bs as [|a [|b [|c [|d [|e bs]]]]]; done. Qed.

Ltac minv H :=
  let a := fresh "a" in let s := fresh "s" in let H1 := fresh "Hstep" in
  apply M_bind_ok in H as (a & s & H1 & H).

Lemma negotiate_ok has_auth s m s' :
  negotiate_method has_auth s = (Ok m, s') →
  moved s s' (greeting has_auth) [SOCKS5_VERSION; m] ∧
  (m = METHOD_NO_AUTH ∨ m = METHOD_USER_PASS ∧ has_auth = true).
Proof.
  unfold negotiate_method. intros H. minv H. minv H. destruct a.
  apply swrite_ok in Hstep. apply sread_ok in Hstep0 as [Hr Hl].
  case_bool_decide as Hv; [done|].
  pose proof (length2_inv _ Hl) as Hbs. rewrite Hv in Hbs.
  pose proof (moved_trans _ _ _ _ _ _ _ Hstep Hr) as Hmv.
  rewrite app_nil_r, Hbs in Hmv.
  case_bool_decide as H0; [injection H as <- <-; auto|].
  case_bool_decide as H2; [destruct has_auth; [injection H as <- <-; auto|done]|].
  case_bool_decide; done.
Qed.

Lemma authenticate_ok user pass s s' :
  authenticate user pass s = (Ok (), s') →
  ∃ v, moved s s' (auth_request user pass) [v; AUTH_SUCCESS] ∧ length user ≤ 255 ∧ length pass ≤ 255.
Proof.
  unfold authenticate. intros H. case_bool_decide as Hu; [done|]. case_bool_decide as Hp; [done|].
  minv H. minv H. destruct a. apply swrite_ok in Hstep. apply sread_ok in Hstep0 as [Hr Hl].
  case_bool_decide as Hv; [done|]. injection H as <-.
  exists (at_ a0 0). split_and!; [|lia..].
  rewrite <-Hv, <-(length2_inv _ Hl).
  pose proof (moved_trans _ _ _ _ _ _ _ Hstep Hr) as Hm. by rewrite app_nil_r in Hm.
Qed.

Lemma skip_addr_ok atyp s s' :
  skip_addr atyp s = (Ok (), s') → ∃ bnd, moved s s' [] bnd ∧ bound_addr atyp bnd.
Proof.
  unfold skip_addr. intros H.
  case_bool_decide as H4; [subst|case_bool_decide as H6; [subst|case_bool_decide as Hd; [subst|done]]].
  - minv H. injection H as <-. apply sread_ok in Hstep as [Hr Hl]. eauto using bound_addr.
  - minv H. injection H as <-. apply sread_ok in Hstep as [Hr Hl]. eauto using bound_addr.
  - minv H. minv H. injection H as <-. apply sread_ok in Hstep as [Hr Hl].
    apply sread_ok in Hstep0 as [Hr' Hl']. destruct a as [|len [|? ?]]; try done.
    exists (len :: a0). split; [|by constructor].
    apply (moved_trans _ _ _ _ _ _ _ Hr Hr').
Qed.

Lemma send_connect_ok target s s' :
  send_connect_request target s = (Ok (), s') →
  ∃ req rsv atyp bnd, connect_request target = Ok req ∧ bound_addr atyp bnd ∧
    moved s s' req ([SOCKS5_VERSION; REP_SUCCESS; rsv; atyp] ++ bnd).
Proof.
  unfold send_connect_request. intros H. minv H. unfold lift_result in Hstep.
  injection Hstep as Hreq <-. minv H. destruct a0. apply swrite_ok in Hstep.
  minv H. apply sread_ok in Hstep0 as [Hr Hl].
  case_bool_decide as Hv; [done|].
  case_bool_decide as Hrep; [done|].
  apply skip_addr_ok in H as (bnd & Hm & Hb).
  exists a, (at_ a0 2), (at_ a0 3), bnd. split_and!; [done..|].
  rewrite <-Hv at 1. rewrite <-Hrep. rewrite <-(length4_inv _ Hl).
  pose proof (moved_trans _ _ _ _ _ _ _ Hstep (moved_trans _ _ _ _ _ _ _ Hr Hm)) as Hmv.
  by rewrite app_nil_r in Hmv.
Qed.

Lemma handshake_ok auth target s s' :
  handshake auth target s = (Ok (), s') →
  ∃ sent received, transcript auth target sent received ∧ moved s s' sent received.
Proof.
  unfold handshake. intros H. minv H. apply negotiate_ok in Hstep as [Hm1 Hmeth].
  minv H. destruct a0. apply send_connect_ok in H as (req & rsv & atyp & bnd & Hreq & Hb & Hm3).
  assert (Ha : ∃ atx arx, auth_exchange auth a atx arx ∧ moved s0 s1 atx arx).
  { destruct Hmeth as [->|[-> Hauth]].
    - rewrite bool_decide_false in Hstep by done. injection Hstep as <-.
      eauto using auth_exchange, moved_refl.
    - rewrite bool_decide_true in Hstep by done. destruct auth as [[u p]|]; [|done].
      apply authenticate_ok in Hstep as (v & Hm & ? & ?). eauto using auth_exchange. }
  destruct Ha as (atx & arx & Hex & Hm2).
  eexists _, _. split; [by econstructor|].
  exact (moved_trans _ _ _ _ _ _ _ Hm1 (moved_trans _ _ _ _ _ _ _ Hm2 Hm3)).
Qed.

Lemma sread_enough n s bs rest :
  incoming s = bs ++ rest → length bs = n →
  ∃ s', sread n s = (Ok bs, s') ∧ incoming s' = rest ∧ tx s' = tx s ∧ tx_limit s' = tx_limit s.
Proof.
  intros Hi <-. destruct (read_exact_enough (length bs) s) as (s' & Hr & Hi' & Ht & _ & Hl).
  { rewrite Hi, length_app. lia. }
  exists s'. rewrite Hi, take_app_length in Hr. rewrite Hi, drop_app_length in Hi'.
  split_and!; [by apply with_context_ok|done..].
Qed.

Lemma swrite_free bs s :
  tx_limit s = None →
  ∃ s', swrite bs s = (Ok (), s') ∧ incoming s' = incoming s ∧ tx s' = tx s ++ bs ∧ tx_limit s' = None.
Proof.
  intros Hl. eexists. unfold swrite, with_context, write_all. rewrite Hl. by split_and!.
Qed.

(** [m] can run from [s] with [rest] left to read, having sent [sent]. *)
Definition runs {A} (m : SM A) (s : sock) (a : A) (sent received : bytes) : Prop :=
  ∀ rest, incoming s = received ++ rest → tx_limit s = None →
  ∃ s', m s = (Ok a, s') ∧ incoming s' = rest ∧ tx s' = tx s ++ sent ∧ tx_limit s' = None.

Lemma runs_bind {A B} (m : SM A) (f : A → SM B) s a b sent1 recv1 sent2 recv2 sent recv :
  runs m s a sent1 recv1 → (∀ s', runs (f a) s' b sent2 recv2) →
  sent = sent1 ++ sent2 → recv = recv1 ++ recv2 →
  runs (x ← m; f x) s b sent recv.
Proof.
  intros Hm Hf -> -> rest Hi Hl. destruct (Hm (recv2 ++ rest)) as (s1 & Hr & Hi1 & Ht1 & Hl1);
    [by rewrite Hi, app_assoc|done|].
  destruct (Hf s1 rest Hi1 Hl1) as (s2 & Hr2 & Hi2 & Ht2 & Hl2).
  exists s2. split_and!; [|done|by rewrite Ht2, Ht1, app_assoc|done].
  unfold mbind, M_bind. by rewrite Hr.
Qed.

Lemma runs_ret {A} (a : A) s : runs (mret a) s a [] [].
Proof. intros rest Hi Hl. exists s. by rewrite app_nil_r. Qed.

Lemma runs_lift {A} (a : A) s : runs (lift_result (Ok a)) s a [] [].
Proof. intros rest Hi Hl. exists s. by rewrite app_nil_r. Qed.

Lemma runs_read s bs : runs (sread (length bs)) s bs [] bs.
Proof.
  intros rest Hi Hl. destruct (sread_enough (length bs) s bs rest Hi eq_refl) as (s' & ? & ? & Ht & Hl').
  exists s'. rewrite app_nil_r. split_and!; congruence.
Qed.

Lemma runs_write s bs : runs (swrite bs) s () bs [].
Proof.
  intros rest Hi Hl. destruct (swrite_free bs s Hl) as (s' & ? & Hi' & ? & ?).
  exists s'. split_and!; [done|by rewrite Hi', Hi|done..].
Qed.

(** One step of a scripted run, closing the bookkeeping of what was moved. *)
Ltac run_step tac :=
  eapply runs_bind;
    [tac | intros ? | first [reflexivity | by rewrite app_nil_r] | first [reflexivity | by rewrite app_nil_r]].

Lemma runs_negotiate auth m atx arx s :
  auth_exchange auth m atx arx →
  runs (negotiate_method (bool_decide (is_Some auth))) s m
    (greeting (bool_decide (is_Some auth))) [SOCKS5_VERSION; m].
Proof.
  intros Hex. unfold negotiate_method.
  run_step ltac:(apply runs_write). run_step ltac:(apply (runs_read _ [SOCKS5_VERSION; m])).
  destruct Hex as [|u p v -> ? ?]; simpl; apply runs_ret.
Qed.

Lemma runs_discard s bs : runs (_ ← sread (length bs); mret ()) s () [] bs.
Proof. run_step ltac:(apply runs_read). apply runs_ret. Qed.

Lemma runs_skip atyp bnd s : bound_addr atyp bnd → runs (skip_addr atyp) s () [] bnd.
Proof.
  intros [bs Hl|bs Hl|len bs Hl]; unfold skip_addr; simpl.
  - rewrite <-Hl. apply runs_discard.
  - rewrite <-Hl. apply runs_discard.
  - run_step ltac:(apply (runs_read s [len])). change (at_ [len] 0) with len.
    cbv zeta. rewrite <-Hl. apply runs_discard.
Qed.

Lemma runs_send target req rsv atyp bnd s :
  connect_request target = Ok req → bound_addr atyp bnd →
  runs (send_connect_request target) s () req ([SOCKS5_VERSION; REP_SUCCESS; rsv; atyp] ++ bnd).
Proof.
  intros Hreq Hb. unfold send_connect_request. rewrite Hreq.
  run_step ltac:(apply runs_lift). run_step ltac:(apply runs_write).
  run_step ltac:(apply (runs_read _ [SOCKS5_VERSION; REP_SUCCESS; rsv; atyp])).
  simpl. by apply runs_skip.
Qed.

Lemma runs_authenticate u p v s :
  length u ≤ 255 → length p ≤ 255 →
  runs (authenticate u p) s () (auth_request u p) [v; AUTH_SUCCESS].
Proof.
  intros Hu Hp. unfold authenticate. rewrite !bool_decide_false by lia.
  run_step ltac:(apply runs_write). run_step ltac:(apply (runs_read _ [v; AUTH_SUCCESS])).
  simpl. apply runs_ret.
Qed.

Lemma runs_handshake auth target sent received s :
  transcript auth target sent received → runs (handshake auth target) s () sent received.
Proof.
  intros [m atx arx req rsv atyp bnd Hex Hreq Hb]. unfold handshake.
  run_step ltac:(by eapply runs_negotiate).
  apply (runs_bind _ _ _ () _ atx arx req
           ([SOCKS5_VERSION; REP_SUCCESS; rsv; atyp] ++ bnd)); [..|done|done].
  - destruct Hex as [|u p v -> Hu Hp]; simpl; [apply runs_ret|by apply runs_authenticate].
  - intros s2. by apply runs_send.
Qed.

(** ** What leaves the client *)

(** Whatever the outcome, [m] has sent a prefix of [bs], all of it on success. *)
Definition emits {A} (m : SM A) (bs : bytes) : Prop :=
  ∀ s r s', m s = (r, s') →
  ∃ sent, tx s' = tx s ++ sent ∧ sent `prefix_of` bs ∧ (∀ a, r = Ok a → sent = bs).

Lemma emits_bind {A B} (m : SM A) (f : A → SM B) a b :
  emits m a → (∀ x, emits (f x) b) → emits (x ← m; f x) (a ++ b).
Proof.
  intros Hm Hf s r s' H. unfold mbind, M_bind in H.
  destruct (m s) as [[x|e] s1] eqn:E; destruct (Hm _ _ _ E) as (sent & Ht & Hp & Hok).
  - rewrite (Hok x eq_refl) in Ht. destruct (Hf x _ _ _ H) as (sent2 & Ht2 & Hp2 & Hok2).
    exists (a ++ sent2). split_and!.
    + by rewrite Ht2, Ht, app_assoc.
    + by apply prefix_app.
    + intros y Hy. by rewrite (Hok2 y Hy).
  - injection H as <- <-. exists sent. split_and!; [done|by apply prefix_app_r|done].
Qed.

Lemma emits_nil_bind {A B} (m : SM A) (f : A → SM B) b :
  emits m [] → (∀ x, emits (f x) b) → emits (x ← m; f x) b.
Proof. apply (emits_bind m f []). Qed.

Lemma emits_ret {A} (a : A) : emits (mret a) [].
Proof. intros s r s' [= <- <-]. exists []. by rewrite app_nil_r. Qed.

Lemma emits_fail {A} e bs : emits (mfail e : SM A) bs.
Proof. intros s r s' [= <- <-]. exists []. rewrite app_nil_r. split_and!; [done|apply prefix_nil|done]. Qed.

Lemma emits_read n : emits (sread n) [].
Proof.
  intros s r s'. unfold sread, with_context. destruct (read_exact n s) as [q s1] eqn:E.
  intros [= <- <-]. exists []. rewrite app_nil_r. split_and!; [|done..].
  unfold read_exact in E. destruct (read_exact_chunks (rx s) n) as [[? ?]|]; by injection E as <- <-.
Qed.

Lemma emits_write bs : emits (swrite bs) bs.
Proof.
  intros s r s'. unfold swrite, with_context. destruct (write_all bs s) as [q s1] eqn:E.
  intros [= <- <-]. destruct q as [[]|e].
  - apply write_all_ok in E as (Ht & _). by exists bs.
  - apply write_all_prefix in E as (k & Ht & _). exists (take k bs).
    split_and!; [done|apply prefix_take|done].
Qed.

Create HintDb emits.
#[local] Hint Resolve emits_ret emits_fail emits_read emits_write emits_nil_bind : emits.

Lemma emits_negotiate has_auth : emits (negotiate_method has_auth) (greeting has_auth).
Proof.
  unfold negotiate_method. rewrite <-(app_nil_r (greeting has_auth)) at 2.
  apply emits_bind; [auto with emits|]. intros _. apply emits_nil_bind; [auto with emits|].
  intros resp. repeat case_bool_decide; try destruct has_auth; auto with emits.
Qed.

Lemma emits_skip atyp : emits (skip_addr atyp) [].
Proof. unfold skip_addr. repeat case_bool_decide; auto 6 with emits. Qed.

(** The request bytes, none when the host name is too long. *)
Definition request_bytes (target : ProxyTarget) : bytes :=
  match connect_request target with Ok req => req | Err _ => [] end.

Lemma emits_send target : emits (send_connect_request target) (request_bytes target).
Proof.
  unfold send_connect_request, request_bytes. destruct (connect_request target) as [req|e].
  - enough (emits (_ ← swrite req; hdr ← sread 4;
        if bool_decide (at_ hdr 0 ≠ SOCKS5_VERSION) then mfail (SReplyVersion (at_ hdr 0)) else
        if bool_decide (at_ hdr 1 ≠ REP_SUCCESS) then mfail (SConnectFailed (at_ hdr 1)) else
        skip_addr (at_ hdr 3)) req) as H by exact H.
    rewrite <-(app_nil_r req) at 2. apply emits_bind; [auto with emits|]. intros _.
    apply emits_nil_bind; [auto with emits|]. intros hdr.
    repeat case_bool_decide; auto using emits_skip with emits.
  - intros s r s' [= <- <-]. exists []. by rewrite app_nil_r.
Qed.

(** ** Theorems *)

(** A successful SOCKS5 handshake exchanged exactly the messages of the protocol:
    greeting, the method chosen, user and password only under method 2, the request and a
    success reply; every later byte is left unread. *)
Lemma handshake_transcript (auth : option (bytes * bytes)) (target : ProxyTarget) (s s' : sock) :
  handshake auth target s = (Ok (), s') →
  ∃ sent received, transcript auth target sent received ∧
    tx s' = tx s ++ sent ∧ incoming s = received ++ incoming s'.
Proof. apply handshake_ok. Qed.

(** C20: With a server that answers by the protocol, in whatever chunks, the handshake
    succeeds, sends exactly the expected messages and leaves the bytes of the tunnel. *)
Theorem handshake_completes (auth : option (bytes * bytes)) (target : ProxyTarget)
    (sent received rest : bytes) (s : sock) :
  transcript auth target sent received →
  incoming s = received ++ rest → tx_limit s = None →
  ∃ s', handshake auth target s = (Ok (), s') ∧ tx s' = tx s ++ sent ∧ incoming s' = rest.
Proof.
  intros Ht Hi Hl. destruct (runs_handshake _ _ _ _ s Ht rest Hi Hl) as (s' & ? & ? & ? & ?). eauto.
Qed.

(** C21: Unless the server asks for user and password, what the client sends is a prefix of
    the greeting and the request: the credentials never leave it. *)
Theorem credentials_only_on_request (auth : option (bytes * bytes)) (target : ProxyTarget)
    (s s' : sock) (r : result socks_error ()) :
  handshake auth target s = (r, s') →
  (∀ rest, incoming s ≠ SOCKS5_VERSION :: METHOD_USER_PASS :: rest) →
  ∃ sent, tx s' = tx s ++ sent ∧
    sent `prefix_of` greeting (bool_decide (is_Some auth)) ++ request_bytes target.
Proof.
  intros H Hno. unfold handshake in H. unfold mbind at 1, M_bind at 1 in H.
  destruct (negotiate_method (bool_decide (is_Some auth)) s) as [[m|e] s1] eqn:En;
    destruct (emits_negotiate _ _ _ _ En) as (sent & Ht & Hp & Hok).
  - apply negotiate_ok in En as [[_ Hi] [->|[-> _]]]; [|by destruct (Hno (incoming s1))].
    rewrite (Hok _ eq_refl) in Ht. rewrite bool_decide_false in H by done.
    destruct (emits_send target s1 r s' H) as (sent2 & Ht2 & Hp2 & _).
    exists (greeting (bool_decide (is_Some auth)) ++ sent2). split; [by rewrite Ht2, Ht, app_assoc|].
    by apply prefix_app.
  - injection H as <- <-. exists sent. split; [done|]. by apply prefix_app_r.
Qed.

Lemma group_pairs_octets gs :
  Forall (λ g, 0 ≤ g < 65536)%Z gs → group_pairs (v6_octets gs) = gs.
Proof.
  induction 1 as [|g gs Hg HF IH]; [done|]. unfold v6_octets in *. cbn [fmap list_fmap concat].
  change (be_bytes 2 g) with [z2b (g / 256); z2b g]. cbn [app group_pairs]. rewrite IH. f_equal.
  change [z2b (g / 256); z2b g] with (be_bytes 2 g). apply be_value_bytes_small. simpl. lia.
Qed.

Lemma length_v6_octets gs : length (v6_octets gs) = 2 * length gs.
Proof.
  unfold v6_octets. induction gs as [|g gs IH]; [done|].
  cbn [fmap list_fmap concat length]. rewrite length_app, length_be_bytes, IH. lia.
Qed.

(** A SOCKS5 connect request decodes, by the address format of the protocol, to the
    target it was built for. *)
Lemma request_roundtrip (t : ProxyTarget) (req : bytes) :
  target_ok t → connect_request t = Ok req → decode_request req = Some t.
Proof.
  assert (Hport : ∀ p, port_ok p → be_value (be_bytes 2 p) = p).
  { intros p Hp. apply be_value_bytes_small. unfold port_ok in Hp. simpl. lia. }
  destruct t as [host port|[[a b c d]|gs] port]; cbn [connect_request target_ok].
  - case_bool_decide as Hlen; [done|]. intros Hp [= <-]. simpl.
    rewrite b2z_z2b_small, Nat2Z.id by lia.
    rewrite bool_decide_true by (rewrite length_app, length_be_bytes; lia).
    by rewrite take_app_length, drop_app_length, Hport.
  - intros Hp [= <-]. simpl. by rewrite <-(Hport port Hp) at 2.
  - intros (Hp & Hl & HF) [= <-]. cbn [app decode_request].
    rewrite bool_decide_true by (rewrite length_app, length_v6_octets, length_be_bytes; lia).
    rewrite take_app_length', drop_app_length' by (rewrite length_v6_octets; lia).
    by rewrite group_pairs_octets, Hport.
Qed.

(** A server that asks for the password, then binds 0.0.0.0:0. *)
Definition example_script : bytes :=
  [x05; x02] ++ [x01; x00] ++ [x05; x00; x00; x01] ++ replicate 6 x00.

Definition server_example : sock := mkSock [example_script] None [] None.

Lemma handshake_transcript_witness :
  let target := TDomain (lit "h") 80 in
  ∃ s', handshake (Some (lit "u", lit "p")) target server_example = (Ok (), s') ∧
  ∃ sent received, transcript (Some (lit "u", lit "p")) target sent received ∧ tx s' = sent.
Proof.
  intros target.
  destruct (handshake (Some (lit "u", lit "p")) target server_example) as [[[]|] s'] eqn:E;
    [|vm_compute in E; discriminate].
  exists s'. split; [reflexivity|].
  destruct (handshake_transcript _ _ _ _ E) as (sent & received & Ht & Htx & _).
  exists sent, received. split; [exact Ht|exact Htx].
Defined.

Lemma handshake_completes_witness :
  let target := TDomain (lit "h") 80 in
  ∃ sent s', transcript None target sent ([x05; x00] ++ [x05; x00; x00; x01] ++ replicate 6 x00) ∧
    handshake None target (mkSock [[x05]; [x00; x05; x00]; [x00; x01] ++ replicate 6 x00; lit "x"] None [] None)
      = (Ok (), s') ∧ tx s' = sent ∧ incoming s' = lit "x".
Proof.
  intros target.
  assert (Ht : transcript None target
    (greeting false ++ [] ++ [x05; x01; x00; x03; x01; x68; x00; x50])
    ([x05; x00] ++ [x05; x00; x00; x01] ++ replicate 6 x00)).
  { apply (transcript_intro None target METHOD_NO_AUTH [] [] _ x00 ATYP_IPV4 (replicate 6 x00)).
    - constructor.
    - reflexivity.
    - by constructor. }
  destruct (handshake_completes None target _ _ (lit "x")
    (mkSock [[x05]; [x00; x05; x00]; [x00; x01] ++ replicate 6 x00; lit "x"] None [] None) Ht)
    as (s' & Hr & Htx & Hi); [reflexivity..|].
  eexists _, s'. split; [exact Ht|]. split; [exact Hr|]. split; [exact Htx|exact Hi].
Defined.

Lemma credentials_only_on_request_witness :
  let s := mkSock [[x05; x00]] None [] None in
  let '(r, s') := handshake (Some (lit "u", lit "p")) (TDomain (lit "h") 80) s in
  tx s' `prefix_of` greeting true ++ request_bytes (TDomain (lit "h") 80).
Proof.
  intros s. destruct (handshake (Some (lit "u", lit "p")) (TDomain (lit "h") 80) s) as [r s'] eqn:E.
  destruct (credentials_only_on_request _ _ _ _ _ E) as (sent & Ht & Hp).
  - intros rest. discriminate.
  - rewrite Ht. exact Hp.
Defined.

Lemma request_roundtrip_witness :
  target_ok (TDomain (lit "h") 80) ∧
  decode_request [x05; x01; x00; x03; x01; x68; x00; x50] = Some (TDomain (lit "h") 80).
Proof.
  assert (Ht : target_ok (TDomain (lit "h") 80)) by (simpl; unfold port_ok; lia).
  split; [exact Ht|]. apply (request_roundtrip _ _ Ht). reflexivity.
Defined.
