(* ===== verification/Http.v ===== *)
(** * The HTTP CONNECT client: src/proxy/http.rs

    [bufreader] is tokio's [BufReader] over a [sock]: the bytes read ahead and
    not yet consumed. [do_connect] is the handshake; [spec_response] is what
    its loop computes, on the whole byte string at once; [complete_response] and
    [answered] say what a complete response is and what it answers. [http_error] has one constructor per
    [bail!] or context. *)
From S2P Require Import Prelude RustStd Net Stream Proxy.

(** ** Base64 *)

Definition B64_ALPHABET : bytes :=
  lit "ABCDEFGHIJKLMNOPQRSTUVWXYZabcdefghijklmnopqrstuvwxyz0123456789+/".

Definition b64_char (i : Z) : byte := nth (Z.to_nat i) B64_ALPHABET x00.

(** One chunk of the loop: its first byte, and the second and third if any. *)
Definition b64_chunk (b0 : byte) (b1 b2 : option byte) : bytes :=
  let z0 := b2z b0 in
  let z1 := match b1 with Some b => b2z b | None => 0%Z end in
  let z2 := match b2 with Some b => b2z b | None => 0%Z end in
  let combined := Z.lor (Z.lor (Z.shiftl z0 16) (Z.shiftl z1 8)) z2 in
  [b64_char (Z.land (Z.shiftr combined 18) 0x3F);
   b64_char (Z.land (Z.shiftr combined 12) 0x3F);
   match b1 with Some _ => b64_char (Z.land (Z.shiftr combined 6) 0x3F) | None => x3d end;
   match b2 with Some _ => b64_char (Z.land combined 0x3F) | None => x3d end].

(** [input.chunks(3)] *)
Fixpoint base64_encode (input : bytes) : bytes :=
  match input with
  | b0 :: b1 :: b2 :: rest => b64_chunk b0 (Some b1) (Some b2) ++ base64_encode rest
  | [b0; b1] => b64_chunk b0 (Some b1) None
  | [b0] => b64_chunk b0 None None
  | [] => []
  end.

(** ** The handshake *)

Inductive http_error :=
| HIo (e : io_error)
| HNotHttp
| HMalformed
| HInvalidCode
| HStatus (code : Z)
| HOutOfFuel.

Definition crlf : bytes := [x0d; x0a].

Definition connect_request (target : ProxyTarget) (auth : option (bytes * bytes)) : bytes :=
  let t := fmt_target target in
  lit "CONNECT " ++ t ++ lit " HTTP/1.1" ++ crlf ++ lit "Host: " ++ t ++ crlf
    ++ match auth with
       | Some (user, pass) =>
           lit "Proxy-Authorization: Basic " ++ base64_encode (user ++ lit ":" ++ pass) ++ crlf
       | None => []
       end
    ++ crlf.

Record bufreader := mkBuf { bbuf : bytes; bsock : sock }.

(** What is still to be read: the buffer, then the socket. *)
Definition pending (b : bufreader) : bytes := bbuf b ++ incoming (bsock b).

Definition BUF_CAPACITY : nat := N.to_nat 8192.

(** [fill_buf]: reads only when the buffer is empty. *)
Definition fill_buf : M bufreader io_error bytes :=
  λ b, match bbuf b with
       | [] => match sock_read (bsock b) BUF_CAPACITY with
               | (Ok bs, s) => (Ok bs, mkBuf bs s)
               | (Err e, s) => (Err e, mkBuf [] s)
               end
       | bs => (Ok bs, b)
       end.

Definition consume (n : nat) : M bufreader io_error () :=
  λ b, (Ok (), mkBuf (drop n (bbuf b)) (bsock b)).

(** [read_until(b'\n')]: chunk by chunk; [None] is a loop cut short. *)
Fixpoint read_until (fuel : nat) (acc : bytes) : M bufreader io_error (option bytes) :=
  match fuel with
  | O => mret None
  | S fuel =>
      available ← fill_buf;
      match split_once x0a available with
      | Some (l, _) => _ ← consume (S (length l)); mret (Some (acc ++ l ++ [x0a]))
      | None => _ ← consume (length available);
                if bool_decide (available = []) then mret (Some acc)
                else read_until fuel (acc ++ available)
      end
  end.

(** [read_line]: the line must be UTF-8. *)
Definition read_line : M bufreader http_error bytes :=
  λ b, match read_until (S (S (length (pending b)))) [] b with
       | (Ok (Some line), b') =>
           match from_utf8 line with
           | Some l => (Ok l, b')
           | None => (Err (HIo (Simple InvalidData)), b')
           end
       | (Ok None, b') => (Err HOutOfFuel, b')
       | (Err e, b') => (Err (HIo e), b')
       end.

Definition is_eol (b : byte) : bool := bool_decide (b = x0d) || bool_decide (b = x0a).

Definition trim_eol (s : bytes) : bytes := trim_end_matches is_eol s.

Definition parse_status_code (status_line : bytes) : result http_error Z :=
  let parts := splitn 3 x20 status_line in
  let version := default [] (parts !! 0) in
  if negb (starts_with (lit "HTTP/") version) then Err HNotHttp else
  code_str ← ok_or HMalformed (parts !! 1);
  ok_or HInvalidCode (parse_uint U16_MAX code_str).

(** Headers are skipped up to a line that is empty once trimmed. *)
Fixpoint drain_headers (fuel : nat) : M bufreader http_error () :=
  match fuel with
  | O => mfail HOutOfFuel
  | S fuel => line ← read_line;
              if bool_decide (trim_eol line = []) then mret () else drain_headers fuel
  end.

Definition write_request (req : bytes) : M bufreader http_error () :=
  λ b, match write_all req (bsock b) with
       | (Ok _, s) => (Ok (), mkBuf (bbuf b) s)
       | (Err e, s) => (Err (HIo e), mkBuf (bbuf b) s)
       end.

Definition read_response : M bufreader http_error () :=
  status_line ← read_line;
  code ← lift_result (parse_status_code (trim_eol status_line));
  if negb (code =? 200)%Z then mfail (HStatus code) else
  λ b, drain_headers (S (length (pending b))) b.

Definition do_connect (stream : sock) (target : ProxyTarget) (auth : option (bytes * bytes))
    : result http_error (ProxyStream sock) :=
  match (_ ← write_request (connect_request target auth); read_response) (mkBuf [] stream) with
  | (Ok _, b) => Ok (stream_new (bsock b) (bbuf b))
  | (Err e, _) => Err e
  end.

(** [HttpConnector::connect]; [dial] is [TcpStream::connect]. *)
Definition connect (dial : bytes → io sock) (server : bytes) (auth : option (bytes * bytes))
    (target : ProxyTarget) : result http_error (ProxyStream sock) :=
  stream ← map_err HIo (dial server);
  do_connect stream target auth.

(** ** The loop without the buffer

    What [read_response] computes on the whole input at once: as for
    [read_line], the end of the stream also ends a line, and so the headers. *)

(** The next line of [inp]; [fin] is what the stream ends with. *)
Definition take_line (fin : option io_error) (inp : bytes) : result http_error (bytes * bytes) :=
  match split_once x0a inp with
  | Some (l, r) => Ok (l ++ [x0a], r)
  | None => match fin with Some e => Err (HIo e) | None => Ok (inp, []) end
  end.

Definition spec_line (fin : option io_error) (inp : bytes) : result http_error (bytes * bytes) :=
  '(line, rest) ← take_line fin inp;
  match from_utf8 line with
  | Some l => Ok (l, rest)
  | None => Err (HIo (Simple InvalidData))
  end.

Fixpoint spec_headers (fuel : nat) (fin : option io_error) (inp : bytes) : result http_error bytes :=
  match fuel with
  | O => Err HOutOfFuel
  | S fuel => '(line, rest) ← spec_line fin inp;
              if bool_decide (trim_eol line = []) then Ok rest else spec_headers fuel fin rest
  end.

(** What is left after a response the loop accepts. *)
Definition spec_response (fin : option io_error) (inp : bytes) : result http_error bytes :=
  '(line, rest) ← spec_line fin inp;
  code ← parse_status_code (trim_eol line);
  if negb (code =? 200)%Z then Err (HStatus code) else spec_headers (S (length rest)) fin rest.

(** ** The buffered reader computes the same *)

(** [b'] is [b] with [rest] left to read. *)
Definition left_with (b b' : bufreader) (rest : bytes) : Prop :=
  pending b' = rest ∧ rx_end (bsock b') = rx_end (bsock b) ∧ tx (bsock b') = tx (bsock b).

Lemma left_with_trans b1 b2 b3 r2 r3 : left_with b1 b2 r2 → left_with b2 b3 r3 → left_with b1 b3 r3.
Proof. unfold left_with. intros (?&?&?) (?&?&?). split_and!; congruence. Qed.

Lemma sock_read_cases s n :
  0 < n →
  (∃ bs s', sock_read s n = (Ok bs, s') ∧ bs ≠ [] ∧ incoming s = bs ++ incoming s' ∧
            rx_end s' = rx_end s ∧ tx s' = tx s) ∨
  (sock_read s n = (at_end s, s) ∧ incoming s = []).
Proof.
  intros Hn. unfold sock_read, incoming. destruct (next_chunk (rx s) n) as [[bs r]|] eqn:E.
  - left. exists bs, (set_rx s r). pose proof (next_chunk_nonempty _ _ _ _ E Hn).
    apply next_chunk_content in E as [? _]. by split_and!.
  - right. split; [done|]. by eapply next_chunk_None.
Qed.

Lemma fill_buf_cases b :
  (∃ av b', fill_buf b = (Ok av, b') ∧ av ≠ [] ∧ bbuf b' = av ∧ left_with b b' (pending b)) ∨
  (pending b = [] ∧ ∃ b', left_with b b' [] ∧ bbuf b' = [] ∧
     fill_buf b = (match rx_end (bsock b) with Some e => Err e | None => Ok [] end, b')).
Proof.
  destruct b as [[|x buf] s]; unfold fill_buf, pending; simpl.
  - assert (0 < BUF_CAPACITY) as Hc by (unfold BUF_CAPACITY; lia).
    destruct (sock_read_cases s BUF_CAPACITY Hc) as [(bs & s' & -> & Hne & Hi & He & Ht)|[-> Hi]].
    + left. exists bs, (mkBuf bs s'). by split_and!.
    + right. split; [done|]. unfold at_end. exists (mkBuf [] s).
      destruct (rx_end s) eqn:Ee; split_and!; try done.
  - left. eexists _, _. by split_and!.
Qed.

Lemma split_once_app_l c a b l r :
  split_once c a = Some (l, r) → split_once c (a ++ b) = Some (l, r ++ b).
Proof.
  intros [-> Hl]%split_once_spec. apply split_once_spec. by rewrite <-app_assoc.
Qed.

Lemma split_once_app_r c a b :
  split_once c a = None →
  split_once c (a ++ b) = ('(l, r) ← split_once c b; Some (a ++ l, r)).
Proof.
  intros Ha%split_once_None. destruct (split_once c b) as [[l r]|] eqn:E; simpl.
  - apply split_once_spec in E as [-> Hl]. apply split_once_spec.
    split; [by rewrite <-app_assoc|]. rewrite not_elem_of_app. done.
  - apply split_once_None. rewrite not_elem_of_app. by apply split_once_None in E.
Qed.

Lemma take_line_app_r fin a b :
  split_once x0a a = None →
  take_line fin (a ++ b) = ('(l, r) ← take_line fin b; Ok (a ++ l, r)).
Proof.
  intros Ha. unfold take_line. rewrite split_once_app_r by done.
  destruct (split_once x0a b) as [[l r]|]; simpl; [by rewrite app_assoc|]. by destruct fin.
Qed.

Lemma read_until_spec fuel : ∀ acc b,
  S (length (pending b)) < fuel →
  match take_line (rx_end (bsock b)) (pending b) with
  | Ok (line, rest) => ∃ b', read_until fuel acc b = (Ok (Some (acc ++ line)), b') ∧ left_with b b' rest
  | Err e => ∃ b' e', e = HIo e' ∧ read_until fuel acc b = (Err e', b')
  end.
Proof.
  induction fuel as [|fuel IH]; intros acc b Hf; [lia|]. cbn [read_until].
  rewrite M_bind_run.
  destruct (fill_buf_cases b) as [(av & b1 & -> & Hne & Hbuf & Hleft)|(Hp & b1 & Hleft & Hbuf & ->)].
  - pose proof Hleft as (Hp & He & Ht). unfold pending in Hp at 1. rewrite Hbuf in Hp.
    destruct (split_once x0a av) as [[l r]|] eqn:Es.
    + unfold take_line. rewrite <-Hp, (split_once_app_l _ _ _ _ _ Es).
      eexists. split; [done|]. split_and!; [|done..]. unfold pending. simpl. rewrite Hbuf.
      apply split_once_spec in Es as [-> _].
      by rewrite drop_middle.
    + rewrite <-Hp, take_line_app_r by done. rewrite M_bind_run, bool_decide_false by done.
      cbn [consume].
      set (b2 := mkBuf (drop (length av) (bbuf b1)) (bsock b1)).
      assert (Hp2 : pending b2 = incoming (bsock b1)).
      { unfold pending, b2. simpl. by rewrite Hbuf, drop_all. }
      specialize (IH (acc ++ av) b2). rewrite Hp2 in IH. simpl in IH. rewrite He in IH.
      assert (Hlt : S (length (incoming (bsock b1))) < fuel).
      { rewrite <-Hp, length_app in Hf. destruct av; [done|]. simpl in Hf. lia. }
      specialize (IH Hlt). destruct (take_line _ (incoming (bsock b1))) as [[l r]|e]; cbn.
      * destruct IH as (b' & -> & Hl). exists b'. rewrite <-app_assoc. split; [done|].
        eapply left_with_trans; [|exact Hl]. by split_and!.
      * exact IH.
  - unfold take_line. rewrite Hp. cbn. destruct (rx_end (bsock b)) as [e|]; cbn.
    + eauto.
    + eexists. split; [by rewrite app_nil_r|]. split_and!; [|apply Hleft..].
      destruct Hleft as [Hl _]. unfold pending in *. simpl. rewrite Hbuf in *. done.
Qed.

Lemma read_line_spec b :
  match spec_line (rx_end (bsock b)) (pending b) with
  | Ok (line, rest) => ∃ b', read_line b = (Ok line, b') ∧ left_with b b' rest
  | Err e => ∃ b', read_line b = (Err e, b')
  end.
Proof.
  unfold spec_line, read_line.
  pose proof (read_until_spec (S (S (length (pending b)))) [] b ltac:(lia)) as H.
  destruct (take_line _ (pending b)) as [[line rest]|e]; cbn [mbind result_bind].
  - destruct H as (b' & -> & Hl). simpl. destruct (from_utf8 line); eauto.
  - destruct H as (b' & e' & -> & ->). eauto.
Qed.

Lemma drain_headers_spec fuel : ∀ b,
  match spec_headers fuel (rx_end (bsock b)) (pending b) with
  | Ok rest => ∃ b', drain_headers fuel b = (Ok (), b') ∧ left_with b b' rest
  | Err e => ∃ b', drain_headers fuel b = (Err e, b')
  end.
Proof.
  induction fuel as [|fuel IH]; intros b; [eexists; done|]. cbn [spec_headers drain_headers].
  rewrite M_bind_run. pose proof (read_line_spec b) as Hr.
  destruct (spec_line _ (pending b)) as [[line rest]|e]; cbn [mbind result_bind].
  - destruct Hr as (b1 & -> & Hl). case_bool_decide; [eauto|].
    specialize (IH b1). pose proof Hl as (Hp & He & _). rewrite Hp, He in IH.
    destruct (spec_headers fuel _ rest) as [r|e]; [|done].
    destruct IH as (b' & ? & ?). eauto using left_with_trans.
  - destruct Hr as (b1 & ->). eauto.
Qed.

Lemma read_response_spec b :
  match spec_response (rx_end (bsock b)) (pending b) with
  | Ok rest => ∃ b', read_response b = (Ok (), b') ∧ left_with b b' rest
  | Err e => ∃ b', read_response b = (Err e, b')
  end.
Proof.
  unfold spec_response, read_response. rewrite M_bind_run.
  pose proof (read_line_spec b) as Hr.
  destruct (spec_line _ (pending b)) as [[line rest]|e]; cbn [mbind result_bind].
  - destruct Hr as (b1 & -> & Hl). rewrite M_bind_run. cbn [lift_result].
    destruct (parse_status_code (trim_eol line)) as [code|e]; cbn [mbind result_bind]; [|eauto].
    destruct (code =? 200)%Z; cbn [negb]; [|eexists; done].
    pose proof (drain_headers_spec (S (length rest)) b1) as Hd.
    pose proof Hl as (Hp & He & _). rewrite He, Hp in Hd. rewrite Hp.
    destruct (spec_headers _ _ rest) as [r|e]; [|done].
    destruct Hd as (b' & ? & ?). eauto using left_with_trans.
  - destruct Hr as (b1 & ->). eauto.
Qed.

(** Reading the headers always comes to an end. *)
Lemma take_line_length fin inp line rest :
  take_line fin inp = Ok (line, rest) → length inp = length line + length rest.
Proof.
  unfold take_line. destruct (split_once x0a inp) as [[l r]|] eqn:E.
  - intros [= <- <-]. apply split_once_spec in E as [-> _]. rewrite !length_app. simpl. lia.
  - destruct fin; [done|]. intros [= <- <-]. simpl. lia.
Qed.

Lemma trim_eol_nil : trim_eol [] = [].
Proof. done. Qed.

Lemma spec_headers_fuel fuel : ∀ fin inp,
  length inp < fuel → spec_headers fuel fin inp ≠ Err HOutOfFuel.
Proof.
  induction fuel as [|fuel IH]; intros fin inp Hf; [lia|]. cbn [spec_headers].
  unfold spec_line. destruct (take_line fin inp) as [[line rest]|e] eqn:E; cbn [mbind result_bind].
  - apply take_line_length in E. destruct (from_utf8 line) as [l|] eqn:Hu; cbn; [|done].
    unfold from_utf8 in Hu. destruct (utf8_chars line); [|done]. injection Hu as <-.
    case_bool_decide as Ht; [done|]. apply IH. destruct line; [by rewrite trim_eol_nil in Ht|].
    simpl in E. lia.
  - unfold take_line in E. destruct (split_once x0a inp) as [[? ?]|]; [done|].
    destruct fin; [|done]. injection E as <-. done.
Qed.

Lemma parse_status_code_fuel l : parse_status_code l ≠ Err HOutOfFuel.
Proof.
  unfold parse_status_code. destruct (negb _); [done|].
  destruct (splitn 3 x20 l !! 1) as [c|]; simpl; [|done]. by destruct (parse_uint _ c).
Qed.

Lemma take_line_err fin inp e : take_line fin inp = Err e → e ≠ HOutOfFuel.
Proof.
  unfold take_line. destruct (split_once x0a inp) as [[? ?]|]; [done|].
  destruct fin; [|done]. by intros [= <-].
Qed.

Lemma spec_response_fuel fin inp : spec_response fin inp ≠ Err HOutOfFuel.
Proof.
  unfold spec_response, spec_line at 1.
  destruct (take_line fin inp) as [[line rest]|e] eqn:E; cbn [mbind result_bind].
  - destruct (from_utf8 line) as [l|]; cbn [mbind result_bind]; [|done].
    pose proof (parse_status_code_fuel (trim_eol l)).
    destruct (parse_status_code (trim_eol l)) as [code|e]; cbn [mbind result_bind]; [|congruence].
    destruct (code =? 200)%Z; cbn [negb]; [|done]. apply spec_headers_fuel. lia.
  - apply take_line_err in E. congruence.
Qed.

(** ** The reference base64 decoder (RFC 4648, section 4) *)

Definition b64_index (c : byte) : option Z :=
  '(i, _) ← list_find (c =.) B64_ALPHABET; Some (Z.of_nat i).

(** A group of four: the value of its sextets, and how many bytes it carries. *)
Definition b64_group (c0 c1 c2 c3 : byte) : option bytes :=
  i0 ← b64_index c0; i1 ← b64_index c1;
  if bool_decide (c2 = x3d) && bool_decide (c3 = x3d) then
    Some [z2b (i0 * 4 + i1 / 16)]
  else
    i2 ← b64_index c2;
    if bool_decide (c3 = x3d) then Some [z2b (i0 * 4 + i1 / 16); z2b (i1 * 16 + i2 / 4)]
    else i3 ← b64_index c3;
         Some [z2b (i0 * 4 + i1 / 16); z2b (i1 * 16 + i2 / 4); z2b (i2 * 64 + i3)].

Fixpoint base64_decode (s : bytes) : option bytes :=
  match s with
  | [] => Some []
  | c0 :: c1 :: c2 :: c3 :: rest =>
      g ← b64_group c0 c1 c2 c3; r ← base64_decode rest; Some (g ++ r)
  | _ => None
  end.

Lemma b64_char_index i :
  (0 ≤ i < 64)%Z → b64_index (b64_char i) = Some i ∧ b64_char i ≠ x3d.
Proof.
  intros Hi.
  assert (H : Forall (λ n, b64_index (b64_char (Z.of_nat n)) = Some (Z.of_nat n) ∧
                           b64_char (Z.of_nat n) ≠ x3d) (seq 0 64)).
  { refine (bool_decide_unpack _ _). by vm_compute. }
  rewrite Forall_forall in H. specialize (H (Z.to_nat i)).
  rewrite Z2Nat.id in H by lia. apply H, in_seq. lia.
Qed.

(** The 24-bit word of a chunk is the sum of its bytes. *)
Lemma b64_combined z0 z1 z2 :
  (0 ≤ z0 < 256 → 0 ≤ z1 < 256 → 0 ≤ z2 < 256 →
   Z.lor (Z.lor (Z.shiftl z0 16) (Z.shiftl z1 8)) z2 = z0 * 65536 + z1 * 256 + z2)%Z.
Proof.
  intros H0 H1 H2.
  assert (Hl : ∀ a b n, (0 ≤ n → 0 ≤ b < 2 ^ n → Z.lor (a * 2 ^ n) b = a * 2 ^ n + b)%Z).
  { intros a b n Hn Hb. rewrite <-Z.add_lor_land.
    enough (Z.land (a * 2 ^ n) b = 0)%Z as -> by lia.
    rewrite <-(Z.mod_small b (2 ^ n)), <-Z.land_ones by lia.
    rewrite (Z.land_comm b), Z.land_assoc, <-Z.shiftl_mul_pow2, Z.land_ones by lia.
    by rewrite Z.shiftl_mul_pow2, Z.mod_mul, Z.land_0_l by lia. }
  rewrite !Z.shiftl_mul_pow2 by lia.
  replace (z0 * 2 ^ 16)%Z with ((z0 * 256) * 2 ^ 8)%Z by lia.
  rewrite <-Z.shiftl_mul_pow2, <-(Z.shiftl_mul_pow2 z1), <-Z.shiftl_lor, Z.shiftl_mul_pow2 by lia.
  change 256%Z with (2 ^ 8)%Z at 1. rewrite (Hl z0 z1 8%Z), Hl by lia. lia.
Qed.

Lemma b64_sextet x n : (0 ≤ n → Z.land (Z.shiftr x n) 0x3F = (x / 2 ^ n) mod 64)%Z.
Proof.
  intros. change 0x3F%Z with (Z.ones 6). by rewrite Z.land_ones, Z.shiftr_div_pow2 by lia.
Qed.

Lemma b64_sextet0 x : Z.land x 0x3F = (x mod 64)%Z.
Proof. change 0x3F%Z with (Z.ones 6). by rewrite Z.land_ones by lia. Qed.

Lemma z2b_eq z b : (z mod 256 = b2z b)%Z → z2b z = b.
Proof. intros H. apply b2z_inj. by rewrite b2z_z2b. Qed.

Ltac b64_index :=
  match goal with
  | |- context [b64_index (b64_char ?i)] =>
      rewrite (proj1 (b64_char_index i ltac:(Z.to_euclidean_division_equations; lia)))
  | |- context [bool_decide (b64_char ?i = x3d)] =>
      rewrite (bool_decide_false (b64_char i = x3d))
        by (apply b64_char_index; Z.to_euclidean_division_equations; lia)
  end.

Lemma b64_chunk_decode b0 b1 b2 c0 c1 c2 c3 :
  (is_Some b2 → is_Some b1) →
  b64_chunk b0 b1 b2 = [c0; c1; c2; c3] →
  b64_group c0 c1 c2 c3 = Some (b0 :: option_list b1 ++ option_list b2).
Proof.
  intros H12. unfold b64_chunk, b64_group.
  pose proof (b2z_range b0).
  destruct b1 as [b1|], b2 as [b2|]; simpl; try (by destruct H12 as [? ?]; eauto);
    try pose proof (b2z_range b1); try pose proof (b2z_range b2);
    rewrite b64_combined, !b64_sextet, ?b64_sextet0 by lia; intros [= <- <- <- <-].
  all: repeat (b64_index; simpl).
  all: repeat (f_equal; [apply z2b_eq; Z.to_euclidean_division_equations; lia|]); try done.
  all: repeat f_equal; apply z2b_eq; Z.to_euclidean_division_equations; lia.
Qed.

Lemma b64_chunk_inv b0 b1 b2 :
  (is_Some b2 → is_Some b1) →
  ∃ c0 c1 c2 c3, b64_chunk b0 b1 b2 = [c0; c1; c2; c3] ∧
    b64_group c0 c1 c2 c3 = Some (b0 :: option_list b1 ++ option_list b2).
Proof.
  intros H. unfold b64_chunk. do 4 eexists. split; [reflexivity|].
  by apply b64_chunk_decode.
Qed.

(** ** The reference: a complete response

    A status line, header lines and a first blank line, each ended by a line
    feed; what follows belongs to the tunnel. *)

Definition terminated (l : bytes) : bytes := l ++ [x0a].

(** Nothing but carriage returns. *)
Definition blank (l : bytes) : Prop := Forall (x0d =.) l.

Record complete_response (inp status : bytes) (headers : list bytes) (tunnel : bytes) : Prop := {
  cr_lines : Forall (λ l, x0a ∉ l) (status :: headers);
  cr_headers : Forall (λ h, ¬ blank h) headers;
  cr_bytes : ∃ stop, blank stop ∧
    inp = terminated status ++ concat (terminated <$> headers) ++ terminated stop ++ tunnel;
}.

Definition is_utf8 (l : bytes) : bool := bool_decide (is_Some (from_utf8 (terminated l))).

(** What a complete response answers to CONNECT. *)
Definition answered (status : bytes) (headers : list bytes) (tunnel : bytes) : result http_error bytes :=
  if negb (is_utf8 status) then Err (HIo (Simple InvalidData)) else
  code ← parse_status_code (trim_eol status);
  if negb (code =? 200)%Z then Err (HStatus code) else
  if forallb is_utf8 headers then Ok tunnel else Err (HIo (Simple InvalidData)).

Lemma trim_terminated l : trim_eol (terminated l) = trim_eol l.
Proof. unfold trim_eol, trim_end_matches, terminated. by rewrite reverse_app. Qed.

Lemma drop_while_nil P (l : bytes) : drop_while P l = [] ↔ Forall (λ b, P b = true) l.
Proof.
  induction l as [|b l IH]; [done|]. simpl. split.
  - destruct (P b) eqn:E; [|done]. constructor; [done|by apply IH].
  - intros [-> Hl]%Forall_cons_1. by apply IH.
Qed.

Lemma trim_blank l : x0a ∉ l → trim_eol l = [] ↔ blank l.
Proof.
  intros Hl. unfold trim_eol, trim_end_matches, blank.
  assert (Hr : ∀ x : bytes, reverse x = [] ↔ x = []).
  { intros x. split; [|by intros ->]. intros E. by rewrite <-(reverse_involutive x), E. }
  rewrite Hr, drop_while_nil, Forall_reverse, !Forall_lookup. unfold is_eol.
  split; intros H i b Hb; specialize (H i b Hb).
  - apply orb_prop in H as [H|H]; apply bool_decide_eq_true in H as ->; [done|].
    destruct Hl. apply list_elem_of_lookup. eauto.
  - by rewrite <-H.
Qed.

Lemma blank_utf8 l : blank l → is_Some (from_utf8 (terminated l)).
Proof.
  intros Hl. exists (terminated l). apply from_utf8_app; [|done].
  induction Hl as [|b l <- _ IH]; [done|]. by apply (from_utf8_app [x0d] l).
Qed.

Lemma spec_line_terminated fin l rest :
  x0a ∉ l →
  spec_line fin (terminated l ++ rest)
  = if is_utf8 l then Ok (terminated l, rest) else Err (HIo (Simple InvalidData)).
Proof.
  intros Hl. unfold spec_line, take_line, terminated.
  rewrite <-app_assoc, (proj2 (split_once_spec _ _ _ _)) by (split; [done|exact Hl]). cbn [mbind result_bind].
  unfold is_utf8, from_utf8, terminated. destruct (utf8_chars (l ++ [x0a])).
  - by rewrite bool_decide_true by eauto.
  - by rewrite bool_decide_false by (by intros []).
Qed.

Lemma spec_headers_complete fin stop tunnel hs : ∀ fuel,
  Forall (λ l, x0a ∉ l) hs → Forall (λ h, ¬ blank h) hs → blank stop → length hs < fuel →
  spec_headers fuel fin (concat (terminated <$> hs) ++ terminated stop ++ tunnel)
  = if forallb is_utf8 hs then Ok tunnel else Err (HIo (Simple InvalidData)).
Proof.
  assert (Hn : ∀ l, blank l → x0a ∉ l).
  { intros l Hl [i Hi]%list_elem_of_lookup. by pose proof (Forall_lookup_1 _ _ _ _ Hl Hi). }
  induction hs as [|h hs IH]; intros [|fuel] Hl Hb Hs Hf; simpl in Hf; try lia; cbn [spec_headers].
  - cbn [fmap list_fmap concat app]. rewrite spec_line_terminated by auto. unfold is_utf8.
    rewrite bool_decide_true by (by apply blank_utf8). cbn [mbind result_bind].
    by rewrite trim_terminated, bool_decide_true by (apply trim_blank; auto).
  - apply Forall_cons_1 in Hl as [Hl1 Hl2]. apply Forall_cons_1 in Hb as [Hb1 Hb2].
    cbn [fmap list_fmap concat forallb]. rewrite <-app_assoc, spec_line_terminated by done.
    destruct (is_utf8 h); [|done]. cbn [mbind result_bind andb].
    rewrite trim_terminated, bool_decide_false by (by rewrite trim_blank). apply IH; [done..|lia].
Qed.

Lemma spec_response_complete fin inp status headers tunnel :
  complete_response inp status headers tunnel → spec_response fin inp = answered status headers tunnel.
Proof.
  intros [Hl Hb (stop & Hs & ->)]. apply Forall_cons_1 in Hl as [Hl1 Hl2]. unfold spec_response, answered.
  rewrite spec_line_terminated by done. destruct (is_utf8 status); [|done]. cbn [mbind result_bind negb].
  rewrite trim_terminated. destruct (parse_status_code (trim_eol status)) as [code|]; [|done]. cbn [mbind result_bind].
  destruct (code =? 200)%Z; [|done]. apply spec_headers_complete; [done..|].
  assert (length headers ≤ length (concat (terminated <$> headers))); [|rewrite !length_app; lia].
  clear. induction headers as [|h hs IH]; [done|]. cbn [fmap list_fmap concat]. unfold terminated at 1.
  rewrite !length_app. simpl. lia.
Qed.

(** On a stream that ends with an error a line is accepted only whole. *)
Lemma spec_line_whole e inp line rest :
  spec_line (Some e) inp = Ok (line, rest) → ∃ l, line = terminated l ∧ x0a ∉ l ∧ inp = terminated l ++ rest.
Proof.
  unfold spec_line, take_line. destruct (split_once x0a inp) as [[l r]|] eqn:E; [|done]. cbn [mbind result_bind].
  apply split_once_spec in E as [-> Hl]. unfold from_utf8. destruct (utf8_chars _); [|done]. intros [= <- <-].
  exists l. unfold terminated. by rewrite <-app_assoc.
Qed.

Lemma spec_headers_whole e fuel : ∀ inp tunnel,
  spec_headers fuel (Some e) inp = Ok tunnel →
  ∃ hs stop, Forall (λ l, x0a ∉ l) hs ∧ Forall (λ h, ¬ blank h) hs ∧ blank stop ∧
    inp = concat (terminated <$> hs) ++ terminated stop ++ tunnel.
Proof.
  induction fuel as [|fuel IH]; intros inp tunnel H; [done|]. cbn [spec_headers] in H.
  destruct (spec_line (Some e) inp) as [[line rest]|] eqn:El; [|done]. cbn [mbind result_bind] in H.
  apply spec_line_whole in El as (l & -> & Hl & ->). rewrite trim_terminated in H. case_bool_decide as Ht.
  - injection H as <-. exists [], l. by rewrite trim_blank in Ht.
  - destruct (IH _ _ H) as (hs & stop & H1 & H2 & H3 & ->). exists (l :: hs), stop. rewrite trim_blank in Ht by done.
    split_and!; [by constructor|by constructor|done|]. cbn [fmap list_fmap concat]. by rewrite <-app_assoc.
Qed.

Lemma spec_response_whole e inp tunnel :
  spec_response (Some e) inp = Ok tunnel → ∃ status headers, complete_response inp status headers tunnel.
Proof.
  unfold spec_response. destruct (spec_line (Some e) inp) as [[line rest]|] eqn:El; [|done]. cbn [mbind result_bind].
  apply spec_line_whole in El as (l & -> & Hl & ->). destruct (parse_status_code _) as [code|]; [|done].
  cbn [mbind result_bind]. destruct (code =? 200)%Z; [|done]. intros (hs & stop & H1 & H2 & H3 & ->)%spec_headers_whole.
  exists l, hs. constructor; [by constructor|done|]. by exists stop.
Qed.

(** ** Theorems *)

Lemma do_connect_run (s : sock) (target : ProxyTarget) (auth : option (bytes * bytes)) :
  tx_limit s = None →
  match spec_response (rx_end s) (incoming s) with
  | Ok tunnel =>
      ∃ st, do_connect s target auth = Ok st ∧ stream_content st = tunnel ∧
            tx (inner st) = tx s ++ connect_request target auth
  | Err e => do_connect s target auth = Err e
  end.
Proof.
  intros Hl. unfold do_connect. rewrite M_bind_run. unfold write_request, write_all. simpl.
  rewrite Hl. set (b := mkBuf [] _). pose proof (read_response_spec b) as H.
  change (pending b) with (incoming s) in H. change (rx_end (bsock b)) with (rx_end s) in H.
  destruct (spec_response _ _) as [tunnel|e].
  - destruct H as (b' & -> & Hp & _ & Ht). eexists. split; [done|].
    unfold stream_content, stream_new. simpl. rewrite drop_0. split; [exact Hp|exact Ht].
  - by destruct H as (b' & ->).
Qed.

(** C22: On a complete response (a status line, header lines and a first blank line) the
    HTTP CONNECT exchange, reading through a buffered reader in whatever chunks arrive,
    fails as the status and the encoding say, or, for status 200, sends exactly the request
    and gives a stream whose content is what follows the blank line; when the connection
    fails before a complete response it is an error. (A response cut inside its headers by a
    clean end of stream is outside the statement.) *)
Theorem do_connect_refines_spec (s : sock) (target : ProxyTarget) (auth : option (bytes * bytes)) :
  tx_limit s = None →
  (∀ status headers tunnel, complete_response (incoming s) status headers tunnel →
     match answered status headers tunnel with
     | Ok tunnel =>
         ∃ st, do_connect s target auth = Ok st ∧ stream_content st = tunnel ∧
               tx (inner st) = tx s ++ connect_request target auth
     | Err e => do_connect s target auth = Err e
     end) ∧
  ((∀ status headers tunnel, ¬ complete_response (incoming s) status headers tunnel) → rx_end s ≠ None →
   ∃ e, do_connect s target auth = Err e).
Proof.
  intros Hl. pose proof (do_connect_run s target auth Hl) as H. split.
  - intros status headers tunnel Hc. by rewrite (spec_response_complete _ _ _ _ _ Hc) in H.
  - intros Hn He. destruct (rx_end s) as [e|]; [|done].
    destruct (spec_response (Some e) (incoming s)) as [tunnel|e'] eqn:E; [|by exists e'].
    apply spec_response_whole in E as (status & headers & Hc). by destruct (Hn status headers tunnel).
Qed.

(** The fuel computed from the pending bytes is enough for every exchange. *)
Lemma do_connect_terminates (s : sock) (target : ProxyTarget) (auth : option (bytes * bytes)) :
  do_connect s target auth ≠ Err HOutOfFuel.
Proof.
  unfold do_connect. rewrite M_bind_run. unfold write_request. simpl.
  destruct (write_all (connect_request target auth) s) as [[[]|e] s1]; [|done].
  pose proof (read_response_spec (mkBuf [] s1)) as H.
  pose proof (spec_response_fuel (rx_end s1) (incoming s1)) as Hs.
  change (pending _) with (incoming s1) in H. change (rx_end _) with (rx_end s1) in H.
  destruct (spec_response _ _) as [tunnel|e].
  - by destruct H as (b' & -> & _).
  - destruct H as (b' & ->). congruence.
Qed.

(** The Basic credentials decode back to the bytes that were encoded, with the length
    of padded base64. *)
Lemma base64_roundtrip (bs : bytes) :
  base64_decode (base64_encode bs) = Some bs ∧
  length (base64_encode bs) = 4 * ((length bs + 2) / 3).
Proof.
  induction bs as [bs IH] using (induction_ltof1 _ length). unfold ltof in IH.
  destruct bs as [|b0 [|b1 [|b2 bs]]]; [done|..]; cbn [base64_encode].
  - destruct (b64_chunk_inv b0 None None) as (c0 & c1 & c2 & c3 & -> & E); [done|].
    cbn [base64_decode]. rewrite E. by split.
  - destruct (b64_chunk_inv b0 (Some b1) None) as (c0 & c1 & c2 & c3 & -> & E); [eauto|].
    cbn [base64_decode]. rewrite E. by split.
  - destruct (b64_chunk_inv b0 (Some b1) (Some b2)) as (c0 & c1 & c2 & c3 & -> & E); [eauto|].
    destruct (IH bs) as [IHd IHl]; [simpl; lia|]. cbn [base64_decode app]. rewrite E.
    cbn [mbind option_bind]. rewrite IHd. split; [done|]. cbn [length]. rewrite IHl.
    replace (S (S (S (length bs))) + 2) with (length bs + 2 + 1 * 3) by lia.
    rewrite Nat.div_add by lia. lia.
Qed.

(** End of stream in the middle of the headers counts as their end. *)
Lemma truncated_headers_accepted (target : ProxyTarget) (auth : option (bytes * bytes)) :
  let s := mkSock [lit "HTTP/1.1 200 OK" ++ crlf ++ lit "Via: 1.1 p"] None [] None in
  ∃ st, do_connect s target auth = Ok st ∧ stream_content st = [].
Proof.
  intros s. pose proof (do_connect_run s target auth eq_refl) as H.
  assert (spec_response (rx_end s) (incoming s) = Ok []) as Hs by (vm_compute; done).
  rewrite Hs in H. destruct H as (st & ? & ? & _). eauto.
Qed.

(** A response in three chunks, the last with the first tunnel bytes. *)
Definition response_example : sock :=
  mkSock [lit "HTTP/1.1 2"; lit "00 OK" ++ crlf ++ lit "Via: p" ++ crlf; crlf ++ lit "data"] None [] None.

Lemma response_example_complete :
  complete_response (incoming response_example) (lit "HTTP/1.1 200 OK" ++ [x0d]) [lit "Via: p" ++ [x0d]] (lit "data").
Proof.
  constructor.
  - by apply (bool_decide_unpack (Forall (λ l, x0a ∉ l) [lit "HTTP/1.1 200 OK" ++ [x0d]; lit "Via: p" ++ [x0d]])).
  - constructor; [|constructor]. intros H%Forall_cons_1. by destruct H.
  - exists [x0d]. split; [by repeat constructor|reflexivity].
Qed.

Lemma do_connect_refines_spec_witness :
  answered (lit "HTTP/1.1 200 OK" ++ [x0d]) [lit "Via: p" ++ [x0d]] (lit "data") = Ok (lit "data") ∧
  ∃ st, do_connect response_example (TDomain (lit "h") 80) None = Ok st ∧ stream_content st = lit "data".
Proof.
  assert (E : answered (lit "HTTP/1.1 200 OK" ++ [x0d]) [lit "Via: p" ++ [x0d]] (lit "data") = Ok (lit "data"))
    by (vm_compute; reflexivity).
  split; [exact E|].
  destruct (do_connect_refines_spec response_example (TDomain (lit "h") 80) None eq_refl) as [H _].
  specialize (H _ _ _ response_example_complete). rewrite E in H.
  destruct H as (st & Hd & Hc & _). exists st. split; [exact Hd|exact Hc].
Defined.

