(* ===== verification/Request.v ===== *)
(** * What a proxy reads in the CONNECT request of src/proxy/http.rs

    [read_request] is a reference reader of the request by the grammar of
    HTTP/1.1: lines end in CR LF, the first is the request line, an empty one
    ends the headers. It recovers host, port and credentials from the bytes
    [connect_request] writes for a host name without CR, LF or space; a name
    with them (which a DNS query may carry) changes what is read. *)
From S2P Require Import Prelude RustStd Net FakeDns Stream Proxy Http.

Definition next_line (inp : bytes) : option (bytes * bytes) :=
  '(l, rest) ← split_once x0a inp;
  if bool_decide (list.last l = Some x0d) then Some (take (length l - 1) l, rest) else None.

Fixpoint header_lines (fuel : nat) (inp : bytes) : option (list bytes * bytes) :=
  match fuel with
  | O => None
  | S fuel =>
      '(l, rest) ← next_line inp;
      if bool_decide (l = []) then Some ([], rest)
      else '(ls, rest) ← header_lines fuel rest; Some (l :: ls, rest)
  end.

(** The authority, the header lines and what follows the request. *)
Definition read_request (inp : bytes) : option (bytes * list bytes * bytes) :=
  '(l, rest) ← next_line inp;
  t ← strip_prefix (lit "CONNECT ") l;
  '(authority, version) ← split_once x20 t;
  if bool_decide (version = lit "HTTP/1.1")
  then '(headers, rest) ← header_lines (length rest) rest; Some (authority, headers, rest)
  else None.

Definition read_authority (authority : bytes) : option (bytes * Z) :=
  '(host, port) ← rsplit_once x3a authority;
  port ← parse_uint U16_MAX port;
  Some (host, port).

(** [None]: the header is malformed; [Some None]: there is none. *)
Definition read_credentials (headers : list bytes) : option (option (bytes * bytes)) :=
  match head (omap (strip_prefix (lit "Proxy-Authorization: Basic ")) headers) with
  | None => Some None
  | Some value => bs ← base64_decode value; up ← split_once x3a bs; Some (Some up)
  end.

(** ** Lemmas *)

(** Decides that a byte does not occur in a literal. *)
Ltac no_elem := match goal with |- ¬ ?P => apply (bool_decide_eq_false_1 P); vm_compute; reflexivity end.

(** Text that stays within a line and a word. *)
Definition word (s : bytes) : Prop := (x0d ∉ s) ∧ (x0a ∉ s) ∧ (x20 ∉ s).

Lemma word_app a b : word a → word b → word (a ++ b).
Proof. unfold word. rewrite !not_elem_of_app. tauto. Qed.

Lemma word_cons b s : bool_decide (b ∈ [x0d; x0a; x20]) = false → word s → word (b :: s).
Proof. rewrite bool_decide_eq_false. unfold word. set_solver. Qed.

Lemma word_Forall (P : byte → Prop) s : Forall P s → ¬ P x0d → ¬ P x0a → ¬ P x20 → word s.
Proof. intros Hs H1 H2 H3. rewrite list.Forall_forall in Hs. split_and!; intros Hin%Hs; contradiction. Qed.

Lemma word_dec z : (0 ≤ z)%Z → word (fmt_dec z).
Proof. intros Hz. apply (word_Forall is_decimal); [by apply fmt_dec_decimal|unfold is_decimal; vm_compute; intuition..]. Qed.

Lemma word_ipv4 ip : word (fmt_ipv4 ip).
Proof.
  destruct ip as [a b c d]. unfold fmt_ipv4. simpl.
  repeat first [apply word_app|apply word_cons; [done|]|apply word_dec, b2z_range].
Qed.

Definition b64_text (b : byte) : Prop := b ∈ x3d :: x00 :: B64_ALPHABET.

Lemma b64_char_text i : b64_text (b64_char i).
Proof.
  unfold b64_text, b64_char. destruct (nth_in_or_default (Z.to_nat i) B64_ALPHABET x00) as [Hi| ->].
  - right. right. by apply list_elem_of_In.
  - right. left.
Qed.

Lemma base64_text bs : Forall b64_text (base64_encode bs).
Proof.
  induction bs as [bs IH] using (induction_ltof1 _ length). unfold ltof in IH.
  assert (He : b64_text x3d) by left.
  destruct bs as [|b0 [|b1 [|b2 bs]]]; [constructor|..]; cbn [base64_encode]; unfold b64_chunk;
    repeat (apply Forall_cons_2; [first [exact He|apply b64_char_text]|]); try apply Forall_nil_2.
  apply IH. simpl. lia.
Qed.

Lemma word_base64 bs : word (base64_encode bs).
Proof.
  apply (word_Forall b64_text); [apply base64_text|..]; unfold b64_text; no_elem.
Qed.

Lemma next_line_crlf l rest : x0a ∉ l → next_line (l ++ crlf ++ rest) = Some (l, rest).
Proof.
  intros Hl. unfold next_line, crlf.
  assert (split_once x0a (l ++ [x0d; x0a] ++ rest) = Some (l ++ [x0d], rest)) as ->.
  { apply split_once_spec. split; [by rewrite <-!app_assoc|].
    apply not_elem_of_app. split; [done|]. by apply not_elem_of_cons; split; [|apply not_elem_of_nil]. }
  cbn [mbind option_bind]. rewrite last_snoc, bool_decide_true by done. rewrite length_app. simpl.
  by rewrite Nat.add_sub, take_app_length.
Qed.

Lemma header_lines_all hs : ∀ fuel rest,
  Forall (λ h, (x0a ∉ h) ∧ h ≠ []) hs → length hs < fuel →
  header_lines fuel (concat (map (λ h, h ++ crlf) hs) ++ crlf ++ rest) = Some (hs, rest).
Proof.
  induction hs as [|h hs IH]; intros [|fuel] rest Hh Hf; simpl in Hf; try lia; cbn [header_lines].
  - change (concat _ ++ crlf ++ rest) with ([] ++ crlf ++ rest). rewrite next_line_crlf by apply not_elem_of_nil. done.
  - apply Forall_cons_1 in Hh as [[Hn He] Hhs]. cbn [map concat].
    rewrite <-!app_assoc, next_line_crlf by done. cbn [mbind option_bind].
    rewrite bool_decide_false by done. rewrite IH by (done || lia). done.
Qed.

Definition target_host (t : ProxyTarget) : bytes := match t with TDomain host _ => host | TIp a _ => fmt_ip a end.
Definition target_port (t : ProxyTarget) : Z := match t with TDomain _ port | TIp _ port => port end.

Lemma fmt_target_parts t : fmt_target t = target_host t ++ lit ":" ++ fmt_dec (target_port t).
Proof. by destruct t. Qed.

(** A target whose name stays within a word; the broker makes no IPv6 targets. *)
Definition clean_target (t : ProxyTarget) : Prop :=
  match t with
  | TDomain host port => word host ∧ port_ok port
  | TIp (V4 _) port => port_ok port
  | TIp (V6 _) _ => False
  end.

Lemma clean_target_parts t : clean_target t → word (target_host t) ∧ port_ok (target_port t).
Proof. destruct t as [host port|[ip|gs] port]; simpl; [done| |done]. split; [apply word_ipv4|done]. Qed.

(** The header lines of a request. *)
Definition request_headers (target : ProxyTarget) (auth : option (bytes * bytes)) : list bytes :=
  (lit "Host: " ++ fmt_target target) ::
  match auth with
  | Some (user, pass) => [lit "Proxy-Authorization: Basic " ++ base64_encode (user ++ lit ":" ++ pass)]
  | None => []
  end.

Lemma connect_request_lines target auth :
  Http.connect_request target auth =
    (lit "CONNECT " ++ fmt_target target ++ lit " HTTP/1.1") ++ crlf ++
    concat (map (λ h, h ++ crlf) (request_headers target auth)) ++ crlf.
Proof.
  unfold Http.connect_request, request_headers. destruct auth as [[u p]|]; cbn [map concat];
    rewrite <-?app_assoc, ?app_nil_l, ?app_nil_r; reflexivity.
Qed.

Lemma read_authority_target t :
  port_ok (target_port t) → read_authority (fmt_target t) = Some (target_host t, target_port t).
Proof.
  intros Hp. rewrite fmt_target_parts. unfold read_authority.
  rewrite (proj2 (rsplit_once_spec x3a _ (target_host t) (fmt_dec (target_port t)))).
  2:{ split; [done|]. intros Hin. pose proof (fmt_dec_decimal (target_port t) ltac:(apply Hp)) as Hd.
      rewrite list.Forall_forall in Hd. apply Hd in Hin. revert Hin. unfold is_decimal. vm_compute. intuition. }
  cbn [mbind option_bind]. unfold port_ok in Hp. rewrite parse_uint_fmt_dec; [done|lia|unfold U16_MAX; lia].
Qed.

Lemma read_credentials_headers target auth :
  auth_ok auth → read_credentials (request_headers target auth) = Some auth.
Proof.
  intros Ha. unfold read_credentials, request_headers. destruct auth as [[u p]|]; [|done].
  assert (Hs : strip_prefix (lit "Proxy-Authorization: Basic ")
    (lit "Proxy-Authorization: Basic " ++ base64_encode (u ++ lit ":" ++ p)) = Some (base64_encode (u ++ lit ":" ++ p)))
    by (by apply strip_prefix_spec).
  assert (Hh : omap (strip_prefix (lit "Proxy-Authorization: Basic "))
    [lit "Host: " ++ fmt_target target; lit "Proxy-Authorization: Basic " ++ base64_encode (u ++ lit ":" ++ p)]
    = [base64_encode (u ++ lit ":" ++ p)]) by (cbn [omap list_omap]; by rewrite Hs).
  rewrite Hh. cbn [head]. rewrite (proj1 (base64_roundtrip _)). cbn [mbind option_bind].
  destruct Ha as [_ Hc]. by rewrite (proj2 (split_once_spec x3a _ u p)).
Qed.

(** ** Theorems *)

(** C16: A proxy that reads the CONNECT request by the grammar of HTTP recovers host, port
    and credentials and the bytes after it, for every target whose name holds no CR, LF or
    space. *)
Theorem connect_request_roundtrip (target : ProxyTarget) (auth : option (bytes * bytes)) (rest : bytes) :
  clean_target target → auth_ok auth →
  ∃ authority headers,
    read_request (Http.connect_request target auth ++ rest) = Some (authority, headers, rest) ∧
    read_authority authority = Some (target_host target, target_port target) ∧
    read_credentials headers = Some auth.
Proof.
  intros [Hw Hp]%clean_target_parts Ha. exists (fmt_target target), (request_headers target auth).
  split_and!; [|by apply read_authority_target|by apply read_credentials_headers].
  assert (Ht : word (fmt_target target)).
  { rewrite fmt_target_parts. apply word_app; [done|]. apply word_app; [by apply (bool_decide_unpack (word (lit ":")))|].
    apply word_dec. apply Hp. }
  destruct Ht as (_ & Hlf & Hsp). rewrite connect_request_lines, <-!app_assoc. unfold read_request.
  rewrite (app_assoc (lit "CONNECT ")), app_assoc, next_line_crlf.
  2:{ rewrite !not_elem_of_app. split_and!; [|done|]; no_elem. }
  cbn [mbind option_bind]. rewrite <-app_assoc, (proj2 (strip_prefix_spec _ _ _)) by done. cbn [mbind option_bind].
  rewrite (proj2 (split_once_spec x20 _ (fmt_target target) (lit "HTTP/1.1"))) by done. cbn [mbind option_bind].
  rewrite bool_decide_true by done. rewrite header_lines_all; [done| |].
  - constructor; [split; [|done]; apply not_elem_of_app; split; [no_elem|done]|].
    destruct auth as [[u p]|]; [|constructor]. constructor; [|constructor]. split; [|done].
    apply not_elem_of_app. split; [no_elem|]. apply word_base64.
  - unfold request_headers. destruct auth as [[u p]|]; simpl; rewrite !length_app; simpl; lia.
Qed.

(** ** A name that splits the request *)

(** The labels of a query, and the name they join to. *)
Definition injected_labels : list bytes := [lit "a HTTP/1"; lit "1" ++ crlf ++ lit "X: y"].

(** The query is accepted, and the request for its name asks the proxy for
    another host with a header of the client's choice. *)
Lemma crlf_name_splits_request :
  let name := join [x2e] injected_labels in
  parse_query (query_packet 7 0x0100 1 (replicate 6 x00) injected_labels 1 (be_bytes 2 1)) = Ret (Some (7, name, 1)%Z) ∧
  ∃ headers, read_request (Http.connect_request (TDomain name 80) None) = Some (lit "a", lit "X: y:80 HTTP/1.1" :: headers, []).
Proof. split; [vm_compute; reflexivity|]. eexists. vm_compute. reflexivity. Qed.

(** ** Examples *)

Lemma connect_request_roundtrip_witness :
  ∃ authority headers,
    read_request (Http.connect_request (TDomain (lit "h.org") 443) (Some (lit "u", lit "p")) ++ lit "data") =
      Some (authority, headers, lit "data") ∧
    read_authority authority = Some (lit "h.org", 443%Z) ∧ read_credentials headers = Some (Some (lit "u", lit "p")).
Proof.
  apply (connect_request_roundtrip (TDomain (lit "h.org") 443) (Some (lit "u", lit "p")) (lit "data")).
  - split; [by apply (bool_decide_unpack (word (lit "h.org")))|]. split; [discriminate|reflexivity].
  - split; [discriminate|]. by apply (bool_decide_unpack (x3a ∉ lit "u")).
Defined.
