(* ===== verification/Dns.v ===== *)
(** * The DNS service of the broker: src/broker/dns.rs

    [Resolver] is the shared table behind its mutex: every method locks it
    once, so a call is one atomic step on a [FakeDns]. [Dns] adds the servers:
    one loopback UDP socket per resolver address the application uses, found
    again by [original_server] when an answer comes back. [serve_udp] and
    [serve_tcp] are the service loops; a timeout or a failed write is an error
    of the socket script. *)
From S2P Require Import Prelude RustStd Net FakeDns Stream Proxy.

Definition virtual_address : SocketAddrV4 := SockAddr DNS_ADDR DNS_PORT.

Definition is_dns (address : SocketAddrV4) : bool := (sa_port address =? DNS_PORT)%Z.

(** ** Resolver *)

Abbreviation Resolver := FakeDns (only parsing).

Definition resolver_target (mapping : Resolver) (address : SocketAddrV4) : io ProxyTarget :=
  if is_fake_ip (sa_ip address) then
    domain ← ok_or (RawOs ENETUNREACH) (lookup mapping (sa_ip address));
    Ok (TDomain domain (sa_port address))
  else Ok (TIp (V4 (sa_ip address)) (sa_port address)).

(** The reply, if any, and the table after it. *)
Definition answer (mapping : Resolver) (query : bytes) : outcome (option bytes * Resolver) :=
  q ← parse_query query;
  match q with
  | None => Ret (None, mapping)
  | Some (id, domain, kind) =>
      if (kind =? 1)%Z then
        let '(ip, mapping) := resolve mapping domain in
        Ret (Some (build_a_response id domain ip), mapping)
      else Ret (Some (build_empty_response id domain kind), mapping)
  end.

(** ** Servers *)

Record Servers := mkServers {
  forward : gmap SocketAddrV4 SocketAddrV4;
  reverse_ : gmap SocketAddrV4 SocketAddrV4;
}.

(** [tasks]: the UDP services running, by their local endpoint. They run until
    one of them ends, which ends [run] with an error and the event loop with it;
    the state is that of the time before. *)
Record Dns := mkDns { resolver : Resolver; servers : Servers; tasks : list SocketAddrV4 }.

Definition MAX_SERVERS : nat := 128.

(** [bound] is what the kernel gives for a loopback UDP socket: its local
    address, or the first error of bind, local_addr, set_nonblocking, from_std. *)
Definition server_for (bound : io SocketAddrV4) (destination : SocketAddrV4) : M Dns io_error SocketAddrV4 :=
  λ d,
  if negb (is_dns destination) then (Err (RawOs ENETUNREACH), d) else
  match forward (servers d) !! destination with
  | Some local => (Ok local, d)
  | None =>
      if bool_decide (MAX_SERVERS ≤ size (forward (servers d))) then (Err (RawOs ENOBUFS), d) else
      match bound with
      | Err e => (Err e, d)
      | Ok local =>
          (Ok local,
           mkDns (resolver d)
             (mkServers (<[destination := local]> (forward (servers d)))
                (<[local := destination]> (reverse_ (servers d))))
             (tasks d ++ [local]))
      end
  end.

Definition dns_new (bound : io SocketAddrV4) : io Dns :=
  match server_for bound virtual_address (mkDns FakeDns.new (mkServers ∅ ∅) []) with
  | (Ok _, d) => Ok d
  | (Err e, _) => Err e
  end.

Definition original_server (d : Dns) (local : SocketAddrV4) : option SocketAddrV4 :=
  reverse_ (servers d) !! local.

Definition dns_target (d : Dns) (address : SocketAddrV4) : io ProxyTarget :=
  resolver_target (resolver d) address.

(** What a finished task is, and what [run] makes of it: it never succeeds. *)
Inductive joined :=
| TaskDone (r : io ())
| TaskPanicked
| NoTasks.

Definition run (next : joined) : io () :=
  match next with
  | TaskDone (Err error) => Err error
  | TaskPanicked => Err (Simple OtherKind)
  | _ => Err (Simple OtherKind)
  end.

(** ** Service over UDP *)

Definition UDP_BUFFER : nat := N.to_nat 65536.

(** [recv_from] results in order; the loop waits for more at the end of the
    list. Its sends, the table, and [Some] error when the loop returned. A
    failed send is logged and changes nothing. *)
Fixpoint serve_udp (events : list (io (bytes * SocketAddrV4))) (mapping : Resolver)
    : outcome (list (bytes * SocketAddrV4) * Resolver * option io_error) :=
  match events with
  | [] => Ret ([], mapping, None)
  | Ok (packet, source) :: events =>
      r ← answer mapping (take UDP_BUFFER packet);
      let '(response, mapping) := r in
      rest ← serve_udp events mapping;
      let '(sent, mapping, stopped) := rest in
      Ret (match response with Some resp => (resp, source) :: sent | None => sent end,
           mapping, stopped)
  | Err error :: events =>
      if bool_decide (raw_os_error error = Some ENOMEM) || bool_decide (raw_os_error error = Some ENOBUFS)
      then serve_udp events mapping
      else Ret ([], mapping, Some error)
  end.

(** ** Service over TCP *)

Record tcp_state := mkTcp { tsock : sock; ttable : Resolver }.

Definition on_sock {A} (m : M sock io_error A) : M tcp_state io_error A :=
  λ s, let '(r, k) := m (tsock s) in (r, mkTcp k (ttable s)).

(** A panic of the parser would unwind the task; [exchange_total] excludes it. *)
Definition tanswer (query : bytes) : M tcp_state io_error (option bytes) :=
  λ s, match answer (ttable s) query with
       | Ret (r, m) => (Ok r, mkTcp (tsock s) m)
       | _ => (Err (Simple OtherKind), s)
       end.

Definition exchange : M tcp_state io_error bool :=
  λ s, match on_sock (read_exact 2) s with
       | (Err error, s) =>
           (if bool_decide (kind error = UnexpectedEof) then Ok false else Err error, s)
       | (Ok prefix, s) =>
           (query ← on_sock (read_exact (Z.to_nat (be_value prefix)));
            response ← tanswer query;
            response ← lift_result (ok_or (Simple InvalidData) response);
            let length := Z.of_nat (length response) in
            if (U16_MAX <? length)%Z then mfail (Simple InvalidData) else
            _ ← on_sock (write_all (be_bytes 2 length));
            _ ← on_sock (write_all response);
            mret true) s
       end.

(** Every exchange reads at least the prefix, so the input bounds the rounds:
    [None] is a loop cut short. *)
Fixpoint serve_tcp_loop (fuel : nat) : M tcp_state io_error (option ()) :=
  match fuel with
  | O => mret None
  | S fuel => more ← exchange; if negb more then mret (Some ()) else serve_tcp_loop fuel
  end.

Definition serve_tcp : M tcp_state io_error (option ()) :=
  λ s, serve_tcp_loop (S (length (incoming (tsock s)))) s.

(** ** Lemmas *)

Lemma answer_returns m q : ∃ r m', answer m q = Ret (r, m').
Proof.
  unfold answer. destruct (parse_query_total q) as [p ->]. cbn [mbind outcome_bind].
  destruct p as [[[id dom] kd]|]; [|eauto]. destruct (kd =? 1)%Z; [|eauto].
  destruct (resolve m dom). eauto.
Qed.

Lemma reachable_resolve m d : reachable m → reachable (snd (resolve m d)).
Proof.
  intros [ds ->]. exists (ds ++ [d]). generalize FakeDns.new.
  induction ds as [|e ds IH]; intros s; simpl; [by destruct (resolve s d)|].
  destruct (resolve s e) as [ip s1]. specialize (IH s1).
  destruct (resolve_all s1 ds), (resolve_all s1 (ds ++ [d])). exact IH.
Qed.

Lemma answer_reachable m q r m' : reachable m → answer m q = Ret (r, m') → reachable m'.
Proof.
  intros Hm. unfold answer. destruct (parse_query q) as [[[[id dom] kd]|]| |]; cbn [mbind outcome_bind];
    try done; [|by intros [= <- <-]].
  destruct (kd =? 1)%Z; [|by intros [= <- <-]].
  pose proof (reachable_resolve m dom Hm) as H. destruct (resolve m dom). by intros [= <- <-].
Qed.

Lemma length_split c s : length (concat (wire_label <$> split c s)) = length s + 1.
Proof.
  induction s as [|b s IH]; [done|]. cbn [split]. case_bool_decide.
  - cbn [fmap list_fmap concat wire_label length app]. rewrite IH. simpl. lia.
  - pose proof (split_nonempty c s). destruct (split c s) as [|l ls]; [done|].
    simpl in *. rewrite length_app in *. simpl. lia.
Qed.

Lemma length_encode_name buf dom : length (encode_name buf dom) ≤ length buf + length dom + 2.
Proof.
  unfold encode_name. rewrite length_app. case_bool_decide; simpl; [lia|].
  rewrite encode_fold, length_app, length_split. lia.
Qed.

Lemma length_empty_response id dom t : length (build_empty_response id dom t) ≤ length dom + 18.
Proof.
  unfold build_empty_response. rewrite !length_app, !length_be_bytes.
  match goal with |- context [encode_name ?p dom] => pose proof (length_encode_name p dom) as H end.
  rewrite !length_app, !length_be_bytes in H. lia.
Qed.

Lemma length_a_response id dom ip : length (build_a_response id dom ip) ≤ length dom + 36.
Proof.
  unfold build_a_response. pose proof (length_empty_response id dom 1).
  rewrite !length_app, !length_be_bytes, length_take, length_drop. cbn [length octets]. lia.
Qed.

Lemma answer_short m q resp m' : answer m q = Ret (Some resp, m') → length resp ≤ 289.
Proof.
  unfold answer. destruct (parse_query q) as [[[[id dom] kd]|]| |] eqn:Hq; cbn [mbind outcome_bind]; try done.
  apply parse_query_sound in Hq as (fl & qd & rest & labels & tail & _ & Hok & ->).
  pose proof (qo_len _ _ _ _ _ _ _ Hok). destruct (kd =? 1)%Z.
  - destruct (resolve m _) as [ip m1]. intros [= <- <-].
    pose proof (length_a_response id (join [x2e] labels) ip). lia.
  - intros [= <- <-]. pose proof (length_empty_response id (join [x2e] labels) kd). lia.
Qed.

(** *** The invariant of the servers *)

Record dns_ok (d : Dns) : Prop := {
  ok_inverse a l : forward (servers d) !! a = Some l ↔ reverse_ (servers d) !! l = Some a;
  ok_port a l : forward (servers d) !! a = Some l → is_dns a = true;
  ok_tasks l : l ∈ tasks d ↔ is_Some (reverse_ (servers d) !! l);
  ok_count : size (forward (servers d)) ≤ MAX_SERVERS ∧ length (tasks d) = size (forward (servers d));
  ok_table : reachable (resolver d);
}.

(** The calls on a [Dns], in any order. A bound socket lives as long as its
    task, so the kernel does not hand its address out again. *)
Inductive dns_step : Dns → Dns → Prop :=
| step_server d bound dest r d' :
    (∀ l, bound = Ok l → l ∉ tasks d) →
    server_for bound dest d = (r, d') → dns_step d d'
| step_answer d q r m :
    answer (resolver d) q = Ret (r, m) → dns_step d (mkDns m (servers d) (tasks d)).

Definition dns_reachable (d : Dns) : Prop :=
  ∃ bound d0, dns_new bound = Ok d0 ∧ rtc dns_step d0 d.

Lemma server_for_ok bound dest d r d' :
  (∀ l, bound = Ok l → l ∉ tasks d) →
  server_for bound dest d = (r, d') → dns_ok d → dns_ok d'.
Proof.
  intros Hfresh Hs Hok. unfold server_for in Hs. destruct (is_dns dest) eqn:Hp; simpl in Hs; [|by simplify_eq].
  destruct (forward (servers d) !! dest) as [l|] eqn:Hd; [by simplify_eq|].
  case_bool_decide as Hn; [by simplify_eq|]. destruct bound as [l|e]; simplify_eq/=; [|done].
  specialize (Hfresh l eq_refl). rewrite (ok_tasks _ Hok) in Hfresh.
  assert (Hl : reverse_ (servers d) !! l = None) by (by apply eq_None_not_Some).
  split; simpl.
  - intros a l'. rewrite !lookup_insert_Some, <-(ok_inverse _ Hok). split.
    + intros [[<- <-]|[Hne Ha]]; [by left|right]. split; [|done].
      intros ->. apply (ok_inverse _ Hok) in Ha. congruence.
    + intros [[<- <-]|[Hne Ha]]; [by left|right]. split; [|done]. intros <-. congruence.
  - intros a l' [[<- _]|[_ Ha]]%lookup_insert_Some; [done|]. by eapply (ok_port _ Hok).
  - intros l'. rewrite elem_of_app, list_elem_of_singleton, (ok_tasks _ Hok), lookup_insert_is_Some.
    destruct (decide (l = l')); naive_solver.
  - destruct (ok_count _ Hok) as [Hc Ht].
    rewrite map_size_insert_None, length_app by done. simpl. lia.
  - apply (ok_table _ Hok).
Qed.

Lemma dns_step_ok d d' : dns_step d d' → dns_ok d → dns_ok d'.
Proof.
  intros [? bound dest r d1 Hf Hs|? q r m Ha] Hok; [by eapply server_for_ok|].
  destruct Hok. split; try done. by eapply answer_reachable.
Qed.

Lemma dns_new_ok bound d : dns_new bound = Ok d → dns_ok d.
Proof.
  unfold dns_new. destruct (server_for _ _ _) as [[l|e] d'] eqn:Hs; [|done]. intros [= <-].
  eapply server_for_ok; [|exact Hs|].
  - intros ? _. apply not_elem_of_nil.
  - split; simpl; try (intros; rewrite ?lookup_empty; naive_solver).
    + intros l'. rewrite lookup_empty. split; [by intros ?%not_elem_of_nil|by intros [? ?]].
    + rewrite map_size_empty. unfold MAX_SERVERS. lia.
    + by exists [].
Qed.

Lemma dns_reachable_ok d : dns_reachable d → dns_ok d.
Proof.
  intros (bound & d0 & H0%dns_new_ok & Hr). induction Hr; eauto using dns_step_ok.
Qed.

(** *** The service loops *)

(** A run of queries against one table, replies in order. *)
Fixpoint answer_all (m : Resolver) (qs : list bytes) : outcome (list (option bytes) * Resolver) :=
  match qs with
  | [] => Ret ([], m)
  | q :: qs => '(r, m) ← answer m q; '(rs, m) ← answer_all m qs; Ret (r :: rs, m)
  end.

(** A message of RFC 1035, section 4.2.2. *)
Definition frame (bs : bytes) : bytes := be_bytes 2 (Z.of_nat (length bs)) ++ bs.

Lemma length_frame bs : length (frame bs) = S (S (length bs)).
Proof. unfold frame. by rewrite length_app, length_be_bytes. Qed.

Lemma on_sock_read bs s rest :
  incoming (tsock s) = bs ++ rest →
  ∃ k, on_sock (read_exact (length bs)) s = (Ok bs, mkTcp k (ttable s)) ∧ incoming k = rest ∧
       tx k = tx (tsock s) ∧ rx_end k = rx_end (tsock s) ∧ tx_limit k = tx_limit (tsock s).
Proof.
  intros Hi. unfold on_sock.
  destruct (read_exact_enough (length bs) (tsock s)) as (k & -> & Hk & Ht & He & Hl).
  { rewrite Hi, length_app. lia. }
  exists k. rewrite Hi, take_app_length. rewrite Hi, drop_app_length in Hk. done.
Qed.

Lemma exchange_one q s rest resp m :
  (Z.of_nat (length q) < 65536)%Z → tx_limit (tsock s) = None →
  incoming (tsock s) = frame q ++ rest → answer (ttable s) q = Ret (Some resp, m) →
  ∃ k, exchange s = (Ok true, mkTcp k m) ∧ incoming k = rest ∧ tx k = tx (tsock s) ++ frame resp ∧
       rx_end k = rx_end (tsock s) ∧ tx_limit k = None.
Proof.
  intros Hq Hlim Hi Ha. unfold frame in Hi. rewrite <-app_assoc in Hi. unfold exchange.
  destruct (on_sock_read _ s _ Hi) as (k1 & Hr1 & Hi1 & Ht1 & He1 & Hl1).
  rewrite length_be_bytes in Hr1. rewrite Hr1.
  rewrite be_value_bytes_small, Nat2Z.id by lia. rewrite M_bind_run.
  destruct (on_sock_read q (mkTcp k1 (ttable s)) rest Hi1) as (k2 & -> & Hi2 & Ht2 & He2 & Hl2).
  rewrite M_bind_run. unfold tanswer. cbn [ttable tsock]. rewrite Ha.
  rewrite M_bind_run. cbn [lift_result ok_or].
  pose proof (answer_short _ _ _ _ Ha).
  assert ((U16_MAX <? Z.of_nat (length resp))%Z = false) as -> by (apply Z.ltb_ge; unfold U16_MAX; lia).
  simpl in *. unfold mbind, M_bind, on_sock, write_all. simpl. rewrite Hl2, Hl1, Hlim. simpl.
  eexists. split; [done|]. simpl. split_and!; [done| |congruence|done].
  rewrite Ht2, Ht1. unfold frame. by rewrite app_assoc.
Qed.

Lemma exchange_eof s :
  incoming (tsock s) = [] → rx_end (tsock s) = None →
  ∃ k, exchange s = (Ok false, mkTcp k (ttable s)) ∧ tx k = tx (tsock s).
Proof.
  intros Hi He. unfold exchange, on_sock.
  destruct (read_exact_short 2 (tsock s)) as (k & -> & Ht); [rewrite Hi; simpl; lia|].
  rewrite He. exists k. done.
Qed.

Lemma serve_tcp_loop_all qs : ∀ fuel s resps m,
  length qs < fuel → tx_limit (tsock s) = None → rx_end (tsock s) = None →
  Forall (λ q, Z.of_nat (length q) < 65536)%Z qs → incoming (tsock s) = concat (frame <$> qs) →
  answer_all (ttable s) qs = Ret (Some <$> resps, m) →
  ∃ k, serve_tcp_loop fuel s = (Ok (Some ()), mkTcp k m) ∧
       tx k = tx (tsock s) ++ concat (frame <$> resps).
Proof.
  induction qs as [|q qs IH]; intros [|fuel] s resps m Hf Hlim He Hq Hi Ha; simpl in Hf; try lia;
    cbn [serve_tcp_loop]; rewrite M_bind_run.
  - destruct (exchange_eof s Hi He) as (k & -> & Ht). simpl in Ha.
    destruct resps; simplify_eq/=. exists k. by rewrite app_nil_r.
  - apply Forall_cons_1 in Hq as [Hq Hqs]. cbn [answer_all] in Ha.
    destruct (answer (ttable s) q) as [[r m1]| |] eqn:Hr; try done. cbn [mbind outcome_bind] in Ha.
    destruct (answer_all m1 qs) as [[rs m2]| |] eqn:Hrs; try done. cbn [mbind outcome_bind] in Ha.
    destruct resps as [|resp resps]; simplify_eq/=.
    destruct (exchange_one q s (concat (frame <$> qs)) resp m1 Hq Hlim Hi Hr)
      as (k & -> & Hi1 & Ht1 & He1 & Hl1).
    destruct (IH fuel (mkTcp k m1) resps m ltac:(lia) Hl1 ltac:(simpl; congruence) Hqs Hi1 Hrs)
      as (k2 & Hrun & Ht2).
    exists k2. split; [exact Hrun|]. rewrite Ht2. cbn [tsock]. rewrite Ht1, <-app_assoc. done.
Qed.

(** An exchange that goes on has taken a message off the stream. *)
Lemma exchange_progress s s' :
  exchange s = (Ok true, s') → length (incoming (tsock s')) < length (incoming (tsock s)).
Proof.
  unfold exchange, on_sock at 1. destruct (read_exact 2 (tsock s)) as [[p|e] k] eqn:Hr.
  2:{ case_bool_decide; congruence. }
  apply read_exact_ok in Hr as (Hi & Hl & _). rewrite Hi, length_app, Hl.
  intros (q & s1 & H1 & H)%M_bind_ok.
  unfold on_sock in H1. simpl in H1. destruct (read_exact _ k) as [[q'|] k1] eqn:Hr; simplify_eq/=.
  apply read_exact_ok in Hr as (Hi1 & _). rewrite Hi1, length_app.
  apply M_bind_ok in H as (r & s2 & H2 & H). unfold tanswer in H2. simpl in H2.
  destruct (answer (ttable s) q) as [[? ?]| |]; simplify_eq.
  apply M_bind_ok in H as (resp & s3 & H3 & H). unfold lift_result in H3. simplify_eq.
  destruct (U16_MAX <? _)%Z; [done|].
  apply M_bind_ok in H as (? & s4 & H4 & H). apply M_bind_ok in H as (? & s5 & H5 & H).
  unfold mret, M_ret in H. simplify_eq. unfold on_sock in *. simpl in *.
  destruct (write_all _ k1) as [? k2] eqn:Hw1. simplify_eq. simpl in *.
  destruct (write_all _ k2) as [? k3] eqn:Hw2. simplify_eq.
  apply write_all_prefix in Hw1 as (? & _ & E1). apply write_all_prefix in Hw2 as (? & _ & E2).
  unfold incoming in *. simpl. rewrite E2, E1. lia.
Qed.

Lemma serve_tcp_loop_fuel fuel : ∀ s,
  length (incoming (tsock s)) < fuel → fst (serve_tcp_loop fuel s) ≠ Ok None.
Proof.
  induction fuel as [|fuel IH]; intros s Hf; [lia|]. cbn [serve_tcp_loop]. rewrite M_bind_run.
  destruct (exchange s) as [[[|]|e] s'] eqn:E; [|done..].
  apply exchange_progress in E. apply IH. lia.
Qed.

(** ** Theorems *)

(** A connection to an address answered for a domain is routed to that domain, and
    asking again gives the same response without changing the table. *)
Lemma answered_domain_is_target (m m' : Resolver) (query resp dom : bytes) (id : Z) (port : Z) :
  reachable m →
  parse_query query = Ret (Some (id, dom, 1%Z)) →
  answer m query = Ret (Some resp, m') →
  ∃ ip, resp = build_a_response id dom ip ∧
        resolver_target m' (SockAddr ip port) = Ok (TDomain dom port) ∧
        answer m' query = Ret (Some resp, m').
Proof.
  intros Hm Hq Ha. unfold answer in *. rewrite Hq in *. simpl in *.
  pose proof (resolve_reversible m dom Hm) as H.
  destruct (resolve m dom) as [ip m1]. destruct H as (Hl & Hr & Hf). simplify_eq.
  exists ip. unfold resolver_target. cbn [sa_ip sa_port]. rewrite Hf, Hl, Hr. done.
Qed.

(** How every connected address is routed. *)
Lemma target_of_address (m : Resolver) (address : SocketAddrV4) :
  reachable m →
  match resolver_target m address with
  | Ok (TIp ip port) => ip = V4 (sa_ip address) ∧ port = sa_port address ∧ is_fake_ip (sa_ip address) = false
  | Ok (TDomain d port) => port = sa_port address ∧ domain_to_ip m !! d = Some (sa_ip address)
  | Err e => e = RawOs ENETUNREACH ∧ is_fake_ip (sa_ip address) = true ∧
             ∀ d, domain_to_ip m !! d ≠ Some (sa_ip address)
  end.
Proof.
  intros [h Hr]%reachable_refines. unfold resolver_target.
  destruct (is_fake_ip (sa_ip address)) eqn:Hf; [|done].
  destruct (lookup m (sa_ip address)) as [d|] eqn:E; simpl.
  - split; [done|]. by apply (ref_inverse _ _ Hr).
  - split_and!; [done..|]. intros d Hd%(ref_inverse _ _ Hr). unfold lookup in E. congruence.
Qed.

(** C31: In every reachable state of the DNS service the forward and reverse tables are
    inverse, no two resolvers share a local endpoint, exactly the registered endpoints are
    being served and there are at most 128 of them. *)
Theorem servers_invariant (d : Dns) (a b l : SocketAddrV4) :
  dns_reachable d →
  (forward (servers d) !! a = Some l ↔ original_server d l = Some a) ∧
  (forward (servers d) !! a = Some l → forward (servers d) !! b = Some l → a = b) ∧
  (l ∈ tasks d ↔ is_Some (original_server d l)) ∧
  length (tasks d) ≤ MAX_SERVERS ∧ reachable (resolver d).
Proof.
  intros Hok%dns_reachable_ok. pose proof (ok_count _ Hok) as [Hc Ht]. split_and!.
  - apply (ok_inverse _ Hok).
  - intros Ha%(ok_inverse _ Hok) Hb%(ok_inverse _ Hok). congruence.
  - apply (ok_tasks _ Hok).
  - lia.
  - apply (ok_table _ Hok).
Qed.

(** server_for registers a port-53 destination once and keeps all earlier
    registrations; it fails only for other ports, at the limit or when the bind fails, and
    then changes nothing. *)
Lemma server_for_behaviour (d d' : Dns) (bound : io SocketAddrV4) (dest : SocketAddrV4)
    (r : io SocketAddrV4) :
  dns_reachable d → (∀ l, bound = Ok l → l ∉ tasks d) →
  server_for bound dest d = (r, d') →
  match r with
  | Ok local => original_server d' local = Some dest ∧ sa_port dest = DNS_PORT ∧
                (∀ bound', server_for bound' dest d' = (Ok local, d')) ∧
                (∀ l a, original_server d l = Some a → original_server d' l = Some a)
  | Err e => d' = d ∧ (e = RawOs ENETUNREACH ∧ sa_port dest ≠ DNS_PORT ∨
                       e = RawOs ENOBUFS ∧ size (forward (servers d)) = MAX_SERVERS ∨ bound = Err e)
  end.
Proof.
  intros Hok%dns_reachable_ok Hfresh Hs. pose proof (server_for_ok _ _ _ _ _ Hfresh Hs Hok) as Hok'.
  pose proof (ok_count _ Hok) as [Hc _]. unfold server_for in Hs. unfold is_dns in Hs.
  destruct (sa_port dest =? DNS_PORT)%Z eqn:Hp; simplify_eq/=.
  2:{ apply Z.eqb_neq in Hp. eauto. }
  assert (Hidem : ∀ local bound', forward (servers d') !! dest = Some local →
                                  server_for bound' dest d' = (Ok local, d')).
  { intros local bound' Hf. unfold server_for, is_dns. by rewrite Hp, Hf. }
  apply Z.eqb_eq in Hp. destruct (forward (servers d) !! dest) as [l|] eqn:Hd.
  - simplify_eq. split_and!; [by apply (ok_inverse _ Hok)|done|by intros; apply Hidem|done].
  - case_bool_decide as Hn; simplify_eq; [split; [done|right; left; split; [done|lia]]|].
    destruct bound as [l|e]; simplify_eq; [|eauto]. specialize (Hfresh l eq_refl).
    split_and!; [by apply lookup_insert_Some; left|done|..].
    + intros bound'. apply Hidem. by apply lookup_insert_Some; left.
    + intros l' a Hl'. apply lookup_insert_Some. right. split; [|done].
      intros ->. apply Hfresh. apply (ok_tasks _ Hok). eauto.
Qed.

(** C26: The TCP service answers a stream of framed queries, however it is cut into chunks,
    with the framed responses in order, then ends without error. *)
Theorem tcp_answers_in_order (s : tcp_state) (queries resps : list bytes) (m : Resolver) :
  tx_limit (tsock s) = None → rx_end (tsock s) = None →
  Forall (λ q, Z.of_nat (length q) < 65536)%Z queries →
  incoming (tsock s) = concat (frame <$> queries) →
  answer_all (ttable s) queries = Ret (Some <$> resps, m) →
  ∃ k, serve_tcp s = (Ok (Some ()), mkTcp k m) ∧ tx k = tx (tsock s) ++ concat (frame <$> resps).
Proof.
  intros Hl He Hq Hi Ha. apply serve_tcp_loop_all with queries; try done.
  rewrite Hi. clear. induction queries as [|q qs IH]; [simpl; lia|].
  cbn [fmap list_fmap concat length]. rewrite length_app, length_frame. simpl in IH. lia.
Qed.

(** The service loop ends on every script. *)
Lemma tcp_service_terminates (s : tcp_state) : fst (serve_tcp s) ≠ Ok None.
Proof. apply serve_tcp_loop_fuel. lia. Qed.

(** The datagrams a UDP service handles: up to the first fatal error. *)
Fixpoint handled (events : list (io (bytes * SocketAddrV4))) : list (bytes * SocketAddrV4) :=
  match events with
  | [] => []
  | Ok p :: events => p :: handled events
  | Err e :: events => if bool_decide (raw_os_error e ∈ [Some ENOMEM; Some ENOBUFS]) then handled events else []
  end.

Definition replies (rs : list (option bytes)) (to : list SocketAddrV4) : list (bytes * SocketAddrV4) :=
  omap (λ '(r, a), (λ x, (x, a)) <$> r) (zip rs to).

(** The UDP service answers each received datagram to its own sender, in order, from
    the table left by the earlier ones, and goes on after a shortage of memory or buffers. *)
Lemma udp_replies_to_sender (events : list (io (bytes * SocketAddrV4))) (m : Resolver) :
  ∃ rs m' stopped,
    serve_udp events m = Ret (replies rs (snd <$> handled events), m', stopped) ∧
    answer_all m ((λ p, take UDP_BUFFER (fst p)) <$> handled events) = Ret (rs, m').
Proof.
  revert m. induction events as [|[[p src]|e] events IH]; intros m; cbn [serve_udp handled].
  - by exists [], m, None.
  - destruct (answer_returns m (take UDP_BUFFER p)) as (r & m1 & Ha).
    destruct (IH m1) as (rs & m' & st & Hu & Hr). cbn [fmap list_fmap answer_all fst snd].
    rewrite Ha. cbn [mbind outcome_bind]. rewrite Hu, Hr. cbn [mbind outcome_bind].
    exists (r :: rs), m', st. split; [|done]. by destruct r.
  - unfold ENOMEM, ENOBUFS. rewrite <-bool_decide_or.
    rewrite (bool_decide_ext _ (raw_os_error e ∈ [Some 12; Some 105]%Z))
      by (rewrite elem_of_cons, list_elem_of_singleton; done).
    case_bool_decide; [apply IH|]. by exists [], m, (Some e).
Qed.

(** ** Examples *)

(** An A query for the name [a]. *)
Definition query_example : bytes :=
  query_packet 7 0x100 1 (replicate 6 x00) [lit "a"] 1 (be_bytes 2 1).

(** The table after it, and the address it got. *)
Definition table_example : Resolver := snd (resolve FakeDns.new (lit "a")).
Definition address_example : Ipv4Addr := fst (resolve FakeDns.new (lit "a")).
Definition reply_example : bytes := build_a_response 7 (lit "a") address_example.

Lemma reachable_new : reachable FakeDns.new.
Proof. by exists []. Qed.

Lemma query_example_parses : parse_query query_example = Ret (Some (7, lit "a", 1)%Z).
Proof. by vm_compute. Qed.

Lemma answer_example m :
  answer m query_example
    = Ret (Some (build_a_response 7 (lit "a") (fst (resolve m (lit "a")))), snd (resolve m (lit "a"))).
Proof.
  unfold answer. rewrite query_example_parses. cbn [mbind outcome_bind]. simpl Z.eqb. cbv iota.
  by destruct (resolve m (lit "a")).
Qed.

Lemma answer_again : answer table_example query_example = Ret (Some reply_example, table_example).
Proof.
  rewrite answer_example. pose proof (resolve_reversible _ (lit "a") reachable_new) as H.
  unfold table_example, reply_example, address_example.
  destruct (resolve FakeDns.new (lit "a")) as [ip s']. destruct H as (_ & H & _). simpl. by rewrite H.
Qed.

Definition local_example : SocketAddrV4 := SockAddr (ipv4 127 0 0 1) 4000.
Definition dns_example : Dns :=
  mkDns FakeDns.new
    (mkServers (<[virtual_address := local_example]> ∅) (<[local_example := virtual_address]> ∅))
    [local_example].

Lemma dns_example_new : dns_new (Ok local_example) = Ok dns_example.
Proof. unfold dns_new, server_for. simpl. by rewrite lookup_empty, map_size_empty. Qed.

Lemma dns_example_reachable : dns_reachable dns_example.
Proof.
  exists (Ok local_example), dns_example. split; [exact dns_example_new|apply rtc_refl].
Qed.

Lemma servers_invariant_witness :
  dns_reachable dns_example ∧ original_server dns_example local_example = Some virtual_address.
Proof.
  split; [exact dns_example_reachable|].
  apply (servers_invariant dns_example virtual_address virtual_address local_example dns_example_reachable).
  apply lookup_insert_eq.
Defined.

Lemma server_for_behaviour_witness :
  let dest := SockAddr (ipv4 8 8 8 8) 53 in
  let local := SockAddr (ipv4 127 0 0 1) 4001 in
  ∃ d', server_for (Ok local) dest dns_example = (Ok local, d') ∧
        original_server d' local = Some dest ∧ original_server d' local_example = Some virtual_address.
Proof.
  intros dest local.
  assert (Hf : ∀ l, (Ok local : io SocketAddrV4) = Ok l → l ∉ tasks dns_example).
  { intros l [= <-]. by apply (bool_decide_unpack (local ∉ [local_example])). }
  destruct (server_for (Ok local) dest dns_example) as [r d'] eqn:E.
  pose proof (server_for_behaviour _ _ _ _ _ dns_example_reachable Hf E) as H.
  assert (r = Ok local) as ->.
  { unfold server_for in E. simpl in E. rewrite lookup_insert_ne, lookup_empty in E by discriminate.
    rewrite map_size_insert_None, map_size_empty in E by apply lookup_empty. by injection E. }
  destruct H as (H1 & _ & _ & H2). exists d'. split; [reflexivity|]. split; [exact H1|].
  apply H2. apply lookup_insert_eq.
Defined.

Lemma tcp_answers_in_order_witness :
  let s := mkTcp (mkSock [frame query_example; frame query_example] None [] None) FakeDns.new in
  ∃ k, serve_tcp s = (Ok (Some ()), mkTcp k table_example) ∧ tx k = frame reply_example ++ frame reply_example.
Proof.
  intros s.
  destruct (tcp_answers_in_order s [query_example; query_example] [reply_example; reply_example] table_example)
    as (k & Hr & Ht).
  - reflexivity.
  - reflexivity.
  - repeat constructor; vm_compute; reflexivity.
  - reflexivity.
  - cbn [answer_all ttable s]. rewrite answer_example. cbn [mbind outcome_bind].
    fold table_example. rewrite answer_again. reflexivity.
  - exists k. split; [exact Hr|]. rewrite Ht. cbn [fmap list_fmap concat]. by rewrite app_nil_r.
Defined.
