(* ===== verification/Seccomp.v ===== *)
(** * The seccomp filter and its notification protocol: src/broker/seccomp.rs

    [filter] is the classic BPF program, built block by block as the code
    builds its vector, for either target architecture. [evaluate] runs it the
    way the kernel (and the evaluator in the file's tests) does; [decision] is
    the table the program is meant to implement. The rest of the file is the
    ioctl protocol, with the kernel's results as arguments. *)
From S2P Require Import Prelude RustStd Stream.

(** ** Constants *)

Definition SECCOMP_RET_KILL_PROCESS : Z := 0x80000000.
Definition SECCOMP_RET_ERRNO : Z := 0x00050000.
Definition SECCOMP_RET_USER_NOTIF : Z := 0x7fc00000.
Definition SECCOMP_RET_ALLOW : Z := 0x7fff0000.
Definition SECCOMP_USER_NOTIF_FLAG_CONTINUE : Z := 1.

(** [target_arch]: the two the code compiles for. *)
Inductive target_arch := x86_64 | aarch64.

Definition NATIVE_ARCH (a : target_arch) : Z :=
  match a with x86_64 => 0xc000003e | aarch64 => 0xc00000b7 end.

(** libc's syscall numbers for the calls the broker knows. *)
Inductive syscall :=
| SYS_open | SYS_openat | SYS_openat2 | SYS_socket | SYS_connect | SYS_getpeername
| SYS_getsockopt | SYS_sendto | SYS_recvfrom | SYS_sendmsg | SYS_sendmmsg | SYS_recvmsg
| SYS_recvmmsg | SYS_io_uring_setup | SYS_io_uring_enter | SYS_io_uring_register.

#[export] Instance syscall_eq_dec : EqDecision syscall.
Proof. solve_decision. Defined.

(** [None]: the architecture has no such call. *)
Definition number (a : target_arch) (c : syscall) : option Z :=
  match a, c with
  | x86_64, SYS_open => Some 2 | aarch64, SYS_open => None
  | x86_64, SYS_openat => Some 257 | aarch64, SYS_openat => Some 56
  | _, SYS_openat2 => Some 437
  | x86_64, SYS_socket => Some 41 | aarch64, SYS_socket => Some 198
  | x86_64, SYS_connect => Some 42 | aarch64, SYS_connect => Some 203
  | x86_64, SYS_getpeername => Some 52 | aarch64, SYS_getpeername => Some 205
  | x86_64, SYS_getsockopt => Some 55 | aarch64, SYS_getsockopt => Some 209
  | x86_64, SYS_sendto => Some 44 | aarch64, SYS_sendto => Some 206
  | x86_64, SYS_recvfrom => Some 45 | aarch64, SYS_recvfrom => Some 207
  | x86_64, SYS_sendmsg => Some 46 | aarch64, SYS_sendmsg => Some 211
  | x86_64, SYS_sendmmsg => Some 307 | aarch64, SYS_sendmmsg => Some 269
  | x86_64, SYS_recvmsg => Some 47 | aarch64, SYS_recvmsg => Some 212
  | x86_64, SYS_recvmmsg => Some 299 | aarch64, SYS_recvmmsg => Some 243
  | _, SYS_io_uring_setup => Some 425
  | _, SYS_io_uring_enter => Some 426
  | _, SYS_io_uring_register => Some 427
  end%Z.

Definition numbers (a : target_arch) (cs : list syscall) : list Z := omap (number a) cs.

Definition SOL_SOCKET : Z := 1.
Definition SO_PEERNAME : Z := 28.
Definition MSG_OOB : Z := 1.
Definition MSG_FASTOPEN : Z := 0x20000000.
Definition O_CLOEXEC : Z := 0x80000.

(** ** The notification structures *)

Record Data := mkData { nr : Z; arch : Z; instruction_pointer : Z; args : list Z }.

Record Notification := mkNotification { nid : Z; npid : Z; nflags : Z; ndata : Data }.

Record Response := mkResponse { rid : Z; rval : Z; rerror : Z; rflags : Z }.

Record AddFd := mkAddFd { aid : Z; aflags : Z; srcfd : Z; newfd : Z; newfd_flags : Z }.

(** The memory image of a [#[repr(C)]] [Data]. *)
Definition data_bytes (d : Data) : bytes :=
  le_bytes 4 (nr d) ++ le_bytes 4 (arch d) ++ le_bytes 8 (instruction_pointer d)
    ++ concat (le_bytes 8 <$> args d).

Definition OFFSET_NR : Z := 0.
Definition OFFSET_ARCH : Z := 4.
Definition OFFSET_ARGS : Z := 16.
Definition SIZE_DATA : Z := 64.
Definition SIZE_NOTIFICATION : Z := 80.
Definition SIZE_RESPONSE : Z := 24.
Definition SIZE_ADDFD : Z := 24.

Definition ioctl_request (direction number size : Z) : Z :=
  Z.lor (Z.lor (Z.lor (Z.shiftl direction 30) (Z.shiftl size 16)) (Z.shiftl 33 8)) number.

Definition NOTIF_RECV : Z := ioctl_request 3 0 SIZE_NOTIFICATION.
Definition NOTIF_SEND : Z := ioctl_request 3 1 SIZE_RESPONSE.
Definition NOTIF_ID_VALID : Z := ioctl_request 1 2 8.
Definition NOTIF_ADDFD : Z := ioctl_request 1 3 SIZE_ADDFD.

(** ** The filter *)

Record sock_filter := mkInsn { code : Z; jt : nat; jf : nat; k : Z }.

Definition LOAD : Z := 0x20.
Definition JEQ : Z := 0x15.
Definition JSET : Z := 0x45.
Definition RET : Z := 0x06.

Definition statement (code k : Z) : sock_filter := mkInsn code 0 0 k.
Definition jump (code k : Z) (jt jf : nat) : sock_filter := mkInsn code jt jf k.

Definition ERRNO_ENOSYS : Z := Z.lor SECCOMP_RET_ERRNO ENOSYS.

Definition io_uring_calls : list syscall := [SYS_io_uring_setup; SYS_io_uring_enter; SYS_io_uring_register].

Definition address_io : list (syscall * Z) :=
  [(SYS_sendto, Z.lor MSG_OOB MSG_FASTOPEN); (SYS_recvfrom, MSG_OOB)].

Definition notified_calls : list syscall :=
  [SYS_open; SYS_openat; SYS_openat2; SYS_socket; SYS_connect; SYS_getpeername;
   SYS_sendmsg; SYS_sendmmsg; SYS_recvmsg; SYS_recvmmsg].

(** Two instructions per call: return [v] on a match. *)
Definition return_block (v : Z) (call : Z) : list sock_filter :=
  [jump JEQ call 0 1; statement RET v].

Definition prologue (a : target_arch) : list sock_filter :=
  [statement LOAD OFFSET_ARCH;
   jump JEQ (NATIVE_ARCH a) 1 0;
   statement RET SECCOMP_RET_KILL_PROCESS;
   statement LOAD OFFSET_NR;
   jump JSET 0x40000000 0 1;
   statement RET ERRNO_ENOSYS].

Definition getsockopt_block (call : Z) : list sock_filter :=
  [jump JEQ call 0 6;
   statement LOAD (OFFSET_ARGS + 8);
   jump JEQ SOL_SOCKET 0 3;
   statement LOAD (OFFSET_ARGS + 16);
   jump JEQ SO_PEERNAME 0 1;
   statement RET SECCOMP_RET_USER_NOTIF;
   statement RET SECCOMP_RET_ALLOW].

Definition address_block (flags call : Z) : list sock_filter :=
  [jump JEQ call 0 8;
   statement LOAD (OFFSET_ARGS + 3 * 8);
   jump JSET flags 5 0;
   statement LOAD (OFFSET_ARGS + 4 * 8);
   jump JEQ 0 0 3;
   statement LOAD (OFFSET_ARGS + 4 * 8 + 4);
   jump JEQ 0 0 1;
   statement RET SECCOMP_RET_ALLOW;
   statement RET SECCOMP_RET_USER_NOTIF].

Definition filter (a : target_arch) : list sock_filter :=
  prologue a
    ++ concat (return_block ERRNO_ENOSYS <$> numbers a io_uring_calls)
    ++ concat (getsockopt_block <$> numbers a [SYS_getsockopt])
    ++ concat ((λ '(c, flags), concat (address_block flags <$> numbers a [c])) <$> address_io)
    ++ concat (return_block SECCOMP_RET_USER_NOTIF <$> numbers a notified_calls)
    ++ [statement RET SECCOMP_RET_ALLOW].

(** ** Classic BPF on a [seccomp_data]

    A 32-bit load from the image, the two jumps and the return: the program
    has no other instruction. *)
Definition load (d : Data) (off : Z) : Z :=
  le_value (take 4 (drop (Z.to_nat off) (data_bytes d))).

Fixpoint evaluate_loop (fuel : nat) (instructions : list sock_filter) (d : Data) (pc : nat)
    (accumulator : Z) : outcome Z :=
  match fuel with
  | O => OutOfFuel
  | S fuel =>
      i ← idx instructions pc;
      if (code i =? LOAD)%Z then evaluate_loop fuel instructions d (pc + 1) (load d (k i))
      else if (code i =? JEQ)%Z then
        evaluate_loop fuel instructions d
          (pc + (if (accumulator =? k i)%Z then jt i else jf i) + 1) accumulator
      else if (code i =? JSET)%Z then
        evaluate_loop fuel instructions d
          (pc + (if negb (Z.land accumulator (k i) =? 0)%Z then jt i else jf i) + 1) accumulator
      else if (code i =? RET)%Z then Ret (k i)
      else Panic
  end.

(** Jumps only go forward: as many rounds as instructions. *)
Definition evaluate (instructions : list sock_filter) (d : Data) : outcome Z :=
  evaluate_loop (S (length instructions)) instructions d 0 0.

(** What the kernel demands of a filter before it installs it: jumps and
    loads in range, and a return at the end. *)
Definition insn_ok (len pc : nat) (i : sock_filter) : bool :=
  if (code i =? LOAD)%Z then ((k i mod 4 =? 0) && (0 <=? k i) && (k i <? SIZE_DATA))%Z
  else if (code i =? JEQ)%Z || (code i =? JSET)%Z
  then bool_decide (pc + jt i + 1 < len) && bool_decide (pc + jf i + 1 < len)
       && bool_decide (jt i < 256) && bool_decide (jf i < 256)
  else (code i =? RET)%Z.

Definition BPF_MAXINSNS : nat := N.to_nat 4096.

Definition filter_valid (f : list sock_filter) : bool :=
  bool_decide (0 < length f) && bool_decide (length f ≤ BPF_MAXINSNS)
  && forallb (λ '(pc, i), insn_ok (length f) pc i) (imap pair f)
  && match f !! (length f - 1) with Some i => (code i =? RET)%Z | None => false end.

(** ** The notification protocol

    The kernel's answer to an ioctl or system call is an argument. *)

Definition addfd_send (ioctl : Z → AddFd → io ()) (id source : Z) (cloexec : bool) : io () :=
  ioctl NOTIF_ADDFD (mkAddFd id 2 (source mod 2 ^ 32) 0 (if cloexec then O_CLOEXEC else 0)).

(** ENOENT for an impossible notification: the kernel knows ADDFD_SEND. *)
Definition probe_addfd (ioctl : Z → AddFd → io ()) (source : Z) : io () :=
  match addfd_send ioctl U64_MAX source true with
  | Err error => if bool_decide (raw_os_error error = Some ENOENT) then Ok () else Err error
  | Ok _ => Err (Simple OtherKind)
  end.

Definition is_open (a : target_arch) (call : Z) : bool :=
  (match a with x86_64 => bool_decide (number a SYS_open = Some call) | aarch64 => false end)
  || bool_decide (number a SYS_openat = Some call) || bool_decide (number a SYS_openat2 = Some call).

Definition has_sys_admin (capget : io Z) : io bool :=
  effective ← capget;
  Ok (negb (Z.land effective (Z.shiftl 1 21) =? 0)%Z).

(** The calls [install] makes, in order. *)
Inductive kernel_call :=
| GetNotifSizes
| Capget
| SetNoNewPrivs
| SetModeFilter (program : list sock_filter).

Record install_env := mkEnv {
  env_sizes : io (Z * Z * Z);
  env_capget : io Z;
  env_no_new_privs : io ();
  env_set_filter : list sock_filter → io Z;
}.

Definition call {A} (c : kernel_call) (r : io A) : M (list kernel_call) io_error A :=
  λ log, (r, log ++ [c]).

Definition install (a : target_arch) (env : install_env) : M (list kernel_call) io_error Z :=
  sizes ← call GetNotifSizes (env_sizes env);
  let '(notification, response, data) := sizes in
  if (SIZE_NOTIFICATION <? notification)%Z || (SIZE_RESPONSE <? response)%Z || (SIZE_DATA <? data)%Z
  then mfail (Simple Unsupported) else
  admin ← call Capget (has_sys_admin (env_capget env));
  _ ← (if negb admin then call SetNoNewPrivs (env_no_new_privs env) else mret ());
  let instructions := filter a in
  call (SetModeFilter instructions) (env_set_filter env instructions).

Definition receive (ioctl : Z → io Notification) : io Notification := ioctl NOTIF_RECV.

(** The response [respond] sends. *)
Definition response_of (id val error : Z) (continue_syscall : bool) : io Response :=
  if continue_syscall && (negb (val =? 0)%Z || negb (error =? 0)%Z) then Err (Simple InvalidInput)
  else Ok (mkResponse id val (if (0 <? error)%Z then - error else error)
             (if continue_syscall then SECCOMP_USER_NOTIF_FLAG_CONTINUE else 0)).

Definition respond (ioctl : Z → Response → io ()) (id val error : Z) (continue_syscall : bool) : io () :=
  response ← response_of id val error continue_syscall;
  ioctl NOTIF_SEND response.

Definition valid (ioctl : Z → Z → io ()) (id : Z) : io bool :=
  match ioctl NOTIF_ID_VALID id with
  | Ok _ => Ok true
  | Err error => if bool_decide (raw_os_error error = Some ENOENT) then Ok false else Err error
  end.

(** ** The decision table *)

Definition low32 (z : Z) : Z := (z mod 2 ^ 32)%Z.

Definition arg (d : Data) (i : nat) : Z := nth i (args d) 0%Z.

Definition is_call (a : target_arch) (d : Data) (c : syscall) : bool :=
  bool_decide (number a c = Some (low32 (nr d))).

Definition notify_if (b : bool) : Z := if b then SECCOMP_RET_USER_NOTIF else SECCOMP_RET_ALLOW.

Definition decision (a : target_arch) (d : Data) : Z :=
  if negb (arch d =? NATIVE_ARCH a)%Z then SECCOMP_RET_KILL_PROCESS
  else if Z.testbit (nr d) 30 then ERRNO_ENOSYS
  else if existsb (is_call a d) [SYS_io_uring_setup; SYS_io_uring_enter; SYS_io_uring_register] then ERRNO_ENOSYS
  else if is_call a d SYS_getsockopt
  then notify_if ((low32 (arg d 1) =? SOL_SOCKET) && (low32 (arg d 2) =? SO_PEERNAME))%Z
  else if is_call a d SYS_sendto
  then notify_if (Z.testbit (arg d 3) 0 || Z.testbit (arg d 3) 29 || negb (arg d 4 =? 0)%Z)
  else if is_call a d SYS_recvfrom
  then notify_if (Z.testbit (arg d 3) 0 || negb (arg d 4 =? 0)%Z)
  else notify_if (existsb (is_call a d)
    [SYS_open; SYS_openat; SYS_openat2; SYS_socket; SYS_connect; SYS_getpeername;
     SYS_sendmsg; SYS_sendmmsg; SYS_recvmsg; SYS_recvmmsg]).

(** What the kernel fills in. *)
Record data_ok (d : Data) : Prop := {
  do_arch : (0 ≤ arch d < 2 ^ 32)%Z;
  do_len : length (args d) = 6;
  do_args : Forall (λ z, 0 ≤ z < 2 ^ 64)%Z (args d);
}.

(** ** Lemmas *)

(** The same run on the rest of the program: [skip] instructions are jumped over. *)
Fixpoint exec (p : list sock_filter) (d : Data) (skip : nat) (acc : Z) : outcome Z :=
  match p with
  | [] => Panic
  | i :: p =>
      match skip with
      | S n => exec p d n acc
      | O => if (code i =? LOAD)%Z then exec p d 0 (load d (k i))
             else if (code i =? JEQ)%Z then exec p d (if (acc =? k i)%Z then jt i else jf i) acc
             else if (code i =? JSET)%Z
             then exec p d (if negb (Z.land acc (k i) =? 0)%Z then jt i else jf i) acc
             else if (code i =? RET)%Z then Ret (k i)
             else Panic
      end
  end.

Lemma exec_skip p d n acc : exec p d n acc = exec (drop n p) d 0 acc.
Proof. revert n. induction p as [|i p IH]; intros [|n]; simpl; done. Qed.

(** Enough fuel: one round per instruction still ahead. *)
Lemma evaluate_exec fuel p d : ∀ pc acc,
  length p < pc + fuel → evaluate_loop fuel p d pc acc = exec (drop pc p) d 0 acc ∨ fuel = 0.
Proof.
  induction fuel as [|fuel IH]; intros pc acc Hf; [by right|left]. cbn [evaluate_loop].
  unfold idx. destruct (p !! pc) as [i|] eqn:Hi.
  - rewrite (drop_S _ _ _ Hi). cbn [mbind outcome_bind exec].
    assert (Hj : ∀ j acc', evaluate_loop fuel p d (pc + j + 1) acc' = exec (drop (S pc) p) d j acc').
    { intros j acc'. rewrite exec_skip, drop_drop. replace (S pc + j) with (pc + j + 1) by lia.
      destruct fuel as [|fuel'].
      - apply lookup_lt_Some in Hi. lia.
      - by destruct (IH (pc + j + 1) acc') as [|]; [lia| |]. }
    pose proof (Hj 0) as H0. rewrite Nat.add_0_r in H0. by rewrite H0, !Hj.
  - apply lookup_ge_None in Hi. rewrite drop_ge by done. done.
Qed.

Lemma evaluate_run p d : evaluate p d = exec p d 0 0.
Proof.
  unfold evaluate. by destruct (evaluate_exec (S (length p)) p d 0 0) as [H|]; [lia|rewrite H, drop_0|].
Qed.

(** One lemma per block: the accumulator still holds the call number after it. *)
Lemma exec_return v c p d acc :
  exec (return_block v c ++ p) d 0 acc = if (acc =? c)%Z then Ret v else exec p d 0 acc.
Proof. simpl. by destruct (acc =? c)%Z. Qed.

Lemma exec_returns v cs p d acc :
  exec (concat (return_block v <$> cs) ++ p) d 0 acc
    = if existsb (Z.eqb acc) cs then Ret v else exec p d 0 acc.
Proof.
  induction cs as [|c cs IH]; [done|]. cbn [fmap list_fmap concat existsb].
  rewrite <-app_assoc, exec_return, IH. by destruct (acc =? c)%Z.
Qed.

Lemma exec_getsockopt c p d acc :
  exec (getsockopt_block c ++ p) d 0 acc
    = if (acc =? c)%Z
      then Ret (notify_if ((load d (OFFSET_ARGS + 8) =? SOL_SOCKET)
                           && (load d (OFFSET_ARGS + 16) =? SO_PEERNAME))%Z)
      else exec p d 0 acc.
Proof.
  cbn -[load OFFSET_ARGS]. destruct (acc =? c)%Z; [|done].
  destruct (load d _ =? SOL_SOCKET)%Z; [|done]. by destruct (load d _ =? SO_PEERNAME)%Z.
Qed.

Lemma exec_address flags c p d acc :
  exec (address_block flags c ++ p) d 0 acc
    = if (acc =? c)%Z
      then Ret (notify_if (negb (Z.land (load d (OFFSET_ARGS + 24)) flags =? 0)%Z
                           || negb (load d (OFFSET_ARGS + 32) =? 0)%Z
                           || negb (load d (OFFSET_ARGS + 36) =? 0)%Z))
      else exec p d 0 acc.
Proof.
  cbn -[load OFFSET_ARGS Z.land]. destruct (acc =? c)%Z; [|done].
  destruct (Z.land _ flags =? 0)%Z; [|done].
  change (OFFSET_ARGS + 4 * 8)%Z with (OFFSET_ARGS + 32)%Z.
  destruct (load d (OFFSET_ARGS + 32) =? 0)%Z; [|done].
  change (OFFSET_ARGS + 32 + 4)%Z with (OFFSET_ARGS + 36)%Z.
  by destruct (load d (OFFSET_ARGS + 36) =? 0)%Z.
Qed.

(** *** What the loads see *)

Lemma le_value_take n m z : n ≤ m → le_value (take n (le_bytes m z)) = (z mod 256 ^ Z.of_nat n)%Z.
Proof.
  revert m z. induction n as [|n IH]; intros [|m] z Hn; try lia; cbn [take le_value le_bytes].
  - by rewrite Z.mod_1_r.
  - by rewrite Z.mod_1_r.
  - rewrite IH, b2z_z2b, Nat2Z.inj_succ, Z.pow_succ_r by lia.
    rewrite (Z.rem_mul_r z 256) by lia. lia.
Qed.

Lemma drop_le_bytes n m z : drop n (le_bytes (n + m) z) = le_bytes m (z / 256 ^ Z.of_nat n)%Z.
Proof.
  revert z. induction n as [|n IH]; intros z; cbn [Nat.add le_bytes drop].
  - by rewrite drop_0, Z.div_1_r.
  - rewrite IH, Nat2Z.inj_succ, Z.pow_succ_r, Z.div_div by lia. done.
Qed.

(** A word [word] somewhere in an image, read at byte [sub] of it. *)
Lemma load_word pre post word sub n :
  sub + 4 ≤ n →
  le_value (take 4 (drop (length pre + sub) (pre ++ le_bytes n word ++ post)))
    = low32 (word / 256 ^ Z.of_nat sub)%Z.
Proof.
  intros Hn. rewrite <-drop_drop, drop_app_length.
  rewrite drop_app_le, take_app_le by (rewrite ?length_drop, length_le_bytes; lia).
  replace n with (sub + (n - sub)) by lia. rewrite drop_le_bytes.
  rewrite le_value_take by lia. done.
Qed.

Lemma load_nr d : load d OFFSET_NR = low32 (nr d).
Proof. exact (eq_trans (load_word [] _ (nr d) 0 4 ltac:(lia)) (f_equal low32 (Z.div_1_r _))). Qed.

Lemma load_arch d : (0 ≤ arch d < 2 ^ 32)%Z → load d OFFSET_ARCH = arch d.
Proof.
  intros Ha. unfold load, data_bytes.
  pose proof (load_word (le_bytes 4 (nr d))
    (le_bytes 8 (instruction_pointer d) ++ concat (le_bytes 8 <$> args d)) (arch d) 0 4) as H.
  rewrite length_le_bytes in H. change (Z.to_nat OFFSET_ARCH) with (4 + 0).
  rewrite H by lia. rewrite Z.div_1_r. by apply Z.mod_small.
Qed.

Lemma length_concat_args (l : list Z) : length (concat (le_bytes 8 <$> l)) = 8 * length l.
Proof. induction l as [|z l IH]; [done|]. cbn [fmap list_fmap concat]. rewrite length_app, IH. simpl. lia. Qed.

Lemma load_arg d i sub :
  i < length (args d) → sub + 4 ≤ 8 →
  load d (OFFSET_ARGS + Z.of_nat (8 * i + sub)) = low32 (arg d i / 256 ^ Z.of_nat sub)%Z.
Proof.
  intros Hi Hs. unfold load, data_bytes, arg.
  destruct (nth_split (args d) 0%Z Hi) as (l1 & l2 & Hl & Hl1).
  rewrite Hl at 1. rewrite fmap_app, concat_app. cbn [fmap list_fmap concat].
  rewrite !app_assoc. rewrite <-app_assoc.
  match goal with |- context [drop ?n (?p ++ le_bytes 8 ?w ++ ?q)] =>
    replace n with (length p + sub);
      [|rewrite !length_app, !length_le_bytes, length_concat_args, Hl1; unfold OFFSET_ARGS; lia] end.
  by rewrite load_word by lia.
Qed.

(** *** Bit tests *)

Lemma jset_bit x n : (0 ≤ n)%Z → negb (Z.land x (2 ^ n) =? 0)%Z = Z.testbit x n.
Proof.
  intros Hn. destruct (Z.testbit x n) eqn:E.
  - apply negb_true_iff, Z.eqb_neq. intros H.
    assert (Z.testbit (Z.land x (2 ^ n)) n = false) as Hb by (rewrite H; apply Z.testbit_0_l).
    rewrite Z.land_spec, E, Z.pow2_bits_true in Hb by lia. done.
  - apply negb_false_iff, Z.eqb_eq, Z.bits_inj_0. intros m. rewrite Z.land_spec.
    destruct (decide (m = n)) as [->|]; [by rewrite E|].
    rewrite Z.pow2_bits_false by done. apply andb_false_r.
Qed.

Lemma jset_lor x p q :
  negb (Z.land x (Z.lor p q) =? 0)%Z = negb (Z.land x p =? 0)%Z || negb (Z.land x q =? 0)%Z.
Proof.
  rewrite Z.land_lor_distr_r. apply eq_bool_prop_intro.
  rewrite orb_True, !negb_True, !Is_true_true, !Z.eqb_eq, Z.lor_eq_0_iff.
  destruct (decide (Z.land x p = 0)%Z); tauto.
Qed.

Lemma low32_bit x n : (0 ≤ n < 32)%Z → Z.testbit (low32 x) n = Z.testbit x n.
Proof. intros. apply Z.mod_pow2_bits_low. lia. Qed.

Lemma halves_zero x :
  (0 ≤ x < 2 ^ 64)%Z →
  negb (low32 (x / 256 ^ 0) =? 0)%Z || negb (low32 (x / 256 ^ 4) =? 0)%Z = negb (x =? 0)%Z.
Proof.
  intros Hx. unfold low32. apply eq_bool_prop_intro.
  rewrite orb_True, !negb_True, !Is_true_true, !Z.eqb_eq. rewrite Z.div_1_r.
  change (256 ^ 4)%Z with (2 ^ 32)%Z.
  pose proof (Z.div_mod x (2 ^ 32) ltac:(lia)) as Hd.
  assert (0 ≤ x / 2 ^ 32 < 2 ^ 32)%Z.
  { split; [apply Z.div_pos; lia|]. apply Z.div_lt_upper_bound; lia. }
  rewrite (Z.mod_small (x / 2 ^ 32)) by lia. clear Hx.
  pose proof (Z.mod_pos_bound x (2 ^ 32) ltac:(lia)).
  generalize dependent (x mod 2 ^ 32)%Z. generalize dependent (x / 2 ^ 32)%Z.
  change (2 ^ 32)%Z with 4294967296%Z. intros. lia.
Qed.

Lemma numbers_is_call a d cs :
  existsb (Z.eqb (low32 (nr d))) (numbers a cs) = existsb (is_call a d) cs.
Proof.
  induction cs as [|c cs IH]; [done|]. unfold numbers in *. cbn [omap list_omap existsb].
  unfold is_call at 1. destruct (number a c) as [n|]; cbn [existsb].
  - rewrite IH. f_equal. destruct (Z.eqb_spec (low32 (nr d)) n) as [->|Hn];
      [by rewrite bool_decide_true|]. rewrite bool_decide_false; [done|congruence].
  - rewrite bool_decide_false by done. done.
Qed.

(** A block placed once per number of a call that may not exist. *)
Lemma exec_getsockopt_call a d p :
  exec (concat (getsockopt_block <$> numbers a [SYS_getsockopt]) ++ p) d 0 (low32 (nr d))
    = if is_call a d SYS_getsockopt
      then Ret (notify_if ((load d (OFFSET_ARGS + 8) =? SOL_SOCKET)
                           && (load d (OFFSET_ARGS + 16) =? SO_PEERNAME))%Z)
      else exec p d 0 (low32 (nr d)).
Proof.
  pose proof (numbers_is_call a d [SYS_getsockopt]) as H. cbn [existsb] in H. rewrite orb_false_r in H.
  unfold numbers in *. cbn [omap list_omap] in *. rewrite <-H.
  destruct (number a SYS_getsockopt); [|done]. cbn [existsb fmap list_fmap concat]. rewrite app_nil_r, orb_false_r.
  apply exec_getsockopt.
Qed.

Lemma exec_address_call a d c flags p :
  exec (concat (address_block flags <$> numbers a [c]) ++ p) d 0 (low32 (nr d))
    = if is_call a d c
      then Ret (notify_if (negb (Z.land (load d (OFFSET_ARGS + 24)) flags =? 0)%Z
                           || negb (load d (OFFSET_ARGS + 32) =? 0)%Z
                           || negb (load d (OFFSET_ARGS + 36) =? 0)%Z))
      else exec p d 0 (low32 (nr d)).
Proof.
  pose proof (numbers_is_call a d [c]) as H. cbn [existsb] in H. rewrite orb_false_r in H.
  unfold numbers in *. cbn [omap list_omap] in *. rewrite <-H.
  destruct (number a c); [|done]. cbn [existsb fmap list_fmap concat]. rewrite app_nil_r, orb_false_r.
  apply exec_address.
Qed.

Lemma exec_prologue a d p :
  (0 ≤ arch d < 2 ^ 32)%Z →
  exec (prologue a ++ p) d 0 0
    = if negb (arch d =? NATIVE_ARCH a)%Z then Ret SECCOMP_RET_KILL_PROCESS
      else if Z.testbit (nr d) 30 then Ret ERRNO_ENOSYS
      else exec p d 0 (low32 (nr d)).
Proof.
  intros Ha. cbn -[load Z.land Z.testbit Z.eqb]. rewrite load_arch, load_nr by done.
  rewrite <-(low32_bit (nr d) 30), <-jset_bit by lia.
  destruct (arch d =? NATIVE_ARCH a)%Z; [|done]. cbn [negb].
  change (2 ^ 30)%Z with 1073741824%Z. by destruct (Z.land _ 1073741824 =? 0)%Z.
Qed.

Lemma address_args d :
  data_ok d →
  load d (OFFSET_ARGS + 24) = low32 (arg d 3) ∧
  negb (load d (OFFSET_ARGS + 32) =? 0)%Z || negb (load d (OFFSET_ARGS + 36) =? 0)%Z
    = negb (arg d 4 =? 0)%Z.
Proof.
  intros [_ Hl Hargs].
  pose proof (load_arg d 3 0 ltac:(lia) ltac:(lia)) as H3.
  pose proof (load_arg d 4 0 ltac:(lia) ltac:(lia)) as H40.
  pose proof (load_arg d 4 4 ltac:(lia) ltac:(lia)) as H44.
  rewrite Z.div_1_r in H3. split; [exact H3|].
  change (OFFSET_ARGS + 32)%Z with (OFFSET_ARGS + Z.of_nat (8 * 4 + 0))%Z.
  change (OFFSET_ARGS + 36)%Z with (OFFSET_ARGS + Z.of_nat (8 * 4 + 4))%Z.
  rewrite H40, H44. apply halves_zero. unfold arg.
  destruct (lookup_lt_is_Some_2 (args d) 4) as [x Hx]; [lia|].
  rewrite (nth_lookup_Some _ _ _ _ Hx). rewrite Forall_lookup in Hargs. by eapply Hargs.
Qed.

(** ** Theorems *)

(** C1: On every syscall record the BPF program built by filter() evaluates, without a bad
    jump or load, to the verdict of the declarative policy: foreign architectures killed,
    x32 numbers (bit 30) and io_uring refused with ENOSYS, the socket and open calls
    notified (getsockopt only for SO_PEERNAME, sendto and recvfrom only with an address,
    MSG_OOB or, for sendto, MSG_FASTOPEN), everything else allowed. *)
Theorem filter_implements_decision (a : target_arch) (d : Data) :
  data_ok d → evaluate (filter a) d = Ret (decision a d).
Proof.
  intros Hd. rewrite evaluate_run. unfold filter, decision. fold io_uring_calls notified_calls.
  rewrite exec_prologue by apply Hd. destruct (negb (arch d =? _)%Z); [done|].
  destruct (Z.testbit (nr d) 30); [done|].
  rewrite exec_returns, numbers_is_call. destruct (existsb _ io_uring_calls); [done|].
  rewrite exec_getsockopt_call. destruct (is_call a d SYS_getsockopt).
  { pose proof (load_arg d 1 0) as H1. pose proof (load_arg d 2 0) as H2.
    rewrite Z.div_1_r in H1, H2. rewrite (do_len _ Hd) in H1, H2.
    change (OFFSET_ARGS + 8)%Z with (OFFSET_ARGS + Z.of_nat (8 * 1 + 0))%Z.
    change (OFFSET_ARGS + 16)%Z with (OFFSET_ARGS + Z.of_nat (8 * 2 + 0))%Z.
    by rewrite H1, H2 by lia. }
  destruct (address_args d Hd) as [H3 H4].
  cbn [fmap list_fmap address_io concat]. rewrite <-!app_assoc.
  rewrite exec_address_call, H3, <-orb_assoc, H4. destruct (is_call a d SYS_sendto).
  { rewrite jset_lor. change MSG_OOB with (2 ^ 0)%Z. change MSG_FASTOPEN with (2 ^ 29)%Z.
    by rewrite !jset_bit, !low32_bit by lia. }
  rewrite exec_address_call, H3, <-orb_assoc, H4. destruct (is_call a d SYS_recvfrom).
  { change MSG_OOB with (2 ^ 0)%Z. by rewrite jset_bit, low32_bit by lia. }
  rewrite app_nil_l, exec_returns, numbers_is_call. by destruct (existsb _ notified_calls).
Qed.

(** The kernel accepts the program: jumps and loads are in range. *)
Lemma filter_accepted_by_kernel (a : target_arch) : filter_valid (filter a) = true.
Proof. by destruct a; vm_compute. Qed.

(** The sizes the structures have in memory. *)
Lemma length_data_bytes d : length (args d) = 6 → Z.of_nat (length (data_bytes d)) = SIZE_DATA.
Proof.
  intros Hd. unfold data_bytes.
  rewrite !length_app, !length_le_bytes, length_concat_args, Hd. done.
Qed.

(** The request numbers of linux/seccomp.h. *)
Lemma ioctl_numbers :
  NOTIF_RECV = 0xc0502100%Z ∧ NOTIF_SEND = 0xc0182101%Z ∧
  NOTIF_ID_VALID = 0x40082102%Z ∧ NOTIF_ADDFD = 0x40182103%Z.
Proof. done. Qed.

(** The order of the calls: no_new_privs before the filter unless CAP_SYS_ADMIN is held. *)
Lemma install_sequence (a : target_arch) (env : install_env) (fd : Z) (log : list kernel_call) :
  install a env [] = (Ok fd, log) →
  ∃ admin, has_sys_admin (env_capget env) = Ok admin ∧
    env_set_filter env (filter a) = Ok fd ∧
    (admin = false → env_no_new_privs env = Ok ()) ∧
    log = [GetNotifSizes; Capget] ++ (if admin then [] else [SetNoNewPrivs]) ++ [SetModeFilter (filter a)].
Proof.
  unfold install. intros ([[n r] dt] & l1 & H1 & H)%M_bind_ok. unfold call in H1. simplify_eq/=.
  destruct (_ || _); [done|]. apply M_bind_ok in H as (admin & l2 & H2 & H). unfold call in H2. simplify_eq/=.
  apply M_bind_ok in H as ([] & l3 & H3 & H). exists admin.
  unfold call, mret, M_ret in *. destruct admin; simplify_eq/=; by split_and!.
Qed.

(** A sendto with a destination address on x86_64. *)
Lemma filter_implements_decision_witness :
  let d := mkData 44 0xc000003e 0 [3; 0x1000; 4; 0; 0x7f00000000; 16]%Z in
  data_ok d ∧ evaluate (filter x86_64) d = Ret SECCOMP_RET_USER_NOTIF.
Proof.
  intros d. assert (Hd : data_ok d).
  { split; [simpl; lia|done|]. repeat constructor; lia. }
  split; [exact Hd|]. rewrite (filter_implements_decision x86_64 d Hd). reflexivity.
Defined.
