(* ===== verification/Access.v ===== *)
(** * Target memory and descriptors: src/broker/access.rs

    [TargetMemory] is what the handlers rely on: exact copies to and from the
    memory of the thread whose call is being handled. [target] implements it:
    the mapped bytes, and a script of what process_vm_readv and
    process_vm_writev do on the coming calls (how much they move, or which
    error they report); past the script they move all they can. [copy_loop] is
    the retry loop of [copy_memory]. The descriptor half ([get]) has the
    kernel's pidfd and kcmp calls as arguments. *)
From S2P Require Import Prelude RustStd Stream.

Abbreviation memory := (gmap Z byte).

(** The first bytes at [a] that are mapped, at most [n] of them. *)
Fixpoint mapped_prefix (m : memory) (a : Z) (n : nat) : bytes :=
  match n with
  | O => []
  | S n => match m !! a with
           | Some b => b :: mapped_prefix m (a + 1) n
           | None => []
           end
  end.

(** [bs] is what the memory holds at [a]. *)
Definition holds (m : memory) (a : Z) (bs : bytes) : Prop := mapped_prefix m a (length bs) = bs.

Definition is_mapped (m : memory) (a : Z) (n : nat) : Prop := length (mapped_prefix m a n) = n.

Fixpoint store (m : memory) (a : Z) (bs : bytes) : memory :=
  match bs with
  | [] => m
  | b :: bs => store (<[a := b]> m) (a + 1) bs
  end.

(** ** Copies *)

Inductive vm_event :=
| Move (limit : nat)
| Fault (errno : Z).

Record target := mkTarget { mem_of : memory; script : list vm_event }.

Definition check_tid (tid : Z) : io () :=
  if (tid =? 0)%Z || (I32_MAX <? tid)%Z then Err (RawOs ESRCH) else Ok ().

(** The next event; past the end every transfer is as long as it can be. *)
Definition next_event (s : target) (n : nat) : vm_event * list vm_event :=
  match script s with
  | [] => (Move n, [])
  | e :: es => (e, es)
  end.

(** process_vm_readv on one iovec pair of length [n]. *)
Definition vm_readv (a : Z) (n : nat) : M target io_error bytes :=
  λ s, let '(e, es) := next_event s n in
       let s' := mkTarget (mem_of s) es in
       match e with
       | Fault errno => (Err (RawOs errno), s')
       | Move limit =>
           match mapped_prefix (mem_of s) a n with
           | [] => (Err (RawOs EFAULT), s')
           | bs => (Ok (take limit bs), s')
           end
       end.

(** process_vm_writev: the number of bytes stored. *)
Definition vm_writev (a : Z) (bs : bytes) : M target io_error nat :=
  λ s, let '(e, es) := next_event s (length bs) in
       match e with
       | Fault errno => (Err (RawOs errno), mkTarget (mem_of s) es)
       | Move limit =>
           let n := min limit (length (mapped_prefix (mem_of s) a (length bs))) in
           if bool_decide (mapped_prefix (mem_of s) a (length bs) = [])
           then (Err (RawOs EFAULT), mkTarget (mem_of s) es)
           else (Ok n, mkTarget (store (mem_of s) a (take n bs)) es)
       end.

Definition address_ok (address : Z) (length : nat) : bool :=
  negb (address =? 0)%Z && (address + Z.of_nat length <=? U64_MAX)%Z.

(** The loop of [copy_memory], reading; [None] is a loop cut short. *)
Fixpoint read_loop (fuel : nat) (address : Z) (length : nat) (copied : bytes)
    : M target io_error (option bytes) :=
  match fuel with
  | O => mret None
  | S fuel => λ s,
      if bool_decide (length ≤ List.length copied) then (Ok (Some copied), s) else
      match vm_readv (address + Z.of_nat (List.length copied)) (length - List.length copied) s with
      | (Err error, s) => if bool_decide (kind error = Interrupted)
                          then read_loop fuel address length copied s
                          else (Err error, s)
      | (Ok [], s) => (Err (RawOs EFAULT), s)
      | (Ok bs, s) => read_loop fuel address length (copied ++ bs) s
      end
  end.

(** The same loop, writing. *)
Fixpoint write_loop (fuel : nat) (address : Z) (buffer : bytes) (copied : nat)
    : M target io_error (option ()) :=
  match fuel with
  | O => mret None
  | S fuel => λ s,
      if bool_decide (length buffer ≤ copied) then (Ok (Some ()), s) else
      match vm_writev (address + Z.of_nat copied) (drop copied buffer) s with
      | (Err error, s) => if bool_decide (kind error = Interrupted)
                          then write_loop fuel address buffer copied s
                          else (Err error, s)
      | (Ok O, s) => (Err (RawOs EFAULT), s)
      | (Ok count, s) => write_loop fuel address buffer (copied + count) s
      end
  end.

(** Rounds that suffice: one per event, and two once the script is spent. *)
Definition rounds (s : target) : nat := S (S (length (script s))).

Definition unfuel {A} (m : M target io_error (option A)) : M target io_error A :=
  λ s, match m s with
       | (Ok (Some a), s) => (Ok a, s)
       | (Ok None, s) => (Err (Simple OtherKind), s)
       | (Err e, s) => (Err e, s)
       end.

Definition copy_guard (tid address : Z) (length : nat) : io () :=
  _ ← check_tid tid;
  if address_ok address length then Ok () else Err (RawOs EFAULT).

Definition run_read (address : Z) (length : nat) : M target io_error bytes :=
  λ s, unfuel (read_loop (rounds s) address length []) s.

Definition run_write (address : Z) (buffer : bytes) : M target io_error () :=
  λ s, unfuel (write_loop (rounds s) address buffer 0) s.

Definition read_exact (tid address : Z) (length : nat) : M target io_error bytes :=
  if bool_decide (length = 0) then mret [] else
  _ ← lift_result (copy_guard tid address length);
  run_read address length.

Definition write_exact (tid address : Z) (buffer : bytes) : M target io_error () :=
  if bool_decide (buffer = []) then mret () else
  _ ← lift_result (copy_guard tid address (length buffer));
  run_write address buffer.

(** ** The interface *)

(** [healthy]: the kernel refuses no access to mapped memory. *)
Class TargetMemory (T : Type) := {
  mem : T → memory;
  healthy : T → Prop;
  peek : Z → Z → nat → M T io_error bytes;
  poke : Z → Z → bytes → M T io_error ();
  peek_law tid a n s r s' :
    peek tid a n s = (r, s') →
    mem s' = mem s ∧ (healthy s → healthy s') ∧
    match r with Ok bs => length bs = n ∧ holds (mem s) a bs | Err _ => 0 < n end;
  poke_law tid a bs s r s' :
    poke tid a bs s = (r, s') →
    (healthy s → healthy s') ∧
    match r with
    | Ok _ => is_mapped (mem s) a (length bs) ∧ mem s' = store (mem s) a bs
    | Err _ => ∃ k, k ≤ length bs ∧ mem s' = store (mem s) a (take k bs)
    end;
  peek_live tid a n s :
    healthy s → check_tid tid = Ok () → n = 0 ∨ address_ok a n = true ∧ is_mapped (mem s) a n →
    is_ok (fst (peek tid a n s)) = true;
  poke_live tid a bs s :
    healthy s → check_tid tid = Ok () →
    bs = [] ∨ address_ok a (length bs) = true ∧ is_mapped (mem s) a (length bs) →
    is_ok (fst (poke tid a bs s)) = true;
}.

(** ** Descriptors *)

Inductive Method := Thread | Process.

(** The kernel's calls: [pidfd_open], [pidfd_getfd], the text of
    /proc/<tid>/status, and [kcmp] on a duplicate. *)
Record fd_kernel := mkFdKernel {
  k_pidfd_open : Z → bool → io Z;
  k_pidfd_getfd : Z → Z → io Z;
  k_status : Z → io bytes;
  k_kcmp : Z → Z → Z → io Z;
}.

Definition choose_method (open_thread : io Z) : io (Method * option Z) :=
  match open_thread with
  | Ok fd => Ok (Thread, Some fd)
  | Err error => if bool_decide (raw_os_error error = Some EINVAL) then Ok (Process, None) else Err error
  end.

Definition pidfd_open (kern : fd_kernel) (tid : Z) (thread : bool) : io Z :=
  _ ← check_tid tid; k_pidfd_open kern tid thread.

(** The first line that starts with [Tgid:]. *)
Fixpoint find_tgid (ls : list bytes) : option bytes :=
  match ls with
  | [] => None
  | l :: ls => match strip_prefix (lit "Tgid:") l with Some v => Some v | None => find_tgid ls end
  end.

Definition parse_thread_group (status : bytes) : io Z :=
  ok_or (Simple InvalidData)
    (value ← find_tgid (lines status);
     tgid ← parse_uint U32_MAX (trim value);
     if (0 <? tgid)%Z && (tgid <=? I32_MAX)%Z then Some tgid else None).

(** [read_to_string]: the file must be UTF-8. *)
Definition thread_group (kern : fd_kernel) (tid : Z) : io Z :=
  raw ← k_status kern tid;
  status ← ok_or (Simple InvalidData) (from_utf8 raw);
  parse_thread_group status.

Definition verify_file (kern : fd_kernel) (tid target_fd duplicate : Z) : io () :=
  result ← k_kcmp kern tid target_fd duplicate;
  if negb (result =? 0)%Z then Err (RawOs EOPNOTSUPP) else Ok ().

Definition get (kern : fd_kernel) (method : Method) (tid fd : Z) : io Z :=
  _ ← check_tid tid;
  if (fd <? 0)%Z then Err (RawOs EBADF) else
  match method with
  | Thread => pidfd ← pidfd_open kern tid true; k_pidfd_getfd kern pidfd fd
  | Process =>
      tgid ← thread_group kern tid;
      pidfd ← pidfd_open kern tgid false;
      duplicate ← k_pidfd_getfd kern pidfd fd;
      _ ← verify_file kern tid fd duplicate;
      Ok duplicate
  end.

(** [SocketAccess::probe]: [own] is the broker's thread, [socket] one end of
    the pair it opens (or why it could not), [address] its own byte. *)
Definition probe (kern : fd_kernel) (own : Z) (socket : io Z) (address : Z) : M target io_error Method :=
  '(method, pidfd) ← lift_result (choose_method (pidfd_open kern own true));
  socket ← lift_result socket;
  _ ← lift_result (match pidfd with
                   | Some pidfd => k_pidfd_getfd kern pidfd socket
                   | None => get kern method own socket
                   end);
  copy ← read_exact own address 1;
  _ ← write_exact own address copy;
  mret method.

(** ** Lemmas on memory *)

Lemma mapped_prefix_lookup m n : ∀ a i b,
  mapped_prefix m a n !! i = Some b → m !! (a + Z.of_nat i)%Z = Some b ∧ i < n.
Proof.
  induction n as [|n IH]; intros a i b; simpl; [done|].
  destruct (m !! a) as [x|] eqn:E; [|done]. destruct i as [|i]; simpl.
  - intros [= ->]. rewrite Z.add_0_r. split; [done|lia].
  - intros [H ?]%IH. split; [rewrite <-H; f_equal; lia|lia].
Qed.

Lemma length_mapped_prefix m a n : length (mapped_prefix m a n) ≤ n.
Proof.
  revert a. induction n as [|n IH]; intros a; simpl; [done|].
  destruct (m !! a); simpl; [|lia]. specialize (IH (a + 1)%Z). lia.
Qed.

(** A prefix shorter than asked for ends at an unmapped byte. *)
Lemma mapped_prefix_stop m n : ∀ a,
  length (mapped_prefix m a n) < n → m !! (a + Z.of_nat (length (mapped_prefix m a n)))%Z = None.
Proof.
  induction n as [|n IH]; intros a; simpl; [lia|].
  destruct (m !! a) eqn:E; simpl; [|by rewrite Z.add_0_r].
  intros H. rewrite <-(IH (a + 1)%Z) by lia. f_equal. lia.
Qed.

Lemma is_mapped_lookup m a n : is_mapped m a n ↔ ∀ i, i < n → is_Some (m !! (a + Z.of_nat i)%Z).
Proof.
  unfold is_mapped. split.
  - intros H i Hi. destruct (lookup_lt_is_Some_2 (mapped_prefix m a n) i) as [b Hb]; [lia|].
    apply mapped_prefix_lookup in Hb as [-> _]. eauto.
  - intros H. pose proof (length_mapped_prefix m a n).
    destruct (decide (length (mapped_prefix m a n) = n)) as [|Hne]; [done|].
    destruct (H (length (mapped_prefix m a n))) as [b Hb]; [lia|].
    rewrite mapped_prefix_stop in Hb by lia. done.
Qed.

Lemma holds_lookup m a bs :
  holds m a bs ↔ ∀ i b, bs !! i = Some b → m !! (a + Z.of_nat i)%Z = Some b.
Proof.
  unfold holds. revert a. induction bs as [|x bs IH]; intros a; simpl; [done|]. split.
  - destruct (m !! a) as [y|] eqn:E; [|done]. intros [= -> H] [|i] b; simpl.
    + rewrite Z.add_0_r. by intros [= <-].
    + intros Hi. replace (a + Z.of_nat (S i))%Z with (a + 1 + Z.of_nat i)%Z by lia.
      by apply IH.
  - intros H. pose proof (H 0 x eq_refl) as H0. rewrite Z.add_0_r in H0. rewrite H0. f_equal.
    apply IH. intros i b Hi. rewrite <-(H (S i) b Hi). f_equal. lia.
Qed.

Lemma holds_is_mapped m a bs : holds m a bs → is_mapped m a (length bs).
Proof. unfold holds, is_mapped. by intros ->. Qed.

Lemma holds_app m a bs1 bs2 :
  holds m a (bs1 ++ bs2) ↔ holds m a bs1 ∧ holds m (a + Z.of_nat (length bs1)) bs2.
Proof.
  rewrite !holds_lookup. split.
  - intros H. split; intros i b Hi.
    + apply H. by apply lookup_app_l_Some.
    + rewrite <-(H (length bs1 + i) b); [f_equal; lia|].
      rewrite lookup_app_r by lia. rewrite <-Hi. f_equal. lia.
  - intros [H1 H2] i b [Hi|[Hl Hi]]%lookup_app_Some; [by apply H1|].
    rewrite <-(H2 _ _ Hi). f_equal. lia.
Qed.

Lemma is_mapped_app m a n k :
  is_mapped m a (n + k) ↔ is_mapped m a n ∧ is_mapped m (a + Z.of_nat n) k.
Proof.
  rewrite !is_mapped_lookup. split.
  - intros H. split; intros i Hi; [apply H; lia|].
    replace (a + Z.of_nat n + Z.of_nat i)%Z with (a + Z.of_nat (n + i))%Z by lia. apply H. lia.
  - intros [H1 H2] i Hi. destruct (decide (i < n)); [by apply H1|].
    replace (a + Z.of_nat i)%Z with (a + Z.of_nat n + Z.of_nat (i - n))%Z by lia. apply H2. lia.
Qed.

Lemma holds_unique m a bs1 bs2 :
  length bs1 = length bs2 → holds m a bs1 → holds m a bs2 → bs1 = bs2.
Proof. unfold holds. intros Hl <- <-. by rewrite Hl. Qed.

Lemma mapped_prefix_holds m a n k : holds m a (take k (mapped_prefix m a n)).
Proof.
  apply holds_lookup. intros i b [Hi _]%lookup_take_Some. by apply mapped_prefix_lookup in Hi as [? _].
Qed.

Lemma store_app bs1 : ∀ m a bs2,
  store m a (bs1 ++ bs2) = store (store m a bs1) (a + Z.of_nat (length bs1)) bs2.
Proof.
  induction bs1 as [|b bs1 IH]; intros m a bs2; cbn [app store length]; [by rewrite Z.add_0_r|].
  rewrite IH. f_equal. lia.
Qed.

Lemma lookup_store bs : ∀ m a x,
  store m a bs !! x = if decide (a ≤ x < a + Z.of_nat (length bs))%Z
                      then bs !! Z.to_nat (x - a) else m !! x.
Proof.
  induction bs as [|b bs IH]; intros m a x; cbn [store length].
  - rewrite decide_False by lia. done.
  - rewrite IH. destruct (decide (x = a)) as [->|Hx].
    + rewrite decide_False, lookup_insert_eq, decide_True by lia.
      by replace (a - a)%Z with 0%Z by lia.
    + rewrite lookup_insert_ne by done. case_decide; case_decide; try lia; [|done].
      replace (Z.to_nat (x - a)) with (S (Z.to_nat (x - (a + 1)))) by lia. done.
Qed.

Lemma store_holds m a bs : holds (store m a bs) a bs.
Proof.
  apply holds_lookup. intros i b Hi. pose proof (lookup_lt_Some _ _ _ Hi). rewrite lookup_store.
  rewrite decide_True by lia. rewrite <-Hi. f_equal. lia.
Qed.

(** A store leaves what is disjoint from it. *)
Lemma store_holds_other m a bs b cs :
  (b + Z.of_nat (length cs) ≤ a ∨ a + Z.of_nat (length bs) ≤ b)%Z →
  holds (store m a bs) b cs ↔ holds m b cs.
Proof.
  intros Hd. rewrite !holds_lookup. split; intros H i x Hi; pose proof (lookup_lt_Some _ _ _ Hi);
    specialize (H i x Hi); rewrite lookup_store in *; rewrite decide_False in * by lia; done.
Qed.

Lemma store_is_mapped m a bs b n :
  is_mapped m a (length bs) → is_mapped (store m a bs) b n ↔ is_mapped m b n.
Proof.
  rewrite !is_mapped_lookup. intros Ha. apply forall_proper. intros i. apply forall_proper. intros Hi.
  rewrite lookup_store. case_decide as Hr; [|done]. split; intros _.
  - destruct (Ha (Z.to_nat (b + Z.of_nat i - a))) as [x Hx]; [lia|].
    exists x. rewrite <-Hx. f_equal. lia.
  - apply lookup_lt_is_Some_2. lia.
Qed.

(** ** The copy loops *)

Definition event_fine (e : vm_event) : Prop :=
  match e with Move limit => 0 < limit | Fault errno => kind (RawOs errno) = Interrupted end.

Definition target_healthy (s : target) : Prop := Forall event_fine (script s).

(** What a call can do: fail by the script, find nothing mapped, or move [k]
    bytes at most ([n] when the script is spent). *)
Inductive call_case (s : target) (prefix : bytes) (n : nat) : vm_event → Prop :=
| case_fault errno : script s = Fault errno :: tail (script s) → call_case s prefix n (Fault errno)
| case_unmapped : prefix = [] → call_case s prefix n (Fault EFAULT)
| case_move k : prefix ≠ [] → (script s = [] ∧ k = n ∨ script s = Move k :: tail (script s)) →
    call_case s prefix n (Move k).

Lemma vm_readv_case a n s :
  let prefix := mapped_prefix (mem_of s) a n in
  ∃ e, call_case s prefix n e ∧
    vm_readv a n s = (match e with Fault errno => Err (RawOs errno) | Move k => Ok (take k prefix) end,
                      mkTarget (mem_of s) (tail (script s))).
Proof.
  intros prefix. unfold vm_readv, next_event. fold prefix.
  destruct (script s) as [|[k|errno] es] eqn:Hs; simpl; destruct prefix as [|b bs] eqn:Hp;
    eexists; split; try reflexivity.
  all: try (by constructor; rewrite ?Hs; auto).
Qed.

Lemma vm_writev_case a bs s :
  let prefix := mapped_prefix (mem_of s) a (length bs) in
  ∃ e, call_case s prefix (length bs) e ∧
    vm_writev a bs s =
      match e with
      | Fault errno => (Err (RawOs errno), mkTarget (mem_of s) (tail (script s)))
      | Move k => let n := min k (length prefix) in
                  (Ok n, mkTarget (store (mem_of s) a (take n bs)) (tail (script s)))
      end.
Proof.
  intros prefix. unfold vm_writev, next_event. fold prefix.
  destruct (script s) as [|[k|errno] es] eqn:Hs; simpl; try (case_bool_decide as Hp);
    eexists; split; try reflexivity.
  all: try (by constructor; rewrite ?Hs; auto).
Qed.

Lemma healthy_tail s m : target_healthy s → target_healthy (mkTarget m (tail (script s))).
Proof. unfold target_healthy. simpl. by destruct 1. Qed.

Lemma healthy_fault s prefix n errno :
  target_healthy s → call_case s prefix n (Fault errno) → prefix ≠ [] → kind (RawOs errno) = Interrupted.
Proof.
  unfold target_healthy. intros Hh Hc Hp. inversion Hc as [? Hs| |]; subst; [|done].
  rewrite Hs in Hh. by inversion Hh.
Qed.

Lemma healthy_move s prefix n k :
  target_healthy s → call_case s prefix n (Move k) → 0 < n → 0 < k.
Proof.
  unfold target_healthy. intros Hh Hc Hn. inversion Hc as [| |? ? [[_ ->]|Hs]]; subst; [done|].
  rewrite Hs in Hh. by inversion Hh.
Qed.

Lemma length_tail_script s e :
  script s = e :: tail (script s) → length (script s) = S (length (tail (script s))).
Proof. intros Hs. rewrite Hs at 1. done. Qed.

(** Rounds left suffice; [next] is where the copy has come to. *)
Definition enough (fuel : nat) (s : target) (done : Prop) (next : Z) : Prop :=
  length (script s) + 2 ≤ fuel ∨ script s = [] ∧ 1 ≤ fuel ∧ (done ∨ mem_of s !! next = None).

Lemma is_mapped_rest m a len n : n ≤ len → is_mapped m a len → is_mapped m (a + Z.of_nat n) (len - n).
Proof. intros Hn. replace len with (n + (len - n)) at 1 by lia. by intros [_ ?]%is_mapped_app. Qed.

Lemma is_mapped_nonempty m a n : 0 < n → is_mapped m a n → mapped_prefix m a n ≠ [].
Proof. unfold is_mapped. intros Hn H E. rewrite E in H. simpl in H. lia. Qed.

Lemma mapped_prefix_nil m a n : m !! a = None → mapped_prefix m a n = [].
Proof. intros H. destruct n; simpl; [done|]. by rewrite H. Qed.

(** After a fault or an interruption fewer rounds are needed. *)
Lemma enough_retry fuel s prefix n errno (P : Prop) next :
  enough (S fuel) s P next → call_case s prefix n (Fault errno) →
  kind (RawOs errno) = Interrupted → enough fuel (mkTarget (mem_of s) (tail (script s))) P next.
Proof.
  intros He Hc Hk. inversion Hc as [? Hs| |]; subst; [|done]. left. simpl.
  destruct He as [He|[He _]]; [|congruence]. apply length_tail_script in Hs. lia.
Qed.

(** After a move as long as the mapping allows, only the end is left. *)
Lemma enough_move fuel s m' a n k (P Q : Prop) :
  let prefix := mapped_prefix (mem_of s) a n in
  enough (S fuel) s Q a → (Q → False) →
  call_case s prefix n (Move k) →
  (min k (length prefix) = n → P) →
  (∀ x, mem_of s !! x = None → m' !! x = None) →
  enough fuel (mkTarget m' (tail (script s))) P (a + Z.of_nat (min k (length prefix))).
Proof.
  intros prefix He HQ Hc HP Hm. inversion Hc as [| |? Hp [[Hs Hk]|Hs]]; subst.
  - right. simpl. rewrite Hs. simpl. split; [done|].
    destruct He as [He|(_ & _ & [?|Hn])];
      [|done|by unfold prefix in Hp; rewrite mapped_prefix_nil in Hp].
    split; [lia|]. unfold prefix in *.
    pose proof (length_mapped_prefix (mem_of s) a n). rewrite Nat.min_r in * by lia.
    destruct (decide (length (mapped_prefix (mem_of s) a n) = n)) as [|Hne]; [by left; apply HP|right].
    apply Hm, mapped_prefix_stop. lia.
  - left. simpl. destruct He as [He|[He _]]; [|congruence]. apply length_tail_script in Hs. lia.
Qed.

Lemma read_loop_spec address len fuel : ∀ copied s r s',
  holds (mem_of s) address copied → length copied ≤ len →
  enough fuel s (len ≤ length copied) (address + Z.of_nat (length copied)) →
  read_loop fuel address len copied s = (r, s') →
  mem_of s' = mem_of s ∧ (target_healthy s → target_healthy s') ∧
  (target_healthy s → is_mapped (mem_of s) address len → ∃ bs, r = Ok (Some bs)) ∧
  match r with
  | Ok (Some bs) => length bs = len ∧ holds (mem_of s) address bs
  | Ok None => False
  | Err _ => length copied < len
  end.
Proof.
  induction fuel as [|fuel IH]; intros copied s r s' Hh Hl He; [destruct He as [?|(_ & ? & _)]; lia|].
  cbn [read_loop]. case_bool_decide as Hd.
  { intros [= <- <-]. split_and!; eauto. lia. }
  set (a := (address + Z.of_nat (length copied))%Z) in *. set (n := len - length copied) in *.
  destruct (vm_readv_case a n s) as (e & Hc & ->). set (prefix := mapped_prefix (mem_of s) a n) in *.
  destruct e as [k|errno].
  - destruct (take k prefix) as [|b bs] eqn:Ht.
    + intros [= <- <-]. split_and!; eauto using healthy_tail; [|lia].
      intros Hhe Hm. pose proof (healthy_move _ _ _ _ Hhe Hc ltac:(lia)).
      inversion Hc; subst. by destruct prefix, k; [..|lia|].
    + intros Hr. assert (Hbs : length (b :: bs) = min k (length prefix)) by (rewrite <-Ht; apply length_take).
      assert (Hpre : length prefix ≤ n) by apply length_mapped_prefix.
      apply IH in Hr as (Hm & Hhe & Hok & Hres); clear IH.
      * simpl in Hm. rewrite Hm. split_and!; [done|eauto using healthy_tail..|].
        destruct r as [[bs'|]|]; [done..|lia].
      * simpl. apply holds_app. split; [done|]. rewrite <-Ht. apply mapped_prefix_holds.
      * rewrite length_app. lia.
      * replace (address + Z.of_nat (length (copied ++ b :: bs)))%Z
          with (a + Z.of_nat (min k (length prefix)))%Z by (rewrite length_app; lia).
        eapply enough_move; [exact He|lia|exact Hc| |done].
        intros Hp. rewrite length_app, Hbs. unfold prefix. rewrite Hp. unfold n. lia.
  - case_bool_decide as Hk.
    + intros Hr. apply IH in Hr as (Hm & Hhe & Hok & Hres); [|done|done|by eapply enough_retry].
      split_and!; eauto using healthy_tail.
    + intros [= <- <-]. split_and!; eauto using healthy_tail; [|lia]. intros Hhe Hm. exfalso. apply Hk.
      eapply healthy_fault; [done..|]. apply is_mapped_nonempty; [lia|]. apply is_mapped_rest; done.
Qed.

Lemma take_take_drop {A} (l : list A) n k : take n l ++ take k (drop n l) = take (n + k) l.
Proof. revert n. induction l as [|x l IH]; intros [|n]; simpl; rewrite ?take_nil; auto. f_equal. apply IH. Qed.

Lemma store_None m a bs x : is_mapped m a (length bs) → m !! x = None → store m a bs !! x = None.
Proof.
  rewrite is_mapped_lookup. intros Hm Hx. rewrite lookup_store. case_decide as Hr; [|done].
  destruct (Hm (Z.to_nat (x - a))) as [y Hy]; [lia|]. exfalso.
  replace (a + Z.of_nat (Z.to_nat (x - a)))%Z with x in Hy by lia. congruence.
Qed.

Lemma is_mapped_le m a n k : k ≤ n → is_mapped m a n → is_mapped m a k.
Proof. rewrite !is_mapped_lookup. intros Hk H i Hi. apply H. lia. Qed.

Lemma is_mapped_prefix m a n k : k ≤ length (mapped_prefix m a n) → is_mapped m a k.
Proof.
  intros Hk. apply is_mapped_lookup. intros i Hi.
  destruct (lookup_lt_is_Some_2 (mapped_prefix m a n) i) as [b Hb]; [lia|].
  apply mapped_prefix_lookup in Hb as [-> _]. eauto.
Qed.

(** [m0] is the memory before the first call: [copied] bytes are in place. *)
Lemma write_loop_spec address buffer m0 fuel : ∀ copied s r s',
  is_mapped m0 address copied → mem_of s = store m0 address (take copied buffer) →
  copied ≤ length buffer →
  enough fuel s (length buffer ≤ copied) (address + Z.of_nat copied) →
  write_loop fuel address buffer copied s = (r, s') →
  (target_healthy s → target_healthy s') ∧
  (target_healthy s → is_mapped m0 address (length buffer) → r = Ok (Some ())) ∧
  match r with
  | Ok (Some _) => is_mapped m0 address (length buffer) ∧ mem_of s' = store m0 address buffer
  | Ok None => False
  | Err _ => ∃ k, k ≤ length buffer ∧ mem_of s' = store m0 address (take k buffer)
  end.
Proof.
  induction fuel as [|fuel IH]; intros copied s r s' Hmap Hmem Hl He; [destruct He as [?|(_ & ? & _)]; lia|].
  cbn [write_loop]. case_bool_decide as Hd.
  { intros [= <- <-]. assert (copied = length buffer) as -> by lia.
    rewrite firstn_all in Hmem. split_and!; eauto. }
  set (a := (address + Z.of_nat copied)%Z) in *.
  assert (Hrest : length (drop copied buffer) = length buffer - copied) by apply length_drop.
  assert (Hmapped : ∀ b n, is_mapped (mem_of s) b n ↔ is_mapped m0 b n).
  { intros b n. rewrite Hmem. apply store_is_mapped. by rewrite length_take, Nat.min_l by lia. }
  destruct (vm_writev_case a (drop copied buffer) s) as (e & Hc & ->).
  set (prefix := mapped_prefix (mem_of s) a (length (drop copied buffer))) in *.
  assert (Hpre : length prefix ≤ length (drop copied buffer)) by apply length_mapped_prefix.
  destruct e as [k|errno]; cbv beta iota zeta.
  - destruct (min k (length prefix)) as [|count] eqn:Ht.
    + intros [= <- <-]. split_and!; eauto using healthy_tail.
      intros Hhe Hm. pose proof (healthy_move _ _ _ _ Hhe Hc ltac:(lia)).
      inversion Hc; subst. destruct prefix; [done|simpl in Ht; lia].
    + intros Hr. assert (Hp : is_mapped (mem_of s) a (S count)) by (eapply is_mapped_prefix; rewrite <-Ht; apply Nat.le_min_r).
      apply IH in Hr as (Hhe & Hok & Hres); clear IH.
      * split_and!; eauto using healthy_tail.
      * apply is_mapped_app. split; [done|]. by apply Hmapped.
      * simpl. rewrite Hmem, <-take_take_drop, store_app. f_equal.
        unfold a. by rewrite length_take, Nat.min_l by lia.
      * lia.
      * replace (address + Z.of_nat (copied + S count))%Z
          with (a + Z.of_nat (min k (length prefix)))%Z by lia.
        eapply enough_move; [exact He|lia|exact Hc| |].
        -- intros E. rewrite <-Ht in *. unfold prefix in *. lia.
        -- intros x Hx. apply store_None; [|done]. rewrite length_take, Nat.min_l by lia. done.
  - case_bool_decide as Hk.
    + intros Hr. apply IH in Hr as (Hhe & Hok & Hres); [|done..|by eapply enough_retry].
      split_and!; eauto using healthy_tail.
    + intros [= <- <-]. split_and!; eauto using healthy_tail. intros Hhe Hm. exfalso. apply Hk.
      eapply healthy_fault; [done..|]. apply is_mapped_nonempty; [lia|].
      rewrite Hrest. apply Hmapped. by apply is_mapped_rest.
Qed.

Lemma enough_rounds s (P : Prop) x : enough (rounds s) s P x.
Proof. left. unfold rounds. lia. Qed.

Lemma copy_guard_ok tid a n :
  copy_guard tid a n = Ok () ↔ check_tid tid = Ok () ∧ address_ok a n = true.
Proof.
  unfold copy_guard. destruct (check_tid tid) as [[]|]; simpl; [|naive_solver].
  destruct (address_ok a n); naive_solver.
Qed.

Lemma read_exact_law tid a n s r s' :
  read_exact tid a n s = (r, s') →
  mem_of s' = mem_of s ∧ (target_healthy s → target_healthy s') ∧
  match r with Ok bs => length bs = n ∧ holds (mem_of s) a bs | Err _ => 0 < n end.
Proof.
  unfold read_exact. case_bool_decide as Hn; [by intros [= <- <-]|].
  rewrite M_bind_run. unfold lift_result.
  destruct (copy_guard tid a n); [|intros [= <- <-]; split_and!; [done..|lia]].
  unfold run_read, unfuel. destruct (read_loop _ a n [] s) as [r0 s0] eqn:E.
  apply read_loop_spec in E as (Hm & Hh & _ & Hr); [|done|simpl; lia|apply enough_rounds].
  destruct r0 as [[bs|]|e]; intros [= <- <-]; [done..|]. split_and!; [done..|]. simpl in Hr. lia.
Qed.

Lemma write_exact_law tid a bs s r s' :
  write_exact tid a bs s = (r, s') →
  (target_healthy s → target_healthy s') ∧
  match r with
  | Ok _ => is_mapped (mem_of s) a (length bs) ∧ mem_of s' = store (mem_of s) a bs
  | Err _ => ∃ k, k ≤ length bs ∧ mem_of s' = store (mem_of s) a (take k bs)
  end.
Proof.
  unfold write_exact. case_bool_decide as Hn; [intros [= <- <-]; by subst|].
  rewrite M_bind_run. unfold lift_result.
  destruct (copy_guard _ _ _); [|intros [= <- <-]; split; [done|exists 0; split; [lia|done]]].
  unfold run_write, unfuel. destruct (write_loop _ a bs 0 s) as [r0 s0] eqn:E.
  apply (write_loop_spec a bs (mem_of s)) in E as (Hh & _ & Hr); [|done|done|lia|apply enough_rounds].
  destruct r0 as [[[]|]|e]; intros [= <- <-]; done.
Qed.

Lemma read_exact_live tid a n s :
  target_healthy s → check_tid tid = Ok () →
  n = 0 ∨ address_ok a n = true ∧ is_mapped (mem_of s) a n →
  is_ok (fst (read_exact tid a n s)) = true.
Proof.
  intros Hh Ht Hn. unfold read_exact. case_bool_decide; [done|]. destruct Hn as [?|[Ha Hm]]; [done|].
  rewrite M_bind_run. unfold lift_result. rewrite (proj2 (copy_guard_ok _ _ _) (conj Ht Ha)).
  unfold run_read, unfuel. destruct (read_loop _ a n [] s) as [r0 s0] eqn:E.
  apply read_loop_spec in E as (_ & _ & Hok & _); [|done|simpl; lia|apply enough_rounds].
  by destruct (Hok Hh Hm) as [bs ->].
Qed.

Lemma write_exact_live tid a bs s :
  target_healthy s → check_tid tid = Ok () →
  bs = [] ∨ address_ok a (length bs) = true ∧ is_mapped (mem_of s) a (length bs) →
  is_ok (fst (write_exact tid a bs s)) = true.
Proof.
  intros Hh Ht Hn. unfold write_exact. case_bool_decide; [done|]. destruct Hn as [?|[Ha Hm]]; [done|].
  rewrite M_bind_run. unfold lift_result. rewrite (proj2 (copy_guard_ok _ _ _) (conj Ht Ha)).
  unfold run_write, unfuel. destruct (write_loop _ a bs 0 s) as [r0 s0] eqn:E.
  apply (write_loop_spec a bs (mem_of s)) in E as (_ & Hok & _); [|done|done|lia|apply enough_rounds].
  by rewrite (Hok Hh Hm).
Qed.

#[export] Instance target_memory : TargetMemory target := {|
  mem := mem_of; healthy := target_healthy; peek := read_exact; poke := write_exact;
  peek_law := read_exact_law; poke_law := write_exact_law;
  peek_live := read_exact_live; poke_live := write_exact_live;
|}.

(** ** Theorems *)

(** read_exact leaves the target memory alone and returns exactly the bytes mapped
    there; it fails only when a byte, the thread or the address is bad, or the kernel
    reports a fault. *)
Lemma exact_read (s s' : target) (tid a : Z) (n : nat) (r : io bytes) :
  read_exact tid a n s = (r, s') →
  mem_of s' = mem_of s ∧
  match r with
  | Ok bs => length bs = n ∧ holds (mem_of s) a bs
  | Err _ => 0 < n ∧ ¬ (target_healthy s ∧ check_tid tid = Ok () ∧ address_ok a n = true ∧
                        is_mapped (mem_of s) a n)
  end.
Proof.
  intros Hr. pose proof (read_exact_law _ _ _ _ _ _ Hr) as (Hm & _ & Hres). split; [done|].
  destruct r as [bs|e]; [done|]. split; [done|]. intros (Hh & Ht & Ha & Hmp).
  pose proof (read_exact_live tid a n s Hh Ht (or_intror (conj Ha Hmp))) as H. by rewrite Hr in H.
Qed.

(** write_exact stores all bytes or, on failure, a prefix of them, and fails only when
    a byte, the thread or the address is bad, or the kernel reports a fault. *)
Lemma exact_write (s s' : target) (tid a : Z) (bs : bytes) (r : io ()) :
  write_exact tid a bs s = (r, s') →
  match r with
  | Ok _ => is_mapped (mem_of s) a (length bs) ∧ mem_of s' = store (mem_of s) a bs
  | Err _ => (∃ k, k ≤ length bs ∧ mem_of s' = store (mem_of s) a (take k bs)) ∧
             ¬ (target_healthy s ∧ check_tid tid = Ok () ∧ address_ok a (length bs) = true ∧
                is_mapped (mem_of s) a (length bs))
  end.
Proof.
  intros Hr. pose proof (write_exact_law _ _ _ _ _ _ Hr) as (_ & Hres).
  destruct r as [[]|e]; [done|]. split; [done|]. intros (Hh & Ht & Ha & Hmp).
  pose proof (write_exact_live tid a bs s Hh Ht (or_intror (conj Ha Hmp))) as H. by rewrite Hr in H.
Qed.

(** A duplicate is handed out only when it is the thread's own open file. *)
Lemma descriptor_is_verified (kern : fd_kernel) (method : Method) (tid fd dup : Z) :
  get kern method tid fd = Ok dup →
  tid ≠ 0%Z ∧ (tid ≤ I32_MAX)%Z ∧ (0 ≤ fd)%Z ∧
  match method with
  | Thread => ∃ pidfd, k_pidfd_open kern tid true = Ok pidfd ∧ k_pidfd_getfd kern pidfd fd = Ok dup
  | Process => k_kcmp kern tid fd dup = Ok 0%Z ∧
               ∃ tgid pidfd, thread_group kern tid = Ok tgid ∧
                 k_pidfd_open kern tgid false = Ok pidfd ∧ k_pidfd_getfd kern pidfd fd = Ok dup
  end.
Proof.
  unfold get. destruct (check_tid tid) as [[]|] eqn:Ht; [|done]. cbn [mbind result_bind].
  destruct (Z.ltb_spec fd 0) as [|Hfd]; [done|]. intros H.
  unfold check_tid in Ht. destruct (Z.eqb_spec tid 0), (Z.ltb_spec I32_MAX tid); simplify_eq/=.
  split_and!; [done..|]. unfold pidfd_open, verify_file in H. destruct method.
  - destruct (check_tid tid); [|done]. destruct (k_pidfd_open kern tid true) eqn:Ho; [|done]. eauto.
  - destruct (thread_group kern tid) as [tgid|] eqn:Hg; [|done]. cbn [mbind result_bind] in H.
    destruct (check_tid tgid); [|done]. cbn [mbind result_bind] in H.
    destruct (k_pidfd_open kern tgid false) as [pidfd|] eqn:Ho; [|done]. cbn [mbind result_bind] in H.
    destruct (k_pidfd_getfd kern pidfd fd) as [d|] eqn:Hd; [|done]. cbn [mbind result_bind] in H.
    destruct (k_kcmp kern tid fd d) as [z|] eqn:Hk; [|done]. cbn [mbind result_bind] in H.
    destruct (Z.eqb_spec z 0) as [->|]; simplify_eq/=. eauto 10.
Qed.

(** ** Examples *)

(** Three mapped bytes, and a kernel that first moves one, then is interrupted. *)
Definition target_example : target :=
  mkTarget (store ∅ 0x1000 [x01; x02; x03]) [Move 1; Fault EINTR].

Lemma store_is_mapped_self m a bs : is_mapped (store m a bs) a (length bs).
Proof. apply holds_is_mapped, store_holds. Qed.

Lemma target_example_healthy : target_healthy target_example.
Proof. repeat constructor. Qed.

Lemma exact_read_witness :
  ∃ s', read_exact 7 0x1000 3 target_example = (Ok [x01; x02; x03], s') ∧
        mem_of s' = mem_of target_example.
Proof.
  destruct (read_exact 7 0x1000 3 target_example) as [r s'] eqn:E.
  destruct (exact_read _ _ _ _ _ _ E) as [Hm Hr]. destruct r as [bs|e].
  - exists s'. split; [|exact Hm]. destruct Hr as [Hl Hb].
    rewrite (holds_unique _ _ bs [x01; x02; x03] Hl Hb (store_holds ∅ 0x1000 _)). reflexivity.
  - exfalso. apply (proj2 Hr). split; [exact target_example_healthy|]. split; [reflexivity|].
    split; [reflexivity|]. apply (store_is_mapped_self ∅ 0x1000 [x01; x02; x03]).
Defined.

Lemma exact_write_witness :
  ∃ s', write_exact 7 0x1001 [x09] target_example = (Ok (), s') ∧
        mem_of s' = store (mem_of target_example) 0x1001 [x09].
Proof.
  destruct (write_exact 7 0x1001 [x09] target_example) as [r s'] eqn:E.
  pose proof (exact_write _ _ _ _ _ _ E) as H. destruct r as [[]|e].
  - exists s'. split; [reflexivity|exact (proj2 H)].
  - exfalso. apply (proj2 H). split; [exact target_example_healthy|]. split; [reflexivity|].
    split; [reflexivity|].
    pose proof (store_is_mapped_self ∅ 0x1000 [x01; x02; x03]) as Hm.
    apply (is_mapped_app _ 0x1000 1 2) in Hm as [_ Hm]. by apply (is_mapped_le _ _ 2 1); [lia|].
Defined.
