(* ===== verification/Memory.v ===== *)
(** * Native ABI memory access: src/broker/memory.rs

    Strings, integers and socket addresses in the memory of the calling
    thread, over any [TargetMemory]. Native order is little-endian on both
    supported targets. *)
From S2P Require Import Prelude RustStd Net Stream Seccomp Access.

Definition AF_INET : Z := 2.
Definition O_NONBLOCK : Z := 0x800.
Definition MSG_DONTWAIT : Z := 0x40.
Definition PATH_MAX : nat := N.to_nat 4096.

Definition address_bytes (address : SocketAddrV4) : bytes :=
  le_bytes 2 AF_INET ++ be_bytes 2 (sa_port address) ++ octets (sa_ip address) ++ replicate 8 x00.

(** [status] is fcntl(F_GETFL). *)
Definition nonblocking (status : io Z) (flags : Z) : io bool :=
  status ← status;
  Ok (negb (Z.land status O_NONBLOCK =? 0)%Z || negb (Z.land flags MSG_DONTWAIT =? 0)%Z).

(** [chunk.iter().position(|&byte| byte == 0)] *)
Definition nul_position (chunk : bytes) : option nat := fst <$> list_find (x00 =.) chunk.

(** The bytes of the next read: up to 256, never across a page boundary. *)
Definition path_count (len pointer : Z) : nat :=
  Z.to_nat (Z.min (Z.min (4096 - len) 256) (4096 - Z.land pointer 4095)).

Section memory.
Context {T : Type} {TM : TargetMemory T}.

Definition read (tid address : Z) (length : nat) : M T io_error bytes := peek tid address length.

(** [None]: the loop was cut short. *)
Fixpoint path_loop (fuel : nat) (tid address : Z) (bs : bytes) : M T io_error (option bytes) :=
  match fuel with
  | O => mret None
  | S fuel =>
      let len := Z.of_nat (length bs) in
      if (4096 <=? len)%Z then mfail (RawOs ENAMETOOLONG) else
      if (U64_MAX <? address + len)%Z then mfail (RawOs EFAULT) else
      chunk ← read tid (address + len) (path_count len (address + len));
      match nul_position chunk with
      | Some stop => mret (Some (bs ++ take stop chunk))
      | None => path_loop fuel tid address (bs ++ chunk)
      end
  end.

(** Every round but the last adds a byte. *)
Definition path (tid address : Z) : M T io_error (option bytes) :=
  path_loop (S PATH_MAX) tid address [].

Definition u32_at (tid address : Z) : M T io_error Z :=
  bs ← peek tid address 4; mret (le_value bs).

Definition family (tid address length : Z) : M T io_error Z :=
  if (length <? 2)%Z || (I32_MAX <? length)%Z then mfail (RawOs EINVAL) else
  bs ← peek tid address 2; mret (le_value bs).

(** [bytes[4..8]] and [bytes[2..4]] of the 16 read. *)
Definition ipv4_of_bytes (bs : bytes) : SocketAddrV4 :=
  SockAddr (ip4 (nth 4 bs x00) (nth 5 bs x00) (nth 6 bs x00) (nth 7 bs x00))
    (be_value [nth 2 bs x00; nth 3 bs x00]).

Definition ipv4_at (tid address length : Z) : M T io_error SocketAddrV4 :=
  fam ← family tid address length;
  if negb (fam =? AF_INET)%Z then mfail (RawOs EAFNOSUPPORT) else
  if (length <? 16)%Z then mfail (RawOs EINVAL) else
  bs ← read tid address 16;
  mret (ipv4_of_bytes bs).

Definition put_address (tid pointer capacity : Z) (address : SocketAddrV4) : M T io_error () :=
  if (I32_MAX <? capacity)%Z then mfail (RawOs EINVAL) else
  poke tid pointer (take (Z.to_nat (Z.min capacity 16)) (address_bytes address)).

Definition peer_name (a : target_arch) (n : Notification) (address : SocketAddrV4) : M T io_error () :=
  let tid := npid n in
  let socket_option := bool_decide (number a SYS_getsockopt = Some (nr (ndata n))) in
  let '(pointer, length) := if socket_option then (arg (ndata n) 3, arg (ndata n) 4)
                            else (arg (ndata n) 1, arg (ndata n) 2) in
  capacity ← u32_at tid length;
  if socket_option && (16 <? capacity)%Z then mfail (RawOs EINVAL) else
  _ ← put_address tid pointer capacity address;
  poke tid length (le_bytes 4 (if socket_option then capacity else 16)).

(** ** Lemmas *)

Lemma length_address_bytes address : length (address_bytes address) = 16.
Proof. done. Qed.

(** A read of what the memory holds. *)
Lemma peek_ok tid a bs s :
  healthy s → check_tid tid = Ok () → address_ok a (length bs) = true → holds (mem s) a bs →
  ∃ s', peek tid a (length bs) s = (Ok bs, s') ∧ mem s' = mem s ∧ healthy s'.
Proof.
  intros Hh Ht Ha Hm. pose proof (holds_is_mapped _ _ _ Hm) as Hmp.
  pose proof (peek_live tid a (length bs) s Hh Ht (or_intror (conj Ha Hmp))) as Hok.
  destruct (peek tid a (length bs) s) as [[bs'|e] s'] eqn:E; [|done].
  apply peek_law in E as (Hm' & Hh' & Hl & Hb). exists s'. split_and!; auto.
  by rewrite (holds_unique _ _ _ _ Hl Hb Hm).
Qed.

Lemma poke_ok tid a bs s :
  healthy s → check_tid tid = Ok () → address_ok a (length bs) = true → is_mapped (mem s) a (length bs) →
  ∃ s', poke tid a bs s = (Ok (), s') ∧ mem s' = store (mem s) a bs ∧ healthy s'.
Proof.
  intros Hh Ht Ha Hm. pose proof (poke_live tid a bs s Hh Ht (or_intror (conj Ha Hm))) as Hok.
  destruct (poke tid a bs s) as [[[]|e] s'] eqn:E; [|done].
  apply poke_law in E as (Hh' & _ & Hm'). exists s'. split_and!; auto.
Qed.

Lemma address_ok_le a n k : k ≤ n → address_ok a n = true → address_ok a k = true.
Proof. unfold address_ok. intros Hk [-> H%Z.leb_le]%andb_prop. simpl. apply Z.leb_le. lia. Qed.

(** The kernel maps whole pages. *)
Definition paged (m : memory) : Prop :=
  ∀ x y, (x / 4096 = y / 4096)%Z → is_Some (m !! x) → is_Some (m !! y).

(** A mapped byte makes the rest of its page readable. *)
Lemma paged_mapped m a n :
  paged m → is_Some (m !! a) → (Z.of_nat n ≤ 4096 - Z.land a 4095)%Z → is_mapped m a n.
Proof.
  intros Hp Ha Hn. apply is_mapped_lookup. intros i Hi. apply (Hp a); [|done].
  change 4095%Z with (Z.ones 12) in Hn. rewrite Z.land_ones in Hn by lia.
  change (2 ^ 12)%Z with 4096%Z in Hn.
  pose proof (Z.div_mod a 4096 ltac:(lia)). pose proof (Z.mod_pos_bound a 4096 ltac:(lia)).
  apply (Z.div_unique _ 4096 _ (a mod 4096 + Z.of_nat i)); lia.
Qed.

Lemma path_count_bounds len pointer :
  (0 ≤ len < 4096)%Z →
  (1 ≤ Z.of_nat (path_count len pointer) ≤ 4096 - Z.land pointer 4095)%Z ∧
  (Z.of_nat (path_count len pointer) ≤ 4096 - len)%Z.
Proof.
  intros Hl. unfold path_count. change 4095%Z with (Z.ones 12). rewrite Z.land_ones by lia.
  change (2 ^ 12)%Z with 4096%Z.
  pose proof (Z.mod_pos_bound pointer 4096 ltac:(lia)). lia.
Qed.

Lemma nul_position_app l r : x00 ∉ l → nul_position (l ++ x00 :: r) = Some (length l).
Proof.
  intros Hl. unfold nul_position. rewrite list_find_app_r.
  - done.
  - apply list_find_None, Forall_forall. intros x Hx <-. by apply Hl, list_elem_of_In.
Qed.

Lemma nul_position_none l : x00 ∉ l → nul_position l = None.
Proof.
  intros Hl. unfold nul_position. rewrite (proj2 (list_find_None _ _)); [done|].
  apply Forall_forall. intros x Hx <-. by apply Hl, list_elem_of_In.
Qed.

Lemma holds_prefix m a xs ys :
  holds m a xs → holds m a ys → length xs ≤ length ys → xs = take (length xs) ys.
Proof.
  intros Hx Hy Hl. rewrite <-(take_drop (length xs) ys) in Hy. apply holds_app in Hy as [Hy _].
  eapply holds_unique; [|done..]. rewrite length_take. lia.
Qed.

(** One round on a text [p] of which [n] bytes are read. *)
Lemma path_chunk m a p tail n chunk :
  holds m a (p ++ tail) → n ≤ length p → holds m (a + Z.of_nat n) chunk → x00 ∉ p →
  (length chunk ≤ length p - n ∧ nul_position chunk = None ∧ take n p ++ chunk = take (n + length chunk) p) ∨
  (length p - n < length chunk ∧ (tail = [x00] → nul_position chunk = Some (length p - n) ∧
                                  take n p ++ take (length p - n) chunk = p)).
Proof.
  intros Hp Hn Hc H0. rewrite <-(take_drop n p), <-app_assoc in Hp.
  apply holds_app in Hp as [_ Hp]. rewrite length_take, Nat.min_l in Hp by lia.
  destruct (decide (length chunk ≤ length p - n)) as [Hle|Hgt]; [left|right; split; [lia|]].
  - pose proof (holds_prefix _ _ _ _ Hc Hp ltac:(rewrite length_app, length_drop; lia)) as E.
    rewrite take_app_le in E by (rewrite length_drop; lia). split_and!; [done|..].
    + apply nul_position_none. rewrite E. intros Hin. apply H0.
      rewrite <-(take_drop n p). apply elem_of_app. right.
      rewrite <-(take_drop (length chunk) (drop n p)). apply elem_of_app. by left.
    + rewrite E at 1. apply take_take_drop.
  - intros ->. pose proof (holds_prefix _ _ _ _ Hp Hc ltac:(rewrite length_app, length_drop; simpl; lia)) as E.
    rewrite <-(take_drop (length (drop n p ++ [x00])) chunk), <-E, <-app_assoc. simpl.
    split.
    + rewrite nul_position_app, length_drop; [done|]. intros Hin. apply H0.
      rewrite <-(take_drop n p). apply elem_of_app. by right.
    + rewrite take_app_length' by (rewrite length_drop; lia). apply take_drop.
Qed.

(** The reads of the loop succeed while the text goes on. *)
Lemma path_read tid a p tail n s :
  healthy s → check_tid tid = Ok () → paged (mem s) → (0 < a ≤ U64_MAX - 8192)%Z →
  holds (mem s) a (p ++ tail) → n < length (p ++ tail) → (Z.of_nat n < 4096)%Z →
  let a' := (a + Z.of_nat n)%Z in
  ∃ chunk s', read tid a' (path_count (Z.of_nat n) a') s = (Ok chunk, s') ∧
    length chunk = path_count (Z.of_nat n) a' ∧ holds (mem s) a' chunk ∧ mem s' = mem s ∧ healthy s'.
Proof.
  intros Hh Ht Hp Ha Hm Hn Hlt a'. pose proof (path_count_bounds (Z.of_nat n) a' ltac:(lia)) as [Hc1 Hc2].
  assert (Hmap : is_mapped (mem s) a' (path_count (Z.of_nat n) a')).
  { apply paged_mapped; [done| |lia]. destruct (lookup_lt_is_Some_2 (p ++ tail) n Hn) as [b Hb].
    rewrite holds_lookup in Hm. exists b. exact (Hm _ _ Hb). }
  assert (Hok : address_ok a' (path_count (Z.of_nat n) a') = true).
  { unfold a' in *. unfold address_ok. apply andb_true_intro. split; [apply negb_true_iff, Z.eqb_neq|apply Z.leb_le]; lia. }
  unfold read. pose proof (peek_live tid a' _ s Hh Ht (or_intror (conj Hok Hmap))) as Hl.
  destruct (peek tid a' _ s) as [[chunk|e] s'] eqn:E; [|done].
  apply peek_law in E as (Hm' & Hh' & Hlen & Hb). exists chunk, s'. split_and!; auto.
Qed.

Lemma path_loop_finds tid a p fuel : ∀ n s,
  healthy s → check_tid tid = Ok () → paged (mem s) → (0 < a ≤ U64_MAX - 8192)%Z →
  holds (mem s) a (p ++ [x00]) → x00 ∉ p → (Z.of_nat (length p) < 4096)%Z →
  n ≤ length p → length p - n < fuel →
  ∃ s', path_loop fuel tid a (take n p) s = (Ok (Some p), s') ∧ mem s' = mem s.
Proof.
  induction fuel as [|fuel IH]; intros n s Hh Ht Hp Ha Hm H0 Hl Hn Hf; [lia|]. cbn [path_loop].
  assert (Hlen : length (take n p) = n) by (rewrite length_take; lia). rewrite Hlen.
  rewrite (proj2 (Z.leb_gt _ _)), (proj2 (Z.ltb_ge _ _)) by lia. rewrite M_bind_run.
  destruct (path_read tid a p [x00] n s) as (chunk & s1 & -> & Hc & Hch & Hm1 & Hh1);
    [done..|rewrite length_app; simpl; lia|lia|].
  pose proof (path_count_bounds (Z.of_nat n) (a + Z.of_nat n) ltac:(lia)) as [Hc1 _].
  destruct (path_chunk _ _ _ _ _ _ Hm Hn Hch H0) as [(Hle & -> & Hcat)|[_ Hend]].
  - rewrite Hcat. destruct (IH (n + length chunk) s1) as (s2 & Hr & Hm2); rewrite ?Hm1; try done; try lia.
    exists s2. split; [done|]. by rewrite Hm2.
  - destruct (Hend eq_refl) as [-> Hcat]. rewrite Hcat. exists s1. done.
Qed.

Lemma path_loop_long tid a p fuel : ∀ n s,
  healthy s → check_tid tid = Ok () → paged (mem s) → (0 < a ≤ U64_MAX - 8192)%Z →
  holds (mem s) a p → x00 ∉ p → Z.of_nat (length p) = 4096%Z →
  n ≤ length p → length p - n < fuel →
  ∃ s', path_loop fuel tid a (take n p) s = (Err (RawOs ENAMETOOLONG), s') ∧ mem s' = mem s.
Proof.
  induction fuel as [|fuel IH]; intros n s Hh Ht Hp Ha Hm H0 Hl Hn Hf; [lia|]. cbn [path_loop].
  assert (Hlen : length (take n p) = n) by (rewrite length_take; lia). rewrite Hlen.
  destruct (Z.leb_spec 4096 (Z.of_nat n)); [by exists s|].
  rewrite (proj2 (Z.ltb_ge _ _)) by lia. rewrite M_bind_run.
  rewrite <-(app_nil_r p) in Hm.
  destruct (path_read tid a p [] n s) as (chunk & s1 & -> & Hc & Hch & Hm1 & Hh1);
    [done..|rewrite length_app; simpl; lia|lia|].
  pose proof (path_count_bounds (Z.of_nat n) (a + Z.of_nat n) ltac:(lia)) as [Hc1 Hc2].
  destruct (path_chunk _ _ _ _ _ _ Hm Hn Hch H0) as [(Hle & -> & Hcat)|[Hgt _]]; [|lia].
  rewrite Hcat. rewrite app_nil_r in Hm.
  destruct (IH (n + length chunk) s1) as (s2 & Hr & Hm2); rewrite ?Hm1; try done; try lia.
  exists s2. split; [done|]. by rewrite Hm2.
Qed.

Lemma path_loop_fuel tid a fuel : ∀ bs s,
  (4096 < Z.of_nat (length bs) + Z.of_nat fuel)%Z → 0 < fuel → fst (path_loop fuel tid a bs s) ≠ Ok None.
Proof.
  induction fuel as [|fuel IH]; intros bs s Hf H0; [lia|]. cbn [path_loop].
  destruct (Z.leb_spec 4096 (Z.of_nat (length bs))); [done|].
  destruct (U64_MAX <? _)%Z; [done|]. rewrite M_bind_run. unfold read.
  destruct (peek _ _ _ s) as [[chunk|e] s1] eqn:E; [|done]. destruct (nul_position chunk); [done|].
  apply peek_law in E as (_ & _ & Hl & _).
  pose proof (path_count_bounds (Z.of_nat (length bs)) (a + Z.of_nat (length bs)) ltac:(lia)) as [Hc _].
  apply IH; [rewrite length_app|]; lia.
Qed.

Lemma holds_take m a bs n : holds m a bs → holds m a (take n bs).
Proof. rewrite <-(take_drop n bs) at 1. by intros [? _]%holds_app. Qed.

Lemma nul_position_some l i :
  nul_position l = Some i → x00 ∉ take i l ∧ take (S i) l = take i l ++ [x00].
Proof.
  unfold nul_position. destruct (list_find (x00 =.) l) as [[j b]|] eqn:E; [|done]. intros [= <-].
  apply list_find_Some in E as (Hj & <- & Hb). split; [|by apply take_S_r].
  intros [k Hk]%list_elem_of_lookup. apply lookup_take_Some in Hk as [Hk Hlt]. by apply (Hb k x00 Hk Hlt).
Qed.

(** The path read is the string the memory holds, up to its NUL. *)
Lemma path_loop_sound tid a fuel : ∀ bs s p s',
  path_loop fuel tid a bs s = (Ok (Some p), s') → holds (mem s) a bs → x00 ∉ bs →
  holds (mem s) a (p ++ [x00]) ∧ x00 ∉ p ∧ mem s' = mem s.
Proof.
  induction fuel as [|fuel IH]; intros bs s p s' H Hm H0; [done|]. cbn [path_loop] in H.
  destruct (4096 <=? _)%Z; [done|]. destruct (U64_MAX <? _)%Z; [done|]. apply M_bind_ok in H as (chunk & s1 & Hr & H).
  apply peek_law in Hr as (Hm1 & _ & _ & Hc).
  assert (Hall : holds (mem s) a (bs ++ chunk)) by (by apply holds_app).
  destruct (nul_position chunk) as [stop|] eqn:En.
  - injection H as <- <-. apply nul_position_some in En as [Hn Ht]. split; [|split; [by rewrite not_elem_of_app|done]].
    rewrite <-app_assoc, <-Ht. apply holds_app. split; [done|]. by apply holds_take.
  - rewrite <-Hm1 in Hall |- *. apply (IH (bs ++ chunk)); [done|done|]. rewrite not_elem_of_app. split; [done|].
    intros [k Hk]%list_elem_of_lookup. unfold nul_position in En.
    destruct (list_find (x00 =.) chunk) as [[]|] eqn:Ef; [done|]. apply list_find_None in Ef.
    by apply (Forall_lookup_1 _ _ _ _ Ef Hk).
Qed.

(** Reading back a stored address. *)
Lemma ipv4_of_address_bytes address :
  port_ok (sa_port address) → ipv4_of_bytes (address_bytes address) = address.
Proof.
  intros Hp. unfold ipv4_of_bytes, address_bytes.
  destruct address as [[a b c d] port]. simpl in *. f_equal.
  apply (be_value_bytes_small 2 port). exact Hp.
Qed.

(** What [ipv4_at] reads of a [sockaddr_in]. *)
Lemma ipv4_at_ok tid a length s address :
  healthy s → check_tid tid = Ok () → address_ok a 16 = true → (16 ≤ length ≤ I32_MAX)%Z →
  port_ok (sa_port address) → holds (mem s) a (address_bytes address) →
  ∃ s', ipv4_at tid a length s = (Ok address, s') ∧ mem s' = mem s ∧ healthy s'.
Proof.
  intros Hh Ht Ha Hl Hp Hm. unfold ipv4_at, family.
  rewrite (proj2 (Z.ltb_ge length 2)), (proj2 (Z.ltb_ge I32_MAX length)) by lia. cbn [orb].
  rewrite !M_bind_run.
  destruct (peek_ok tid a (take 2 (address_bytes address)) s) as (s1 & E1 & Hm1 & Hh1);
    [done|done|by eapply address_ok_le; [|exact Ha]; simpl; lia|by apply holds_take|].
  change (List.length (take 2 _)) with 2 in E1. rewrite E1. unfold mret, M_ret.
  change (negb (le_value (take 2 (address_bytes address)) =? AF_INET)%Z) with false. cbv iota.
  rewrite (proj2 (Z.ltb_ge length 16)) by lia. rewrite M_bind_run. unfold read.
  destruct (peek_ok tid a (address_bytes address) s1) as (s2 & E2 & Hm2 & Hh2);
    [done|done|done|by rewrite Hm1|].
  rewrite length_address_bytes in E2. rewrite E2, ipv4_of_address_bytes by done.
  exists s2. split_and!; [done|congruence|done].
Qed.

Lemma u32_at_ok tid a v s :
  healthy s → check_tid tid = Ok () → address_ok a 4 = true → (0 ≤ v < 2 ^ 32)%Z →
  holds (mem s) a (le_bytes 4 v) →
  ∃ s', u32_at tid a s = (Ok v, s') ∧ mem s' = mem s ∧ healthy s'.
Proof.
  intros Hh Ht Ha Hv Hm. unfold u32_at. rewrite M_bind_run.
  destruct (peek_ok tid a (le_bytes 4 v) s) as (s1 & E1 & Hm1 & Hh1); [done..|].
  change (length (le_bytes 4 v)) with 4 in E1. rewrite E1. exists s1.
  rewrite le_value_bytes_small by exact Hv. done.
Qed.

(** Storing a (truncated) address. *)
Lemma put_address_ok tid a capacity address s :
  healthy s → check_tid tid = Ok () → (0 ≤ capacity ≤ I32_MAX)%Z → address_ok a 16 = true →
  is_mapped (mem s) a (Z.to_nat (Z.min capacity 16)) →
  ∃ s', put_address tid a capacity address s = (Ok (), s') ∧ healthy s' ∧
        mem s' = store (mem s) a (take (Z.to_nat (Z.min capacity 16)) (address_bytes address)).
Proof.
  intros Hh Ht Hc Ha Hm. unfold put_address. rewrite (proj2 (Z.ltb_ge _ _)) by lia.
  assert (Hl : length (take (Z.to_nat (Z.min capacity 16)) (address_bytes address)) = Z.to_nat (Z.min capacity 16)).
  { rewrite length_take, length_address_bytes. lia. }
  destruct (poke_ok tid a (take (Z.to_nat (Z.min capacity 16)) (address_bytes address)) s)
    as (s1 & E1 & Hm1 & Hh1); [done|done| |by rewrite Hl|].
  - eapply address_ok_le; [|exact Ha]. lia.
  - exists s1. done.
Qed.
End memory.

(** The pointers of the two calls that ask for a peer name. *)
Definition peer_pointers (socket_option : bool) (d : Data) : Z * Z :=
  if socket_option then (arg d 3, arg d 4) else (arg d 1, arg d 2).

(** ** Theorems *)

(** A path shorter than PATH_MAX is read up to its terminator from paged memory,
    whatever its position relative to page boundaries, without touching unmapped pages. *)
Lemma path_reads_to_nul {T} {TM : TargetMemory T} (s : T) (tid a : Z) (p : bytes) :
  healthy s → check_tid tid = Ok () → paged (mem s) → (0 < a ≤ U64_MAX - 8192)%Z →
  x00 ∉ p → (Z.of_nat (length p) < 4096)%Z → holds (mem s) a (p ++ [x00]) →
  ∃ s', path tid a s = (Ok (Some p), s') ∧ mem s' = mem s.
Proof.
  intros Hh Ht Hp Ha H0 Hl Hm. apply (path_loop_finds tid a p (S PATH_MAX) 0); try done; [lia|].
  unfold PATH_MAX. lia.
Qed.

(** A path that does not end within [PATH_MAX] bytes is refused. *)
Lemma path_too_long {T} {TM : TargetMemory T} (s : T) (tid a : Z) (p : bytes) :
  healthy s → check_tid tid = Ok () → paged (mem s) → (0 < a ≤ U64_MAX - 8192)%Z →
  x00 ∉ p → Z.of_nat (length p) = 4096%Z → holds (mem s) a p →
  ∃ s', path tid a s = (Err (RawOs ENAMETOOLONG), s') ∧ mem s' = mem s.
Proof.
  intros Hh Ht Hp Ha H0 Hl Hm. apply (path_loop_long tid a p (S PATH_MAX) 0); try done; [lia|].
  unfold PATH_MAX. lia.
Qed.

(** The loop always ends. *)
Lemma path_terminates {T} {TM : TargetMemory T} (s : T) (tid a : Z) : fst (path tid a s) ≠ Ok None.
Proof. apply path_loop_fuel; unfold PATH_MAX; simpl length; lia. Qed.

(** An IPv4 address stored by put_address in a large enough buffer is read back by
    ipv4_at. *)
Lemma address_roundtrip {T} {TM : TargetMemory T} (s : T) (tid a capacity len : Z) (address : SocketAddrV4) :
  healthy s → check_tid tid = Ok () → address_ok a 16 = true → is_mapped (mem s) a 16 →
  (16 ≤ capacity ≤ I32_MAX)%Z → (16 ≤ len ≤ I32_MAX)%Z → port_ok (sa_port address) →
  ∃ s1 s2, put_address tid a capacity address s = (Ok (), s1) ∧
           mem s1 = store (mem s) a (address_bytes address) ∧
           ipv4_at tid a len s1 = (Ok address, s2) ∧ mem s2 = mem s1.
Proof.
  intros Hh Ht Ha Hm Hc Hl Hp. unfold put_address. rewrite (proj2 (Z.ltb_ge _ _)) by lia.
  rewrite Z.min_r by lia. change (take (Z.to_nat 16) (address_bytes address)) with (address_bytes address).
  destruct (poke_ok tid a (address_bytes address) s) as (s1 & E1 & Hm1 & Hh1); [done..|].
  destruct (ipv4_at_ok tid a len s1 address) as (s2 & E2 & Hm2 & Hh2); [done..| |].
  { rewrite Hm1. apply store_holds. }
  exists s1, s2. done.
Qed.

(** getpeername truncates the address to the capacity and stores its full length;
    getsockopt(SO_PEERNAME) keeps the capacity and refuses one over 16 with EINVAL before
    writing anything. *)
Lemma peer_name_behaviour {T} {TM : TargetMemory T} (arch : target_arch) (n : Notification)
    (address : SocketAddrV4) (s : T) (capacity : Z) :
  let option := bool_decide (number arch SYS_getsockopt = Some (nr (ndata n))) in
  let '(pointer, length) := peer_pointers option (ndata n) in
  healthy s → check_tid (npid n) = Ok () → address_ok pointer 16 = true → address_ok length 4 = true →
  (0 ≤ capacity < 2 ^ 32)%Z → holds (mem s) length (le_bytes 4 capacity) →
  is_mapped (mem s) pointer (Z.to_nat (Z.min capacity 16)) →
  ∃ s' r, peer_name arch n address s = (r, s') ∧
    if option && (16 <? capacity)%Z || (I32_MAX <? capacity)%Z
    then r = Err (RawOs EINVAL) ∧ mem s' = mem s
    else r = Ok () ∧
         mem s' = store (store (mem s) pointer (take (Z.to_nat (Z.min capacity 16)) (address_bytes address)))
                    length (le_bytes 4 (if option then capacity else 16)).
Proof.
  intros option. destruct (peer_pointers option (ndata n)) as [pointer length] eqn:Hpp.
  intros Hh Ht Hp Hl Hc Hm Hmap. unfold peer_name. fold option. unfold peer_pointers in Hpp. rewrite Hpp.
  rewrite M_bind_run. destruct (u32_at_ok (npid n) length capacity s) as (s1 & -> & Hm1 & Hh1); [done..|].
  destruct (option && (16 <? capacity)%Z); cbn [orb]; [by exists s1, (Err (RawOs EINVAL))|].
  rewrite M_bind_run. destruct (Z.ltb_spec I32_MAX capacity) as [Hgt|Hle].
  { unfold put_address. rewrite (proj2 (Z.ltb_lt _ _)) by done. by exists s1, (Err (RawOs EINVAL)). }
  destruct (put_address_ok (npid n) pointer capacity address s1) as (s2 & -> & Hh2 & Hm2);
    [done|done|lia|done|by rewrite Hm1|].
  destruct (poke_ok (npid n) length (le_bytes 4 (if option then capacity else 16)) s2)
    as (s3 & E3 & Hm3 & Hh3); [done|done|exact Hl| |].
  { rewrite Hm2, Hm1. apply store_is_mapped; [by rewrite length_take, length_address_bytes, Nat.min_l by lia|].
    by apply holds_is_mapped in Hm. }
  exists s3, (Ok ()). rewrite E3. split; [done|]. by rewrite Hm3, Hm2, Hm1.
Qed.

(** ** Examples *)

(** One page, with some text at its start. *)
Definition page_of (bs : bytes) : bytes := bs ++ replicate (N.to_nat 4096 - length bs) x00.

Definition page_target (bs : bytes) : target := mkTarget (store ∅ 0x1000 (page_of bs)) [Move 2].

Lemma length_page_of bs : length bs ≤ N.to_nat 4096 → length (page_of bs) = N.to_nat 4096.
Proof. intros H. unfold page_of. rewrite length_app, length_replicate. lia. Qed.

Lemma page_target_paged bs : length bs ≤ N.to_nat 4096 → paged (mem_of (page_target bs)).
Proof.
  intros Hl.
  assert (Hx : ∀ x, is_Some (mem_of (page_target bs) !! x) ↔ (0x1000 ≤ x < 0x2000)%Z).
  { intros x. change (mem_of (page_target bs)) with (store ∅ 0x1000 (page_of bs)).
    rewrite lookup_store, length_page_of by done. case_decide as Hr.
    - rewrite lookup_lt_is_Some, length_page_of by done. lia.
    - rewrite lookup_empty. split; [by intros [? ?]|lia]. }
  intros x y Hxy. rewrite !Hx. pose proof (Z.div_mod x 4096). pose proof (Z.div_mod y 4096).
  pose proof (Z.mod_pos_bound x 4096). pose proof (Z.mod_pos_bound y 4096). lia.
Qed.

Lemma page_target_healthy bs : target_healthy (page_target bs).
Proof. repeat constructor. Qed.

Lemma page_target_holds bs : holds (mem_of (page_target bs)) 0x1000 bs.
Proof.
  pose proof (store_holds ∅ 0x1000 (page_of bs)) as H. unfold page_of at 2 in H.
  apply holds_app in H as [H _]. exact H.
Qed.

Lemma path_reads_to_nul_witness :
  let s := page_target (lit "/etc" ++ [x00]) in
  ∃ s', path 7 0x1000 s = (Ok (Some (lit "/etc")), s') ∧ mem s' = mem s.
Proof.
  intros s. apply (path_reads_to_nul s 7 0x1000 (lit "/etc")).
  - apply page_target_healthy.
  - reflexivity.
  - apply page_target_paged. change (length (lit "/etc" ++ [x00])) with 5. lia.
  - unfold U64_MAX. lia.
  - by apply (bool_decide_unpack (x00 ∉ lit "/etc")).
  - simpl. lia.
  - apply page_target_holds.
Defined.

Definition buffer_target : target := mkTarget (store ∅ 0x1000 (le_bytes 4 8 ++ replicate 16 x00)) [].

Lemma buffer_target_healthy : target_healthy buffer_target.
Proof. constructor. Qed.

Lemma buffer_target_parts :
  holds (mem_of buffer_target) 0x1000 (le_bytes 4 8) ∧ is_mapped (mem_of buffer_target) 0x1004 16.
Proof.
  pose proof (store_holds ∅ 0x1000 (le_bytes 4 8 ++ replicate 16 x00)) as [H1 H2]%holds_app.
  split; [exact H1|]. apply holds_is_mapped in H2. exact H2.
Qed.

Lemma address_roundtrip_witness :
  let address := SockAddr (ipv4 10 0 0 1) 8080 in
  ∃ s1 s2, put_address 7 0x1004 16 address buffer_target = (Ok (), s1) ∧
           mem s1 = store (mem buffer_target) 0x1004 (address_bytes address) ∧
           ipv4_at 7 0x1004 16 s1 = (Ok address, s2) ∧ mem s2 = mem s1.
Proof.
  intros address. apply (address_roundtrip buffer_target 7 0x1004 16 16 address).
  - exact buffer_target_healthy.
  - reflexivity.
  - reflexivity.
  - exact (proj2 buffer_target_parts).
  - unfold I32_MAX. lia.
  - unfold I32_MAX. lia.
  - unfold port_ok. simpl. lia.
Defined.

(** getpeername(3, 0x1004, 0x1000) with room for eight bytes. *)
Lemma peer_name_behaviour_witness :
  let n := mkNotification 1 7 0 (mkData 52 0xc000003e 0 [3; 0x1004; 0x1000; 0; 0; 0]%Z) in
  let address := SockAddr (ipv4 10 0 0 1) 8080 in
  ∃ s', peer_name x86_64 n address buffer_target = (Ok (), s') ∧
        mem s' = store (store (mem buffer_target) 0x1004 (take 8 (address_bytes address))) 0x1000 (le_bytes 4 16).
Proof.
  intros n address.
  destruct (peer_name_behaviour x86_64 n address buffer_target 8) as (s' & r & Hr & Hres).
  - exact buffer_target_healthy.
  - reflexivity.
  - reflexivity.
  - reflexivity.
  - lia.
  - exact (proj1 buffer_target_parts).
  - apply (is_mapped_le _ _ 16 8); [lia|exact (proj2 buffer_target_parts)].
  - destruct Hres as [-> Hm]. exists s'. split; [exact Hr|exact Hm].
Defined.
