(* ===== verification/Message.v ===== *)
(** * Message buffers of the native ABI: src/broker/message.rs

    A [Message] is a recvfrom/recvmsg (or sendto/sendmsg) buffer as the
    handlers see it: where the peer name goes, the control buffer and the data
    vectors. [usize] and [u64] coincide on the 64-bit targets. *)
From S2P Require Import Prelude RustStd Net Stream Seccomp Access Memory.

Record Message := mkMessage {
  name : Z;
  name_length : Z;
  control : Z;
  control_length : Z;
  vectors : list (Z * Z);
  header : option Z;
  length_pointer : option Z;
}.

(** [size.checked_add(length).filter(|&v| v <= isize::MAX)], folded. *)
Definition capacity_step (size : io Z) (v : Z * Z) : io Z :=
  size ← size;
  let value := (size + snd v)%Z in
  if (value <=? U64_MAX)%Z && (value <=? ISIZE_MAX)%Z then Ok value else Err (RawOs EINVAL).

Definition capacity (m : Message) : io Z := foldl capacity_step (Ok 0%Z) (vectors m).

Fixpoint chunks16 (fuel : nat) (bs : bytes) : list (Z * Z) :=
  match fuel with
  | O => []
  | S fuel => (le_value (take 8 bs), le_value (take 8 (drop 8 bs))) :: chunks16 fuel (drop 16 bs)
  end.

Section message.
Context {T : Type} {TM : TargetMemory T}.

Definition flat (tid buffer length name_ length_pointer_ : Z) (receive : bool) : M T io_error Message :=
  name_length_ ← (if (name_ =? 0)%Z then mret 0%Z
                  else if receive then u32_at tid length_pointer_
                  else mret (length_pointer_ mod 2 ^ 32)%Z);
  mret (mkMessage name_ name_length_ 0 0 [(buffer, length)] None
          (if receive && negb (name_ =? 0)%Z then Some length_pointer_ else None)).

Definition MAX_VECTORS : Z := 1024.

Definition word (bs : bytes) (offset : nat) : Z := le_value (take 8 (drop offset bs)).

(** The [msghdr] at [pointer] and its vectors. *)
Definition read_header (tid pointer : Z) : M T io_error Message :=
  bs ← read tid pointer 56;
  let count := word bs 24 in
  if (MAX_VECTORS <? count)%Z then mfail (RawOs EMSGSIZE) else
  vs ← read tid (word bs 16) (Z.to_nat (count * 16));
  mret (mkMessage (word bs 0) (le_value (take 4 (drop 8 bs))) (word bs 32) (word bs 40)
          (chunks16 (length vs / 16) vs) (Some pointer) None).

Definition MAX_PAYLOAD : Z := 65507.

Fixpoint read_vectors (tid : Z) (vs : list (Z * Z)) : M T io_error bytes :=
  match vs with
  | [] => mret []
  | (address, length) :: vs =>
      part ← peek tid address (Z.to_nat length);
      rest ← read_vectors tid vs;
      mret (part ++ rest)
  end.

Definition read_payload (m : Message) (tid : Z) : M T io_error bytes :=
  size ← lift_result (capacity m);
  if (MAX_PAYLOAD <? size)%Z then mfail (RawOs EMSGSIZE) else read_vectors tid (vectors m).

Fixpoint write_vectors (tid : Z) (vs : list (Z * Z)) (remaining : bytes) : M T io_error () :=
  match vs with
  | [] => mret ()
  | (pointer, len) :: vs =>
      let count := Z.to_nat (Z.min len (Z.of_nat (length remaining))) in
      _ ← poke tid pointer (take count remaining);
      let remaining := drop count remaining in
      if bool_decide (remaining = []) then mret () else write_vectors tid vs remaining
  end.

Definition write_payload (m : Message) (tid : Z) (bs : bytes) : M T io_error () :=
  write_vectors tid (vectors m) bs.

Definition finish (m : Message) (tid : Z) (source : SocketAddrV4) (control_bytes : bytes) (flags : Z)
    : M T io_error () :=
  _ ← (if negb (name m =? 0)%Z then put_address tid (name m) (name_length m) source else mret ());
  _ ← match length_pointer m with
      | Some pointer => poke tid pointer (le_bytes 4 16)
      | None => mret ()
      end;
  match header m with
  | Some h =>
      _ ← poke tid (h + 8) (le_bytes 4 (if (name m =? 0)%Z then 0 else 16));
      _ ← poke tid (control m) control_bytes;
      _ ← poke tid (h + 40) (le_bytes 8 (Z.of_nat (length control_bytes)));
      poke tid (h + 48) (le_bytes 4 flags)
  | None => mret ()
  end.

(** ** The layout *)

Definition u64_ok (z : Z) : Prop := (0 ≤ z < 2 ^ 64)%Z.

(** [struct iovec] and [struct msghdr] of the native ABI; [pad] bytes are
    unspecified. *)
Definition iovec_bytes (v : Z * Z) : bytes := le_bytes 8 (fst v) ++ le_bytes 8 (snd v).

Definition msghdr_bytes (name namelen : Z) (pad1 : bytes) (iov iovlen control controllen flags : Z)
    (pad2 : bytes) : bytes :=
  le_bytes 8 name ++ le_bytes 4 namelen ++ pad1 ++ le_bytes 8 iov ++ le_bytes 8 iovlen
    ++ le_bytes 8 control ++ le_bytes 8 controllen ++ le_bytes 4 flags ++ pad2.

Definition vector_ok (v : Z * Z) : Prop := u64_ok (fst v) ∧ u64_ok (snd v).

Definition payload_size (vs : list (Z * Z)) : Z := foldr (λ v n, snd v + n)%Z 0%Z vs.

(** *** Lemmas *)

Ltac word_length := rewrite !length_app, !length_le_bytes; simpl in *; lia.

Lemma word_at pre v post : u64_ok v → word (pre ++ le_bytes 8 v ++ post) (length pre) = v.
Proof.
  intros Hv. unfold word. rewrite drop_app_length, take_app_le by (rewrite length_le_bytes; lia).
  rewrite take_ge by (rewrite length_le_bytes; lia). apply le_value_bytes_small. exact Hv.
Qed.

Lemma chunks16_vectors vs :
  Forall vector_ok vs → chunks16 (length vs) (concat (iovec_bytes <$> vs)) = vs.
Proof.
  induction 1 as [|[a l] vs [Ha Hl] _ IH]; [done|]. cbn [length chunks16 fmap list_fmap concat].
  change (iovec_bytes (a, l)) with (le_bytes 8 a ++ le_bytes 8 l). rewrite <-!app_assoc.
  pose proof (word_at [] a (le_bytes 8 l ++ concat (iovec_bytes <$> vs)) Ha) as Wa.
  pose proof (word_at (le_bytes 8 a) l (concat (iovec_bytes <$> vs)) Hl) as Wl.
  unfold word in *. rewrite length_le_bytes in Wl. cbn [app length] in Wa. rewrite drop_0 in Wa.
  rewrite Wa, Wl. f_equal. rewrite app_assoc, drop_app_length'; [exact IH|].
  by rewrite length_app, !length_le_bytes.
Qed.

Lemma length_vectors vs : length (concat (iovec_bytes <$> vs)) = 16 * length vs.
Proof.
  induction vs as [|v vs IH]; [done|]. cbn [fmap list_fmap concat length].
  rewrite length_app, IH. unfold iovec_bytes. rewrite length_app, !length_le_bytes. lia.
Qed.

Lemma capacity_fold vs : ∀ size,
  (0 ≤ size ≤ ISIZE_MAX)%Z → Forall vector_ok vs →
  foldl capacity_step (Ok size) vs =
    if (size + payload_size vs <=? ISIZE_MAX)%Z then Ok (size + payload_size vs)%Z else Err (RawOs EINVAL).
Proof.
  assert (Herr : ∀ vs e, foldl capacity_step (Err e) vs = Err e) by (intros vs'; by induction vs').
  induction vs as [|v vs IH]; intros size Hs Hv; simpl.
  - rewrite Z.add_0_r, (proj2 (Z.leb_le _ _)) by lia. done.
  - apply Forall_cons_1 in Hv as [[_ Hl] Hv].
    assert (Hp : (0 ≤ payload_size vs)%Z).
    { clear -Hv. induction Hv as [|[a l] vs [_ [Hl _]] _ IH]; simpl in *; lia. }
    unfold u64_ok in Hl. change (2 ^ 64)%Z with (U64_MAX + 1)%Z in Hl.
    destruct (Z.leb_spec (size + snd v) ISIZE_MAX) as [Hle|Hgt].
    + rewrite (proj2 (Z.leb_le _ _)) by (unfold U64_MAX, ISIZE_MAX in *; lia). simpl.
      rewrite IH by (done || lia). by rewrite Z.add_assoc.
    + rewrite andb_false_r, Herr, (proj2 (Z.leb_gt _ _)) by lia. done.
Qed.

(** The fields of a [msghdr] at their offsets. *)
Lemma msghdr_fields nm nlen pad1 iov n ctl clen flags pad2 :
  let hdr := msghdr_bytes nm nlen pad1 iov n ctl clen flags pad2 in
  length pad1 = 4 → length pad2 = 4 → (0 ≤ nlen < 2 ^ 32)%Z →
  u64_ok nm → u64_ok iov → u64_ok n → u64_ok ctl → u64_ok clen →
  length hdr = 56 ∧ word hdr 0 = nm ∧ le_value (take 4 (drop 8 hdr)) = nlen ∧
  word hdr 16 = iov ∧ word hdr 24 = n ∧ word hdr 32 = ctl ∧ word hdr 40 = clen.
Proof.
  intros hdr Hp1 Hp2 Hnl Hnm Hiov Hn Hctl Hclen.
  assert (Hw : ∀ pre v post off, hdr = pre ++ le_bytes 8 v ++ post → length pre = off → u64_ok v → word hdr off = v).
  { intros pre v post off -> <- Hv. by apply word_at. }
  set (t := le_bytes 4 flags ++ pad2).
  set (p16 := le_bytes 8 nm ++ le_bytes 4 nlen ++ pad1).
  assert (H16 : length p16 = 16) by (unfold p16; rewrite !length_app, !length_le_bytes, Hp1; done).
  assert (Hd : hdr = p16 ++ le_bytes 8 iov ++ le_bytes 8 n ++ le_bytes 8 ctl ++ le_bytes 8 clen ++ t).
  { unfold hdr, msghdr_bytes, p16, t. by rewrite <-!app_assoc. }
  split_and!.
  - rewrite Hd. unfold t. rewrite !length_app, !length_le_bytes, H16, Hp2. done.
  - by apply (word_at [] nm).
  - unfold hdr, msghdr_bytes. rewrite drop_app_length' by (by rewrite length_le_bytes).
    rewrite take_app_length' by (by rewrite length_le_bytes). by apply le_value_bytes_small.
  - by apply (Hw p16 _ _ _ Hd).
  - apply (Hw (p16 ++ le_bytes 8 iov) n (le_bytes 8 ctl ++ le_bytes 8 clen ++ t)); [|word_length|done].
    by rewrite Hd, <-!app_assoc.
  - apply (Hw (p16 ++ le_bytes 8 iov ++ le_bytes 8 n) ctl (le_bytes 8 clen ++ t)); [|word_length|done].
    by rewrite Hd, <-!app_assoc.
  - apply (Hw (p16 ++ le_bytes 8 iov ++ le_bytes 8 n ++ le_bytes 8 ctl) clen t); [|word_length|done].
    by rewrite Hd, <-!app_assoc.
Qed.

(** *** Vectors in memory *)

(** A vector the kernel would accept: readable and writable throughout. *)
Definition vector_mapped (m : memory) (v : Z * Z) : Prop :=
  (0 ≤ snd v)%Z ∧ address_ok (fst v) (Z.to_nat (snd v)) = true ∧ is_mapped m (fst v) (Z.to_nat (snd v)).

Definition apart (v w : Z * Z) : Prop := (fst v + snd v ≤ fst w ∨ fst w + snd w ≤ fst v)%Z.

Fixpoint separate (vs : list (Z * Z)) : Prop :=
  match vs with
  | [] => True
  | v :: vs => Forall (apart v) vs ∧ separate vs
  end.

(** What the vectors hold, one after the other. *)
Definition gathered (m : memory) (vs : list (Z * Z)) : bytes :=
  concat ((λ v, mapped_prefix m (fst v) (Z.to_nat (snd v))) <$> vs).

Lemma read_vectors_ok tid vs : ∀ s,
  healthy s → check_tid tid = Ok () → Forall (vector_mapped (mem s)) vs →
  ∃ s', read_vectors tid vs s = (Ok (gathered (mem s) vs), s') ∧ mem s' = mem s.
Proof.
  induction vs as [|[a l] vs IH]; intros s Hh Ht Hv; [by exists s|].
  apply Forall_cons_1 in Hv as [(Hl & Ha & Hm) Hv]. cbn [fst snd] in *.
  cbn [read_vectors]. rewrite M_bind_run.
  pose proof (mapped_prefix_holds (mem s) a (Z.to_nat l) (Z.to_nat l)) as Hp.
  rewrite take_ge in Hp by apply length_mapped_prefix. unfold is_mapped in Hm.
  destruct (peek_ok tid a (mapped_prefix (mem s) a (Z.to_nat l)) s) as (s1 & E & Hm1 & Hh1);
    [done|done|by rewrite Hm|done|].
  rewrite Hm in E. rewrite E, M_bind_run.
  destruct (IH s1 Hh1 Ht) as (s2 & -> & Hm2); [by rewrite Hm1|].
  exists s2. rewrite Hm2, Hm1. done.
Qed.

Lemma vector_mapped_store m a bs v :
  is_mapped m a (length bs) → vector_mapped m v → vector_mapped (store m a bs) v.
Proof. intros Hm (? & ? & ?). split_and!; [done..|]. by apply store_is_mapped. Qed.

Lemma write_vectors_ok tid vs : ∀ bs s,
  healthy s → check_tid tid = Ok () → Forall (vector_mapped (mem s)) vs → separate vs →
  (Z.of_nat (length bs) ≤ payload_size vs)%Z →
  ∃ s', write_vectors tid vs bs s = (Ok (), s') ∧ healthy s' ∧ Forall (vector_mapped (mem s')) vs ∧
    take (length bs) (gathered (mem s') vs) = bs ∧
    ∀ a part, Forall (apart (a, Z.of_nat (length part))) vs → holds (mem s) a part → holds (mem s') a part.
Proof.
  induction vs as [|[a l] vs IH]; intros bs s Hh Ht Hv Hsep Hlen.
  { exists s. split_and!; try done. destruct bs; [done|simpl in Hlen; lia]. }
  destruct Hsep as [Hap Hsep]. pose proof Hv as Hv0.
  apply Forall_cons_1 in Hv as [(Hl & Ha & Hm) Hv]. cbn [fst snd payload_size foldr] in *.
  cbn [write_vectors]. rewrite M_bind_run.
  set (count := Z.to_nat (Z.min l (Z.of_nat (length bs)))).
  assert (Hcl : length (take count bs) = count) by (rewrite length_take; lia).
  destruct (poke_ok tid a (take count bs) s) as (s1 & -> & Hm1 & Hh1); [done|done|..].
  { rewrite Hcl. eapply address_ok_le; [|exact Ha]. lia. }
  { rewrite Hcl. eapply is_mapped_le; [|exact Hm]. lia. }
  assert (Hstore : is_mapped (mem s) a (length (take count bs))).
  { rewrite Hcl. eapply is_mapped_le; [|exact Hm]. lia. }
  assert (Hv1 : Forall (vector_mapped (mem s1)) ((a, l) :: vs)).
  { rewrite Hm1. eapply Forall_impl; [|exact Hv0]. intros v. by apply vector_mapped_store. }
  assert (Hframe : ∀ b part, apart (b, Z.of_nat (length part)) (a, l) → holds (mem s) b part → holds (mem s1) b part).
  { intros b part Hd. rewrite Hm1. apply store_holds_other. unfold apart in Hd. simpl in Hd. lia. }
  assert (Hhere : holds (mem s1) a (take count bs)) by (rewrite Hm1; apply store_holds).
  case_bool_decide as Hrest.
  - exists s1. split_and!; [done..| |].
    + assert (Hb : take count bs = bs).
      { rewrite <-(take_drop count bs) at 2. by rewrite Hrest, app_nil_r. }
      rewrite Hb in *. unfold gathered. cbn [fmap list_fmap concat fst snd].
      apply Forall_cons_1 in Hv1 as [(_ & _ & Hm') _]. cbn [fst snd] in Hm'. unfold is_mapped in Hm'.
      rewrite take_app_le by lia. symmetry. apply holds_prefix with (m := mem s1) (a := a); [done| |lia].
      pose proof (mapped_prefix_holds (mem s1) a (Z.to_nat l) (Z.to_nat l)) as Hp.
      by rewrite take_ge in Hp by apply length_mapped_prefix.
    + intros b part [Hd _]%Forall_cons_1. by apply Hframe.
  - assert (Hc : count = Z.to_nat l).
    { destruct (decide (count < length bs)); [lia|]. by rewrite drop_ge in Hrest by lia. }
    pose proof Hv1 as [_ Hvs1]%Forall_cons_1.
    destruct (IH (drop count bs) s1 Hh1 Ht Hvs1 Hsep) as (s2 & -> & Hh2 & Hv2 & Hg & Hf2).
    { rewrite length_drop. unfold payload_size. lia. }
    assert (Hpart : holds (mem s2) a (take count bs)).
    { apply Hf2; [|done]. rewrite Hcl, Hc, Z2Nat.id by lia. exact Hap. }
    exists s2. split_and!; [done|done| | |].
    + constructor; [|done]. split_and!; [done..|]. simpl.
      apply holds_is_mapped in Hpart. rewrite Hcl, Hc in Hpart. exact Hpart.
    + unfold gathered. cbn [fmap list_fmap concat fst snd]. fold (gathered (mem s2) vs).
      unfold holds in Hpart. rewrite Hcl, Hc in Hpart. rewrite Hpart, <-Hc.
      rewrite <-(take_drop count bs) at 3. rewrite <-Hg.
      rewrite take_app_ge by lia. rewrite Hcl, length_drop. f_equal.
    + intros b part [Hd Hds]%Forall_cons_1 Hb. apply Hf2; [done|]. by apply Hframe.
Qed.
End message.

(** ** Theorems *)

(** A msghdr laid out by the native ABI decodes to its name, control buffer and all its
    vectors. *)
Lemma header_decodes {T} {TM : TargetMemory T} (s : T) (tid pointer nm nlen iov ctl clen flags : Z)
    (pad1 pad2 : bytes) (vs : list (Z * Z)) :
  healthy s → check_tid tid = Ok () → address_ok pointer 56 = true →
  length pad1 = 4 → length pad2 = 4 →
  u64_ok nm → (0 ≤ nlen < 2 ^ 32)%Z → u64_ok iov → u64_ok ctl → u64_ok clen →
  Forall vector_ok vs → (Z.of_nat (length vs) ≤ MAX_VECTORS)%Z →
  address_ok iov (length (concat (iovec_bytes <$> vs))) = true →
  holds (mem s) pointer (msghdr_bytes nm nlen pad1 iov (Z.of_nat (length vs)) ctl clen flags pad2) →
  holds (mem s) iov (concat (iovec_bytes <$> vs)) →
  ∃ s', read_header tid pointer s = (Ok (mkMessage nm nlen ctl clen vs (Some pointer) None), s') ∧
        mem s' = mem s.
Proof.
  intros Hh Ht Ha Hp1 Hp2 Hnm Hnl Hiov Hctl Hclen Hvs Hn Hai Hm Hmv.
  unfold read_header, read. rewrite M_bind_run.
  set (hdr := msghdr_bytes _ _ _ _ _ _ _ _ _) in *.
  destruct (msghdr_fields nm nlen pad1 iov (Z.of_nat (length vs)) ctl clen flags pad2)
    as (Hl & W0 & W8 & W16 & W24 & W32 & W40); [done..|unfold u64_ok, MAX_VECTORS in *; lia|done|done|].
  fold hdr in Hl, W0, W8, W16, W24, W32, W40.
  destruct (peek_ok tid pointer hdr s) as (s1 & E1 & Hm1 & Hh1); [done|done|by rewrite Hl|done|].
  rewrite Hl in E1. rewrite E1, W0, W8, W16, W24, W32, W40.
  rewrite (proj2 (Z.ltb_ge _ _)) by done. rewrite M_bind_run.
  destruct (peek_ok tid iov (concat (iovec_bytes <$> vs)) s1) as (s2 & E2 & Hm2 & Hh2);
    [done|done|done|by rewrite Hm1|].
  replace (length (concat (iovec_bytes <$> vs))) with (Z.to_nat (Z.of_nat (length vs) * 16)) in E2
    by (rewrite length_vectors; lia).
  rewrite E2. exists s2. split; [|congruence]. unfold mret, M_ret. do 3 f_equal.
  rewrite length_vectors, Nat.mul_comm, Nat.div_mul by lia. by apply chunks16_vectors.
Qed.

(** The capacity is the sum of the lengths, or EINVAL past [isize::MAX]. *)
Lemma capacity_is_sum (m : Message) :
  Forall vector_ok (vectors m) →
  capacity m = if (payload_size (vectors m) <=? ISIZE_MAX)%Z
               then Ok (payload_size (vectors m)) else Err (RawOs EINVAL).
Proof. intros Hv. unfold capacity. by rewrite capacity_fold by (done || unfold ISIZE_MAX; lia). Qed.

(** A payload scattered over disjoint vectors is gathered back from them. *)
Lemma payload_roundtrip {T} {TM : TargetMemory T} (s : T) (m : Message) (tid : Z) (bs : bytes) :
  healthy s → check_tid tid = Ok () → Forall (vector_mapped (mem s)) (vectors m) →
  Forall vector_ok (vectors m) → separate (vectors m) →
  (Z.of_nat (length bs) ≤ payload_size (vectors m) ≤ MAX_PAYLOAD)%Z →
  ∃ s1 s2 data, write_payload m tid bs s = (Ok (), s1) ∧
    read_payload m tid s1 = (Ok data, s2) ∧ take (length bs) data = bs ∧ mem s2 = mem s1.
Proof.
  intros Hh Ht Hv Hok Hsep Hlen.
  destruct (write_vectors_ok tid (vectors m) bs s) as (s1 & E1 & Hh1 & Hv1 & Hg & _); [done..|lia|].
  destruct (read_vectors_ok tid (vectors m) s1 Hh1 Ht Hv1) as (s2 & E2 & Hm2).
  exists s1, s2, (gathered (mem s1) (vectors m)). split; [done|]. unfold read_payload.
  rewrite M_bind_run. unfold lift_result, capacity.
  rewrite capacity_fold by (done || unfold ISIZE_MAX; lia). rewrite Z.add_0_l.
  rewrite (proj2 (Z.leb_le _ _)) by (unfold MAX_PAYLOAD, ISIZE_MAX in *; lia).
  rewrite (proj2 (Z.ltb_ge _ _)) by lia. done.
Qed.

(** ** Examples *)

(** A header at 0x1000 with one vector (at 0x2000) of four bytes at 0x3000. *)
Definition header_example : bytes :=
  msghdr_bytes 0 0 (replicate 4 x00) 0x2000 1 0 0 0 (replicate 4 x00).

Definition message_target : target :=
  mkTarget (store (store (store ∅ 0x3000 (lit "abcd")) 0x2000 (iovec_bytes (0x3000, 4)%Z)) 0x1000 header_example)
    [Move 3].

Lemma message_target_healthy : target_healthy message_target.
Proof. repeat constructor. Qed.

Lemma header_decodes_witness :
  ∃ s', read_header 7 0x1000 message_target
          = (Ok (mkMessage 0 0 0 0 [(0x3000, 4)%Z] (Some 0x1000%Z) None), s') ∧
        mem s' = mem message_target.
Proof.
  apply (header_decodes message_target 7 0x1000 0 0 0x2000 0 0 0
           (replicate 4 x00) (replicate 4 x00) [(0x3000, 4)%Z]);
    try reflexivity; try (unfold u64_ok; lia).
  - exact message_target_healthy.
  - repeat constructor; simpl; lia.
  - unfold MAX_VECTORS. simpl. lia.
Defined.

Lemma payload_roundtrip_witness :
  let m := mkMessage 0 0 0 0 [(0x3002, 2); (0x3000, 2)]%Z None None in
  ∃ s1 s2 data, write_payload m 7 (lit "xyz") message_target = (Ok (), s1) ∧
    read_payload m 7 s1 = (Ok data, s2) ∧ take 3 data = lit "xyz" ∧ mem s2 = mem s1.
Proof.
  intros m.
  assert (Hm : is_mapped (mem_of message_target) 0x3000 (2 + 2)).
  { apply (holds_is_mapped _ _ (lit "abcd")).
    change (mem_of message_target) with
      (store (store (store ∅ 0x3000 (lit "abcd")) 0x2000 (iovec_bytes (0x3000, 4)%Z)) 0x1000 header_example).
    rewrite !store_holds_other by (right; vm_compute; discriminate). apply store_holds. }
  apply is_mapped_app in Hm as [Hm1 Hm2].
  apply (payload_roundtrip message_target m 7 (lit "xyz")).
  - exact message_target_healthy.
  - reflexivity.
  - constructor; [|constructor; [|constructor]].
    + split; [simpl; lia|]. split; [reflexivity|exact Hm2].
    + split; [simpl; lia|]. split; [reflexivity|exact Hm1].
  - repeat constructor; simpl; lia.
  - simpl. split; [|split; [constructor|exact I]].
    constructor; [|constructor]. right. simpl. lia.
  - unfold MAX_PAYLOAD. simpl. lia.
Defined.
