(* ===== verification/Relay.v ===== *)
(** * Forwarding between the application and the host: src/broker/relay.rs

    One round of the loop of [run] is [round]; what the kernel answers in that
    round (how much a write takes, queue lengths, a pending socket error) is
    its [env]. Both ends are any [ByteSource]s, so the same theorems cover a
    plain socket and a [ProxyStream] with prefetched bytes. [delivered_*]
    records what has been written to each side. *)
From S2P Require Import Prelude RustStd Stream Proxy.

Definition BUFFER : nat := N.to_nat 65536.

Lemma BUFFER_pos : 0 < BUFFER.
Proof. unfold BUFFER. lia. Qed.

#[local] Opaque BUFFER.

(** [try_write]: how many bytes the socket takes at most, or an error. *)
Record env := mkEnv {
  write_app : io nat;
  write_host : io nat;
  queued : io Z;
  socket_error : io (option io_error);
  out_queue : io Z;
  in_queue : io Z;
  ready : io ();
}.

(** The bytes written, the bytes still pending and whether any went out. *)
Definition flush (accepts : io nat) (pending : bytes) : io (bytes * bytes * bool) :=
  if bool_decide (pending = []) then Ok ([], pending, false) else
  match accepts with
  | Ok n =>
      let count := min n (length pending) in
      if bool_decide (count = 0) then Err (Simple WriteZero)
      else Ok (take count pending, drop count pending, true)
  | Err error =>
      if bool_decide (kind error = WouldBlock) then Ok ([], pending, false) else Err error
  end.

Section relay.
Context {A H : Type} {SA : ByteSource A} {SH : ByteSource H}.

Record relay := mkRelay {
  application : A;
  host : H;
  to_application : bytes;
  to_host : bytes;
  close_after_drain : bool;
  delivered_app : bytes;
  delivered_host : bytes;
}.

Definition start (application : A) (host : H) : relay := mkRelay application host [] [] false [] [].

(** A read into the space left: the buffer, whether EOF was seen, progress. *)
Definition fill {S} {SS : ByteSource S} (s : S) (buf : bytes) : io (S * bytes * bool * bool) :=
  match try_read s (BUFFER - length buf) with
  | (Ok [], s) => Ok (s, buf, true, true)
  | (Ok bs, s) => Ok (s, buf ++ bs, false, true)
  | (Err error, s) =>
      if bool_decide (kind error = WouldBlock) then Ok (s, buf, false, false) else Err error
  end.

Definition may_fill (guard : bool) (buf : bytes) : bool := guard && bool_decide (length buf < BUFFER).

(** The guarded read of either direction. *)
Definition fill_if {S} {SS : ByteSource S} (guard : bool) (s : S) (buf : bytes) : io (S * bytes * bool * bool) :=
  if may_fill guard buf then fill s buf else Ok (s, buf, false, false).

(** The branches of [select!] that may be polled; with none it panics. *)
Definition select_enabled (close : bool) (queued : Z) (to_app to_hst : bytes) : bool :=
  may_fill (negb close) to_app || may_fill (negb close || (0 <? queued)%Z) to_hst
  || negb (bool_decide (to_hst = [])) || negb (bool_decide (to_app = [])) || close.

Inductive after :=
| Again (r : relay) (progress : bool)
| Done (r : relay)
| SelectPanic.

Definition round (e : env) (r : relay) : io after :=
  '(h, to_app, eof1, p1) ← fill_if (negb (close_after_drain r)) (host r) (to_application r);
  let close := close_after_drain r || eof1 in
  '(sent_a, to_app, p2) ← flush (write_app e) to_app;
  queued ← queued e;
  '(a, to_hst, eof2, p3) ← fill_if (negb close || (0 <? queued)%Z) (application r) (to_host r);
  let close := close || eof2 in
  '(sent_h, to_hst, p4) ← flush (write_host e) to_hst;
  error ← (if close then socket_error e else Ok None);
  match error with
  | Some error => Err error
  | None =>
      finished ← (if close && bool_decide (to_app = []) && bool_decide (to_hst = []) then
                    out ← out_queue e;
                    if (out =? 0)%Z then inq ← in_queue e; Ok (inq =? 0)%Z else Ok false
                  else Ok false);
      let r' := mkRelay a h to_app to_hst close (delivered_app r ++ sent_a) (delivered_host r ++ sent_h) in
      if (finished : bool) then Ok (Done r') else
      let progress := p1 || p2 || p3 || p4 in
      if progress then Ok (Again r' true)
      else if negb (select_enabled close queued to_app to_hst) then Ok SelectPanic
      else _ ← ready e; Ok (Again r' false)
  end.

(** The loop over the rounds the environment allows. *)
Inductive status := Running (r : relay) | Finished (r : relay) | Failed (e : io_error) | Panicked.

Fixpoint run_loop (es : list env) (r : relay) : status :=
  match es with
  | [] => Running r
  | e :: es => match round e r with
               | Ok (Again r' _) => run_loop es r'
               | Ok (Done r') => Finished r'
               | Ok SelectPanic => Panicked
               | Err error => Failed error
               end
  end.

(** [run]: [nodelay] is the outcome of the two set_nodelay calls. *)
Definition run (nodelay : io ()) (es : list env) (application : A) (host : H) : status :=
  match nodelay with
  | Ok _ => run_loop es (start application host)
  | Err error => Failed error
  end.

(** ** Lemmas *)

(** What one direction has seen of [all]. *)
Definition conserved (all delivered pending rest : bytes) : Prop := all = delivered ++ pending ++ rest.

Record relay_ok (a0 h0 : bytes) (r : relay) : Prop := {
  rk_app : conserved h0 (delivered_app r) (to_application r) (content (host r));
  rk_host : conserved a0 (delivered_host r) (to_host r) (content (application r));
  rk_bound : length (to_application r) ≤ BUFFER ∧ length (to_host r) ≤ BUFFER;
  rk_close : close_after_drain r = true → content (host r) = [] ∨ content (application r) = [];
}.

Lemma fill_spec {S} {SS : ByteSource S} (s s' : S) buf buf' eof p :
  length buf < BUFFER → fill s buf = Ok (s', buf', eof, p) →
  buf' ++ content s' = buf ++ content s ∧ length buf' ≤ BUFFER ∧ length buf ≤ length buf' ∧
  (eof = true → content s' = [] ∧ p = true ∧ buf' = buf) ∧
  (eof = false → p = true → length (content s') < length (content s)) ∧
  (p = false → buf' = buf ∧ content s' = content s) ∧
  (content s = [] → content s' = []).
Proof.
  intros Hb. unfold fill. destruct (try_read s (BUFFER - length buf)) as [[bs|e] s1] eqn:E.
  - pose proof (try_read_ok _ _ _ _ E) as [Hc Hl]. destruct bs as [|b bs]; intros [= <- <- <- <-].
    + apply try_read_eof in E; [|lia]. simpl in Hc. rewrite Hc in E. split_and!; try done; [by rewrite Hc|lia].
    + rewrite Hc, <-app_assoc, !length_app. split_and!; try done; simpl in *; intros; done || lia.
  - apply try_read_err in E. case_bool_decide; [|done]. intros [= <- <- <- <-]. rewrite E.
    split_and!; try done. lia.
Qed.

Lemma flush_spec accepts pending sent rest p :
  flush accepts pending = Ok (sent, rest, p) →
  pending = sent ++ rest ∧ (p = true → sent ≠ []) ∧ (p = false → sent = [] ∧ rest = pending).
Proof.
  unfold flush. case_bool_decide as Hp; [by intros [= <- <- <-]|].
  destruct accepts as [n|e]; case_bool_decide as Hn; try done; intros [= <- <- <-]; [|done].
  split_and!; [by rewrite take_drop| |done]. intros _ E.
  apply (f_equal length) in E. rewrite length_take in E. simpl in E. lia.
Qed.

Lemma conserved_flush all d pending rest sent pending' :
  conserved all d pending rest → pending = sent ++ pending' → conserved all (d ++ sent) pending' rest.
Proof. unfold conserved. intros -> ->. by rewrite <-!app_assoc. Qed.

Lemma conserved_fill all d buf rest buf' rest' :
  conserved all d buf rest → buf' ++ rest' = buf ++ rest → conserved all d buf' rest'.
Proof. unfold conserved. intros -> <-. done. Qed.

Lemma fill_if_spec {S} {SS : ByteSource S} (guard : bool) (s s' : S) buf buf' eof p :
  length buf ≤ BUFFER → fill_if guard s buf = Ok (s', buf', eof, p) →
  buf' ++ content s' = buf ++ content s ∧ length buf' ≤ BUFFER ∧
  (eof = true → content s' = [] ∧ guard = true ∧ p = true ∧ buf' = buf) ∧
  (eof = false → p = true → length (content s') < length (content s)) ∧
  (p = false → buf' = buf ∧ content s' = content s) ∧
  (content s = [] → content s' = []).
Proof.
  intros Hb. unfold fill_if, may_fill. destruct guard; simpl.
  - case_bool_decide as Hlt.
    + intros (?&?&?&He&?&?&?)%fill_spec; [|done]. split_and!; try done. intros (?&?&?)%He. done.
    + intros [= <- <- <- <-]. done.
  - intros [= <- <- <- <-]. done.
Qed.

(** The stages of a round that did not fail. *)
Lemma round_stages e r out :
  round e r = Ok out →
  ∃ h b1 eof1 p1 sa ta p2 q a b2 eof2 p3 sh th p4,
    fill_if (negb (close_after_drain r)) (host r) (to_application r) = Ok (h, b1, eof1, p1) ∧
    flush (write_app e) b1 = Ok (sa, ta, p2) ∧ queued e = Ok q ∧
    fill_if (negb (close_after_drain r || eof1) || (0 <? q)%Z) (application r) (to_host r) = Ok (a, b2, eof2, p3) ∧
    flush (write_host e) b2 = Ok (sh, th, p4) ∧
    let close := close_after_drain r || eof1 || eof2 in
    let r' := mkRelay a h ta th close (delivered_app r ++ sa) (delivered_host r ++ sh) in
    (out = Done r' ∧ close = true ∧ ta = [] ∧ th = [] ∧ out_queue e = Ok 0%Z ∧ in_queue e = Ok 0%Z) ∨
    out = Again r' (p1 || p2 || p3 || p4) ∨
    (out = SelectPanic ∧ select_enabled close q ta th = false).
Proof.
  unfold round. destruct (fill_if _ (host r) _) as [[[[h b1] eof1] p1]|] eqn:E1; [|done]. cbn [mbind result_bind].
  destruct (flush _ b1) as [[[sa ta] p2]|] eqn:E2; [|done]. cbn [mbind result_bind].
  destruct (queued e) as [q|]; [|done]. cbn [mbind result_bind].
  destruct (fill_if _ (application r) _) as [[[[a b2] eof2] p3]|] eqn:E3; [|done]. cbn [mbind result_bind].
  destruct (flush _ b2) as [[[sh th] p4]|] eqn:E4; [|done]. cbn [mbind result_bind].
  intros Hout. exists h, b1, eof1, p1, sa, ta, p2, q, a, b2, eof2, p3, sh, th, p4.
  split_and!; [done..|]. cbv zeta. set (close := close_after_drain r || eof1 || eof2) in *.
  destruct (if close then _ else _) as [[error|]|]; [done| |done]. cbn [mbind result_bind] in Hout.
  match type of Hout with (mbind _ ?m = _) => destruct m as [fin|] eqn:Ef; [|done] end.
  cbn [mbind result_bind] in Hout. destruct fin.
  - left. injection Hout as <-. destruct close; [|done]. simpl in Ef.
    case_bool_decide; [|done]. case_bool_decide; [|done]. simpl in Ef.
    destruct (out_queue e) as [o|]; [|done]. cbn [mbind result_bind] in Ef.
    destruct (o =? 0)%Z eqn:Eo; [|done]. apply Z.eqb_eq in Eo as ->. destruct (in_queue e) as [n|]; [|done].
    cbn [mbind result_bind] in Ef. injection Ef as ->%Z.eqb_eq. done.
  - right. destruct (p1 || p2 || p3 || p4); [left; congruence|].
    destruct (select_enabled close q ta th) eqn:Es; simpl in Hout.
    + left. destruct (ready e); [|done]. cbn [mbind result_bind] in Hout. congruence.
    + right. split; [congruence|done].
Qed.

Lemma round_keeps a0 h0 e r out r' :
  relay_ok a0 h0 r → round e r = Ok out → (out = Done r' ∨ ∃ p, out = Again r' p) → relay_ok a0 h0 r'.
Proof.
  intros [Ha Hh [B1 B2] Hc] (h&b1&eof1&p1&sa&ta&p2&q&a&b2&eof2&p3&sh&th&p4&E1&E2&_&E3&E4&Hout)%round_stages Hr.
  assert (r' = mkRelay a h ta th (close_after_drain r || eof1 || eof2)
                 (delivered_app r ++ sa) (delivered_host r ++ sh)) as ->.
  { cbv zeta in Hout. destruct Hout as [[-> _]|[->|[-> _]]], Hr as [|[p ?]]; congruence. }
  apply fill_if_spec in E1 as (C1 & L1 & F1 & _ & _ & Z1); [|done].
  apply fill_if_spec in E3 as (C3 & L3 & F3 & _ & _ & Z3); [|done].
  apply flush_spec in E2 as (D2 & _ & _). apply flush_spec in E4 as (D4 & _ & _). split; simpl.
  - eapply conserved_flush; [|exact D2]. by eapply conserved_fill.
  - eapply conserved_flush; [|exact D4]. by eapply conserved_fill.
  - rewrite D2, length_app in L1. rewrite D4, length_app in L3. lia.
  - intros Hcl. destruct eof1; [left; by apply F1|]. destruct eof2; [right; by apply F3|].
    rewrite !orb_false_r in Hcl. destruct (Hc Hcl); auto.
Qed.

Lemma start_ok a h : relay_ok (content a) (content h) (start a h).
Proof. split; unfold conserved; simpl; [done|done|lia|done]. Qed.

Lemma run_loop_ok a0 h0 es : ∀ r r',
  relay_ok a0 h0 r → run_loop es r = Running r' ∨ run_loop es r = Finished r' → relay_ok a0 h0 r'.
Proof.
  induction es as [|e es IH]; intros r r' Hr; simpl.
  - intros [[= <-]|?]; done.
  - destruct (round e r) as [[r1 p|r1|]|] eqn:E.
    + apply IH. eapply round_keeps; eauto.
    + intros [?|[= <-]]; [done|]. eapply round_keeps; eauto.
    + by intros [|].
    + by intros [|].
Qed.

(** A finished loop was left by a round that found everything drained. *)
Lemma run_loop_finished es : ∀ r r',
  run_loop es r = Finished r' → to_application r' = [] ∧ to_host r' = [] ∧ close_after_drain r' = true.
Proof.
  induction es as [|e es IH]; intros r r'; simpl; [done|].
  destruct (round e r) as [[r1 p|r1|]|] eqn:E; try done; [apply IH|]. intros [= <-].
  apply round_stages in E as (h&b1&eof1&p1&sa&ta&p2&q&a&b2&eof2&p3&sh&th&p4&_&_&_&_&_&Hout).
  cbv zeta in Hout. destruct Hout as [(Hd & Hc & -> & -> & _)|[?|[? _]]]; [|done..].
  injection Hd as ->. done.
Qed.

Lemma round_no_panic e r : round e r ≠ Ok SelectPanic.
Proof.
  intros (h&b1&eof1&p1&sa&ta&p2&q&a&b2&eof2&p3&sh&th&p4&_&_&_&_&_&Hout)%round_stages.
  cbv zeta in Hout. destruct Hout as [[? _]|[?|[_ Hs]]]; [done..|].
  unfold select_enabled, may_fill in Hs. destruct (close_after_drain r || eof1 || eof2); [by rewrite orb_true_r in Hs|].
  pose proof BUFFER_pos. destruct ta as [|x ta]; [|by rewrite !orb_true_r in Hs].
  rewrite bool_decide_true in Hs by done. done.
Qed.

(** A round's progress uses up input or buffered bytes, or notices the end. *)
Definition weight (r : relay) : nat :=
  2 * length (content (host r)) + 2 * length (content (application r))
    + length (to_application r) + length (to_host r) + (if close_after_drain r then 0 else 1).

Lemma fill_weight {S} {SS : ByteSource S} (guard : bool) (s s' : S) buf buf' eof p :
  length buf ≤ BUFFER → fill_if guard s buf = Ok (s', buf', eof, p) →
  2 * length (content s') + length buf' + (if p && negb eof then 1 else 0) ≤ 2 * length (content s) + length buf.
Proof.
  intros Hb (C & _ & F & P & N & _)%fill_if_spec; [|done].
  apply (f_equal length) in C. rewrite !length_app in C.
  destruct p, eof; simpl in *; try (destruct (N eq_refl); subst; lia).
  - destruct (F eq_refl) as (Hz & _ & _ & ->). lia.
  - specialize (P eq_refl eq_refl). lia.
Qed.

Lemma flush_weight accepts pending sent rest p :
  flush accepts pending = Ok (sent, rest, p) → length rest + (if p then 1 else 0) ≤ length pending.
Proof.
  intros (-> & P & N)%flush_spec. rewrite length_app. destruct p; [|lia].
  destruct sent; [by destruct P|]. simpl. lia.
Qed.
End relay.

(** ** Theorems *)

Section theorems.
Context {A H : Type} {SA : ByteSource A} {SH : ByteSource H}.

(** Nothing is lost, duplicated or reordered in either direction. *)
Lemma run_conserves (nodelay : io ()) (es : list env) (a : A) (h : H) (r : relay) :
  run nodelay es a h = Running r ∨ run nodelay es a h = Finished r →
  content h = delivered_app r ++ to_application r ++ content (host r) ∧
  content a = delivered_host r ++ to_host r ++ content (application r) ∧
  length (to_application r) ≤ BUFFER ∧ length (to_host r) ≤ BUFFER.
Proof.
  unfold run. destruct nodelay; [|by intros [|]]. intros Hr.
  destruct (run_loop_ok _ _ es _ r (start_ok a h) Hr) as [Ha Hh [? ?] _]. done.
Qed.

(** A relay that ends normally has delivered everything it read, and all of what at
    least one side sent. *)
Lemma run_drained (nodelay : io ()) (es : list env) (a : A) (h : H) (r : relay) :
  run nodelay es a h = Finished r →
  content h = delivered_app r ++ content (host r) ∧
  content a = delivered_host r ++ content (application r) ∧
  (delivered_app r = content h ∨ delivered_host r = content a).
Proof.
  unfold run. destruct nodelay; [|done]. intros Hr.
  destruct (run_loop_finished _ _ _ Hr) as (Ta & Th & Hc).
  destruct (run_loop_ok _ _ es _ r (start_ok a h) (or_intror Hr)) as [Ha Hh _ Hcl].
  unfold conserved in *. rewrite Ta in Ha. rewrite Th in Hh. simpl in *.
  split_and!; [done..|]. destruct (Hcl Hc) as [Hz|Hz]; [left|right]; rewrite Hz, app_nil_r in *; congruence.
Qed.

(** C23: At every point of a relay, in each direction, what was delivered, what is buffered
    and what is still unread are together exactly what the sender sent, in order, and the
    buffers stay within 64 KiB. *)
Theorem relay_conserves_bytes (nodelay : io ()) (es : list env) (a : A) (h : H) (r : relay) :
  run nodelay es a h = Running r ∨ run nodelay es a h = Finished r →
  content h = delivered_app r ++ to_application r ++ content (host r) ∧
  content a = delivered_host r ++ to_host r ++ content (application r) ∧
  length (to_application r) ≤ BUFFER ∧ length (to_host r) ≤ BUFFER.
Proof. apply run_conserves. Qed.

(** The select of the relay always has an enabled branch: the relay never panics. *)
Lemma relay_select_never_empty (nodelay : io ()) (es : list env) (a : A) (h : H) :
  run nodelay es a h ≠ Panicked.
Proof.
  unfold run. destruct nodelay; [|done]. generalize (start a h).
  induction es as [|e es IH]; intros r; simpl; [done|]. pose proof (round_no_panic e r).
  by destruct (round e r) as [[r1 p|r1|]|].
Qed.

(** C39: A round that loops again without waiting strictly decreases a measure, so the relay
    cannot spin. *)
Theorem relay_progress_is_bounded (e : env) (r r' : relay (A := A) (H := H)) :
  length (to_application r) ≤ BUFFER → length (to_host r) ≤ BUFFER →
  (∀ q, queued e = Ok q → (0 < q)%Z → content (application r) ≠ []) →
  round e r = Ok (Again r' true) → weight r' < weight r.
Proof.
  intros B1 B2 Hq (h&b1&eof1&p1&sa&ta&p2&q&a&b2&eof2&p3&sh&th&p4&E1&E2&Eq&E3&E4&Hout)%round_stages.
  cbv zeta in Hout. destruct Hout as [[? _]|[[= -> Hp]|[? _]]]; [done| |done]. unfold weight. simpl.
  pose proof (fill_weight _ _ _ _ _ _ _ B1 E1) as W1. pose proof (fill_weight _ _ _ _ _ _ _ B2 E3) as W3.
  apply flush_weight in E2, E4.
  apply fill_if_spec in E1 as (_ & _ & F1 & _); [|done]. apply fill_if_spec in E3 as (C3 & _ & F3 & _); [|done].
  destruct eof1.
  { destruct (F1 eq_refl) as (_ & Hc & -> & _). destruct (close_after_drain r); [done|]. simpl.
    destruct p2, p3, p4, eof2; simpl in *; lia. }
  destruct eof2.
  { destruct (F3 eq_refl) as (Hz & Hg & -> & Hb). destruct (close_after_drain r); simpl in *.
    - exfalso. apply Z.ltb_lt in Hg. apply (Hq q Eq Hg). rewrite Hz, Hb, app_nil_r in C3.
      apply (f_equal length) in C3. rewrite length_app in C3. destruct (content (application r)); [done|simpl in C3; lia].
    - destruct p1, p2, p4; simpl in *; lia. }
  rewrite !orb_false_r. destruct p1, p2, p3, p4; simpl in *; done || lia.
Qed.
End theorems.

(** ** Examples *)

(** The host sends "hi" and closes; the application is idle, its socket takes
    one byte at a time. *)
Definition host_example : ProxyStream sock := stream_new (mkSock [lit "i"] None [] None) (lit "h").
Definition idle_example : sock := mkSock [] (Some (Simple WouldBlock)) [] None.
Definition env_example : env := mkEnv (Ok 1) (Ok 1) (Ok 0%Z) (Ok None) (Ok 0%Z) (Ok 0%Z) (Ok ()).
Definition rounds_example : list env := replicate 5 env_example.

Definition finished_example : relay :=
  mkRelay idle_example (mkStream (mkSock [] None [] None) (lit "h") 1) [] [] true (lit "hi") [].

Lemma run_example : run (Ok ()) rounds_example idle_example host_example = Finished finished_example.
Proof. by vm_compute. Qed.

Lemma relay_conserves_bytes_witness :
  run (Ok ()) rounds_example idle_example host_example = Finished finished_example ∧
  content host_example = lit "hi" ++ [] ++ content (host finished_example).
Proof.
  split; [exact run_example|].
  apply (relay_conserves_bytes (Ok ()) rounds_example idle_example host_example finished_example).
  right. exact run_example.
Defined.

Lemma run_drained_witness :
  run (Ok ()) rounds_example idle_example host_example = Finished finished_example ∧
  (delivered_app finished_example = content host_example ∨ delivered_host finished_example = content idle_example).
Proof.
  split; [exact run_example|].
  apply (run_drained (Ok ()) rounds_example idle_example host_example finished_example run_example).
Defined.

(** The host has closed, the application still has two bytes queued. *)
Definition draining_example : relay :=
  mkRelay (mkSock [lit "ab"] None [] None) (stream_new (mkSock [] None [] None) []) [] [] true [] [].

Definition queued_env : env := mkEnv (Ok 1) (Ok 1) (Ok 2%Z) (Ok None) (Ok 0%Z) (Ok 0%Z) (Ok ()).

Lemma relay_progress_is_bounded_witness :
  ∃ r', round queued_env draining_example = Ok (Again r' true) ∧ weight r' < weight draining_example.
Proof.
  exists (mkRelay (mkSock [] None [] None) (stream_new (mkSock [] None [] None) []) [] (lit "b") true [] (lit "a")).
  assert (E : round queued_env draining_example = Ok (Again
    (mkRelay (mkSock [] None [] None) (stream_new (mkSock [] None [] None) []) [] (lit "b") true [] (lit "a")) true))
    by (vm_compute; reflexivity).
  split; [exact E|].
  apply (relay_progress_is_bounded queued_env draining_example); [..|exact E].
  - apply Nat.le_0_l.
  - apply Nat.le_0_l.
  - intros q _ _. discriminate.
Defined.
