(* ===== verification/TcpBind.v ===== *)
(** * Source-port reservation: src/broker/tcp_bind.rs

    [prepare] reserves a port for a socket before it is connected to the
    relay. [tcp_socket] is the kernel's view of it: the local address and
    IP_BIND_ADDRESS_NO_PORT. [bind_env] is how the kernel answers each call; a
    failed allocation may clear a bound address, as the code's comment says. *)
From S2P Require Import Prelude RustStd Net Stream.

Record tcp_socket := mkTcpSocket { local : SocketAddrV4; no_port : Z }.

Record bind_env := mkBindEnv {
  e_address : io ();
  e_option : io ();
  e_disable : io ();
  e_bind : io Z;
  e_clears : bool;
  e_force : io ();
  e_rebind : io ();
  e_restore : io ();
  e_reenable : io ();
  e_address_after : io ();
}.

Definition SM := M tcp_socket io_error.

Definition UNBOUND : SocketAddrV4 := SockAddr (ipv4 0 0 0 0) 0.

(** getsockname *)
Definition address (r : io ()) : SM SocketAddrV4 := _ ← lift_result r; s ← mget; mret (local s).

Definition defer_port (r : io ()) (enabled : Z) : SM () :=
  λ s, match r with Ok _ => (Ok (), mkTcpSocket (local s) enabled) | Err e => (Err e, s) end.

(** bind(2) to [source]: with the option set only the address is taken;
    otherwise a port is allocated. *)
Definition bind (r : io Z) (clears : bool) (source : SocketAddrV4) : SM () :=
  λ s, match r with
       | Ok port =>
           (Ok (), mkTcpSocket
              (if (no_port s =? 0)%Z && (sa_port source =? 0)%Z then SockAddr (sa_ip source) port else source)
              (no_port s))
       | Err e => (Err e, mkTcpSocket (if clears then UNBOUND else local s) (no_port s))
       end.

(** A call whose failure is kept for later. *)
Definition attempt {A} (m : SM A) : SM (io A) := λ s, let '(r, s) := m s in (Ok r, s).

Definition prepare (e : bind_env) : SM Z :=
  source ← address (e_address e);
  if negb (sa_port source =? 0)%Z then mret (sa_port source) else
  delayed ← (_ ← lift_result (e_option e); s ← mget; mret (no_port s));
  _ ← (if negb (delayed =? 0)%Z then defer_port (e_disable e) 0 else mret ());
  bound ← attempt (bind (e_bind e) (e_clears e) source);
  _ ← match bound with
      | Err _ =>
          restored ← attempt (_ ← defer_port (e_force e) 1; bind ((λ _, 0%Z) <$> e_rebind e) false source);
          option_restored ← attempt (defer_port (e_restore e) delayed);
          _ ← lift_result restored;
          lift_result option_restored
      | Ok _ => if negb (delayed =? 0)%Z then defer_port (e_reenable e) delayed else mret ()
      end;
  _ ← lift_result bound;
  after ← address (e_address_after e);
  if (sa_port after =? 0)%Z then mfail (RawOs EADDRNOTAVAIL) else mret (sa_port after).

(** Only the allocation itself can fail. *)
Record env_fine (e : bind_env) : Prop := {
  ef_address : e_address e = Ok ();
  ef_option : e_option e = Ok ();
  ef_disable : e_disable e = Ok ();
  ef_force : e_force e = Ok ();
  ef_rebind : e_rebind e = Ok ();
  ef_restore : e_restore e = Ok ();
  ef_reenable : e_reenable e = Ok ();
  ef_after : e_address_after e = Ok ();
  ef_port p : e_bind e = Ok p → p ≠ 0%Z;
}.

(** Reserving a port keeps the local address and the delayed-port option and gives a
    nonzero port; when the allocation fails the socket is as it was before. *)
Lemma prepare_is_transactional (e : bind_env) (s : tcp_socket) :
  env_fine e →
  match prepare e s with
  | (Ok port, s') => port ≠ 0%Z ∧ local s' = SockAddr (sa_ip (local s)) port ∧ no_port s' = no_port s ∧
                     (sa_port (local s) ≠ 0%Z → s' = s)
  | (Err err, s') => e_bind e = Err err ∧ s' = s
  end.
Proof.
  intros [He Ho Hd Hf Hr Hre Hen Ha Hp]. destruct s as [[ip port] np].
  unfold prepare, address, defer_port, bind, attempt, mget, mret, M_ret, lift_result, mfail.
  unfold mbind, M_bind. rewrite He, Ho, Hd, Hf, Hr, Hre, Hen, Ha. simpl.
  destruct (Z.eqb_spec port 0) as [->|Hne]; simpl; [|done].
  destruct (Z.eqb_spec np 0) as [->|Hnp]; simpl.
  - destruct (e_bind e) as [p|err]; simpl; [|done].
    destruct (Z.eqb_spec p 0) as [->|]; [by destruct (Hp 0%Z)|done].
  - destruct (e_bind e) as [p|err]; simpl; [|done].
    destruct (Z.eqb_spec p 0) as [->|]; [by destruct (Hp 0%Z)|done].
Qed.

(** A delayed binding to 127.0.0.2 when no port is free. *)
Lemma prepare_is_transactional_witness :
  let e := mkBindEnv (Ok ()) (Ok ()) (Ok ()) (Err (RawOs EADDRINUSE)) true (Ok ()) (Ok ()) (Ok ()) (Ok ()) (Ok ()) in
  let s := mkTcpSocket (SockAddr (ipv4 127 0 0 2) 0) 1 in
  env_fine e ∧ is_ok (fst (prepare e s)) = false ∧ snd (prepare e s) = s.
Proof.
  intros e s. assert (He : env_fine e) by (split; simpl; done).
  split; [exact He|]. pose proof (prepare_is_transactional e s He) as H.
  assert (Hr : is_ok (fst (prepare e s)) = false) by (vm_compute; reflexivity).
  split; [exact Hr|]. destruct (prepare e s) as [[port|err] s']; [discriminate|exact (proj2 H)].
Defined.
