(* ===== verification/Sockets.v ===== *)
(** * Native socket calls: src/broker/sockets.rs

    [kernel] is what the kernel answers about the sockets the broker holds:
    getsockname and getpeername as the bytes of a sockaddr, getsockopt as the
    bytes it stores, TCP_INFO's state and an ioctl count. The wrappers decode
    these answers. [syscalls] are the calls that make, bind and connect a
    socket, with the raw result and errno. *)
From S2P Require Import Prelude RustStd Net Stream Seccomp Access Memory.

Definition SOL_SOCKET : Z := 1.
Definition SO_TYPE : Z := 3.
Definition SO_PEERNAME : Z := 28.
Definition SO_PROTOCOL : Z := 38.
Definition SO_DOMAIN : Z := 39.
Definition SO_COOKIE : Z := 57.
Definition SOCK_STREAM : Z := 1.
Definition SOCK_DGRAM : Z := 2.
Definition IPPROTO_TCP : Z := 6.
Definition IPPROTO_UDP : Z := 17.

(** The result of a system call and errno after it. *)
Definition check (result : Z * Z) : io () :=
  let '(result, errno) := result in if (result <? 0)%Z then Err (RawOs errno) else Ok ().

Record kernel := mkKernel {
  k_name : Z → bool → io bytes;
  k_option : Z → Z → Z → io bytes;
  k_tcp_state : Z → io Z;
  k_ioctl : Z → Z → io Z;
}.

(** The 16 bytes of a sockaddr_in. *)
Definition sockaddr (addr : SocketAddrV4) : bytes :=
  le_bytes 2 AF_INET ++ be_bytes 2 (sa_port addr) ++ octets (sa_ip addr) ++ replicate 8 x00.

Definition decode (addr : bytes) : SocketAddrV4 :=
  SockAddr (ip4 (nth 4 addr x00) (nth 5 addr x00) (nth 6 addr x00) (nth 7 addr x00))
    (be_value [nth 2 addr x00; nth 3 addr x00]).

(** A sockaddr_storage, zeroed where the kernel stored nothing. *)
Definition sock_address (k : kernel) (fd : Z) (peer : bool) : io SocketAddrV4 :=
  addr ← k_name k fd peer;
  if negb (le_value [nth 0 addr x00; nth 1 addr x00] =? AF_INET)%Z then Err (RawOs EAFNOSUPPORT) else
  Ok (decode addr).

(** [size] is [size_of::<T>()]. *)
Definition sock_option (size : nat) (k : kernel) (fd level optname : Z) : io bytes :=
  value ← k_option k fd level optname;
  if bool_decide (length value ≠ size) then Err (RawOs EINVAL) else Ok value.

(** i32 *)
Definition signed_value (bs : bytes) : Z :=
  let m := le_value bs in if (m <? 2 ^ 31)%Z then m else (m - 2 ^ 32)%Z.

Definition option_int (k : kernel) (fd level optname : Z) : io Z :=
  signed_value <$> sock_option 4 k fd level optname.

Definition peer_address (k : kernel) (fd : Z) (socket_option : bool) : io SocketAddrV4 :=
  if socket_option then decode <$> sock_option 16 k fd SOL_SOCKET SO_PEERNAME
  else sock_address k fd true.

Definition cookie (k : kernel) (fd : Z) : io Z := le_value <$> sock_option 8 k fd SOL_SOCKET SO_COOKIE.

Definition is_tcp_v4 (k : kernel) (fd : Z) : io bool :=
  d ← option_int k fd SOL_SOCKET SO_DOMAIN;
  if negb (d =? AF_INET)%Z then Ok false else
  t ← option_int k fd SOL_SOCKET SO_TYPE;
  if negb (t =? SOCK_STREAM)%Z then Ok false else
  p ← option_int k fd SOL_SOCKET SO_PROTOCOL;
  Ok (p =? IPPROTO_TCP)%Z.

Definition state (k : kernel) (fd : Z) : io Z := k_tcp_state k fd.

Definition queue_len (k : kernel) (fd request : Z) : io Z :=
  value ← k_ioctl k fd request; Ok (Z.max value 0).

(** ** Making sockets *)

Definition SOCK_CLOEXEC : Z := 0x80000.
Definition SOCK_NONBLOCK : Z := 0x800.

Record syscalls := mkSyscalls {
  sys_socket : Z → Z → Z → Z * Z;
  sys_bind : Z → bytes → Z * Z;
  sys_connect : Z → bytes → Z * Z;
}.

Definition sock_stream (y : syscalls) : io Z :=
  let '(fd, errno) := sys_socket y AF_INET (Z.lor (Z.lor SOCK_STREAM SOCK_NONBLOCK) SOCK_CLOEXEC) IPPROTO_TCP in
  if (fd <? 0)%Z then Err (RawOs errno) else Ok fd.

Definition sock_bind (y : syscalls) (fd : Z) (addr : SocketAddrV4) : io () := check (sys_bind y fd (sockaddr addr)).

Definition sock_connect (y : syscalls) (fd : Z) (addr : SocketAddrV4) : io () := check (sys_connect y fd (sockaddr addr)).

(** ** Lemmas *)

Lemma decode_sockaddr addr : port_ok (sa_port addr) → decode (sockaddr addr) = addr.
Proof. exact (ipv4_of_address_bytes addr). Qed.

(** A kernel whose sockets have IPv4 names. *)
Definition named (k : kernel) (fd : Z) (peer : bool) (addr : SocketAddrV4) : Prop :=
  k_name k fd peer = Ok (sockaddr addr).

Lemma sock_address_named k fd peer addr :
  port_ok (sa_port addr) → named k fd peer addr → sock_address k fd peer = Ok addr.
Proof.
  intros Hp Hn. unfold sock_address. rewrite Hn. cbn [mbind result_bind].
  change (negb _) with false. cbv iota. by rewrite decode_sockaddr.
Qed.
