(* ===== verification/Connect.v ===== *)
(** * The cancellable connect: src/broker/connect.rs

    connect(2) runs on a blocking thread, the [worker], while the task waits
    for it, checks its notification every 10 ms and gives up after 32 s. When
    the wait ends, for whatever reason, [PendingConnect::drop] stops the worker:
    it aborts a queued one and shuts the socket down until the one inside
    connect(2) returns. shutdown(2) is an argument, [shutdown]; [wakes_waiter]
    is what the code's comment relies on: Linux disconnects a socket in SYN_SENT
    and wakes its waiter; before connect(2) is entered it changes nothing. *)
From S2P Require Import Prelude RustStd Net Seccomp Access Memory Sockets.

(** ** The worker *)

Inductive worker :=
| Queued
| Entering
| Blocked
| Ended (result : option (io ())).

Definition is_finished (w : worker) : bool := match w with Ended _ => true | _ => false end.

(** What the thread does by itself; [connect] is what the call answers. *)
Inductive worker_step (connect : io ()) : worker → worker → Prop :=
| ws_run : worker_step connect Queued Entering
| ws_block : worker_step connect Entering Blocked
| ws_return : worker_step connect Entering (Ended (Some connect))
| ws_wake : worker_step connect Blocked (Ended (Some connect)).

(** [PendingConnect::start]; the call is made by the worker. *)
Definition pending_start : worker := Queued.

Definition worker_result (y : syscalls) (fd : Z) (target : SocketAddrV4) : io () := sock_connect y fd target.

(** ** The wait *)

(** What the task sees while the worker runs. *)
Inductive connect_event :=
| WorkerDone (result : io ())
| WorkerPanicked
| Tick (valid : io ())
| TimedOutAt32s.

(** [None]: still waiting. *)
Fixpoint connect_wait (events : list connect_event) : option (io ()) :=
  match events with
  | [] => None
  | WorkerDone result :: _ => Some result
  | WorkerPanicked :: _ => Some (Err (Simple OtherKind))
  | Tick (Ok _) :: events => connect_wait events
  | Tick (Err error) :: _ => Some (Err error)
  | TimedOutAt32s :: _ => Some (Err (RawOs ETIMEDOUT))
  end.

(** ** The drop *)

(** [task.abort()] *)
Definition abort_worker (w : worker) : worker := match w with Queued => Ended None | _ => w end.

(** What shutdown(2) does to the worker, as the code relies on it. *)
Record wakes_waiter (shutdown : worker → worker) : Prop := {
  wk_blocked : is_finished (shutdown Blocked) = true;
  wk_entering : shutdown Entering = Entering;
}.

Section pending.
Context (shutdown : worker → worker).

(** The loop: each round shuts the socket down and sleeps, and the worker moves
    meanwhile. The number of rounds, or [None] while it goes on. *)
Fixpoint drop_loop (moves : list (worker → worker)) (w : worker) : option nat * worker :=
  if is_finished w then (Some 0, w) else
  match moves with
  | [] => (None, w)
  | move :: moves => let '(n, w) := drop_loop moves (move (shutdown w)) in (S <$> n, w)
  end.

Definition pending_drop (moves : list (worker → worker)) (w : worker) : option nat * worker :=
  drop_loop moves (abort_worker w).

(** [run]: what it returns, and the worker it leaves; [w] is the worker when
    the wait ends. *)
Definition connect_run (valid : io ()) (events : list connect_event) (w : worker) (moves : list (worker → worker))
    : option (io () * option worker) :=
  match valid with
  | Err error => Some (Err error, None)
  | Ok _ =>
      r ← connect_wait events;
      match pending_drop moves w with
      | (Some _, w) => Some (r, Some w)
      | (None, _) => None
      end
  end.
End pending.

(** ** Lemmas *)

(** A round in which the thread only does what it can. *)
Definition legal (connect : io ()) (move : worker → worker) : Prop := ∀ w, rtc (worker_step connect) w (move w).

Lemma step_ended connect w w' : rtc (worker_step connect) w w' → is_finished w = true → w' = w.
Proof. intros Hs Hw. destruct Hs as [|w w1 w' H1 _]; [done|]. by destruct H1. Qed.

Lemma blocked_step connect w : rtc (worker_step connect) Blocked w → w = Blocked ∨ is_finished w = true.
Proof.
  intros Hs. inversion Hs as [|? w1 ? H1 H2]; subst; [by left|]. right. inversion H1; subst.
  by rewrite (step_ended _ _ _ H2).
Qed.

Lemma entering_step connect w : rtc (worker_step connect) Entering w → w = Entering ∨ w = Blocked ∨ is_finished w = true.
Proof.
  intros Hs. inversion Hs as [|? w1 ? H1 H2]; subst; [by left|]. right. inversion H1; subst.
  - by apply (blocked_step connect).
  - right. by rewrite (step_ended _ _ _ H2).
Qed.

Section drop.
Context (shutdown : worker → worker) (Hshut : wakes_waiter shutdown).

Lemma drop_loop_finished moves w : is_finished w = true → drop_loop shutdown moves w = (Some 0, w).
Proof. intros Hw. destruct moves; simpl; by rewrite Hw. Qed.

(** A worker inside connect(2) is gone after one round. *)
Lemma drop_loop_blocked connect move moves :
  legal connect move → ∃ w', drop_loop shutdown (move :: moves) Blocked = (Some 1, w') ∧ is_finished w' = true.
Proof.
  intros Hl. cbn [drop_loop is_finished]. pose proof (wk_blocked _ Hshut) as Hb. set (e := shutdown Blocked) in *.
  assert (He : move e = e) by (by apply (step_ended connect); [apply Hl|]). rewrite He, drop_loop_finished by done.
  by exists e.
Qed.

(** So is one whose next round is any of a list of legal ones. *)
Lemma drop_loop_blocked_app connect before move moves :
  Forall (legal connect) before → legal connect move →
  ∃ w', drop_loop shutdown (before ++ move :: moves) Blocked = (Some 1, w') ∧ is_finished w' = true.
Proof. intros [|h t Hh _] Hm; by apply (drop_loop_blocked connect). Qed.

Lemma drop_loop_round move moves :
  drop_loop shutdown (move :: moves) Entering = let '(n, w) := drop_loop shutdown moves (move Entering) in (S <$> n, w).
Proof. cbn [drop_loop is_finished]. by rewrite (wk_entering _ Hshut). Qed.

(** Until the worker enters connect(2) the rounds do nothing. *)
Lemma drop_loop_entering connect before move last moves :
  Forall (legal connect) before → legal connect move → legal connect last → move Entering ≠ Entering →
  ∃ n w', drop_loop shutdown (before ++ move :: last :: moves) Entering = (Some n, w') ∧ is_finished w' = true ∧ n ≤ length before + 2.
Proof.
  intros Hb Hm Hl Hne. induction Hb as [|m before Hm' Hb IH]; cbn [app length]; rewrite drop_loop_round.
  - destruct (entering_step connect _ (Hm Entering)) as [?|[->|Hf]]; [done|..].
    + destruct (drop_loop_blocked connect last moves Hl) as (w' & -> & Hw'). exists 2, w'. by split_and!; [..|lia].
    + rewrite (drop_loop_finished _ _ Hf). exists 1, (move Entering). split_and!; [done..|lia].
  - destruct (entering_step connect _ (Hm' Entering)) as [->|[->|Hf]].
    + destruct IH as (n & w' & -> & Hw' & Hn). exists (S n), w'. split_and!; [done..|lia].
    + destruct (drop_loop_blocked_app connect before move (last :: moves) Hb Hm) as (w' & -> & Hw').
      exists 2, w'. split_and!; [done..|lia].
    + rewrite (drop_loop_finished _ _ Hf). exists 1, (m Entering). split_and!; [done..|lia].
Qed.

Lemma pending_drop_ends connect before move last w :
  Forall (legal connect) before → legal connect move → legal connect last → move Entering ≠ Entering →
  ∃ n w', pending_drop shutdown (before ++ [move; last]) w = (Some n, w') ∧ is_finished w' = true ∧
    n ≤ length before + 2 ∧ (w = Queued → w' = Ended None).
Proof.
  intros Hb Hm Hl Hne. unfold pending_drop. destruct w as [| | |res]; cbn [abort_worker].
  - rewrite drop_loop_finished by done. exists 0, (Ended None). split_and!; [done..|lia|done].
  - destruct (drop_loop_entering connect before move last [] Hb Hm Hl Hne) as (n & w' & Hd & Hf & Hn).
    exists n, w'. by split_and!.
  - destruct (drop_loop_blocked_app connect before move [last] Hb Hm) as (w' & Hd & Hf).
    exists 1, w'. split_and!; [done..|lia|done].
  - rewrite drop_loop_finished by done. exists 0, (Ended res). split_and!; [done..|lia|done].
Qed.
End drop.

(** ** Theorems *)

(** C35: However the wait for connect(2) ends, when the call returns its worker thread has
    ended: a queued one is aborted, one inside connect(2) is woken by the next shutdown, and
    the drop takes at most two rounds more than the worker takes to enter the call. *)
Theorem connect_leaves_no_worker (shutdown : worker → worker) (connect : io ()) (events : list connect_event) (w : worker) (r : io ())
    (before : list (worker → worker)) (move last : worker → worker) :
  wakes_waiter shutdown → connect_wait events = Some r →
  Forall (legal connect) before → legal connect move → legal connect last → move Entering ≠ Entering →
  ∃ w' n, connect_run shutdown (Ok ()) events w (before ++ [move; last]) = Some (r, Some w') ∧ is_finished w' = true ∧
    pending_drop shutdown (before ++ [move; last]) w = (Some n, w') ∧ n ≤ length before + 2 ∧ (w = Queued → w' = Ended None).
Proof.
  intros Hs Hw Hb Hm Hl Hne.
  destruct (pending_drop_ends shutdown Hs connect before move last w Hb Hm Hl Hne) as (n & w' & Hd & Hf & Hn & Hq).
  exists w', n. unfold connect_run. rewrite Hw. cbn [mbind option_bind]. by rewrite Hd.
Qed.

(** ** Examples *)

Definition wake (w : worker) : worker := match w with Blocked => Ended (Some (Err (RawOs ECONNABORTED))) | _ => w end.

(** The worker enters connect(2) in the second round, after the notification was cancelled. *)
Lemma connect_leaves_no_worker_witness :
  let enter w := match w with Entering => Blocked | w => w end in
  ∃ w', connect_run wake (Ok ()) [Tick (Ok ()); Tick (Err (RawOs ENOENT))] Entering [id; enter; id] = Some (Err (RawOs ENOENT), Some w') ∧
    is_finished w' = true.
Proof.
  intros enter.
  assert (Hid : legal (Ok ()) id) by (intros w; apply rtc_refl).
  assert (Hen : legal (Ok ()) enter) by (intros [| | |]; try apply rtc_refl; apply rtc_once, ws_block).
  destruct (connect_leaves_no_worker wake (Ok ()) [Tick (Ok ()); Tick (Err (RawOs ENOENT))] Entering (Err (RawOs ENOENT))
    [id] enter id) as (w' & n & Hr & Hf & _).
  - split; reflexivity.
  - reflexivity.
  - constructor; [exact Hid|constructor].
  - exact Hen.
  - exact Hid.
  - discriminate.
  - exists w'. split; [exact Hr|exact Hf].
Defined.
