(* ===== verification/Diagnostics.v ===== *)
(** * Socket diagnostics: src/broker/diagnostics.rs

    [snapshot] asks the kernel's sock_diag for every TCP socket and collects
    their cookies; the broker forgets peers whose cookie is gone. [diag_calls]
    are the calls that set the netlink socket up and send the request. [recv]
    results come as a list, one netlink datagram each; [parse] is the loop over
    the messages of one datagram, on what is left of it. *)
From S2P Require Import Prelude RustStd Net Seccomp Access Memory Sockets.

Definition RECV_BUFFER : nat := N.to_nat 65536.

(** nlmsghdr followed by inet_diag_req_v2. *)
Definition diag_request : bytes :=
  le_bytes 4 72 ++ le_bytes 2 20 ++ le_bytes 2 0x301 ++ le_bytes 4 1 ++ replicate 4 x00
    ++ [z2b 2; z2b 6] ++ replicate 2 x00 ++ le_bytes 4 U32_MAX ++ replicate 40 x00 ++ replicate 8 xff.

Definition AF_NETLINK : Z := 16.
Definition SOCK_RAW : Z := 3.
Definition NETLINK_SOCK_DIAG : Z := 4.
Definition SO_RCVTIMEO : Z := 20.
Definition MSG_NOSIGNAL : Z := 0x4000.

Record diag_calls := mkDiagCalls {
  dc_socket : Z → Z → Z → Z * Z;
  dc_connect : Z → bytes → Z * Z;
  dc_setsockopt : Z → Z → Z → bytes → Z * Z;
  dc_send : Z → bytes → Z → Z * Z;
}.

(** The 12 bytes of a sockaddr_nl with only its family set. *)
Definition sockaddr_nl : bytes := le_bytes 2 AF_NETLINK ++ replicate 10 x00.

(** A timeval of two seconds. *)
Definition recv_timeout : bytes := le_bytes 8 2 ++ le_bytes 8 0.

Definition diagnostic_socket (y : diag_calls) : io Z :=
  let '(raw, errno) := dc_socket y AF_NETLINK (Z.lor SOCK_RAW SOCK_CLOEXEC) NETLINK_SOCK_DIAG in
  if (raw <? 0)%Z then Err (RawOs errno) else
  _ ← check (dc_connect y raw sockaddr_nl);
  _ ← check (dc_setsockopt y raw SOL_SOCKET SO_RCVTIMEO recv_timeout);
  Ok raw.

(** The request is sent in one message; a short count is not an error. *)
Definition send_request (y : diag_calls) (fd : Z) : io () :=
  let '(written, errno) := dc_send y fd diag_request MSG_NOSIGNAL in
  if (written <? 0)%Z then Err (RawOs errno) else Ok ().

(** [(len + 3) & !3] *)
Definition align4 (len : Z) : Z := ((len + 3) / 4 * 4)%Z.

Definition signed32 (z : Z) : Z := if (z <? 2 ^ 31)%Z then z else (z - 2 ^ 32)%Z.

(** [u64::from(low) | (u64::from(high) << 32)] of payload[44..52]. *)
Definition cookie_of (payload : bytes) : Z :=
  Z.lor (le_value (take 4 (drop 44 payload))) (Z.shiftl (le_value (take 4 (drop 48 payload))) 32).

(** [true]: the end of the dump was reached. *)
Fixpoint parse (fuel : nat) (rest : bytes) (sockets : gset Z) : outcome (io (bool * gset Z)) :=
  match fuel with
  | O => OutOfFuel
  | S fuel =>
      if bool_decide (length rest < 16) then Ret (Ok (false, sockets)) else
      let len := le_value (take 4 rest) in
      let kind := le_value (take 2 (drop 4 rest)) in
      let flags := le_value (take 2 (drop 6 rest)) in
      if (len <? 16)%Z || (Z.of_nat (length rest) <? len)%Z then Ret (Err (Simple OtherKind)) else
      if negb (Z.land flags 0x10 =? 0)%Z then Ret (Err (Simple Interrupted)) else
      let payload := take (Z.to_nat len - 16) (drop 16 rest) in
      let next := drop (Z.to_nat (align4 len)) rest in
      if (kind =? 3)%Z then Ret (Ok (true, sockets)) else
      if (kind =? 2)%Z then
        if bool_decide (length payload < 4) then Ret (Err (Simple OtherKind)) else
        let errno := signed32 (le_value (take 4 payload)) in
        if negb (errno =? 0)%Z then Ret (Err (RawOs (- errno))) else parse fuel next sockets
      else if (kind =? 20)%Z && bool_decide (72 ≤ length payload)
      then parse fuel next ({[cookie_of payload]} ∪ sockets)
      else parse fuel next sockets
  end.

(** [None]: still waiting for a datagram. *)
Fixpoint snapshot_loop (events : list (io bytes)) (sockets : gset Z) : outcome (option (io (gset Z))) :=
  match events with
  | [] => Ret None
  | Err error :: events =>
      if bool_decide (kind error = Interrupted) then snapshot_loop events sockets else Ret (Some (Err error))
  | Ok datagram :: events =>
      if bool_decide (datagram = []) || bool_decide (RECV_BUFFER < length datagram)
      then Ret (Some (Err (Simple OtherKind))) else
      r ← parse (S (length datagram)) datagram sockets;
      match r with
      | Err error => Ret (Some (Err error))
      | Ok (true, sockets) => Ret (Some (Ok sockets))
      | Ok (false, sockets) => snapshot_loop events sockets
      end
  end.

Definition snapshot (y : diag_calls) (events : list (io bytes)) : outcome (option (io (gset Z))) :=
  match (fd ← diagnostic_socket y; send_request y fd) with
  | Err error => Ret (Some (Err error))
  | Ok _ => snapshot_loop events ∅
  end.

(** ** Well-formed dumps *)

Record message := mkNl { m_kind : Z; m_flags : Z; m_rest : bytes; m_payload : bytes }.

Definition message_len (m : message) : Z := Z.of_nat (16 + length (m_payload m)).

Definition encode (m : message) : bytes :=
  le_bytes 4 (message_len m) ++ le_bytes 2 (m_kind m) ++ le_bytes 2 (m_flags m) ++ m_rest m
    ++ m_payload m ++ replicate (Z.to_nat (align4 (message_len m) - message_len m)) x00.

Record message_ok (m : message) : Prop := {
  mo_kind : (0 ≤ m_kind m < 65536)%Z;
  mo_flags : (0 ≤ m_flags m < 65536)%Z ∧ Z.land (m_flags m) 0x10 = 0%Z;
  mo_rest : length (m_rest m) = 8;
  mo_len : (message_len m < 2 ^ 32)%Z;
}.

(** The reply for a socket: inet_diag_msg with the cookie in two halves. *)
Definition diag_reply (pre post : bytes) (c : Z) : message :=
  mkNl 20 2 (replicate 8 x00) (pre ++ le_bytes 4 c ++ le_bytes 4 (c / 2 ^ 32) ++ post).

Definition done_message : message := mkNl 3 2 (replicate 8 x00) (replicate 4 x00).

Lemma align4_bounds len : (0 ≤ len → len ≤ align4 len < len + 4)%Z.
Proof. intros. unfold align4. Z.to_euclidean_division_equations. lia. Qed.

Lemma length_encode m : message_ok m → length (encode m) = Z.to_nat (align4 (message_len m)).
Proof.
  intros [_ _ Hr _]. unfold encode. rewrite !length_app, !length_le_bytes, length_replicate, Hr.
  pose proof (align4_bounds (message_len m)). unfold message_len in *. lia.
Qed.

(** One well-formed message, [parse] as far as the message goes. *)
Lemma parse_message fuel m rest sockets :
  message_ok m →
  parse (S fuel) (encode m ++ rest) sockets =
    (if (m_kind m =? 3)%Z then Ret (Ok (true, sockets)) else
     if (m_kind m =? 2)%Z then
       if bool_decide (length (m_payload m) < 4) then Ret (Err (Simple OtherKind)) else
       let errno := signed32 (le_value (take 4 (m_payload m))) in
       if negb (errno =? 0)%Z then Ret (Err (RawOs (- errno))) else parse fuel rest sockets
     else if (m_kind m =? 20)%Z && bool_decide (72 ≤ length (m_payload m))
     then parse fuel rest ({[cookie_of (m_payload m)]} ∪ sockets) else parse fuel rest sockets).
Proof.
  intros Hok. pose proof Hok as [Hk [Hf Hb] Hr Hl]. set (pad := replicate (Z.to_nat (align4 (message_len m) - message_len m)) x00).
  pose proof (length_encode m Hok) as Hlen. pose proof (align4_bounds (message_len m)) as Ha.
  assert (Hm : (message_len m = 16 + Z.of_nat (length (m_payload m)))%Z) by (unfold message_len; lia).
  assert (Hd : encode m ++ rest = le_bytes 4 (message_len m) ++ le_bytes 2 (m_kind m) ++ le_bytes 2 (m_flags m)
    ++ m_rest m ++ m_payload m ++ pad ++ rest) by (unfold encode; by rewrite <-!app_assoc).
  cbn [parse].
  assert (Htot : length (encode m ++ rest) = Z.to_nat (align4 (message_len m)) + length rest)
    by (rewrite length_app, Hlen; done).
  rewrite bool_decide_false by lia.
  assert (le_value (take 4 (encode m ++ rest)) = message_len m) as ->.
  { rewrite Hd, take_app_length' by (by rewrite length_le_bytes). apply le_value_bytes_small. simpl. lia. }
  assert (le_value (take 2 (drop 4 (encode m ++ rest))) = m_kind m) as ->.
  { rewrite Hd, drop_app_length' by (by rewrite length_le_bytes).
    rewrite take_app_length' by (by rewrite length_le_bytes). apply le_value_bytes_small. simpl. lia. }
  assert (le_value (take 2 (drop 6 (encode m ++ rest))) = m_flags m) as ->.
  { rewrite Hd, (app_assoc (le_bytes 4 _)), drop_app_length' by (by rewrite length_app, !length_le_bytes).
    rewrite take_app_length' by (by rewrite length_le_bytes). apply le_value_bytes_small. simpl. lia. }
  rewrite (proj2 (Z.ltb_ge (message_len m) 16)), (proj2 (Z.ltb_ge _ (message_len m))) by lia. cbn [orb].
  rewrite Hb. cbn [Z.eqb negb].
  assert (take (Z.to_nat (message_len m) - 16) (drop 16 (encode m ++ rest)) = m_payload m) as ->.
  { rewrite Hd. rewrite (app_assoc (le_bytes 4 _)), (app_assoc (_ ++ _)), (app_assoc ((_ ++ _) ++ _)).
    rewrite drop_app_length' by (rewrite !length_app, !length_le_bytes, Hr; done).
    rewrite take_app_length' by lia. done. }
  assert (drop (Z.to_nat (align4 (message_len m))) (encode m ++ rest) = rest) as ->.
  { by rewrite drop_app_length' by (by rewrite Hlen). }
  done.
Qed.

Lemma cookie_of_reply pre post c :
  length pre = 44 → (0 ≤ c < 2 ^ 64)%Z → cookie_of (m_payload (diag_reply pre post c)) = c.
Proof.
  intros Hp Hc. unfold cookie_of, diag_reply. cbn [m_payload].
  assert (take 4 (drop 44 (pre ++ le_bytes 4 c ++ le_bytes 4 (c / 2 ^ 32) ++ post)) = le_bytes 4 c) as ->.
  { rewrite drop_app_length' by done. by rewrite take_app_length' by (by rewrite length_le_bytes). }
  assert (take 4 (drop 48 (pre ++ le_bytes 4 c ++ le_bytes 4 (c / 2 ^ 32) ++ post)) = le_bytes 4 (c / 2 ^ 32)) as ->.
  { rewrite app_assoc, drop_app_length' by (by rewrite length_app, length_le_bytes, Hp).
    by rewrite take_app_length' by (by rewrite length_le_bytes). }
  assert (0 ≤ c / 2 ^ 32 < 2 ^ 32)%Z as Hh.
  { split; [apply Z.div_pos; lia|]. apply Z.div_lt_upper_bound; lia. }
  rewrite (le_value_bytes_small 4 (c / 2 ^ 32)) by exact Hh. rewrite le_value_bytes.
  change (256 ^ Z.of_nat 4)%Z with (2 ^ 32)%Z. rewrite <-Z.land_ones by lia.
  apply Z.bits_inj_iff'. intros n Hn. rewrite Z.lor_spec, Z.land_spec, Z.shiftl_spec by lia. destruct (decide (n < 32)%Z) as [Hlt|Hge].
  - rewrite Z.ones_spec_low by lia. rewrite (Z.testbit_neg_r _ (n - 32)) by lia.
    by rewrite andb_true_r, orb_false_r.
  - rewrite Z.ones_spec_high by lia. rewrite andb_false_r. simpl.
    rewrite Z.div_pow2_bits by lia. f_equal. lia.
Qed.

(** A socket of the dump: what surrounds its cookie, and the cookie. *)
Abbreviation entry := (bytes * bytes * Z)%type.

Definition entry_ok (e : entry) : Prop :=
  let '(pre, post, c) := e in
  length pre = 44 ∧ 20 ≤ length post ∧ (Z.of_nat (length post) < 2 ^ 31)%Z ∧ (0 ≤ c < 2 ^ 64)%Z.

Definition entry_bytes (e : entry) : bytes := let '(pre, post, c) := e in encode (diag_reply pre post c).

Definition cookies (es : list entry) : gset Z := list_to_set (snd <$> es).

Lemma diag_reply_ok pre post c : entry_ok (pre, post, c) → message_ok (diag_reply pre post c).
Proof.
  intros (Hp & _ & Hl & _). split; simpl; [lia|split; [lia|done]|done|].
  unfold message_len. cbn [m_payload diag_reply]. rewrite !length_app, !length_le_bytes, Hp. lia.
Qed.

Lemma parse_entries es : ∀ fuel rest sockets,
  Forall entry_ok es →
  parse (length es + fuel) (concat (entry_bytes <$> es) ++ rest) sockets = parse fuel rest (cookies es ∪ sockets).
Proof.
  induction es as [|[[pre post] c] es IH]; intros fuel rest sockets He.
  - cbn [length Nat.add fmap list_fmap concat app]. f_equal. unfold cookies. simpl. set_solver.
  - apply Forall_cons_1 in He as [He Hes]. pose proof He as (Hp & Hpo & Hl & Hc).
    cbn [length Nat.add fmap list_fmap concat entry_bytes]. rewrite <-app_assoc.
    rewrite parse_message by (by apply diag_reply_ok). change (m_kind (diag_reply pre post c)) with 20%Z.
    cbn [Z.eqb Pos.eqb andb]. rewrite bool_decide_true.
    + rewrite cookie_of_reply, IH by done. f_equal. unfold cookies. simpl. set_solver.
    + cbn [m_payload diag_reply]. rewrite !length_app, !length_le_bytes. lia.
Qed.

Lemma done_message_ok : message_ok done_message.
Proof. split; simpl; lia || done. Qed.

(** Fuel: every round takes a message of at least 16 bytes. *)
Lemma parse_total fuel : ∀ rest sockets, length rest < fuel → ∃ r, parse fuel rest sockets = Ret r.
Proof.
  induction fuel as [|fuel IH]; intros rest sockets Hf; [lia|]. cbn [parse].
  case_bool_decide as Hl; [eauto|].
  set (len := le_value (take 4 rest)). destruct (Z.ltb_spec len 16) as [|H16]; [simpl; eauto|].
  destruct (_ <? len)%Z; [simpl; eauto|]. cbn [orb]. destruct (negb _); [eauto|].
  assert (Hn : ∀ s, ∃ r, parse fuel (drop (Z.to_nat (align4 len)) rest) s = Ret r).
  { intros s. apply IH. rewrite length_drop. pose proof (align4_bounds len). lia. }
  destruct (_ =? 3)%Z; [eauto|]. destruct (_ =? 2)%Z.
  - case_bool_decide; [eauto|]. cbv zeta. destruct (negb _); eauto.
  - destruct (_ && _); auto.
Qed.

Lemma length_entry_bytes e : entry_ok e → 16 ≤ length (entry_bytes e).
Proof.
  destruct e as [[pre post] c]. intros He%diag_reply_ok. cbn [entry_bytes]. rewrite length_encode by done.
  pose proof (align4_bounds (message_len (diag_reply pre post c))). unfold message_len in *. lia.
Qed.

Lemma length_entries es : Forall entry_ok es → length es ≤ length (concat (entry_bytes <$> es)).
Proof.
  induction 1 as [|e es He _ IH]; [done|]. cbn [fmap list_fmap concat length].
  rewrite length_app. pose proof (length_entry_bytes e He). lia.
Qed.

(** A datagram of the dump. *)
Definition datagram_ok (es : list entry) : Prop :=
  es ≠ [] ∧ Forall entry_ok es ∧ length (concat (entry_bytes <$> es)) ≤ RECV_BUFFER.

Lemma snapshot_datagrams dgs : ∀ events sockets,
  Forall datagram_ok dgs →
  snapshot_loop (((λ es, Ok (concat (entry_bytes <$> es))) <$> dgs) ++ events) sockets
    = snapshot_loop events (cookies (concat dgs) ∪ sockets).
Proof.
  induction dgs as [|es dgs IH]; intros events sockets Hd.
  - cbn [fmap list_fmap app concat]. f_equal. unfold cookies. simpl. set_solver.
  - apply Forall_cons_1 in Hd as [(Hne & Hes & Hlen) Hd]. cbn [fmap list_fmap app snapshot_loop].
    pose proof (length_entries es Hes) as Hl.
    rewrite bool_decide_false by (intros E; rewrite E in Hl; destruct es; [done|simpl in Hl; lia]).
    rewrite bool_decide_false by lia. cbn [orb].
    set (d := concat (entry_bytes <$> es)) in *.
    replace (S (length d)) with (length es + S (length d - length es)) by lia.
    pose proof (parse_entries es (S (length d - length es)) [] sockets Hes) as Hp.
    rewrite app_nil_r in Hp. fold d in Hp. rewrite Hp.
    cbn [parse]. rewrite bool_decide_true by (simpl; lia). cbn [mbind outcome_bind].
    rewrite IH by done. f_equal. unfold cookies. cbn [concat]. rewrite fmap_app, list_to_set_app_L. set_solver.
Qed.

(** The kernel makes the socket and takes the request. *)
Record diag_works (y : diag_calls) (fd : Z) : Prop := {
  dw_socket : dc_socket y AF_NETLINK (Z.lor SOCK_RAW SOCK_CLOEXEC) NETLINK_SOCK_DIAG = (fd, 0%Z) ∧ (0 ≤ fd)%Z;
  dw_connect : dc_connect y fd sockaddr_nl = (0, 0)%Z;
  dw_timeout : dc_setsockopt y fd SOL_SOCKET SO_RCVTIMEO recv_timeout = (0, 0)%Z;
  dw_send : dc_send y fd diag_request MSG_NOSIGNAL = (72, 0)%Z;
}.

Lemma snapshot_works y fd events : diag_works y fd → snapshot y events = snapshot_loop events ∅.
Proof.
  intros [[Hs Hf] Hc Ht Hn]. assert (Hd : diagnostic_socket y = Ok fd).
  { unfold diagnostic_socket. rewrite Hs, (proj2 (Z.ltb_ge _ _)) by lia. by rewrite Hc, Ht. }
  unfold snapshot. rewrite Hd. cbn [mbind result_bind]. unfold send_request. by rewrite Hn.
Qed.

(** ** Theorems *)

(** A dump spread over any number of netlink datagrams that fit the buffer, each with
    one or more socket messages, and ended by NLMSG_DONE, yields exactly the set of the
    cookies in it. *)
Lemma snapshot_collects_cookies (y : diag_calls) (fd : Z) (dgs : list (list entry)) (es : list entry) :
  diag_works y fd → Forall datagram_ok dgs → Forall entry_ok es →
  length (concat (entry_bytes <$> es) ++ encode done_message) ≤ RECV_BUFFER →
  snapshot y (((λ es, Ok (concat (entry_bytes <$> es))) <$> dgs)
                    ++ [Ok (concat (entry_bytes <$> es) ++ encode done_message)])
    = Ret (Some (Ok (cookies (concat dgs ++ es)))).
Proof.
  intros Hy Hd Hes Hlen. rewrite (snapshot_works y fd _ Hy), snapshot_datagrams by done. cbn [snapshot_loop].
  pose proof (length_entries es Hes). rewrite length_app in Hlen.
  rewrite bool_decide_false by (intros E%(f_equal length); rewrite length_app in E; simpl in E; lia).
  rewrite bool_decide_false by (rewrite length_app; lia). cbn [orb].
  rewrite length_app. replace (S (length (concat (entry_bytes <$> es)) + length (encode done_message)))
    with (length es + S (length (concat (entry_bytes <$> es)) + length (encode done_message) - length es)) by lia.
  rewrite parse_entries by done. rewrite <-(app_nil_r (encode done_message)) at 2.
  rewrite parse_message by apply done_message_ok. cbn [mbind outcome_bind]. simpl.
  do 3 f_equal. unfold cookies. rewrite fmap_app, list_to_set_app_L. set_solver.
Qed.

(** Every script ends in a result or waits; the parser never loops or panics. *)
Lemma snapshot_total (y : diag_calls) (events : list (io bytes)) : ∃ r, snapshot y events = Ret r.
Proof.
  unfold snapshot. destruct (diagnostic_socket y ≫= send_request y) as [[]|]; [|eauto]. generalize (∅ : gset Z).
  induction events as [|[d|e] events IH]; intros s; cbn [snapshot_loop]; [eauto| |].
  - destruct (_ || _); [eauto|]. destruct (parse_total (S (length d)) d s ltac:(lia)) as [r ->].
    cbn [mbind outcome_bind]. destruct r as [[[] ?]|]; eauto.
  - case_bool_decide; eauto.
Qed.

Definition diag_example : diag_calls :=
  mkDiagCalls (λ _ _ _, (7, 0)%Z) (λ _ _, (0, 0)%Z) (λ _ _ _ _, (0, 0)%Z) (λ _ bs _, (Z.of_nat (length bs), 0)%Z).

Lemma snapshot_collects_cookies_witness :
  let e := (replicate 44 x00, replicate 20 x00, 0x500000007)%Z in
  entry_ok e ∧
  snapshot diag_example [Ok (entry_bytes e); Ok (encode done_message)] = Ret (Some (Ok (cookies [e]))).
Proof.
  intros e. assert (He : entry_ok e) by (split_and!; simpl; lia || done).
  split; [exact He|].
  apply (snapshot_collects_cookies diag_example 7 [[e]] []).
  - split; [split; [reflexivity|discriminate]|reflexivity..].
  - constructor; [|constructor]. split; [discriminate|]. split; [by constructor|].
    apply (bool_decide_unpack _). vm_compute. exact I.
  - constructor.
  - apply (bool_decide_unpack _). vm_compute. exact I.
Defined.
