(* ===== verification/Ingress.v ===== *)
(** * The shared loopback listener: src/broker/tcp_ingress.rs

    Every outbound connection of the application is connected to one loopback
    listener; [waiting] finds the registration an accepted stream belongs to.
    A oneshot channel is a number; [delivered] holds what was sent on each, and
    [live] the registrations that have not been dropped. [step] is what can
    happen to the listener, in any order: a registration, an accepted
    connection, the end of a registration. *)
From S2P Require Import Prelude RustStd Net Stream Seccomp Access Memory TcpBind Sockets.

Record Pending := mkPending { p_socket : Z; p_sender : option nat }.

Record Ingress := mkIngress { i_address : SocketAddrV4; waiting : gmap Z (list Pending) }.

Record Registration := mkRegistration { r_port : Z; r_socket : Z; r_channel : nat }.

#[export] Instance Registration_eq_dec : EqDecision Registration.
Proof. solve_decision. Defined.

(** The listener and what its tasks share. *)
Record world := mkWorld {
  ingress : Ingress;
  next_channel : nat;
  delivered : gmap nat Z;
  live : list Registration;
}.

Definition set_waiting (w : world) (t : gmap Z (list Pending)) : Ingress := mkIngress (i_address (ingress w)) t.

(** [Ingress::register] for the socket [fd] in state [s]; the socket keeps
    what [prepare] did to it. *)
Definition register (e : bind_env) (s : tcp_socket) (fd : Z) (w : world)
    : io Registration * tcp_socket * world :=
  match prepare e s with
  | (Err error, s) => (Err error, s, w)
  | (Ok port, s) =>
      let channel := next_channel w in
      let r := mkRegistration port fd channel in
      let candidates := default [] (waiting (ingress w) !! port) in
      (Ok r, s,
       mkWorld (set_waiting w (<[port := candidates ++ [mkPending fd (Some channel)]]> (waiting (ingress w))))
         (S channel) (delivered w) (live w ++ [r]))
  end.

(** [candidates.iter_mut().find_map(...)], taking the sender it finds. *)
Fixpoint take_sender (matches : Z → bool) (candidates : list Pending) : option nat * list Pending :=
  match candidates with
  | [] => (None, [])
  | p :: candidates =>
      match p_sender p with
      | Some sender =>
          if matches (p_socket p) then (Some sender, mkPending (p_socket p) None :: candidates)
          else let '(found, candidates) := take_sender matches candidates in (found, p :: candidates)
      | None => let '(found, candidates) := take_sender matches candidates in (found, p :: candidates)
      end
  end.

(** Both endpoints identify the socket. *)
Definition endpoints (k : kernel) (address source : SocketAddrV4) (fd : Z) : bool :=
  match sock_address k fd false, sock_address k fd true with
  | Ok l, Ok p => bool_decide (l = source) && bool_decide (p = address)
  | _, _ => false
  end.

Definition deliver (k : kernel) (stream : Z) (source : SocketAddrV4) (w : world) : world :=
  match waiting (ingress w) !! sa_port source with
  | None => w
  | Some candidates =>
      let '(sender, candidates) := take_sender (endpoints k (i_address (ingress w)) source) candidates in
      mkWorld (set_waiting w (<[sa_port source := candidates]> (waiting (ingress w)))) (next_channel w)
        (match sender with
         | Some channel => if existsb (λ r, bool_decide (r_channel r = channel)) (live w)
                           then <[channel := stream]> (delivered w) else delivered w
         | None => delivered w
         end) (live w)
  end.

(** [Drop for Registration] *)
Definition drop_registration (r : Registration) (w : world) : world :=
  let t := waiting (ingress w) in
  mkWorld
    (set_waiting w
       match t !! r_port r with
       | None => t
       | Some candidates =>
           let kept := List.filter (λ p, negb (bool_decide (p_socket p = r_socket r))) candidates in
           if bool_decide (kept = []) then delete (r_port r) t else <[r_port r := kept]> t
       end)
    (next_channel w) (delivered w) (List.filter (λ r', negb (bool_decide (r_channel r' = r_channel r))) (live w)).

(** [Registration::accept]: what its receiver holds, if anything arrived. *)
Definition accept (r : Registration) (w : world) : option Z * world :=
  match delivered w !! r_channel r with
  | Some stream => (Some stream, drop_registration r w)
  | None => (None, w)
  end.

Inductive accepted :=
| FromV4 (stream : Z) (source : SocketAddrV4)
| FromV6 (stream : Z).

(** The errors [run] waits out or ignores. *)
Definition accept_retries (error : io_error) : bool :=
  bool_decide (raw_os_error error ∈ [Some EMFILE; Some ENFILE; Some ENOBUFS; Some ENOMEM])
  || bool_decide (kind error ∈ [Interrupted; ConnectionAborted; ConnectionReset]).

(** [Ingress::run] on what accept returns, with the kernel at that moment; the
    result is the error that stopped it. *)
Fixpoint run_ingress (events : list (io accepted * kernel)) (w : world) : option io_error * world :=
  match events with
  | [] => (None, w)
  | (Ok (FromV4 stream source), k) :: events => run_ingress events (deliver k stream source w)
  | (Ok (FromV6 _), _) :: events => run_ingress events w
  | (Err error, _) :: events => if accept_retries error then run_ingress events w else (Some error, w)
  end.

(** ** What can happen *)

(** A registered socket is owned by its registration, so that the kernel does
    not give its descriptor to another one. *)
Inductive step (w : world) : world → Prop :=
| step_register e s fd r s' w' :
    fd ∉ (r_socket <$> live w) → register e s fd w = (r, s', w') → step w w'
| step_deliver k stream source : step w (deliver k stream source w)
| step_accept r : r ∈ live w → step w (snd (accept r w))
| step_drop r : r ∈ live w → step w (drop_registration r w).

Definition initial (address : SocketAddrV4) : world := mkWorld (mkIngress address ∅) 0 ∅ [].

Definition ingress_reachable (w : world) : Prop := ∃ address, rtc step (initial address) w.

(** ** The table, as the live registrations determine it *)

Definition pending_of (d : gmap nat Z) (r : Registration) : Pending :=
  mkPending (r_socket r) (if bool_decide (is_Some (d !! r_channel r)) then None else Some (r_channel r)).

Definition at_port (port : Z) (rs : list Registration) : list Registration :=
  List.filter (λ r, bool_decide (r_port r = port)) rs.

Definition row (d : gmap nat Z) (rs : list Registration) : option (list Pending) :=
  if bool_decide (rs = []) then None else Some (pending_of d <$> rs).

Record exact (w : world) : Prop := {
  ex_table port : waiting (ingress w) !! port = row (delivered w) (at_port port (live w));
  ex_sockets : NoDup (r_socket <$> live w);
  ex_channels : NoDup (r_channel <$> live w);
  ex_fresh r : r ∈ live w → r_channel r < next_channel w;
  ex_sent c : is_Some (delivered w !! c) → c < next_channel w;
}.

Lemma exact_initial a : exact (initial a).
Proof.
  split; simpl; [intros port; apply lookup_empty|apply NoDup_nil_2|apply NoDup_nil_2|by intros r ?%elem_of_nil|].
  intros c [s Hs]. by rewrite lookup_empty in Hs.
Qed.

Lemma pending_of_ext (d d' : gmap nat Z) (rs : list Registration) :
  (∀ r, r ∈ rs → is_Some (d' !! r_channel r) ↔ is_Some (d !! r_channel r)) →
  pending_of d' <$> rs = pending_of d <$> rs.
Proof.
  intros H. apply list_fmap_ext. intros i r Hr%list_elem_of_lookup_2. unfold pending_of.
  by rewrite (bool_decide_ext _ _ (H r Hr)).
Qed.

Lemma pending_of_none d r : d !! r_channel r = None → pending_of d r = mkPending (r_socket r) (Some (r_channel r)).
Proof. intros H. unfold pending_of. by rewrite H, bool_decide_false by (by intros [? ?]). Qed.

Lemma pending_of_sent d r s : d !! r_channel r = Some s → pending_of d r = mkPending (r_socket r) None.
Proof. intros H. unfold pending_of. by rewrite H, bool_decide_true. Qed.

Lemma at_port_app port rs rs' : at_port port (rs ++ rs') = at_port port rs ++ at_port port rs'.
Proof. apply List.filter_app. Qed.

Lemma at_port_In port rs r : r ∈ at_port port rs ↔ r ∈ rs ∧ r_port r = port.
Proof.
  unfold at_port. rewrite !list_elem_of_In, filter_In, bool_decide_eq_true. done.
Qed.

Lemma register_exact e s fd w r s' w' :
  exact w → fd ∉ (r_socket <$> live w) → register e s fd w = (r, s', w') → exact w'.
Proof.
  intros [Ht Hs Hc Hf Hd] Hfd. unfold register. destruct (prepare e s) as [[port|error] s1]; [|by intros [= _ _ <-]].
  intros [= _ _ <-]. split; simpl.
  - intros q. rewrite at_port_app. cbn [at_port List.filter r_port].
    destruct (decide (q = port)) as [->|Hne].
    + rewrite lookup_insert_eq, bool_decide_true, Ht by done. unfold row.
      rewrite (bool_decide_false (_ ++ _ = [])) by (by intros [_ ?]%app_nil).
      rewrite fmap_app. cbn [fmap list_fmap]. rewrite pending_of_none.
      2: { cbn [r_channel]. apply eq_None_not_Some. intros ?%Hd. lia. }
      f_equal. f_equal. case_bool_decide as He; [by rewrite He|done].
    + rewrite lookup_insert_ne by done. rewrite bool_decide_false by done. by rewrite app_nil_r, Ht.
  - rewrite fmap_app. apply list.NoDup_app. split; [done|]. split; [|apply NoDup_singleton].
    intros x Hx ->%list_elem_of_singleton. done.
  - rewrite fmap_app. apply list.NoDup_app. split; [done|]. split; [|apply NoDup_singleton].
    intros x Hx Hn%list_elem_of_singleton. simpl in Hn.
    apply list_elem_of_fmap in Hx as (r' & -> & Hr'). specialize (Hf _ Hr'). lia.
  - intros q [Hq|Hq]%elem_of_app; [specialize (Hf _ Hq); lia|].
    apply list_elem_of_singleton in Hq as ->. simpl. lia.
  - intros c Hc'%Hd. lia.
Qed.

(** The registration an accepted stream goes to. *)
Definition claims (d : gmap nat Z) (matches : Z → bool) (r : Registration) : bool :=
  bool_decide (d !! r_channel r = None) && matches (r_socket r).

Lemma pending_of_insert (d : gmap nat Z) c stream (rs : list Registration) :
  c ∉ (r_channel <$> rs) → pending_of (<[c := stream]> d) <$> rs = pending_of d <$> rs.
Proof.
  intros Hc. apply pending_of_ext. intros r Hr. rewrite lookup_insert_ne; [done|].
  intros ->. apply Hc, list_elem_of_fmap. by exists r.
Qed.

Lemma take_sender_row (matches : Z → bool) (d : gmap nat Z) stream (rs : list Registration) :
  NoDup (r_channel <$> rs) →
  take_sender matches (pending_of d <$> rs) =
    match List.find (claims d matches) rs with
    | Some r => (Some (r_channel r), pending_of (<[r_channel r := stream]> d) <$> rs)
    | None => (None, pending_of d <$> rs)
    end.
Proof.
  induction rs as [|r rs IH]; [done|]. rewrite !fmap_cons. intros [Hr Hnd]%list.NoDup_cons.
  specialize (IH Hnd). cbn [take_sender List.find]. unfold claims at 1.
  assert (Hskip : ∀ r' : Registration, r' ∈ rs → r_channel r' ≠ r_channel r).
  { intros r' Hin E. apply Hr. rewrite <-E. apply list_elem_of_fmap. by exists r'. }
  assert (Hfound : ∀ r', List.find (claims d matches) rs = Some r' →
    pending_of (<[r_channel r' := stream]> d) r = pending_of d r).
  { intros r' [Hin%list_elem_of_In _]%find_some. unfold pending_of. by rewrite lookup_insert_ne by auto. }
  destruct (d !! r_channel r) as [x|] eqn:Ed.
  - rewrite (pending_of_sent d r x Ed), bool_decide_false by done. cbn [p_sender p_socket andb].
    rewrite IH. destruct (List.find (claims d matches) rs) as [r'|].
    + by rewrite fmap_cons, Hfound, (pending_of_sent d r x Ed).
    + done.
  - rewrite (pending_of_none d r Ed), bool_decide_true by done. cbn [p_sender p_socket andb].
    destruct (matches (r_socket r)).
    + rewrite fmap_cons, pending_of_insert by done.
      by rewrite (pending_of_sent _ r stream) by apply lookup_insert_eq.
    + rewrite IH. destruct (List.find (claims d matches) rs) as [r'|].
      * by rewrite fmap_cons, Hfound, (pending_of_none d r Ed).
      * done.
Qed.

(** Two elements with the same image. *)
Lemma NoDup_fmap_inj_elem {A B} (f : A → B) (l : list A) x y :
  NoDup (f <$> l) → x ∈ l → y ∈ l → f x = f y → x = y.
Proof.
  intros Hnd [i Hi]%list_elem_of_lookup [j Hj]%list_elem_of_lookup E.
  assert (i = j) as ->; [|congruence].
  eapply (NoDup_lookup (f <$> l)); [done|rewrite list_lookup_fmap, Hi; done|].
  rewrite list_lookup_fmap, Hj. simpl. by rewrite E.
Qed.

Lemma NoDup_fmap_at_port {B} (f : Registration → B) port (rs : list Registration) :
  NoDup (f <$> rs) → NoDup (f <$> at_port port rs).
Proof.
  intros H. eapply sublist_NoDup; [exact H|]. apply fmap_sublist. unfold at_port.
  induction rs; simpl; [constructor|]. case_bool_decide; by constructor; apply IHrs, (NoDup_cons_1_2 _ _ H).
Qed.

Lemma find_at_port port (P : Registration → bool) (rs : list Registration) :
  List.find P (at_port port rs) = List.find (λ r, bool_decide (r_port r = port) && P r) rs.
Proof.
  induction rs as [|r rs IH]; [done|]. cbn [at_port List.filter List.find].
  case_bool_decide; cbn [andb List.find]; [by rewrite <-IH|exact IH].
Qed.

(** Where the stream of a connection from [source] goes. *)
Definition claimant (k : kernel) (source : SocketAddrV4) (w : world) : option Registration :=
  List.find (λ r, bool_decide (r_port r = sa_port source)
                  && claims (delivered w) (endpoints k (i_address (ingress w)) source) r) (live w).

Definition set_delivered (w : world) (stream : Z) (r : option Registration) : gmap nat Z :=
  match r with Some r => <[r_channel r := stream]> (delivered w) | None => delivered w end.

(** What [deliver] does to an exact table. *)
Lemma deliver_spec k stream source w :
  exact w →
  delivered (deliver k stream source w) = set_delivered w stream (claimant k source w) ∧
  exact (deliver k stream source w) ∧ live (deliver k stream source w) = live w.
Proof.
  intros He. pose proof He as [Ht Hs Hc Hf Hd]. unfold deliver, claimant. rewrite <-find_at_port.
  set (port := sa_port source). set (P := endpoints k (i_address (ingress w)) source).
  pose proof (Ht port) as Hrow. unfold row in Hrow. case_bool_decide as Hnil; rewrite Hrow.
  { rewrite Hnil. simpl. done. }
  rewrite (take_sender_row P (delivered w) stream) by (by apply NoDup_fmap_at_port).
  destruct (List.find (claims (delivered w) P) (at_port port (live w))) as [r|] eqn:Ef; simpl.
  - apply find_some in Ef as [Hr Hcl]. apply list_elem_of_In, at_port_In in Hr as [Hr Hp].
    rewrite (proj2 (existsb_exists _ _)).
    2: { exists r. split; [by apply list_elem_of_In|by apply bool_decide_true]. }
    split_and!; [done| |done]. split; simpl; try done.
    + intros q. destruct (decide (q = port)) as [->|Hne].
      * rewrite lookup_insert_eq. unfold row. by rewrite bool_decide_false.
      * rewrite lookup_insert_ne, Ht by done. unfold row. case_bool_decide; [done|]. f_equal. symmetry.
        apply pending_of_insert. intros Hin. apply list_elem_of_fmap in Hin as (r' & Heq & Hr').
        apply at_port_In in Hr' as [Hr' Hq]. apply Hne. rewrite <-Hq, <-Hp. f_equal.
        by eapply NoDup_fmap_inj_elem.
    + intros c. destruct (decide (c = r_channel r)) as [->|Hne]; [intros _; by apply Hf|].
      rewrite lookup_insert_ne by done. apply Hd.
  - split_and!; [done| |done]. split; simpl; try done. intros q. destruct (decide (q = port)) as [->|Hne].
    + rewrite lookup_insert_eq. unfold row. by rewrite bool_decide_false.
    + by rewrite lookup_insert_ne, Ht by done.
Qed.

(** The registrations other than [r]. *)
Definition without (r : Registration) (rs : list Registration) : list Registration :=
  List.filter (λ r', negb (bool_decide (r_channel r' = r_channel r))) rs.

Lemma without_In r rs r' : r' ∈ without r rs ↔ r' ∈ rs ∧ r_channel r' ≠ r_channel r.
Proof. unfold without. by rewrite !list_elem_of_In, filter_In, negb_true_iff, bool_decide_eq_false. Qed.

Lemma without_sublist r rs : sublist (without r rs) rs.
Proof. unfold without. induction rs; simpl; [constructor|]. destruct (negb _); by constructor. Qed.

(** Sockets and channels single out the same registration. *)
Lemma filter_sockets d r rs :
  (∀ r', r' ∈ rs → r_socket r' = r_socket r ↔ r_channel r' = r_channel r) →
  List.filter (λ p, negb (bool_decide (p_socket p = r_socket r))) (pending_of d <$> rs) = pending_of d <$> without r rs.
Proof.
  induction rs as [|r' rs IH]; intros H; [done|]. rewrite fmap_cons. cbn [List.filter without].
  change (p_socket (pending_of d r')) with (r_socket r').
  rewrite (bool_decide_ext (r_socket r' = r_socket r) (r_channel r' = r_channel r)) by (apply H; by left).
  case_bool_decide; cbn [negb]; rewrite IH by (intros q Hq; apply H; by right); done.
Qed.

Lemma at_port_without port r rs : at_port port (without r rs) = without r (at_port port rs).
Proof.
  unfold at_port, without. induction rs as [|r' rs IH]; [done|]. cbn [List.filter].
  destruct (negb (bool_decide (r_channel r' = r_channel r))) eqn:E1; cbn [List.filter];
    destruct (bool_decide (r_port r' = port)); cbn [List.filter]; rewrite ?E1, IH; done.
Qed.

Lemma without_other r rs : (∀ r', r' ∈ rs → r_channel r' ≠ r_channel r) → without r rs = rs.
Proof.
  induction rs as [|r' rs IH]; intros H; [done|]. cbn [without List.filter].
  rewrite bool_decide_false by (apply H; by left). cbn [negb]. f_equal. apply IH. intros q Hq. apply H. by right.
Qed.

Lemma drop_exact r w : exact w → r ∈ live w → exact (drop_registration r w).
Proof.
  intros [Ht Hs Hc Hf Hd] Hr. unfold drop_registration. fold (without r (live w)).
  assert (Hsc : ∀ r', r' ∈ live w → r_socket r' = r_socket r ↔ r_channel r' = r_channel r).
  { intros r' Hr'. split; intros E; f_equal.
    - by apply (NoDup_fmap_inj_elem r_socket (live w)).
    - by apply (NoDup_fmap_inj_elem r_channel (live w)). }
  split; simpl.
  - intros q. rewrite at_port_without. rewrite (Ht (r_port r)). unfold row at 1.
    destruct (decide (q = r_port r)) as [->|Hne].
    + rewrite bool_decide_false.
      2: { intros E. apply (elem_of_nil r). rewrite <-E. by apply at_port_In. }
      rewrite filter_sockets by (intros r' [Hr' _]%at_port_In; auto).
      unfold row. destruct (without r (at_port (r_port r) (live w))) as [|r' rs].
      * rewrite !bool_decide_true by done. apply lookup_delete_eq.
      * rewrite !bool_decide_false by done. apply lookup_insert_eq.
    + rewrite (without_other r (at_port q _)).
      2: { intros r' [Hr' Hq]%at_port_In E. apply Hne. rewrite <-Hq. f_equal. by apply (NoDup_fmap_inj_elem r_channel (live w)). }
      rewrite <-Ht. case_bool_decide; [done|]. case_bool_decide; [by rewrite lookup_delete_ne|by rewrite lookup_insert_ne].
  - eapply sublist_NoDup; [exact Hs|]. apply fmap_sublist, without_sublist.
  - eapply sublist_NoDup; [exact Hc|]. apply fmap_sublist, without_sublist.
  - intros r' [Hr' _]%without_In. auto.
  - done.
Qed.

Lemma exact_reachable w : ingress_reachable w → exact w.
Proof.
  intros [a Hr]. cut (exact (initial a) → exact w); [intros H; apply H, exact_initial|].
  induction Hr as [w|w w1 w2 Hst _ IH]; [done|]. intros He. apply IH. destruct Hst.
  - by eapply register_exact.
  - by apply deliver_spec.
  - unfold accept. destruct (delivered w !! _); [by apply drop_exact|done].
  - by apply drop_exact.
Qed.

(** ** Theorems *)

(** C18: In every reachable state the listener table holds exactly the live registrations
    under their ports, each with its sender until its stream is delivered, no empty row, and
    nothing once no registration is live. *)
Theorem listener_table_exact (w : world) (port : Z) (fd : Z) :
  ingress_reachable w →
  ((∃ candidates p, waiting (ingress w) !! port = Some candidates ∧ p ∈ candidates ∧ p_socket p = fd) ↔
   ∃ r, r ∈ live w ∧ r_port r = port ∧ r_socket r = fd) ∧
  (∀ candidates p r, waiting (ingress w) !! port = Some candidates → p ∈ candidates → r ∈ live w →
     p_socket p = r_socket r →
     p_sender p = match delivered w !! r_channel r with Some _ => None | None => Some (r_channel r) end) ∧
  waiting (ingress w) !! port ≠ Some [] ∧
  (live w = [] → waiting (ingress w) = ∅).
Proof.
  intros [Ht Hs Hc Hf Hd]%exact_reachable.
  assert (Hin : ∀ candidates p, waiting (ingress w) !! port = Some candidates → p ∈ candidates →
    ∃ r, r ∈ live w ∧ r_port r = port ∧ p = pending_of (delivered w) r).
  { intros cs p Hw Hp. rewrite Ht in Hw. unfold row in Hw. case_bool_decide; [done|]. injection Hw as <-.
    apply list_elem_of_fmap in Hp as (r & -> & [Hr Hport]%at_port_In). by exists r. }
  split_and!.
  - split.
    + intros (cs & p & Hw & Hp & <-). destruct (Hin _ _ Hw Hp) as (r & Hr & Hport & ->). by exists r.
    + intros (r & Hr & Hport & <-). assert (Hr' : r ∈ at_port port (live w)) by (by apply at_port_In).
      exists (pending_of (delivered w) <$> at_port port (live w)), (pending_of (delivered w) r). split_and!; [|by apply list_elem_of_fmap_2|done].
      rewrite Ht. unfold row. rewrite bool_decide_false; [done|]. intros E. rewrite E in Hr'. by apply elem_of_nil in Hr'.
  - intros cs p r Hw Hp Hr Hfd. destruct (Hin _ _ Hw Hp) as (r' & Hr' & _ & ->).
    assert (r' = r) as -> by (by apply (NoDup_fmap_inj_elem r_socket (live w))). simpl. by destruct (delivered w !! r_channel r).
  - rewrite Ht. unfold row. case_bool_decide as E; [done|]. intros [= E']. by apply fmap_nil_inv in E'.
  - intros E. apply map_eq. intros q. by rewrite Ht, E, lookup_empty.
Qed.

(** C17: When at most one registered socket has the endpoints of an accepted stream, the
    listener hands the stream to that registration and to no other, once, and leaves earlier
    deliveries alone. *)
Theorem deliver_to_matching_socket (w : world) (k : kernel) (stream : Z) (source : SocketAddrV4) (c : nat) (s : Z) :
  ingress_reachable w →
  let matching r := endpoints k (i_address (ingress w)) source (r_socket r) = true ∧ r_port r = sa_port source in
  (∀ r r', r ∈ live w → r' ∈ live w → matching r → matching r' → r = r') →
  delivered (deliver k stream source w) !! c = Some s ↔
    delivered w !! c = Some s ∨
    (s = stream ∧ delivered w !! c = None ∧ ∃ r, r ∈ live w ∧ r_channel r = c ∧ matching r).
Proof.
  intros He%exact_reachable matching Huniq. destruct (deliver_spec k stream source w He) as (-> & _ & _).
  unfold claimant. destruct (List.find _ (live w)) as [r|] eqn:Ef; simpl.
  - apply find_some in Ef as [Hr%list_elem_of_In H]. apply andb_prop in H as [Hp%bool_decide_eq_true H].
    unfold claims in H. apply andb_prop in H as [Hn%bool_decide_eq_true Hm].
    destruct (decide (c = r_channel r)) as [->|Hne].
    + rewrite lookup_insert_eq, Hn. split; [|by intros [?|(-> & _)]]. intros [= ->]. right.
      split_and!; [done..|]. by exists r.
    + rewrite lookup_insert_ne by done. split; [by left|]. intros [?|(_ & _ & r' & Hr' & <- & Hm')]; [done|].
      by destruct Hne; rewrite (Huniq r' r Hr' Hr Hm' (conj Hm Hp)).
  - split; [by left|]. intros [?|(-> & Hn & r & Hr%list_elem_of_In & <- & Hm & Hp)]; [done|].
    pose proof (find_none _ _ Ef r Hr) as H. unfold claims in H.
    by rewrite Hp, Hn, Hm, !bool_decide_true in H.
Qed.

(** ** Examples *)

(** Two sockets bound to one port on different addresses. *)
Definition listener_example : SocketAddrV4 := SockAddr (ipv4 127 0 0 1) 4000.
Definition first_source : SocketAddrV4 := SockAddr (ipv4 127 0 0 2) 5000.
Definition second_source : SocketAddrV4 := SockAddr (ipv4 127 0 0 3) 5000.

Definition quiet_env : bind_env :=
  mkBindEnv (Ok ()) (Ok ()) (Ok ()) (Ok 6000%Z) false (Ok ()) (Ok ()) (Ok ()) (Ok ()) (Ok ()).

Definition register_example (source : SocketAddrV4) (fd : Z) (w : world) : world :=
  snd (register quiet_env (mkTcpSocket source 0) fd w).

Definition one_registered : world := register_example first_source 10 (initial listener_example).
Definition two_registered : world := register_example second_source 11 one_registered.

Definition kernel_example : kernel :=
  mkKernel (λ fd peer, Ok (sockaddr (if peer then listener_example
                                     else if (fd =? 10)%Z then first_source else second_source)))
    (λ _ _ _, Err (RawOs EINVAL)) (λ _, Ok 1%Z) (λ _ _, Ok 0%Z).

Lemma two_registered_live : live two_registered = [mkRegistration 5000 10 0; mkRegistration 5000 11 1].
Proof. reflexivity. Qed.

Lemma two_registered_reachable : ingress_reachable two_registered.
Proof.
  exists listener_example. apply (rtc_l _ _ one_registered); [|apply rtc_once].
  - eapply (step_register _ quiet_env (mkTcpSocket first_source 0) 10); [by apply not_elem_of_nil|reflexivity].
  - eapply (step_register _ quiet_env (mkTcpSocket second_source 0) 11); [|reflexivity].
    by apply (bool_decide_unpack (11%Z ∉ [10%Z])).
Qed.

Lemma listener_table_exact_witness :
  ingress_reachable two_registered ∧ ∃ candidates p,
    waiting (ingress two_registered) !! 5000%Z = Some candidates ∧ p ∈ candidates ∧ p_socket p = 11%Z.
Proof.
  split; [exact two_registered_reachable|].
  apply (proj2 (proj1 (listener_table_exact two_registered 5000 11 two_registered_reachable))).
  exists (mkRegistration 5000 11 1). rewrite two_registered_live. split; [|split; reflexivity].
  by apply (bool_decide_unpack (mkRegistration 5000 11 1 ∈ [mkRegistration 5000 10 0; mkRegistration 5000 11 1])).
Defined.

(** The stream from the second socket goes to its own registration. *)
Lemma deliver_to_matching_socket_witness :
  delivered (deliver kernel_example 77 second_source two_registered) !! 1%nat = Some 77%Z ∧
  delivered (deliver kernel_example 77 second_source two_registered) !! 0%nat ≠ Some 77%Z.
Proof.
  assert (Hu : ∀ r r', r ∈ live two_registered → r' ∈ live two_registered →
    endpoints kernel_example (i_address (ingress two_registered)) second_source (r_socket r) = true ∧ r_port r = 5000%Z →
    endpoints kernel_example (i_address (ingress two_registered)) second_source (r_socket r') = true ∧ r_port r' = 5000%Z →
    r = r').
  { intros r r'. rewrite two_registered_live, !elem_of_cons, !elem_of_nil.
    intros [->|[->|[]]] [->|[->|[]]] [H _] [H' _]; try reflexivity; exfalso; revert H H'; vm_compute; discriminate. }
  split.
  - apply (deliver_to_matching_socket two_registered kernel_example 77 second_source 1 77 two_registered_reachable Hu).
    right. split; [reflexivity|]. split; [reflexivity|]. exists (mkRegistration 5000 11 1).
    rewrite two_registered_live. split; [|split; [reflexivity|split; vm_compute; reflexivity]].
    by apply (bool_decide_unpack (mkRegistration 5000 11 1 ∈ [mkRegistration 5000 10 0; mkRegistration 5000 11 1])).
  - intros H.
    apply (deliver_to_matching_socket two_registered kernel_example 77 second_source 0 77 two_registered_reachable Hu) in H.
    destruct H as [H|(_ & _ & r & Hr & Hc & Hm & _)]; [discriminate|].
    rewrite two_registered_live, !elem_of_cons, elem_of_nil in Hr.
    destruct Hr as [->|[->|[]]]; [|discriminate]. revert Hm. vm_compute. discriminate.
Defined.
