(* ===== verification/Files.v ===== *)
(** * Replies and resolver files: src/broker/engine.rs (Reply, valid, respond)
      and src/broker/files.rs

    [open] decides which open calls get the synthetic resolv.conf or
    nsswitch.conf; the file system and the kernel answer through [fs_env].
    Paths are byte strings compared the way [std::path] compares them, by
    components. *)
From S2P Require Import Prelude RustStd Net FakeDns Stream Seccomp Access Memory.

(** ** Replies *)

Inductive Reply :=
| RContinue
| RValue (v : Z)
| RSent.

(** [Broker::valid]; [check] is [seccomp::valid]. *)
Definition broker_valid (check : io bool) : io () :=
  ok ← check; if (ok : bool) then Ok () else Err (RawOs EINTR).

(** [Broker::respond]: the arguments of [seccomp::respond], if it is called. *)
Definition reply_args (result : io Reply) : option (Z * Z * bool) :=
  match result with
  | Ok RSent => None
  | Ok RContinue => Some (0, 0, true)%Z
  | Ok (RValue value) => Some (value, 0, false)%Z
  | Err error => Some (0%Z, default EIO (raw_os_error error), false)
  end.

Definition broker_respond (ioctl : Z → Response → io ()) (id : Z) (result : io Reply) : io () :=
  match reply_args result with
  | None => Ok ()
  | Some (value, errno, passthrough) =>
      match respond ioctl id value errno passthrough with
      | Err error => if bool_decide (raw_os_error error = Some ENOENT) then Ok () else Err error
      | Ok _ => Ok ()
      end
  end.

(** ** File contents *)

Definition resolv_conf : bytes := lit "nameserver " ++ fmt_ipv4 DNS_ADDR ++ [x0a].

Definition is_hosts_line (line : bytes) : bool :=
  match split_once x3a line with
  | Some (name, _) => bool_decide (trim name = lit "hosts")
  | None => false
  end.

Definition nsswitch_conf (original : bytes) : bytes :=
  let ls := List.filter (λ line, negb (is_hosts_line line)) (lines original) in
  join [x0a] (ls ++ [lit "hosts: files dns"]) ++ [x0a].

(** ** std::path *)

Definition is_absolute (p : bytes) : bool := bool_decide (head p = Some x2f).

Definition normal_component (c : bytes) : bool := negb (bool_decide (c = [])) && negb (bool_decide (c = [x2e])).

(** Empty and [.] components disappear, but for a leading [.]. *)
Definition components (p : bytes) : list bytes :=
  match split x2f p with
  | [x2e] :: rest => [x2e] :: List.filter normal_component rest
  | parts => List.filter normal_component parts
  end.

(** [Path ==] *)
Definition path_eq (p q : bytes) : bool :=
  bool_decide (is_absolute p = is_absolute q) && bool_decide (components p = components q).

Definition file_name (p : bytes) : option bytes :=
  match reverse (components p) with
  | [x2e; x2e] :: _ => None
  | [x2e] :: _ => None
  | c :: _ => Some c
  | [] => None
  end.

(** [base.join(path)] *)
Definition path_join (base p : bytes) : bytes :=
  if is_absolute p then p
  else if bool_decide (base = []) then p
  else if bool_decide (head (reverse base) = Some x2f) then base ++ p
  else base ++ [x2f] ++ p.

Definition ends_with (s suffix : bytes) : bool := starts_with (reverse suffix) (reverse s).

(** ** Opening *)

Definition O_CREAT : Z := 0x40.
Definition O_EXCL : Z := 0x80.
Definition O_TRUNC : Z := 0x200.
Definition O_PATH : Z := 0x200000.
Definition O_ACCMODE : Z := 3.
Definition O_DIRECTORY (a : target_arch) : Z := match a with x86_64 => 0x10000 | aarch64 => 0x4000 end.
Definition O_NOFOLLOW (a : target_arch) : Z := match a with x86_64 => 0x20000 | aarch64 => 0x8000 end.
Definition AT_FDCWD : Z := -100.
Definition AF_UNIX : Z := 1.
Definition SIZE_SOCKADDR_UN : Z := 110.

Record ConfigFile := mkConfigFile { cf_path : bytes; cf_canonical : option bytes; cf_file : Z }.

(** The file system seen by the broker, and its answers to the descriptor
    calls: a new open of a memfd, the liveness of the notification, ADDFD. *)
Record fs_env := mkFs {
  fs_canonicalize : bytes → option bytes;
  fs_is_symlink : bytes → bool;
  fs_cwd : Z → io bytes;
  fs_directory : Z → Z → io bytes;
  fs_reopen : Z → Z → io Z;
  fs_valid : io bool;
  fs_addfd : Z → bool → io ();
}.

(** [x as i32] *)
Definition as_i32 (z : Z) : Z := let m := (z mod 2 ^ 32)%Z in if (m <? 2 ^ 31)%Z then m else (m - 2 ^ 32)%Z.

Definition has (flags bits : Z) : bool := negb (Z.land flags bits =? 0)%Z.

Definition absolute_path (env : fs_env) (tid dirfd : Z) (p : bytes) : io bytes :=
  if is_absolute p then Ok p else
  base ← (if (dirfd =? AT_FDCWD)%Z then fs_cwd env tid else fs_directory env tid dirfd);
  Ok (path_join base p).

(** The flags [reopen] passes on. *)
Definition reopen_flags (a : target_arch) (flags : Z) : Z :=
  Z.lor (Z.land flags (Z.lnot (Z.lor (Z.lor O_CREAT O_EXCL) (O_NOFOLLOW a)))) O_CLOEXEC.

Definition reopen (a : target_arch) (env : fs_env) (file : ConfigFile) (flags : Z) : io Z :=
  fs_reopen env (cf_file file) (reopen_flags a flags).

Definition same_name (p : bytes) (file : ConfigFile) : bool :=
  bool_decide (file_name p = file_name (cf_path file))
  || match cf_canonical file with Some alias => bool_decide (file_name p = file_name alias) | None => false end.

Definition same_file (canonical : option bytes) (p : bytes) (file : ConfigFile) : bool :=
  path_eq (cf_path file) p
  || match cf_canonical file with
     | Some alias => path_eq alias p || match canonical with Some c => path_eq alias c | None => false end
     | None => false
     end.

(** The checks on the flags of an open of a synthetic file, in their order. *)
Definition check_flags (a : target_arch) (env : fs_env) (p : bytes) (flags : Z) : io (option Reply) :=
  if ends_with p [x2f] || ends_with p [x2f; x2e] then Err (RawOs ENOTDIR) else
  if has flags (O_DIRECTORY a) then Err (RawOs ENOTDIR) else
  _ ← (if negb (has flags O_PATH) then
         if (Z.land flags (Z.lor O_CREAT O_EXCL) =? Z.lor O_CREAT O_EXCL)%Z then Err (RawOs EEXIST) else
         if negb (Z.land flags O_ACCMODE =? 0)%Z || has flags O_TRUNC then Err (RawOs EACCES) else Ok ()
       else Ok ());
  if has flags (O_NOFOLLOW a) && fs_is_symlink env p then
    if has flags O_PATH then Ok (Some RContinue) else Err (RawOs ELOOP)
  else Ok None.

Definition called (a : target_arch) (d : Data) (c : syscall) : bool := bool_decide (number a c = Some (nr d)).

(** The directory, path and flags arguments. *)
Definition open_args (a : target_arch) (d : Data) : Z * Z * Z :=
  if called a d SYS_openat || called a d SYS_openat2 then (as_i32 (arg d 0), arg d 1, arg d 2)
  else (AT_FDCWD, arg d 0, arg d 1).

Section files.
Context {T : Type} {TM : TargetMemory T}.

Definition open_how (tid address size : Z) : M T io_error Z :=
  if (size <? 24)%Z then mfail (RawOs EINVAL) else
  if (4096 <? size)%Z then mfail (RawOs E2BIG) else
  bs ← read tid address (Z.to_nat size);
  if existsb (λ b, negb (bool_decide (b = x00))) (drop 24 bs) then mfail (RawOs E2BIG) else
  let flags := le_value (take 8 bs) in
  let mode := le_value (take 8 (drop 8 bs)) in
  let resolve := le_value (take 8 (drop 16 bs)) in
  if (I32_MAX <? flags)%Z || negb (Z.land mode (Z.lnot 0xFFF) =? 0)%Z
     || negb (mode =? 0)%Z && negb (has flags O_CREAT)
  then mfail (RawOs EINVAL) else
  if negb (resolve =? 0)%Z then mfail (RawOs EOPNOTSUPP) else mret flags.

(** [path] never runs out of fuel ([path_terminates]): [None] cannot happen. *)
Definition read_path (tid address : Z) : M T io_error bytes :=
  p ← path tid address; lift_result (ok_or (Simple OtherKind) p).

Definition open (a : target_arch) (env : fs_env) (files : list ConfigFile) (request : Notification)
    : M T io_error Reply :=
  let d := ndata request in
  let '(dirfd, path_arg, flags_arg) := open_args a d in
  p ← read_path (npid request) path_arg;
  if negb (existsb (same_name p) files) then mret RContinue else
  p ← lift_result (absolute_path env (npid request) dirfd p);
  let canonical := fs_canonicalize env p in
  match List.find (same_file canonical p) files with
  | None => mret RContinue
  | Some file =>
      flags ← (if called a d SYS_openat2 then open_how (npid request) flags_arg (arg d 3)
               else mret (as_i32 flags_arg));
      early ← lift_result (check_flags a env p flags);
      match early with
      | Some reply => mret reply
      | None =>
          descriptor ← lift_result (reopen a env file flags);
          _ ← lift_result (broker_valid (fs_valid env));
          _ ← lift_result (fs_addfd env descriptor (has flags O_CLOEXEC));
          mret RSent
      end
  end.

Definition resolver_socket (p : bytes) : bool :=
  bool_decide (p ∈ [lit "/run/nscd/socket"; lit "/var/run/nscd/socket";
                    lit "/run/systemd/resolve/io.systemd.Resolve";
                    lit "/var/run/systemd/resolve/io.systemd.Resolve"]).

Definition check_unix_connect (request : Notification) : M T io_error () :=
  let d := ndata request in
  fam ← family (npid request) (arg d 1) (arg d 2);
  if negb (fam =? AF_UNIX)%Z then mret () else
  if (SIZE_SOCKADDR_UN <? arg d 2)%Z then mfail (RawOs EINVAL) else
  bs ← read (npid request) (arg d 1 + 2) (Z.to_nat (arg d 2 - 2));
  if match bs with [] => true | b :: _ => bool_decide (b = x00) end then mret () else
  let stop := default (length bs) (nul_position bs) in
  if resolver_socket (take stop bs) then mfail (RawOs ECONNREFUSED) else mret ().
End files.

(** [verify_bootstrap] on what the command opened as /etc/resolv.conf: the
    result of F_GET_SEALS (-1 on failure), or why the open failed, and the
    contents. *)
Definition SEALS : Z := Z.lor (Z.lor (Z.lor 1 8) 4) 2.

Definition verify_bootstrap (opened : io Z) (contents : io bytes) : io () :=
  seals ← opened;
  if negb (seals =? SEALS)%Z then Err (Simple OtherKind) else
  contents ← contents;
  if negb (bool_decide (contents = resolv_conf)) then Err (Simple OtherKind) else Ok ().

(** ** Lemmas *)

Lemma strip_cr_no_lf l : x0a ∉ l → x0a ∉ strip_cr l.
Proof.
  intros Hl. unfold strip_cr. destruct (reverse l) as [|b r] eqn:E; [done|].
  assert (x0a ∉ reverse r).
  { intros Hin. apply Hl. rewrite <-(reverse_involutive l), E, reverse_cons. apply elem_of_app. by left. }
  by destruct b.
Qed.

Lemma lines_no_lf s : Forall (λ l, x0a ∉ l) (lines s).
Proof.
  unfold lines. pose proof (split_no_delim x0a s) as H.
  destruct (reverse (split x0a s)) as [|b r] eqn:E; [constructor|].
  assert (Hs : split x0a s = reverse r ++ [b]) by (rewrite <-(reverse_involutive (split _ _)), E; apply reverse_cons).
  rewrite Hs in H. apply Forall_app in H as [H1 H2]. apply Forall_cons_1 in H2 as [H2 _].
  apply Forall_app. split.
  - apply Forall_fmap. eapply Forall_impl; [|exact H1]. intros l Hl. by apply strip_cr_no_lf.
  - case_bool_decide; by repeat constructor.
Qed.

Lemma join_snoc_nil sep l : l ≠ [] → join sep (l ++ [[]]) = join sep l ++ sep.
Proof.
  induction l as [|x l IH]; [done|]. intros _. destruct l as [|y l]; [simpl; by rewrite app_nil_r|].
  change (join sep ((x :: y :: l) ++ [[]])) with (x ++ sep ++ join sep ((y :: l) ++ [[]])).
  rewrite IH by done. change (join sep (x :: y :: l)) with (x ++ sep ++ join sep (y :: l)).
  by rewrite <-!app_assoc.
Qed.

(** Calls that do not touch the target's memory. *)
Definition reads_only {T} {TM : TargetMemory T} {A} (m : M T io_error A) : Prop :=
  ∀ s r s', m s = (r, s') → mem s' = mem s.

Section reads_only.
Context {T : Type} {TM : TargetMemory T}.

Lemma reads_only_bind {A B} (m : M T io_error A) (f : A → M T io_error B) :
  reads_only m → (∀ x, reads_only (f x)) → reads_only (x ← m; f x).
Proof.
  intros Hm Hf s r s'. rewrite M_bind_run. destruct (m s) as [[x|e] s1] eqn:E.
  - intros H%Hf. apply Hm in E. congruence.
  - intros [= <- <-]. by apply Hm in E.
Qed.

Lemma reads_only_lift {A} (r : io A) : reads_only (lift_result r : M T io_error A).
Proof. by intros s ? s' [= <- <-]. Qed.

Lemma reads_only_ret {A} (x : A) : reads_only (mret x : M T io_error A).
Proof. by intros s ? s' [= <- <-]. Qed.

Lemma reads_only_fail {A} e : reads_only (mfail e : M T io_error A).
Proof. by intros s ? s' [= <- <-]. Qed.

Lemma reads_only_peek tid a n : reads_only (peek tid a n : M T io_error bytes).
Proof. intros s r s' H. by apply peek_law in H as [? _]. Qed.

Lemma reads_only_path_loop tid a fuel : ∀ bs, reads_only (path_loop fuel tid a bs : M T io_error (option bytes)).
Proof.
  induction fuel as [|fuel IH]; intros bs; cbn [path_loop]; [apply reads_only_ret|].
  destruct (_ <=? _)%Z; [apply reads_only_fail|]. destruct (_ <? _)%Z; [apply reads_only_fail|].
  apply reads_only_bind; [apply reads_only_peek|]. intros chunk.
  destruct (nul_position chunk); [apply reads_only_ret|apply IH].
Qed.
End reads_only.

Create HintDb reads_only.
#[export] Hint Resolve reads_only_lift reads_only_ret reads_only_fail reads_only_peek
  reads_only_path_loop : reads_only.

Ltac reads_only :=
  repeat first
    [ solve [eauto with reads_only]
    | apply reads_only_bind; [|intros ?]
    | match goal with |- reads_only (if ?b then _ else _) => destruct b end
    | match goal with |- reads_only (match ?o with _ => _ end) => destruct o end ].

Lemma open_reads_only {T} {TM : TargetMemory T} a env files request :
  reads_only (open a env files request : M T io_error Reply).
Proof.
  unfold open, read_path, path. destruct (open_args a (ndata request)) as [[dirfd path_arg] flags_arg].
  reads_only. unfold open_how, read. reads_only.
Qed.

(** Masking keeps the access mode. *)
Lemma reopen_access_mode a flags :
  Z.land (reopen_flags a flags) O_ACCMODE = Z.land flags O_ACCMODE.
Proof.
  unfold reopen_flags. rewrite Z.land_lor_distr_l, <-Z.land_assoc, (Z.land_comm (Z.lnot _)).
  replace (Z.land O_ACCMODE (Z.lnot (Z.lor (Z.lor O_CREAT O_EXCL) (O_NOFOLLOW a)))) with O_ACCMODE by (by destruct a).
  change (Z.land O_CLOEXEC O_ACCMODE) with 0%Z. apply Z.lor_0_r.
Qed.

Lemma check_flags_pass a env p flags :
  check_flags a env p flags = Ok None →
  has flags (O_DIRECTORY a) = false ∧ (has flags (O_NOFOLLOW a) = true → fs_is_symlink env p = false) ∧
  (has flags O_PATH = true ∨ Z.land flags O_ACCMODE = 0%Z ∧ has flags O_TRUNC = false).
Proof.
  unfold check_flags. destruct (_ || _); [done|]. destruct (has flags (O_DIRECTORY a)); [done|].
  assert (Hs : ∀ r : io (option Reply), r ≠ Ok None →
    (if has flags (O_NOFOLLOW a) && fs_is_symlink env p then r else Ok None) = Ok None →
    has flags (O_NOFOLLOW a) = true → fs_is_symlink env p = false).
  { intros r Hr H Hf. rewrite Hf in H. by destruct (fs_is_symlink env p). }
  destruct (has flags O_PATH); simpl.
  - intros H. split; [done|]. split; [by eapply Hs; [|exact H]|by left].
  - destruct (_ =? _)%Z; [done|]. destruct (Z.land flags O_ACCMODE =? 0)%Z eqn:E; simpl; [|done].
    destruct (has flags O_TRUNC); [done|]. intros H. split; [done|]. split; [by eapply Hs; [|exact H]|]. right.
    split; [by apply Z.eqb_eq|done].
Qed.

Lemma check_flags_early a env p flags reply : check_flags a env p flags = Ok (Some reply) → reply = RContinue.
Proof. unfold check_flags. intros. repeat (case_match; simplify_eq/=); done. Qed.

Section sound.
Context {T : Type} {TM : TargetMemory T}.

Lemma read_path_sound tid a (s : T) p s' :
  read_path tid a s = (Ok p, s') → holds (mem s) a (p ++ [x00]) ∧ x00 ∉ p ∧ mem s' = mem s.
Proof.
  unfold read_path, path. intros (q & s1 & H & Hq)%M_bind_ok. destruct q as [q|]; [|done].
  injection Hq as <- <-. eapply path_loop_sound; [done|reflexivity|apply not_elem_of_nil].
Qed.

(** The flags are the first field of the structure the memory holds. *)
Lemma open_how_sound tid a size (s : T) flags s' :
  open_how tid a size s = (Ok flags, s') →
  ∃ bs, length bs = 8 ∧ holds (mem s) a bs ∧ flags = le_value bs.
Proof.
  unfold open_how. destruct (Z.ltb_spec size 24); [done|]. destruct (4096 <? size)%Z; [done|].
  intros (bs & s1 & Hr & Hf)%M_bind_ok. apply peek_law in Hr as (_ & _ & Hl & Hb). exists (take 8 bs).
  split; [rewrite length_take; lia|]. split; [by apply holds_take|].
  repeat (case_match; [done|]). by injection Hf as <- _.
Qed.
End sound.

(** ** Theorems *)

(** The synthetic nsswitch.conf keeps every line of the original that does not
    configure hosts and has exactly one hosts line, 'hosts: files dns'. *)
Lemma nsswitch_overrides_hosts (original : bytes) :
  let kept := List.filter (λ line, negb (is_hosts_line line)) (lines original) in
  split x0a (nsswitch_conf original) = kept ++ [lit "hosts: files dns"; []] ∧
  List.filter is_hosts_line (split x0a (nsswitch_conf original)) = [lit "hosts: files dns"].
Proof.
  intros kept.
  assert (Hs : split x0a (nsswitch_conf original) = kept ++ [lit "hosts: files dns"; []]).
  { unfold nsswitch_conf. fold kept.
    rewrite <-join_snoc_nil by (by destruct kept). rewrite <-app_assoc.
    apply split_join; [by destruct kept|]. apply Forall_app. split.
    - unfold kept. apply Forall_forall. intros l Hl%filter_In. destruct Hl as [Hl _].
      pose proof (lines_no_lf original) as HF. rewrite Forall_forall in HF. by apply HF.
    - by apply (bool_decide_unpack (Forall (λ l, x0a ∉ l) [lit "hosts: files dns"; []])). }
  split; [done|]. rewrite Hs, List.filter_app.
  replace (List.filter is_hosts_line kept) with (@nil bytes).
  - by vm_compute.
  - unfold kept. clear Hs kept. induction (lines original) as [|l ls IH]; [done|]. simpl.
    destruct (is_hosts_line l) eqn:E; simpl; [done|]. by rewrite E.
Qed.

(** C32: Whenever a descriptor is injected it is a fresh open of the first synthetic file
    that is the file named by the NUL-terminated path in the memory of the caller (made
    absolute from its directory argument), with the flags of the call (for openat2, of the
    structure in memory), read-only or O_PATH, no directory and no unfollowed link, for a
    call that is still valid; target memory is never written. *)
Theorem open_injects_read_only {T} {TM : TargetMemory T} (a : target_arch) (env : fs_env)
    (files : list ConfigFile) (request : Notification) (s s' : T) :
  open a env files request s = (Ok RSent, s') →
  let d := ndata request in
  let '(dirfd, path_arg, flags_arg) := open_args a d in
  mem s' = mem s ∧
  ∃ name p file flags fd,
    holds (mem s) path_arg (name ++ [x00]) ∧ x00 ∉ name ∧
    absolute_path env (npid request) dirfd name = Ok p ∧
    List.find (same_file (fs_canonicalize env p) p) files = Some file ∧
    (if called a d SYS_openat2 then ∃ bs, length bs = 8 ∧ holds (mem s) flags_arg bs ∧ flags = le_value bs
     else flags = as_i32 flags_arg) ∧
    has flags (O_DIRECTORY a) = false ∧ (has flags (O_NOFOLLOW a) = true → fs_is_symlink env p = false) ∧
    (has flags O_PATH = true ∨ Z.land (reopen_flags a flags) O_ACCMODE = 0%Z ∧ has flags O_TRUNC = false) ∧
    fs_reopen env (cf_file file) (reopen_flags a flags) = Ok fd ∧
    fs_valid env = Ok true ∧ fs_addfd env fd (has flags O_CLOEXEC) = Ok ().
Proof.
  intros H. pose proof (open_reads_only _ _ _ _ _ _ _ H) as Hmem. cbv zeta. unfold open in H.
  destruct (open_args a (ndata request)) as [[dirfd path_arg] flags_arg]. split; [done|].
  apply M_bind_ok in H as (name & s1 & (Hh & H0 & Hm1)%read_path_sound & H). destruct (negb _); [done|].
  apply M_bind_ok in H as (p & s2 & Hp & H). injection Hp as Hp ->.
  destruct (List.find _ files) as [file|] eqn:Hf; [|done].
  apply M_bind_ok in H as (flags & s3 & Hfl & H). apply M_bind_ok in H as (early & s4 & He & H).
  injection He as He ->. destruct early as [reply|].
  { apply check_flags_early in He as ->. by injection H. }
  apply M_bind_ok in H as (fd & s5 & Hre & H). apply M_bind_ok in H as ([] & s6 & Hv & H).
  apply M_bind_ok in H as ([] & s7 & Ha & H). unfold lift_result in *. simplify_eq.
  apply check_flags_pass in He as (Hd & Hn & Hacc). exists name, p, file, flags, fd. rewrite reopen_access_mode.
  split_and!; try done.
  - destruct (called a (ndata request) SYS_openat2); [|by injection Hfl as <-].
    rewrite <-Hm1. by eapply open_how_sound.
  - unfold broker_valid in *. destruct (fs_valid env) as [[]|]; simplify_eq/=; done.
Qed.

(** Connecting to a name service cache or to systemd-resolved is refused. *)
Definition unix_address (p rest : bytes) : bytes := le_bytes 2 AF_UNIX ++ p ++ x00 :: rest.

(** A connect to a Unix socket path is refused with ECONNREFUSED exactly for the nscd
    and systemd-resolved sockets. *)
Lemma unix_resolver_sockets_refused {T} {TM : TargetMemory T} (request : Notification) (s : T) (p rest : bytes) :
  let pointer := arg (ndata request) 1 in
  let len := arg (ndata request) 2 in
  healthy s → check_tid (npid request) = Ok () →
  len = Z.of_nat (length (unix_address p rest)) → (len ≤ SIZE_SOCKADDR_UN)%Z →
  (0 < pointer)%Z → (pointer + len ≤ U64_MAX)%Z →
  p ≠ [] → x00 ∉ p → holds (mem s) pointer (unix_address p rest) →
  ∃ s', check_unix_connect request s
          = (if resolver_socket p then Err (RawOs ECONNREFUSED) else Ok (), s') ∧ mem s' = mem s.
Proof.
  intros pointer len Hh Ht Hl Hun Hp Ha Hne H0 Hm. unfold check_unix_connect, family. fold pointer len.
  assert (H2 : (3 ≤ len)%Z).
  { rewrite Hl. unfold unix_address. rewrite !length_app, length_le_bytes. simpl. lia. }
  rewrite (proj2 (Z.ltb_ge len 2)), (proj2 (Z.ltb_ge I32_MAX len)) by (unfold I32_MAX, SIZE_SOCKADDR_UN in *; lia).
  cbn [orb]. rewrite !M_bind_run. apply holds_app in Hm as [Hf Hm].
  assert (Hok : ∀ b n, (0 < b)%Z → (b + Z.of_nat n ≤ pointer + len)%Z → address_ok b n = true).
  { intros b n Hb Hn. unfold address_ok. apply andb_true_intro. split; [apply negb_true_iff, Z.eqb_neq|apply Z.leb_le]; lia. }
  destruct (peek_ok (npid request) pointer (le_bytes 2 AF_UNIX) s) as (s1 & E1 & Hm1 & Hh1);
    [done|done|apply Hok; [done|simpl; lia]|done|].
  change (length (le_bytes 2 AF_UNIX)) with 2 in E1, Hm. rewrite E1. unfold mret at 1, M_ret at 1.
  change (negb (le_value (le_bytes 2 AF_UNIX) =? AF_UNIX)%Z) with false. cbv iota.
  rewrite (proj2 (Z.ltb_ge SIZE_SOCKADDR_UN len)) by done. rewrite M_bind_run. unfold read.
  assert (Hrl : Z.to_nat (len - 2) = length (p ++ x00 :: rest)).
  { rewrite Hl. unfold unix_address. rewrite length_app, length_le_bytes. lia. }
  rewrite Hrl. destruct (peek_ok (npid request) (pointer + 2) (p ++ x00 :: rest) s1) as (s2 & E2 & Hm2 & Hh2);
    [done|done|apply Hok; lia|by rewrite Hm1|].
  rewrite E2, nul_position_app by done. cbn [default from_option id]. rewrite take_app_length.
  exists s2. split; [|congruence]. destruct p as [|b p]; [done|]. cbn [app].
  rewrite bool_decide_false by (intros ->; apply H0, elem_of_cons; by left).
  by destruct (resolver_socket (b :: p)).
Qed.

(** ** Serving the resolver files *)

Lemma file_name_eq p q : path_eq p q = true → file_name p = file_name q.
Proof. unfold path_eq, file_name. intros [_ H%bool_decide_eq_true]%andb_prop. by rewrite H. Qed.

(** The plain ways to open a file for reading. *)
Definition plain_read (a : target_arch) (flags : Z) : bool :=
  (Z.land flags O_ACCMODE =? 0)%Z && negb (has flags O_CREAT) && negb (has flags O_TRUNC)
  && negb (has flags (O_DIRECTORY a)) && negb (has flags (O_NOFOLLOW a)).

Lemma plain_read_not_created flags :
  has flags O_CREAT = false → Z.land flags (Z.lor O_CREAT O_EXCL) ≠ Z.lor O_CREAT O_EXCL.
Proof.
  unfold has. intros H%negb_false_iff%Z.eqb_eq Heq.
  apply (f_equal (λ z, Z.land z O_CREAT)) in Heq. rewrite <-Z.land_assoc in Heq.
  change (Z.land (Z.lor O_CREAT O_EXCL) O_CREAT) with O_CREAT in Heq. by rewrite H in Heq.
Qed.

Lemma check_flags_plain a env p flags :
  plain_read a flags = true → ends_with p [x2f] = false → ends_with p [x2f; x2e] = false →
  check_flags a env p flags = Ok None.
Proof.
  unfold plain_read, check_flags. intros H -> ->. cbn [orb].
  repeat apply andb_prop in H as [H ?]. rewrite !negb_true_iff in *. apply Z.eqb_eq in H.
  rewrite H2 by done. rewrite (proj2 (Z.eqb_neq _ _)) by (by apply plain_read_not_created).
  rewrite H, H1. cbn. rewrite H0. by destruct (has flags O_PATH).
Qed.

(** A plain read-only open of a resolver file by an absolute spelling of its path is
    answered with a descriptor of the synthetic file, without writing to the caller. *)
Lemma open_serves_resolver_file {T} {TM : TargetMemory T} (a : target_arch) (env : fs_env)
    (files : list ConfigFile) (file : ConfigFile) (request : Notification) (s : T) (p : bytes) :
  let '(_, path_arg, flags_arg) := open_args a (ndata request) in
  healthy s → check_tid (npid request) = Ok () → paged (mem s) → (0 < path_arg ≤ U64_MAX - 8192)%Z →
  x00 ∉ p → (Z.of_nat (length p) < 4096)%Z → holds (mem s) path_arg (p ++ [x00]) →
  called a (ndata request) SYS_openat2 = false →
  is_absolute p = true → In file files → path_eq (cf_path file) p = true →
  ends_with p [x2f] = false → ends_with p [x2f; x2e] = false → plain_read a (as_i32 flags_arg) = true →
  (∀ memfd flags, ∃ fd, fs_reopen env memfd flags = Ok fd) →
  fs_valid env = Ok true → (∀ fd cloexec, fs_addfd env fd cloexec = Ok ()) →
  ∃ s', open a env files request s = (Ok RSent, s') ∧ mem s' = mem s.
Proof.
  destruct (open_args a (ndata request)) as [[dirfd path_arg] flags_arg] eqn:Hargs.
  intros Hh Ht Hp Ha H0 Hl Hm H2 Habs Hin Heq Hs1 Hs2 Hplain Hre Hv Hadd.
  assert (Hrd : ∃ s', open a env files request s = (Ok RSent, s')).
  { unfold open. rewrite Hargs, M_bind_run. unfold read_path. rewrite M_bind_run.
    destruct (path_loop_finds (npid request) path_arg p (S PATH_MAX) 0 s) as (s1 & E1 & _);
      [done..|lia|unfold PATH_MAX; lia|].
    unfold path. rewrite take_0 in E1. rewrite E1. cbn [ok_or lift_result].
    rewrite (proj2 (existsb_exists _ _)).
    2: { exists file. split; [done|]. unfold same_name.
         by rewrite (bool_decide_true _ (eq_sym (file_name_eq _ _ Heq))). }
    cbn [negb]. unfold absolute_path. rewrite Habs, M_bind_run. cbn [lift_result].
    destruct (List.find _ files) as [found|] eqn:Hf.
    2: { pose proof (find_none _ _ Hf _ Hin) as Hn. unfold same_file in Hn. by rewrite Heq in Hn. }
    rewrite H2, M_bind_run. unfold mret at 1, M_ret at 1. rewrite M_bind_run, (check_flags_plain a env) by done.
    cbn [lift_result]. unfold reopen. destruct (Hre (cf_file found) (reopen_flags a (as_i32 flags_arg))) as [fd Hfd].
    rewrite M_bind_run, Hfd. cbn [lift_result]. rewrite M_bind_run. unfold broker_valid. rewrite Hv. simpl.
    rewrite M_bind_run, Hadd. by eexists. }
  destruct Hrd as [s' Hs']. exists s'. split; [done|]. by eapply open_reads_only.
Qed.

(** ** Examples *)

Definition resolv_file : ConfigFile := mkConfigFile (lit "/etc/resolv.conf") None 5.

Definition nsswitch_file : ConfigFile := mkConfigFile (lit "/etc/nsswitch.conf") None 6.

(** A file system without symbolic links whose descriptor calls succeed. *)
Definition plain_fs : fs_env :=
  mkFs (λ _, None) (λ _, false) (λ _, Ok (lit "/")) (λ _ _, Ok (lit "/"))
    (λ _ _, Ok 9%Z) (Ok true) (λ _ _, Ok ()).

(** open("/etc/resolv.conf", O_RDONLY | O_CLOEXEC) *)
Definition open_request : Notification :=
  mkNotification 1 7 0 (mkData 2 0xc000003e 0 [0x1000; 0x80000; 0; 0; 0; 0]%Z).

Definition resolv_target : target := page_target (lit "/etc/resolv.conf" ++ [x00]).

Lemma resolv_target_paged : paged (mem_of resolv_target).
Proof. apply page_target_paged. change (length (lit "/etc/resolv.conf" ++ [x00])) with 17. lia. Qed.

Lemma open_serves_resolver_file_witness :
  ∃ s', open x86_64 plain_fs [resolv_file] open_request resolv_target = (Ok RSent, s') ∧ mem s' = mem resolv_target.
Proof.
  apply (open_serves_resolver_file x86_64 plain_fs [resolv_file] resolv_file open_request resolv_target
           (lit "/etc/resolv.conf")); try reflexivity.
  - apply page_target_healthy.
  - exact resolv_target_paged.
  - change (0 < 0x1000 ≤ U64_MAX - 8192)%Z. unfold U64_MAX. lia.
  - by apply (bool_decide_unpack (x00 ∉ lit "/etc/resolv.conf")).
  - by left.
  - intros memfd flags. by exists 9%Z.
Defined.

(** The path of the same call at the end of a page. *)
Definition short_target : target := mkTarget (store ∅ 0x1fef (lit "/etc/resolv.conf" ++ [x00])) [].

Definition short_request : Notification :=
  mkNotification 1 7 0 (mkData 2 0xc000003e 0 [0x1fef; 0x80000; 0; 0; 0; 0]%Z).

(** The descriptor is the file's that the path in memory names. *)
Lemma open_injects_read_only_witness :
  let r := open x86_64 plain_fs [nsswitch_file; resolv_file] short_request short_target in
  r.1 = Ok RSent ∧ mem r.2 = mem short_target ∧
  ∃ name p file, holds (mem short_target) 0x1fef (name ++ [x00]) ∧ absolute_path plain_fs 7 AT_FDCWD name = Ok p ∧
    List.find (same_file None p) [nsswitch_file; resolv_file] = Some file.
Proof.
  intros r. assert (H : r.1 = Ok RSent) by (vm_compute; reflexivity).
  destruct (open_injects_read_only x86_64 plain_fs [nsswitch_file; resolv_file] short_request short_target r.2)
    as (Hm & name & p & file & flags & fd & Hh & _ & Hp & Hf & _).
  - rewrite <-H. apply surjective_pairing.
  - split; [exact H|]. split; [exact Hm|]. exists name, p, file. split; [exact Hh|]. split; [exact Hp|exact Hf].
Defined.

Definition nscd : bytes := lit "/run/nscd/socket".

(** connect(3, "/run/nscd/socket") *)
Definition unix_request : Notification :=
  mkNotification 1 7 0 (mkData 42 0xc000003e 0 [3; 0x1000; 19; 0; 0; 0]%Z).

Definition unix_target : target := mkTarget (store ∅ 0x1000 (unix_address nscd [])) [].

Lemma unix_resolver_sockets_refused_witness :
  ∃ s', check_unix_connect unix_request unix_target = (Err (RawOs ECONNREFUSED), s') ∧ mem s' = mem unix_target.
Proof.
  apply (unix_resolver_sockets_refused unix_request unix_target nscd []); try reflexivity.
  - constructor.
  - change (19 ≤ 110)%Z. lia.
  - change (0x1000 + 19 ≤ U64_MAX)%Z. unfold U64_MAX. lia.
  - discriminate.
  - by apply (bool_decide_unpack (x00 ∉ nscd)).
Defined.
