(* ===== verification/Memfd.v ===== *)
(** * The synthetic resolver files: ConfigFile::new and ResolverFiles::new of
      src/broker/files.rs

    The files the command is given are memfds the broker fills, makes read-only
    and seals. [Memfd] is what the code relies on of them: the calls, and how
    the kernel documents them (memfd_create(2), fcntl(2) on seals); besides the
    calls of the broker it has those that change the contents or the size of a
    file, which the seals are there to forbid. [SealedStore] is a kernel that
    keeps the promise. What is made here is what
    [verify_bootstrap] of Files.v checks from inside the command. *)
From S2P Require Import Prelude RustStd Net FakeDns Stream Seccomp Access Memory Files.

Definition MFD_CLOEXEC : Z := 1.
Definition MFD_ALLOW_SEALING : Z := 2.

(** 0o444 *)
Definition MODE_0444 : Z := 292.
Definition F_SEAL_SEAL : Z := 1.
Definition F_SEAL_SHRINK : Z := 2.
Definition F_SEAL_GROW : Z := 4.
Definition F_SEAL_WRITE : Z := 8.

(** ** What a memfd promises *)

Class Memfd (K : Type) := {
  mf_create : Z → M K io_error Z;
  mf_write_all : Z → bytes → M K io_error ();
  mf_chmod : Z → Z → M K io_error ();
  mf_add_seals : Z → Z → M K io_error ();
  (** A write at an offset, ftruncate(2) to a length, and fallocate(2) of a
      range, which zeroes it ([true]) or makes room for it. *)
  mf_pwrite : Z → nat → bytes → M K io_error ();
  mf_truncate : Z → nat → M K io_error ();
  mf_fallocate : Z → bool → nat → nat → M K io_error ();
  mf_contents : K → Z → option bytes;
  mf_seals : K → Z → Z;
  mf_create_ok flags k fd k' :
    mf_create flags k = (Ok fd, k') → has flags MFD_ALLOW_SEALING = true →
    mf_contents k fd = None ∧ mf_contents k' fd = Some [] ∧ mf_seals k' fd = 0%Z;
  mf_write_ok fd bs k k' c :
    mf_write_all fd bs k = (Ok (), k') → mf_contents k fd = Some c →
    mf_contents k' fd = Some (c ++ bs) ∧ mf_seals k' fd = mf_seals k fd;
  mf_chmod_keeps fd mode k r k' fd' :
    mf_chmod fd mode k = (r, k') → mf_contents k' fd' = mf_contents k fd' ∧ mf_seals k' fd' = mf_seals k fd';
  mf_seals_ok fd seals k k' :
    mf_add_seals fd seals k = (Ok (), k') → is_Some (mf_contents k fd) → mf_seals k' fd = Z.lor (mf_seals k fd) seals;
  (** Other files, and files with the seals against the call, keep what they
      hold: F_SEAL_WRITE forbids changing a byte, F_SEAL_SHRINK and F_SEAL_GROW
      changing the length, F_SEAL_SEAL adding a seal. *)
  mf_create_others flags k r k' fd :
    mf_create flags k = (r, k') → is_Some (mf_contents k fd) →
    mf_contents k' fd = mf_contents k fd ∧ mf_seals k' fd = mf_seals k fd;
  mf_write_others fd bs k r k' fd' :
    mf_write_all fd bs k = (r, k') → fd' ≠ fd ∨ has (mf_seals k fd') F_SEAL_WRITE = true →
    mf_contents k' fd' = mf_contents k fd' ∧ mf_seals k' fd' = mf_seals k fd';
  mf_seal_others fd seals k r k' fd' :
    mf_add_seals fd seals k = (r, k') →
    mf_contents k' fd' = mf_contents k fd' ∧
    (fd' ≠ fd ∨ has (mf_seals k fd') F_SEAL_SEAL = true → mf_seals k' fd' = mf_seals k fd');
  mf_pwrite_others fd offset bs k r k' fd' :
    mf_pwrite fd offset bs k = (r, k') → fd' ≠ fd ∨ has (mf_seals k fd') F_SEAL_WRITE = true →
    mf_contents k' fd' = mf_contents k fd' ∧ mf_seals k' fd' = mf_seals k fd';
  mf_truncate_others fd n k r k' fd' c :
    mf_truncate fd n k = (r, k') → mf_contents k fd' = Some c →
    fd' ≠ fd ∨ n = length c ∨
      n < length c ∧ has (mf_seals k fd') F_SEAL_SHRINK = true ∨
      length c < n ∧ has (mf_seals k fd') F_SEAL_GROW = true →
    mf_contents k' fd' = Some c ∧ mf_seals k' fd' = mf_seals k fd';
  mf_fallocate_others fd punch offset n k r k' fd' c :
    mf_fallocate fd punch offset n k = (r, k') → mf_contents k fd' = Some c →
    fd' ≠ fd ∨
      punch = true ∧ has (mf_seals k fd') F_SEAL_WRITE = true ∨
      punch = false ∧ (offset + n ≤ length c ∨ has (mf_seals k fd') F_SEAL_GROW = true) →
    mf_contents k' fd' = Some c ∧ mf_seals k' fd' = mf_seals k fd';
}.

Section memfd.
Context {K : Type} {KM : Memfd K}.

(** [canonicalize] is [std::fs::canonicalize(path).ok()]. *)
Definition config_file_new (canonicalize : bytes → option bytes) (path contents : bytes) : M K io_error ConfigFile :=
  raw ← mf_create (Z.lor MFD_CLOEXEC MFD_ALLOW_SEALING);
  _ ← mf_write_all raw contents;
  _ ← mf_chmod raw MODE_0444;
  _ ← mf_add_seals raw SEALS;
  mret (mkConfigFile path (canonicalize path) raw).

(** [original] is what reading /etc/nsswitch.conf gave. *)
Definition resolver_files_new (canonicalize : bytes → option bytes) (original : io bytes) : M K io_error (list ConfigFile) :=
  let nss := nsswitch_conf (match original with Ok s => s | Err _ => [] end) in
  a ← config_file_new canonicalize (lit "/etc/resolv.conf") resolv_conf;
  b ← config_file_new canonicalize (lit "/etc/nsswitch.conf") nss;
  mret [a; b].

(** ** Lemmas *)

(** A file that is sealed and holds [contents]. *)
Definition sealed (k : K) (fd : Z) (contents : bytes) : Prop :=
  mf_contents k fd = Some contents ∧ mf_seals k fd = SEALS.

(** The calls anyone with a descriptor may make: new memfds, writes at the end
    and at an offset, changes of the length, zeroing and making room, changes of
    the mode, new seals. *)
Inductive memfd_step : K → K → Prop :=
| ms_create flags k r k' : mf_create flags k = (r, k') → memfd_step k k'
| ms_write fd bs k r k' : mf_write_all fd bs k = (r, k') → memfd_step k k'
| ms_chmod fd mode k r k' : mf_chmod fd mode k = (r, k') → memfd_step k k'
| ms_seal fd seals k r k' : mf_add_seals fd seals k = (r, k') → memfd_step k k'
| ms_pwrite fd offset bs k r k' : mf_pwrite fd offset bs k = (r, k') → memfd_step k k'
| ms_truncate fd n k r k' : mf_truncate fd n k = (r, k') → memfd_step k k'
| ms_fallocate fd punch offset n k r k' : mf_fallocate fd punch offset n k = (r, k') → memfd_step k k'.

Lemma sealed_step k k' fd contents : memfd_step k k' → sealed k fd contents → sealed k' fd contents.
Proof.
  intros Hs [Hc Hl]. unfold sealed. 
  destruct Hs as [flags k r k' H|fd' bs k r k' H|fd' mode k r k' H|fd' seals k r k' H
                 |fd' offset bs k r k' H|fd' n k r k' H|fd' punch offset n k r k' H].
  - destruct (mf_create_others _ _ _ _ fd H) as [-> ->]; [by rewrite Hc|done].
  - destruct (mf_write_others _ _ _ _ _ fd H) as [-> ->]; [right; by rewrite Hl|done].
  - destruct (mf_chmod_keeps _ _ _ _ _ fd H) as [-> ->]. done.
  - destruct (mf_seal_others _ _ _ _ _ fd H) as [-> Hk]. rewrite Hk; [done|]. right. by rewrite Hl.
  - destruct (mf_pwrite_others _ _ _ _ _ _ fd H) as [-> ->]; [right; by rewrite Hl|done].
  - destruct (mf_truncate_others _ _ _ _ _ fd _ H Hc) as [-> ->]; [right|done]. rewrite Hl.
    destruct (lt_eq_lt_dec n (length contents)) as [[Hn|Hn]|Hn]; [right; left|by left|right; right]; done.
  - destruct (mf_fallocate_others _ _ _ _ _ _ _ fd _ H Hc) as [-> ->]; [right|done]. rewrite Hl.
    destruct punch; [by left|]. right. split; [done|by right].
Qed.

Lemma sealed_steps k k' fd contents : rtc memfd_step k k' → sealed k fd contents → sealed k' fd contents.
Proof. induction 1; eauto using sealed_step. Qed.

Lemma config_file_new_ok canonicalize path contents k f k' :
  config_file_new canonicalize path contents k = (Ok f, k') →
  cf_path f = path ∧ cf_canonical f = canonicalize path ∧ mf_contents k (cf_file f) = None ∧
  sealed k' (cf_file f) contents ∧ rtc memfd_step k k'.
Proof.
  unfold config_file_new. intros (fd & k1 & H1 & H)%M_bind_ok. apply M_bind_ok in H as ([] & k2 & H2 & H).
  apply M_bind_ok in H as ([] & k3 & H3 & H). apply M_bind_ok in H as ([] & k4 & H4 & H). injection H as <- <-.
  destruct (mf_create_ok _ _ _ _ H1) as (Hn & Hc1 & Hs1); [done|].
  destruct (mf_write_ok _ _ _ _ _ H2 Hc1) as [Hc2 Hs2]. destruct (mf_chmod_keeps _ _ _ _ _ fd H3) as [Hc3 Hs3].
  destruct (mf_seal_others _ _ _ _ _ fd H4) as [Hc4 _]. cbn [cf_path cf_canonical cf_file]. do 3 (split; [done|]). split.
  - split; [by rewrite Hc4, Hc3, Hc2|]. rewrite (mf_seals_ok _ _ _ _ H4) by (rewrite Hc3, Hc2; eauto).
    by rewrite Hs3, Hs2, Hs1.
  - eapply rtc_l; [by econstructor|]. eapply rtc_l; [by eapply ms_write|]. eapply rtc_l; [by eapply ms_chmod|].
    eapply rtc_once. by eapply ms_seal.
Qed.

(** ** Theorems *)

(** C15: The two synthetic files the broker makes are distinct sealed memfds with the
    overriding contents; whatever writes (at the end or at an offset), truncations,
    allocations, mode changes, new seals and new memfds follow, they keep contents and
    seals, and the first passes the check the command makes at start-up. *)
Theorem resolver_files_sealed (canonicalize : bytes → option bytes) (original : io bytes) (k k1 k2 : K) (files : list ConfigFile) :
  resolver_files_new canonicalize original k = (Ok files, k1) → rtc memfd_step k1 k2 →
  ∃ a b, files = [a; b] ∧ cf_path a = lit "/etc/resolv.conf" ∧ cf_path b = lit "/etc/nsswitch.conf" ∧
    cf_file a ≠ cf_file b ∧
    sealed k2 (cf_file a) resolv_conf ∧
    sealed k2 (cf_file b) (nsswitch_conf (match original with Ok s => s | Err _ => [] end)) ∧
    verify_bootstrap (Ok (mf_seals k2 (cf_file a))) (ok_or (Simple OtherKind) (mf_contents k2 (cf_file a))) = Ok ().
Proof.
  unfold resolver_files_new. intros (a & ka & Ha & H)%M_bind_ok Hs. apply M_bind_ok in H as (b & kb & Hb & H).
  injection H as <- <-. apply config_file_new_ok in Ha as (Hpa & _ & _ & Hca & _).
  apply config_file_new_ok in Hb as (Hpb & _ & Hnb & Hcb & Hsb).
  pose proof (sealed_steps _ _ _ _ Hs (sealed_steps _ _ _ _ Hsb Hca)) as Hfa.
  pose proof (sealed_steps _ _ _ _ Hs Hcb) as Hfb.
  exists a, b. do 3 (split; [done|]). split.
  - intros E. destruct Hca as [Hc _]. by rewrite E, Hnb in Hc.
  - split; [done|]. split; [done|]. destruct Hfa as [-> ->]. reflexivity.
Qed.
End memfd.

(** ** A kernel with memfds *)

Module SealedStore.

Record file := mkFile { f_contents : bytes; f_seals : Z; f_mode : Z }.

(** The files by descriptor; descriptors below [s_next] are taken. *)
Record store := mkStore { s_files : gmap nat file; s_next : nat }.

Definition at_fd (k : store) (fd : Z) : option file := if (fd <? 0)%Z then None else s_files k !! Z.to_nat fd.

Definition put (fd : Z) (f : file) (k : store) : store := mkStore (<[Z.to_nat fd := f]> (s_files k)) (s_next k).

Definition create (flags : Z) : M store io_error Z :=
  λ k, match s_files k !! s_next k with
       | Some _ => (Err (RawOs EMFILE), k)
       | None =>
           (Ok (Z.of_nat (s_next k)),
            mkStore (<[s_next k := mkFile [] (if has flags MFD_ALLOW_SEALING then 0 else F_SEAL_SEAL) 511]> (s_files k))
              (S (s_next k)))
       end.

Definition on_file (fd : Z) (allowed : file → bool) (f : file → file) : M store io_error () :=
  λ k, match at_fd k fd with
       | None => (Err (RawOs EBADF), k)
       | Some x => if allowed x then (Ok (), put fd (f x) k) else (Err (RawOs EPERM), k)
       end.

Definition write_all (fd : Z) (bs : bytes) : M store io_error () :=
  on_file fd (λ x, negb (has (f_seals x) F_SEAL_WRITE)) (λ x, mkFile (f_contents x ++ bs) (f_seals x) (f_mode x)).

Definition chmod (fd mode : Z) : M store io_error () :=
  on_file fd (λ _, true) (λ x, mkFile (f_contents x) (f_seals x) mode).

Definition add_seals (fd seals : Z) : M store io_error () :=
  on_file fd (λ x, negb (has (f_seals x) F_SEAL_SEAL)) (λ x, mkFile (f_contents x) (Z.lor (f_seals x) seals) (f_mode x)).

(** The bytes of [xs] from [offset] on overwritten by [bs]; a gap is zeros. *)
Definition overwrite (offset : nat) (bs xs : bytes) : bytes :=
  take offset (xs ++ replicate (offset - length xs) x00) ++ bs ++ drop (offset + length bs) xs.

Definition resize (n : nat) (xs : bytes) : bytes := take n xs ++ replicate (n - length xs) x00.

Definition with_contents (f : bytes → bytes) (x : file) : file := mkFile (f (f_contents x)) (f_seals x) (f_mode x).

Definition pwrite (fd : Z) (offset : nat) (bs : bytes) : M store io_error () :=
  on_file fd (λ x, negb (has (f_seals x) F_SEAL_WRITE)
                   && (bool_decide (offset + length bs ≤ length (f_contents x)) || negb (has (f_seals x) F_SEAL_GROW)))
    (with_contents (overwrite offset bs)).

Definition truncate (fd : Z) (n : nat) : M store io_error () :=
  on_file fd (λ x, negb (bool_decide (n < length (f_contents x)) && has (f_seals x) F_SEAL_SHRINK)
                   && negb (bool_decide (length (f_contents x) < n) && has (f_seals x) F_SEAL_GROW))
    (with_contents (resize n)).

Definition fallocate (fd : Z) (punch : bool) (offset n : nat) : M store io_error () :=
  if punch then
    on_file fd (λ x, negb (has (f_seals x) F_SEAL_WRITE))
      (with_contents (λ xs, take (length xs) (overwrite offset (replicate n x00) xs)))
  else
    on_file fd (λ x, bool_decide (offset + n ≤ length (f_contents x)) || negb (has (f_seals x) F_SEAL_GROW))
      (with_contents (λ xs, resize (length xs `max` (offset + n)) xs)).

Lemma resize_same xs : resize (length xs) xs = xs.
Proof. unfold resize. by rewrite firstn_all, Nat.sub_diag, app_nil_r. Qed.

Definition contents (k : store) (fd : Z) : option bytes := f_contents <$> at_fd k fd.
Definition seals (k : store) (fd : Z) : Z := match at_fd k fd with Some x => f_seals x | None => -1 end.

Lemma at_fd_put fd f k fd' x :
  at_fd k fd = Some x → at_fd (put fd f k) fd' = if bool_decide (fd' = fd) then Some f else at_fd k fd'.
Proof.
  unfold at_fd, put. simpl. intros Hx. case_bool_decide as E.
  - subst. destruct (fd <? 0)%Z; [done|]. by rewrite lookup_insert_eq.
  - destruct (Z.ltb_spec fd 0); [done|]. destruct (Z.ltb_spec fd' 0); [done|]. rewrite lookup_insert_ne; [done|lia].
Qed.

(** What a call on one file leaves at every descriptor. *)
Lemma on_file_at fd allowed f k r k' fd' :
  on_file fd allowed f k = (r, k') →
  at_fd k' fd' = at_fd k fd' ∨ ∃ x, fd' = fd ∧ at_fd k fd = Some x ∧ allowed x = true ∧ at_fd k' fd' = Some (f x).
Proof.
  unfold on_file. destruct (at_fd k fd) as [x|] eqn:E; [|intros [= _ <-]; by left].
  destruct (allowed x) eqn:Ea; [|intros [= _ <-]; by left]. intros [= _ <-]. rewrite (at_fd_put _ _ _ _ _ E).
  case_bool_decide; [right; eauto|by left].
Qed.

Lemma on_file_ok fd allowed f k k' :
  on_file fd allowed f k = (Ok (), k') → ∃ x, at_fd k fd = Some x ∧ at_fd k' fd = Some (f x).
Proof.
  unfold on_file. destruct (at_fd k fd) as [x|] eqn:E; [|done]. destruct (allowed x); [|done]. intros [= <-].
  exists x. split; [done|]. by rewrite (at_fd_put _ _ _ _ _ E), bool_decide_true.
Qed.

#[export] Program Instance memfds : Memfd store :=
  {| mf_create := create; mf_write_all := write_all; mf_chmod := chmod; mf_add_seals := add_seals;
     mf_pwrite := pwrite; mf_truncate := truncate; mf_fallocate := fallocate;
     mf_contents := contents; mf_seals := seals |}.
Next Obligation.
  intros flags k fd k'. unfold create, contents, seals, at_fd. destruct (s_files k !! s_next k) eqn:E; [done|].
  intros [= <- <-] Hf. rewrite !(proj2 (Z.ltb_ge (Z.of_nat _) 0)), !Nat2Z.id by lia. simpl. rewrite E, lookup_insert_eq, Hf. done.
Qed.
Next Obligation.
  intros fd bs k k' c (x & Hx & Hx')%on_file_ok. unfold contents, seals. rewrite Hx, Hx'. by intros [= <-].
Qed.
Next Obligation.
  intros fd mode k r k' fd' H. unfold contents, seals.
  destruct (on_file_at _ _ _ _ _ _ fd' H) as [->|(x & -> & -> & _ & ->)]; done.
Qed.
Next Obligation.
  intros fd ss k k' (x & Hx & Hx')%on_file_ok _. unfold seals. by rewrite Hx, Hx'.
Qed.
Next Obligation.
  intros flags k r k' fd. unfold create, contents, seals, at_fd. destruct (s_files k !! s_next k) eqn:E; [by intros [= _ <-]|].
  intros [= _ <-]. simpl. destruct (fd <? 0)%Z; [done|].
  destruct (decide (Z.to_nat fd = s_next k)) as [->|Hne]; [|by rewrite lookup_insert_ne].
  rewrite E. by intros [? ?].
Qed.
Next Obligation.
  intros fd bs k r k' fd' H Hk. unfold contents, seals in *.
  destruct (on_file_at _ _ _ _ _ _ fd' H) as [->|(x & -> & Hx & Ha & Hx')]; [done|].
  rewrite Hx in Hk |- *. destruct Hk as [Hk|Hk]; [done|]. by rewrite Hk in Ha.
Qed.
Next Obligation.
  intros fd ss k r k' fd' H. unfold contents, seals.
  destruct (on_file_at _ _ _ _ _ _ fd' H) as [->|(x & -> & Hx & Ha & Hx')]; [done|].
  rewrite Hx, Hx'. split; [done|]. intros [Hk|Hk]; [done|]. by rewrite Hk in Ha.
Qed.
Next Obligation.
  intros fd offset bs k r k' fd' H Hk. unfold contents, seals in *.
  destruct (on_file_at _ _ _ _ _ _ fd' H) as [->|(x & -> & Hx & Ha & Hx')]; [done|].
  rewrite Hx in Hk |- *. destruct Hk as [Hk|Hk]; [done|]. by rewrite Hk in Ha.
Qed.
Next Obligation.
  intros fd n k r k' fd' c H Hc Hk. unfold contents, seals in *.
  destruct (on_file_at _ _ _ _ _ _ fd' H) as [->|(x & -> & Hx & Ha & Hx')]; [done|].
  rewrite Hx in Hk, Hc |- *. injection Hc as <-. rewrite Hx'. simpl. split; [|done]. f_equal.
  destruct Hk as [Hk|[->|[[Hn Hk]|[Hn Hk]]]]; [done|apply resize_same|..];
    by rewrite (bool_decide_true _ Hn), Hk, ?andb_false_r in Ha.
Qed.
Next Obligation.
  intros fd punch offset n k r k' fd' c H Hc Hk. unfold contents, seals, fallocate in *.
  destruct punch; destruct (on_file_at _ _ _ _ _ _ fd' H) as [->|(x & -> & Hx & Ha & Hx')]; try done;
    rewrite Hx in Hk, Hc |- *; injection Hc as <-; rewrite Hx'; simpl; (split; [|done]); f_equal.
  - destruct Hk as [Hk|[[_ Hk]|[Hk _]]]; [done| |done]. by rewrite Hk in Ha.
  - assert (offset + n ≤ length (f_contents x)).
    { destruct Hk as [Hk|[[Hk _]|[_ [Hk|Hk]]]]; [done..|]. rewrite Hk, orb_false_r in Ha. by apply bool_decide_eq_true in Ha. }
    rewrite Nat.max_l by done. apply resize_same.
Qed.
End SealedStore.

(** ** Examples *)

#[local] Existing Instance SealedStore.memfds.

Definition empty_store : SealedStore.store := SealedStore.mkStore ∅ 3.

(** The broker makes the files; a write to the first, emptying it and making it
    longer are refused. *)
Lemma resolver_files_sealed_witness :
  ∃ a b k1, resolver_files_new (λ _, None) (Err (Simple NotFound)) empty_store = (Ok [a; b], k1) ∧
    sealed (snd (mf_truncate 3 100 (snd (mf_truncate 3 0 (snd (mf_write_all 3 (lit "nameserver 8.8.8.8") k1))))))
      (cf_file a) resolv_conf.
Proof.
  destruct (resolver_files_new (λ _, None) (Err (Simple NotFound)) empty_store) as [[files|e] k1] eqn:E.
  - destruct (resolver_files_sealed (λ _, None) (Err (Simple NotFound)) empty_store k1
                (snd (mf_truncate 3 100 (snd (mf_truncate 3 0 (snd (mf_write_all 3 (lit "nameserver 8.8.8.8") k1))))))
                files E) as (a & b & -> & _ & _ & _ & Hs & _).
    + eapply rtc_l; [eapply ms_write, surjective_pairing|]. eapply rtc_l; [eapply ms_truncate, surjective_pairing|].
      eapply rtc_once, ms_truncate, surjective_pairing.
    + exists a, b, k1. split; [reflexivity|exact Hs].
  - exfalso. assert (Hv : is_ok (fst (resolver_files_new (λ _, None) (Err (Simple NotFound)) empty_store)) = true)
      by (vm_compute; reflexivity). rewrite E in Hv. discriminate.
Defined.

(** The descriptor those calls name is the first file's. *)
Example first_descriptor :
  match fst (resolver_files_new (λ _, None) (Err (Simple NotFound)) empty_store) with
  | Ok (f :: _) => cf_file f
  | _ => 0%Z
  end = 3%Z.
Proof. vm_compute. reflexivity. Qed.
