(* ===== verification/Tcp.v ===== *)
(** * TCP interception: src/broker/tcp.rs and the shared state of
      src/broker/engine.rs

    A connect call on an IPv4 TCP socket becomes a job: a [Request] that waits
    for the lock of its socket, connects the socket to the shared listener and
    turns into the relay it spawns. The tasks interleave at their await points
    only, so [connect_tcp] is cut there: [connect_begin] up to the lock,
    [connect_locked] up to the connect, [connect_finish] after it, and
    [connect_cancel] for a task dropped while it waits. Broker.v interleaves
    the parts.

    Descriptors are numbers the kernel does not reuse while they are open;
    [Weak] upgrades succeed while some request holds the lock. *)
From S2P Require Import Prelude RustStd Net FakeDns Stream Proxy Rule Config Dns.
From S2P Require Import Seccomp Access Memory TcpBind Sockets Ingress Files.

(** ** Broker state *)

Record Peer := mkPeer {
  pe_target : SocketAddrV4;
  pe_internal : SocketAddrV4;
  pe_created : Z;
  pe_pending : bool;
}.

Inductive request_phase :=
| Locking
| Retrying (internal : SocketAddrV4)
| Connecting (r : Registration) (is_dns : bool) (proxy_target : ProxyTarget) (route : ProxyConfig).

Record request := mkRequest {
  q_fd : Z;
  q_cookie : Z;
  q_target : SocketAddrV4;
  q_lock : nat;
  q_phase : request_phase;
}.

(** A spawned relay task: waiting for its stream, dialling upstream (with the
    permit, for a proxied connection), or serving. *)
Inductive relay_phase :=
| Accepting (r : Registration)
| Dialing
| Serving.

Record relay_task := mkRelayTask {
  y_dns : bool;
  y_target : ProxyTarget;
  y_route : ProxyConfig;
  y_phase : relay_phase;
}.

Inductive job :=
| Requesting (q : request)
| Relaying (y : relay_task).

Definition PENDING : nat := 128.

Section tcp.
Context `{RegexEngine}.

Record Broker := mkBroker {
  b_config : Config;
  b_dns : Dns;
  b_ingress : world;
  b_peers : gmap Z Peer;
  b_locks : gmap Z nat;
  b_next_lock : nat;
  b_pending : nat;
  b_jobs : gmap nat job;
}.

Definition set_peers (f : gmap Z Peer → gmap Z Peer) (b : Broker) : Broker :=
  mkBroker (b_config b) (b_dns b) (b_ingress b) (f (b_peers b)) (b_locks b) (b_next_lock b) (b_pending b) (b_jobs b).

Definition set_jobs (f : gmap nat job → gmap nat job) (b : Broker) : Broker :=
  mkBroker (b_config b) (b_dns b) (b_ingress b) (b_peers b) (b_locks b) (b_next_lock b) (b_pending b) (f (b_jobs b)).

Definition set_ingress (f : world → world) (b : Broker) : Broker :=
  mkBroker (b_config b) (b_dns b) (f (b_ingress b)) (b_peers b) (b_locks b) (b_next_lock b) (b_pending b) (b_jobs b).

Definition set_pending (f : nat → nat) (b : Broker) : Broker :=
  mkBroker (b_config b) (b_dns b) (b_ingress b) (b_peers b) (b_locks b) (b_next_lock b) (f (b_pending b)) (b_jobs b).

(** [Broker::new] *)
Definition broker_new (c : Config) (d : Dns) (address : SocketAddrV4) : Broker :=
  mkBroker c d (initial address) ∅ ∅ 0 PENDING ∅.

(** ** The lock of a socket *)

Definition holds_lock (l : nat) (j : job) : bool :=
  match j with Requesting q => bool_decide (q_lock q = l) | Relaying _ => false end.

(** [strong_count() > 0], and whether an upgrade succeeds *)
Definition lock_alive (b : Broker) (l : nat) : bool :=
  bool_decide (map_Exists (λ _ j, holds_lock l j = true) (b_jobs b)).

Definition lock_for (cookie : Z) (b : Broker) : nat * Broker :=
  let fresh :=
    (b_next_lock b,
     mkBroker (b_config b) (b_dns b) (b_ingress b) (b_peers b) (<[cookie := b_next_lock b]> (b_locks b))
       (S (b_next_lock b)) (b_pending b) (b_jobs b)) in
  match b_locks b !! cookie with
  | Some l => if lock_alive b l then (l, b) else fresh
  | None => fresh
  end.

(** The guard is held. *)
Definition locked (l : nat) (j : job) : bool :=
  match j with
  | Requesting (mkRequest _ _ _ l' Locking) => false
  | Requesting q => bool_decide (q_lock q = l)
  | Relaying _ => false
  end.

(** ** connect_tcp *)

(** Up to the lock: the address asked for, or [None] for AF_UNSPEC. *)
Definition connect_args {T} {TM : TargetMemory T} (n : Notification) : M T io_error (option SocketAddrV4) :=
  let d := ndata n in
  fam ← family (npid n) (arg d 1) (arg d 2);
  if (fam =? 0)%Z then mret None else
  target ← ipv4_at (npid n) (arg d 1) (arg d 2);
  mret (Some target).

Definition connect_begin (i : nat) (fd cookie : Z) (target : SocketAddrV4) (b : Broker) : Broker :=
  let '(l, b) := lock_for cookie b in
  set_jobs <[i := Requesting (mkRequest fd cookie target l Locking)]> b.

(** What the kernel and the clock answer while the lock is held. *)
Record locked_env := mkLockedEnv {
  le_valid1 : io ();
  le_kernel : kernel;
  le_valid2 : io ();
  le_bind : bind_env;
  le_socket : tcp_socket;
  le_now : Z;
}.

Definition TCP_CLOSE : Z := 7.

(** The target a connection is routed by. *)
Definition proxy_target_of (d : Dns) (target : SocketAddrV4) : io ProxyTarget :=
  if is_dns target then Ok (TIp (V4 (sa_ip target)) (sa_port target)) else dns_target d target.

Definition is_ip (t : ProxyTarget) : bool := match t with TIp _ _ => true | TDomain _ _ => false end.

(** The task returns, and lets go of its lock. *)
Definition finished (i : nat) (r : io Reply) (b : Broker) : option (io Reply) * Broker :=
  (Some r, set_jobs (delete i) b).

(** From the lock to the connect call; [None] is a task that goes on waiting. *)
Definition connect_locked (e : locked_env) (i : nat) (q : request) (b : Broker)
    : outcome (option (io Reply) * Broker) :=
  let waiting_in p := Requesting (mkRequest (q_fd q) (q_cookie q) (q_target q) (q_lock q) p) in
  match le_valid1 e with
  | Err error => Ret (finished i (Err error) b)
  | Ok _ =>
  match state (le_kernel e) (q_fd q) with
  | Err error => Ret (finished i (Err error) b)
  | Ok st =>
  if negb (st =? TCP_CLOSE)%Z then
    match b_peers b !! q_cookie q with
    | Some peer => Ret (None, set_jobs <[i := waiting_in (Retrying (pe_internal peer))]> b)
    | None => Ret (finished i (Ok RContinue) b)
    end
  else
  let b := set_peers (delete (q_cookie q)) b in
  match proxy_target_of (b_dns b) (q_target q) with
  | Err error => Ret (finished i (Err error) b)
  | Ok proxy_target =>
  route ← proxy_for (b_config b) proxy_target;
  if negb (is_dns (q_target q)) && is_ip proxy_target && bool_decide (route = Direct)
  then Ret (finished i (Ok RContinue) b) else
  match b_pending b with
  | O => Ret (finished i (Err (RawOs EAGAIN)) b)
  | S permits =>
  match le_valid2 e with
  | Err error => Ret (finished i (Err error) b)
  | Ok _ =>
  let internal := i_address (ingress (b_ingress b)) in
  let b' := set_peers <[q_cookie q := mkPeer (q_target q) internal (le_now e) true]> b in
  match register (le_bind e) (le_socket e) (q_fd q) (b_ingress b') with
  | (Err error, _, _) => Ret (finished i (Err error) (set_peers (delete (q_cookie q)) b'))
  | (Ok r, _, w) =>
      Ret (None, set_jobs <[i := waiting_in (Connecting r (is_dns (q_target q)) proxy_target route)]>
                   (set_pending (λ _, permits) (set_ingress (λ _, w) b')))
  end end end end end end.

(** The [PendingPeer], the registration and the permit are dropped. *)
Definition abandon (cookie : Z) (r : Registration) (b : Broker) : Broker :=
  set_pending S (set_ingress (drop_registration r) (set_peers (delete cookie) b)).

Definition settle (now : Z) (p : Peer) : Peer := mkPeer (pe_target p) (pe_internal p) now false.

(** After the connect call. *)
Definition connect_finish (now : Z) (result : io ()) (i : nat) (q : request) (b : Broker)
    : option (io Reply) * Broker :=
  match q_phase q with
  | Locking => (None, b)
  | Retrying _ => finished i ((λ _, RValue 0) <$> result) b
  | Connecting r dns proxy_target route =>
      let failed := match result with
                    | Err error => negb (bool_decide (raw_os_error error = Some EINPROGRESS))
                    | Ok _ => false
                    end in
      if failed then finished i ((λ _, RValue 0) <$> result) (abandon (q_cookie q) r b)
      else (Some ((λ _, RValue 0) <$> result),
            set_jobs <[i := Relaying (mkRelayTask dns proxy_target route (Accepting r))]>
              (set_peers (alter (settle now) (q_cookie q)) b))
  end.

(** The task is dropped at an await point. *)
Definition connect_cancel (i : nat) (q : request) (b : Broker) : Broker :=
  set_jobs (delete i)
    (match q_phase q with Connecting r _ _ _ => abandon (q_cookie q) r b | _ => b end).

(** ** The spawned task *)

(** Its registration has a stream, or the wait for one ended. *)
Definition relay_accept (i : nat) (y : relay_task) (r : Registration) (arrived : bool) (b : Broker) : Broker :=
  let b := set_ingress (drop_registration r) b in
  if y_dns y then
    set_jobs (if arrived then <[i := Relaying (mkRelayTask true (y_target y) (y_route y) Serving)]> else delete i)
      (set_pending S b)
  else if arrived then set_jobs <[i := Relaying (mkRelayTask false (y_target y) (y_route y) Dialing)]> b
  else set_jobs (delete i) (set_pending S b).

(** The upstream connection was made or failed. *)
Definition relay_dialed (i : nat) (y : relay_task) (connected : bool) (b : Broker) : Broker :=
  set_jobs (if connected then <[i := Relaying (mkRelayTask (y_dns y) (y_target y) (y_route y) Serving)]> else delete i)
    (set_pending S b).

(** The end of the task, or its abortion. *)
Definition relay_drop (i : nat) (y : relay_task) (b : Broker) : Broker :=
  set_jobs (delete i)
    match y_phase y with
    | Accepting r => set_pending S (set_ingress (drop_registration r) b)
    | Dialing => set_pending S b
    | Serving => b
    end.

(** How a relay reaches its target. *)
Inductive upstream :=
| ViaConnector (host : bytes) (port : Z)
| ViaRoute (route : ProxyConfig) (target : ProxyTarget).

Definition upstream_of (route : ProxyConfig) (target : ProxyTarget) : upstream :=
  match route, target with
  | Direct, TDomain host port => ViaConnector host port
  | _, _ => ViaRoute route target
  end.

(** ** Cleanup *)

Definition keep_peer (started : Z) (cookies : gset Z) (e : Z * Peer) : Prop :=
  pe_pending (snd e) = true ∨ (started ≤ pe_created (snd e))%Z ∨ fst e ∈ cookies.

#[export] Instance keep_peer_dec started cookies e : Decision (keep_peer started cookies e).
Proof. unfold keep_peer. apply _. Defined.

Definition retain_peers (started : Z) (cookies : gset Z) (b : Broker) : Broker :=
  set_peers (base.filter (keep_peer started cookies)) b.

Definition retain_locks (b : Broker) : Broker :=
  mkBroker (b_config b) (b_dns b) (b_ingress b) (b_peers b)
    (base.filter (λ e, lock_alive b (snd e) = true) (b_locks b)) (b_next_lock b) (b_pending b) (b_jobs b).

(** ** Peer names *)

Definition tcp_target (k : kernel) (fd : Z) (socket_option : bool) (b : Broker) : io (option SocketAddrV4) :=
  c ← cookie k fd;
  match b_peers b !! c with
  | None => Ok None
  | Some peer =>
      match peer_address k fd socket_option with
      | Ok actual => Ok (if bool_decide (actual = pe_internal peer) then Some (pe_target peer) else None)
      | Err error => if bool_decide (raw_os_error error = Some ENOTCONN) then Ok None else Err error
      end
  end.

Definition tcp_peer {T} {TM : TargetMemory T} (a : target_arch) (k : kernel) (valid : io ()) (fd : Z)
    (n : Notification) (b : Broker) : M T io_error Reply :=
  let socket_option := called a (ndata n) SYS_getsockopt in
  target ← lift_result (tcp_target k fd socket_option b);
  match target with
  | None => mret RContinue
  | Some target =>
      _ ← lift_result valid;
      _ ← peer_name a n target;
      mret (RValue 0)
  end.

Definition set_dns (d : Dns) (b : Broker) : Broker :=
  mkBroker (b_config b) d (b_ingress b) (b_peers b) (b_locks b) (b_next_lock b) (b_pending b) (b_jobs b).
End tcp.
