(* ===== verification/Broker.v ===== *)
(** * The broker as a state machine: interleavings of src/broker/tcp.rs and
      src/broker/engine.rs

    [broker_step] lets the parts of any number of connect calls (Tcp.v), their
    relays, the shared listener and the periodic cleanup happen in any order.
    [broker_ok] is what holds throughout: the lock of a socket excludes a
    second connect on it, an entry is pending exactly while its connect is in
    progress, and permits and registrations are neither lost nor duplicated. *)
From S2P Require Import Prelude RustStd Net FakeDns Stream Proxy Rule Config Dns.
From S2P Require Import Seccomp Access Memory TcpBind Sockets Ingress Files Tcp.

Section broker.
Context `{RegexEngine}.

(** ** What can happen *)

Definition job_registration (j : job) : option Registration :=
  match j with
  | Requesting (mkRequest _ _ _ _ (Connecting r _ _ _)) => Some r
  | Relaying (mkRelayTask _ _ _ (Accepting r)) => Some r
  | _ => None
  end.

(** The descriptor a job keeps open. *)
Definition job_fd (j : job) : option Z :=
  match j with
  | Requesting (mkRequest _ _ _ _ (Connecting r _ _ _)) => Some (r_socket r)
  | Requesting q => Some (q_fd q)
  | Relaying (mkRelayTask _ _ _ (Accepting r)) => Some (r_socket r)
  | Relaying _ => None
  end.

Definition has_permit (j : job) : bool :=
  match j with
  | Requesting (mkRequest _ _ _ _ (Connecting _ _ _ _)) => true
  | Requesting _ => false
  | Relaying y => match y_phase y with Serving => false | _ => true end
  end.

Definition no_guard (l : nat) (jobs : gmap nat job) : Prop := map_Forall (λ _ j, locked l j = false) jobs.

Inductive broker_step (b : Broker) : Broker → Prop :=
| bs_begin i fd cookie target :
    port_ok (sa_port target) → b_jobs b !! i = None → map_Forall (λ _ j, job_fd j ≠ Some fd) (b_jobs b) →
    broker_step b (connect_begin i fd cookie target b)
| bs_locked e i q r b' :
    b_jobs b !! i = Some (Requesting q) → q_phase q = Locking → no_guard (q_lock q) (b_jobs b) →
    connect_locked e i q b = Ret (r, b') → broker_step b b'
| bs_finish now result i q :
    b_jobs b !! i = Some (Requesting q) → broker_step b (snd (connect_finish now result i q b))
| bs_cancel i q :
    b_jobs b !! i = Some (Requesting q) → broker_step b (connect_cancel i q b)
| bs_accept i y r arrived :
    b_jobs b !! i = Some (Relaying y) → y_phase y = Accepting r →
    (arrived = true → is_Some (delivered (b_ingress b) !! r_channel r)) →
    broker_step b (relay_accept i y r arrived b)
| bs_dialed i y connected :
    b_jobs b !! i = Some (Relaying y) → y_phase y = Dialing → broker_step b (relay_dialed i y connected b)
| bs_relay_drop i y :
    b_jobs b !! i = Some (Relaying y) → broker_step b (relay_drop i y b)
| bs_deliver k stream source : broker_step b (set_ingress (deliver k stream source) b)
| bs_peers started cookies : broker_step b (retain_peers started cookies b)
| bs_locks : broker_step b (retain_locks b)
| bs_dns d : dns_step (b_dns b) d → broker_step b (set_dns d b).

Definition broker_reachable (b : Broker) : Prop :=
  ∃ c bound d address, dns_new bound = Ok d ∧ rtc broker_step (broker_new c d address) b.

(** ** The invariant *)

Definition connecting (q : request) : Prop := match q_phase q with Connecting _ _ _ _ => True | _ => False end.

Record locks_ok (locks : gmap Z nat) (next : nat) (jobs : gmap nat job) : Prop := {
  lk_table i q : jobs !! i = Some (Requesting q) → locks !! q_cookie q = Some (q_lock q);
  lk_inj c c' l : locks !! c = Some l → locks !! c' = Some l → c = c';
  lk_fresh c l : locks !! c = Some l → l < next;
  lk_excl i k j j' l : jobs !! i = Some j → jobs !! k = Some j' → locked l j = true → locked l j' = true → i = k;
}.

Record peers_ok (peers : gmap Z Peer) (jobs : gmap nat job) (address : SocketAddrV4) : Prop := {
  pk_connecting i q : jobs !! i = Some (Requesting q) → connecting q →
    ∃ p, peers !! q_cookie q = Some p ∧ pe_pending p = true ∧ pe_target p = q_target q;
  pk_pending c p : peers !! c = Some p → pe_pending p = true →
    ∃ i q, jobs !! i = Some (Requesting q) ∧ connecting q ∧ q_cookie q = c;
  pk_internal c p : peers !! c = Some p → pe_internal p = address;
}.

Record owners_ok (w : world) (jobs : gmap nat job) : Prop := {
  ow_world : ingress_reachable w;
  ow_live r : r ∈ live w ↔ ∃ i j, jobs !! i = Some j ∧ job_registration j = Some r;
  ow_fds i k j j' fd : jobs !! i = Some j → jobs !! k = Some j' →
    job_fd j = Some fd → job_fd j' = Some fd → i = k;
}.

Definition permits_used (jobs : gmap nat job) : nat :=
  size (base.filter (λ e : nat * job, has_permit (snd e) = true) jobs).

Record broker_ok (b : Broker) : Prop := {
  ok_locks : locks_ok (b_locks b) (b_next_lock b) (b_jobs b);
  ok_peers : peers_ok (b_peers b) (b_jobs b) (i_address (ingress (b_ingress b)));
  ok_owners : owners_ok (b_ingress b) (b_jobs b);
  ok_permits : b_pending b + permits_used (b_jobs b) = PENDING;
}.

(** *** Permits *)

Definition permit (j : job) : nat := if has_permit j then 1 else 0.

Lemma permits_delete jobs i j : jobs !! i = Some j → permits_used (delete i jobs) + permit j = permits_used jobs.
Proof.
  intros Hi. unfold permits_used, permit. rewrite map_filter_delete.
  destruct (has_permit j) eqn:E.
  - rewrite map_size_delete_Some; [|exists j; by apply map_lookup_filter_Some].
    assert (0 < size (base.filter (λ e : nat * job, has_permit e.2 = true) jobs)).
    { apply Nat.neq_0_lt_0. intros H0%map_size_empty_inv. apply (lookup_empty_Some i j (M := gmap nat)).
      rewrite <-H0. by apply map_lookup_filter_Some. }
    lia.
  - rewrite delete_id; [lia|]. apply map_lookup_filter_None. right. intros j' Hj'. simplify_eq. simpl. congruence.
Qed.

Lemma permits_insert jobs i j : jobs !! i = None → permits_used (<[i := j]> jobs) = permits_used jobs + permit j.
Proof.
  intros Hi. pose proof (permits_delete (<[i := j]> jobs) i j (lookup_insert_eq _ _ _)) as Hd.
  rewrite delete_insert_id in Hd by done. lia.
Qed.

Lemma permits_replace jobs i j j' :
  jobs !! i = Some j → permits_used (<[i := j']> jobs) + permit j = permits_used jobs + permit j'.
Proof.
  intros Hi. pose proof (permits_delete jobs i j Hi). rewrite <-insert_delete_eq, permits_insert by apply lookup_delete_eq.
  lia.
Qed.

(** *** Locks *)

Lemma locked_request l j : locked l j = true → ∃ q, j = Requesting q ∧ q_lock q = l ∧ q_phase q ≠ Locking.
Proof.
  destruct j as [[fd c t l' []]|]; simpl; try done; intros ->%bool_decide_eq_true; eexists; by split_and!.
Qed.

Lemma locked_connecting q : connecting q → locked (q_lock q) (Requesting q) = true.
Proof. destruct q as [fd c t l []]; simpl; try done. intros _. by apply bool_decide_true. Qed.

(** Jobs that end, or go on holding what they held. *)
Definition weaker (jobs jobs' : gmap nat job) : Prop :=
  ∀ i q', jobs' !! i = Some (Requesting q') →
    ∃ q, jobs !! i = Some (Requesting q) ∧ q_cookie q' = q_cookie q ∧ q_lock q' = q_lock q ∧
         (q_phase q' ≠ Locking → q_phase q ≠ Locking).

Lemma locked_active q : locked (q_lock q) (Requesting q) = true ↔ q_phase q ≠ Locking.
Proof. destruct q as [fd c t l []]; simpl; rewrite ?bool_decide_eq_true; done. Qed.

Lemma locks_ok_weaker locks next jobs jobs' :
  locks_ok locks next jobs → weaker jobs jobs' → locks_ok locks next jobs'.
Proof.
  intros [Ht Hi Hf He] Hw. split; [|done|done|].
  - intros i q' (q & Hq & -> & -> & _)%Hw. by eapply Ht.
  - intros i k j j' l Hj Hj' Hl Hl'.
    destruct (locked_request _ _ Hl) as (q1 & -> & <- & Hp1), (locked_request _ _ Hl') as (q2 & -> & Hl2 & Hp2).
    destruct (Hw _ _ Hj) as (q1' & Hq1 & _ & El1 & Ha1), (Hw _ _ Hj') as (q2' & Hq2 & _ & El2 & Ha2).
    apply (He i k _ _ (q_lock q1') Hq1 Hq2); [by apply locked_active, Ha1|].
    replace (q_lock q1') with (q_lock q2') by congruence. by apply locked_active, Ha2.
Qed.

(** A waiting request gets the lock nobody holds. *)
Lemma locks_ok_enter locks next jobs i q p :
  locks_ok locks next jobs → jobs !! i = Some (Requesting q) → no_guard (q_lock q) jobs →
  locks_ok locks next (<[i := Requesting (mkRequest (q_fd q) (q_cookie q) (q_target q) (q_lock q) p)]> jobs).
Proof.
  intros [Ht Hi Hf He] Hq Hn. split; [|done|done|].
  - intros k q' [[<- [= <-]]|[_ ?]]%lookup_insert_Some; simpl; by eapply Ht.
  - assert (Hl : ∀ k j l, jobs !! k = Some j → locked l j = true → l ≠ q_lock q).
    { intros k j l Hk Hl ->. by rewrite (Hn k j Hk) in Hl. }
    intros k k' j j' l [[<- <-]|[Hne Hk]]%lookup_insert_Some [[<- <-]|[Hne' Hk']]%lookup_insert_Some H1 H2; [done|..].
    + apply locked_request in H1 as (? & [= <-] & <- & _). by destruct (Hl _ _ _ Hk' H2).
    + apply locked_request in H2 as (? & [= <-] & <- & _). by destruct (Hl _ _ _ Hk H1).
    + by eapply He.
Qed.

Lemma lock_for_ok cookie b l b' :
  locks_ok (b_locks b) (b_next_lock b) (b_jobs b) → lock_for cookie b = (l, b') →
  locks_ok (b_locks b') (b_next_lock b') (b_jobs b) ∧ b_locks b' !! cookie = Some l ∧ b_jobs b' = b_jobs b ∧
  b_peers b' = b_peers b ∧ b_ingress b' = b_ingress b ∧ b_pending b' = b_pending b.
Proof.
  intros Hok. pose proof Hok as [Ht Hi Hf He]. unfold lock_for.
  assert (Hfresh : (∀ i q, b_jobs b !! i = Some (Requesting q) → q_cookie q ≠ cookie) →
    locks_ok (<[cookie := b_next_lock b]> (b_locks b)) (S (b_next_lock b)) (b_jobs b)).
  { intros Hno. split; [|..|done].
    - intros i q Hq. rewrite lookup_insert_ne by (apply not_eq_sym; by eapply Hno). by eapply Ht.
    - intros c c' l'. rewrite !lookup_insert_Some.
      intros [[<- <-]|[Hne Hc]] [[<- E]|[Hne' Hc']]; [done|..].
      + apply Hf in Hc'. lia.
      + subst. apply Hf in Hc. lia.
      + by eapply Hi.
    - intros c l' [[_ <-]|[_ Hc]]%lookup_insert_Some; [lia|]. apply Hf in Hc. lia. }
  destruct (b_locks b !! cookie) as [l0|] eqn:El; [destruct (lock_alive b l0) eqn:Ea|]; intros [= <- <-]; simpl.
  - done.
  - split_and!; [|apply lookup_insert_eq|done..]. apply Hfresh. intros i q Hq <-.
    unfold lock_alive in Ea. apply bool_decide_eq_false in Ea. apply Ea. exists i, (Requesting q). split; [done|].
    simpl. apply bool_decide_true. rewrite (Ht _ _ Hq) in El. by simplify_eq.
  - split_and!; [|apply lookup_insert_eq|done..]. apply Hfresh. intros i q Hq <-. by rewrite (Ht _ _ Hq) in El.
Qed.

Lemma locks_ok_add locks next jobs i fd cookie target l :
  locks_ok locks next jobs → locks !! cookie = Some l →
  locks_ok locks next (<[i := Requesting (mkRequest fd cookie target l Locking)]> jobs).
Proof.
  intros [Ht Hi Hf He] Hl. split; [|done|done|].
  - intros k q [[_ [= <-]]|[_ ?]]%lookup_insert_Some; [done|by eapply Ht].
  - intros k k' j j' l' [[_ <-]|[_ Hk]]%lookup_insert_Some [[_ <-]|[_ Hk']]%lookup_insert_Some H1 H2; try done.
    by eapply He.
Qed.

Lemma retain_locks_ok b :
  locks_ok (b_locks b) (b_next_lock b) (b_jobs b) → locks_ok (b_locks (retain_locks b)) (b_next_lock b) (b_jobs b).
Proof.
  intros [Ht Hi Hf He]. split; simpl; [|..|done].
  - intros i q Hq. apply map_lookup_filter_Some. split; [by eapply Ht|]. simpl. unfold lock_alive.
    apply bool_decide_true. exists i, (Requesting q). split; [done|]. simpl. by apply bool_decide_true.
  - intros c c' l [Hc _]%map_lookup_filter_Some [Hc' _]%map_lookup_filter_Some. by eapply Hi.
  - intros c l [Hc _]%map_lookup_filter_Some. by eapply Hf.
Qed.

(** *** Peers *)

(** Only job [i] and the entry of its cookie change. *)
Lemma peers_ok_change peers jobs address i c peers' jobs' :
  peers_ok peers jobs address →
  (∀ k, k ≠ i → jobs' !! k = jobs !! k) → (∀ c', c' ≠ c → peers' !! c' = peers !! c') →
  (∀ k q, k ≠ i → jobs !! k = Some (Requesting q) → connecting q → q_cookie q ≠ c) →
  (∀ q, jobs !! i = Some (Requesting q) → connecting q → q_cookie q = c) →
  (∀ q, jobs' !! i = Some (Requesting q) → connecting q → q_cookie q = c ∧
     ∃ p, peers' !! c = Some p ∧ pe_pending p = true ∧ pe_target p = q_target q) →
  (∀ p, peers' !! c = Some p → pe_internal p = address ∧
     (pe_pending p = true → ∃ q, jobs' !! i = Some (Requesting q) ∧ connecting q ∧ q_cookie q = c)) →
  peers_ok peers' jobs' address.
Proof.
  intros [Hc Hp Hi] Hj Hpe Hother Hold Hnew Hentry. split.
  - intros k q Hk Hq. destruct (decide (k = i)) as [->|Hne].
    + destruct (Hnew q Hk Hq) as [-> ?]. done.
    + rewrite Hj in Hk by done. rewrite Hpe by (by eapply Hother). by eapply Hc.
  - intros c' p Hcp Hpp. destruct (decide (c' = c)) as [->|Hne].
    + destruct (Hentry p Hcp) as [_ (q & ? & ? & ?)]; [done|]. by exists i, q.
    + rewrite Hpe in Hcp by done. destruct (Hp c' p Hcp Hpp) as (k & q & Hk & Hq & <-).
      exists k, q. split_and!; [|done..]. rewrite Hj; [done|]. intros ->. by destruct Hne; apply Hold.
  - intros c' p Hcp. destruct (decide (c' = c)) as [->|Hne]; [by apply Hentry|].
    rewrite Hpe in Hcp by done. by eapply Hi.
Qed.

(** Nothing that matters to the peers changes. *)
Lemma peers_ok_same peers jobs address i jobs' :
  peers_ok peers jobs address → (∀ k, k ≠ i → jobs' !! k = jobs !! k) →
  (∀ q, jobs !! i = Some (Requesting q) → ¬ connecting q) →
  (∀ q, jobs' !! i = Some (Requesting q) → ¬ connecting q) →
  peers_ok peers jobs' address.
Proof.
  intros [Hc Hp Hi] Hj Hold Hnew. split; [|..|done].
  - intros k q Hk Hq. destruct (decide (k = i)) as [->|Hne]; [by destruct (Hnew q)|].
    rewrite Hj in Hk by done. by eapply Hc.
  - intros c p Hcp Hpp. destruct (Hp c p Hcp Hpp) as (k & q & Hk & Hq & <-). exists k, q.
    split_and!; [|done..]. rewrite Hj; [done|]. intros ->. by destruct (Hold q).
Qed.

(** The holder of a lock is the only one connecting its socket. *)
Lemma other_connecting locks next jobs i q :
  locks_ok locks next jobs → jobs !! i = Some (Requesting q) →
  q_phase q ≠ Locking ∨ no_guard (q_lock q) jobs →
  ∀ k q', k ≠ i → jobs !! k = Some (Requesting q') → connecting q' → q_cookie q' ≠ q_cookie q.
Proof.
  intros Hok Hi Hh k q' Hne Hk Hq' Hc. pose proof (lk_table _ _ _ Hok _ _ Hi) as Hl.
  pose proof (lk_table _ _ _ Hok _ _ Hk) as Hl'. rewrite Hc, Hl in Hl'. injection Hl' as Hll.
  pose proof (locked_connecting _ Hq') as Hlk. rewrite <-Hll in Hlk. destruct Hh as [Ha|Hn].
  - apply Hne. symmetry. eapply (lk_excl _ _ _ Hok i k); [done..|by apply locked_active|done].
  - by rewrite (Hn k _ Hk) in Hlk.
Qed.

(** *** Registrations *)

Lemma owned_fd j r : job_registration j = Some r → job_fd j = Some (r_socket r).
Proof. destruct j as [[? ? ? ? []]|[? ? ? []]]; simpl; congruence. Qed.

(** Job [i] keeps its registration, and the descriptor it has or none. *)
Lemma owners_ok_keep w jobs i jobs' :
  owners_ok w jobs → (∀ k, k ≠ i → jobs' !! k = jobs !! k) →
  (jobs !! i ≫= job_registration = jobs' !! i ≫= job_registration) →
  (∀ fd, jobs' !! i ≫= job_fd = Some fd →
     jobs !! i ≫= job_fd = Some fd ∨ map_Forall (λ _ j, job_fd j ≠ Some fd) jobs) →
  owners_ok w jobs'.
Proof.
  intros [Hw Hl Hf] Hj Hr Hfd. split; [done|..].
  - intros r. rewrite Hl. split; intros (k & j & Hk & Hkr).
    + destruct (decide (k = i)) as [->|Hne].
      * rewrite Hk in Hr. simpl in Hr. rewrite Hkr in Hr. symmetry in Hr. apply bind_Some in Hr as (j' & ? & ?). by exists i, j'.
      * exists k, j. by rewrite Hj.
    + destruct (decide (k = i)) as [->|Hne].
      * rewrite Hk in Hr. simpl in Hr. rewrite Hkr in Hr. apply bind_Some in Hr as (j' & ? & ?). by exists i, j'.
      * exists k, j. by rewrite <-Hj.
  - assert (Hone : ∀ k j j' fd, k ≠ i → jobs' !! i = Some j → jobs' !! k = Some j' →
      job_fd j = Some fd → job_fd j' ≠ Some fd).
    { intros k j j' fd Hne Hi Hk Hjf Hjf'. rewrite Hj in Hk by done.
      destruct (Hfd fd) as [Hold|Hnone]; [by rewrite Hi| |by apply (Hnone k j')].
      apply bind_Some in Hold as (j0 & Hi0 & Hj0). apply Hne. by apply (Hf k i j' j0 fd). }
    intros k k' j j' fd Hk Hk' Hjf Hjf'. destruct (decide (k = i)) as [->|Hne], (decide (k' = i)) as [->|Hne']; [done|..].
    + by destruct (Hone k' j j' fd).
    + by destruct (Hone k j' j fd).
    + rewrite Hj in Hk, Hk' by done. by eapply Hf.
Qed.

(** Job [i] lets go of its registration. *)
Lemma owners_ok_drop w jobs i j r jobs' :
  owners_ok w jobs → (∀ k, k ≠ i → jobs' !! k = jobs !! k) →
  jobs !! i = Some j → job_registration j = Some r →
  jobs' !! i ≫= job_registration = None → jobs' !! i ≫= job_fd = None →
  owners_ok (drop_registration r w) jobs'.
Proof.
  intros [Hw Hl Hf] Hj Hi Hr Hr' Hf'. assert (Hin : r ∈ live w) by (apply Hl; by exists i, j). split.
  - destruct Hw as [a Hw]. exists a. eapply rtc_r; [exact Hw|]. by apply step_drop.
  - intros r'. change (live (drop_registration r w)) with (without r (live w)). rewrite without_In, Hl. split.
    + intros [(k & j' & Hk & Hkr) Hne]. exists k, j'. rewrite Hj; [done|]. intros ->. apply Hne. congruence.
    + intros (k & j' & Hk & Hkr). destruct (decide (k = i)) as [->|Hne].
      { rewrite Hk in Hr'. simpl in Hr'. congruence. }
      rewrite Hj in Hk by done. split; [by exists k, j'|]. intros Hc. apply Hne.
      assert (r' = r) as ->.
      { apply (NoDup_fmap_inj_elem r_channel (live w)); [by apply exact_reachable|apply Hl; by exists k, j'|done|done]. }
      apply (Hf k i j' j (r_socket r)); [done..|by apply owned_fd|by apply owned_fd].
  - intros k k' j1 j2 fd Hk Hk' H1 H2.
    assert (Hn : ∀ k j, jobs' !! k = Some j → job_fd j = Some fd → k ≠ i).
    { intros k0 j0 Hk0 Hj0 ->. rewrite Hk0 in Hf'. simpl in Hf'. congruence. }
    pose proof (Hn _ _ Hk H1). pose proof (Hn _ _ Hk' H2). rewrite Hj in Hk, Hk' by done. by eapply Hf.
Qed.

(** Job [i] registers its descriptor. *)
Lemma owners_ok_register w jobs i j e s fd r s' w' jobs' :
  owners_ok w jobs → (∀ k, k ≠ i → jobs' !! k = jobs !! k) →
  jobs !! i = Some j → job_registration j = None → job_fd j = Some fd →
  register e s fd w = (Ok r, s', w') →
  jobs' !! i ≫= job_registration = Some r → jobs' !! i ≫= job_fd = Some fd →
  owners_ok w' jobs'.
Proof.
  intros [Hw Hl Hf] Hj Hi Hr Hfd Hreg Hr' Hf'.
  assert (Hfresh : fd ∉ (r_socket <$> live w)).
  { intros (q & -> & Hq)%list_elem_of_fmap. apply Hl in Hq as (k & j' & Hk & Hkr).
    assert (k = i) as -> by (eapply Hf; [done..|by apply owned_fd|done]). congruence. }
  split.
  - destruct Hw as [a Hw]. exists a. eapply rtc_r; [exact Hw|]. by eapply step_register.
  - unfold register in Hreg. destruct (prepare e s) as [[port|?] ?]; [|done]. injection Hreg as <- _ <-. simpl.
    intros r'. rewrite elem_of_app, list_elem_of_singleton, Hl. split.
    + intros [(k & j' & Hk & Hkr)| ->].
      * exists k, j'. rewrite Hj; [done|]. intros ->. congruence.
      * apply bind_Some in Hr' as (j' & ? & ?). by exists i, j'.
    + intros (k & j' & Hk & Hkr). destruct (decide (k = i)) as [->|Hne].
      * right. rewrite Hk in Hr'. simpl in Hr'. congruence.
      * left. exists k, j'. by rewrite <-Hj.
  - intros k k' j1 j2 fd' Hk Hk' H1 H2.
    assert (Hold : ∀ k j1, jobs' !! k = Some j1 → job_fd j1 = Some fd' → ∃ j0, jobs !! k = Some j0 ∧ job_fd j0 = Some fd').
    { intros k0 j0 Hk0 Hj0. destruct (decide (k0 = i)) as [->|Hne]; [|exists j0; by rewrite <-Hj].
      exists j. split; [done|]. rewrite Hk0 in Hf'. simpl in Hf'. congruence. }
    destruct (Hold _ _ Hk H1) as (? & ? & ?), (Hold _ _ Hk' H2) as (? & ? & ?). by eapply Hf.
Qed.

(** *** Jobs that end *)

Lemma fmap_Some_1' {A B} (f : A → B) (o : option A) y : f <$> o = Some y → ∃ x, o = Some x ∧ f x = y.
Proof. destruct o; simpl; [intros [= <-]; eauto|done]. Qed.

Lemma weaker_delete jobs i : weaker jobs (delete i jobs).
Proof. intros k q [_ Hk]%lookup_delete_Some. by exists q. Qed.

Lemma weaker_relay jobs i y : weaker jobs (<[i := Relaying y]> jobs).
Proof. intros k q [[_ ?]|[_ Hk]]%lookup_insert_Some; [done|by exists q]. Qed.

Lemma delete_others (jobs : gmap nat job) i k : k ≠ i → delete i jobs !! k = jobs !! k.
Proof. intros. by rewrite lookup_delete_ne. Qed.

Lemma insert_others (jobs : gmap nat job) i j k : k ≠ i → <[i := j]> jobs !! k = jobs !! k.
Proof. intros. by rewrite lookup_insert_ne. Qed.

Lemma connecting_registration q : connecting q ↔ is_Some (job_registration (Requesting q)).
Proof. destruct q as [? ? ? ? []]; simpl; unfold connecting; simpl; split; try done; by intros [? ?]. Qed.

(** A job that owns nothing ends. *)
Lemma job_end_ok b i j :
  broker_ok b → b_jobs b !! i = Some j → job_registration j = None → has_permit j = false →
  broker_ok (set_jobs (delete i) b).
Proof.
  intros [Hl Hp Ho Hn] Hi Hr Hh. split; simpl.
  - eapply locks_ok_weaker; [exact Hl|apply weaker_delete].
  - eapply (peers_ok_same _ _ _ i); [exact Hp|apply delete_others| |].
    + intros q Hq [x Hx]%connecting_registration. congruence.
    + intros q. by rewrite lookup_delete_eq.
  - eapply (owners_ok_keep _ _ i); [exact Ho|apply delete_others| |].
    + by rewrite Hi, lookup_delete_eq.
    + intros fd. by rewrite lookup_delete_eq.
  - pose proof (permits_delete _ _ _ Hi) as Hd. unfold permit in Hd. rewrite Hh in Hd. lia.
Qed.

(** The entry of a socket nobody is connecting is forgotten. *)
Lemma peer_delete_ok b c :
  broker_ok b → (∀ k q, b_jobs b !! k = Some (Requesting q) → connecting q → q_cookie q ≠ c) →
  broker_ok (set_peers (delete c) b).
Proof.
  intros [Hl [Hc Hp Hi] Ho Hn] Hno. split; simpl; [done| |done|done]. split.
  - intros k q Hk Hq. rewrite lookup_delete_ne by (apply not_eq_sym; by eapply Hno). by eapply Hc.
  - intros c' p [_ Hcp]%lookup_delete_Some. by apply Hp.
  - intros c' p [_ Hcp]%lookup_delete_Some. by eapply Hi.
Qed.

(** A connecting request gives everything back. *)
Lemma abandon_ok b i q r dns t route :
  broker_ok b → b_jobs b !! i = Some (Requesting q) → q_phase q = Connecting r dns t route →
  broker_ok (set_jobs (delete i) (abandon (q_cookie q) r b)).
Proof.
  intros [Hl Hp Ho Hn] Hi Hph. destruct q as [fd c target l ph]. simpl in Hph. subst ph. simpl.
  split; simpl.
  - eapply locks_ok_weaker; [exact Hl|apply weaker_delete].
  - eapply (peers_ok_change _ _ _ i c); [exact Hp|apply delete_others| | | | |].
    + intros c' Hc'. by rewrite lookup_delete_ne.
    + apply (other_connecting _ _ _ _ _ Hl Hi). by left.
    + intros q Hq. rewrite Hi in Hq. by injection Hq as <-.
    + intros q. by rewrite lookup_delete_eq.
    + intros p. by rewrite lookup_delete_eq.
  - eapply (owners_ok_drop _ _ i); [exact Ho|apply delete_others|exact Hi|done|..]; by rewrite lookup_delete_eq.
  - pose proof (permits_delete _ _ _ Hi) as Hd. simpl in Hd. unfold permit in Hd. simpl in Hd. lia.
Qed.

(** The connection is up: the relay takes over. *)
Lemma commit_ok b i q r dns t route now :
  broker_ok b → b_jobs b !! i = Some (Requesting q) → q_phase q = Connecting r dns t route →
  broker_ok (set_jobs <[i := Relaying (mkRelayTask dns t route (Accepting r))]>
               (set_peers (alter (settle now) (q_cookie q)) b)).
Proof.
  intros [Hl Hp Ho Hn] Hi Hph. destruct q as [fd c target l ph]. simpl in Hph. subst ph. simpl.
  split; simpl.
  - eapply locks_ok_weaker; [exact Hl|apply weaker_relay].
  - eapply (peers_ok_change _ _ _ i c); [exact Hp|apply insert_others| | | | |].
    + intros c' Hc'. by rewrite lookup_alter_ne.
    + apply (other_connecting _ _ _ _ _ Hl Hi). by left.
    + intros q Hq. rewrite Hi in Hq. by injection Hq as <-.
    + intros q. by rewrite lookup_insert_eq.
    + intros p. rewrite lookup_alter_eq. intros (p0 & Hp0 & <-)%fmap_Some_1'. simpl. split; [|done].
      by apply (pk_internal _ _ _ Hp c p0).
  - eapply (owners_ok_keep _ _ i); [exact Ho|apply insert_others| |].
    + by rewrite Hi, lookup_insert_eq.
    + intros fd'. rewrite Hi, lookup_insert_eq. simpl. by left.
  - pose proof (permits_replace _ _ _ (Relaying (mkRelayTask dns t route (Accepting r))) Hi) as Hd.
    unfold permit in Hd. simpl in Hd. lia.
Qed.

(** *** Steps *)

Lemma begin_ok b i fd c target :
  broker_ok b → b_jobs b !! i = None → map_Forall (λ _ j, job_fd j ≠ Some fd) (b_jobs b) →
  broker_ok (connect_begin i fd c target b).
Proof.
  intros [Hl Hp Ho Hn] Hi Hfd. unfold connect_begin. destruct (lock_for c b) as [l b'] eqn:El.
  destruct (lock_for_ok _ _ _ _ Hl El) as (Hl' & Hc & Ej & Ep & Ew & En).
  split; simpl; rewrite ?Ej, ?Ep, ?Ew, ?En.
  - by apply locks_ok_add.
  - eapply (peers_ok_same _ _ _ i); [exact Hp|apply insert_others|intros q; by rewrite Hi|].
    intros q. rewrite lookup_insert_eq. intros [= <-] [].
  - eapply (owners_ok_keep _ _ i); [exact Ho|apply insert_others|by rewrite Hi, lookup_insert_eq|].
    intros fd'. rewrite lookup_insert_eq. simpl. intros [= <-]. by right.
  - rewrite permits_insert by done. unfold permit. simpl. lia.
Qed.

(** A request enters a phase in which it owns nothing more. *)
Lemma retry_ok b i q internal :
  broker_ok b → b_jobs b !! i = Some (Requesting q) → q_phase q = Locking → no_guard (q_lock q) (b_jobs b) →
  broker_ok (set_jobs <[i := Requesting (mkRequest (q_fd q) (q_cookie q) (q_target q) (q_lock q) (Retrying internal))]> b).
Proof.
  intros [Hl Hp Ho Hn] Hi Hph Hg. split; simpl.
  - by apply locks_ok_enter.
  - eapply (peers_ok_same _ _ _ i); [exact Hp|apply insert_others| |].
    + intros q'. rewrite Hi. intros [= <-]. unfold connecting. rewrite Hph. by intros [].
    + intros q'. rewrite lookup_insert_eq. intros [= <-] [].
  - eapply (owners_ok_keep _ _ i); [exact Ho|apply insert_others| |]; rewrite Hi, lookup_insert_eq;
      destruct q as [? ? ? ? ph]; simpl in *; subst ph; [done|]. simpl. by left.
  - pose proof (permits_replace _ _ _ (Requesting (mkRequest (q_fd q) (q_cookie q) (q_target q) (q_lock q) (Retrying internal))) Hi) as Hd.
    destruct q as [? ? ? ? ph]; simpl in *; subst ph. unfold permit in Hd. simpl in Hd. lia.
Qed.

(** A request registers its socket and goes on to connect it. *)
Lemma enter_ok b i q e s r s' w permits now dns t route :
  broker_ok b → b_jobs b !! i = Some (Requesting q) → q_phase q = Locking → no_guard (q_lock q) (b_jobs b) →
  b_pending b = S permits → register e s (q_fd q) (b_ingress b) = (Ok r, s', w) →
  broker_ok
    (set_jobs <[i := Requesting (mkRequest (q_fd q) (q_cookie q) (q_target q) (q_lock q) (Connecting r dns t route))]>
       (set_pending (λ _, permits) (set_ingress (λ _, w)
          (set_peers <[q_cookie q := mkPeer (q_target q) (i_address (ingress (b_ingress b))) now true]> b)))).
Proof.
  intros [Hl Hp Ho Hn] Hi Hph Hg Hperm Hreg.
  assert (Ha : i_address (ingress w) = i_address (ingress (b_ingress b)) ∧ r_socket r = q_fd q).
  { unfold register in Hreg. destruct (prepare e s) as [[port|?] ?]; [|done]. by injection Hreg as <- _ <-. }
  destruct Ha as [Ha Hsock]. split; simpl.
  - by apply locks_ok_enter.
  - rewrite Ha. eapply (peers_ok_change _ _ _ i (q_cookie q)); [exact Hp|apply insert_others| | | | |].
    + intros c' Hc'. by rewrite lookup_insert_ne.
    + apply (other_connecting _ _ _ _ _ Hl Hi). by right.
    + intros q'. rewrite Hi. by intros [= <-].
    + intros q'. rewrite !lookup_insert_eq. intros [= <-] _. split; [done|]. by eexists.
    + intros p. rewrite !lookup_insert_eq. intros [= <-]. split; [done|]. intros _. by eexists.
  - eapply (owners_ok_register _ _ i _ e s (q_fd q)); [exact Ho|apply insert_others|exact Hi|..|exact Hreg| |];
      rewrite ?lookup_insert_eq; destruct q as [? ? ? ? ph]; simpl in *; subst ph; simpl; congruence.
  - pose proof (permits_replace _ _ _ (Requesting (mkRequest (q_fd q) (q_cookie q) (q_target q) (q_lock q)
      (Connecting r dns t route))) Hi) as Hd.
    destruct q as [? ? ? ? ph]; simpl in *; subst ph. unfold permit in Hd. simpl in Hd. lia.
Qed.

Lemma locked_end_ok b i q :
  broker_ok b → b_jobs b !! i = Some (Requesting q) → q_phase q = Locking → broker_ok (set_jobs (delete i) b).
Proof. intros Hok Hi Hph. apply (job_end_ok _ _ _ Hok Hi); destruct q as [? ? ? ? []]; done. Qed.

Lemma peers_undo c p b :
  set_peers (delete c) (set_peers <[c := p]> (set_peers (delete c) b)) = set_peers (delete c) b.
Proof. unfold set_peers. simpl. by rewrite delete_insert_eq, delete_delete_eq. Qed.

Lemma locked_ok e b i q r b' :
  broker_ok b → b_jobs b !! i = Some (Requesting q) → q_phase q = Locking → no_guard (q_lock q) (b_jobs b) →
  connect_locked e i q b = Ret (r, b') → broker_ok b'.
Proof.
  intros Hok Hi Hph Hg. unfold connect_locked, finished.
  assert (Hdel : broker_ok (set_peers (delete (q_cookie q)) b)).
  { apply peer_delete_ok; [done|]. intros k q' Hk Hq'. destruct (decide (k = i)) as [->|Hne].
    - rewrite Hi in Hk. injection Hk as <-. unfold connecting in Hq'. by rewrite Hph in Hq'.
    - by apply (other_connecting _ _ _ _ _ (ok_locks _ Hok) Hi (or_intror Hg) k). }
  destruct (le_valid1 e); [|intros [= _ <-]; by eapply locked_end_ok].
  destruct (state _ _) as [st|]; [|intros [= _ <-]; by eapply locked_end_ok].
  destruct (negb (st =? TCP_CLOSE)%Z).
  { destruct (b_peers b !! q_cookie q); intros [= _ <-]; [by apply retry_ok|by eapply locked_end_ok]. }
  destruct (proxy_target_of _ _) as [t|]; [|intros [= _ <-]; by eapply locked_end_ok].
  destruct (proxy_for _ t) as [route| |]; [cbn [mbind outcome_bind]|done|done].
  destruct (_ && _); [intros [= _ <-]; by eapply locked_end_ok|].
  change (b_pending (set_peers (delete (q_cookie q)) b)) with (b_pending b).
  destruct (b_pending b) as [|permits] eqn:Hperm; [intros [= _ <-]; by eapply locked_end_ok|].
  destruct (le_valid2 e); [|intros [= _ <-]; by eapply locked_end_ok].
  destruct (register _ _ _ _) as [[[rg|err] s'] w] eqn:Hreg; intros [= _ <-].
  - by eapply (enter_ok (set_peers (delete (q_cookie q)) b)).
  - rewrite peers_undo. by eapply locked_end_ok.
Qed.

(** What becomes of a relay task. *)
Definition put (i : nat) (y : option relay_task) (jobs : gmap nat job) : gmap nat job :=
  match y with Some y => <[i := Relaying y]> jobs | None => delete i jobs end.

Lemma put_others i y jobs k : k ≠ i → put i y jobs !! k = jobs !! k.
Proof. destruct y; [apply insert_others|apply delete_others]. Qed.

Lemma put_lookup i y jobs : put i y jobs !! i = Relaying <$> y.
Proof. destruct y; simpl; [apply lookup_insert_eq|apply lookup_delete_eq]. Qed.

Definition permit_of (y : option relay_task) : nat := default 0 ((permit ∘ Relaying) <$> y).

Lemma permits_put i j y jobs :
  jobs !! i = Some j → permits_used (put i y jobs) + permit j = permits_used jobs + permit_of y.
Proof.
  intros Hi. destruct y as [y|]; simpl; [by apply permits_replace|].
  pose proof (permits_delete _ _ _ Hi). unfold permit_of. simpl. lia.
Qed.

Lemma relay_next_ok b i y (y' : option relay_task) w n :
  broker_ok b → b_jobs b !! i = Some (Relaying y) →
  owners_ok w (put i y' (b_jobs b)) → i_address (ingress w) = i_address (ingress (b_ingress b)) →
  n + permit_of y' = b_pending b + permit (Relaying y) →
  broker_ok (set_jobs (put i y') (set_pending (λ _, n) (set_ingress (λ _, w) b))).
Proof.
  intros [Hl Hp Ho Hn] Hi Hw Ha Hperm. split; simpl; [..|done|].
  - eapply locks_ok_weaker; [exact Hl|]. destruct y'; [apply weaker_relay|apply weaker_delete].
  - rewrite Ha. eapply (peers_ok_same _ _ _ i); [exact Hp|apply put_others| |].
    + intros q. by rewrite Hi.
    + intros q. rewrite put_lookup. by destruct y'.
  - pose proof (permits_put i _ y' _ Hi). lia.
Qed.

(** The task gives its registration back. *)
Lemma relay_unregister_ok b i y r y' n :
  broker_ok b → b_jobs b !! i = Some (Relaying y) → y_phase y = Accepting r →
  (∀ z, y' = Some z → y_phase z = Dialing ∨ y_phase z = Serving) → n + permit_of y' = b_pending b + 1 →
  broker_ok (set_jobs (put i y') (set_pending (λ _, n) (set_ingress (drop_registration r) b))).
Proof.
  intros Hok Hi Hph Hy' Hn. apply (relay_next_ok b i y y' (drop_registration r (b_ingress b)) n); try done.
  - eapply (owners_ok_drop _ _ i); [apply Hok|apply put_others|exact Hi|..].
    + destruct y. simpl in Hph. by rewrite Hph.
    + rewrite put_lookup. destruct y' as [[? ? ? []]|]; simpl; try done. destruct (Hy' _ eq_refl); done.
    + rewrite put_lookup. destruct y' as [[? ? ? []]|]; simpl; try done. destruct (Hy' _ eq_refl); done.
  - unfold permit. simpl. by rewrite Hph.
Qed.

(** A task past its registration. *)
Lemma relay_after_ok b i y y' n :
  broker_ok b → b_jobs b !! i = Some (Relaying y) → job_registration (Relaying y) = None →
  (∀ z, y' = Some z → y_phase z = Dialing ∨ y_phase z = Serving) →
  n + permit_of y' = b_pending b + permit (Relaying y) →
  broker_ok (set_jobs (put i y') (set_pending (λ _, n) b)).
Proof.
  intros Hok Hi Hr Hy' Hn. apply (relay_next_ok b i y y' (b_ingress b) n); try done.
  eapply (owners_ok_keep _ _ i); [apply Hok|apply put_others|..].
  - rewrite Hi, put_lookup. transitivity (@None Registration); [exact Hr|]. destruct y' as [[? ? ? []]|]; simpl; try done. destruct (Hy' _ eq_refl); done.
  - intros fd. rewrite put_lookup. destruct y' as [[? ? ? []]|]; simpl; try done. destruct (Hy' _ eq_refl); done.
Qed.

Lemma accept_ok b i y r arrived :
  broker_ok b → b_jobs b !! i = Some (Relaying y) → y_phase y = Accepting r → broker_ok (relay_accept i y r arrived b).
Proof.
  intros Hok Hi Hph. unfold relay_accept. destruct (y_dns y), arrived.
  - apply (relay_unregister_ok b i y r (Some (mkRelayTask true (y_target y) (y_route y) Serving)) (S (b_pending b))); try done.
    + intros z [= <-]. by right.
    + unfold permit_of, permit. simpl. lia.
  - apply (relay_unregister_ok b i y r None (S (b_pending b))); try done. unfold permit_of, permit. simpl. lia.
  - apply (relay_unregister_ok b i y r (Some (mkRelayTask false (y_target y) (y_route y) Dialing)) (b_pending b)); try done.
    intros z [= <-]. by left.
  - apply (relay_unregister_ok b i y r None (S (b_pending b))); try done. unfold permit_of, permit. simpl. lia.
Qed.

Lemma dialed_ok b i y connected :
  broker_ok b → b_jobs b !! i = Some (Relaying y) → y_phase y = Dialing → broker_ok (relay_dialed i y connected b).
Proof.
  intros Hok Hi Hph. assert (Hr : job_registration (Relaying y) = None) by (destruct y as [? ? ? []]; done).
  assert (Hpm : permit (Relaying y) = 1) by (unfold permit; simpl; by rewrite Hph).
  unfold relay_dialed. destruct connected.
  - apply (relay_after_ok b i y (Some (mkRelayTask (y_dns y) (y_target y) (y_route y) Serving)) (S (b_pending b))); try done.
    + intros z [= <-]. by right.
    + rewrite Hpm. unfold permit_of, permit. simpl. lia.
  - apply (relay_after_ok b i y None (S (b_pending b))); try done. rewrite Hpm. unfold permit_of, permit. simpl. lia.
Qed.

Lemma relay_drop_ok b i y :
  broker_ok b → b_jobs b !! i = Some (Relaying y) → broker_ok (relay_drop i y b).
Proof.
  intros Hok Hi. unfold relay_drop. destruct (y_phase y) as [r| |] eqn:Hph.
  - apply (relay_unregister_ok b i y r None (S (b_pending b))); try done. unfold permit_of, permit. simpl. lia.
  - apply (relay_after_ok b i y None (S (b_pending b))); try done; [destruct y as [? ? ? []]; done|].
    unfold permit_of, permit. simpl. rewrite Hph. lia.
  - apply (job_end_ok _ _ _ Hok Hi); destruct y as [? ? ? []]; done.
Qed.

Lemma finish_ok b now result i q :
  broker_ok b → b_jobs b !! i = Some (Requesting q) → broker_ok (snd (connect_finish now result i q b)).
Proof.
  intros Hok Hi. unfold connect_finish. destruct (q_phase q) as [|internal|r dns t route] eqn:Hph; simpl; [done|..].
  - apply (job_end_ok _ _ _ Hok Hi); destruct q as [? ? ? ? []]; done.
  - destruct (match result with Ok _ => _ | Err _ => _ end); simpl; [by eapply abandon_ok|by eapply commit_ok].
Qed.

Lemma cancel_ok b i q : broker_ok b → b_jobs b !! i = Some (Requesting q) → broker_ok (connect_cancel i q b).
Proof.
  intros Hok Hi. unfold connect_cancel. destruct (q_phase q) as [| |r dns t route] eqn:Hph; [..|by eapply abandon_ok];
    apply (job_end_ok _ _ _ Hok Hi); destruct q as [? ? ? ? []]; done.
Qed.

Lemma ingress_deliver_ok b k stream source :
  broker_ok b → broker_ok (set_ingress (deliver k stream source) b).
Proof.
  intros [Hl Hp [Hw Hlive Hf] Hn].
  destruct (deliver_spec k stream source (b_ingress b) (exact_reachable _ Hw)) as (_ & _ & El).
  assert (Ha : i_address (ingress (deliver k stream source (b_ingress b))) = i_address (ingress (b_ingress b))).
  { unfold deliver. destruct (_ !! _); [|done]. by destruct (take_sender _ _). }
  split; simpl; [done|by rewrite Ha| |done]. split; [|by rewrite El|done].
  destruct Hw as [a Hw]. exists a. eapply rtc_r; [exact Hw|]. apply step_deliver.
Qed.

Lemma retain_peers_ok b started cookies : broker_ok b → broker_ok (retain_peers started cookies b).
Proof.
  intros [Hl [Hc Hp Hi] Ho Hn]. split; simpl; [done| |done|done]. split.
  - intros i q Hq Hcon. destruct (Hc i q Hq Hcon) as (p & Hpe & Hpp & Ht). exists p. split_and!; [|done..].
    apply map_lookup_filter_Some. split; [done|]. by left.
  - intros c p [Hcp _]%map_lookup_filter_Some. by apply Hp.
  - intros c p [Hcp _]%map_lookup_filter_Some. by eapply Hi.
Qed.

Lemma broker_new_ok c d address : broker_ok (broker_new c d address).
Proof.
  split; simpl; [split| |split|].
  - intros i q. by rewrite lookup_empty.
  - intros x x' l. by rewrite lookup_empty.
  - intros x l. by rewrite lookup_empty.
  - intros i k j j' l. by rewrite lookup_empty.
  - split; [intros i q|intros x p|intros x p]; by rewrite lookup_empty.
  - by exists address.
  - intros r. split; [by intros ?%elem_of_nil|]. intros (i & j & Hi & _). by rewrite lookup_empty in Hi.
  - intros i k j j' fd. by rewrite lookup_empty.
  - unfold permits_used. rewrite map_filter_empty, map_size_empty. done.
Qed.

Lemma broker_step_ok b b' : broker_step b b' → broker_ok b → broker_ok b'.
Proof.
  intros Hst Hok. destruct Hst.
  - by apply begin_ok.
  - by eapply locked_ok.
  - by apply finish_ok.
  - by apply cancel_ok.
  - by apply accept_ok.
  - by apply dialed_ok.
  - by apply relay_drop_ok.
  - by apply ingress_deliver_ok.
  - by apply retain_peers_ok.
  - destruct Hok as [Hl Hp Ho Hn]. split; [exact (retain_locks_ok b Hl)|done..].
  - by destruct Hok; split.
Qed.

(** Rule induction over what can happen. *)
Lemma broker_reachable_ind (P : Broker → Prop) :
  (∀ c bound d address, dns_new bound = Ok d → P (broker_new c d address)) →
  (∀ b b', broker_reachable b → P b → broker_step b b' → P b') →
  ∀ b, broker_reachable b → P b.
Proof.
  intros Hnew Hstep b (c & bound & d & a & Hd & Hr). revert b Hr. apply rtc_ind_r; [by eapply Hnew|].
  intros b b' Hr Hs Hp. apply (Hstep b); [|done|done]. by exists c, bound, d, a.
Qed.

Lemma broker_reachable_ok b : broker_reachable b → broker_ok b.
Proof.
  revert b. apply broker_reachable_ind; [intros; apply broker_new_ok|].
  intros b b' _ Hok Hs. by eapply broker_step_ok.
Qed.

(** ** Bounds *)

(** A registration is held by a job with a permit. *)
Lemma registration_permit j r : job_registration j = Some r → has_permit j = true.
Proof. destruct j as [[? ? ? ? []]|[? ? ? []]]; done. Qed.

Lemma length_omap_le {A B} (f : A → option B) (l : list A) : length (omap f l) ≤ length l.
Proof. induction l as [|x l IH]; simpl; [done|]. destruct (f x); simpl; [apply le_n_S, IH|apply le_S, IH]. Qed.

Lemma live_bounded w jobs : owners_ok w jobs → length (live w) ≤ permits_used jobs.
Proof.
  intros [Hw Hl _]. unfold permits_used. rewrite <-length_map_to_list.
  set (held := map_to_list (base.filter _ jobs)).
  etransitivity; [|apply (length_omap_le (job_registration ∘ snd) held)].
  apply submseteq_length, NoDup_submseteq.
  - eapply NoDup_fmap_1, (ex_channels w), exact_reachable, Hw.
  - intros r (i & j & Hi & Hr)%Hl. apply list_elem_of_omap. exists (i, j). split; [|done].
    apply elem_of_map_to_list, map_lookup_filter_Some. split; [done|]. by eapply registration_permit.
Qed.

(** ** Theorems *)

(** C9: In every interleaving of connect calls, relays, the listener and the cleanup, two
    calls on the same socket never both hold its lock. *)
Theorem socket_lock_excludes (b : Broker) (i k : nat) (q q' : request) :
  broker_reachable b →
  b_jobs b !! i = Some (Requesting q) → b_jobs b !! k = Some (Requesting q') →
  q_cookie q = q_cookie q' → q_phase q ≠ Locking → q_phase q' ≠ Locking → i = k.
Proof.
  intros [Hl _ _ _]%broker_reachable_ok Hi Hk Hc Hq Hq'.
  pose proof (lk_table _ _ _ Hl _ _ Hi) as Hli. pose proof (lk_table _ _ _ Hl _ _ Hk) as Hlk.
  rewrite Hc, Hlk in Hli. injection Hli as Hll.
  apply (lk_excl _ _ _ Hl i k _ _ (q_lock q) Hi Hk); [by apply locked_active|].
  rewrite <-Hll. by apply locked_active.
Qed.

(** C8: In every reachable broker a peer entry leads to the shared listener, and it is
    pending exactly while a connect call on that socket to that target is in flight: no
    failed or cancelled call leaves one behind. *)
Theorem pending_peers_in_flight (b : Broker) (c : Z) (p : Peer) :
  broker_reachable b → b_peers b !! c = Some p →
  pe_internal p = i_address (ingress (b_ingress b)) ∧
  (pe_pending p = true ↔
   ∃ i q, b_jobs b !! i = Some (Requesting q) ∧ q_cookie q = c ∧ connecting q ∧ pe_target p = q_target q).
Proof.
  intros [_ [Hc Hp Hi] _ _]%broker_reachable_ok Hcp. split; [by eapply Hi|]. split.
  - intros Hpp. destruct (Hp c p Hcp Hpp) as (i & q & Hq & Hcon & <-). exists i, q. split_and!; [done..|].
    destruct (Hc i q Hq Hcon) as (p' & Hp' & _ & Ht). congruence.
  - intros (i & q & Hq & <- & Hcon & _). destruct (Hc i q Hq Hcon) as (p' & Hp' & Hpp & _). congruence.
Qed.

(** C10: In every reachable broker the free permits and those held by connections add up to
    128, the listener has at most as many registrations, and once no job is left every
    permit is back, the listener table is empty and no peer entry is pending. *)
Theorem connections_bounded (b : Broker) :
  broker_reachable b →
  b_pending b + permits_used (b_jobs b) = PENDING ∧
  length (live (b_ingress b)) ≤ permits_used (b_jobs b) ∧
  (b_jobs b = ∅ →
     b_pending b = PENDING ∧ waiting (ingress (b_ingress b)) = ∅ ∧
     ∀ c p, b_peers b !! c = Some p → pe_pending p = false).
Proof.
  intros [_ [Hc Hp Hi] Ho Hn]%broker_reachable_ok. pose proof (live_bounded _ _ Ho) as Hb.
  split; [done|]. split; [done|]. intros He. rewrite He in *.
  assert (Hz : permits_used ∅ = 0) by (unfold permits_used; by rewrite map_filter_empty, map_size_empty).
  rewrite Hz in *. split; [lia|]. split.
  - destruct (live (b_ingress b)) eqn:El; [|simpl in Hb; lia].
    apply map_eq. intros port. rewrite (ex_table _ (exact_reachable _ (ow_world _ _ Ho))), El, lookup_empty. done.
  - intros c p Hcp. destruct (pe_pending p) eqn:E; [|done].
    destruct (Hp c p Hcp E) as (i & q & Hq & _). by rewrite lookup_empty in Hq.
Qed.

(** C3: End to end: when the DNS service has answered a name with a fake address, a later
    connect to that address (a port other than 53, the notification still valid, a permit
    free and the source port reserved) on a fresh socket is registered with the listener for
    that name, by the route the policy gives the name, with a pending peer entry and one
    permit taken. *)
Theorem answered_name_is_routed `{!RegexLaws} (b : Broker) (e : locked_env) (i : nat) (q : request)
    (m : Resolver) (query resp dom proxy : bytes) (specs command : list bytes)
    (rs : list (RuleMatch * ProxyConfig)) (id port source_port : Z) (permits : nat) :
  load_config proxy specs command = Ok (b_config b) → parse_all specs = Ok rs →
  reachable m → parse_query query = Ret (Some (id, dom, 1%Z)) →
  answer m query = Ret (Some resp, resolver (b_dns b)) →
  resp = build_a_response id dom (sa_ip (q_target q)) → sa_port (q_target q) = port → port ≠ DNS_PORT →
  le_valid1 e = Ok () → state (le_kernel e) (q_fd q) = Ok TCP_CLOSE → le_valid2 e = Ok () →
  b_pending b = S permits → fst (prepare (le_bind e) (le_socket e)) = Ok source_port →
  ∃ r b',
    connect_locked e i q b = Ret (None, b') ∧
    b_jobs b' !! i = Some (Requesting (mkRequest (q_fd q) (q_cookie q) (q_target q) (q_lock q)
      (Connecting r false (TDomain dom port) (policy (default_proxy (b_config b)) rs (TDomain dom port))))) ∧
    r_socket r = q_fd q ∧ r_port r = source_port ∧ r ∈ live (b_ingress b') ∧
    b_peers b' !! q_cookie q = Some (mkPeer (q_target q) (i_address (ingress (b_ingress b))) (le_now e) true) ∧
    b_pending b' = permits.
Proof.
  intros Hc Hrs Hm Hq Ha Hresp Hport Hne Hv1 Hst Hv2 Hperm Hprep.
  destruct (load_config_policy _ _ _ _ Hc) as (rs' & Hrs' & _ & Hpol). rewrite Hrs in Hrs'. injection Hrs' as <-.
  destruct (answered_domain_is_target _ _ _ _ _ _ port Hm Hq Ha) as (ip & Hresp' & Ht & _).
  assert (Hip : sa_ip (q_target q) = ip) by (apply (build_a_response_ip id dom); congruence).
  assert (Htarget : proxy_target_of (b_dns b) (q_target q) = Ok (TDomain dom port)).
  { unfold proxy_target_of, is_dns. rewrite (proj2 (Z.eqb_neq _ _)) by congruence. unfold dns_target.
    destruct (q_target q) as [a p]; simpl in *. by subst. }
  unfold connect_locked. rewrite Hv1, Hst. change (negb (TCP_CLOSE =? TCP_CLOSE)%Z) with false. cbv iota.
  change (b_dns (set_peers _ b)) with (b_dns b). change (b_config (set_peers _ b)) with (b_config b).
  rewrite Htarget, Hpol. cbn [mbind outcome_bind is_ip]. rewrite andb_false_r. cbn [andb].
  change (b_pending (set_peers _ b)) with (b_pending b). rewrite Hperm, Hv2. unfold register at 1.
  destruct (prepare (le_bind e) (le_socket e)) as [[sp|?] s'] eqn:Ep; simpl in Hprep; [|done]. injection Hprep as ->.
  eexists _, _. split; [done|]. simpl. rewrite !lookup_insert_eq.
  assert (Hd : is_dns (q_target q) = false) by (unfold is_dns; apply Z.eqb_neq; congruence).
  rewrite Hd. split_and!; try done. apply elem_of_app. right. by apply list_elem_of_singleton.
Qed.
End broker.

(** ** Examples *)

#[local] Existing Instance LiteralRegex.engine.
#[local] Existing Instance LiteralRegex.laws.

(** A default SOCKS5 route and no rules. *)
Definition config_example : Config :=
  match load_config (lit "socks5://p:1") [] [] with
  | Ok c => c
  | Err _ => mkConfig Direct [] (mkMatcher None [] trie_empty)
  end.

Lemma config_example_loads : load_config (lit "socks5://p:1") [] [] = Ok config_example.
Proof. reflexivity. Qed.

(** Sockets that are not connected. *)
Definition closed_kernel : kernel :=
  mkKernel (λ _ _, Err (RawOs ENOTCONN)) (λ _ _ _, Err (RawOs EINVAL)) (λ _, Ok TCP_CLOSE) (λ _ _, Ok 0%Z).

Definition locked_example : locked_env :=
  mkLockedEnv (Ok ()) closed_kernel (Ok ()) quiet_env (mkTcpSocket (SockAddr (ipv4 0 0 0 0) 0) 0) 7.

Definition target_example : SocketAddrV4 := SockAddr (ipv4 1 2 3 4) 80.

Definition started : Broker := broker_new config_example dns_example listener_example.

(** Two connect calls on one socket, then the first gets the lock. *)
Definition first_called : Broker := connect_begin 0 10 5 target_example started.
Definition both_called : Broker := connect_begin 1 11 5 target_example first_called.

Definition first_request : request := mkRequest 10 5 target_example 0 Locking.

Definition first_connecting : Broker :=
  match connect_locked locked_example 0 first_request both_called with
  | Ret (_, b) => b
  | _ => both_called
  end.

Lemma first_connects : connect_locked locked_example 0 first_request both_called = Ret (None, first_connecting).
Proof.
  assert (Hn : match connect_locked locked_example 0 first_request both_called with
               | Ret (None, _) => true | _ => false end = true) by (vm_compute; reflexivity).
  unfold first_connecting. destruct (connect_locked locked_example 0 first_request both_called) as [[[r|] b]| |];
    [discriminate|reflexivity|discriminate..].
Qed.

Lemma both_called_jobs :
  b_jobs both_called = <[1 := Requesting (mkRequest 11 5 target_example 0 Locking)]> (<[0 := Requesting first_request]> ∅).
Proof. reflexivity. Qed.

Lemma first_connecting_reachable : broker_reachable first_connecting.
Proof.
  exists config_example, (Ok local_example), dns_example, listener_example.
  split; [exact dns_example_new|].
  apply (rtc_l _ _ first_called); [|apply (rtc_l _ _ both_called); [|apply rtc_once]].
  - apply bs_begin; [split; vm_compute; congruence|reflexivity|]. change (b_jobs started) with (∅ : gmap nat job). apply map_Forall_empty.
  - apply bs_begin; [split; vm_compute; congruence|reflexivity|]. intros i j. change (b_jobs first_called) with (<[0 := Requesting first_request]> (∅ : gmap nat job)).
    rewrite lookup_insert_Some, lookup_empty. by intros [[_ <-]|[_ ?]].
  - apply (bs_locked _ locked_example 0 first_request None); [reflexivity|reflexivity| |exact first_connects].
    rewrite both_called_jobs. intros i j. rewrite !lookup_insert_Some, lookup_empty.
    by intros [[_ <-]|[_ [[_ <-]|[_ ?]]]].
Qed.

(** The job of the first call once it connects, whatever its registration. *)
Lemma first_connecting_job : ∃ q, b_jobs first_connecting !! 0 = Some (Requesting q) ∧ q_cookie q = 5%Z ∧ connecting q.
Proof.
  destruct (b_jobs first_connecting !! 0) as [[q|]|] eqn:E.
  - exists q. split; [done|].
    assert (Hc : match b_jobs first_connecting !! 0 with
                 | Some (Requesting (mkRequest _ c _ _ (Connecting _ _ _ _))) => (c =? 5)%Z
                 | _ => false end = true) by (vm_compute; reflexivity).
    rewrite E in Hc. destruct q as [fd c t l []]; try discriminate. split; [by apply Z.eqb_eq|exact I].
  - assert (Hc : match b_jobs first_connecting !! 0 with Some (Relaying _) => false | _ => true end = true)
      by (vm_compute; reflexivity). by rewrite E in Hc.
  - assert (Hc : match b_jobs first_connecting !! 0 with None => false | _ => true end = true)
      by (vm_compute; reflexivity). by rewrite E in Hc.
Qed.

Lemma socket_lock_excludes_witness :
  ∃ q, b_jobs first_connecting !! 0 = Some (Requesting q) ∧
       ∀ k q', b_jobs first_connecting !! k = Some (Requesting q') → q_cookie q' = 5%Z → q_phase q' ≠ Locking → k = 0.
Proof.
  destruct first_connecting_job as (q & Hq & Hc & Hcon). exists q. split; [exact Hq|]. intros k q' Hk Hc' Hp.
  symmetry. apply (socket_lock_excludes first_connecting 0 k q q' first_connecting_reachable Hq Hk).
  - by rewrite Hc, Hc'.
  - intros E. unfold connecting in Hcon. by rewrite E in Hcon.
  - exact Hp.
Defined.

Lemma pending_peers_in_flight_witness :
  ∃ p, b_peers first_connecting !! 5%Z = Some p ∧ pe_internal p = listener_example ∧ pe_pending p = true.
Proof.
  assert (Hc : match b_peers first_connecting !! 5%Z with Some p => pe_pending p | None => false end = true)
    by (vm_compute; reflexivity).
  destruct (b_peers first_connecting !! 5%Z) as [p|] eqn:E; [|discriminate]. exists p. split; [reflexivity|].
  destruct (pending_peers_in_flight first_connecting 5 p first_connecting_reachable E) as [Hi Hp].
  split; [|exact Hc]. rewrite Hi. vm_compute. reflexivity.
Defined.

Lemma connections_bounded_witness :
  b_pending first_connecting = 127 ∧ permits_used (b_jobs first_connecting) = 1 ∧ length (live (b_ingress first_connecting)) ≤ 1.
Proof.
  destruct (connections_bounded first_connecting first_connecting_reachable) as (Hp & Hl & _).
  assert (E : b_pending first_connecting = 127) by (vm_compute; reflexivity).
  rewrite E in Hp. unfold PENDING in Hp. assert (Hu : permits_used (b_jobs first_connecting) = 1) by lia.
  split; [exact E|]. split; [exact Hu|]. rewrite Hu in Hl. exact Hl.
Defined.

(** The broker after it answered the query for [a]. *)
Definition answered : Broker :=
  mkBroker config_example (mkDns table_example (servers dns_example) (tasks dns_example))
    (initial listener_example) ∅ ∅ 0 PENDING ∅.

Lemma answered_name_is_routed_witness :
  let q := mkRequest 10 5 (SockAddr address_example 443) 0 Locking in
  ∃ r b' route, connect_locked locked_example 0 q answered = Ret (None, b') ∧
    b_jobs b' !! 0 = Some (Requesting (mkRequest 10 5 (SockAddr address_example 443) 0
      (Connecting r false (TDomain (lit "a") 443) route))) ∧
    parse (lit "socks5://p:1") = Ok route.
Proof.
  intros q.
  destruct (answered_name_is_routed answered locked_example 0 q FakeDns.new query_example reply_example (lit "a")
    (lit "socks5://p:1") [] [] [] 7 443 6000 127) as (r & b' & Hc & Hj & _).
  - exact config_example_loads.
  - reflexivity.
  - exact reachable_new.
  - exact query_example_parses.
  - exact (answer_example FakeDns.new).
  - reflexivity.
  - reflexivity.
  - discriminate.
  - reflexivity.
  - reflexivity.
  - reflexivity.
  - reflexivity.
  - reflexivity.
  - exists r, b', (policy (default_proxy config_example) [] (TDomain (lit "a") 443)).
    split; [exact Hc|]. split; [exact Hj|]. reflexivity.
Defined.
