(* ===== verification/Connections.v ===== *)
(** * The connection table: an abstract machine that src/broker/tcp.rs refines

    Seen from outside, the broker keeps for each socket, by its cookie, whether
    a proxied connection is being opened or is open, and the address the
    command asked for. [conn_next] is that machine: a socket is opened at most
    once at a time, an opening ends in [Opens] or [Abandons], and only what
    is not being opened is ever forgotten. Every step of the broker (Broker.v)
    is at most one event of it, the event is determined for each operation,
    and peer names are read off its state. *)
From S2P Require Import Prelude RustStd Net FakeDns Stream Proxy Rule Config Dns.
From S2P Require Import Seccomp Access Memory TcpBind Sockets Ingress Files Tcp Broker.

(** ** The abstract machine *)

Inductive conn :=
| Opening (target : SocketAddrV4)
| Established (target : SocketAddrV4).

Definition conn_target (c : conn) : SocketAddrV4 := match c with Opening t | Established t => t end.

Definition is_opening (c : conn) : bool := match c with Opening _ => true | Established _ => false end.

Inductive conn_event :=
| Begins (cookie : Z) (target : SocketAddrV4)
| Opens (cookie : Z)
| Abandons (cookie : Z)
| Forgets (cookies : gset Z).

Definition opening_at (m : gmap Z conn) (c : Z) : bool := default false (is_opening <$> m !! c).

Definition forget (cookies : gset Z) (m : gmap Z conn) : gmap Z conn := base.filter (λ e, fst e ∉ cookies) m.

Definition conn_next (m : gmap Z conn) (e : conn_event) : option (gmap Z conn) :=
  match e with
  | Begins c t => if opening_at m c then None else Some (<[c := Opening t]> m)
  | Opens c => match m !! c with Some (Opening t) => Some (<[c := Established t]> m) | _ => None end
  | Abandons c => match m !! c with Some (Opening _) => Some (delete c m) | _ => None end
  | Forgets cookies =>
      if bool_decide (set_Forall (λ c, opening_at m c = false) cookies) then Some (forget cookies m) else None
  end.

(** One event, or none. *)
Definition conn_step (m : gmap Z conn) (e : option conn_event) : option (gmap Z conn) :=
  match e with None => Some m | Some e => conn_next m e end.

Lemma forget_one m c : forget {[c]} m = delete c m.
Proof.
  apply map_eq. intros x. unfold forget. destruct (decide (x = c)) as [->|Hx].
  - rewrite lookup_delete_eq. apply map_lookup_filter_None. right. intros y _. simpl. set_solver.
  - rewrite lookup_delete_ne by done. destruct (m !! x) as [y|] eqn:E.
    + apply map_lookup_filter_Some. split; [done|]. simpl. set_solver.
    + apply map_lookup_filter_None. by left.
Qed.

Lemma forgets_one m c : opening_at m c = false → conn_next m (Forgets {[c]}) = Some (delete c m).
Proof.
  intros Hc. simpl. rewrite bool_decide_true; [by rewrite forget_one|]. by intros x ->%elem_of_singleton.
Qed.

(** ** What the broker's state stands for *)

Definition peer_conn (p : Peer) : conn := if pe_pending p then Opening (pe_target p) else Established (pe_target p).

Section refinement.
Context `{RegexEngine}.

Definition table_of (b : Broker) : gmap Z conn := peer_conn <$> b_peers b.

Lemma opening_at_table b c :
  opening_at (table_of b) c = default false (pe_pending <$> b_peers b !! c).
Proof.
  unfold opening_at, table_of. rewrite lookup_fmap. destruct (b_peers b !! c) as [p|]; [|done]. simpl.
  unfold peer_conn. by destruct (pe_pending p).
Qed.

(** A call that takes the lock finds no opening on its socket. *)
Lemma locking_not_opening b i q :
  broker_ok b → b_jobs b !! i = Some (Requesting q) → no_guard (q_lock q) (b_jobs b) →
  opening_at (table_of b) (q_cookie q) = false.
Proof.
  intros [Hl [Hc Hp Hi] _ _] Hq Hg. rewrite opening_at_table.
  destruct (b_peers b !! q_cookie q) as [p|] eqn:E; [|done]. simpl.
  destruct (pe_pending p) eqn:Ep; [|done]. exfalso.
  destruct (Hp _ _ E Ep) as (k & q' & Hk & Hcon & Hck).
  pose proof (lk_table _ _ _ Hl _ _ Hq) as H1. pose proof (lk_table _ _ _ Hl _ _ Hk) as H2.
  rewrite Hck, H1 in H2. injection H2 as Hll.
  pose proof (Hg k _ Hk) as Hn. rewrite Hll in Hn. by rewrite (locked_connecting q' Hcon) in Hn.
Qed.

(** A connecting call has its entry, being opened. *)
Lemma connecting_entry b i q :
  broker_ok b → b_jobs b !! i = Some (Requesting q) → connecting q →
  ∃ p, b_peers b !! q_cookie q = Some p ∧ pe_pending p = true.
Proof. intros [_ [Hc _ _] _ _] Hq Hcon. destruct (Hc _ _ Hq Hcon) as (p & Hp & Hpp & _). eauto. Qed.

Lemma table_lookup_opening b c p :
  b_peers b !! c = Some p → pe_pending p = true → table_of b !! c = Some (Opening (pe_target p)).
Proof. intros E Ep. unfold table_of. rewrite lookup_fmap, E. simpl. unfold peer_conn. by rewrite Ep. Qed.

(** A change of the peer table that is one event. *)
Definition performs (b b' : Broker) (e : option conn_event) : Prop := conn_step (table_of b) e = Some (table_of b').

Lemma performs_none b b' : b_peers b' = b_peers b → performs b b' None.
Proof. intros E. unfold performs, table_of. by rewrite E. Qed.

Lemma performs_forget b b' c :
  opening_at (table_of b) c = false → b_peers b' = delete c (b_peers b) → performs b b' (Some (Forgets {[c]})).
Proof.
  intros Hc E. unfold performs, conn_step. rewrite forgets_one by done.
  unfold table_of. by rewrite E, fmap_delete.
Qed.

Lemma performs_begin b b' c t internal now :
  opening_at (table_of b) c = false → b_peers b' = <[c := mkPeer t internal now true]> (delete c (b_peers b)) →
  performs b b' (Some (Begins c t)).
Proof.
  intros Hc E. unfold performs. cbn [conn_step conn_next]. rewrite Hc.
  unfold table_of. by rewrite E, fmap_insert, fmap_delete, insert_delete_eq.
Qed.

Lemma performs_abandon b b' c p :
  b_peers b !! c = Some p → pe_pending p = true → b_peers b' = delete c (b_peers b) →
  performs b b' (Some (Abandons c)).
Proof.
  intros Hp Hpp E. unfold performs. cbn [conn_step conn_next]. rewrite (table_lookup_opening _ _ _ Hp Hpp).
  unfold table_of. by rewrite E, fmap_delete.
Qed.

Lemma performs_open b b' c p now :
  b_peers b !! c = Some p → pe_pending p = true → b_peers b' = alter (settle now) c (b_peers b) →
  performs b b' (Some (Opens c)).
Proof.
  intros Hp Hpp E. unfold performs. cbn [conn_step conn_next]. rewrite (table_lookup_opening _ _ _ Hp Hpp).
  f_equal. apply map_eq. intros x. unfold table_of. rewrite E, lookup_fmap.
  destruct (decide (x = c)) as [->|Hx].
  - by rewrite lookup_insert_eq, lookup_alter_eq, Hp.
  - by rewrite lookup_insert_ne, lookup_alter_ne, lookup_fmap by done.
Qed.

(** ** The event of each operation *)

(** The task of index [i] is waiting for its connect call. *)
Definition is_connecting (i : nat) (b : Broker) : bool :=
  match b_jobs b !! i with
  | Some (Requesting q) => match q_phase q with Connecting _ _ _ _ => true | _ => false end
  | _ => false
  end.

(** Taking the lock begins a connection exactly when the task goes on to
    connect, and otherwise leaves the table or forgets the socket. *)
Definition locked_event (i : nat) (q : request) (b' : Broker) : option conn_event :=
  if is_connecting i b' then Some (Begins (q_cookie q) (q_target q))
  else match b_peers b' !! q_cookie q with Some _ => None | None => Some (Forgets {[q_cookie q]}) end.

(** The connect call opens the connection when it succeeded or is in progress. *)
Definition finish_event (result : io ()) (q : request) : conn_event :=
  match result with
  | Err error => if bool_decide (raw_os_error error = Some EINPROGRESS) then Opens (q_cookie q) else Abandons (q_cookie q)
  | Ok _ => Opens (q_cookie q)
  end.

Lemma is_connecting_deleted i b : is_connecting i (set_jobs (delete i) b) = false.
Proof. unfold is_connecting. simpl. by rewrite lookup_delete_eq. Qed.

Lemma locked_event_kept i q b b' :
  is_connecting i b' = false → opening_at (table_of b) (q_cookie q) = false →
  b_peers b' = b_peers b → performs b b' (locked_event i q b').
Proof.
  intros Hi Hc E. unfold locked_event. rewrite Hi. destruct (b_peers b' !! q_cookie q) eqn:Ep; [by apply performs_none|].
  apply performs_forget; [done|]. by rewrite delete_id; [|rewrite <-E].
Qed.

Lemma locked_event_dropped i q b b' :
  is_connecting i b' = false → opening_at (table_of b) (q_cookie q) = false →
  b_peers b' = delete (q_cookie q) (b_peers b) → performs b b' (locked_event i q b').
Proof. intros Hi Hc E. unfold locked_event. rewrite Hi, E, lookup_delete_eq. by apply performs_forget. Qed.

Lemma connect_locked_event e i q b r b' :
  opening_at (table_of b) (q_cookie q) = false → connect_locked e i q b = Ret (r, b') →
  performs b b' (locked_event i q b').
Proof.
  intros Hc. unfold connect_locked, finished.
  destruct (le_valid1 e); [|intros [= <- <-]; apply locked_event_kept; [|done..]; apply is_connecting_deleted].
  destruct (state _ _) as [st|]; [|intros [= <- <-]; apply locked_event_kept; [|done..]; apply is_connecting_deleted].
  destruct (negb (st =? TCP_CLOSE)%Z).
  { destruct (b_peers b !! q_cookie q); intros [= H1 H2]; subst; apply locked_event_kept; try done;
      unfold is_connecting; simpl; by rewrite ?lookup_insert_eq, ?lookup_delete_eq. }
  destruct (proxy_target_of _ _) as [target|]; [|intros [= <- <-]; apply locked_event_dropped; [|done..]; apply is_connecting_deleted].
  destruct (proxy_for _ target) as [route| |]; [|done|done]. cbn [mbind outcome_bind].
  destruct (_ && bool_decide (route = Direct)); [intros [= <- <-]; apply locked_event_dropped; [|done..]; apply is_connecting_deleted|].
  destruct (b_pending _); [intros [= <- <-]; apply locked_event_dropped; [|done..]; apply is_connecting_deleted|].
  destruct (le_valid2 e); [|intros [= <- <-]; apply locked_event_dropped; [|done..]; apply is_connecting_deleted].
  destruct (register _ _ _ _) as [[[reg|err] s] w]; intros [= <- <-].
  - unfold locked_event. unfold is_connecting at 1. simpl. rewrite lookup_insert_eq. simpl. by eapply performs_begin.
  - apply locked_event_dropped; [apply is_connecting_deleted|exact Hc|].
    simpl. by rewrite delete_insert_eq, delete_delete_eq.
Qed.

Lemma connect_finish_event now result i q b :
  broker_ok b → b_jobs b !! i = Some (Requesting q) → connecting q →
  performs b (snd (connect_finish now result i q b)) (Some (finish_event result q)).
Proof.
  intros Hok Hi Hcon. destruct (connecting_entry b i q Hok Hi Hcon) as (p & Hp & Hpp).
  unfold connecting in Hcon. unfold connect_finish, finish_event. destruct (q_phase q); [done..|].
  destruct result as [[]|error]; [by eapply performs_open|].
  case_bool_decide; simpl; [by eapply performs_open|by eapply performs_abandon].
Qed.

Lemma connect_cancel_event i q b :
  broker_ok b → b_jobs b !! i = Some (Requesting q) → connecting q →
  performs b (connect_cancel i q b) (Some (Abandons (q_cookie q))).
Proof.
  intros Hok Hi Hcon. destruct (connecting_entry b i q Hok Hi Hcon) as (p & Hp & Hpp).
  unfold connecting in Hcon. unfold connect_cancel. destruct (q_phase q); [done..|]. by eapply performs_abandon.
Qed.

Lemma retain_peers_event started cookies b :
  performs b (retain_peers started cookies b)
    (Some (Forgets (dom (b_peers b) ∖ dom (b_peers (retain_peers started cookies b))))).
Proof.
  unfold performs. cbn [conn_step conn_next]. rewrite bool_decide_true.
  - f_equal. apply map_eq. intros c. unfold forget, table_of. simpl.
    rewrite lookup_fmap. destruct (base.filter _ (b_peers b) !! c) as [p|] eqn:E.
    + apply map_lookup_filter_Some. pose proof (elem_of_dom_2 _ _ _ E). apply map_lookup_filter_Some in E as [E _].
      rewrite lookup_fmap, E. split; [done|]. simpl. set_solver.
    + apply map_lookup_filter_None. rewrite lookup_fmap. destruct (b_peers b !! c) as [p|] eqn:Ep; [right|by left].
      intros y _. simpl. apply elem_of_dom_2 in Ep. apply not_elem_of_dom in E. set_solver.
  - intros c [[p Hp]%elem_of_dom Hn%not_elem_of_dom]%elem_of_difference. rewrite opening_at_table, Hp. simpl.
    destruct (pe_pending p) eqn:Epp; [|done]. exfalso. simpl in Hn.
    apply map_lookup_filter_None in Hn as [Hn|Hn]; [congruence|]. apply (Hn p Hp). by left.
Qed.

Lemma broker_step_event b b' : broker_ok b → broker_step b b' → ∃ e, performs b b' e.
Proof.
  intros Hok Hs. destruct Hs as [i fd cookie target _ _ _|e i q r b' Hi _ Hg Hl|now result i q Hi|i q Hi|i y r arrived Hi _ _
    |i y connected Hi _|i y Hi|k stream source|started cookies| |d _].
  - exists None. apply performs_none. unfold connect_begin, lock_for.
    destruct (b_locks b !! cookie) as [l|]; [destruct (lock_alive b l)|]; reflexivity.
  - eexists. eapply connect_locked_event; [|exact Hl]. by eapply locking_not_opening.
  - destruct (q_phase q) eqn:Eq; [exists None; unfold connect_finish; rewrite Eq; by apply performs_none..|].
    eexists. apply connect_finish_event; [done..|]. unfold connecting. by rewrite Eq.
  - destruct (q_phase q) eqn:Eq; [exists None; unfold connect_cancel; rewrite Eq; by apply performs_none..|].
    eexists. apply connect_cancel_event; [done..|]. unfold connecting. by rewrite Eq.
  - exists None. apply performs_none. unfold relay_accept. by destruct (y_dns y), arrived.
  - exists None. by apply performs_none.
  - exists None. apply performs_none. unfold relay_drop. by destruct (y_phase y).
  - exists None. by apply performs_none.
  - eexists. apply retain_peers_event.
  - exists None. by apply performs_none.
  - exists None. by apply performs_none.
Qed.

(** What a socket's peer name is, read off the abstract state. *)
Lemma tcp_target_table b k fd socket_option target :
  broker_ok b →
  tcp_target k fd socket_option b = Ok (Some target) ↔
  ∃ c conn, cookie k fd = Ok c ∧ table_of b !! c = Some conn ∧ conn_target conn = target ∧
    peer_address k fd socket_option = Ok (i_address (ingress (b_ingress b))).
Proof.
  intros [_ [_ _ Hint] _ _]. unfold tcp_target, table_of.
  destruct (cookie k fd) as [c|]; cbn [mbind result_bind]; [|by split; [|intros (? & ? & ? & _)]].
  destruct (b_peers b !! c) as [p|] eqn:Ep.
  - pose proof (Hint _ _ Ep) as Hin.
    assert (Ht : conn_target (peer_conn p) = pe_target p) by (unfold peer_conn; by destruct (pe_pending p)).
    destruct (peer_address k fd socket_option) as [actual|err] eqn:Ea.
    + case_bool_decide as Ha; (split; [intros [= <-]|intros (c' & cn & [= <-] & Hc & Hct & [= Hac])]).
      * exists c, (peer_conn p). rewrite lookup_fmap, Ep. split_and!; [done..|]. by rewrite Ha, Hin.
      * rewrite lookup_fmap, Ep in Hc. simplify_eq/=. by rewrite Ht.
      * congruence.
    + split; [by case_bool_decide|by intros (? & ? & _ & _ & _ & ?)].
  - split; [done|]. intros (c' & cn & [= <-] & Hc & _). by rewrite lookup_fmap, Ep in Hc.
Qed.

(** ** Theorems *)

(** C11: The broker refines an abstract connection table: every step of a reachable broker
    is at most one event of it, a call that takes the lock begins a connection exactly when
    it goes on to connect, a connect that ended or is in progress opens it, a failed or
    dropped one abandons it, and peer names are exactly what the table says. *)
Theorem broker_refines_connections (b : Broker) :
  broker_reachable b →
  (∀ b', broker_step b b' → ∃ e, conn_step (table_of b) e = Some (table_of b')) ∧
  (∀ e i q r b', b_jobs b !! i = Some (Requesting q) → no_guard (q_lock q) (b_jobs b) →
     connect_locked e i q b = Ret (r, b') → conn_step (table_of b) (locked_event i q b') = Some (table_of b')) ∧
  (∀ now result i q, b_jobs b !! i = Some (Requesting q) → connecting q →
     conn_next (table_of b) (finish_event result q) = Some (table_of (snd (connect_finish now result i q b))) ∧
     conn_next (table_of b) (Abandons (q_cookie q)) = Some (table_of (connect_cancel i q b))) ∧
  (∀ k fd socket_option target,
     tcp_target k fd socket_option b = Ok (Some target) ↔
     ∃ c conn, cookie k fd = Ok c ∧ table_of b !! c = Some conn ∧ conn_target conn = target ∧
       peer_address k fd socket_option = Ok (i_address (ingress (b_ingress b)))).
Proof.
  intros Hr. pose proof (broker_reachable_ok b Hr) as Hok. split_and!.
  - intros b' Hs. by apply broker_step_event.
  - intros e i q r b' Hi Hg Hl. eapply connect_locked_event; [|exact Hl]. by eapply locking_not_opening.
  - intros now result i q Hi Hcon. split; [by apply connect_finish_event|by apply connect_cancel_event].
  - intros k fd socket_option target. by apply tcp_target_table.
Qed.
End refinement.

(** ** Examples *)

#[local] Existing Instance LiteralRegex.engine.
#[local] Existing Instance LiteralRegex.laws.

(** The socket of cookie 5 is being opened while a second call on it waits;
    the kernel then reports the connection in progress. *)
Lemma broker_refines_connections_witness :
  table_of first_connecting !! 5%Z = Some (Opening target_example) ∧
  ∃ b', conn_next (table_of first_connecting) (Opens 5) = Some (table_of b').
Proof.
  split; [vm_compute; reflexivity|].
  destruct first_connecting_job as (q & Hq & Hc & Hcon).
  exists (snd (connect_finish 8 (Err (RawOs EINPROGRESS)) 0 q first_connecting)).
  destruct (broker_refines_connections first_connecting first_connecting_reachable) as (_ & _ & Hf & _).
  destruct (Hf 8%Z (Err (RawOs EINPROGRESS)) 0 q Hq Hcon) as [Hf' _]. rewrite <-Hc. exact Hf'.
Defined.
