(* ===== verification/Datagram.v ===== *)
(** * DNS datagrams: src/broker/datagram.rs

    The handler of the calls on IPv4 UDP sockets. Its state is the memory of
    the caller, the DNS tables, the attempts the kernel will answer and a log
    of what left the socket. An [attempt] is one round of the loop in
    [transfer]: the answers of the notification check, of recvmsg or sendmsg
    (a function of the message header and flags it is given), of fcntl, of the
    clock and of the readiness wait. A call whose attempts run
    out is still waiting ([Waiting]). Time is in nanoseconds. *)
From S2P Require Import Prelude RustStd Net FakeDns Stream Proxy Dns.
From S2P Require Import Seccomp Access Memory Message Sockets Files.

Definition MSG_WAITFORONE : Z := 0x10000.
Definition MSG_NOSIGNAL : Z := 0x4000.
Definition SECOND : Z := 1000000000.

(** A clock reading that does not fit [Instant]. *)
Definition INSTANT_LIMIT : Z := (2 ^ 63 * SECOND)%Z.

(** What recvmsg stored: the length of the datagram, the bytes in the buffer,
    its source, the control bytes and the flags. *)
Record received := mkReceived {
  rv_length : nat;
  rv_data : bytes;
  rv_source : SocketAddrV4;
  rv_control : bytes;
  rv_flags : Z;
}.

(** The msghdr of a call: the sockaddr at [msg_name], the one buffer of
    [msg_iov], and [msg_control] unless it is null. *)
Record msghdr := mkMsghdr {
  h_name : bytes;
  h_payload : bytes;
  h_control : option bytes;
}.

(** What the call leaves: its result and errno, and the buffers, the control
    bytes and the flags of the header. *)
Record answered_call := mkAnswered {
  an_count : Z;
  an_errno : Z;
  an_payload : bytes;
  an_name : bytes;
  an_control : bytes;
  an_flags : Z;
}.

Definition answer_of (r : answered_call) : io received :=
  if (an_count r <? 0)%Z then Err (RawOs (an_errno r))
  else Ok (mkReceived (Z.to_nat (an_count r)) (an_payload r) (decode (an_name r)) (an_control r) (an_flags r)).

(** One recvmsg or sendmsg. *)
Definition transfer_now (kernel : msghdr → Z → answered_call) (target : SocketAddrV4) (payload control : bytes)
    (flags : Z) (receive : bool) : io received :=
  let message := mkMsghdr (sockaddr target) payload (if bool_decide (control = []) then None else Some control) in
  answer_of (kernel message (if receive then Z.lor flags MSG_DONTWAIT
                             else Z.lor (Z.lor flags MSG_DONTWAIT) MSG_NOSIGNAL)).

Record attempt := mkAttempt {
  at_valid : io ();
  at_kernel : msghdr → Z → answered_call;
  at_deliverable : io ();
  at_status : io Z;
  at_now : Z;
  at_ready : io ();
}.

(** A datagram handed to sendmsg, or an address handed to connect. *)
Inductive traffic :=
| Sent (destination : SocketAddrV4) (payload control : bytes) (flags : Z)
| Connected (destination : SocketAddrV4).

Inductive stop :=
| Failed (e : io_error)
| Waiting.

(** The answers outside the loop. *)
Record dg_env := mkDgEnv {
  dg_kernel : kernel;
  dg_bound : nat → io SocketAddrV4;
  dg_connect : io ();
  dg_async : io ();
  dg_timeout : io (Z * Z);
  dg_valid : nat → io ();
  dg_valid_end : io ();
  dg_now : Z;
  dg_now_batch : Z;
  dg_now_end : Z;
  dg_now_check : Z;
}.

(** The flags of one message of a batch. *)
Definition message_flags (index : nat) (receive : bool) (flags : Z) : Z :=
  Z.land (if bool_decide (0 < index) && receive && has flags MSG_WAITFORONE
          then Z.lor flags MSG_DONTWAIT else flags)
    (Z.lnot MSG_WAITFORONE).

Definition min_deadline (a b : option Z) : option Z :=
  match a, b with
  | Some a, Some b => Some (Z.min a b)
  | Some a, None => Some a
  | None, b => b
  end.

Definition signed64 (z : Z) : Z := if (z <? 2 ^ 63)%Z then z else (z - 2 ^ 64)%Z.

Create HintDb datagram.

Section datagram.
Context {T : Type} {TM : TargetMemory T}.

Record Dg := mkDg {
  dg_mem : T;
  dg_dns : Dns;
  dg_attempts : list attempt;
  dg_log : list traffic;
}.

Abbreviation DM := (M Dg stop).

Definition fail {A} (e : io_error) : DM A := mfail (Failed e).
Definition io_result {A} (r : io A) : DM A := lift_result (map_err Failed r).

Definition in_memory {A} (m : M T io_error A) : DM A :=
  λ s, let '(r, t) := m (dg_mem s) in
       (map_err Failed r, mkDg t (dg_dns s) (dg_attempts s) (dg_log s)).

Definition in_dns {A} (m : M Dns io_error A) : DM A :=
  λ s, let '(r, d) := m (dg_dns s) in
       (map_err Failed r, mkDg (dg_mem s) d (dg_attempts s) (dg_log s)).

Definition known_server (l : SocketAddrV4) : DM (option SocketAddrV4) :=
  λ s, (Ok (original_server (dg_dns s) l), s).

Definition record_traffic (t : traffic) : DM () :=
  λ s, (Ok (), mkDg (dg_mem s) (dg_dns s) (dg_attempts s) (dg_log s ++ [t])).

(** A call whose failure is kept for later; a wait is not a failure. *)
Definition attempted {A} (m : DM A) : DM (io A) :=
  λ s, match m s with
       | (Ok a, s) => (Ok (Ok a), s)
       | (Err (Failed e), s) => (Ok (Err e), s)
       | (Err Waiting, s) => (Err Waiting, s)
       end.

Definition next_attempt : DM attempt :=
  λ s, match dg_attempts s with
       | [] => (Err Waiting, s)
       | a :: rest => (Ok a, mkDg (dg_mem s) (dg_dns s) rest (dg_log s))
       end.

(** Where a datagram may go. *)
Definition destination_of (env : dg_env) (index : nat) (fd tid : Z) (message : Message) (receive : bool)
    : DM SocketAddrV4 :=
  if receive then mret (SockAddr (ipv4 0 0 0 0) 0)
  else if negb (name message =? 0)%Z then
    target ← in_memory (ipv4_at tid (name message) (name_length message));
    in_dns (server_for (dg_bound env index) target)
  else
    match sock_address (dg_kernel env) fd true with
    | Ok address =>
        server ← known_server address;
        match server with Some _ => mret address | None => fail (RawOs ENETUNREACH) end
    | Err _ => fail (RawOs EDESTADDRREQ)
    end.

(** The loop of [transfer]: structural in the attempts still to come. *)
Fixpoint transfer_loop (fuel : list attempt) (tid : Z) (message : Message) (destination : SocketAddrV4)
    (payload control : bytes) (capacity : nat) (flags : Z) (deadline : option Z) (receive : bool) : DM nat :=
  match fuel with
  | [] => mfail Waiting
  | _ :: fuel =>
      a ← next_attempt;
      _ ← io_result (at_valid a);
      _ ← (if receive then mret ()
           else record_traffic (Sent destination payload control (Z.lor (Z.lor flags MSG_DONTWAIT) MSG_NOSIGNAL)));
      match transfer_now (at_kernel a) destination payload control flags receive with
      | Ok r =>
          _ ← (if receive then
                 _ ← io_result (at_deliverable a);
                 _ ← in_memory (write_payload message tid (take (min (rv_length r) capacity) (rv_data r)));
                 server ← known_server (rv_source r);
                 in_memory (finish message tid (default (rv_source r) server) (rv_control r) (rv_flags r))
               else mret ());
          mret (rv_length r)
      | Err error =>
          if bool_decide (kind error = WouldBlock) then
            blocking ← io_result (nonblocking (at_status a) flags);
            if (blocking : bool) || match deadline with Some d => (d <=? at_now a)%Z | None => false end
            then fail error else
            _ ← io_result (at_ready a);
            transfer_loop fuel tid message destination payload control capacity flags deadline receive
          else if bool_decide (kind error = Interrupted)
          then transfer_loop fuel tid message destination payload control capacity flags deadline receive
          else fail error
      end
  end.

Definition MAX_DATAGRAM : Z := 65536.

Definition transfer (env : dg_env) (index : nat) (fd tid : Z) (message : Message) (flags : Z)
    (deadline : option Z) (receive : bool) : DM nat :=
  cap ← io_result (capacity message);
  let cap := Z.to_nat (Z.min cap MAX_DATAGRAM) in
  if negb receive && (MAX_DATAGRAM <? control_length message)%Z then fail (RawOs ENOBUFS) else
  payload ← (if receive then mret (replicate cap x00) else in_memory (read_payload message tid));
  control ← (if receive then mret (replicate (Z.to_nat (Z.min (control_length message) MAX_DATAGRAM)) x00)
             else in_memory (read tid (Message.control message) (Z.to_nat (control_length message))));
  destination ← destination_of env index fd tid message receive;
  s ← mget;
  transfer_loop (dg_attempts s) tid message destination payload control cap flags deadline receive.

(** ** The handler *)

Record call_kind := mkCall { c_receive : bool; c_batch : bool; c_flat : bool; c_recvmmsg : bool }.

Definition kind_of (a : target_arch) (d : Data) : call_kind :=
  mkCall (called a d SYS_recvfrom || called a d SYS_recvmsg || called a d SYS_recvmmsg)
    (called a d SYS_sendmmsg || called a d SYS_recvmmsg)
    (called a d SYS_sendto || called a d SYS_recvfrom) (called a d SYS_recvmmsg).

Definition call_flags (c : call_kind) (d : Data) : Z :=
  as_i32 (if c_flat c || c_batch c then arg d 3 else arg d 2).

(** [args[4]] of recvmmsg. *)
Definition batch_deadline (env : dg_env) (c : call_kind) (tid : Z) (d : Data) : DM (option Z) :=
  if c_recvmmsg c && negb (arg d 4 =? 0)%Z then
    bs ← in_memory (read tid (arg d 4) 16);
    let seconds := signed64 (le_value (take 8 bs)) in
    let nanos := signed64 (le_value (drop 8 bs)) in
    if (seconds <? 0)%Z || negb ((0 <=? nanos)%Z && (nanos <? SECOND)%Z) then fail (RawOs EINVAL) else
    let deadline := (dg_now_batch env + seconds * SECOND + nanos)%Z in
    if (INSTANT_LIMIT <=? deadline)%Z then fail (RawOs EINVAL) else mret (Some deadline)
  else mret None.

(** [Instant::now() + Duration]. The sum stays below [INSTANT_LIMIT]: the kernel
    keeps a socket timeout as jiffies in a long, so what getsockopt reports is
    below 2^63 / HZ seconds, and the panic of the addition is not reached. *)
Definition socket_deadline (env : dg_env) : io (option Z) :=
  t ← dg_timeout env;
  let '(sec, usec) := t in
  Ok (if (sec =? 0)%Z && (usec =? 0)%Z then None
      else Some (dg_now env + Z.max sec 0 * SECOND + Z.max usec 0 * 1000)%Z).

Definition MAX_BATCH : Z := 1024.

Definition batch_count (c : call_kind) (d : Data) : nat :=
  if c_batch c then Z.to_nat (Z.min (arg d 2 mod 2 ^ 32) MAX_BATCH) else 1.

(** How the loop over the messages ended. *)
Inductive batch_end :=
| Returned (r : Reply)
| Ended (completed : nat) (result : io ()).

Fixpoint messages (env : dg_env) (c : call_kind) (tid fd : Z) (d : Data) (deadline : option Z)
    (todo index completed : nat) : DM batch_end :=
  match todo with
  | O => mret (Ended completed (Ok ()))
  | S todo =>
      let header := (arg d 1 + Z.of_nat index * 64)%Z in
      if (U64_MAX <? header)%Z then fail (RawOs EFAULT) else
      operation ← attempted
        (message ← in_memory (if c_flat c
                              then flat tid (arg d 1) (arg d 2) (arg d 4) (arg d 5) (c_receive c)
                              else read_header tid header);
         transfer env index fd tid message (message_flags index (c_receive c) (call_flags c d)) deadline (c_receive c));
      match operation with
      | Ok length =>
          if negb (c_batch c) then mret (Returned (RValue (Z.of_nat length))) else
          _ ← io_result (dg_valid env index);
          written ← attempted (in_memory (poke tid (header + 56) (le_bytes 4 (Z.of_nat length))));
          match written with
          | Err error => mret (Ended completed (Err error))
          | Ok _ => messages env c tid fd d deadline todo (S index) (S completed)
          end
      | Err error => mret (Ended completed (Err error))
      end
  end.

Definition no_error (result : io ()) : option Z := match result with Err e => raw_os_error e | Ok _ => None end.

Definition remaining_bytes (deadline now : Z) : bytes :=
  let remaining := Z.max (deadline - now) 0 in
  le_bytes 8 (remaining / SECOND) ++ le_bytes 8 (remaining mod SECOND).

Definition transfers (env : dg_env) (a : target_arch) (fd : Z) (n : Notification) : DM Reply :=
  let d := ndata n in
  let c := kind_of a d in
  _ ← io_result (dg_async env);
  own ← io_result (socket_deadline env);
  batch ← batch_deadline env c (npid n) d;
  ended ← messages env c (npid n) fd d (min_deadline own batch) (batch_count c d) 0 0;
  match ended with
  | Returned r => mret r
  | Ended completed result =>
      expired ← match batch with
                | None => mret false
                | Some deadline =>
                    _ ← io_result (dg_valid_end env);
                    _ ← in_memory (poke (npid n) (arg d 4) (remaining_bytes deadline (dg_now_end env)));
                    mret (bool_decide (completed = 0) && (deadline <=? dg_now_check env)%Z
                          && bool_decide (no_error result = Some EAGAIN))
                end;
      if (expired : bool) then mret (RValue 0)
      else if bool_decide (0 < completed) then mret (RValue (Z.of_nat completed))
      else io_result ((λ _, RValue 0) <$> result)
  end.

Definition AF_UNSPEC : Z := 0.

Definition datagram_dispatch (env : dg_env) (a : target_arch) (fd : Z) (n : Notification) : DM Reply :=
  let d := ndata n in
  if called a d SYS_connect then
    fam ← in_memory (family (npid n) (arg d 1) (arg d 2));
    if (fam =? AF_UNSPEC)%Z then mret RContinue else
    target ← in_memory (ipv4_at (npid n) (arg d 1) (arg d 2));
    local ← in_dns (server_for (dg_bound env 0) target);
    _ ← io_result (dg_valid env 0);
    _ ← record_traffic (Connected local);
    _ ← io_result (dg_connect env);
    mret (RValue 0)
  else if called a d SYS_getpeername || called a d SYS_getsockopt then
    actual ← io_result (peer_address (dg_kernel env) fd (called a d SYS_getsockopt));
    server ← known_server actual;
    match server with
    | None => mret RContinue
    | Some original =>
        _ ← io_result (dg_valid env 0);
        _ ← in_memory (peer_name a n original);
        mret (RValue 0)
    end
  else transfers env a fd n.

(** ** Nothing leaves the machine *)

(** A local endpoint that answers for a resolver. *)
Definition registered (d : Dns) (l : SocketAddrV4) : Prop :=
  ∃ a, original_server d l = Some a ∧ sa_port a = DNS_PORT.

Definition traffic_to (t : traffic) : SocketAddrV4 :=
  match t with Sent d _ _ _ => d | Connected d => d end.

Record safe (s : Dg) : Prop := {
  safe_forward a l : forward (servers (dg_dns s)) !! a = Some l → registered (dg_dns s) l;
  safe_port l a : original_server (dg_dns s) l = Some a → sa_port a = DNS_PORT;
  safe_log t : t ∈ dg_log s → registered (dg_dns s) (traffic_to t);
}.

Definition keeps {A} (m : DM A) : Prop := ∀ s r s', safe s → m s = (r, s') → safe s'.

Lemma keeps_bind {A B} (m : DM A) (f : A → DM B) : keeps m → (∀ a, keeps (f a)) → keeps (x ← m; f x).
Proof.
  intros Hm Hf s r s' Hs. rewrite M_bind_run. destruct (m s) as [[a|e] s1] eqn:E.
  - apply Hf. by eapply Hm.
  - intros [= _ <-]. by eapply Hm.
Qed.

Lemma keeps_ret {A} (a : A) : keeps (mret a).
Proof. by intros s r s' Hs [= _ <-]. Qed.

Lemma keeps_lift {A} (r : result stop A) : keeps (lift_result r).
Proof. by intros s r' s' Hs [= _ <-]. Qed.

Lemma keeps_fail {A} e : keeps (mfail e : DM A).
Proof. by intros s r' s' Hs [= _ <-]. Qed.

Lemma keeps_in_memory {A} (m : M T io_error A) : keeps (in_memory m).
Proof. intros s r s' [Hf Hp Hl]. unfold in_memory. destruct (m (dg_mem s)). by intros [= _ <-]. Qed.

Lemma keeps_known l : keeps (known_server l).
Proof. by intros s r s' Hs [= _ <-]. Qed.

Lemma keeps_next : keeps next_attempt.
Proof. intros s r s' [Hf Hp Hl]. unfold next_attempt. destruct (dg_attempts s); by intros [= _ <-]. Qed.

Lemma keeps_attempted {A} (m : DM A) : keeps m → keeps (attempted m).
Proof.
  intros Hm s r s' Hs. unfold attempted. destruct (m s) as [[a|[]] s1] eqn:E; intros [= _ <-]; by eapply Hm.
Qed.

(** [server_for] registers what it returns, and forgets nothing. *)
Lemma server_for_safe bound target s r d' :
  safe s → server_for bound target (dg_dns s) = (r, d') →
  safe (mkDg (dg_mem s) d' (dg_attempts s) (dg_log s)) ∧ match r with Ok l => registered d' l | Err _ => True end.
Proof.
  intros [Hf Hp Hl]. unfold server_for, is_dns.
  destruct (sa_port target =? DNS_PORT)%Z eqn:Hport; simpl; [|intros [= <- <-]; by split].
  apply Z.eqb_eq in Hport.
  destruct (forward _ !! target) as [l|] eqn:Hfw; [intros [= <- <-]; split; [done|by eapply Hf]|].
  case_bool_decide; [intros [= <- <-]; by split|]. destruct bound as [l|e]; intros [= <- <-]; [|by split].
  assert (Hmono : ∀ l', registered (dg_dns s) l' →
    registered (mkDns (resolver (dg_dns s)) (mkServers (<[target:=l]> (forward (servers (dg_dns s))))
      (<[l:=target]> (reverse_ (servers (dg_dns s))))) (tasks (dg_dns s) ++ [l])) l').
  { intros l' (a & Ha & Hpa). unfold registered, original_server. simpl. destruct (decide (l = l')) as [->|Hne].
    - exists target. by rewrite lookup_insert_eq.
    - exists a. by rewrite lookup_insert_ne. }
  assert (Hnew : registered (mkDns (resolver (dg_dns s)) (mkServers (<[target:=l]> (forward (servers (dg_dns s))))
      (<[l:=target]> (reverse_ (servers (dg_dns s))))) (tasks (dg_dns s) ++ [l])) l).
  { exists target. unfold original_server. simpl. by rewrite lookup_insert_eq. }
  split; [split|done]; simpl.
  - intros a l' [[_ <-]|[_ Ha]]%lookup_insert_Some; [done|]. apply Hmono. by eapply Hf.
  - intros l' a. unfold original_server. simpl. intros [[_ <-]|[_ Ha]]%lookup_insert_Some; [done|]. by eapply Hp.
  - intros t Ht. by apply Hmono, Hl.
Qed.

Lemma in_dns_safe bound target s r s' :
  safe s → in_dns (server_for bound target) s = (r, s') →
  safe s' ∧ match r with Ok l => registered (dg_dns s') l | Err _ => True end.
Proof.
  intros Hs. unfold in_dns. destruct (server_for bound target (dg_dns s)) as [r0 d'] eqn:E. intros [= <- <-].
  destruct (server_for_safe _ _ _ _ _ Hs E) as [Hs' Hr]. split; [done|]. by destruct r0.
Qed.

Lemma record_safe t s r s' :
  safe s → registered (dg_dns s) (traffic_to t) → record_traffic t s = (r, s') → safe s' ∧ dg_dns s' = dg_dns s.
Proof.
  intros [Hf Hp Hl] Ht [= _ <-]. split; [|done]. split; simpl; [done|done|].
  intros t' [?| ->%list_elem_of_singleton]%elem_of_app; auto.
Qed.
End datagram.

#[export] Hint Resolve keeps_ret keeps_lift keeps_fail keeps_in_memory keeps_known keeps_next keeps_attempted : datagram.

Ltac keeps :=
  repeat first
    [ solve [eauto with datagram]
    | apply keeps_bind; [|intros ?]
    | apply keeps_attempted
    | match goal with |- keeps (if ?b then _ else _) => destruct b end
    | match goal with |- keeps (match ?o with _ => _ end) => destruct o end ].

Section safety.
Context {T : Type} {TM : TargetMemory T}.

(** What [transfer_loop] sends goes where it was told. *)
Lemma transfer_loop_safe fuel : ∀ tid message destination payload control cap flags deadline receive s r s',
  safe (T := T) s → (receive = false → registered (dg_dns s) destination) →
  transfer_loop fuel tid message destination payload control cap flags deadline receive s = (r, s') → safe s'.
Proof.
  induction fuel as [|f fuel IH]; intros tid message destination payload control cap flags deadline receive s r s' Hs Hd;
    cbn [transfer_loop]; [by intros [= _ <-]|].
  rewrite M_bind_run. destruct (next_attempt s) as [[a|e] s1] eqn:E1.
  2: { intros [= _ <-]. by eapply keeps_next. }
  assert (Hs1 : safe s1 ∧ dg_dns s1 = dg_dns s).
  { split; [by eapply keeps_next|]. unfold next_attempt in E1. destruct (dg_attempts s); [done|]. by injection E1 as _ <-. }
  destruct Hs1 as [Hs1 E1d]. rewrite M_bind_run. unfold io_result at 1, lift_result at 1.
  destruct (at_valid a) as [[]|e]; cbn [map_err]; [|by intros [= _ <-]]. rewrite M_bind_run.
  assert (Hrec : ∃ s2, (if receive then mret () else record_traffic (Sent destination payload control
      (Z.lor (Z.lor flags MSG_DONTWAIT) MSG_NOSIGNAL))) s1 = (Ok (), s2) ∧ safe s2 ∧ dg_dns s2 = dg_dns s).
  { destruct receive; [by exists s1|]. eexists. split; [done|].
    destruct (record_safe (Sent destination payload control (Z.lor (Z.lor flags MSG_DONTWAIT) MSG_NOSIGNAL)) s1
      (Ok ()) _ Hs1 (eq_ind_r (λ d, registered d destination) (Hd eq_refl) E1d) eq_refl) as [? ->]. done. }
  destruct Hrec as (s2 & -> & Hs2 & E2). destruct (transfer_now _ _ _ _ _ _) as [rv|error].
  - apply keeps_bind; [|intros ?; apply keeps_ret|exact Hs2].
    destruct receive; keeps; apply keeps_lift.
  - case_bool_decide.
    + rewrite M_bind_run. unfold io_result at 1, lift_result at 1.
      destruct (nonblocking (at_status a) flags) as [nb|e]; cbn [map_err]; [|by intros [= _ <-]].
      destruct (_ || _); [by intros [= _ <-]|]. rewrite M_bind_run. unfold io_result at 1, lift_result at 1.
      destruct (at_ready a); cbn [map_err]; [|by intros [= _ <-]]. apply IH; [done|]. by rewrite E2.
    + case_bool_decide; [apply IH; [done|]; by rewrite E2|by intros [= _ <-]].
Qed.

Lemma destination_safe env index fd tid message receive s r s' :
  safe (T := T) s → destination_of env index fd tid message receive s = (r, s') →
  safe s' ∧ match r with Ok l => receive = false → registered (dg_dns s') l | Err _ => True end.
Proof.
  intros Hs. unfold destination_of. destruct receive; [by intros [= <- <-]|]. destruct (negb _).
  - rewrite M_bind_run. destruct (in_memory _ s) as [[target|e] s1] eqn:E1.
    + intros E2. destruct (in_dns_safe _ _ _ _ _ (keeps_in_memory _ _ _ _ Hs E1) E2) as [? Hr].
      split; [done|]. by destruct r.
    + intros [= <- <-]. split; [by eapply keeps_in_memory|done].
  - destruct (sock_address _ fd true) as [address|e]; [|by intros [= <- <-]].
    rewrite M_bind_run. unfold known_server. destruct (original_server (dg_dns s) address) as [a|] eqn:Ea;
      intros [= <- <-]; [|done]. split; [done|]. intros _. exists a. split; [done|]. by eapply safe_port.
Qed.

Lemma transfer_safe env index fd tid message flags deadline receive :
  keeps (transfer (T := T) env index fd tid message flags deadline receive).
Proof.
  unfold transfer. apply keeps_bind; [apply keeps_lift|]. intros cap.
  destruct (_ && _); [apply keeps_lift|]. apply keeps_bind; [by keeps|]. intros payload.
  apply keeps_bind; [by keeps|]. intros control s r s' Hs. rewrite M_bind_run.
  destruct (destination_of _ _ _ _ _ _ s) as [[destination|e] s1] eqn:E.
  - destruct (destination_safe _ _ _ _ _ _ _ _ _ Hs E) as [Hs1 Hd]. by apply transfer_loop_safe.
  - intros [= _ <-]. by apply (destination_safe _ _ _ _ _ _ _ _ _ Hs E).
Qed.

Lemma messages_safe env c tid fd d deadline todo : ∀ index completed,
  keeps (messages (T := T) env c tid fd d deadline todo index completed).
Proof.
  induction todo as [|todo IH]; intros index completed; cbn [messages]; [apply keeps_ret|].
  destruct (_ <? _)%Z; [apply keeps_lift|]. apply keeps_bind.
  - apply keeps_attempted, keeps_bind; [apply keeps_in_memory|intros ?; apply transfer_safe].
  - intros [length|error]; [|apply keeps_ret]. destruct (negb _); [apply keeps_ret|].
    apply keeps_bind; [apply keeps_lift|intros _]. apply keeps_bind; [apply keeps_attempted, keeps_in_memory|].
    intros [?|?]; [apply IH|apply keeps_ret].
Qed.

Lemma batch_deadline_safe env c tid d : keeps (batch_deadline (T := T) env c tid d).
Proof. unfold batch_deadline. destruct (_ && _); [|apply keeps_ret]. apply keeps_bind; [apply keeps_in_memory|]. intros bs. by keeps. Qed.

Lemma dispatch_safe env a fd n : keeps (datagram_dispatch (T := T) env a fd n).
Proof.
  unfold datagram_dispatch. destruct (called a _ SYS_connect).
  - apply keeps_bind; [apply keeps_in_memory|]. intros fam. destruct (_ =? _)%Z; [apply keeps_ret|].
    apply keeps_bind; [apply keeps_in_memory|]. intros target s r s' Hs. rewrite M_bind_run.
    destruct (in_dns _ s) as [[l|e] s1] eqn:E; destruct (in_dns_safe _ _ _ _ _ Hs E) as [Hs1 Hl].
    2: by intros [= _ <-].
    rewrite M_bind_run. unfold io_result at 1, lift_result at 1. destruct (dg_valid env 0) as [[]|]; cbn [map_err]; [|by intros [= _ <-]].
    rewrite M_bind_run. destruct (record_traffic (Connected l) s1) as [r2 s2] eqn:E2.
    destruct (record_safe (Connected l) _ _ _ Hs1 Hl E2) as [Hs2 _]. destruct r2 as [[]|]; [|by intros [= _ <-]].
    revert Hs2. apply keeps_bind; [apply keeps_lift|intros ?; apply keeps_ret].
  - destruct (_ || _).
    + apply keeps_bind; [apply keeps_lift|]. intros actual. by keeps; apply keeps_lift.
    + unfold transfers. apply keeps_bind; [apply keeps_lift|intros _]. apply keeps_bind; [apply keeps_lift|intros own].
      apply keeps_bind; [apply batch_deadline_safe|intros batch]. apply keeps_bind; [apply messages_safe|].
      intros []; by keeps; apply keeps_lift.
Qed.

(** ** Theorems *)

(** C19: Whatever a datagram call does, every address the broker sends to or connects the
    socket to is a local endpoint registered for a port-53 resolver. *)
Theorem datagrams_stay_local (env : dg_env) (a : target_arch) (fd : Z) (n : Notification)
    (s s' : Dg (T := T)) (r : result stop Reply) (t : traffic) :
  dns_reachable (dg_dns s) → dg_log s = [] → datagram_dispatch env a fd n s = (r, s') → t ∈ dg_log s' →
  ∃ server, original_server (dg_dns s') (traffic_to t) = Some server ∧ sa_port server = DNS_PORT.
Proof.
  intros Hd%dns_reachable_ok Hl Hr. apply (dispatch_safe env a fd n s r s'); [|done].
  split.
  - intros x l Hx. pose proof (proj1 (ok_inverse _ Hd x l) Hx) as Hx'. exists x. split; [done|].
    apply Z.eqb_eq. by eapply ok_port.
  - intros l x Hx. apply Z.eqb_eq. eapply ok_port; [done|]. by apply (ok_inverse _ Hd).
  - rewrite Hl. by intros t' ?%elem_of_nil.
Qed.

Lemma messages_count env c tid fd d deadline todo : ∀ index completed s e s',
  c_batch c = true → messages (T := T) env c tid fd d deadline todo index completed s = (Ok e, s') →
  ∃ k result, e = Ended k result ∧ completed ≤ k ≤ completed + todo ∧ (k < completed + todo → result ≠ Ok ()).
Proof.
  induction todo as [|todo IH]; intros index completed s e s' Hc; cbn [messages].
  { intros [= <- _]. exists completed, (Ok ()). split_and!; [done|lia..]. }
  destruct (_ <? _)%Z; [done|]. intros (op & s1 & _ & H)%M_bind_ok. destruct op as [length|error].
  - rewrite Hc in H. cbn [negb] in H. apply M_bind_ok in H as (? & s2 & _ & H).
    apply M_bind_ok in H as (w & s3 & _ & H). destruct w as [[]|error].
    + destruct (IH _ _ _ _ _ Hc H) as (k & result & -> & Hk & Hr). exists k, result. split_and!; [done|lia|lia|].
      intros ?. apply Hr. lia.
    + injection H as <- _. exists completed, (Err error). split_and!; [done|lia|lia|done].
  - injection H as <- _. exists completed, (Err error). split_and!; [done|lia|lia|done].
Qed.

(** C37: sendmmsg and recvmmsg answer with a number of messages between 0 and the smaller of
    the requested count, as an unsigned 32-bit number, and 1024. *)
Theorem batch_reply_bounded (env : dg_env) (a : target_arch) (fd : Z) (n : Notification)
    (s s' : Dg (T := T)) (reply : Reply) :
  called a (ndata n) SYS_sendmmsg = true ∨ called a (ndata n) SYS_recvmmsg = true →
  transfers env a fd n s = (Ok reply, s') →
  ∃ k, reply = RValue k ∧ (0 ≤ k ≤ Z.min (arg (ndata n) 2 mod 2 ^ 32) MAX_BATCH)%Z.
Proof.
  intros Hb. unfold transfers. set (c := kind_of a (ndata n)).
  assert (Hc : c_batch c = true) by (unfold c; simpl; destruct Hb as [-> | ->]; by rewrite ?orb_true_r).
  intros (? & s1 & _ & H)%M_bind_ok. apply M_bind_ok in H as (own & s2 & _ & H).
  apply M_bind_ok in H as (batch & s3 & _ & H). apply M_bind_ok in H as (ended & s4 & Hm & H).
  destruct (messages_count _ _ _ _ _ _ _ _ _ _ _ _ Hc Hm) as (k & result & -> & Hk & Hr).
  unfold batch_count in Hk. rewrite Hc in Hk.
  assert (Hr0 : (0 ≤ arg (ndata n) 2 mod 2 ^ 32)%Z) by (apply Z.mod_pos_bound; lia).
  unfold MAX_BATCH in *. apply M_bind_ok in H as (expired & s5 & _ & H). destruct expired; [injection H as <- _; exists 0%Z; split; [done|lia]|].
  case_bool_decide; [injection H as <- _; exists (Z.of_nat k); split; [done|lia]|].
  unfold io_result, lift_result in H. destruct result as [[]|]; simplify_eq/=. exists 0%Z. split; [done|lia].
Qed.

(** *** A received datagram *)

Lemma in_memory_ok {A} (m : M T io_error A) s a t :
  m (dg_mem s) = (Ok a, t) → in_memory m s = (Ok a, mkDg t (dg_dns s) (dg_attempts s) (dg_log s)).
Proof. intros H. unfold in_memory. by rewrite H. Qed.

(** The calls are told apart by their numbers. *)
Lemma called_other a d c c' : called a d c = true → number a c ≠ number a c' → called a d c' = false.
Proof.
  unfold called. intros H%bool_decide_eq_true Hne. apply bool_decide_false. congruence.
Qed.

Lemma kind_of_recvfrom a d :
  called a d SYS_recvfrom = true →
  called a d SYS_connect = false ∧ (called a d SYS_getpeername || called a d SYS_getsockopt) = false ∧
  kind_of a d = mkCall true false true false.
Proof.
  intros H. unfold kind_of. rewrite H.
  rewrite !(called_other a d SYS_recvfrom) by (done || by destruct a). done.
Qed.

(** The kernel's name for the sender, and the one the caller sees. *)
Lemma flat_finish_ok tid buffer len nm cap lp source ctl fl (s : T) :
  healthy s → check_tid tid = Ok () → nm ≠ 0%Z → (16 ≤ cap ≤ I32_MAX)%Z →
  address_ok nm 16 = true → is_mapped (mem s) nm 16 → address_ok lp 4 = true → is_mapped (mem s) lp 4 →
  ∃ s', finish (mkMessage nm cap 0 0 [(buffer, len)] None (Some lp)) tid source ctl fl s = (Ok (), s') ∧
        mem s' = store (store (mem s) nm (address_bytes source)) lp (le_bytes 4 16).
Proof.
  intros Hh Ht Hnm Hcap Ha Hm Hla Hlm. unfold finish. cbn [name name_length length_pointer header].
  rewrite (proj2 (Z.eqb_neq _ _)) by done. cbn [negb]. rewrite M_bind_run.
  destruct (put_address_ok tid nm cap source s) as (s1 & -> & Hh1 & Hm1); [done|done|lia|done| |].
  { rewrite Z.min_r by lia. exact Hm. }
  rewrite Z.min_r in Hm1 by lia. change (take (Z.to_nat 16) (address_bytes source)) with (address_bytes source) in Hm1.
  rewrite M_bind_run. destruct (poke_ok tid lp (le_bytes 4 16) s1) as (s2 & -> & Hm2 & _); [done|done|done| |].
  { rewrite Hm1. by apply store_is_mapped; [rewrite length_address_bytes|]. }
  exists s2. split; [done|]. by rewrite Hm2, Hm1.
Qed.

Lemma flat_write_ok tid buffer len nm cap lp data (s : T) :
  healthy s → check_tid tid = Ok () → (Z.of_nat (length data) ≤ len)%Z →
  address_ok buffer (length data) = true → is_mapped (mem s) buffer (length data) →
  ∃ s', write_payload (mkMessage nm cap 0 0 [(buffer, len)] None lp) tid data s = (Ok (), s') ∧
        mem s' = store (mem s) buffer data ∧ healthy s'.
Proof.
  intros Hh Ht Hl Ha Hm. unfold write_payload. cbn [vectors write_vectors].
  rewrite Z.min_r, Nat2Z.id, firstn_all, drop_all by lia. rewrite M_bind_run.
  destruct (poke_ok tid buffer data s) as (s1 & -> & Hm1 & Hh1); [done..|]. by exists s1.
Qed.

(** The kernel has this datagram for the call, whatever the buffers. *)
Definition answers (att : attempt) (rv : received) : Prop := ∀ h flags, answer_of (at_kernel att h flags) = Ok rv.

Lemma transfer_receive_ok env fd tid message flags deadline (s : Dg (T := T)) att rest rv server cap t1 t2 :
  capacity message = Ok cap → dg_attempts s = att :: rest → at_valid att = Ok () → answers att rv →
  at_deliverable att = Ok () → rv_length rv ≤ length (rv_data rv) → (Z.of_nat (rv_length rv) ≤ cap ≤ MAX_DATAGRAM)%Z →
  original_server (dg_dns s) (rv_source rv) = Some server →
  write_payload message tid (take (rv_length rv) (rv_data rv)) (dg_mem s) = (Ok (), t1) →
  finish message tid server (rv_control rv) (rv_flags rv) t1 = (Ok (), t2) →
  transfer env 0 fd tid message flags deadline true s = (Ok (rv_length rv), mkDg t2 (dg_dns s) rest (dg_log s)).
Proof.
  intros Hcap Hatt Hv Hres Hdel Hlen Hle Hsrv Hw Hf. unfold transfer.
  eapply M_bind_step; [unfold io_result; by rewrite Hcap|]. cbv beta zeta. cbn [negb andb].
  eapply M_bind_step; [done|]. eapply M_bind_step; [done|]. eapply M_bind_step; [done|]. eapply M_bind_step; [done|].
  cbv beta. rewrite Hatt. cbn [transfer_loop]. eapply M_bind_step; [unfold next_attempt; by rewrite Hatt|].
  eapply M_bind_step; [unfold io_result; by rewrite Hv|]. eapply M_bind_step; [done|]. cbv beta.
  unfold transfer_now. rewrite Hres, Nat.min_l by lia. eapply M_bind_step; [|done].
  eapply M_bind_step; [unfold io_result; by rewrite Hdel|]. eapply M_bind_step; [by apply in_memory_ok|].
  eapply M_bind_step; [unfold known_server; simpl; by rewrite Hsrv|]. unfold in_memory. simpl. by rewrite Hf.
Qed.

(** C28: A recvfrom with room for an address whose first attempt gets a datagram from a
    registered resolver endpoint stores the payload at the buffer, the address of the
    resolver the command asked (not the local endpoint) at the name, its length at the
    length word, nothing else, and returns the length. *)
Theorem recvfrom_shows_resolver (env : dg_env) (a : target_arch) (fd : Z) (n : Notification)
    (s : Dg (T := T)) (att : attempt) (rest : list attempt) (rv : received) (timeout : Z * Z)
    (server : SocketAddrV4) (cap : Z) :
  let d := ndata n in
  called a d SYS_recvfrom = true → healthy (dg_mem s) → check_tid (npid n) = Ok () →
  dg_async env = Ok () → dg_timeout env = Ok timeout →
  dg_attempts s = att :: rest → at_valid att = Ok () → answers att rv → at_deliverable att = Ok () →
  rv_length rv ≤ length (rv_data rv) → (Z.of_nat (rv_length rv) ≤ arg d 2 ≤ MAX_DATAGRAM)%Z →
  address_ok (arg d 1) (rv_length rv) = true → is_mapped (mem (dg_mem s)) (arg d 1) (rv_length rv) →
  arg d 4 ≠ 0%Z → address_ok (arg d 4) 16 = true → is_mapped (mem (dg_mem s)) (arg d 4) 16 →
  address_ok (arg d 5) 4 = true → holds (mem (dg_mem s)) (arg d 5) (le_bytes 4 cap) → (16 ≤ cap ≤ I32_MAX)%Z →
  (0 ≤ arg d 1 ≤ U64_MAX)%Z → original_server (dg_dns s) (rv_source rv) = Some server →
  ∃ s', datagram_dispatch env a fd n s = (Ok (RValue (Z.of_nat (rv_length rv))), s') ∧ dg_attempts s' = rest ∧
    mem (dg_mem s') = store (store (store (mem (dg_mem s)) (arg d 1) (take (rv_length rv) (rv_data rv))) (arg d 4) (address_bytes server))
                        (arg d 5) (le_bytes 4 16).
Proof.
  intros d Hcall Hh Ht Hasync Hto Hatt Hv Hres Hdel Hlen Hcap Ha1 Hm1 Hnm Ha4 Hm4 Ha5 Hm5 Hc Hrange Hsrv.
  destruct (kind_of_recvfrom a d Hcall) as (Hnc & Hnp & Hk). set (tid := npid n) in *.
  destruct (u32_at_ok tid (arg d 5) cap (dg_mem s)) as (t1 & E1 & Hmem1 & Hh1); [done|done|done|unfold I32_MAX in Hc; lia|done|].
  assert (Hl : length (take (rv_length rv) (rv_data rv)) = rv_length rv) by (rewrite length_take; lia).
  destruct (flat_write_ok tid (arg d 1) (arg d 2) (arg d 4) cap (Some (arg d 5)) (take (rv_length rv) (rv_data rv)) t1)
    as (t2 & E2 & Hmem2 & Hh2); [done|done|lia|by rewrite Hl|by rewrite Hmem1, Hl|].
  destruct (flat_finish_ok tid (arg d 1) (arg d 2) (arg d 4) cap (arg d 5) server (rv_control rv) (rv_flags rv) t2)
    as (t3 & E3 & Hmem3); [done|done|done|done|done|..].
  { rewrite Hmem2. apply store_is_mapped; by rewrite Hmem1, ?Hl. }
  { done. }
  { rewrite Hmem2. apply store_is_mapped; rewrite Hmem1, ?Hl; [done|]. by apply holds_is_mapped in Hm5. }
  exists (mkDg t3 (dg_dns s) rest (dg_log s)). cbn [dg_attempts dg_mem].
  split; [|split; [done|by rewrite Hmem3, Hmem2, Hmem1]].
  unfold datagram_dispatch. fold d. rewrite Hnc, Hnp. unfold transfers. fold d tid. rewrite Hk.
  eapply M_bind_step; [unfold io_result; by rewrite Hasync|]. destruct timeout as [sec usec].
  eapply M_bind_step; [unfold io_result, socket_deadline; rewrite Hto; done|].
  eapply M_bind_step; [done|].
  eapply (M_bind_step _ _ _ (Returned (RValue (Z.of_nat (rv_length rv)))) (mkDg t3 (dg_dns s) rest (dg_log s))); [|done].
  cbn [batch_count c_batch messages].
  rewrite (proj2 (Z.ltb_ge U64_MAX (arg d 1 + Z.of_nat 0 * 64))) by lia.
  eapply (M_bind_step _ _ _ (Ok (rv_length rv)) (mkDg t3 (dg_dns s) rest (dg_log s))); [|done]. unfold attempted.
  rewrite (M_bind_step _ _ s (mkMessage (arg d 4) cap 0 0 [(arg d 1, arg d 2)] None (Some (arg d 5)))
    (mkDg t1 (dg_dns s) (dg_attempts s) (dg_log s)) (Ok (rv_length rv), mkDg t3 (dg_dns s) rest (dg_log s))); [done|..].
  - apply in_memory_ok. cbn [c_flat c_receive]. unfold flat. rewrite (proj2 (Z.eqb_neq _ _)) by done.
    by eapply M_bind_step.
  - apply (transfer_receive_ok env fd tid _ _ _ (mkDg t1 (dg_dns s) (dg_attempts s) (dg_log s)) att rest rv server
      (arg d 2) t2 t3); try done.
    unfold capacity. simpl. rewrite (proj2 (Z.leb_le _ U64_MAX)), (proj2 (Z.leb_le _ ISIZE_MAX)) by (unfold MAX_DATAGRAM, U64_MAX, ISIZE_MAX in *; lia).
    done.
Qed.
End safety.

(** ** Examples *)

Definition calm_env : dg_env :=
  mkDgEnv (mkKernel (λ _ _, Err (RawOs ENOTCONN)) (λ _ _ _, Err (RawOs EINVAL)) (λ _, Ok 7%Z) (λ _ _, Ok 0%Z))
    (λ _, Err (RawOs ENOBUFS)) (Ok ()) (Ok ()) (Ok (0, 0)%Z) (λ _, Ok ()) (Ok ()) 0 0 0 0.

Definition attempt_of (r : answered_call) : attempt := mkAttempt (Ok ()) (λ _ _, r) (Ok ()) (Ok O_NONBLOCK) 0 (Ok ()).

Definition got (data : bytes) (source : SocketAddrV4) : answered_call :=
  mkAnswered (Z.of_nat (length data)) 0 data (sockaddr source) [] 0.
Definition failed_with (errno : Z) : answered_call := mkAnswered (-1) errno [] (replicate 16 x00) [] 0.

(** A length, room for an address and four bytes of data. *)
Definition call_bytes : bytes := le_bytes 4 16 ++ sockaddr virtual_address ++ lit "data".

Definition call_target : target := mkTarget (store ∅ 0x1000 call_bytes) [].

Lemma call_target_holds :
  holds (mem_of call_target) 0x1000 (le_bytes 4 16) ∧ is_mapped (mem_of call_target) 0x1004 16 ∧
  is_mapped (mem_of call_target) 0x1014 4.
Proof.
  pose proof (store_holds ∅ 0x1000 call_bytes) as H. unfold call_bytes at 2 in H.
  apply holds_app in H as [H1 H]. apply holds_app in H as [H2 H3].
  split; [exact H1|]. apply holds_is_mapped in H2. apply holds_is_mapped in H3. split; [exact H2|exact H3].
Qed.

(** recvfrom(3, 0x1014, 4, 0, 0x1004, 0x1000) *)
Definition recv_request : Notification :=
  mkNotification 1 7 0 (mkData 45 0xc000003e 0 [3; 0x1014; 4; 0; 0x1004; 0x1000]%Z).

Definition reply_received : received := mkReceived 3 (lit "abc") local_example [] 0.

Lemma recvfrom_shows_resolver_witness :
  let s := mkDg call_target dns_example [attempt_of (got (lit "abc") local_example)] [] in
  ∃ s', datagram_dispatch calm_env x86_64 9 recv_request s = (Ok (RValue 3), s') ∧
        mem (dg_mem s') = store (store (store (mem call_target) 0x1014 (lit "abc")) 0x1004 (address_bytes virtual_address))
                            0x1000 (le_bytes 4 16).
Proof.
  intros s.
  destruct (recvfrom_shows_resolver calm_env x86_64 9 recv_request s (attempt_of (got (lit "abc") local_example)) [] reply_received
    (0, 0)%Z virtual_address 16) as (s' & Hr & _ & Hm).
  - reflexivity.
  - constructor.
  - reflexivity.
  - reflexivity.
  - reflexivity.
  - reflexivity.
  - reflexivity.
  - intros h flags. reflexivity.
  - reflexivity.
  - simpl. lia.
  - change (3 ≤ 4 ≤ MAX_DATAGRAM)%Z. unfold MAX_DATAGRAM. lia.
  - reflexivity.
  - apply (is_mapped_le _ _ 4 3); [lia|exact (proj2 (proj2 call_target_holds))].
  - discriminate.
  - reflexivity.
  - exact (proj1 (proj2 call_target_holds)).
  - reflexivity.
  - exact (proj1 call_target_holds).
  - unfold I32_MAX. lia.
  - change (0 ≤ 0x1014 ≤ U64_MAX)%Z. unfold U64_MAX. lia.
  - apply lookup_insert_eq.
  - exists s'. split; [exact Hr|exact Hm].
Defined.

(** sendto(3, 0x1014, 4, 0, 0x1004, 16): to the resolver of resolv.conf. *)
Definition send_request : Notification :=
  mkNotification 1 7 0 (mkData 44 0xc000003e 0 [3; 0x1014; 4; 0; 0x1004; 16]%Z).

Definition sent_example : traffic := Sent local_example (lit "data") [] (Z.lor MSG_DONTWAIT MSG_NOSIGNAL).

Lemma datagrams_stay_local_witness :
  let s := mkDg call_target dns_example [attempt_of (got (lit "data") local_example)] [] in
  let r := datagram_dispatch calm_env x86_64 9 send_request s in
  dg_log (snd r) = [sent_example] ∧
  ∃ server, original_server (dg_dns (snd r)) local_example = Some server ∧ sa_port server = DNS_PORT.
Proof.
  intros s r. assert (Hl : dg_log (snd r) = [sent_example]) by (vm_compute; reflexivity).
  split; [exact Hl|].
  apply (datagrams_stay_local calm_env x86_64 9 send_request s (snd r) (fst r) sent_example dns_example_reachable).
  - reflexivity.
  - apply surjective_pairing.
  - rewrite Hl. by apply list_elem_of_singleton.
Defined.

(** recvmmsg(3, 0x1000, 2) when one datagram is there. *)
Definition batch_request : Notification :=
  mkNotification 1 7 0 (mkData 299 0xc000003e 0 [3; 0x1000; 2; 0; 0; 0]%Z).

Definition batch_target : target := mkTarget (store ∅ 0x1000 (replicate 128 x00)) [].

Lemma batch_reply_bounded_witness :
  let s := mkDg batch_target dns_example
    [attempt_of (got [] local_example); attempt_of (failed_with EAGAIN)] [] in
  fst (transfers calm_env x86_64 9 batch_request s) = Ok (RValue 1) ∧
  ∃ k, RValue 1 = RValue k ∧ (0 ≤ k ≤ 2)%Z.
Proof.
  intros s. assert (H : fst (transfers calm_env x86_64 9 batch_request s) = Ok (RValue 1)) by (vm_compute; reflexivity).
  split; [exact H|].
  apply (batch_reply_bounded calm_env x86_64 9 batch_request s (snd (transfers calm_env x86_64 9 batch_request s)) (RValue 1)).
  - right. reflexivity.
  - rewrite <-H. apply surjective_pairing.
Defined.
