(* ===== verification/Engine.v ===== *)
(** * The broker engine: src/broker/engine.rs

    [dispatch] decides what happens to one notification; [loop_step] is one
    turn of the event loop of [Broker::run], on whatever its [select!] picked,
    and [drain_relays] what follows it. The work of a request between its
    notification and its reply is Tcp.v and Datagram.v; the loop only sees it
    finish. *)
From S2P Require Import Prelude RustStd Net FakeDns Stream Proxy Rule Config Dns.
From S2P Require Import Seccomp Access Memory Message TcpBind Sockets Ingress Files Tcp Broker.
From Stdlib Require Import Permutation.

Definition AF_NETLINK : Z := 16.
Definition SOCK_NONBLOCK : Z := 0x800.
Definition SOCK_CLOEXEC : Z := 0x80000.

(** ** dispatch *)

(** What the kernel, /proc and the resolver files answer. *)
Record engine_env := mkEngineEnv {
  en_valid : io ();
  en_get : Z → Z → io Z;
  en_valid_fd : io ();
  en_kernel : kernel;
  en_fs : fs_env;
  en_files : list ConfigFile;
  en_valid_peer : io ();
}.

(** A finished call, or the handler that takes it over. *)
Inductive dispatched :=
| Done (r : Reply)
| ConnectTcp (fd cookie : Z) (target : SocketAddrV4)
| DatagramCall (fd : Z).

Definition send_call (a : target_arch) (d : Data) : bool :=
  called a d SYS_sendto || called a d SYS_sendmsg || called a d SYS_sendmmsg.

(** The flags argument of the calls that have one. *)
Definition io_flags (a : target_arch) (d : Data) : Z :=
  if called a d SYS_sendto || called a d SYS_recvfrom || called a d SYS_sendmmsg || called a d SYS_recvmmsg
  then arg d 3
  else if called a d SYS_sendmsg || called a d SYS_recvmsg then arg d 2 else 0%Z.

(** The arguments of socket(2). *)
Definition dispatch_socket (d : Data) : io Reply :=
  let family := as_i32 (arg d 0) in
  if (family =? AF_UNIX)%Z || (family =? AF_NETLINK)%Z then Ok RContinue else
  if negb (family =? AF_INET)%Z then Err (RawOs EAFNOSUPPORT) else
  let type := Z.land (as_i32 (arg d 1)) (Z.lnot (Z.lor SOCK_NONBLOCK SOCK_CLOEXEC)) in
  let protocol := as_i32 (arg d 2) in
  if (type =? SOCK_STREAM)%Z && ((protocol =? 0)%Z || (protocol =? IPPROTO_TCP)%Z)
     || (type =? SOCK_DGRAM)%Z && ((protocol =? 0)%Z || (protocol =? IPPROTO_UDP)%Z)
  then Ok RContinue else Err (RawOs EPROTONOSUPPORT).

Section dispatch.
Context `{RegexEngine} {T : Type} {TM : TargetMemory T}.

(** [connect_tcp] up to the lock. *)
Definition dispatch_connect (k : kernel) (fd : Z) (n : Notification) : M T io_error dispatched :=
  target ← connect_args n;
  match target with
  | None => mret (Done RContinue)
  | Some target => c ← lift_result (cookie k fd); mret (ConnectTcp fd c target)
  end.

Definition dispatch_tcp (a : target_arch) (env : engine_env) (b : Broker) (fd : Z) (n : Notification)
    : M T io_error dispatched :=
  let d := ndata n in
  oob ← (if has (as_i32 (io_flags a d)) MSG_OOB then lift_result (tcp_target (en_kernel env) fd true b) else mret None);
  match oob with
  | Some _ => mfail (RawOs EOPNOTSUPP)
  | None =>
      if called a d SYS_connect then dispatch_connect (en_kernel env) fd n
      else if called a d SYS_getpeername || called a d SYS_getsockopt
      then r ← tcp_peer a (en_kernel env) (en_valid_peer env) fd n b; mret (Done r)
      else mret (Done RContinue)
  end.

Definition dispatch (a : target_arch) (env : engine_env) (b : Broker) (n : Notification) : M T io_error dispatched :=
  let d := ndata n in
  _ ← lift_result (en_valid env);
  if is_open a (nr d) then r ← open a (en_fs env) (en_files env) n; mret (Done r) else
  if called a d SYS_socket then r ← lift_result (dispatch_socket d); mret (Done r) else
  if send_call a d && has (as_i32 (io_flags a d)) MSG_FASTOPEN then mfail (RawOs EOPNOTSUPP) else
  fd ← lift_result (en_get env (npid n) (as_i32 (arg d 0)));
  _ ← lift_result (en_valid_fd env);
  domain ← lift_result (option_int (en_kernel env) fd SOL_SOCKET SO_DOMAIN);
  _ ← (if (domain =? AF_UNIX)%Z && called a d SYS_connect then check_unix_connect n else mret ());
  if negb (domain =? AF_INET)%Z then mret (Done RContinue) else
  protocol ← lift_result (option_int (en_kernel env) fd SOL_SOCKET SO_PROTOCOL);
  if (protocol =? IPPROTO_TCP)%Z then dispatch_tcp a env b fd n
  else if (protocol =? IPPROTO_UDP)%Z then mret (DatagramCall fd)
  else mfail (RawOs EPROTONOSUPPORT).
End dispatch.

(** ** The event loop *)

Inductive Shutdown := Running | Drain | Abort_.

#[export] Instance Shutdown_eq_dec : EqDecision Shutdown.
Proof. solve_decision. Defined.

Definition MAX_REQUESTS : nat := 256.

Section run.
Context `{RegexEngine}.

(** The notifications being handled, the replies given, the snapshot being
    taken and when it was started. *)
Record loop := mkLoop {
  lp_broker : Broker;
  lp_requests : list Notification;
  lp_replies : list (Notification * io Reply);
  lp_snapshot : option Z;
  lp_shutdown : Shutdown;
}.

(** The branch [select!] took. *)
Inductive event :=
| EvShutdown (s : Shutdown)
| EvDns (result : io ())
| EvIngress (result : io ())
| EvNotification (n : io Notification) (responded : io ())
| EvClosed
| EvJoined (i : nat) (result : io Reply) (responded : io ())
| EvPanicked (i : nat)
| EvSnapshot (result : option (io (gset Z)))
| EvTick (now : Z).

Inductive turn :=
| Next (l : loop)
| Break (result : io ()) (l : loop).

Definition set_requests (l : loop) (rs : list Notification) (replies : list (Notification * io Reply)) : loop :=
  mkLoop (lp_broker l) rs replies (lp_snapshot l) (lp_shutdown l).

Definition set_snapshot (l : loop) (b : Broker) (snapshot : option Z) : loop :=
  mkLoop b (lp_requests l) (lp_replies l) snapshot (lp_shutdown l).

Definition stop_on {A} (r : io A) (l : loop) : turn :=
  match r with Ok _ => Next l | Err error => Break (Err error) l end.

Definition loop_step (l : loop) (e : event) : turn :=
  if negb (bool_decide (lp_shutdown l = Running)) then Break (Ok ()) l else
  match e with
  | EvShutdown s => Break (Ok ()) (mkLoop (lp_broker l) (lp_requests l) (lp_replies l) (lp_snapshot l) s)
  | EvDns result | EvIngress result => Break result l
  | EvNotification (Ok n) responded =>
      if bool_decide (MAX_REQUESTS ≤ length (lp_requests l))
      then stop_on responded (set_requests l (lp_requests l) ((n, Err (RawOs EAGAIN)) :: lp_replies l))
      else Next (set_requests l (lp_requests l ++ [n]) (lp_replies l))
  | EvNotification (Err error) _ => Break (Err error) l
  | EvClosed => Break (Ok ()) l
  | EvJoined i result responded =>
      match lp_requests l !! i with
      | None => Next l
      | Some n => stop_on responded (set_requests l (delete i (lp_requests l)) ((n, result) :: lp_replies l))
      end
  | EvPanicked i =>
      match lp_requests l !! i with
      | None => Next l
      | Some n => Break (Err (Simple OtherKind)) (set_requests l (delete i (lp_requests l)) (lp_replies l))
      end
  | EvSnapshot result =>
      match lp_snapshot l with
      | None => Next l
      | Some started =>
          Next (set_snapshot l
                  (match result with
                   | Some (Ok cookies) => retain_peers started cookies (lp_broker l)
                   | _ => lp_broker l
                   end) None)
      end
  | EvTick now =>
      let b := retain_locks (lp_broker l) in
      Next (set_snapshot l b
              (match lp_snapshot l with
               | Some started => Some started
               | None => if bool_decide (b_peers b = ∅) then None else Some now
               end))
  end.

Fixpoint run_loop (l : loop) (events : list event) : turn :=
  match events with
  | [] => Next l
  | e :: events => match loop_step l e with
                   | Next l => run_loop l events
                   | stopped => stopped
                   end
  end.

(** *** drain_relays *)

Inductive drain_event :=
| RelayJoined (panicked : bool)
| IngressStopped (result : io ())
| ShutdownChanged (s : option Shutdown)
| DeadlinePassed.

(** [None]: still draining [relays] tasks. *)
Fixpoint drain_relays (relays : nat) (s : Shutdown) (events : list drain_event) : option (io ()) :=
  match relays with
  | O => Some (Ok ())
  | S relays' =>
      if bool_decide (s = Abort_) then Some (Ok ()) else
      match events with
      | [] => None
      | RelayJoined true :: _ => Some (Err (Simple OtherKind))
      | RelayJoined false :: events => drain_relays relays' s events
      | IngressStopped result :: _ => Some result
      | ShutdownChanged None :: _ => Some (Ok ())
      | ShutdownChanged (Some s) :: events => drain_relays (S relays') s events
      | DeadlinePassed :: _ => Some (Err (Simple TimedOut))
      end
  end.

(** [Broker::run]: the requests are aborted, the relays drained. *)
Definition engine_run (l : loop) (events : list event) (relays : nat) (drained : list drain_event) : option (io ()) :=
  match run_loop l events with
  | Next _ => None
  | Break (Err error) _ => Some (Err error)
  | Break (Ok _) l => drain_relays relays (lp_shutdown l) drained
  end.
End run.

(** ** Which calls run natively *)

(** The sockets a command may create. *)
Definition socket_allowed (d : Data) : Prop :=
  let family := as_i32 (arg d 0) in
  let type := Z.land (as_i32 (arg d 1)) (Z.lnot (Z.lor SOCK_NONBLOCK SOCK_CLOEXEC)) in
  family = AF_UNIX ∨ family = AF_NETLINK ∨
  family = AF_INET ∧ (type, as_i32 (arg d 2)) ∈ [(SOCK_STREAM, 0); (SOCK_STREAM, IPPROTO_TCP); (SOCK_DGRAM, 0); (SOCK_DGRAM, IPPROTO_UDP)]%Z.

Lemma dispatch_socket_spec d r :
  dispatch_socket d = r →
  match r with
  | Ok reply => reply = RContinue ∧ socket_allowed d
  | Err e => (e = RawOs EAFNOSUPPORT ∨ e = RawOs EPROTONOSUPPORT) ∧ ¬ socket_allowed d
  end.
Proof.
  intros <-. unfold dispatch_socket, socket_allowed.
  set (family := as_i32 (arg d 0)). set (type := Z.land _ _). set (protocol := as_i32 (arg d 2)).
  destruct (Z.eqb_spec family AF_UNIX), (Z.eqb_spec family AF_NETLINK); cbn [orb]; try (split; [done|tauto]).
  destruct (Z.eqb_spec family AF_INET); cbn [negb]; [|split; [by left|tauto]].
  match goal with |- context [?b || ?c] => destruct (b || c) eqn:E end.
  - split; [done|]. right; right. split; [done|]. rewrite !elem_of_cons, elem_of_nil, !pair_equal_spec.
    rewrite orb_true_iff, !andb_true_iff, !orb_true_iff, !Z.eqb_eq in E. tauto.
  - split; [by right|]. intros [?|[?|[_ Hin]]]; [done|done|].
    rewrite !elem_of_cons, elem_of_nil, !pair_equal_spec in Hin.
    apply not_true_iff_false in E. apply E.
    rewrite orb_true_iff, !andb_true_iff, !orb_true_iff, !Z.eqb_eq. tauto.
Qed.

Section theorems.
Context `{RegexEngine} {T : Type} {TM : TargetMemory T}.

(** Why a call on an IPv4 TCP socket may run as it is. *)
Definition tcp_native (a : target_arch) (env : engine_env) (b : Broker) (fd : Z) (n : Notification) (s : T) : Prop :=
  let d := ndata n in
  (send_call a d = true → has (as_i32 (io_flags a d)) MSG_FASTOPEN = false) ∧
  (has (as_i32 (io_flags a d)) MSG_OOB = true → tcp_target (en_kernel env) fd true b = Ok None) ∧
  (called a d SYS_connect = true → ∃ s', connect_args n s = (Ok None, s')) ∧
  (called a d SYS_getpeername = true ∨ called a d SYS_getsockopt = true →
   called a d SYS_connect = true ∨ tcp_target (en_kernel env) fd (called a d SYS_getsockopt) b = Ok None).

Lemma dispatch_tcp_native a env b fd n (s s' : T) :
  (send_call a (ndata n) = true → has (as_i32 (io_flags a (ndata n))) MSG_FASTOPEN = false) →
  dispatch_tcp a env b fd n s = (Ok (Done RContinue), s') → tcp_native a env b fd n s.
Proof.
  intros Hfo. unfold dispatch_tcp. set (d := ndata n) in *. intros (oob & s1 & Ho & H1)%M_bind_ok.
  assert (Hoob : oob = None → s1 = s ∧ (has (as_i32 (io_flags a d)) MSG_OOB = true →
    tcp_target (en_kernel env) fd true b = Ok None)).
  { intros ->. destruct (has _ MSG_OOB); [|by injection Ho as <-]. unfold lift_result in Ho. by simplify_eq. }
  destruct oob; [done|]. destruct (Hoob eq_refl) as [-> Hoob']. split_and!; [done|done|..]; fold d.
  - intros Hc. rewrite Hc in H1. unfold dispatch_connect in H1.
    apply M_bind_ok in H1 as ([t|] & s2 & Ha & H1); [|by exists s2].
    apply M_bind_ok in H1 as (c & s3 & _ & H1). discriminate.
  - intros Hp. destruct (called a d SYS_connect); [by left|right].
    replace (called a d SYS_getpeername || called a d SYS_getsockopt) with true in H1
      by (destruct Hp as [-> | ->]; by rewrite ?orb_true_r).
    apply M_bind_ok in H1 as (r & s2 & Hr & H1). injection H1 as -> _. unfold tcp_peer in Hr. fold d in Hr.
    apply M_bind_ok in Hr as (t & s3 & Ht & Hr). unfold lift_result in Ht. simplify_eq.
    destruct t; [|done]. apply M_bind_ok in Hr as (? & s4 & _ & Hr).
    apply M_bind_ok in Hr as (? & s5 & _ & Hr). discriminate.
Qed.

(** C5: dispatch itself lets a call through to the kernel only if it is a file open, creates
    a Unix, netlink, TCP or UDP socket, is on a socket that is not IPv4 (for a Unix connect,
    after the check of resolver sockets), or is a TCP call that connects to no address,
    sends no fast-open or intercepted urgent data and asks for no intercepted peer name:
    every IPv4 datagram call and every TCP connect to an address goes to its handler. *)
Theorem native_calls_are_safe (a : target_arch) (env : engine_env) (b : Broker) (n : Notification) (s s' : T) :
  dispatch a env b n s = (Ok (Done RContinue), s') →
  let d := ndata n in
  is_open a (nr d) = true ∨
  called a d SYS_socket = true ∧ socket_allowed d ∨
  ∃ fd domain, en_get env (npid n) (as_i32 (arg d 0)) = Ok fd ∧
    option_int (en_kernel env) fd SOL_SOCKET SO_DOMAIN = Ok domain ∧
    (domain ≠ AF_INET ∧
       (domain = AF_UNIX → called a d SYS_connect = true → ∃ s1, check_unix_connect n s = (Ok (), s1)) ∨
     domain = AF_INET ∧ option_int (en_kernel env) fd SOL_SOCKET SO_PROTOCOL = Ok IPPROTO_TCP ∧
       tcp_native a env b fd n s).
Proof.
  unfold dispatch. set (d := ndata n). intros (? & s1 & Hv & H1)%M_bind_ok. unfold lift_result in Hv. injection Hv as _ <-.
  destruct (is_open a (nr d)); [by left|]. right. destruct (called a d SYS_socket).
  { left. apply M_bind_ok in H1 as (r & s1 & Hr & _). unfold lift_result in Hr. injection Hr as Hr _.
    apply (dispatch_socket_spec d) in Hr as [_ ?]. done. }
  right. destruct (send_call a d && has (as_i32 (io_flags a d)) MSG_FASTOPEN) eqn:Hfo; [done|].
  apply M_bind_ok in H1 as (fd & s1 & Hfd & H1). unfold lift_result in Hfd. injection Hfd as Hfd <-.
  apply M_bind_ok in H1 as (? & s1 & Hv2 & H1). unfold lift_result in Hv2. injection Hv2 as _ <-.
  apply M_bind_ok in H1 as (domain & s1 & Hdom & H1). unfold lift_result in Hdom. injection Hdom as Hdom <-.
  exists fd, domain. split; [done|]. split; [done|].
  apply M_bind_ok in H1 as ([] & s2 & Hun & H1). destruct (Z.eqb_spec domain AF_INET) as [->|Hne]; cbn [negb] in H1.
  - right. change (AF_INET =? AF_UNIX)%Z with false in Hun. cbn [andb] in Hun. injection Hun as <-.
    apply M_bind_ok in H1 as (protocol & s2 & Hpr & H1). unfold lift_result in Hpr. injection Hpr as Hpr <-.
    destruct (Z.eqb_spec protocol IPPROTO_TCP) as [->|]; [|by destruct (_ =? _)%Z].
    split; [done|]. split; [done|]. eapply dispatch_tcp_native; [|done].
    fold d. intros Hs. by rewrite Hs in Hfo.
  - left. split; [done|]. intros -> Hc. rewrite Hc in Hun. change (AF_UNIX =? AF_UNIX)%Z with true in Hun.
    by exists s2.
Qed.
End theorems.

(** ** The event loop *)

Section loop_theorems.
Context `{RegexEngine}.

Definition received_by (e : event) : list Notification :=
  match e with EvNotification (Ok n) _ => [n] | _ => [] end.

(** The notifications a state accounts for. *)
Definition accounted (l : loop) : list Notification := lp_requests l ++ (fst <$> lp_replies l).

Lemma loop_step_accounts l e l' :
  length (lp_requests l) ≤ MAX_REQUESTS → loop_step l e = Next l' →
  length (lp_requests l') ≤ MAX_REQUESTS ∧ accounted l' ≡ₚ received_by e ++ accounted l.
Proof.
  intros Hl. unfold loop_step. destruct (negb _); [done|]. unfold accounted.
  destruct e as [sh|r|r|[n|err] r| |i result r|i|r|now]; try done.
  - case_bool_decide as Hfull.
    + unfold stop_on. destruct r; intros [= <-]. simpl. split; [done|]. by rewrite Permutation_middle.
    + intros [= <-]. simpl. rewrite length_app. simpl. split; [lia|]. rewrite <-app_assoc. simpl. by rewrite Permutation_middle.
  - destruct (lp_requests l !! i) as [n|] eqn:Hi; [|by intros [= <-]]. unfold stop_on. destruct r; intros [= <-]. simpl.
    pose proof (length_delete (lp_requests l) i (mk_is_Some _ _ Hi)). split; [lia|]. rewrite <-Permutation_middle.
    rewrite app_comm_cons. by rewrite <-delete_Permutation.
  - destruct (lp_requests l !! i); [done|]. by intros [= <-].
  - destruct (lp_snapshot l); intros [= <-]; done.
  - by intros [= <-].
Qed.

(** C29: While the event loop runs every notification it took from the channel is being
    handled or has been answered, exactly once, and at most 256 are handled at a time. *)
Theorem notifications_accounted (l l' : loop) (events : list event) :
  length (lp_requests l) ≤ MAX_REQUESTS → run_loop l events = Next l' →
  length (lp_requests l') ≤ MAX_REQUESTS ∧
  accounted l' ≡ₚ concat (received_by <$> events) ++ accounted l.
Proof.
  revert l. induction events as [|e events IH]; intros l Hl; simpl.
  - by intros [= <-].
  - destruct (loop_step l e) as [l1|] eqn:E; [|done]. intros Hr.
    destruct (loop_step_accounts _ _ _ Hl E) as [Hl1 Hp1]. destruct (IH _ Hl1 Hr) as [Hl2 Hp2].
    split; [done|]. rewrite Hp2, Hp1. rewrite !app_assoc. by rewrite (Permutation_app_comm (concat _)).
Qed.

(** Draining ends with the last relay, an abort or the deadline. *)
Lemma drain_ends relays s events :
  DeadlinePassed ∈ events ∨ relays ≤ length (List.filter (λ e, match e with RelayJoined _ => true | _ => false end) events) →
  is_Some (drain_relays relays s events).
Proof.
  revert relays s. induction events as [|e events IH]; intros relays s Hc; destruct relays as [|relays]; simpl; try done.
  - destruct Hc as [?%elem_of_nil|Hc]; [done|simpl in Hc; lia].
  - case_bool_decide; [done|]. rewrite elem_of_cons in Hc. cbn [List.filter] in Hc.
    destruct e as [[]|r|[s'|]|]; try done; apply IH.
    + destruct Hc as [[?|?]|Hc]; [done|by left|right; simpl in Hc; lia].
    + destruct Hc as [[?|?]|Hc]; [done|by left|by right].
Qed.
End loop_theorems.

(** ** Examples *)

#[local] Existing Instance LiteralRegex.engine.
#[local] Existing Instance LiteralRegex.laws.

(** An IPv4 TCP socket with cookie 5. *)
Definition tcp_kernel : kernel :=
  mkKernel (λ _ _, Err (RawOs ENOTCONN))
    (λ _ _ o, Ok (if (o =? SO_DOMAIN)%Z then le_bytes 4 AF_INET
                  else if (o =? SO_PROTOCOL)%Z then le_bytes 4 IPPROTO_TCP else le_bytes 8 5))
    (λ _, Ok TCP_CLOSE) (λ _ _, Ok 0%Z).

Definition env_example : engine_env := mkEngineEnv (Ok ()) (λ _ _, Ok 9%Z) (Ok ()) tcp_kernel plain_fs [] (Ok ()).

(** sendto(3, 0x1000, 1, 0, 0, 0) *)
Definition tcp_send : Notification := mkNotification 1 7 0 (mkData 44 0xc000003e 0 [3; 0x1000; 1; 0; 0; 0]%Z).

Lemma native_calls_are_safe_witness :
  let r := dispatch x86_64 env_example started tcp_send short_target in
  fst r = Ok (Done RContinue) ∧ tcp_native x86_64 env_example started 9 tcp_send short_target.
Proof.
  intros r. assert (E : fst r = Ok (Done RContinue)) by (vm_compute; reflexivity). split; [exact E|].
  destruct (native_calls_are_safe x86_64 env_example started tcp_send short_target (snd r)) as [Ho|[[Hs _]|Hn]].
  - rewrite <-E. apply surjective_pairing.
  - discriminate.
  - discriminate.
  - destruct Hn as (fd & domain & Hfd & Hd & [[Hne _]|(_ & _ & Hn)]).
    + injection Hd as <-. exfalso. apply Hne. reflexivity.
    + injection Hfd as <-. exact Hn.
Defined.

Definition loop_example : loop := mkLoop started [] [] None Running.

Lemma notifications_accounted_witness :
  ∃ l, run_loop loop_example [EvNotification (Ok tcp_send) (Ok ()); EvTick 3] = Next l ∧
       length (lp_requests l) ≤ MAX_REQUESTS ∧ accounted l ≡ₚ [tcp_send].
Proof.
  eexists. split; [reflexivity|].
  apply (notifications_accounted loop_example _ [EvNotification (Ok tcp_send) (Ok ()); EvTick 3]).
  - simpl. unfold MAX_REQUESTS. lia.
  - reflexivity.
Defined.
