(* ===== verification/Process.v ===== *)
(** * The command tree: src/process.rs

    [signal_descendants] walks /proc from the reaper and signals what it
    finds, children first; [wait_for_command_tree] reaps the tree and passes
    termination signals on until it is gone. /proc is a function from process
    numbers to what their task directories show, [walk] the loop over the
    stack of processes still to be read. *)
From S2P Require Import Prelude RustStd.

(** ** signal_descendants *)

(** The file [children] of one task: its words as [parse] reads them. *)
Inductive task_children :=
| EntryFailed
| ChildrenGone
| ChildrenFailed
| Children (words : list (option Z)).

Inductive task_listing :=
| ProcessGone
| ListFailed
| Tasks (ts : list task_children).

Inductive process_error :=
| ListThreads
| ReadEntry
| ListChildren
| BadPid
| SendSignal (errno : Z).

Record walk_state := mkWalk { w_pending : list Z; w_descendants : list Z; w_seen : gset Z }.

Definition add_child (w : walk_state) (child : option Z) : result process_error walk_state :=
  match child with
  | None => Err BadPid
  | Some child =>
      if bool_decide (child ∈ w_seen w) then Ok w
      else Ok (mkWalk (child :: w_pending w) (w_descendants w ++ [child]) ({[child]} ∪ w_seen w))
  end.

Fixpoint add_children (w : walk_state) (words : list (option Z)) : result process_error walk_state :=
  match words with
  | [] => Ok w
  | c :: words => w ← add_child w c; add_children w words
  end.

Fixpoint scan_tasks (w : walk_state) (ts : list task_children) : result process_error walk_state :=
  match ts with
  | [] => Ok w
  | EntryFailed :: _ => Err ReadEntry
  | ChildrenGone :: ts => scan_tasks w ts
  | ChildrenFailed :: _ => Err ListChildren
  | Children words :: ts => w ← add_children w words; scan_tasks w ts
  end.

(** [pending] is the Vec with its last element first. *)
Fixpoint walk (fuel : nat) (proc : Z → task_listing) (w : walk_state) : outcome (result process_error (list Z)) :=
  match fuel with
  | O => OutOfFuel
  | S fuel =>
      match w_pending w with
      | [] => Ret (Ok (w_descendants w))
      | pid :: pending =>
          let w := mkWalk pending (w_descendants w) (w_seen w) in
          match proc pid with
          | ProcessGone => walk fuel proc w
          | ListFailed => Ret (Err ListThreads)
          | Tasks ts => match scan_tasks w ts with
                        | Ok w => walk fuel proc w
                        | Err e => Ret (Err e)
                        end
          end
      end
  end.

(** [kill]'s errno, 0 for success. *)
Definition forward_signal (kill : Z → Z) (pid : Z) : result process_error () :=
  let errno := kill pid in
  if (errno =? 0)%Z || (errno =? ESRCH)%Z then Ok () else Err (SendSignal errno).

(** The processes signalled, and the error that ended it. *)
Fixpoint signal_all (kill : Z → Z) (pids : list Z) : list Z * result process_error () :=
  match pids with
  | [] => ([], Ok ())
  | pid :: pids => match forward_signal kill pid with
                   | Ok _ => let '(sent, r) := signal_all kill pids in (pid :: sent, r)
                   | Err e => ([pid], Err e)
                   end
  end.

Definition signal_descendants (fuel : nat) (proc : Z → task_listing) (kill : Z → Z) (root : Z)
    : outcome (list Z * result process_error ()) :=
  found ← walk fuel proc (mkWalk [root] [] {[root]});
  match found with
  | Err e => Ret ([], Err e)
  | Ok descendants => Ret (signal_all kill (reverse descendants))
  end.

(** ** wait_for_command_tree *)

Definition SIGHUP : Z := 1.
Definition SIGINT : Z := 2.
Definition SIGKILL : Z := 9.
Definition SIGTERM : Z := 15.
Definition SIGCHLD : Z := 17.

(** Nanoseconds. *)
Definition TERMINATION_GRACE : Z := 2000000000.

(** What one waitpid(-1, WNOHANG) returned when the loop over it goes on, and
    what ended that loop. *)
Inductive wait_status :=
| Exited (pid code : Z)
| Signaled (pid signal : Z)
| OtherStatus
| Interrupted.

Inductive wait_stop :=
| StillAlive
| WaitErrno (errno : Z).

(** The inner loop: the command's exit code as far as it is known. *)
Fixpoint reap (command : Z) (code : option Z) (waits : list wait_status) : option Z :=
  match waits with
  | [] => code
  | Exited pid c :: waits => reap command (if (pid =? command)%Z then Some c else code) waits
  | Signaled pid s :: waits => reap command (if (pid =? command)%Z then Some (128 + s)%Z else code) waits
  | OtherStatus :: waits | Interrupted :: waits => reap command code waits
  end.

(** One turn of the outer loop: what waitpid returned, the clock, /proc and
    kill as the turn finds them, what sigtimedwait received or its errno, and
    the clock after it. *)
Record tree_round := mkRound {
  tr_waits : list wait_status;
  tr_stop : wait_stop;
  tr_now : Z;
  tr_proc : Z → task_listing;
  tr_kill : Z → Z → Z;
  tr_received : result Z Z;
  tr_after : Z;
}.

(** What the turns did: a signal with the processes it was sent to, and a
    sigtimedwait with its timeout. *)
Inductive tree_effect :=
| SentSignal (signal : Z) (pids : list Z)
| Waited (timeout : option Z).

Record tree_state := mkTree {
  t_code : option Z;
  t_termination : option (Z * Z);
  t_log : list tree_effect;
}.

Inductive tree_end :=
| Status (code : Z)
| NoStatus
| WaitFailed (errno : Z)
| SignalFailed (e : process_error)
| BadSignal (received : Z).

(** [Signal::try_from]. *)
Definition is_signal (n : Z) : bool := (1 <=? n)%Z && (n <=? 31)%Z.

(** [deadline.saturating_duration_since(now)], the signal the descendants get
    and the timeout of the wait after it. *)
Definition remaining (deadline now : Z) : Z := Z.max (deadline - now) 0.

Definition escalated (signal left : Z) : Z := if (left =? 0)%Z then SIGKILL else signal.

Definition grace_timeout (left : Z) : Z := if (left =? 0)%Z then 100000000 else left.

Definition tree_signal (fuel : nat) (reaper : Z) (t : tree_state) (r : tree_round)
    : outcome (tree_state * result process_error (option Z)) :=
  match t_termination t with
  | None => Ret (t, Ok None)
  | Some (signal, deadline) =>
      let left := remaining deadline (tr_now r) in
      let signal := escalated signal left in
      '(pids, sent) ← signal_descendants fuel (tr_proc r) (tr_kill r signal) reaper;
      let t := mkTree (t_code t) (t_termination t) (t_log t ++ [SentSignal signal pids]) in
      Ret (t, match sent with Ok _ => Ok (Some (grace_timeout left)) | Err e => Err e end)
  end.

(** [termination.get_or_insert(...)], with the signal just received. *)
Definition note_signal (termination : option (Z * Z)) (signal after : Z) : option (Z * Z) :=
  if (signal =? SIGCHLD)%Z then termination
  else match termination with
       | Some (_, deadline) => Some (signal, deadline)
       | None => Some (signal, after + TERMINATION_GRACE)%Z
       end.

Definition tree_wait (t : tree_state) (r : tree_round) (timeout : option Z) : tree_state * option tree_end :=
  let t := mkTree (t_code t) (t_termination t) (t_log t ++ [Waited timeout]) in
  match tr_received r with
  | Err errno => (t, if (errno =? EINTR)%Z || (errno =? EAGAIN)%Z then None else Some (WaitFailed errno))
  | Ok signal =>
      if is_signal signal
      then (mkTree (t_code t) (note_signal (t_termination t) signal (tr_after r)) (t_log t), None)
      else (t, Some (BadSignal signal))
  end.

Definition tree_step (fuel : nat) (reaper command : Z) (t : tree_state) (r : tree_round)
    : outcome (tree_state * option tree_end) :=
  let t := mkTree (reap command (t_code t) (tr_waits r)) (t_termination t) (t_log t) in
  match tr_stop r with
  | WaitErrno errno =>
      Ret (t, Some (if (errno =? ECHILD)%Z
                    then match t_code t with Some code => Status code | None => NoStatus end
                    else WaitFailed errno))
  | StillAlive =>
      '(t, sent) ← tree_signal fuel reaper t r;
      Ret (match sent with
           | Err e => (t, Some (SignalFailed e))
           | Ok timeout => tree_wait t r timeout
           end)
  end.

(** The turns the tree needs, or as many as are given. *)
Fixpoint wait_for_command_tree (fuel : nat) (reaper command : Z) (t : tree_state) (rounds : list tree_round)
    : outcome (tree_state * option tree_end) :=
  match rounds with
  | [] => Ret (t, None)
  | r :: rounds =>
      '(t, ended) ← tree_step fuel reaper command t r;
      match ended with
      | Some e => Ret (t, Some e)
      | None => wait_for_command_tree fuel reaper command t rounds
      end
  end.

(** ** run_command_tree *)

(** [prctl] is the result of PR_SET_CHILD_SUBREAPER and errno after it. *)
Definition set_child_subreaper (prctl : Z * Z) : io () :=
  let '(rc, errno) := prctl in if (rc =? -1)%Z then Err (RawOs errno) else Ok ().

(** The results of the reaper's calls up to the wait: prctl, the signal mask,
    fork (the command's number) and the lifetime thread; [ts_self] is getpid. *)
Record tree_setup := mkTreeSetup {
  ts_prctl : Z * Z;
  ts_mask : io ();
  ts_fork : io Z;
  ts_reaper : io ();
  ts_self : Z;
}.

(** The reaper's side. *)
Definition run_command_tree (fuel : nat) (u : tree_setup) (rounds : list tree_round)
    : outcome (io_error + tree_state * option tree_end) :=
  match (_ ← set_child_subreaper (ts_prctl u); _ ← ts_mask u; pid ← ts_fork u; _ ← ts_reaper u; Ok pid) with
  | Err e => Ret (inl e)
  | Ok pid => r ← wait_for_command_tree fuel (ts_self u) pid (mkTree None None []) rounds; Ret (inr r)
  end.

Inductive exec_error :=
| NoCommand
| NulByte
| ExecFailed (errno : Z).

Definition c_string (s : bytes) : result exec_error bytes :=
  if bool_decide (x00 ∈ s) then Err NulByte else Ok s.

Fixpoint c_strings (l : list bytes) : result exec_error (list bytes) :=
  match l with
  | [] => Ok []
  | s :: l => s ← c_string s; l ← c_strings l; Ok (s :: l)
  end.

(** What execvp is called with; [execvp] is its errno if it returns. *)
Definition exec_command (execvp : bytes → list bytes → option Z) (command : list bytes)
    : result exec_error (bytes * list bytes) :=
  match command with
  | [] => Err NoCommand
  | prog :: _ =>
      prog ← c_string prog;
      args ← c_strings command;
      match execvp prog args with
      | Some errno => Err (ExecFailed errno)
      | None => Ok (prog, args)
      end
  end.

(** What is executed is the command as it was given. *)
Lemma c_strings_inv l l' : c_strings l = Ok l' → l' = l ∧ Forall (λ s, x00 ∉ s) l.
Proof.
  revert l'. induction l as [|s l IH]; intros l'; cbn [c_strings]; [intros [= <-]; by split; [|constructor]|].
  unfold c_string. case_bool_decide as Hs; [done|]. cbn [mbind result_bind].
  destruct (c_strings l) as [r|]; [|done]. intros [= <-]. destruct (IH r eq_refl) as [-> Hl]. by split; [|constructor].
Qed.

Lemma exec_command_inv execvp command call :
  exec_command execvp command = Ok call → call = (default [] (head command), command) ∧ Forall (λ s, x00 ∉ s) command.
Proof.
  destruct command as [|prog args]; [done|]. cbn [exec_command]. unfold c_string at 1. case_bool_decide; [done|].
  cbn [mbind result_bind]. destruct (c_strings (prog :: args)) as [l|] eqn:E; [|done]. cbn [mbind result_bind].
  destruct (execvp prog l); [done|]. intros [= <-]. by apply c_strings_inv in E as [-> ?].
Qed.

Lemma reap_app command waits waits' : ∀ code,
  reap command code (waits ++ waits') = reap command (reap command code waits) waits'.
Proof. induction waits as [|[]]; intros; simpl; auto. Qed.

(** ** The process tree *)

Definition task_kids (t : task_children) : list Z :=
  match t with Children words => omap id words | _ => [] end.

Definition kids (l : task_listing) : list Z :=
  match l with Tasks ts => concat (task_kids <$> ts) | _ => [] end.

Definition task_readable (t : task_children) : Prop :=
  match t with
  | ChildrenGone => True
  | Children words => Forall is_Some words
  | _ => False
  end.

Definition readable (l : task_listing) : Prop :=
  match l with ProcessGone => True | ListFailed => False | Tasks ts => Forall task_readable ts end.

(** Below [root]: a child of it, or of something below it. *)
Inductive below (proc : Z → task_listing) (root : Z) : Z → Prop :=
| below_child x : x ∈ kids (proc root) → below proc root x
| below_step x y : below proc root x → y ∈ kids (proc x) → below proc root y.

(** What reading some children adds. *)
Record extends (w w' : walk_state) (cs added : list Z) : Prop := {
  ext_pending : w_pending w' = reverse added ++ w_pending w;
  ext_descendants : w_descendants w' = w_descendants w ++ added;
  ext_seen : w_seen w' = list_to_set added ∪ w_seen w;
  ext_nodup : NoDup added;
  ext_new x : x ∈ added → (x ∉ w_seen w) ∧ x ∈ cs;
  ext_all x : x ∈ cs → x ∈ w_seen w';
}.

Lemma extends_nil w : extends w w [] [].
Proof.
  split; [done|by rewrite app_nil_r|simpl; set_solver|by apply NoDup_nil_2|by intros x ?%elem_of_nil..].
Qed.

(** A child that was seen before, and a new one. *)
Lemma extends_seen w x : x ∈ w_seen w → extends w w [x] [].
Proof.
  intros Hx. split; [done|by rewrite app_nil_r|simpl; set_solver|by apply NoDup_nil_2|by intros y ?%elem_of_nil|].
  by intros y ->%list_elem_of_singleton.
Qed.

Lemma extends_new w x :
  x ∉ w_seen w → extends w (mkWalk (x :: w_pending w) (w_descendants w ++ [x]) ({[x]} ∪ w_seen w)) [x] [x].
Proof.
  intros Hx. split; simpl; [done|done|set_solver|apply NoDup_singleton|..].
  - intros y Hy. apply list_elem_of_singleton in Hy as ->. split; [done|by apply list_elem_of_singleton].
  - intros y ->%list_elem_of_singleton. set_solver.
Qed.

Lemma extends_app w w1 w2 cs cs' a a' :
  extends w w1 cs a → extends w1 w2 cs' a' → extends w w2 (cs ++ cs') (a ++ a').
Proof.
  intros [P1 D1 S1 N1 F1 A1] [P2 D2 S2 N2 F2 A2]. split.
  - by rewrite P2, P1, reverse_app, app_assoc.
  - by rewrite D2, D1, app_assoc.
  - rewrite S2, S1, list_to_set_app_L. set_solver.
  - apply list.NoDup_app. split_and!; [done| |done]. intros x Hx Hx'. apply F2 in Hx' as [Hx' _]. set_solver.
  - intros x [Hx|Hx]%elem_of_app; [apply F1 in Hx|apply F2 in Hx]; set_solver.
  - intros x [Hx|Hx]%elem_of_app; [apply A1 in Hx; set_solver|by apply A2].
Qed.

Lemma add_children_spec words : ∀ w,
  Forall is_Some words → ∃ w' added, add_children w words = Ok w' ∧ extends w w' (omap id words) added.
Proof.
  induction words as [|c words IH]; intros w Hall.
  - exists w, []. split; [done|apply extends_nil].
  - apply Forall_cons_1 in Hall as [[x ->] Hall]. cbn [add_children add_child].
    change (omap id (Some x :: words)) with ([x] ++ omap id words).
    case_bool_decide as Hx; cbn [mbind result_bind].
    + destruct (IH w Hall) as (w' & added & -> & He). exists w', added. split; [done|].
      apply (extends_app w w w' [x] _ [] added); [by apply extends_seen|done].
    + destruct (IH (mkWalk (x :: w_pending w) (w_descendants w ++ [x]) ({[x]} ∪ w_seen w)) Hall) as (w' & added & -> & He).
      exists w', ([x] ++ added). split; [done|]. eapply extends_app; [by apply extends_new|exact He].
Qed.

Lemma scan_tasks_spec ts : ∀ w,
  Forall task_readable ts → ∃ w' added, scan_tasks w ts = Ok w' ∧ extends w w' (concat (task_kids <$> ts)) added.
Proof.
  induction ts as [|t ts IH]; intros w Hall.
  - exists w, []. split; [done|apply extends_nil].
  - apply Forall_cons_1 in Hall as [Ht Hall]. destruct t as [| | |words]; try done; cbn [scan_tasks fmap list_fmap concat task_kids app].
    + by apply IH.
    + destruct (add_children_spec words w Ht) as (w1 & a1 & -> & He1). cbn [mbind result_bind].
      destruct (IH w1 Hall) as (w2 & a2 & -> & He2). exists w2, (a1 ++ a2). split; [done|]. by eapply extends_app.
Qed.

(** ** The walk *)

Record walking (proc : Z → task_listing) (root : Z) (w : walk_state) : Prop := {
  wk_seen x : x ∈ w_seen w ↔ x = root ∨ x ∈ w_descendants w;
  wk_nodup : NoDup (w_descendants w) ∧ (root ∉ w_descendants w);
  wk_pending : NoDup (w_pending w) ∧ ∀ x, x ∈ w_pending w → x ∈ w_seen w;
  wk_closed x y : x ∈ w_seen w → x ∉ w_pending w → y ∈ kids (proc x) → y ∈ w_seen w;
  wk_below x : x ∈ w_descendants w → below proc root x;
  wk_parent pre x post : w_descendants w = pre ++ x :: post → ∃ p, (p = root ∨ p ∈ pre) ∧ x ∈ kids (proc p);
}.

Lemma walking_start proc root : walking proc root (mkWalk [root] [] {[root]}).
Proof.
  split; simpl.
  - intros x. set_solver.
  - split; [by apply NoDup_nil_2|apply not_elem_of_nil].
  - split; [apply NoDup_singleton|set_solver].
  - set_solver.
  - by intros x ?%elem_of_nil.
  - intros pre x post E. by destruct pre.
Qed.

(** One element of an extended list, in its old or in its new part. *)
Lemma split_app {A} (l l' pre post : list A) x :
  l ++ l' = pre ++ x :: post →
  (∃ m, l = pre ++ x :: m) ∨ (∃ pre', pre = l ++ pre' ∧ l' = pre' ++ x :: post).
Proof.
  revert pre. induction l as [|a l IH]; intros pre E; simpl in E.
  - right. by exists pre.
  - destruct pre as [|b pre]; simpl in E; injection E as -> E; [left; by exists l|].
    destruct (IH _ E) as [[m ->]|(pre' & -> & ->)]; [left; by exists m|right; by exists pre'].
Qed.

Lemma NoDup_reverse {A} (l : list A) : NoDup l → NoDup (reverse l).
Proof. by rewrite reverse_Permutation. Qed.

Lemma walking_step proc root pid pending desc seen w' added :
  walking proc root (mkWalk (pid :: pending) desc seen) →
  extends (mkWalk pending desc seen) w' (kids (proc pid)) added → walking proc root w'.
Proof.
  intros [Hs [Hn Hr] [Hpn Hp] Hc Hb Hpar] [EP ED ES EN EF EA]. simpl in *.
  assert (Hpid : pid ∈ seen) by (apply Hp; by left). apply list.NoDup_cons in Hpn as [Hpp Hpn].
  assert (Hold : ∀ x, x ∈ added → (x ∉ seen)) by (intros x Hx; by apply EF).
  split.
  - intros x. rewrite ES, ED, elem_of_union, elem_of_list_to_set, elem_of_app, Hs. tauto.
  - rewrite ED. split.
    + apply list.NoDup_app. split_and!; [done| |done]. intros x Hx Hx'. apply (Hold x Hx'), Hs. by right.
    + rewrite elem_of_app. intros [?|Hx]; [done|]. apply (Hold _ Hx), Hs. by left.
  - rewrite EP, ES. split.
    + apply list.NoDup_app. split_and!; [by apply NoDup_reverse| |done]. intros x Hx Hx'. rewrite elem_of_reverse in Hx.
      apply (Hold _ Hx), Hp. by right.
    + intros x. rewrite elem_of_app, elem_of_reverse.
      intros [Hx|Hx]; apply elem_of_union; [left; by apply elem_of_list_to_set|right].
      apply Hp. by right.
  - intros x y. rewrite EP, elem_of_app, elem_of_reverse. intros Hx Hnp Hy.
    destruct (decide (x = pid)) as [->|Hne]; [by apply EA|]. rewrite ES in Hx |- *.
    apply elem_of_union in Hx as [Hx%elem_of_list_to_set|Hx]; [tauto|]. apply elem_of_union. right.
    apply (Hc x); [done| |done]. rewrite elem_of_cons. tauto.
  - rewrite ED. intros x [Hx|Hx]%elem_of_app; [by apply Hb|]. apply EF in Hx as [_ Hx].
    apply Hs in Hpid as [->|Hpid]; [by apply below_child|]. eapply below_step; [by apply Hb|done].
  - rewrite ED. intros pre x post E. destruct (split_app _ _ _ _ _ E) as [[m ->]|(pre' & -> & Ha)].
    + by apply (Hpar pre x m).
    + exists pid. split; [|apply EF; rewrite Ha; apply elem_of_app; right; by left].
      apply Hs in Hpid as [->|Hpid]; [by left|right]. apply elem_of_app. by left.
Qed.

(** What the processes not seen yet leave to do. *)
Definition walk_measure (universe : gset Z) (w : walk_state) : nat :=
  length (w_pending w) + size (universe ∖ w_seen w).

Lemma extends_measure universe w w' cs added :
  extends w w' cs added → (∀ x, x ∈ cs → x ∈ universe) → walk_measure universe w' ≤ walk_measure universe w.
Proof.
  intros [EP _ ES EN EF _] Hu. unfold walk_measure. rewrite EP, ES, length_app, length_reverse.
  assert (Hsub : list_to_set added ⊆ universe ∖ w_seen w).
  { intros x Hx%elem_of_list_to_set. apply EF in Hx as [? ?]. apply elem_of_difference. auto. }
  replace (universe ∖ (list_to_set added ∪ w_seen w)) with ((universe ∖ w_seen w) ∖ list_to_set added) by set_solver.
  rewrite size_difference by done. rewrite size_list_to_set by done.
  pose proof (subseteq_size _ _ Hsub) as Hle. rewrite size_list_to_set in Hle by done. lia.
Qed.

Lemma walk_finds (universe : gset Z) proc root fuel : ∀ w,
  (∀ p, readable (proc p)) → (∀ p x, x ∈ kids (proc p) → x ∈ universe) →
  walking proc root w → walk_measure universe w < fuel →
  ∃ w', walk fuel proc w = Ret (Ok (w_descendants w')) ∧ walking proc root w' ∧ w_pending w' = [].
Proof.
  induction fuel as [|fuel IH]; intros w Hread Hu Hw Hf; [lia|]. cbn [walk].
  destruct w as [[|pid pending] desc seen]; cbn [w_pending w_descendants w_seen];
    [by exists (mkWalk [] desc seen)|].
  assert (Hm : walk_measure universe (mkWalk pending desc seen) < fuel) by (unfold walk_measure in *; simpl in *; lia).
  pose proof (Hread pid) as Hr. assert (Hk : ∀ x, x ∈ kids (proc pid) → x ∈ universe) by (intros; by eapply Hu).
  destruct (proc pid) as [| |ts] eqn:Ep; [|done|].
  - apply IH; try done. eapply (walking_step proc root pid pending desc seen _ []); [done|].
    rewrite Ep. apply extends_nil.
  - destruct (scan_tasks_spec ts (mkWalk pending desc seen) Hr) as (w' & added & -> & He).
    apply IH; try done.
    + eapply walking_step; [done|]. by rewrite Ep.
    + eapply Nat.le_lt_trans; [|exact Hm]. by eapply extends_measure.
Qed.

Lemma signal_all_ok kill pids :
  (∀ x, x ∈ pids → kill x = 0%Z ∨ kill x = ESRCH) → signal_all kill pids = (pids, Ok ()).
Proof.
  induction pids as [|pid pids IH]; intros Hk; [done|]. cbn [signal_all]. unfold forward_signal.
  replace ((kill pid =? 0)%Z || (kill pid =? ESRCH)%Z) with true.
  - rewrite IH; [done|]. intros x Hx. apply Hk. by right.
  - destruct (Hk pid ltac:(by left)) as [-> | ->]; done.
Qed.

(** What [signal_descendants] sends to when nothing fails. *)
Definition tree_members (proc : Z → task_listing) (root : Z) (sent : list Z) : Prop :=
  NoDup sent ∧ (∀ x, x ∈ sent ↔ below proc root x ∧ x ≠ root) ∧
  (∀ pre x post, sent = pre ++ x :: post → ∃ p, x ∈ kids (proc p) ∧ (p = root ∨ p ∈ post)).

Lemma descendants_signalled (universe : gset Z) (proc : Z → task_listing) (kill : Z → Z) (root : Z) (fuel : nat) :
  (∀ p, readable (proc p)) → (∀ p x, x ∈ kids (proc p) → x ∈ universe) →
  (∀ x, kill x = 0%Z ∨ kill x = ESRCH) → S (size universe) < fuel →
  ∃ sent, signal_descendants fuel proc kill root = Ret (sent, Ok ()) ∧ tree_members proc root sent.
Proof.
  intros Hread Hu Hk Hf. destruct (walk_finds universe proc root fuel (mkWalk [root] [] {[root]})) as (w & Hw & Hok & He);
    [done|done|apply walking_start| |].
  { unfold walk_measure. simpl. pose proof (subseteq_size (universe ∖ {[root]}) universe ltac:(set_solver)). lia. }
  destruct Hok as [Hs [Hn Hr] _ Hc Hb Hp]. exists (reverse (w_descendants w)).
  unfold signal_descendants. rewrite Hw. cbn [mbind outcome_bind]. rewrite signal_all_ok by auto.
  split; [done|]. split; [by apply NoDup_reverse|]. split.
  - intros x. rewrite elem_of_reverse. split.
    + intros Hx. split; [by apply Hb|]. by intros ->.
    + assert (Hin : ∀ x, below proc root x → x ∈ w_seen w).
      { induction 1 as [y Hy|y z _ IH Hz].
        - apply (Hc root); [by apply Hs; left|rewrite He; apply not_elem_of_nil|done].
        - apply (Hc y); [done|rewrite He; apply not_elem_of_nil|done]. }
      intros [Hx Hne]. apply Hin, Hs in Hx as [?|?]; done.
  - intros pre x post E. apply (f_equal reverse) in E. rewrite reverse_involutive, reverse_app, reverse_cons, <-app_assoc in E.
    destruct (Hp (reverse post) x (reverse pre) E) as (p & Hpp & Hx). exists p. split; [done|].
    by rewrite elem_of_reverse in Hpp.
Qed.

(** ** Termination *)

(** The termination signals received, with their times. *)
Definition terminations (rounds : list tree_round) : list (Z * Z) :=
  omap (λ r, match tr_received r with
             | Ok signal => if (signal =? SIGCHLD)%Z then None else Some (signal, tr_after r)
             | Err _ => None
             end) rounds.

(** The latest signal, with the deadline of the first. *)
Definition pending_termination (ts : list (Z * Z)) : option (Z * Z) :=
  match ts !! 0, list.last ts with
  | Some (_, first), Some (signal, _) => Some (signal, first + TERMINATION_GRACE)%Z
  | _, _ => None
  end.

Lemma pending_termination_snoc ts signal after :
  pending_termination (ts ++ [(signal, after)]) =
    match pending_termination ts with
    | Some (_, deadline) => Some (signal, deadline)
    | None => Some (signal, after + TERMINATION_GRACE)%Z
    end.
Proof.
  unfold pending_termination. rewrite last_snoc. destruct ts as [|[s0 t0] ts]; [done|]. cbn [app lookup list_lookup].
  by destruct (list.last ((s0, t0) :: ts)) as [[s1 t1]|] eqn:E; [|apply last_None in E].
Qed.

Lemma terminations_snoc rounds r : terminations (rounds ++ [r]) = terminations rounds ++ terminations [r].
Proof. apply omap_app. Qed.

(** One turn that goes on keeps [t_termination] what the signals received so
    far make it. *)
Lemma note_signal_pending rounds r signal :
  tr_received r = Ok signal →
  note_signal (pending_termination (terminations rounds)) signal (tr_after r) =
    pending_termination (terminations (rounds ++ [r])).
Proof.
  intros E. rewrite terminations_snoc. unfold note_signal, terminations at 2. simpl. rewrite E.
  destruct (signal =? SIGCHLD)%Z; [by rewrite app_nil_r|]. by rewrite pending_termination_snoc.
Qed.

Lemma no_signal_pending rounds r errno :
  tr_received r = Err errno → terminations (rounds ++ [r]) = terminations rounds.
Proof. intros E. rewrite terminations_snoc. unfold terminations at 2. simpl. rewrite E. apply app_nil_r. Qed.

(** ** The log of a run *)

(** What a turn does while the tree is alive, by the termination signals
    received before it. *)
Definition turn_effects (reaper : Z) (before : list (Z * Z)) (r : tree_round) (effects : list tree_effect) : Prop :=
  match pending_termination before with
  | None => effects = [Waited None]
  | Some (signal, deadline) =>
      ∃ pids, tree_members (tr_proc r) reaper pids ∧
        effects = if (deadline <=? tr_now r)%Z
                  then [SentSignal SIGKILL pids; Waited (Some 100000000%Z)]
                  else [SentSignal signal pids; Waited (Some (deadline - tr_now r)%Z)]
  end.

Inductive run_effects (reaper : Z) : list tree_round → list tree_effect → Prop :=
| run_start : run_effects reaper [] []
| run_turn rounds r log effects :
    run_effects reaper rounds log → turn_effects reaper (terminations rounds) r effects →
    run_effects reaper (rounds ++ [r]) (log ++ effects).

(** A turn of a tree that can be read and signalled, and is still alive. *)
Record turn_ok (universe : gset Z) (r : tree_round) : Prop := {
  ok_readable p : readable (tr_proc r p);
  ok_universe p x : x ∈ kids (tr_proc r p) → x ∈ universe;
  ok_kill signal x : tr_kill r signal x = 0%Z ∨ tr_kill r signal x = ESRCH;
  ok_alive : tr_stop r = StillAlive;
  ok_received : match tr_received r with
                | Ok signal => is_signal signal = true
                | Err errno => errno = EINTR ∨ errno = EAGAIN
                end;
}.

Lemma remaining_zero deadline now : (remaining deadline now =? 0)%Z = (deadline <=? now)%Z.
Proof. unfold remaining. destruct (Z.leb_spec deadline now); [apply Z.eqb_eq|apply Z.eqb_neq]; lia. Qed.

Lemma tree_signal_effects universe fuel reaper t r before :
  turn_ok universe r → S (size universe) < fuel → t_termination t = pending_termination before →
  ∃ sent timeout, tree_signal fuel reaper t r = Ret (mkTree (t_code t) (t_termination t) (t_log t ++ sent), Ok timeout) ∧
    turn_effects reaper before r (sent ++ [Waited timeout]).
Proof.
  intros [Hr Hu Hk _ _] Hf Ht. unfold tree_signal, turn_effects. rewrite <-Ht.
  destruct t as [code [[signal deadline]|] log]; simpl; [|exists [], None; by rewrite app_nil_r].
  destruct (descendants_signalled universe (tr_proc r) (tr_kill r (escalated signal (remaining deadline (tr_now r)))) reaper fuel)
    as (pids & -> & Hm); [done|done|auto|done|].
  eexists [SentSignal _ pids], (Some _). split; [done|]. exists pids. split; [done|].
  unfold escalated, grace_timeout. rewrite remaining_zero. destruct (Z.leb_spec deadline (tr_now r)); [done|].
  simpl. repeat f_equal. unfold remaining. lia.
Qed.

Lemma tree_step_ok universe fuel reaper command t r rounds log :
  turn_ok universe r → S (size universe) < fuel → t_termination t = pending_termination (terminations rounds) →
  t_log t = log → run_effects reaper rounds log →
  ∃ t', tree_step fuel reaper command t r = Ret (t', None) ∧
    t_termination t' = pending_termination (terminations (rounds ++ [r])) ∧
    run_effects reaper (rounds ++ [r]) (t_log t') ∧ t_code t' = reap command (t_code t) (tr_waits r).
Proof.
  intros Hok Hf Ht Hl He. unfold tree_step. rewrite (ok_alive _ _ Hok).
  destruct (tree_signal_effects universe fuel reaper (mkTree (reap command (t_code t) (tr_waits r)) (t_termination t) (t_log t))
    r (terminations rounds) Hok Hf Ht) as (sent & timeout & -> & Hturn).
  cbn [mbind outcome_bind t_code t_termination t_log]. unfold tree_wait. cbn [t_code t_termination t_log].
  pose proof (ok_received _ _ Hok) as Hrec. destruct (tr_received r) as [signal|errno] eqn:Er.
  - rewrite Hrec. eexists. split; [done|]. cbn [t_code t_termination t_log]. rewrite Ht, Hl, <-app_assoc.
    split; [by apply note_signal_pending|]. split; [by econstructor|done].
  - replace ((errno =? EINTR)%Z || (errno =? EAGAIN)%Z) with true by (by destruct Hrec as [-> | ->]).
    eexists. split; [done|]. cbn [t_code t_termination t_log]. rewrite Ht, Hl, <-app_assoc, (no_signal_pending _ _ _ Er).
    split; [done|]. split; [by econstructor|done].
Qed.

Lemma wait_for_command_tree_ok universe fuel reaper command rounds : ∀ before t,
  S (size universe) < fuel → Forall (turn_ok universe) rounds →
  t_termination t = pending_termination (terminations before) → run_effects reaper before (t_log t) →
  ∃ t', wait_for_command_tree fuel reaper command t rounds = Ret (t', None) ∧
    run_effects reaper (before ++ rounds) (t_log t') ∧
    t_code t' = reap command (t_code t) (concat (tr_waits <$> rounds)).
Proof.
  induction rounds as [|r rounds IH]; intros before t Hf Hall Ht He.
  { exists t. by rewrite app_nil_r. }
  apply Forall_cons_1 in Hall as [Hok Hall]. cbn [wait_for_command_tree].
  destruct (tree_step_ok universe fuel reaper command t r before (t_log t)) as (t1 & -> & Ht1 & He1 & Hc1); try done.
  cbn [mbind outcome_bind]. destruct (IH (before ++ [r]) t1 Hf Hall Ht1 He1) as (t' & -> & He' & Hc').
  exists t'. rewrite <-app_assoc in He'. split; [done|]. split; [done|].
  rewrite Hc', Hc1. simpl. by rewrite reap_app.
Qed.

(** What waitpid says of the command itself. *)
Definition command_status (command : Z) (w : wait_status) : option Z :=
  match w with
  | Exited pid code => if (pid =? command)%Z then Some code else None
  | Signaled pid signal => if (pid =? command)%Z then Some (128 + signal)%Z else None
  | _ => None
  end.

Lemma last_cons_default {A} (x : A) l : list.last (x :: l) = Some (default x (list.last l)).
Proof. rewrite last_cons. by destruct (list.last l). Qed.

Lemma reap_last command waits : ∀ code,
  reap command code waits =
    match list.last (omap (command_status command) waits) with Some c => Some c | None => code end.
Proof.
  induction waits as [|[pid c|pid c| |] waits IH]; intros code; cbn [reap omap list_omap command_status]; try apply IH; [done|..];
    (destruct (pid =? command)%Z; [|apply IH]); rewrite IH, last_cons_default; by destruct (list.last _).
Qed.

Lemma wait_for_command_tree_app fuel reaper command rounds rounds' : ∀ t t',
  wait_for_command_tree fuel reaper command t rounds = Ret (t', None) →
  wait_for_command_tree fuel reaper command t (rounds ++ rounds') =
    wait_for_command_tree fuel reaper command t' rounds'.
Proof.
  induction rounds as [|r rounds IH]; intros t t'; simpl; [by intros [= ->]|].
  destruct (tree_step fuel reaper command t r) as [[t1 [e|]]| |]; try done. apply IH.
Qed.

(** ** Theorems *)

(** C27: The reaper ends when no child is left, with the exit status last reaped for the
    command (128 plus the signal when it was killed). Until then each turn after a
    termination signal reaches exactly the descendants, children before parents: with the
    latest signal received until two seconds after the first, with SIGKILL from then on,
    waiting in between for at most what is left of the two seconds, or for 100 ms. *)
Theorem command_tree_supervised (universe : gset Z) (fuel : nat) (reaper command : Z) (rounds : list tree_round) (r : tree_round) :
  S (size universe) < fuel → Forall (turn_ok universe) rounds → tr_stop r = WaitErrno ECHILD →
  ∃ t, wait_for_command_tree fuel reaper command (mkTree None None []) (rounds ++ [r]) =
         Ret (t, Some (match list.last (omap (command_status command) (concat (tr_waits <$> (rounds ++ [r])))) with
                       | Some code => Status code
                       | None => NoStatus
                       end)) ∧
       run_effects reaper rounds (t_log t).
Proof.
  intros Hf Hall Hr.
  destruct (wait_for_command_tree_ok universe fuel reaper command rounds [] (mkTree None None []))
    as (t' & Hrun & He & Hc); [done|done|done|constructor|].
  rewrite (wait_for_command_tree_app _ _ _ _ _ _ _ Hrun). cbn [wait_for_command_tree]. unfold tree_step. rewrite Hr.
  cbn [mbind outcome_bind t_code t_log]. exists (mkTree (reap command (t_code t') (tr_waits r)) (t_termination t') (t_log t')).
  split; [|exact He]. rewrite Hc. cbn [t_code]. rewrite <-reap_app, reap_last, fmap_app, concat_app. cbn [fmap list_fmap concat].
  rewrite app_nil_r. by destruct (list.last _).
Qed.

(** A reaper 1 whose child 2 has a child 3 in its second thread: SIGTERM, then
    SIGKILL when two seconds have passed. *)
Definition demo_proc (pid : Z) : task_listing :=
  if (pid =? 1)%Z then Tasks [Children [Some 2%Z]]
  else if (pid =? 2)%Z then Tasks [ChildrenGone; Children [Some 3%Z]]
  else ProcessGone.

Definition demo_round now received after :=
  mkRound [Interrupted] StillAlive now demo_proc (λ _ x, if (x =? 3)%Z then ESRCH else 0%Z) received after.

Definition demo_rounds : list tree_round :=
  [ demo_round 0 (Ok SIGCHLD) 5; demo_round 6 (Ok SIGTERM) 7; demo_round 8 (Err EAGAIN) 9;
    demo_round 3000000000 (Err EINTR) 0 ].

Lemma demo_round_ok now received after :
  match received with Ok s => is_signal s = true | Err e => e = EINTR ∨ e = EAGAIN end →
  turn_ok {[2; 3]}%Z (demo_round now received after).
Proof.
  intros Hr. split; simpl; [..|done|done].
  - intros p. unfold demo_proc. repeat case_match; simpl; repeat constructor; by eexists.
  - intros p x. unfold demo_proc. repeat case_match; simpl; set_solver.
  - intros _ x. destruct (x =? 3)%Z; auto.
Qed.

Lemma command_tree_supervised_witness :
  ∃ t, wait_for_command_tree 4 1 2 (mkTree None None [])
         (demo_rounds ++ [mkRound [Signaled 2 9; Exited 3 0] (WaitErrno ECHILD) 0 demo_proc (λ _ _, 0%Z) (Ok 1%Z) 0]) =
       Ret (t, Some (Status 137)) ∧ run_effects 1 demo_rounds (t_log t).
Proof.
  apply (command_tree_supervised {[2; 3]}%Z).
  - by vm_compute; lia.
  - repeat (apply Forall_cons_2; [apply demo_round_ok; simpl; auto|]). apply Forall_nil_2.
  - reflexivity.
Defined.
