(* ===== verification/Direct.v ===== *)
(** * Direct connections: src/proxy/direct.rs

    [resolve_ipv4] reads getaddrinfo's answer, [run_lookup] runs it on a
    worker thread that holds a permit of the semaphore until the native call
    returns, and [connect_with_lookup] tries the addresses in order, all of it
    within the connection timeout. getaddrinfo, the worker threads and
    connect(2) are parameters; the clock is in seconds. *)
From S2P Require Import Prelude RustStd Net Stream Proxy Access Memory Sockets.

Definition CONNECT_TIMEOUT : Z := 32.
Definition LOOKUP_TIMEOUT : Z := 5.

Definition EAI_NONAME : Z := -2.
Definition EAI_AGAIN : Z := -3.
Definition EAI_NODATA : Z := -5.
Definition EAI_ADDRFAMILY : Z := -9.
Definition EAI_SYSTEM : Z := -11.

(** ** resolve_ipv4 *)

(** One entry of the list: its family, and the sockaddr that [ai_addr] points
    to, [ai_addrlen] bytes long. *)
Record addrinfo := mkAddrinfo { ai_family : Z; ai_addr : option bytes }.

(** getaddrinfo: its result, the list it stored, and errno after it. *)
Record gai_answer := mkAnswer { gai_error : Z; gai_list : list addrinfo; gai_errno : Z }.

Definition entry_ip (e : addrinfo) : option Ipv4Addr :=
  if negb (ai_family e =? AF_INET)%Z then None else
  addr ← ai_addr e;
  if bool_decide (16 ≤ length addr) then Some (sa_ip (decode addr)) else None.

Definition add_address (addresses : list Ipv4Addr) (ip : Ipv4Addr) : list Ipv4Addr :=
  if bool_decide (ip ∈ addresses) then addresses else addresses ++ [ip].

Fixpoint collect (addresses : list Ipv4Addr) (entries : list addrinfo) : list Ipv4Addr :=
  match entries with
  | [] => addresses
  | e :: entries =>
      match entry_ip e with
      | Some ip => collect (add_address addresses ip) entries
      | None => collect addresses entries
      end
  end.

Definition resolve_ipv4 (getaddrinfo : bytes → gai_answer) (domain : bytes) : io (list Ipv4Addr) :=
  if bool_decide (domain = []) then Err (RawOs EHOSTUNREACH) else
  if bool_decide (x00 ∈ domain) then Err (RawOs EINVAL) else
  let a := getaddrinfo domain in
  let error := gai_error a in
  if (error =? 0)%Z then Ok (collect [] (gai_list a))
  else if (error =? EAI_NONAME)%Z || (error =? EAI_NODATA)%Z || (error =? EAI_ADDRFAMILY)%Z then Err (RawOs EHOSTUNREACH)
  else if (error =? EAI_AGAIN)%Z then Err (RawOs EAGAIN)
  else if (error =? EAI_SYSTEM)%Z then Err (RawOs (gai_errno a))
  else Err (RawOs EIO).

(** ** run_lookup *)

(** [lookups]: the permits left, and the workers that hold one with the domain
    each resolves. *)
Record DirectConnector := mkDirect { dc_permits : nat; dc_workers : list bytes }.

Definition direct_default : DirectConnector := mkDirect 32 [].

(** [try_acquire_owned] and the spawn: a closure that was not spawned drops
    its permit. *)
Definition lookup_begin (spawned : io ()) (domain : bytes) (d : DirectConnector) : io () * DirectConnector :=
  match dc_permits d with
  | O => (Err (RawOs EAGAIN), d)
  | S n => match spawned with
           | Ok _ => (Ok (), mkDirect n (domain :: dc_workers d))
           | Err e => (Err e, d)
           end
  end.

(** The worker in place [i] returns: its permit is dropped. *)
Definition lookup_end (i : nat) (d : DirectConnector) : DirectConnector :=
  match dc_workers d !! i with
  | Some _ => mkDirect (S (dc_permits d)) (delete i (dc_workers d))
  | None => d
  end.

(** What the oneshot receiver sees: the worker's answer after [elapsed]
    seconds, its sender dropped, or nothing yet. *)
Inductive waited :=
| Answered (elapsed : Z) (r : io (list Ipv4Addr))
| WorkerStopped (elapsed : Z)
| NoAnswer.

(** The seconds it took and the result. *)
Definition lookup_wait (w : waited) : Z * io (list Ipv4Addr) :=
  let timeout := (LOOKUP_TIMEOUT, Err (RawOs ETIMEDOUT)) in
  match w with
  | Answered elapsed r => if (elapsed <=? LOOKUP_TIMEOUT)%Z then (elapsed, r) else timeout
  | WorkerStopped elapsed => if (elapsed <=? LOOKUP_TIMEOUT)%Z then (elapsed, Err (Simple OtherKind)) else timeout
  | NoAnswer => timeout
  end.

Definition run_lookup (spawned : io ()) (domain : bytes) (w : waited) (d : DirectConnector)
    : (Z * io (list Ipv4Addr)) * DirectConnector :=
  match lookup_begin spawned domain d with
  | (Err e, d) => ((0%Z, Err e), d)
  | (Ok _, d) => (lookup_wait w, d)
  end.

(** ** connect_with_lookup *)

Section connecting.
Context {T : Type}.

(** connect(2) to an address at a time: how long it takes, and the stream or
    the error. [nodelay] is TCP_NODELAY's result on a stream. *)
Record dialer := mkDialer { d_connect : Z → SocketAddrV4 → Z * io T; d_nodelay : T → io () }.

Inductive direct_error := DirectIo (e : io_error) | DirectTimeout.

(** The loop over the addresses, from time [at] on: the time it ends. *)
Fixpoint try_addresses (k : dialer) (now : Z) (port : Z) (addresses : list Ipv4Addr) (last_error : io_error)
    : Z * io (ProxyStream T) :=
  match addresses with
  | [] => (now, Err last_error)
  | address :: addresses =>
      let '(took, r) := d_connect k now (SockAddr address port) in
      match r with
      | Ok stream => ((now + took)%Z, _ ← d_nodelay k stream; Ok (stream_new stream []))
      | Err error => try_addresses k (now + took) port addresses error
      end
  end.

Definition connect_with_lookup (k : dialer) (lookup : Z * io (list Ipv4Addr)) (port : Z)
    : result direct_error (ProxyStream T) :=
  let '(now, r) := match lookup with
                   | (took, Err e) => (took, Err e)
                   | (took, Ok addresses) => try_addresses k took port addresses (RawOs EHOSTUNREACH)
                   end in
  if (now <=? CONNECT_TIMEOUT)%Z then map_err DirectIo r else Err DirectTimeout.

(** [DirectConnector::connect] once the worker has answered or not. *)
Definition direct_connect (k : dialer) (spawned : io ()) (host : bytes) (port : Z) (w : waited) (d : DirectConnector)
    : result direct_error (ProxyStream T) * DirectConnector :=
  let '(lookup, d) := run_lookup spawned host w d in (connect_with_lookup k lookup port, d).
End connecting.
Arguments dialer : clear implicits.

(** ** The addresses *)

Lemma collect_foldl entries : ∀ acc,
  collect acc entries = foldl add_address acc (omap entry_ip entries).
Proof.
  induction entries as [|e entries IH]; intros acc; [done|]. cbn [collect omap list_omap].
  destruct (entry_ip e); apply IH.
Qed.

(** The first occurrence of each address, in order. *)
Fixpoint first_occurrences (ips : list Ipv4Addr) : list Ipv4Addr :=
  match ips with
  | [] => []
  | ip :: ips => ip :: base.filter (.≠ ip) (first_occurrences ips)
  end.

Lemma foldl_add_address ips : ∀ acc,
  foldl add_address acc ips = acc ++ base.filter (.∉ acc) (first_occurrences ips).
Proof.
  induction ips as [|ip ips IH]; intros acc; cbn [foldl first_occurrences]; [by rewrite app_nil_r|].
  rewrite IH. unfold add_address. rewrite filter_cons, list_filter_filter. case_bool_decide as Hin.
  - rewrite decide_False by tauto. f_equal. apply list_filter_iff. intros x. naive_solver.
  - rewrite decide_True by done. rewrite <-app_assoc. simpl. do 2 f_equal. apply list_filter_iff.
    intros x. rewrite not_elem_of_app, list_elem_of_singleton. tauto.
Qed.

Lemma collect_first_occurrences entries : collect [] entries = first_occurrences (omap entry_ip entries).
Proof.
  rewrite collect_foldl, foldl_add_address. simpl.
  induction (first_occurrences _) as [|x l IH]; [done|]. by rewrite filter_cons_True, IH by apply not_elem_of_nil.
Qed.

(** ** Permits *)

Inductive lookup_step : DirectConnector → DirectConnector → Prop :=
| step_begin spawned domain d : lookup_step d (lookup_begin spawned domain d).2
| step_end i d : lookup_step d (lookup_end i d).

Inductive direct_reachable : DirectConnector → Prop :=
| direct_start : direct_reachable direct_default
| direct_next d d' : direct_reachable d → lookup_step d d' → direct_reachable d'.

Definition permits_ok (d : DirectConnector) : Prop := dc_permits d + length (dc_workers d) = 32.

Lemma lookup_step_ok d d' : permits_ok d → lookup_step d d' → permits_ok d'.
Proof.
  unfold permits_ok. intros Hok Hs. revert Hok. destruct Hs as [spawned domain d0|i d0]; unfold lookup_begin, lookup_end; intros Hok.
  - destruct (dc_permits d0) as [|n] eqn:E; simpl; [lia|]. destruct spawned; simpl; lia.
  - destruct (dc_workers d0 !! i) as [w|] eqn:E; [|done]. simpl.
    rewrite length_delete by done. apply lookup_lt_Some in E. lia.
Qed.

Lemma direct_reachable_ok d : direct_reachable d → permits_ok d.
Proof. induction 1; [done|by eapply lookup_step_ok]. Qed.

(** ** The addresses tried *)

(** When the attempts before an address have all failed, its own starts. *)
Fixpoint failed_until {T} (k : dialer T) (now port : Z) (addresses : list Ipv4Addr) : option Z :=
  match addresses with
  | [] => Some now
  | address :: addresses =>
      match d_connect k now (SockAddr address port) with
      | (took, Err _) => failed_until k (now + took) port addresses
      | (_, Ok _) => None
      end
  end.

Lemma try_addresses_app {T} (k : dialer T) port before : ∀ now last_error after t,
  failed_until k now port before = Some t →
  ∃ error, try_addresses k now port (before ++ after) last_error = try_addresses k t port after error.
Proof.
  induction before as [|a before IH]; intros now last_error after t; cbn [failed_until try_addresses app].
  - intros [= ->]. eauto.
  - destruct (d_connect k now (SockAddr a port)) as [took [s|e]]; [done|]. apply IH.
Qed.

Lemma direct_connect_answered {T} (k : dialer T) host port elapsed r d :
  dc_permits d ≠ 0 → (elapsed ≤ LOOKUP_TIMEOUT)%Z →
  (direct_connect k (Ok ()) host port (Answered elapsed r) d).1 = connect_with_lookup k (elapsed, r) port.
Proof.
  intros Hp He. unfold direct_connect, run_lookup, lookup_begin, lookup_wait.
  destruct (dc_permits d); [done|]. by apply Z.leb_le in He as ->.
Qed.

(** ** Theorems *)

(** C36: When a lookup permit is free and getaddrinfo answers within 5 seconds, a direct
    connection tries the addresses it gave, each once, in order of first occurrence, and is
    the first that succeeds, or a timeout when the resolution and the attempts up to it took
    more than 32 seconds. *)
Theorem direct_connects_in_order {T} (k : dialer T) (getaddrinfo : bytes → gai_answer) (host : bytes) (port elapsed t took : Z)
    (before after : list Ipv4Addr) (a : Ipv4Addr) (s : T) (d : DirectConnector) :
  host ≠ [] → x00 ∉ host → gai_error (getaddrinfo host) = 0%Z →
  first_occurrences (omap entry_ip (gai_list (getaddrinfo host))) = before ++ a :: after →
  dc_permits d ≠ 0 → (elapsed ≤ LOOKUP_TIMEOUT)%Z →
  failed_until k elapsed port before = Some t → d_connect k t (SockAddr a port) = (took, Ok s) → d_nodelay k s = Ok () →
  (direct_connect k (Ok ()) host port (Answered elapsed (resolve_ipv4 getaddrinfo host)) d).1 =
    if (t + took <=? CONNECT_TIMEOUT)%Z then Ok (stream_new s []) else Err DirectTimeout.
Proof.
  intros Hne H0 Hg Hl Hp He Hf Hc Hn. rewrite direct_connect_answered by done.
  unfold resolve_ipv4. rewrite !bool_decide_false by done. rewrite Hg. simpl Z.eqb. cbv iota.
  rewrite collect_first_occurrences, Hl. unfold connect_with_lookup.
  destruct (try_addresses_app k port before elapsed (RawOs EHOSTUNREACH) (a :: after) t Hf) as [error ->].
  cbn [try_addresses]. rewrite Hc, Hn. done.
Qed.

(** At most 32 resolver threads run: a lookup fails with EAGAIN while 32 do, and
    otherwise takes a permit that stays with its thread even when the wait for it times out. *)
Lemma lookups_bounded (spawned : io ()) (domain : bytes) (w : waited) (d : DirectConnector) :
  direct_reachable d →
  length (dc_workers d) ≤ 32 ∧
  (length (dc_workers d) = 32 → run_lookup spawned domain w d = ((0%Z, Err (RawOs EAGAIN)), d)) ∧
  (length (dc_workers d) < 32 →
     (run_lookup (Ok ()) domain w d).2 = mkDirect (dc_permits d - 1) (domain :: dc_workers d) ∧
     (run_lookup (Ok ()) domain w d).1 = lookup_wait w).
Proof.
  intros Hok%direct_reachable_ok. unfold permits_ok in Hok. split; [lia|].
  unfold run_lookup, lookup_begin. split; intros Hl.
  - by replace (dc_permits d) with 0 by lia.
  - destruct (dc_permits d) as [|n] eqn:E; [lia|]. simpl. by rewrite Nat.sub_0_r.
Qed.

(** Two answers, the second a duplicate of the first, then one that accepts. *)
Definition gai_example (_ : bytes) : gai_answer :=
  mkAnswer 0 [ mkAddrinfo AF_INET (Some (sockaddr (SockAddr (ipv4 10 0 0 1) 0)));
               mkAddrinfo AF_INET (Some (sockaddr (SockAddr (ipv4 10 0 0 1) 0)));
               mkAddrinfo 10 None;
               mkAddrinfo AF_INET (Some (sockaddr (SockAddr (ipv4 10 0 0 2) 0))) ] 0.

Definition dialer_example : dialer Z :=
  mkDialer (λ _ a, if bool_decide (sa_ip a = ipv4 10 0 0 2) then (1%Z, Ok 7%Z) else (20%Z, Err (RawOs ECONNREFUSED))) (λ _, Ok ()).

Lemma direct_connects_in_order_witness :
  (direct_connect dialer_example (Ok ()) (lit "a.test") 80 (Answered 2 (resolve_ipv4 gai_example (lit "a.test"))) direct_default).1 =
    Ok (stream_new 7%Z []).
Proof.
  apply (direct_connects_in_order dialer_example gai_example (lit "a.test") 80 2 22 1 [ipv4 10 0 0 1] [] (ipv4 10 0 0 2));
    try (vm_compute; congruence); try reflexivity.
  by apply (bool_decide_unpack (x00 ∉ lit "a.test")); vm_compute.
Defined.

Lemma lookups_bounded_witness :
  (run_lookup (Ok ()) (lit "a") NoAnswer (mkDirect 31 [lit "b"])).2 = mkDirect 30 [lit "a"; lit "b"].
Proof.
  destruct (lookups_bounded (Ok ()) (lit "a") NoAnswer (mkDirect 31 [lit "b"])) as (_ & _ & H).
  - apply (direct_next direct_default); [constructor|]. apply (step_begin (Ok ()) (lit "b") direct_default).
  - apply H. simpl. lia.
Defined.
