(* ===== verification/Upstream.v ===== *)
(** * Reaching the upstream: src/proxy/mod.rs, src/broker/tcp.rs

    [connect_inner] picks the client of a route and [relay_dial] the way a
    relay reaches its target: domains routed directly through the shared direct
    connector, everything else through the route. [dial] is
    [TcpStream::connect], [took] how many seconds the exchange with a proxy
    lasts. [routed] is what the broker's jobs keep of the routing decision. *)
From S2P Require Import Prelude RustStd Net FakeDns Stream Proxy Rule Config.
From S2P Require Import Socks5 Http Dns Seccomp Access Memory TcpBind Sockets Ingress Files Tcp Broker Direct.

Inductive upstream_error :=
| NeedsConnector
| SocksFailed (e : socks_error)
| HttpFailed (e : http_error)
| DirectFailed (e : direct_error)
| UpstreamTimeout.

Definition connect_inner (dial : bytes → io sock) (route : ProxyConfig) (target : ProxyTarget)
    : result upstream_error (ProxyStream sock) :=
  match route with
  | Direct => Err NeedsConnector
  | Socks5 addr auth => map_err SocksFailed (Socks5.connect dial addr auth target)
  | Http addr auth => map_err HttpFailed (Http.connect dial addr auth target)
  end.

Definition proxy_connect (dial : bytes → io sock) (took : Z) (route : ProxyConfig) (target : ProxyTarget)
    : result upstream_error (ProxyStream sock) :=
  if (took <=? CONNECT_TIMEOUT)%Z then connect_inner dial route target else Err UpstreamTimeout.

(** What the two ways find: the proxy, or the host's resolver and network. *)
Record dial_env := mkDialEnv {
  de_dial : bytes → io sock;
  de_took : Z;
  de_direct : dialer sock;
  de_spawned : io ();
  de_lookup : bytes → waited;
}.

Definition relay_dial (e : dial_env) (route : ProxyConfig) (target : ProxyTarget) (d : DirectConnector)
    : result upstream_error (ProxyStream sock) * DirectConnector :=
  match upstream_of route target with
  | ViaConnector host port =>
      let '(r, d) := direct_connect (de_direct e) (de_spawned e) host port (de_lookup e host) d in
      (map_err DirectFailed r, d)
  | ViaRoute route target => (proxy_connect (de_dial e) (de_took e) route target, d)
  end.

(** ** The exchange on the wire *)

Lemma map_err_ok {E F A} (f : E → F) (r : result E A) a : map_err f r = Ok a → r = Ok a.
Proof. by destruct r; intros [= ->]. Qed.

Lemma do_connect_ok s target auth st :
  do_connect s target auth = Ok st →
  tx (inner st) = tx s ++ Http.connect_request target auth ∧
  spec_response (rx_end s) (incoming s) = Ok (stream_content st).
Proof.
  unfold do_connect. rewrite M_bind_run. unfold write_request. simpl.
  destruct (write_all _ s) as [[[]|e] s1] eqn:Ew; [|done].
  apply write_all_ok in Ew as (Htx & Hrx & Hend).
  pose proof (read_response_spec (mkBuf [] s1)) as H. change (pending (mkBuf [] s1)) with (incoming s1) in H.
  unfold incoming in *. cbn [bsock] in H. rewrite Hend, Hrx in H. destruct (spec_response _ _) as [tunnel|e].
  - destruct H as (b' & -> & Hp & _ & Ht). intros [= <-]. unfold stream_content. simpl. rewrite drop_0, Ht.
    split; [done|]. by rewrite <-Hp.
  - by destruct H as (b' & ->).
Qed.

Lemma try_addresses_ok {T} (k : dialer T) port addresses : ∀ now error t st,
  try_addresses k now port addresses error = (t, Ok st) →
  ∃ a at_ took, a ∈ addresses ∧ d_connect k at_ (SockAddr a port) = (took, Ok (inner st)).
Proof.
  induction addresses as [|a addresses IH]; intros now error t st; cbn [try_addresses]; [done|].
  destruct (d_connect k now (SockAddr a port)) as [took [s|e]] eqn:E.
  - destruct (d_nodelay k s); [|done]. cbn [mbind result_bind]. intros [= <- <-]. exists a, now, took. by split; [left|].
  - intros (a' & at_ & took' & Hin & Hc)%IH. exists a', at_, took'. by split; [right|].
Qed.

(** What a stream to [target] by [route] is. *)
Definition reached (e : dial_env) (route : ProxyConfig) (target : ProxyTarget) (st : ProxyStream sock) : Prop :=
  match route with
  | Socks5 addr auth =>
      ∃ s sent received, de_dial e addr = Ok s ∧ transcript auth target sent received ∧
        tx (inner st) = tx s ++ sent ∧ incoming s = received ++ incoming (inner st) ∧ buffered st = []
  | Http addr auth =>
      ∃ s, de_dial e addr = Ok s ∧ tx (inner st) = tx s ++ Http.connect_request target auth ∧
        spec_response (rx_end s) (incoming s) = Ok (stream_content st)
  | Direct =>
      ∃ host port elapsed addresses a at_ took, target = TDomain host port ∧
        de_lookup e host = Answered elapsed (Ok addresses) ∧ a ∈ addresses ∧
        d_connect (de_direct e) at_ (SockAddr a port) = (took, Ok (inner st))
  end.

Lemma connect_with_lookup_ok {T} (k : dialer T) lookup port st :
  connect_with_lookup k lookup port = Ok st →
  ∃ elapsed addresses a at_ took, lookup = (elapsed, Ok addresses) ∧ a ∈ addresses ∧
    d_connect k at_ (SockAddr a port) = (took, Ok (inner st)).
Proof.
  unfold connect_with_lookup. destruct lookup as [elapsed [addresses|e]]; [|by case_match].
  destruct (try_addresses _ _ _ _ _) as [t r] eqn:E. case_match; [|done]. intros ->%map_err_ok.
  apply try_addresses_ok in E as (a & at_ & took & Hin & Hc). by exists elapsed, addresses, a, at_, took.
Qed.

Lemma direct_connect_reached e host port d st d' :
  direct_connect (de_direct e) (de_spawned e) host port (de_lookup e host) d = (Ok st, d') →
  reached e Direct (TDomain host port) st.
Proof.
  unfold direct_connect, run_lookup. destruct (lookup_begin _ host d) as [[[]|err] d1].
  - intros [= (elapsed & addresses & a & at_ & took & Hw & Hin & Hc)%connect_with_lookup_ok _].
    exists host, port, elapsed, addresses, a, at_, took. split; [done|]. split; [|done].
    unfold lookup_wait in Hw. repeat case_match; by simplify_eq.
  - done.
Qed.

Lemma proxy_connect_reached e route target st :
  proxy_connect (de_dial e) (de_took e) route target = Ok st → reached e route target st.
Proof.
  unfold proxy_connect. case_match; [|done]. destruct route as [|addr auth|addr auth]; cbn [connect_inner reached]; [done|..];
    intros Hc%map_err_ok; [unfold Socks5.connect in Hc|unfold Http.connect in Hc];
    (destruct (de_dial e addr) as [s|]; [|done]); cbn [map_err mbind result_bind] in Hc.
  - destruct (handshake auth target s) as [[[]|] s'] eqn:Eh; [|done]. injection Hc as <-.
    apply handshake_ok in Eh as (sent & received & Ht & Hm & Hi). by exists s, sent, received.
  - exists s. split; [done|]. by apply do_connect_ok.
Qed.

(** The relay's dial, when a direct route is only ever asked for a name. *)
Lemma relay_dial_reached e route target d :
  (route = Direct → ∃ host port, target = TDomain host port) →
  (relay_dial e route target d).1 ≠ Err NeedsConnector ∧
  ∀ st, (relay_dial e route target d).1 = Ok st → reached e route target st.
Proof.
  intros Hdir. unfold relay_dial, upstream_of. destruct route as [|addr auth|addr auth].
  - destruct Hdir as (host & port & ->); [done|].
    destruct (direct_connect _ _ host port _ d) as [r d'] eqn:Ed. simpl. split; [by destruct r|].
    intros st ->%map_err_ok. by eapply direct_connect_reached.
  - split; [|intros st; apply proxy_connect_reached]. simpl. unfold proxy_connect. case_match; [|done]. simpl.
    by destruct (Socks5.connect _ _ _ _).
  - split; [|intros st; apply proxy_connect_reached]. simpl. unfold proxy_connect. case_match; [|done]. simpl.
    by destruct (Http.connect _ _ _ _).
Qed.

(** ** What the jobs keep *)

Section routed.
Context `{RegexEngine}.

(** The job a step leaves at [k], when it is not the one that was there. *)
Inductive job_evolves (b : Broker) (k : nat) : job → Prop :=
| ev_call fd c t l : port_ok (sa_port t) → job_evolves b k (Requesting (mkRequest fd c t l Locking))
| ev_retry q internal :
    b_jobs b !! k = Some (Requesting q) →
    job_evolves b k (Requesting (mkRequest (q_fd q) (q_cookie q) (q_target q) (q_lock q) (Retrying internal)))
| ev_connect q r target route :
    b_jobs b !! k = Some (Requesting q) →
    proxy_target_of (b_dns b) (q_target q) = Ok target → proxy_for (b_config b) target = Ret route →
    negb (is_dns (q_target q)) && is_ip target && bool_decide (route = Direct) = false →
    job_evolves b k (Requesting (mkRequest (q_fd q) (q_cookie q) (q_target q) (q_lock q)
      (Connecting r (is_dns (q_target q)) target route)))
| ev_relay q r dns target route :
    b_jobs b !! k = Some (Requesting q) → q_phase q = Connecting r dns target route →
    job_evolves b k (Relaying (mkRelayTask dns target route (Accepting r)))
| ev_phase y p :
    b_jobs b !! k = Some (Relaying y) →
    job_evolves b k (Relaying (mkRelayTask (y_dns y) (y_target y) (y_route y) p)).

Definition jobs_evolve (b b' : Broker) : Prop :=
  ∀ k j, b_jobs b' !! k = Some j → b_jobs b !! k = Some j ∨ job_evolves b k j.

Lemma evolve_put (b b' : Broker) i j :
  b_jobs b' = <[i := j]> (b_jobs b) → job_evolves b i j → jobs_evolve b b'.
Proof. intros E Hj k j'. rewrite E, lookup_insert_Some. intros [[<- <-]|[_ Hk]]; auto. Qed.

Lemma evolve_delete (b b' : Broker) i : b_jobs b' = delete i (b_jobs b) → jobs_evolve b b'.
Proof. intros E k j'. rewrite E, lookup_delete_Some. intros [_ Hk]; auto. Qed.

Lemma evolve_same (b b' : Broker) : b_jobs b' = b_jobs b → jobs_evolve b b'.
Proof. intros E k j'. rewrite E. auto. Qed.

Lemma connect_locked_keeps e i q b r b' :
  connect_locked e i q b = Ret (r, b') → b_config b' = b_config b ∧ b_dns b' = b_dns b.
Proof.
  unfold connect_locked, finished. intros H0. repeat case_match; simplify_eq/=; try done;
    destruct (proxy_for _ _); simplify_eq/=; repeat case_match; simplify_eq/=; done.
Qed.

Lemma connect_locked_evolve e i q b r b' :
  b_jobs b !! i = Some (Requesting q) → connect_locked e i q b = Ret (r, b') → jobs_evolve b b'.
Proof.
  intros Hi. unfold connect_locked, finished.
  destruct (le_valid1 e); [|intros [= _ <-]; by eapply evolve_delete].
  destruct (state _ _) as [st|]; [|intros [= _ <-]; by eapply evolve_delete].
  destruct (negb (st =? TCP_CLOSE)%Z).
  { destruct (b_peers b !! q_cookie q); intros [= _ <-]; [eapply evolve_put; [done|by constructor]|by eapply evolve_delete]. }
  destruct (proxy_target_of _ _) as [target|] eqn:Et; [|intros [= _ <-]; by eapply evolve_delete].
  destruct (proxy_for _ target) as [route| |] eqn:Er; [|done|done]. cbn [mbind outcome_bind].
  destruct (_ && bool_decide (route = Direct)) eqn:Ed; [intros [= _ <-]; by eapply evolve_delete|].
  destruct (b_pending _); [intros [= _ <-]; by eapply evolve_delete|].
  destruct (le_valid2 e); [|intros [= _ <-]; by eapply evolve_delete].
  destruct (register _ _ _ _) as [[[reg|err] s] w]; intros [= _ <-]; [|by eapply evolve_delete].
  eapply evolve_put; [done|]. by constructor.
Qed.

Lemma connect_begin_evolve i fd cookie target b :
  port_ok (sa_port target) →
  b_config (connect_begin i fd cookie target b) = b_config b ∧ b_dns (connect_begin i fd cookie target b) = b_dns b ∧
  jobs_evolve b (connect_begin i fd cookie target b).
Proof.
  intros Hp. unfold connect_begin. destruct (lock_for cookie b) as [l b1] eqn:El.
  assert (Hl : b_config b1 = b_config b ∧ b_dns b1 = b_dns b ∧ b_jobs b1 = b_jobs b)
    by (unfold lock_for in El; repeat case_match; by simplify_eq/=).
  destruct Hl as (Hc & Hd & Hj). split_and!; [done..|]. eapply evolve_put; [simpl; by rewrite Hj|by constructor].
Qed.

Lemma broker_step_evolve b b' : broker_step b b' → b_config b' = b_config b ∧ jobs_evolve b b'.
Proof.
  intros Hs. destruct Hs as [i fd cookie target Hp _ _|e i q r b' Hi _ _ Hl|now result i q Hi|i q Hi|i y r arrived Hi _ _
    |i y connected Hi _|i y Hi|k stream source|started cookies| |d _];
    try (split; [done|by apply evolve_same]).
  - destruct (connect_begin_evolve i fd cookie target b Hp) as (? & _ & ?). done.
  - split; [by eapply connect_locked_keeps|by eapply connect_locked_evolve].
  - unfold connect_finish, finished. destruct (q_phase q) as [|internal|r dns target route] eqn:Eq; simpl.
    + split; [done|by apply evolve_same].
    + split; [done|by eapply evolve_delete].
    + destruct result as [[]|err]; [|destruct (negb _)]; simpl; (split; [done|]);
        first [by eapply evolve_delete|eapply evolve_put; [done|by eapply ev_relay]].
  - unfold connect_cancel. destruct (q_phase q); (split; [done|by eapply evolve_delete]).
  - unfold relay_accept. destruct (y_dns y) eqn:Ed, arrived; simpl; (split; [done|]);
      first [by eapply evolve_delete|eapply evolve_put; [done|rewrite <-Ed; by apply ev_phase]].
  - unfold relay_dialed. destruct connected; (split; [done|]);
      [eapply evolve_put; [done|by apply ev_phase]|by eapply evolve_delete].
  - unfold relay_drop. destruct (y_phase y); (split; [done|by eapply evolve_delete]).
Qed.

(** A decision taken for a connection that is relayed. *)
Definition routed (c : Config) (dns : bool) (target : ProxyTarget) (route : ProxyConfig) : Prop :=
  proxy_for c target = Ret route ∧ (dns = false → route = Direct → ∃ host port, target = TDomain host port).

Definition job_routed (c : Config) (j : job) : Prop :=
  match j with
  | Requesting q => match q_phase q with Connecting _ dns target route => routed c dns target route | _ => True end
  | Relaying y => routed c (y_dns y) (y_target y) (y_route y)
  end.

Definition jobs_routed (b : Broker) : Prop := map_Forall (λ _ j, job_routed (b_config b) j) (b_jobs b).

Lemma evolves_routed b k j : jobs_routed b → job_evolves b k j → job_routed (b_config b) j.
Proof.
  intros Hb [fd c t l Hp|q internal Hq|q r target route Hq Ht Hr Hd|q r dns target route Hq Hph|y p Hy]; simpl; try done.
  - split; [done|]. intros Hn ->. destruct target as [host port|ip port]; [eauto|].
    rewrite Hn, bool_decide_true in Hd by done. done.
  - pose proof (Hb _ _ Hq) as Hj. simpl in Hj. by rewrite Hph in Hj.
  - exact (Hb _ _ Hy).
Qed.

Lemma reachable_routed b : broker_reachable b → jobs_routed b.
Proof.
  revert b. apply broker_reachable_ind; [intros; apply map_Forall_empty|].
  intros b b' _ Hb [Hc Hev]%broker_step_evolve k j Hj. rewrite Hc.
  destruct (Hev k j Hj) as [Hk|He]; [by eapply Hb|by eapply evolves_routed].
Qed.

(** ** Theorems *)

(** C4: Every relay of a reachable broker carries the route proxy_for gives its target and
    never asks a direct route to dial an address itself; when its upstream is made, a SOCKS5
    route has exchanged exactly the protocol transcript for the target with the proxy of the
    route, an HTTP route has sent the CONNECT request for it, and a direct route is
    connected to an address the name resolved to. *)
Theorem relays_follow_routes (e : dial_env) (b : Broker) (i : nat) (y : relay_task) (d : DirectConnector) :
  broker_reachable b → b_jobs b !! i = Some (Relaying y) → y_dns y = false →
  proxy_for (b_config b) (y_target y) = Ret (y_route y) ∧
  (relay_dial e (y_route y) (y_target y) d).1 ≠ Err NeedsConnector ∧
  ∀ st, (relay_dial e (y_route y) (y_target y) d).1 = Ok st → reached e (y_route y) (y_target y) st.
Proof.
  intros Hr Hi Hd. destruct (reachable_routed b Hr _ _ Hi) as [Hp Hdir].
  split; [done|]. by apply relay_dial_reached, Hdir.
Qed.
End routed.

(** ** Examples *)

#[local] Existing Instance LiteralRegex.engine.
#[local] Existing Instance LiteralRegex.laws.

(** The first connect call has ended, and its relay waits for the stream. *)
Definition first_job : request :=
  match b_jobs first_connecting !! 0 with Some (Requesting q) => q | _ => first_request end.

Definition relaying_example : Broker := snd (connect_finish 9 (Ok ()) 0 first_job first_connecting).

Definition relay_example : relay_task :=
  match b_jobs relaying_example !! 0 with
  | Some (Relaying y) => y
  | _ => mkRelayTask true (TDomain [] 0) Direct Serving
  end.

Lemma first_job_runs : b_jobs first_connecting !! 0 = Some (Requesting first_job).
Proof.
  destruct first_connecting_job as (q & Hq & _). unfold first_job. by rewrite Hq.
Qed.

Lemma relaying_reachable : broker_reachable relaying_example.
Proof.
  destruct first_connecting_reachable as (c & bound & d & address & Hd & Hr). exists c, bound, d, address.
  split; [exact Hd|].
  apply (rtc_r _ first_connecting); [exact Hr|]. apply bs_finish. exact first_job_runs.
Qed.

Lemma relay_example_runs : b_jobs relaying_example !! 0 = Some (Relaying relay_example).
Proof.
  assert (Hc : match b_jobs relaying_example !! 0 with Some (Relaying _) => true | _ => false end = true)
    by (vm_compute; reflexivity).
  unfold relay_example. by destruct (b_jobs relaying_example !! 0) as [[]|].
Qed.

(** A SOCKS5 proxy at [p:1] that accepts without a password. *)
Definition dial_example : dial_env :=
  mkDialEnv (λ _, Ok (mkSock [[x05; x00; x05; x00; x00; x01] ++ replicate 6 x00] None [] None)) 1
    (mkDialer (λ _ _, (0%Z, Err (RawOs ECONNREFUSED))) (λ _, Ok ())) (Ok ()) (λ _, NoAnswer).

Lemma relays_follow_routes_witness :
  ∃ st, (relay_dial dial_example (y_route relay_example) (y_target relay_example) direct_default).1 = Ok st ∧
    reached dial_example (Socks5 (lit "p:1") None) (TIp (V4 (ipv4 1 2 3 4)) 80) st.
Proof.
  destruct (relays_follow_routes dial_example relaying_example 0 relay_example direct_default
    relaying_reachable relay_example_runs) as (_ & _ & H); [vm_compute; reflexivity|].
  assert (Hr : y_route relay_example = Socks5 (lit "p:1") None) by (vm_compute; reflexivity).
  assert (Ht : y_target relay_example = TIp (V4 (ipv4 1 2 3 4)) 80) by (vm_compute; reflexivity).
  rewrite Hr, Ht in *.
  destruct (relay_dial dial_example (Socks5 (lit "p:1") None) (TIp (V4 (ipv4 1 2 3 4)) 80) direct_default).1 as [st|e] eqn:E.
  - exists st. split; [reflexivity|]. by apply H.
  - vm_compute in E. discriminate.
Defined.
