(* ===== verification/System.v ===== *)
(** * The proxied connection as a whole: src/broker/tcp.rs, src/proxy, src/fake_dns.rs

    The composition of the components: a name enters the resolver table through
    a DNS query (FakeDns.v, Dns.v), leaves it as the target of a relay
    (Broker.v), is routed (Config.v), asked of a proxy (Socks5.v, Http.v) and
    its bytes are forwarded (Relay.v). [job_typed] is the type of what the
    broker's tasks hold; [relay_serve] is the task tcp.rs spawns for a
    connection, from the accepted stream to the end of its relay. *)
From S2P Require Import Prelude RustStd Net FakeDns Stream Proxy Rule Config Socks5 Http Dns.
From S2P Require Import Seccomp Access Memory Relay TcpBind Sockets Ingress Files Tcp Broker Direct Upstream.

(** ** Types *)

(** A host name the resolver knows: UTF-8 of at most 253 bytes. *)
Definition name_ok (name : bytes) : Prop := length name ≤ 253 ∧ from_utf8 name = Some name.

(** A target of a relay; the broker makes no IPv6 targets. *)
Definition target_typed (t : ProxyTarget) : Prop :=
  match t with
  | TDomain host port => name_ok host ∧ port_ok port
  | TIp (V4 _) port => port_ok port
  | TIp (V6 _) _ => False
  end.

(** A route as the command line can give it. *)
Definition route_typed (r : ProxyConfig) : Prop :=
  match r with
  | Direct => True
  | Socks5 addr auth | Http addr auth => good_address addr ∧ (x40 ∉ addr) ∧ auth_ok auth
  end.

Definition names_ok (m : Resolver) : Prop := ∀ ip name, lookup m ip = Some name → name_ok name.

Lemma resolve_names_ok m name : names_ok m → name_ok name → names_ok (snd (resolve m name)).
Proof.
  intros Hm Hn ip x. unfold resolve, lookup in *. destruct (domain_to_ip m !! name); [apply Hm|]. simpl.
  rewrite lookup_insert_Some, lookup_delete_Some. intros [[_ <-]|[_ [_ Hx]]]; [done|]. by eapply Hm.
Qed.

Lemma answer_names_ok m q r m' : names_ok m → answer m q = Ret (r, m') → names_ok m'.
Proof.
  intros Hm. unfold answer. destruct (parse_query q) as [[[[id dom] kd]|]| |] eqn:Eq; cbn [mbind outcome_bind];
    try done; [|by intros [= <- <-]].
  destruct (kd =? 1)%Z; [|by intros [= <- <-]].
  apply parse_query_sound in Eq as (flags & qd & rest & labels & tail & _ & [_ _ _ _ Hl Hlen _ _] & ->).
  assert (Hok : name_ok (join [x2e] labels)).
  { split; [done|]. apply from_utf8_join; [done|]. by eapply (list.Forall_impl good_label); [exact Hl|intros l [_ ?]]. }
  pose proof (resolve_names_ok m _ Hm Hok) as H. destruct (resolve m _). by intros [= <- <-].
Qed.

Lemma server_for_resolver bound dest d r d' : server_for bound dest d = (r, d') → resolver d' = resolver d.
Proof. unfold server_for. intros Hs. repeat case_match; by simplify_eq. Qed.

Lemma dns_step_names d d' : dns_step d d' → names_ok (resolver d) → names_ok (resolver d').
Proof.
  intros [? bound dest r d1 Hf Hs|? q r m Ha] Hn; [by rewrite (server_for_resolver _ _ _ _ _ Hs)|by eapply answer_names_ok].
Qed.

Lemma dns_new_names bound d : dns_new bound = Ok d → names_ok (resolver d).
Proof.
  unfold dns_new. destruct (server_for _ _ _) as [[l|e] d'] eqn:Hs; [|done]. intros [= <-].
  rewrite (server_for_resolver _ _ _ _ _ Hs). intros ip name. unfold lookup. simpl. by rewrite lookup_empty.
Qed.

Lemma proxy_target_typed d address t :
  names_ok (resolver d) → port_ok (sa_port address) → proxy_target_of d address = Ok t → target_typed t.
Proof.
  intros Hn Hp. unfold proxy_target_of, dns_target, resolver_target.
  destruct (is_dns address); [by intros [= <-]|].
  destruct (is_fake_ip _); [|by intros [= <-]].
  destruct (lookup (resolver d) (sa_ip address)) as [name|] eqn:E; [|done]. intros [= <-]. split; [by eapply Hn|done].
Qed.

(** ** Routes *)

Section system.
Context `{RegexEngine} `{!RegexLaws}.

Lemma parse_typed value r : parse value = Ok r → route_typed r.
Proof.
  intros [[-> _]|(k & p & auth & addr & -> & Hg & Hat & Ha & _)]%parse_sound; [done|]. by destruct k.
Qed.

Lemma parse_spec_typed spec m r : parse_spec spec = Ok (m, r) → route_typed r.
Proof.
  unfold parse_spec. destruct (split_once x3d spec) as [[ms ps]|]; [|done]. cbn.
  case_bool_decide; [done|]. case_bool_decide; [done|].
  destruct (parse ps) eqn:Ep; [|done]. cbn. destruct (match_parse ms); [|done]. intros [= _ <-]. by eapply parse_typed.
Qed.

Lemma parse_all_typed specs rs : parse_all specs = Ok rs → Forall (λ e, route_typed (snd e)) rs.
Proof.
  revert rs. induction specs as [|spec specs IH]; intros rs; cbn [parse_all]; [by intros [= <-]|].
  destruct (parse_spec spec) as [[m r]|] eqn:E; [|done]. cbn [mbind result_bind].
  destruct (parse_all specs) as [rs'|]; [|done]. intros [= <-]. constructor; [by eapply parse_spec_typed|by apply IH].
Qed.

Lemma first_domain_typed rs host r : Forall (λ e, route_typed (snd e)) rs → first_domain rs host = Some r → route_typed r.
Proof. induction 1 as [|[m a] rs Ha _ IH]; simpl; [done|]. case_match; [by intros [= <-]|done]. Qed.

Lemma lpm_typed rs v q r : Forall (λ e, route_typed (snd e)) rs → lpm (ip_rules rs) v = Some (q, r) → route_typed r.
Proof.
  intros Hrs. revert q r. induction Hrs as [|[m a] rs Ha _ IH]; intros q r; simpl; [done|].
  destruct m; simpl; [| |by apply IH..].
  all: destruct (lpm (ip_rules rs) v) as [[q' r']|]; repeat case_match; intros [= <- <-]; eauto.
Qed.

(** Whatever the target, the route the policy gives it is one of the command line. *)
Lemma proxy_for_typed proxy specs command c t r :
  load_config proxy specs command = Ok c → proxy_for c t = Ret r → route_typed r.
Proof.
  intros Hc. destruct (load_config_policy _ _ _ _ Hc) as (rs & Hrs%parse_all_typed & Hd%parse_typed & Hp).
  rewrite Hp. intros [= <-]. destruct t as [host port|[ip|gs] port]; simpl; [| |done].
  - destruct (first_domain rs host) eqn:E; simpl; [by eapply first_domain_typed|done].
  - destruct (lpm _ _) as [[q r]|] eqn:E; [by eapply lpm_typed|]. by case_match.
Qed.

(** ** What the tasks hold *)

Definition job_typed (j : job) : Prop :=
  match j with
  | Requesting q =>
      port_ok (sa_port (q_target q)) ∧
      match q_phase q with Connecting _ _ target _ => target_typed target | _ => True end
  | Relaying y => target_typed (y_target y)
  end.

Record broker_typed (b : Broker) : Prop := {
  bt_names : names_ok (resolver (b_dns b));
  bt_jobs : map_Forall (λ _ j, job_typed j) (b_jobs b);
}.

Lemma evolves_typed b k j : broker_typed b → job_evolves b k j → job_typed j.
Proof.
  intros [Hn Hj] [fd c t l Hp|q internal Hq|q r target route Hq Ht Hr Hd|q r dns target route Hq Hph|y p Hy]; simpl.
  - done.
  - split; [|done]. apply (Hj _ _ Hq).
  - destruct (Hj _ _ Hq) as [Hp _]. split; [done|]. by eapply proxy_target_typed.
  - destruct (Hj _ _ Hq) as [_ Ht]. by rewrite Hph in Ht.
  - exact (Hj _ _ Hy).
Qed.

Lemma broker_step_dns b b' : broker_step b b' → b_dns b' = b_dns b ∨ dns_step (b_dns b) (b_dns b').
Proof.
  intros Hs. destruct Hs as [i fd cookie target Hp _ _|e i q r b' Hi _ _ Hl|now result i q Hi|i q Hi|i y r arrived Hi _ _
    |i y connected Hi _|i y Hi|k stream source|started cookies| |d Hd]; [left..|by right]; try done.
  - by destruct (connect_begin_evolve i fd cookie target b Hp) as (_ & ? & _).
  - by eapply connect_locked_keeps.
  - unfold connect_finish, finished. destruct (q_phase q); [done..|]. by destruct result as [|error]; [|destruct (negb _)].
  - unfold connect_cancel. by destruct (q_phase q).
  - unfold relay_accept. by destruct (y_dns y), arrived.
  - unfold relay_drop. by destruct (y_phase y).
Qed.

Lemma reachable_typed b : broker_reachable b → broker_typed b.
Proof.
  revert b. apply broker_reachable_ind.
  - intros c bound d address Hd. split; [by eapply dns_new_names|apply map_Forall_empty].
  - intros b b' _ Hb Hs. pose proof Hb as [Hn Hj]. split.
    + destruct (broker_step_dns b b' Hs) as [->|Hd]; [done|by eapply dns_step_names].
    + intros k j Hk. destruct (broker_step_evolve b b' Hs) as [_ Hev].
      destruct (Hev k j Hk) as [Hk'|He]; [exact (Hj k j Hk')|by eapply evolves_typed].
Qed.

(** The SOCKS5 request for a typed target is never refused, and says what the target is. *)
Lemma typed_request t : target_typed t → ∃ req, Socks5.connect_request t = Ok req ∧ decode_request req = Some t.
Proof.
  intros Ht. assert (Hok : target_ok t) by (by destruct t as [? ?|[]]; try apply Ht).
  assert (Hreq : ∃ req, Socks5.connect_request t = Ok req).
  { destruct t as [host port|[ip|gs] port]; simpl; [|eauto|done]. destruct Ht as [[Hl _] _].
    rewrite bool_decide_false by lia. eauto. }
  destruct Hreq as [req Hreq]. exists req. split; [done|]. by apply request_roundtrip.
Qed.
(** What a task has decided: the target and its route. *)
Definition job_decision (j : job) : option (ProxyTarget * ProxyConfig) :=
  match j with
  | Requesting q => match q_phase q with Connecting _ _ target route => Some (target, route) | _ => None end
  | Relaying y => Some (y_target y, y_route y)
  end.

Lemma decision_typed j target route : job_typed j → job_decision j = Some (target, route) → target_typed target.
Proof. destruct j as [q|y]; simpl; [|by intros ? [= <- _]]. intros [_ Hq]. destruct (q_phase q); [done..|]. by intros [= <- _]. Qed.

Lemma decision_routed c j target route :
  job_routed c j → job_decision j = Some (target, route) → proxy_for c target = Ret route.
Proof.
  destruct j as [q|y]; simpl; [|by intros [Hr _] [= <- <-]]. destruct (q_phase q); [done..|]. by intros [Hr _] [= <- <-].
Qed.

(** ** The spawned task *)

(** What the task meets: the seconds until its stream is delivered and the
    stream, the seconds accept and dial took together, the upstream, and the
    rounds of the relay. *)
Record task_env := mkTaskEnv {
  te_accept : Z * io sock;
  te_took : Z;
  te_dial : dial_env;
  te_nodelay : io ();
  te_rounds : list env;
}.

Definition ACCEPT_TIMEOUT : Z := 32.

Inductive task_end :=
| NotAccepted
| DnsServed (r : result io_error (option ())) (s : tcp_state)
| NotConnected (e : upstream_error)
| TaskTimeout
| Relayed (s : status (A := sock) (H := ProxyStream sock)).

(** The task from the registration to its end; [table] is the resolver the
    DNS service answers from. *)
Definition relay_serve (e : task_env) (y : relay_task) (table : Resolver) (d : DirectConnector) : task_end :=
  if y_dns y then
    match te_accept e with
    | (took, Ok app) =>
        if (took <=? ACCEPT_TIMEOUT)%Z then let '(r, s) := serve_tcp (mkTcp app table) in DnsServed r s else NotAccepted
    | (_, Err _) => NotAccepted
    end
  else
    match te_accept e with
    | (took, Ok app) =>
        if (took <=? ACCEPT_TIMEOUT)%Z then
          if (te_took e <=? ACCEPT_TIMEOUT)%Z then
            match fst (relay_dial (te_dial e) (y_route y) (y_target y) d) with
            | Ok upstream => Relayed (Relay.run (te_nodelay e) (te_rounds e) app upstream)
            | Err error => NotConnected error
            end
          else TaskTimeout
        else TaskTimeout
    | (took, Err _) => if (took <=? ACCEPT_TIMEOUT)%Z then NotAccepted else TaskTimeout
    end.

(** What a relay [r] has carried on the wire to the upstream of [route], and back. *)
Definition tunnelled (e : dial_env) (route : ProxyConfig) (target : ProxyTarget)
    (upstream : ProxyStream sock) (r : relay (A := sock) (H := ProxyStream sock)) : Prop :=
  let wire := tx (inner upstream) ++ delivered_host r in
  match route with
  | Socks5 addr auth =>
      ∃ s sent received, de_dial e addr = Ok s ∧ transcript auth target sent received ∧
        wire = tx s ++ sent ++ delivered_host r ∧ (received ++ delivered_app r) `prefix_of` incoming s
  | Http addr auth =>
      ∃ s tunnel, de_dial e addr = Ok s ∧ spec_response (rx_end s) (incoming s) = Ok tunnel ∧
        wire = tx s ++ Http.connect_request target auth ++ delivered_host r ∧ delivered_app r `prefix_of` tunnel
  | Direct =>
      ∃ host port a at_ took, target = TDomain host port ∧
        d_connect (de_direct e) at_ (SockAddr a port) = (took, Ok (inner upstream)) ∧
        delivered_app r `prefix_of` stream_content upstream
  end.

Lemma reached_tunnelled e route target upstream r :
  reached e route target upstream → delivered_app r `prefix_of` stream_content upstream →
  tunnelled e route target upstream r.
Proof.
  intros Hr Hp. unfold tunnelled. destruct route as [|addr auth|addr auth]; simpl in Hr.
  - destruct Hr as (host & port & elapsed & addresses & a & at_ & took & -> & _ & _ & Hc). by exists host, port, a, at_, took.
  - destruct Hr as (s & sent & received & Hs & Ht & Htx & Hin & Hb). exists s, sent, received.
    split_and!; [done..|by rewrite Htx, <-app_assoc|]. rewrite Hin. apply prefix_app.
    unfold stream_content in Hp. by rewrite Hb, drop_nil in Hp.
  - destruct Hr as (s & Hs & Htx & Hsp). exists s, (stream_content upstream).
    split_and!; [done..|by rewrite Htx, <-app_assoc|done].
Qed.

Lemma relay_serve_relayed e y table d s :
  relay_serve e y table d = Relayed s → y_dns y = false ∧
  ∃ app upstream, snd (te_accept e) = Ok app ∧ fst (relay_dial (te_dial e) (y_route y) (y_target y) d) = Ok upstream ∧
    s = Relay.run (te_nodelay e) (te_rounds e) app upstream.
Proof.
  unfold relay_serve. destruct (te_accept e) as [took [app|err]]; [|by repeat case_match].
  destruct (y_dns y); [by repeat case_match|]. destruct (took <=? _)%Z; [|done]. destruct (te_took e <=? _)%Z; [|done].
  destruct (relay_dial _ _ _ _).1 as [upstream|]; [|done]. intros [= <-]. eauto 10.
Qed.

(** ** Theorems *)

(** C13: Every target and route a task of a reachable broker holds is typed: a name of UTF-8
    with at most 253 bytes or an IPv4 address, a 16-bit port, and a route the command line
    can give; the SOCKS5 request for it always exists and decodes to it. *)
Theorem decisions_are_typed (b : Broker) (proxy : bytes) (specs command : list bytes) (i : nat) (j : job)
    (target : ProxyTarget) (route : ProxyConfig) :
  broker_reachable b → load_config proxy specs command = Ok (b_config b) →
  b_jobs b !! i = Some j → job_decision j = Some (target, route) →
  target_typed target ∧ route_typed route ∧
  ∃ req, Socks5.connect_request target = Ok req ∧ decode_request req = Some target.
Proof.
  intros Hr Hc Hj Hd. pose proof (decision_typed _ _ _ (bt_jobs _ (reachable_typed b Hr) _ _ Hj) Hd) as Ht.
  split_and!; [done| |by apply typed_request].
  eapply proxy_for_typed; [exact Hc|]. eapply decision_routed; [exact (reachable_routed b Hr _ _ Hj)|exact Hd].
Qed.

(** C12: End to end on the wire: what a relay has sent its proxy is exactly the SOCKS5
    transcript or the CONNECT request for its target followed by a prefix of the bytes of
    the application, what the application got is a prefix of what the upstream said after
    the handshake, and a relay that ended delivered all of one side. *)
Theorem relayed_bytes_end_to_end (b : Broker) (i : nat) (y : relay_task) (e : task_env) (d : DirectConnector)
    (s : status) (r : relay) :
  broker_reachable b → b_jobs b !! i = Some (Relaying y) →
  relay_serve e y (resolver (b_dns b)) d = Relayed s → s = Running r ∨ s = Finished r →
  ∃ app upstream,
    snd (te_accept e) = Ok app ∧ fst (relay_dial (te_dial e) (y_route y) (y_target y) d) = Ok upstream ∧
    tunnelled (te_dial e) (y_route y) (y_target y) upstream r ∧
    delivered_host r `prefix_of` incoming app ∧
    (s = Finished r → delivered_host r = incoming app ∨ delivered_app r = stream_content upstream).
Proof.
  intros Hr Hi (Hd & app & upstream & Ha & Hdial & ->)%relay_serve_relayed Hs.
  destruct (reachable_routed b Hr _ _ Hi) as [_ Hdir].
  pose proof (proj2 (relay_dial_reached (te_dial e) _ _ d (Hdir Hd)) _ Hdial) as Hreach.
  exists app, upstream. destruct (run_conserves _ _ app upstream r Hs) as (Hha & Hhh & _).
  split; [done|]. split; [done|]. split_and!.
  - apply reached_tunnelled; [done|]. exists (to_application r ++ content (host r)). exact Hha.
  - exists (to_host r ++ content (application r)). exact Hhh.
  - intros (_ & _ & [?|?])%run_drained; [by right|by left].
Qed.
End system.

(** ** Examples *)

#[local] Existing Instance LiteralRegex.engine.
#[local] Existing Instance LiteralRegex.laws.

Lemma decisions_are_typed_witness :
  route_typed (Socks5 (lit "p:1") None) ∧
  ∃ req, Socks5.connect_request (TIp (V4 (ipv4 1 2 3 4)) 80) = Ok req ∧
    decode_request req = Some (TIp (V4 (ipv4 1 2 3 4)) 80).
Proof.
  destruct (decisions_are_typed relaying_example (lit "socks5://p:1") [] [] 0 (Relaying relay_example)
    (TIp (V4 (ipv4 1 2 3 4)) 80) (Socks5 (lit "p:1") None)) as (_ & Hr & Hreq).
  - exact relaying_reachable.
  - exact config_example_loads.
  - exact relay_example_runs.
  - vm_compute. reflexivity.
  - split; [exact Hr|exact Hreq].
Defined.

(** The proxy accepts, then says [ok] and closes; the application says [hi]. *)
Definition task_example : task_env :=
  mkTaskEnv (1, Ok (mkSock [lit "hi"] (Some (Simple WouldBlock)) [] None))%Z 2
    (mkDialEnv (λ _, Ok (mkSock [[x05; x00; x05; x00; x00; x01] ++ replicate 6 x00; lit "ok"] None [] None)) 1
       (mkDialer (λ _ _, (0%Z, Err (RawOs ECONNREFUSED))) (λ _, Ok ())) (Ok ()) (λ _, NoAnswer))
    (Ok ()) (replicate 4 (mkEnv (Ok 2) (Ok 2) (Ok 0%Z) (Ok None) (Ok 0%Z) (Ok 0%Z) (Ok ()))).

Definition relayed_example : relay (A := sock) (H := ProxyStream sock) :=
  match relay_serve task_example relay_example FakeDns.new direct_default with
  | Relayed (Finished r) | Relayed (Running r) => r
  | _ => start (mkSock [] None [] None) (stream_new (mkSock [] None [] None) [])
  end.

Lemma relayed_bytes_end_to_end_witness :
  relay_serve task_example relay_example (resolver (b_dns relaying_example)) direct_default = Relayed (Finished relayed_example) ∧
  delivered_host relayed_example = lit "hi" ∧ delivered_app relayed_example = lit "ok" ∧
  ∃ upstream, tunnelled (te_dial task_example) (Socks5 (lit "p:1") None) (TIp (V4 (ipv4 1 2 3 4)) 80) upstream relayed_example.
Proof.
  assert (Hs : relay_serve task_example relay_example (resolver (b_dns relaying_example)) direct_default =
    Relayed (Finished relayed_example)) by (vm_compute; reflexivity).
  split; [exact Hs|]. split; [vm_compute; reflexivity|]. split; [vm_compute; reflexivity|].
  destruct (relayed_bytes_end_to_end relaying_example 0 relay_example task_example direct_default
    (Finished relayed_example) relayed_example relaying_reachable relay_example_runs Hs (or_intror eq_refl))
    as (app & upstream & _ & _ & Ht & _).
  exists upstream.
  assert (Hr : y_route relay_example = Socks5 (lit "p:1") None) by (vm_compute; reflexivity).
  assert (Hg : y_target relay_example = TIp (V4 (ipv4 1 2 3 4)) 80) by (vm_compute; reflexivity).
  rewrite Hr, Hg in Ht. exact Ht.
Defined.
