(* ===== verification/Receiver.v ===== *)
(** * The notification receiver: src/broker/receiver.rs

    A thread waits for the seccomp listener with epoll, receives notifications
    and puts them on a bounded channel to the event loop. [receiver_turn] is
    one turn of its loop, [receiver_start] and [receiver_drop] the life of the
    thread and of the SIGURG handler that interrupts it. epoll, the receive
    ioctl and the consumer of the channel are inputs of a turn. *)
From S2P Require Import Prelude RustStd Stream Seccomp.

Definition EPOLLIN : Z := 1.
Definition EPOLLERR : Z := 8.
Definition EPOLLHUP : Z := 16.
Definition CAPACITY : nat := 256.

(** What happens around one turn: the two loads of [stop], what epoll_wait
    returned (the tags and the events of its entries), what the receive ioctl
    returned, and, for the channel, how many messages the event loop takes
    before the send and whether it has dropped its end. *)
Record polled := mkPolled {
  po_stop : bool;
  po_events : io (list (Z * Z));
  po_stop_after : bool;
  po_receive : io Notification;
  po_taken : nat;
  po_closed : bool;
}.

(** The channel, what was taken from it, the notifications answered by the
    thread itself with the responses it sent for them, and the notifications
    dropped on a closed channel; [rc_slept] counts the pauses. *)
Record receiving := mkReceiving {
  rc_queue : list (io Notification);
  rc_taken : list (io Notification);
  rc_refused : list (Notification * Response);
  rc_lost : list Notification;
  rc_slept : nat;
}.

Definition consume (n : nat) (s : receiving) : receiving :=
  mkReceiving (drop n (rc_queue s)) (rc_taken s ++ take n (rc_queue s)) (rc_refused s) (rc_lost s) (rc_slept s).

Inductive sent := SentOk | Full | Closed.

(** [tx.try_send]. *)
Definition try_send (closed : bool) (m : io Notification) (s : receiving) : sent * receiving :=
  if closed then (Closed, s)
  else if bool_decide (CAPACITY ≤ length (rc_queue s)) then (Full, s)
  else (SentOk, mkReceiving (rc_queue s ++ [m]) (rc_taken s) (rc_refused s) (rc_lost s) (rc_slept s)).

(** [let _ = respond(listener, notification.id, 0, EAGAIN, false)]: the response
    handed to the send ioctl, whose result is ignored. *)
Definition refuse (n : Notification) (s : receiving) : receiving :=
  match response_of (nid n) 0 EAGAIN false with
  | Ok response => mkReceiving (rc_queue s) (rc_taken s) (rc_refused s ++ [(n, response)]) (rc_lost s) (rc_slept s)
  | Err _ => s
  end.

Definition lose (n : Notification) (s : receiving) : receiving :=
  mkReceiving (rc_queue s) (rc_taken s) (rc_refused s) (rc_lost s ++ [n]) (rc_slept s).

Definition pause (s : receiving) : receiving :=
  mkReceiving (rc_queue s) (rc_taken s) (rc_refused s) (rc_lost s) (S (rc_slept s)).

Definition is_os (errnos : list Z) (e : io_error) : bool :=
  match raw_os_error e with Some n => bool_decide (n ∈ errnos) | None => false end.

(** The result of the receive; false when the thread returns. *)
Definition receive_turn (p : polled) (s : receiving) : receiving * bool :=
  match po_receive p with
  | Ok n => match try_send (po_closed p) (Ok n) s with
            | (SentOk, s) => (s, true)
            | (Full, s) => (refuse n s, true)
            | (Closed, s) => (lose n s, false)
            end
  | Err e => if is_os [EINTR; ENOENT; EAGAIN] e then (s, true)
             else if is_os [ENOMEM; ENOBUFS] e then (pause s, true)
             else ((try_send (po_closed p) (Err e) s).2, false)
  end.

Definition receiver_turn (s : receiving) (p : polled) : receiving * bool :=
  let s := consume (po_taken p) s in
  if po_stop p then (s, false) else
  match po_events p with
  | Err e => if bool_decide (kind e = Interrupted) then (s, true)
             else ((try_send (po_closed p) (Err e) s).2, false)
  | Ok events =>
      if po_stop_after p then (s, false) else
      match list_find (λ e, e.1 = 1%Z) events with
      | None => (s, true)
      | Some (_, (_, flags)) =>
          if negb (Z.land flags EPOLLIN =? 0)%Z then receive_turn p s
          else (s, (Z.land flags (Z.lor EPOLLHUP EPOLLERR) =? 0)%Z)
      end
  end.

Fixpoint receiver_run (s : receiving) (ps : list polled) : receiving * bool :=
  match ps with
  | [] => (s, true)
  | p :: ps => match receiver_turn s p with
               | (s, true) => receiver_run s ps
               | stopped => stopped
               end
  end.

Definition receiving_start : receiving := mkReceiving [] [] [] [] 0.

(** ** The life of the thread *)

(** What the calls of [start] return. *)
Record setup := mkSetup {
  su_sigaction : io ();
  su_eventfd : io ();
  su_epoll_create : io ();
  su_epoll_ctl : Z → io ();
  su_spawn : io ();
}.

Definition poller (u : setup) : io () :=
  _ ← su_epoll_create u; _ ← su_epoll_ctl u 1; su_epoll_ctl u 2.

(** SIGURG's action, and the actions that stand for [interrupt_receive]. *)
Inductive action := InterruptReceive | Previous (handler : Z).

(** [inspect_err]: an error restores the action. *)
Definition restore_on_err {A} (previous : action) (r : io A) : M action io_error A :=
  λ current, match r with Ok a => (Ok a, current) | Err e => (Err e, previous) end.

(** The receiver keeps the action it replaced. *)
Definition receiver_start (u : setup) : M action io_error action :=
  previous ← mget;
  _ ← lift_result (su_sigaction u);
  _ ← (λ _, (Ok (), InterruptReceive));
  _ ← restore_on_err previous (su_eventfd u);
  _ ← restore_on_err previous (poller u);
  _ ← restore_on_err previous (su_spawn u);
  mret previous.

(** [stop] is stored, the eventfd written, and the thread signalled until it
    has finished: the number of signals sent, [None] while it has not. *)
Fixpoint drop_wait (finished : list bool) : option nat :=
  match finished with
  | [] => None
  | true :: _ => Some 0
  | false :: finished => S <$> drop_wait finished
  end.

Definition receiver_drop (previous : action) (finished : list bool) : option (nat * action) :=
  signals ← drop_wait finished; Some (signals, previous).

(** ** Lemmas *)

(** The notifications among the messages of the channel. *)
Definition notifications (ms : list (io Notification)) : list Notification :=
  omap (λ m, match m with Ok n => Some n | Err _ => None end) ms.

(** What a turn receives from the listener. *)
Definition received_in (p : polled) : list Notification :=
  if po_stop p then [] else
  match po_events p with
  | Ok events =>
      if po_stop_after p then [] else
      match list_find (λ e, e.1 = 1%Z) events with
      | Some (_, (_, flags)) => if (Z.land flags EPOLLIN =? 0)%Z then []
                                else match po_receive p with Ok n => [n] | Err _ => [] end
      | None => []
      end
  | Err _ => []
  end.

(** Where the notifications of a state are. *)
Definition placed (s : receiving) : list Notification :=
  notifications (rc_taken s) ++ notifications (rc_queue s) ++ (rc_refused s).*1 ++ rc_lost s.

Lemma notifications_app l l' : notifications (l ++ l') = notifications l ++ notifications l'.
Proof. apply omap_app. Qed.

Lemma placed_consume n s : placed (consume n s) = placed s.
Proof.
  unfold placed, consume. simpl. rewrite notifications_app, <-app_assoc. f_equal.
  by rewrite (app_assoc (notifications (take _ _))), <-notifications_app, take_drop.
Qed.

(** One turn: its notification, if it received one, is queued, refused or lost. *)
Definition turn_kept (s s' : receiving) (new : list Notification) (go_on : bool) : Prop :=
  placed s' ≡ₚ placed s ++ new ∧
  (∃ kept, kept `sublist_of` new ∧ notifications (rc_taken s' ++ rc_queue s') = notifications (rc_taken s ++ rc_queue s) ++ kept) ∧
  (length (rc_queue s) ≤ CAPACITY → length (rc_queue s') ≤ CAPACITY) ∧
  (go_on = true → rc_lost s' = rc_lost s).

Lemma turn_kept_refl s go_on : turn_kept s s [] go_on.
Proof. split; [by rewrite app_nil_r|]. split; [exists []; by rewrite app_nil_r|done]. Qed.

Lemma turn_kept_consume n s s' new go_on : turn_kept (consume n s) s' new go_on → turn_kept s s' new go_on.
Proof.
  intros (Hp & (kept & Hk & Hn) & Hl & Hlost). rewrite placed_consume in Hp. split; [done|]. split.
  - exists kept. split; [done|]. rewrite Hn. unfold consume. simpl. by rewrite <-app_assoc, take_drop.
  - split; [|done]. intros Hb. apply Hl. unfold consume. simpl. rewrite length_drop. lia.
Qed.

Lemma turn_kept_trans s1 s2 s3 new new' go_on :
  turn_kept s1 s2 new true → turn_kept s2 s3 new' go_on → turn_kept s1 s3 (new ++ new') go_on.
Proof.
  intros (P1 & (k1 & S1 & N1) & B1 & L1) (P2 & (k2 & S2 & N2) & B2 & L2). split; [by rewrite P2, P1, app_assoc|].
  split; [exists (k1 ++ k2); split; [by apply sublist_app|by rewrite N2, N1, app_assoc]|].
  split; [tauto|]. intros E. by rewrite L2, L1.
Qed.

Lemma try_send_error closed e s : turn_kept s (try_send closed (Err e) s).2 [] false.
Proof.
  unfold try_send. destruct closed; [apply turn_kept_refl|]. case_bool_decide; [apply turn_kept_refl|].
  split; [|split; [exists []; split; [done|]|split; [|done]]]; simpl.
  - rewrite app_nil_r. unfold placed. simpl. by rewrite notifications_app, app_nil_r.
  - by rewrite app_assoc, !notifications_app, !app_nil_r.
  - rewrite length_app. simpl. lia.
Qed.

(** Nothing queued or taken. *)
Lemma turn_kept_aside s s' new go_on :
  rc_taken s' = rc_taken s → rc_queue s' = rc_queue s → placed s' ≡ₚ placed s ++ new →
  (go_on = true → rc_lost s' = rc_lost s) → turn_kept s s' new go_on.
Proof.
  intros Ht Hq Hp Hl. split; [done|]. rewrite Ht, Hq. split; [|done].
  exists []. split; [apply sublist_nil_l|by rewrite app_nil_r].
Qed.

Lemma receive_turn_kept p s :
  let '(s', go_on) := receive_turn p s in
  turn_kept s s' (match po_receive p with Ok n => [n] | Err _ => [] end) go_on.
Proof.
  unfold receive_turn. destruct (po_receive p) as [n|e].
  - unfold try_send. destruct (po_closed p).
    + apply turn_kept_aside; try done. unfold placed, lose. simpl. by rewrite !app_assoc.
    + case_bool_decide.
      * apply turn_kept_aside; try done. unfold placed, refuse. simpl. rewrite fmap_app. simpl. solve_Permutation.
      * split; [|split; [exists [n]; split; [done|]|split; [|done]]]; simpl.
        -- unfold placed. simpl. rewrite notifications_app. simpl. solve_Permutation.
        -- by rewrite app_assoc, !notifications_app.
        -- rewrite length_app. simpl. lia.
  - destruct (is_os [EINTR; ENOENT; EAGAIN] e); [apply turn_kept_refl|].
    destruct (is_os [ENOMEM; ENOBUFS] e); [apply turn_kept_aside; try done; by rewrite app_nil_r|apply try_send_error].
Qed.

Lemma receiver_turn_kept s p : let '(s', go_on) := receiver_turn s p in turn_kept s s' (received_in p) go_on.
Proof.
  unfold receiver_turn, received_in.
  destruct (po_stop p); [eapply turn_kept_consume, turn_kept_refl|].
  destruct (po_events p) as [events|e].
  - destruct (po_stop_after p); [eapply turn_kept_consume, turn_kept_refl|].
    destruct (list_find _ events) as [[i [tag flags]]|]; [|eapply turn_kept_consume, turn_kept_refl].
    destruct (Z.land flags EPOLLIN =? 0)%Z; simpl; [eapply turn_kept_consume, turn_kept_refl|].
    pose proof (receive_turn_kept p (consume (po_taken p) s)) as H. destruct (receive_turn p _) as [s' go_on].
    by eapply turn_kept_consume.
  - case_bool_decide; eapply turn_kept_consume; [apply turn_kept_refl|apply try_send_error].
Qed.

(** A run is a sequence of turns, each begun where the ones before it left the
    thread going on; only the last of them may stop it. *)
Lemma receiver_run_turns ps : ∀ s,
  let '(s', go_on) := receiver_run s ps in
  ∃ done rest, ps = done ++ rest ∧ (go_on = true → rest = []) ∧ turn_kept s s' (concat (received_in <$> done)) go_on ∧
    ∀ before p after, done = before ++ p :: after →
      ∃ s0 s1 go, receiver_run s before = (s0, true) ∧ receiver_turn s0 p = (s1, go) ∧ (go = false → after = []).
Proof.
  induction ps as [|p ps IH]; intros s; cbn [receiver_run].
  { exists [], []. split_and!; [done|done|apply turn_kept_refl|]. by intros [] ???. }
  pose proof (receiver_turn_kept s p) as Ht. destruct (receiver_turn s p) as [s1 [|]] eqn:E.
  - specialize (IH s1). destruct (receiver_run s1 ps) as [s' go_on].
    destruct IH as (d & r & -> & Hr & Hk & Hb). exists (p :: d), r. split_and!; [done|done|by eapply turn_kept_trans|].
    intros [|q before] p' after [= <- Hd].
    + exists s, s1, true. by split_and!.
    + destruct (Hb _ _ _ Hd) as (s0 & s2 & go & H1 & H2). exists s0, s2, go. split; [|done]. simpl. by rewrite E.
  - exists [p], ps. split_and!; [done|done|simpl; by rewrite app_nil_r|].
    intros [|q [|]] p' after [= <- Hd]; [|done..]. exists s, s1, false. by split_and!.
Qed.

(** What must become of a notification received in a turn, from the channel the
    turn found and the state [s] of it when the notification is sent. *)
Inductive fate (p : polled) (n : Notification) (s : receiving) : receiving → bool → Prop :=
| fate_lost :
    po_closed p = true →
    fate p n s (mkReceiving (rc_queue s) (rc_taken s) (rc_refused s) (rc_lost s ++ [n]) (rc_slept s)) false
| fate_refused :
    po_closed p = false → length (rc_queue s) = CAPACITY →
    fate p n s (mkReceiving (rc_queue s) (rc_taken s) (rc_refused s ++ [(n, mkResponse (nid n) 0 (- EAGAIN) 0)])
                  (rc_lost s) (rc_slept s)) true
| fate_queued :
    po_closed p = false → length (rc_queue s) < CAPACITY →
    fate p n s (mkReceiving (rc_queue s ++ [Ok n]) (rc_taken s) (rc_refused s) (rc_lost s) (rc_slept s)) true.

Lemma receiver_turn_fate s p n s' go_on :
  received_in p = [n] → length (rc_queue s) ≤ CAPACITY → receiver_turn s p = (s', go_on) →
  fate p n (consume (po_taken p) s) s' go_on.
Proof.
  unfold received_in, receiver_turn. intros Hn Hl. destruct (po_stop p); [done|].
  destruct (po_events p) as [events|]; [|done]. destruct (po_stop_after p); [done|].
  destruct (list_find _ events) as [[i [tag flags]]|]; [|done]. destruct (Z.land flags EPOLLIN =? 0)%Z; [done|].
  unfold receive_turn. simpl. destruct (po_receive p) as [n'|]; [|done]. injection Hn as ->. unfold try_send.
  destruct (po_closed p) eqn:Ec; [intros [= <- <-]; by apply (fate_lost p n (consume _ s))|].
  assert (length (rc_queue (consume (po_taken p) s)) ≤ CAPACITY) by (simpl; rewrite length_drop; lia).
  case_bool_decide; intros [= <- <-]; [apply (fate_refused p n (consume _ s)); [done|lia]|apply (fate_queued p n (consume _ s)); [done|lia]].
Qed.

(** ** Theorems *)

(** C30: In every run each notification the receiver thread takes from the kernel is put at
    the end of the channel when the channel is open and fewer than 256 messages wait,
    answered with errno EAGAIN when it is open and 256 wait, and dropped, ending the thread,
    only when it is closed; each is in exactly one of these places, the queued ones in
    order, and at most 256 wait. *)
Theorem notifications_queued_or_refused (ps : list polled) :
  let '(s, go_on) := receiver_run receiving_start ps in
  ∃ done rest, ps = done ++ rest ∧ (go_on = true → rest = [] ∧ rc_lost s = []) ∧
    (∀ before p after n, done = before ++ p :: after → received_in p = [n] →
       ∃ s0 s1 go, receiver_run receiving_start before = (s0, true) ∧ receiver_turn s0 p = (s1, go) ∧
         fate p n (consume (po_taken p) s0) s1 go ∧ (go = false → after = [])) ∧
    placed s ≡ₚ concat (received_in <$> done) ∧
    notifications (rc_taken s ++ rc_queue s) `sublist_of` concat (received_in <$> done) ∧
    length (rc_queue s) ≤ CAPACITY.
Proof.
  pose proof (receiver_run_turns ps receiving_start) as H. destruct (receiver_run receiving_start ps) as [s go_on].
  destruct H as (d & r & -> & Hr & (Hp & (kept & Hk & Hn) & Hb & Hl) & Hturns). exists d, r. split; [done|]. split; [auto|].
  split; [|split; [exact Hp|]; split; [by rewrite Hn|]; apply Hb; simpl; lia].
  intros before p after n Hd Hin. destruct (Hturns _ _ _ Hd) as (s0 & s1 & go & H0 & H1 & Hs).
  exists s0, s1, go. split_and!; [done|done| |done]. eapply receiver_turn_fate; [done| |done].
  pose proof (receiver_run_turns before receiving_start) as Hq. rewrite H0 in Hq.
  destruct Hq as (? & ? & _ & _ & (_ & _ & Hq & _) & _). apply Hq. simpl. lia.
Qed.

(** A failed start, and a drop, leave the action SIGURG had. *)
Lemma sigurg_restored (u : setup) (current : action) :
  match receiver_start u current with
  | (Err _, now) => now = current
  | (Ok previous, now) =>
      now = InterruptReceive ∧
      ∀ waits, receiver_drop previous (replicate waits false ++ [true]) = Some (waits, current)
  end.
Proof.
  unfold receiver_start, restore_on_err. cbn. destruct (su_sigaction u); [|done]. cbn.
  destruct (su_eventfd u); [|done]. cbn. destruct (poller u); [|done]. cbn. destruct (su_spawn u); [|done]. cbn.
  split; [done|]. intros waits. unfold receiver_drop.
  replace (drop_wait (replicate waits false ++ [true])) with (Some waits); [done|].
  induction waits as [|waits IH]; [done|]. simpl. by rewrite <-IH.
Qed.
