(* ===== verification/Startup.v ===== *)
(** * Start-up and supervision: src/broker/mod.rs, src/main.rs

    The command installs the filter and offers the supervisor twenty bytes of
    metadata; [service_start] reads them, probes every capability it needs on
    the command itself, starts the receiver and the broker and answers one
    byte on the control stream; [command_finish] goes on when that byte comes and its own memory is
    intact. [supervise] waits for the reaper, forwards signals to it and ends
    the broker. Calls to the kernel are arguments, calls to other components
    the definitions of their files. *)
From S2P Require Import Prelude RustStd Net Stream Seccomp Access Memory Sockets Files Engine Receiver.
From S2P Require Import Process.

Inductive setup_error :=
| SetupIo (e : io_error)
| SetupFailed.

(** ** ChildSetup *)

(** The results of the command's calls: its socket, the listener of the filter
    it installs, its thread, the address of its byte, the write to the control
    stream, and what it opens as /etc/resolv.conf. *)
Record child_env := mkChildEnv {
  ce_probe : io Z;
  ce_install : io Z;
  ce_tid : Z;
  ce_address : Z;
  ce_write : io ();
  ce_opened : io Z;
  ce_contents : io bytes;
}.

Definition metadata (tid listener probe address : Z) : bytes :=
  le_bytes 4 tid ++ le_bytes 4 listener ++ le_bytes 4 probe ++ le_bytes 8 address.

(** [command] up to the bytes it writes. *)
Definition command_offer (e : child_env) : io bytes :=
  probe ← ce_probe e;
  listener ← ce_install e;
  let m := metadata (ce_tid e) listener probe (ce_address e) in
  _ ← ce_write e;
  Ok m.

(** [reaper]'s thread on the lifetime stream: the signal it sends itself once
    a read returns. *)
Fixpoint lifetime (reads : list (io nat)) : option Z :=
  match reads with
  | [] => None
  | Err e :: reads => if bool_decide (kind e = RustStd.Interrupted) then lifetime reads else Some SIGTERM
  | Ok _ :: _ => Some SIGTERM
  end.

(** ** Service::start *)

Record Service := mkService { sv_task : bool; sv_shutdown : Shutdown; sv_receiver : bool }.

(** What the supervisor's calls return: pidfds, its own thread, socket pair,
    byte and memory for [SocketAccess::probe], the sockets it holds, the
    listener's ioctl, the first socket snapshot, the receiver's set-up, the
    parts of [Broker::new] and the write of the ready byte. *)
Record service_env := mkServiceEnv {
  se_kern : fd_kernel;
  se_own : Z;
  se_pair : io Z;
  se_byte : Z;
  se_self : target;
  se_sockets : kernel;
  se_ioctl : Z → Z → AddFd → io ();
  se_snapshot : io (gset Z);
  se_setup : setup;
  se_action : action;
  se_broker : io ();
  se_write : io ();
}.

(** The four numbers; [Err] is unreachable, the buffer has 20 bytes. *)
Definition read_metadata (m : bytes) : Z * Z * Z * Z :=
  (le_value (take 4 m), signed_value (take 4 (drop 4 m)), signed_value (take 4 (drop 8 m)), le_value (drop 12 m)).

Section start.
Context {T : Type} `{!TargetMemory T}.

Definition setup_io {S A} (r : io A) : M S setup_error A := lift_result (map_err SetupIo r).

(** The service works on the target's memory and writes to the control stream:
    its state is the memory and what it has written. *)
Definition on_target {A} (m : M T setup_error A) : M (T * bytes) setup_error A :=
  λ '(s, sent), let '(r, s) := m s in (r, (s, sent)).

(** [control.write_all(bs)]; [r] is the result of the write. *)
Definition control_write (r : io ()) (bs : bytes) : M (T * bytes) setup_error () :=
  λ '(s, sent), match r with
                | Ok _ => (Ok (), (s, sent ++ bs))
                | Err error => (Err (SetupIo error), (s, sent))
                end.

Definition service_start (e : service_env) (control : io bytes) : M (T * bytes) setup_error Service :=
  m ← setup_io control;
  let '(tid, listener_fd, probe_fd, address) := read_metadata m in
  access ← setup_io (probe (se_kern e) (se_own e) (se_pair e) (se_byte e) (se_self e)).1;
  listener ← setup_io (get (se_kern e) access tid listener_fd);
  probe ← setup_io (get (se_kern e) access tid probe_fd);
  tcp ← setup_io (is_tcp_v4 (se_sockets e) probe);
  if negb tcp then mfail SetupFailed else
  _ ← setup_io (probe_addfd (se_ioctl e listener) probe);
  memory ← on_target (with_context SetupIo (peek tid address 1));
  _ ← on_target (with_context SetupIo (poke tid address memory));
  if negb (bool_decide (memory = [x6e])) then mfail SetupFailed else
  _ ← setup_io (se_snapshot e);
  _ ← setup_io (receiver_start (se_setup e) (se_action e)).1;
  _ ← setup_io (se_broker e);
  _ ← control_write (se_write e) [x01];
  mret (mkService true Running true).

(** [command] from the byte it reads on; its own memory is the target's. *)
Definition command_finish (e : child_env) (ready : io bytes) : M T setup_error () :=
  ready ← setup_io ready;
  s ← mget;
  if negb (bool_decide (ready = [x01])) || negb (bool_decide (mapped_prefix (mem s) (ce_address e) 1 = [x6e]))
  then mfail SetupFailed else
  setup_io (verify_bootstrap (ce_opened e) (ce_contents e)).
End start.

(** ** The running service *)

Definition begin_shutdown (force : bool) (sv : Service) : Service :=
  if bool_decide (sv_shutdown sv = Abort_) then sv
  else mkService (sv_task sv) (if force then Abort_ else Drain) (sv_receiver sv).

Definition is_running (sv : Service) : bool := sv_task sv.

(** [wait] when the task has ended with [r]; without a task it never returns. *)
Definition service_wait (r : io ()) (sv : Service) : option (io () * Service) :=
  if sv_task sv then Some (r, mkService false (sv_shutdown sv) (sv_receiver sv)) else None.

Definition service_stop (sv : Service) : Service :=
  let sv := begin_shutdown true sv in mkService false (sv_shutdown sv) false.

Definition service_drop (sv : Service) : Service := mkService (sv_task sv) Abort_ (sv_receiver sv).

(** ** main.rs *)

(** waitpid(child): what it returns until the child is gone. *)
Inductive child_status :=
| ChildExited (code : Z)
| ChildSignaled (signal : Z)
| ChildOther
| ChildErrno (errno : Z).

Fixpoint wait_child (waits : list child_status) : option (result Z Z) :=
  match waits with
  | [] => None
  | ChildExited code :: _ => Some (Ok code)
  | ChildSignaled signal :: _ => Some (Ok (128 + signal)%Z)
  | ChildOther :: waits => wait_child waits
  | ChildErrno errno :: waits => if (errno =? EINTR)%Z then wait_child waits else Some (Err errno)
  end.

(** The branch a [select!] took; [kill] is kill(2)'s errno on the child. *)
Inductive supervisor_event :=
| ChildDone (r : result Z Z)
| GotSignal (signal kill : Z)
| ServiceDone (r : io ()) (kill : Z).

Record supervisor := mkSupervisor {
  su_service : Service;
  su_failed : bool;
  su_terminating : bool;
  su_forwarded : list Z;
}.

Inductive supervise_error :=
| WaitChild (errno : Z)
| Forward (e : process_error).

Inductive supervise_turn :=
| Go (s : supervisor)
| Exit (status : Z) (s : supervisor)
| Stop (e : supervise_error) (s : supervisor).

(** [process::forward_signal(child, received)?] *)
Definition forward (signal kill : Z) (s : supervisor) : supervise_turn :=
  let s := mkSupervisor (su_service s) (su_failed s) true (su_forwarded s ++ [signal]) in
  match forward_signal (λ _, kill) 0 with
  | Ok _ => Go s
  | Err e => Stop (Forward e) s
  end.

(** The first loop. *)
Definition supervise_step (s : supervisor) (e : supervisor_event) : supervise_turn :=
  match e with
  | ChildDone (Ok status) => Exit status s
  | ChildDone (Err errno) => Stop (WaitChild errno) s
  | GotSignal signal kill => forward signal kill s
  | ServiceDone r kill =>
      match service_wait r (su_service s) with
      | None => Go s
      | Some (Ok _, sv) => Go (mkSupervisor sv (su_failed s) (su_terminating s) (su_forwarded s))
      | Some (Err _, sv) => forward SIGTERM kill (mkSupervisor sv true (su_terminating s) (su_forwarded s))
      end
  end.

Fixpoint supervise_loop (s : supervisor) (es : list supervisor_event) : supervise_turn * list supervisor_event :=
  match es with
  | [] => (Go s, [])
  | e :: es => match supervise_step s e with
               | Go s => supervise_loop s es
               | stopped => (stopped, es)
               end
  end.

(** The second loop: until the service has ended. *)
Fixpoint drain_loop (s : supervisor) (interrupted : option Z) (es : list supervisor_event)
    : option (supervisor * option Z) :=
  if negb (is_running (su_service s)) then Some (s, interrupted) else
  match es with
  | [] => None
  | ChildDone _ :: es => drain_loop s interrupted es
  | ServiceDone r _ :: es =>
      drain_loop (mkSupervisor (mkService false (sv_shutdown (su_service s)) (sv_receiver (su_service s)))
                    (match r with Err _ => true | Ok _ => su_failed s end) (su_terminating s) (su_forwarded s))
        interrupted es
  | GotSignal signal _ :: es =>
      drain_loop (mkSupervisor (begin_shutdown true (su_service s)) (su_failed s) (su_terminating s) (su_forwarded s))
        (Some (default (128 + signal)%Z interrupted)) es
  end.

(** [None] while it has not ended. *)
Definition supervise (sv : Service) (es : list supervisor_event) : option (result supervise_error Z * supervisor) :=
  match supervise_loop (mkSupervisor sv false false []) es with
  | (Go _, _) => None
  | (Stop e s, _) => Some (Err e, mkSupervisor (service_drop (su_service s)) (su_failed s) (su_terminating s) (su_forwarded s))
  | (Exit status s, es) =>
      let s := mkSupervisor (begin_shutdown (su_terminating s || su_failed s) (su_service s))
                 (su_failed s) (su_terminating s) (su_forwarded s) in
      '(s, interrupted) ← drain_loop s None es;
      Some (Ok (if su_failed s then 1%Z else default status interrupted),
            mkSupervisor (service_stop (su_service s)) (su_failed s) (su_terminating s) (su_forwarded s))
  end.

(** The parent's side of [run]: a failed supervision signals the reaper and
    waits for it; both results are ignored. *)
Definition run_parent (supervised : result supervise_error Z) (waits : list child_status)
    : result supervise_error Z * list Z * option (result Z Z) :=
  match supervised with
  | Ok code => (Ok code, [], None)
  | Err e => (Err e, [SIGTERM], wait_child waits)
  end.

(** ** The handshake *)

Lemma length_metadata tid listener probe address : length (metadata tid listener probe address) = 20.
Proof. unfold metadata. by rewrite !length_app, !length_le_bytes. Qed.

Definition i32_ok (z : Z) : Prop := (0 ≤ z ≤ I32_MAX)%Z.

Lemma signed_value_i32 z : i32_ok z → signed_value (le_bytes 4 z) = z.
Proof.
  unfold i32_ok, I32_MAX, signed_value. intros Hz. rewrite le_value_bytes_small by (simpl; lia).
  by replace (z <? 2 ^ 31)%Z with true by (symmetry; apply Z.ltb_lt; lia).
Qed.

Lemma read_metadata_roundtrip tid listener probe address :
  (0 ≤ tid ≤ U32_MAX)%Z → i32_ok listener → i32_ok probe → (0 ≤ address ≤ U64_MAX)%Z →
  read_metadata (metadata tid listener probe address) = (tid, listener, probe, address).
Proof.
  unfold U32_MAX, U64_MAX. intros Ht Hl Hp Ha. unfold read_metadata, metadata.
  set (m := le_bytes 4 tid ++ _).
  replace (drop 12 m) with (drop 4 (drop 4 (drop 4 m))) by (by rewrite !drop_drop).
  replace (drop 8 m) with (drop 4 (drop 4 m)) by (by rewrite drop_drop). subst m.
  rewrite !drop_app_length', !take_app_length' by (by rewrite length_le_bytes).
  rewrite !signed_value_i32, !le_value_bytes_small by (done || (simpl; lia)). done.
Qed.

Lemma store_same m a bs : holds m a bs → store m a bs = m.
Proof.
  rewrite holds_lookup. intros Hb. apply map_eq. intros x. rewrite lookup_store. case_decide as Hx; [|done].
  destruct (lookup_lt_is_Some_2 bs (Z.to_nat (x - a))) as [b Hi]; [lia|]. rewrite Hi. symmetry.
  rewrite <-(Hb _ _ Hi). f_equal. lia.
Qed.

Section handshake.
Context {T : Type} `{!TargetMemory T}.

(** A healthy target whose byte is mapped: it is read and written back. *)
Lemma byte_probed tid a b (s : T) :
  healthy s → check_tid tid = Ok () → address_ok a 1 = true → holds (mem s) a [b] →
  ∃ s1 s2, peek tid a 1 s = (Ok [b], s1) ∧ poke tid a [b] s1 = (Ok (), s2) ∧ mem s2 = mem s.
Proof.
  intros Hh Ht Ha Hb. pose proof (holds_is_mapped _ _ _ Hb) as Hmap.
  pose proof (peek_live tid a 1 s Hh Ht (or_intror (conj Ha Hmap))) as Hlive.
  destruct (peek tid a 1 s) as [[bs|e] s1] eqn:E1; [|done].
  apply peek_law in E1 as (Hm1 & Hh1 & Hl & Hbs). rewrite (holds_unique (mem s) a bs [b] Hl Hbs Hb).
  pose proof (poke_live tid a [b] s1 (Hh1 Hh) Ht) as Hlive2. rewrite Hm1 in Hlive2.
  specialize (Hlive2 (or_intror (conj Ha Hmap))).
  destruct (poke tid a [b] s1) as [[[]|e] s2] eqn:E2; [|done].
  pose proof (poke_law _ _ _ _ _ _ E2) as (_ & _ & Hm2). exists s1, s2. split; [done|]. split; [done|].
  by rewrite Hm2, Hm1, store_same.
Qed.

(** What the supervisor finds when every probe succeeds on the command. *)
Record probes_ok (c : child_env) (e : service_env) (listener probe_fd : Z) (s : T) : Prop := {
  po_child : ce_probe c = Ok probe_fd ∧ ce_install c = Ok listener ∧ ce_write c = Ok ();
  po_fds : i32_ok listener ∧ i32_ok probe_fd;
  po_tid : (0 < ce_tid c ≤ I32_MAX)%Z;
  po_byte : address_ok (ce_address c) 1 = true ∧ (0 ≤ ce_address c ≤ U64_MAX)%Z ∧
            healthy s ∧ holds (mem s) (ce_address c) [x6e];
  po_access : ∃ method l p,
    (probe (se_kern e) (se_own e) (se_pair e) (se_byte e) (se_self e)).1 = Ok method ∧
    get (se_kern e) method (ce_tid c) listener = Ok l ∧ get (se_kern e) method (ce_tid c) probe_fd = Ok p ∧
    is_tcp_v4 (se_sockets e) p = Ok true ∧ probe_addfd (se_ioctl e l) p = Ok ();
  po_started : is_ok (se_snapshot e) = true ∧ is_ok (receiver_start (se_setup e) (se_action e)).1 = true ∧
               se_broker e = Ok () ∧ se_write e = Ok ();
  po_bootstrap : verify_bootstrap (ce_opened c) (ce_contents c) = Ok ();
}.

(** C33: When every probe succeeds on the command, the twenty bytes it offers are read back
    as its thread, listener, socket and address, the service starts, is running and has
    written the ready byte, the memory of the command is unchanged, and the command goes on. *)
Theorem startup_completes (c : child_env) (e : service_env) (listener probe_fd : Z) (s : T) :
  probes_ok c e listener probe_fd s →
  ∃ m s', command_offer c = Ok m ∧ length m = 20 ∧
    service_start e (Ok m) (s, []) = (Ok (mkService true Running true), (s', [x01])) ∧ mem s' = mem s ∧
    command_finish c (Ok [x01]) s' = (Ok (), s').
Proof.
  intros [(Hp & Hi & Hw) (Hl & Hf) Ht (Ha & Ha' & Hh & Hb) (method & l & p & Hm & Hgl & Hgp & Htcp & Hadd) (Hsn & Hr & Hbr & Hwr) Hv].
  destruct (byte_probed (ce_tid c) (ce_address c) x6e s Hh) as (s1 & s2 & Hpeek & Hpoke & Hmem); try done.
  { unfold check_tid, I32_MAX in *. destruct (Z.eqb_spec (ce_tid c) 0), (Z.ltb_spec 2147483647 (ce_tid c)); simpl; done || lia. }
  exists (metadata (ce_tid c) listener probe_fd (ce_address c)), s2. unfold command_offer. rewrite Hp, Hi, Hw.
  split; [done|]. split; [apply length_metadata|]. split; [|split; [done|]].
  - unfold service_start. eapply M_bind_step; [done|]. rewrite read_metadata_roundtrip by (done || unfold I32_MAX, U32_MAX in *; lia).
    rewrite Hm. eapply M_bind_step; [done|]. rewrite Hgl. eapply M_bind_step; [done|]. rewrite Hgp. eapply M_bind_step; [done|].
    rewrite Htcp. eapply M_bind_step; [done|]. simpl negb. cbv iota. rewrite Hadd. eapply M_bind_step; [done|].
    eapply M_bind_step; [unfold on_target, with_context; by rewrite Hpeek|].
    eapply M_bind_step; [unfold on_target, with_context; by rewrite Hpoke|]. rewrite bool_decide_true by done. simpl negb. cbv iota.
    destruct (se_snapshot e); [|done]. eapply M_bind_step; [done|].
    destruct (receiver_start _ _) as [[prev|] now]; [|done]. eapply M_bind_step; [done|].
    rewrite Hbr. eapply M_bind_step; [done|]. rewrite Hwr. by eapply M_bind_step.
  - unfold command_finish. eapply M_bind_step; [done|]. eapply M_bind_step; [done|].
    rewrite Hmem. unfold holds in Hb. simpl length in Hb. rewrite Hb, !bool_decide_true by done. simpl orb. cbv iota.
    by rewrite Hv.
Qed.
End handshake.

Definition child_example : child_env := mkChildEnv (Ok 4%Z) (Ok 3%Z) 100 0x7000 (Ok ()) (Ok SEALS) (Ok resolv_conf).

(** Every socket is an IPv4 TCP socket. *)
Definition stream_kernel : kernel :=
  mkKernel (λ _ _, Err (RawOs ENOTCONN))
    (λ _ _ o, Ok (le_bytes 4 (if (o =? SO_DOMAIN)%Z then AF_INET
                              else if (o =? SO_PROTOCOL)%Z then IPPROTO_TCP else SOCK_STREAM)))
    (λ _, Ok 7%Z) (λ _ _, Ok 0%Z).

Definition service_example : service_env := mkServiceEnv
  (mkFdKernel (λ _ _, Ok 9%Z) (λ _ fd, Ok (fd + 10)%Z) (λ _, Err (RawOs ENOENT)) (λ _ _ _, Ok 0%Z))
  50 (Ok 5%Z) 0x1000 (mkTarget (store ∅ 0x1000 [x00]) []) stream_kernel (λ _ _ _, Err (RawOs ENOENT)) (Ok ∅)
  (mkSetup (Ok ()) (Ok ()) (Ok ()) (λ _, Ok ()) (Ok ())) (Previous 0) (Ok ()) (Ok ()).

Definition command_memory : target := mkTarget (store ∅ 0x7000 [x6e]) [Fault EINTR].

Lemma startup_completes_witness :
  ∃ m s', command_offer child_example = Ok m ∧ length m = 20 ∧
    service_start service_example (Ok m) (command_memory, []) = (Ok (mkService true Running true), (s', [x01])) ∧
    mem s' = mem command_memory ∧ command_finish child_example (Ok [x01]) s' = (Ok (), s').
Proof.
  apply (startup_completes child_example service_example 3 4 command_memory). split.
  - done.
  - unfold i32_ok. vm_compute. intuition discriminate.
  - vm_compute. intuition discriminate.
  - split; [reflexivity|]. split; [vm_compute; intuition discriminate|]. split; [repeat constructor|].
    apply (store_holds ∅ 0x7000 [x6e]).
  - exists Thread, 13%Z, 14%Z. split_and!; vm_compute; reflexivity.
  - done.
  - vm_compute. reflexivity.
Defined.

(** ** Supervision *)

(** A turn of the first loop that is not the end of the reaper, and whose
    signal, if it sends one, reaches it or finds it gone. *)
Definition alive_event (e : supervisor_event) : Prop :=
  match e with
  | ChildDone _ => False
  | GotSignal _ kill | ServiceDone _ kill => kill = 0%Z ∨ kill = ESRCH
  end.

(** How the service ended, if it did. *)
Fixpoint first_done (es : list supervisor_event) : option (io ()) :=
  match es with
  | [] => None
  | ServiceDone r _ :: _ => Some r
  | _ :: es => first_done es
  end.

(** The first signal while the service ran. *)
Fixpoint first_signal (es : list supervisor_event) : option Z :=
  match es with
  | [] | ServiceDone _ _ :: _ => None
  | GotSignal signal _ :: _ => Some signal
  | ChildDone _ :: es => first_signal es
  end.

(** The signals the reaper gets: those received, and SIGTERM for a service
    that failed. *)
Fixpoint forwarded_by (running : bool) (es : list supervisor_event) : list Z :=
  match es with
  | [] => []
  | GotSignal signal _ :: es => signal :: forwarded_by running es
  | ServiceDone (Err _) _ :: es => (if running then [SIGTERM] else []) ++ forwarded_by false es
  | ServiceDone (Ok _) _ :: es => forwarded_by false es
  | ChildDone _ :: es => forwarded_by running es
  end.

Definition is_failure (r : option (io ())) : bool := match r with Some (Err _) => true | _ => false end.

Definition is_done (r : option (io ())) : bool := match r with Some _ => true | None => false end.

(** The state after the turns of the first loop. *)
Definition after_turns (s : supervisor) (es : list supervisor_event) : supervisor :=
  let running := sv_task (su_service s) in
  mkSupervisor (mkService (running && negb (is_done (first_done es))) (sv_shutdown (su_service s)) (sv_receiver (su_service s)))
    (su_failed s || running && is_failure (first_done es))
    (su_terminating s || negb (bool_decide (forwarded_by running es = [])))
    (su_forwarded s ++ forwarded_by running es).

Lemma forward_alive signal kill s :
  kill = 0%Z ∨ kill = ESRCH → forward signal kill s = Go (mkSupervisor (su_service s) (su_failed s) true (su_forwarded s ++ [signal])).
Proof. by intros [-> | ->]. Qed.

Lemma supervise_loop_alive es : ∀ s rest,
  Forall alive_event es → supervise_loop s (es ++ rest) = supervise_loop (after_turns s es) rest.
Proof.
  induction es as [|e es IH]; intros s rest Hall.
  { f_equal. destruct s as [[running shut recv] failed term fwd]. unfold after_turns. simpl.
    by rewrite !andb_true_r, andb_false_r, !orb_false_r, app_nil_r. }
  apply Forall_cons_1 in Hall as [He Hall]. destruct e as [r|signal kill|r kill]; [done|..]; cbn [app supervise_loop supervise_step].
  - rewrite forward_alive by done. rewrite IH by done. f_equal. unfold after_turns. simpl.
    by rewrite <-app_assoc, !orb_true_r.
  - destruct s as [[[|] shut recv] failed term fwd]; cbn [service_wait sv_task su_service]; [destruct r as [[]|err]|].
    + rewrite IH by done. by unfold after_turns; simpl; rewrite ?orb_false_r.
    + rewrite forward_alive by done. cbn [su_service su_failed su_forwarded]. rewrite IH by done. f_equal. unfold after_turns. simpl.
      by rewrite <-app_assoc, !orb_true_r.
    + rewrite IH by done. f_equal. unfold after_turns. simpl.
      by destruct r.
Qed.

(** The second loop, with a service that still runs and will end. *)
Lemma drain_loop_ends es r : ∀ s interrupted,
  sv_task (su_service s) = true → first_done es = Some r →
  ∃ s', drain_loop s interrupted es =
          Some (s', match interrupted with Some c => Some c | None => (λ n, 128 + n)%Z <$> first_signal es end) ∧
    su_failed s' = su_failed s || is_failure (Some r) ∧ su_forwarded s' = su_forwarded s.
Proof.
  induction es as [|e es IH]; intros s interrupted Hs Hd; [done|]. cbn [drain_loop]. unfold is_running. rewrite Hs. simpl negb. cbv iota.
  destruct e as [c|signal kill|r' kill]; cbn [first_done first_signal] in *.
  - by apply IH.
  - destruct (IH (mkSupervisor (begin_shutdown true (su_service s)) (su_failed s) (su_terminating s) (su_forwarded s))
                (Some (default (128 + signal)%Z interrupted))) as (s' & -> & Hf & Hw); [|done|].
    { unfold begin_shutdown. simpl. by case_bool_decide. }
    exists s'. split; [by destruct interrupted|done].
  - injection Hd as ->. eexists. split; [by destruct es, interrupted|]. simpl. split; [|done].
    destruct r as [[]|]; simpl; by rewrite ?orb_false_r, ?orb_true_r.
Qed.

Lemma service_stop_final sv : service_stop sv = mkService false Abort_ false.
Proof. unfold service_stop, begin_shutdown. case_bool_decide as H; simpl; [by rewrite H|done]. Qed.

Lemma begin_shutdown_task force sv : sv_task (begin_shutdown force sv) = sv_task sv.
Proof. unfold begin_shutdown. by case_bool_decide. Qed.

Lemma first_done_app es es' :
  first_done (es ++ es') = match first_done es with Some r => Some r | None => first_done es' end.
Proof. induction es as [|[] es IH]; simpl; auto. Qed.

(** ** Theorems *)

(** The supervisor exits with 1 if the broker failed, else with 128 plus the first
    signal received while it drained, else with the status of the command tree; it forwarded
    exactly the signals received before the tree ended (SIGTERM for a failed broker) and
    none after, and the service is stopped. *)
Lemma supervise_exit_status (es es' : list supervisor_event) (status : Z) :
  Forall alive_event es → is_Some (first_done (es ++ es')) →
  ∃ s, supervise (mkService true Running true) (es ++ ChildDone (Ok status) :: es') =
         Some (Ok (if is_failure (first_done (es ++ es')) then 1
                   else if is_done (first_done es) then status
                   else default status ((λ n, 128 + n) <$> first_signal es'))%Z, s) ∧
       su_forwarded s = forwarded_by true es ∧ su_service s = mkService false Abort_ false.
Proof.
  intros Hall Hd. unfold supervise. rewrite supervise_loop_alive by done. cbn [supervise_loop supervise_step].
  rewrite first_done_app in *. set (s1 := mkSupervisor (begin_shutdown _ _) _ _ _).
  assert (Htask : sv_task (su_service s1) = negb (is_done (first_done es))).
  { subst s1. cbn [su_service]. by rewrite begin_shutdown_task. }
  assert (Hfail : su_failed s1 = is_failure (first_done es)) by done.
  assert (Hfwd : su_forwarded s1 = forwarded_by true es) by done.
  clearbody s1. destruct (first_done es) as [r|] eqn:E.
  - cbn [is_done negb] in Htask. assert (Hdr : drain_loop s1 None es' = Some (s1, None)).
    { destruct es'; cbn [drain_loop]; unfold is_running; by rewrite Htask. }
    rewrite Hdr. cbn [mbind option_bind]. rewrite Hfail. eexists. split; [done|]. cbn [su_forwarded su_service].
    by rewrite service_stop_final.
  - destruct Hd as [r Hr]. rewrite Hr. destruct (drain_loop_ends es' r s1 None Htask Hr) as (s2 & -> & Hf2 & Hw2).
    cbn [mbind option_bind]. rewrite Hf2, Hfail. eexists. split; [done|]. cbn [su_forwarded su_service].
    by rewrite service_stop_final, Hw2.
Qed.

Lemma supervise_exit_status_witness :
  ∃ s, supervise (mkService true Running true)
         ([GotSignal SIGINT 0] ++ ChildDone (Ok 7%Z) :: [GotSignal SIGTERM 0; GotSignal SIGHUP 0; ServiceDone (Ok ()) 0]) =
         Some (Ok 143%Z, s) ∧ su_forwarded s = [SIGINT] ∧ su_service s = mkService false Abort_ false.
Proof.
  apply (supervise_exit_status [GotSignal SIGINT 0] [GotSignal SIGTERM 0; GotSignal SIGHUP 0; ServiceDone (Ok ()) 0] 7).
  - repeat constructor.
  - by eexists.
Defined.
