(* ===== verification/Main.v ===== *)
(** * The program: src/main.rs, and the command's side of src/process.rs

    [run] composes the parts the way main does: the configuration, the two
    socket pairs, the fork, then the reaper in the child and the supervisor in
    the parent. [handshake] runs the two ends of the control stream against
    each other: what the command offers is what the service reads, and what the
    service wrote by the time it returns is what the command reads (a side that
    is gone has closed its end). Parsing the command line is clap's; [Cli] is
    what it gives. *)
From S2P Require Import Prelude RustStd Net Stream Proxy Rule Config Seccomp Access Memory Sockets Files Engine Receiver.
From S2P Require Import Process Startup.

Record Cli := mkCli {
  cli_proxy : bytes;
  cli_rules : list bytes;
  cli_verbose : Z;
  cli_command : list bytes;
}.

Inductive run_error :=
| BadConfig (e : config_error)
| RunIo (e : io_error)
| StartBroker (e : setup_error)
| Supervision (e : supervise_error)
| TreeSetup (e : io_error)
| TreeFailed (e : tree_end).

(** ** The handshake of the two processes *)

Section handshake.
Context {T : Type} `{!TargetMemory T}.

(** What each side ends with, and the memory of the command after it. *)
Definition handshake (c : child_env) (e : service_env) (s : T) : result setup_error Service * result setup_error () * T :=
  let eof {A} : io A := Err (Simple UnexpectedEof) in
  match command_offer c with
  | Err error => let '(started, (s, _)) := service_start e eof (s, []) in (started, Err (SetupIo error), s)
  | Ok m =>
      let '(started, (s, sent)) := service_start e (Ok m) (s, []) in
      let '(finished, s) := command_finish c (match sent with b :: _ => Ok [b] | [] => eof end) s in
      (started, finished, s)
  end.

(** The command's process: it execs, or exits with status 1. *)
Definition command_process (mask : io ()) (finished : result setup_error ()) (execvp : bytes → list bytes → option Z)
    (command : list bytes) : option (bytes * list bytes) :=
  match mask, finished with
  | Ok _, Ok _ => match exec_command execvp command with Ok call => Some call | Err _ => None end
  | _, _ => None
  end.

(** Every capability was probed, on this command, and found. *)
Record probed (c : child_env) (e : service_env) (s : T) (listener probe_fd : Z) : Prop := {
  pr_offer : ce_probe c = Ok probe_fd ∧ ce_install c = Ok listener ∧ ce_write c = Ok ();
  pr_access : ∃ method l p,
    (probe (se_kern e) (se_own e) (se_pair e) (se_byte e) (se_self e)).1 = Ok method ∧
    get (se_kern e) method (ce_tid c) listener = Ok l ∧ get (se_kern e) method (ce_tid c) probe_fd = Ok p ∧
    is_tcp_v4 (se_sockets e) p = Ok true ∧ probe_addfd (se_ioctl e l) p = Ok ();
  pr_memory : holds (mem s) (ce_address c) [x6e];
  pr_started : is_ok (se_snapshot e) = true ∧ is_ok (receiver_start (se_setup e) (se_action e)).1 = true ∧
               se_broker e = Ok () ∧ se_write e = Ok ();
  pr_bootstrap : verify_bootstrap (ce_opened c) (ce_contents c) = Ok ();
}.

(** Numbers as the kernel gives them. *)
Record child_numbers (c : child_env) : Prop := {
  cn_probe fd : ce_probe c = Ok fd → i32_ok fd;
  cn_listener fd : ce_install c = Ok fd → i32_ok fd;
  cn_tid : (0 ≤ ce_tid c ≤ U32_MAX)%Z;
  cn_address : (0 ≤ ce_address c ≤ U64_MAX)%Z;
}.

Lemma command_offer_inv c m :
  command_offer c = Ok m →
  ∃ probe_fd listener, ce_probe c = Ok probe_fd ∧ ce_install c = Ok listener ∧ ce_write c = Ok () ∧
    m = metadata (ce_tid c) listener probe_fd (ce_address c).
Proof.
  unfold command_offer. destruct (ce_probe c) as [p|]; [|done]. destruct (ce_install c) as [l|]; [|done].
  destruct (ce_write c) as [[]|]; [|done]. intros [= <-]. eauto 10.
Qed.

Lemma setup_io_ok {S A} (r : io A) (s : S) a s' : setup_io r s = (Ok a, s') → r = Ok a ∧ s' = s.
Proof. unfold setup_io, lift_result. destruct r; by intros [= <- <-]. Qed.

(** A run that has written something got past a call that writes nothing. *)
Lemma wrote_past_io {A B} (r : io A) (f : A → M (T * bytes) setup_error B) s q s' sent :
  (a ← setup_io r; f a) (s, []) = (q, (s', sent)) → sent ≠ [] → ∃ a, r = Ok a ∧ f a (s, []) = (q, (s', sent)).
Proof. rewrite M_bind_run. destruct r as [a|]; [by exists a|]. by intros [= _ _ <-]. Qed.

Lemma wrote_past_target {E A B} (g : E → setup_error) (m : M T E A) (f : A → M (T * bytes) setup_error B) s q s' sent :
  (a ← on_target (with_context g m); f a) (s, []) = (q, (s', sent)) → sent ≠ [] →
  ∃ a s1, m s = (Ok a, s1) ∧ f a (s1, []) = (q, (s', sent)).
Proof.
  rewrite M_bind_run. unfold on_target, with_context. destruct (m s) as [[a|] s1]; [by exists a, s1|].
  by intros [= _ _ <-].
Qed.

(** A service that has written to the command found everything it looked for. *)
Lemma service_wrote_inv e tid listener probe_fd address (s s' : T) started sent :
  (0 ≤ tid ≤ U32_MAX)%Z → i32_ok listener → i32_ok probe_fd → (0 ≤ address ≤ U64_MAX)%Z →
  service_start e (Ok (metadata tid listener probe_fd address)) (s, []) = (started, (s', sent)) → sent ≠ [] →
  started = Ok (mkService true Running true) ∧ mem s' = mem s ∧ holds (mem s) address [x6e] ∧
  (∃ method l p,
    (probe (se_kern e) (se_own e) (se_pair e) (se_byte e) (se_self e)).1 = Ok method ∧
    get (se_kern e) method tid listener = Ok l ∧ get (se_kern e) method tid probe_fd = Ok p ∧
    is_tcp_v4 (se_sockets e) p = Ok true ∧ probe_addfd (se_ioctl e l) p = Ok ()) ∧
  is_ok (se_snapshot e) = true ∧ is_ok (receiver_start (se_setup e) (se_action e)).1 = true ∧
  se_broker e = Ok () ∧ se_write e = Ok ().
Proof.
  intros Ht Hl Hp Ha H Hne. unfold service_start in H.
  apply wrote_past_io in H as (m & [= <-] & H); [|done]. rewrite read_metadata_roundtrip in H by done.
  apply wrote_past_io in H as (method & Hm & H); [|done]. apply wrote_past_io in H as (l & Hgl & H); [|done].
  apply wrote_past_io in H as (p & Hgp & H); [|done]. apply wrote_past_io in H as (tcp & Htcp & H); [|done].
  destruct tcp; [|by injection H as _ _ <-]. cbn [negb] in H. apply wrote_past_io in H as ([] & Hadd & H); [|done].
  apply wrote_past_target in H as (bs & s1 & Hpeek & H); [|done].
  apply wrote_past_target in H as ([] & s2 & Hpoke & H); [|done].
  case_bool_decide as Hb; [|by injection H as _ _ <-]. subst bs. cbn [negb] in H.
  apply wrote_past_io in H as (cookies & Hsn & H); [|done]. apply wrote_past_io in H as (prev & Hr & H); [|done].
  apply wrote_past_io in H as ([] & Hbr & H); [|done]. rewrite M_bind_run in H. unfold control_write in H.
  destruct (se_write e) as [[]|] eqn:Hw; [|by injection H as _ _ <-]. injection H as <- <- <-.
  apply peek_law in Hpeek as (Hm1 & _ & _ & Hh). apply poke_law in Hpoke as (_ & _ & Hm2).
  split; [done|]. split; [rewrite Hm2, Hm1; by apply store_same|]. split; [done|]. split; [by exists method, l, p|].
  by rewrite Hsn, Hr.
Qed.

Lemma command_finish_inv c ready (s s' : T) :
  command_finish c ready s = (Ok (), s') →
  ready = Ok [x01] ∧ s' = s ∧ verify_bootstrap (ce_opened c) (ce_contents c) = Ok ().
Proof.
  unfold command_finish. intros (bs & s0 & [-> ->]%setup_io_ok & H)%M_bind_ok.
  apply M_bind_ok in H as (s1 & s2 & [= <- <-] & H). case_bool_decide as Hr; [|done]. cbn [negb orb] in H.
  case_bool_decide; [|done]. cbn [negb] in H. apply setup_io_ok in H as [Hv ->]. by subst bs.
Qed.
End handshake.

(** ** supervise and run *)

(** The results of the calls before the loop: the runtime, the three signal
    streams and [Service::start]. *)
Record supervise_env := mkSuperviseEnv {
  sp_runtime : io ();
  sp_term : io ();
  sp_int : io ();
  sp_hup : io ();
  sp_service : result setup_error Service;
  sp_events : list supervisor_event;
}.

Definition supervise_start (e : supervise_env) : result run_error Service :=
  _ ← map_err RunIo (sp_runtime e);
  _ ← map_err RunIo (sp_term e);
  _ ← map_err RunIo (sp_int e);
  _ ← map_err RunIo (sp_hup e);
  map_err StartBroker (sp_service e).

(** [None] while it has not ended. *)
Definition supervise_all (e : supervise_env) : option (result run_error Z) :=
  match supervise_start e with
  | Err error => Some (Err error)
  | Ok sv => '(r, _) ← supervise sv (sp_events e); Some (map_err Supervision r)
  end.

(** What fork returned: the child itself, or its number. *)
Inductive forked := InChild | InParent (child : Z).

Record run_env := mkRunEnv {
  rn_control : io ();
  rn_life : io ();
  rn_fork : io forked;
  rn_supervise : supervise_env;
  rn_waits : list child_status;
  rn_fuel : nat;
  rn_setup : tree_setup;
  rn_rounds : list tree_round;
}.

(** The reaper's exit status. *)
Definition tree_result (r : io_error + tree_state * option tree_end) : option (result run_error Z) :=
  match r with
  | inl e => Some (Err (TreeSetup e))
  | inr (_, None) => None
  | inr (_, Some (Status code)) => Some (Ok code)
  | inr (_, Some e) => Some (Err (TreeFailed e))
  end.

Section run.
Context `{RegexEngine}.

(** The result and the signals sent to the reaper; a parent whose supervision
    failed returns once the reaper has ended. *)
Definition run (cli : Cli) (e : run_env) : outcome (option (result run_error Z * list Z)) :=
  match (_ ← map_err BadConfig (load_config (cli_proxy cli) (cli_rules cli) (cli_command cli));
         _ ← map_err RunIo (rn_control e);
         _ ← map_err RunIo (rn_life e);
         map_err RunIo (rn_fork e)) with
  | Err error => Ret (Some (Err error, []))
  | Ok InChild =>
      r ← run_command_tree (rn_fuel e) (rn_setup e) (rn_rounds e);
      Ret (option_map (λ r, (r, [])) (tree_result r))
  | Ok (InParent _) =>
      Ret (match supervise_all (rn_supervise e) with
           | None => None
           | Some (Ok code) => Some (Ok code, [])
           | Some (Err error) => _ ← wait_child (rn_waits e); Some (Err error, [SIGTERM])
           end)
  end.

Definition exit_code (r : result run_error Z * list Z) : Z := match fst r with Ok code => code | Err _ => 1%Z end.

(** [main]: the status the process exits with. *)
Definition main (cli : Cli) (e : run_env) : outcome (option Z) :=
  r ← run cli e; Ret (option_map exit_code r).

(** ** Theorems *)

(** C14: Start-up fails closed: the command is executed only if the service found its
    listener, socket and memory through the bytes it offered, every probe succeeded, the
    receiver and the broker were started and the sealed resolver file was seen; what is
    executed is the command line as given, and its memory is unchanged. *)
Theorem command_runs_only_when_probed {T} `{!TargetMemory T} (c : child_env) (e : service_env) (s s' : T)
    (mask : io ()) (started : result setup_error Service) (finished : result setup_error ())
    (execvp : bytes → list bytes → option Z) (command : list bytes) (call : bytes * list bytes) :
  child_numbers c → handshake c e s = (started, finished, s') →
  command_process mask finished execvp command = Some call →
  ∃ listener probe_fd, probed c e s listener probe_fd ∧ started = Ok (mkService true Running true) ∧ mem s' = mem s ∧
    call = (default [] (head command), command) ∧ Forall (λ a, x00 ∉ a) command.
Proof.
  intros [Hp Hl Ht Ha] Hh Hc. unfold command_process in Hc. destruct mask, finished as [[]|]; try done.
  destruct (exec_command execvp command) as [call'|] eqn:Ex; [|done]. injection Hc as ->. unfold handshake in Hh.
  destruct (command_offer c) as [m|] eqn:Eo; [|by destruct (service_start _ _ _) as [? []]].
  apply command_offer_inv in Eo as (probe_fd & listener & Ep & El & Ew & ->).
  destruct (service_start e _ _) as [st [s1 sent]] eqn:Es. destruct (command_finish c _ s1) as [f s2] eqn:Ef.
  injection Hh as -> -> ->. apply command_finish_inv in Ef as (Hready & -> & Hv).
  apply service_wrote_inv in Es as (-> & Hmem & Hb & Hacc & Hst); [|by eauto..|by intros ->].
  exists listener, probe_fd. split; [by split|]. split; [done|]. split; [done|]. by eapply exec_command_inv.
Qed.

(** The status of a supervised run whose service started. *)
Definition supervised_status (es es' : list supervisor_event) (status : Z) : Z :=
  if is_failure (first_done (es ++ es')) then 1%Z
  else if is_done (first_done es) then status
  else default status ((λ n, 128 + n)%Z <$> first_signal es').

Lemma run_parent_unfold cli e c child :
  load_config (cli_proxy cli) (cli_rules cli) (cli_command cli) = Ok c →
  rn_control e = Ok () → rn_life e = Ok () → rn_fork e = Ok (InParent child) →
  run cli e = Ret (match supervise_all (rn_supervise e) with
                   | None => None
                   | Some (Ok code) => Some (Ok code, [])
                   | Some (Err error) => _ ← wait_child (rn_waits e); Some (Err error, [SIGTERM])
                   end).
Proof. intros Hc H1 H2 H3. unfold run. by rewrite Hc, H1, H2, H3. Qed.

(** C34: A configuration that does not load exits with 1; a supervision that cannot start
    sends the reaper SIGTERM, waits for it and exits with 1; otherwise the status is 1 if
    the broker failed, else 128 plus the first signal received while it drained, else that
    of the command tree. *)
Theorem main_exit_code (cli : Cli) (e : run_env) :
  (∀ err, load_config (cli_proxy cli) (cli_rules cli) (cli_command cli) = Err err → main cli e = Ret (Some 1%Z)) ∧
  ∀ c child,
    load_config (cli_proxy cli) (cli_rules cli) (cli_command cli) = Ok c →
    rn_control e = Ok () → rn_life e = Ok () → rn_fork e = Ok (InParent child) →
    (∀ err, supervise_start (rn_supervise e) = Err err → is_Some (wait_child (rn_waits e)) →
       run cli e = Ret (Some (Err err, [SIGTERM])) ∧ main cli e = Ret (Some 1%Z)) ∧
    (∀ es es' status,
       supervise_start (rn_supervise e) = Ok (mkService true Running true) →
       sp_events (rn_supervise e) = es ++ ChildDone (Ok status) :: es' →
       Forall alive_event es → is_Some (first_done (es ++ es')) →
       run cli e = Ret (Some (Ok (supervised_status es es' status), [])) ∧
       main cli e = Ret (Some (supervised_status es es' status))).
Proof.
  split.
  - intros err Hc. unfold main, run. by rewrite Hc.
  - intros c child Hc H1 H2 H3. pose proof (run_parent_unfold cli e c child Hc H1 H2 H3) as Hr. split.
    + intros err Hs [w Hw]. unfold supervise_all in Hr. rewrite Hs, Hw in Hr. cbn [mbind option_bind] in Hr.
      split; [done|]. unfold main. by rewrite Hr.
    + intros es es' status Hs Hev Hal Hd. unfold supervise_all in Hr. rewrite Hs, Hev in Hr.
      destruct (supervise_exit_status es es' status Hal Hd) as (s & Hsup & _). rewrite Hsup in Hr.
      cbn [mbind option_bind map_err] in Hr. split; [exact Hr|]. unfold main. by rewrite Hr.
Qed.
End run.

(** ** Examples *)

Lemma command_runs_only_when_probed_witness :
  ∃ listener probe_fd, probed child_example service_example command_memory listener probe_fd.
Proof.
  destruct (handshake child_example service_example command_memory) as [[started finished] s'] eqn:E.
  assert (Hf : match handshake child_example service_example command_memory with
               | (_, Ok _, _) => true | _ => false end = true) by (vm_compute; reflexivity).
  rewrite E in Hf. destruct finished as [[]|]; [|discriminate].
  destruct (command_runs_only_when_probed child_example service_example command_memory s' (Ok ()) started (Ok ())
    (λ _ _, None) [lit "true"] (lit "true", [lit "true"])) as (listener & probe_fd & Hp & _).
  - split; simpl; unfold i32_ok, I32_MAX, U32_MAX, U64_MAX; try (intros fd [= <-]); lia.
  - exact E.
  - reflexivity.
  - exists listener, probe_fd. exact Hp.
Defined.

#[local] Existing Instance LiteralRegex.engine.
#[local] Existing Instance LiteralRegex.laws.

Definition cli_example : Cli := mkCli (lit "direct") [] 0 [lit "true"].

Definition run_example : run_env :=
  mkRunEnv (Ok ()) (Ok ()) (Ok (InParent 10))
    (mkSuperviseEnv (Ok ()) (Ok ()) (Ok ()) (Ok ()) (Ok (mkService true Running true))
       ([GotSignal SIGINT 0] ++ ChildDone (Ok 7%Z) :: [ServiceDone (Ok ()) 0]))
    [] 0 (mkTreeSetup (0, 0)%Z (Ok ()) (Ok 11%Z) (Ok ()) 10) [].

Lemma main_exit_code_witness : main cli_example run_example = Ret (Some 7%Z).
Proof.
  destruct (main_exit_code cli_example run_example) as [_ H].
  destruct (H (mkConfig Direct [lit "true"] (mkMatcher None [] trie_empty)) 10%Z eq_refl eq_refl eq_refl eq_refl) as [_ Hs].
  apply (Hs [GotSignal SIGINT 0] [ServiceDone (Ok ()) 0] 7%Z).
  - reflexivity.
  - reflexivity.
  - repeat constructor.
  - eexists. reflexivity.
Defined.
